(* ===== verification/_CoqProject ===== *)
-Q . S2P
Prelude.v
Scale.v
Converters.v
Blake2b.v
XXHash.v
Address.v
Json.v
JsonMulti.v
JsonTyped.v
JsonOrder.v
Extrinsic.v
Storage.v
Metadata.v
Lookup.v
Decode.v
Api.v
ApiInvariant.v
ApiBehaviour.v
Races.v
Updates.v
Int128.v
Words.v
Float128.v
MapQueue.v
Logger.v
JsonRpc.v
Client.v
Delivery.v
WsClient.v
Transfer.v
Application.v
Factory.v
Stack.v
