(* ===== verification/Prelude.v ===== *)
(** A model of polkadot_api_cpp, a C++ client of Polkadot nodes, and its theorems.

    * The program

    [CPolkaApi] ([src/application.cpp]) is what applications call: it asks a node
    for data over JSON-RPC, finds modules, calls and storage items in the node's
    metadata, computes storage keys, and signs and submits extrinsics. Below it
    lie the codecs and hashes it uses and the JSON-RPC client over a WebSocket.

    * The files

    - [Prelude]: outcomes of C++ code, fixed-width integers, C strings and buffers,
      hexadecimal text, [std::map], data races; the tactics and rewrite databases.
    - [Scale] ([src/scale.cpp]): compact integers and the stream of hexadecimal text.
    - [Converters] ([src/utils/converters.cpp]): [fromHex], [atoi128].
    - [Blake2b], [XXHash] ([src/libs/blake], [src/libs/xxhash]): the hash functions.
    - [Address] ([src/utils/address.cpp]): base 58 and addresses with their checksum.
    - [Json] ([src/libs/json11/json11.cpp]): JSON values, printer and parser.
    - [JsonMulti] (the same file): gaps and comments between documents, [parse_multi],
      [has_shape].
    - [JsonTyped], [JsonOrder] (the same file): the type of what the parser returns; the
      comparison operators.
    - [Extrinsic] ([src/structs/signaturepayload.h], [transfer.h], [extrinsic.h] and
      the texts that [src/application.cpp] submits and reads back).
    - [Storage] ([src/utils/storage.cpp]): storage keys.
    - [Metadata] ([src/metadatafactory.cpp], [src/structs/metadataV*.h]): the parsers of
      five versions of the runtime metadata, and the factory that probes them.
    - [Lookup] ([src/application.cpp], the private helpers of [CPolkaApi]): module and
      method indexes, hashers and constants found in the metadata.

    - [Decode] ([src/application.cpp], the [create] functions; [src/structs/]): what the
      API returns, built from the node's answers.
    - [Api] ([src/application.cpp], [src/application.h]): the object [CPolkaApi] with its
      subscriptions and protocol parameters, every request, subscription and
      submission, and the handling of updates. The JSON-RPC client
      ([src/interfaces/ijsonrpc.h]) is the class [IJsonRpc].
    - [ApiInvariant]: the states that calls of the application and updates lead to
      ([step]), rules for programs in the monad [M], and the class [Invariant] of
      the properties that every public operation keeps, with its instances.
    - [ApiBehaviour]: what updates, subscriptions and [getAccountNonce] do; a
      scripted client, on which [connect] and the rest are run.
    - [Races] ([src/application.cpp], [src/jsonrpc.cpp]): the calls that subscribe, with a
      gap before the id is stored in which consumer threads hand on updates.
    - [Updates] (the same files): how each update ends, with an id stored or not.
    - [Int128] ([src/libs/int128]): 128-bit integers as pairs of words, their operators,
      long division and printing.
    - [Words]: the code of [Scale] and [Converters] that computes with [uint128], written over
      a class of its operators, on integers and on pairs of words.
    - [Float128] ([src/libs/int128]): conversions from and to floating-point numbers.
    - [MapQueue] ([src/utils/concurrentmapqueue.h]): the semaphore and the queue between
      the threads that receive updates and those that handle them.
    - [Logger] ([src/elog.cpp]): the logger and the threads that share it.
    - [JsonRpc] ([src/jsonrpc.cpp]): [CJsonRpc] with the threads in [request] and the one in
      [handleMessage] as a step relation.
    - [Client] ([src/jsonrpc.cpp], [src/interfaces/iwsclient.h]): the operations of [CJsonRpc]
      run to their end for one caller; the instance of [IJsonRpc] that [Api] runs on,
      over any client of the class [IWebSocketClient]. The queues of the subscriptions
      have the bound of the source.
    - [Delivery] ([src/jsonrpc.cpp], [src/utils/concurrentmapqueue.h]): the thread in
      [handleMessage] and those in [updateConsumerThread], interleaved over the
      queue of [MapQueue].
    - [WsClient] ([src/wsclient.cpp], [src/config.cpp]): [CWebSocketClient], which certificates
      it accepts, how it connects and disconnects, its lock and its health thread.
    - [Application] ([src/interfaces/iapplication.h]): the interface of the API object as a
      class with its laws, and [CPolkaApi] as an instance.
    - [Transfer]: a transfer over all these layers, from the application to the text on the
      connection and its progress back to the callback.

    - [Factory] ([src/polkacpp.cpp]): the singletons, what owns what, and the end of the
      program.
    - [Stack] ([src/polkacpp.cpp]): the API object on the JSON-RPC client on the WebSocket
      client, as one program over websocketpp.

    [Lookup] uses [Metadata], which uses [Scale]; [Storage] uses [Address], [Json] and
    the hashes; [Extrinsic] uses [Scale], [Converters] and [Address]; [Decode] uses
    [Json] and [Converters]; [Api] uses all of them. [Client] joins [JsonRpc] and [Api]:
    [request_is_execution] relates it to the threads of the former, and the
    theorems of the latter hold over it. [Delivery] joins [MapQueue], the messages of
    [JsonRpc] and the consumers of [Client]. In [JsonRpc] the receiving thread does not
    wait in [put]: an execution in which it does is one in which it makes no more
    actions.

    * Conventions

    Code is a function to [outcome]: it returns, throws one of the exceptions of
    [exn], or has undefined behaviour ([UB]): an access outside an array of known
    extent, a null pointer followed, a signed overflow, an indeterminate value
    read. Integers are [Z] with the wrap-around of their width written out
    ([u8], [u64], [u128], [i64]); characters and bytes are [Z] from 0 to 255, and
    texts are lists of them. Names are those of the source; where the source
    has several overloads, a suffix tells them apart.

    Code of an object is a program of the monad [call] over the state of the object. It
    may also never return ([None]), as [getAccountNonce] does when no nonce arrives.
    [M] is this monad for the API object with the client below it and the calls made
    to the application, [C] for the JSON-RPC client, [W] for the WebSocket client;
    [on_part] runs a call of one on its part of the state of another.
    Where C++11 leaves the order of two evaluations open, one is chosen and named.

    Code that several threads run ([MapQueue], [JsonRpc], [Delivery], [Logger]) is cut into actions, which run
    one at a time in any order; the state says where each thread is, and some of
    its fields only record what happened. An action is a stretch of code under a
    lock, an operation of a condition variable or semaphore, or an access to a
    shared container. Where the code takes no lock for such an access, two of them that
    conflict are a data race, which is undefined behaviour. [MapQueue] says what each
    action accesses ([accesses]) and which states have a race ([races]); there an
    action may end in [UB] for the race or by itself ([may_end]), and the theorem on the
    queue says that races are the only undefined behaviour. [JsonRpc] does the same for
    the table of requests ([caller_accesses], [data_race], [action_ends]). The other theorems on threads
    speak of the executions in which the access happens to be atomic. In [WsClient] and
    [Stack] the thread of the library acts while a call waits for it; [_connected], a plain
    [bool] that several threads access, is read and written atomically there.

    Loops over a text or an array recurse on it. Other loops carry fuel: 16
    rounds for the bytes of a 128-bit number ([encode_big]), a round per digit
    for base 58, two rounds per character for the JSON parser (a value and its
    list step; [json_parse_total] shows they never run out). Arrays of the
    metadata have 64 entries, texts 256 characters, as in the source.

    * The theorems

    - Round trips: compact integers, base 58 and addresses, hexadecimal text, JSON
      printing and parsing (also of several documents with comments), version 7 metadata, pending extrinsics.
    - Refinements: [encodeCompactInteger] against the SCALE compact encoding,
      the buffered BLAKE2b against the hash of whole blocks, XXH64 against its
      description on stripes and words, [atoi128] and [fromHex]
      against the values of their digits.
    - The wire format: what a transfer or any other call submits is the framed
      extrinsic signed over exactly nonce, call, era and genesis hash.
    - Keys and lookups: what storage keys hash, which module and method an index
      stands for.
    - Safety and termination: decoding, XXH64 and the JSON parser stay in bounds
      and terminate on every input.
    - The API object: in every reachable state updates reach the callback they
      belong to; how each update ends, with a callback, an exception or undefined
      behaviour, before and after the id of its subscription is stored; the progress of eras, epochs and sessions is
      right and in range; [getAccountNonce] returns the account's nonce.
    - Types: what the parser accepts is a well-typed JSON value, and the comparisons are
      a weak order on them.
    - 128-bit integers: every operator on pairs of words is that of the integers
      modulo 2^128, division included, and printing gives the whole number; the code
      that uses them gives on words what it gives on integers.
    - The queue: the semaphore is a counter that loses no wake-up; the
      queue has undefined behaviour by data races only, and in the executions without
      them, or whose accesses are atomic, it is a bounded first-in first-out channel per
      key whose consumer gets its messages in order.
    - Delivery: the updates of a subscription are handled in order, each once; the
      threads come to rest and have then handled all of them; updates that nobody
      reads stop the receiving thread at the 128th, and then no request of the
      client gets an answer.
    - Requests: in executions whose accesses are atomic an answer goes to the call that
      asked for it; calls that wait patiently have undefined behaviour only by a race on
      the table, and with one caller and a node that answers what was asked there is
      none; requests of one caller are executions of the threads; what the node
      prints is what the API returns, and a transfer reaches the node and its
      progress the application.
    - The whole stack: a request is one text on the connection and returns the answer
      that the library brings; every new head reaches the callback, in order; what
      [connect] reports; after an exception in [send] no request works.
    - Updates during a subscription: the invariant is kept for all subscriptions but
      those of transfers; an early nonce is lost, and overlapping transfers take each
      other's updates.
    - The connection: exactly which certificates are accepted, when [connect] reports
      success, when health messages are sent.
    - Lifetimes: there is one API object; a program that has disconnected, or never
      connected, deletes every object at its end and uses none after that, unless the detached
      thread of a subscription is still at work.
    - Limits of the code: inputs for which it encodes another number, reads past a
      private key of less than 64 bytes, signs less than it sends, takes a text for the key of zeros, announces a wrong length, overruns a buffer, never
      recognises a hash function, reads an id that was never assigned, ends a
      subscription of the application, misses an answer that comes early, uses a
      condition variable or semaphore that is gone, waits for room that nobody makes,
      accepts a foreign certificate, keeps a lock for ever or ends without joining its threads. Each is stated with
      the exact range.
    - The logger: messages of different threads are not mixed.

    * What is not modelled

    Sockets, TLS and the libraries below the WebSocket client: OpenSSL and websocketpp
    are the classes [OpenSSL] and [WebSocketPP]. The vendored library below
    [Logger], and the calls of the logger, which change nothing else. The branches of
    [Int128] for other compilers, and the [usleep] of [src/polkawin.cpp] for Windows.
    Updates of the API object are handled between the calls of the application, while
    [getAccountNonce] waits, or in the gap of [Races]; each as a whole, since its
    accesses to the members of the object, which no lock protects, would be data races
    otherwise. The signature function of sr25519 and the floating-point library are
    parameters ([sign], [Doubles], [FloatFormat]). *)
From Stdlib Require Export ZArith Lia Sorting.Sorted.
From stdpp Require Export base list gmap strings numbers sets.

#[global] Open Scope Z_scope.

(** ** Outcomes of C++ code

    A piece of C++ code either returns a value, throws, or has undefined
    behaviour: an access outside an array, a null or dangling dereference, a
    signed overflow, a read of an uninitialised object. *)

Inductive exn : Type :=
| out_of_range
| invalid_argument
| CompactIntegerException (msg : list Z)
| ApplicationException (msg : list Z)
| JsonRpcException (msg : list Z)
| websocketpp_exception (msg : list Z)
| bad_function_call
| system_error.

Inductive outcome (A : Type) : Type :=
| Ret (a : A)
| Throw (e : exn)
| UB.

Arguments Ret {A} a.
Arguments Throw {A} e.
Arguments UB {A}.

#[global] Instance outcome_ret : MRet outcome := fun A a => Ret a.
#[global] Instance outcome_bind : MBind outcome := fun A B f m =>
  match m with
  | Ret a => f a
  | Throw e => Throw e
  | UB => UB
  end.
#[global] Instance outcome_fmap : FMap outcome := fun A B f m =>
  match m with
  | Ret a => Ret (f a)
  | Throw e => Throw e
  | UB => UB
  end.

(** Execution is defined: it returns or throws. *)
Definition defined {A} (m : outcome A) : bool :=
  match m with UB => false | _ => true end.

Definition returns {A} (m : outcome A) : bool :=
  match m with Ret _ => true | _ => false end.

(** [assume b] is the point past which execution is only defined when [b]. *)
Definition assume (b : bool) : outcome unit := if b then Ret tt else UB.

(** ** Calls on an object

    A call on an object with states [S] has an outcome and leaves a new state, or
    never returns ([None]). *)

Definition call (S A : Type) : Type := S -> option (outcome A * S).

#[global] Instance call_ret S : MRet (call S) := fun A a s => Some (Ret a, s).
#[global] Instance call_bind S : MBind (call S) := fun A B f m s =>
  match m s with
  | Some (Ret a, s') => f a s'
  | Some (Throw e, s') => Some (Throw e, s')
  | Some (UB, s') => Some (UB, s')
  | None => None
  end.

(** Code that does not touch the object, and code that never returns. *)
Definition ends {S A} (o : outcome A) : call S A := fun s => Some (o, s).
Definition never {S A} : call S A := fun _ => None.

(** The state of the object, and a change of it. *)
Definition current {S} : call S S := fun s => Some (Ret s, s).
Definition changes {S} (f : S -> S) : call S unit := fun s => Some (Ret tt, f s).

(** A call on a part of the object. *)
Definition on_part {S T A} (get : S -> T) (set : T -> S -> S) (m : call T A) : call S A := fun s =>
  match m (get s) with
  | Some (o, t) => Some (o, set t s)
  | None => None
  end.

(** ** Machine integers

    A w-bit integer is its mathematical value; conversions to an unsigned
    width wrap, signed arithmetic is checked. *)

Definition uwrap (w : Z) (z : Z) : Z := z mod 2 ^ w.
Definition swrap (w : Z) (z : Z) : Z := (z + 2 ^ (w - 1)) mod 2 ^ w - 2 ^ (w - 1).

Abbreviation u8 := (uwrap 8).
Abbreviation u32 := (uwrap 32).
Abbreviation u64 := (uwrap 64).
Abbreviation u128 := (uwrap 128).
Abbreviation i32 := (swrap 32).
Abbreviation i64 := (swrap 64).

Definition in_signed (w : Z) (z : Z) : bool := (- 2 ^ (w - 1) <=? z) && (z <? 2 ^ (w - 1)).

(** The value of a signed [long] expression: undefined when it overflows. *)
Definition chk64 (z : Z) : outcome Z := if in_signed 64 z then Ret z else UB.

Definition is_byte (b : Z) : Prop := 0 <= b < 256.
Abbreviation bytes_ok := (Forall is_byte).

(** ** Strings

    A [std::string] or a [char] buffer is the list of its bytes. *)

Definition chr (a : Ascii.ascii) : Z := Z.of_N (Ascii.N_of_ascii a).
Definition str (s : string) : list Z := chr <$> String.list_ascii_of_string s.

(** The C string that starts a byte sequence: everything up to the first NUL. *)
Fixpoint cstr (s : list Z) : list Z :=
  match s with
  | [] => []
  | c :: s' => if c =? 0 then [] else c :: cstr s'
  end.

(** [strcpy(dst, s.c_str())] into a [char dst[cap]]. *)
Definition strcpy (cap : nat) (s : list Z) : outcome (list Z) :=
  if (length (cstr s) <? cap)%nat then Ret (cstr s) else UB.

(** The sizes of the arrays in the structures. *)
Definition STRING_SIZE : nat := 256.
Definition COLLECTION_SIZE : nat := 64.

(** [memcpy(dst + off, src, len src)] into a buffer: all of it must fit. *)
Definition write_at (buf : list Z) (off : nat) (src : list Z) : outcome (list Z) :=
  if (off + length src <=? length buf)%nat
  then Ret (take off buf ++ src ++ drop (off + length src) buf)
  else UB.

(** [memcpy(dst, src, n)] out of a buffer of known extent. *)
Definition read_n (src : list Z) (off n : nat) : outcome (list Z) :=
  if (off + n <=? length src)%nat then Ret (take n (drop off src)) else UB.

(** [std::string::substr(pos, n)] and [substr(pos)]. *)
Definition substr (s : list Z) (pos n : nat) : outcome (list Z) :=
  if (length s <? pos)%nat then Throw out_of_range else Ret (take n (drop pos s)).
Definition substr_from (s : list Z) (pos : nat) : outcome (list Z) :=
  if (length s <? pos)%nat then Throw out_of_range else Ret (drop pos s).

(** [a[i] = v] on an array of known extent. *)
Definition store {A} (a : list A) (i : nat) (v : A) : outcome (list A) :=
  if (i <? length a)%nat then Ret (<[i := v]> a) else UB.

(** [a[i]] on an array of known extent. *)
Definition load {A} (a : list A) (i : nat) : outcome A :=
  match a !! i with Some v => Ret v | None => UB end.

(** ** [std::stoul(s, nullptr, 16)]

    White space is skipped, a sign and a [0x] prefix are accepted, and the
    conversion stops at the first character that is not a digit. *)

Definition hex_value (c : Z) : option Z :=
  if (48 <=? c) && (c <=? 57) then Some (c - 48)
  else if (97 <=? c) && (c <=? 102) then Some (c - 87)
  else if (65 <=? c) && (c <=? 70) then Some (c - 55)
  else None.

Definition is_space (c : Z) : bool := (c =? 32) || ((9 <=? c) && (c <=? 13)).

Fixpoint skip_space (s : list Z) : list Z :=
  match s with
  | c :: s' => if is_space c then skip_space s' else s
  | [] => []
  end.

Definition read_sign (s : list Z) : bool * list Z :=
  match s with
  | 43 :: s' => (false, s')
  | 45 :: s' => (true, s')
  | _ => (false, s)
  end.

Definition skip_0x (s : list Z) : list Z :=
  match s with
  | 48 :: x :: d :: s' =>
      if ((x =? 120) || (x =? 88)) && bool_decide (is_Some (hex_value d)) then d :: s' else s
  | _ => s
  end.

Fixpoint hex_prefix_value (s : list Z) (acc : Z) : Z :=
  match s with
  | c :: s' => match hex_value c with Some d => hex_prefix_value s' (16 * acc + d) | None => acc end
  | [] => acc
  end.

Definition stoul16 (s : list Z) : outcome Z :=
  let '(neg, s1) := read_sign (skip_space s) in
  let s2 := skip_0x s1 in
  match s2 with
  | [] => Throw invalid_argument
  | c :: _ =>
      if hex_value c is Some _ then
        let v := hex_prefix_value s2 0 in
        if 2 ^ 64 <=? v then Throw out_of_range
        else Ret (if neg : bool then u64 (- v) else v)
      else Throw invalid_argument
  end.

(** ** Printing bytes in hexadecimal: [sprintf(_, "%02X", b)] *)

Definition hex_digit (d : Z) : Z := if d <? 10 then 48 + d else 55 + d.
Definition hex_byte (b : Z) : list Z := [hex_digit (b / 16); hex_digit (b mod 16)].
Definition hex_bytes (bs : list Z) : list Z := bs ≫= hex_byte.

(** ** Positional notation: the value of a list of digits, least significant first *)

Fixpoint of_digits (b : Z) (ds : list Z) : Z :=
  match ds with
  | [] => 0
  | d :: ds' => d + b * of_digits b ds'
  end.

Fixpoint to_digits (b : Z) (n : nat) (v : Z) : list Z :=
  match n with
  | O => []
  | S n' => v mod b :: to_digits b n' (v / b)
  end.

Definition le_bytes : nat -> Z -> list Z := to_digits 256.
Abbreviation of_le := (of_digits 256).

(** A digit list in its canonical form: digits in range, last one not zero. *)
Definition canonical (b : Z) (ds : list Z) : Prop :=
  Forall (fun d => 0 <= d < b) ds /\ default 1 (last ds) <> 0.

#[global] Arguments stoul16 : simpl never.
#[global] Arguments uwrap : simpl never.
#[global] Arguments swrap : simpl never.
#[global] Arguments chk64 : simpl never.
#[global] Arguments hex_bytes : simpl never.
#[global] Arguments hex_digit : simpl never.
#[global] Arguments le_bytes : simpl never.

(** ** Automation *)

Create HintDb polka.
Create Rewrite HintDb polka.

Lemma assume_true b : b = true -> assume b = Ret tt.
Proof. by intros ->. Qed.

(** Step through a monadic definition whose next action is known. *)
Ltac ostep := cbn [mbind outcome_bind mret outcome_ret fmap outcome_fmap].

(** A property of every element of a concrete list. *)
Ltac forall_list tac :=
  lazymatch goal with
  | |- Forall _ [] => apply List.Forall_nil
  | |- Forall _ (_ :: _) => apply List.Forall_cons; [tac | forall_list tac]
  | |- Forall ?P ?l => let l' := eval vm_compute in l in change (Forall P l'); forall_list tac
  end.

(** Split a hypothesis [x ← m; k x = Ret r] into its two halves. *)
Lemma bind_Ret_inv {A B} (m : outcome A) (f : A -> outcome B) r :
  m ≫= f = Ret r -> exists a, m = Ret a /\ f a = Ret r.
Proof. destruct m; naive_solver. Qed.

Lemma bind_assoc_outcome {A B C} (m : outcome A) (f : A -> outcome B) (g : B -> outcome C) :
  (m ≫= f) ≫= g = m ≫= (fun x => f x ≫= g).
Proof. by destruct m. Qed.

Lemma bind_ext_outcome {A B} (m : outcome A) (f g : A -> outcome B) :
  (forall a, f a = g a) -> m ≫= f = m ≫= g.
Proof. intros H. destruct m; [apply H | done | done]. Qed.

Ltac bind_inv H :=
  let a := fresh "r" in let H1 := fresh H in
  apply bind_Ret_inv in H as (a & H1 & H); destruct_and?.

(** ** Wrap-around *)

Lemma uwrap_small w z : 0 <= z < 2 ^ w -> uwrap w z = z.
Proof. apply Z.mod_small. Qed.

Lemma uwrap_range w z : 0 <= w -> 0 <= uwrap w z < 2 ^ w.
Proof. intros. apply Z.mod_pos_bound. lia. Qed.

Lemma uwrap_byte z : is_byte (u8 z).
Proof. apply (uwrap_range 8). lia. Qed.

Lemma u8_byte b : is_byte b -> u8 b = b.
Proof. intros. by apply uwrap_small. Qed.

Lemma swrap_small w z : 0 < w -> - 2 ^ (w - 1) <= z < 2 ^ (w - 1) -> swrap w z = z.
Proof.
  intros Hw Hz. unfold swrap.
  assert (2 ^ w = 2 * 2 ^ (w - 1)) as ->.
  { rewrite <- Z.pow_succ_r by lia. f_equal. lia. }
  rewrite Z.mod_small; lia.
Qed.

Lemma in_signed_spec w z : in_signed w z = true <-> - 2 ^ (w - 1) <= z < 2 ^ (w - 1).
Proof. unfold in_signed. lia. Qed.

Lemma chk64_ok z : - 2 ^ 63 <= z < 2 ^ 63 -> chk64 z = Ret z.
Proof. intros H. unfold chk64. by rewrite (proj2 (in_signed_spec 64 z)). Qed.

Lemma chk64_ub z : ~ (- 2 ^ 63 <= z < 2 ^ 63) -> chk64 z = UB.
Proof.
  intros H. unfold chk64. destruct (in_signed 64 z) eqn:E; [|done].
  by apply in_signed_spec in E.
Qed.

#[export] Hint Resolve uwrap_byte : polka.
#[export] Hint Rewrite @length_app @length_map @length_take @length_drop @length_rev
  @length_replicate @length_fmap : polka.

(** ** Facts about every byte, checked by evaluation *)

Definition all_bytes : list Z := seqZ 0 256.

Lemma forall_bytes (P : Z -> bool) :
  forallb P all_bytes = true -> forall b, is_byte b -> P b = true.
Proof.
  intros H b Hb. rewrite forallb_forall in H. apply H.
  apply list_elem_of_In, elem_of_seqZ. unfold is_byte in Hb. lia.
Qed.

(** ** Positional notation *)

Section digits.
Context (b : Z) (Hb : 1 < b).

Lemma of_digits_app ds es :
  of_digits b (ds ++ es) = of_digits b ds + b ^ Z.of_nat (length ds) * of_digits b es.
Proof using Type.
  induction ds as [|d ds IH]; cbn [app of_digits length]; [lia|].
  rewrite IH, Nat2Z.inj_succ, Z.pow_succ_r by lia. ring.
Qed.

Lemma of_digits_snoc ds d :
  of_digits b (ds ++ [d]) = of_digits b ds + b ^ Z.of_nat (length ds) * d.
Proof using Type. rewrite of_digits_app. cbn. ring. Qed.

Lemma of_digits_zeros n : of_digits b (replicate n 0) = 0.
Proof using Type. induction n as [|n IH]; cbn [replicate of_digits]; lia. Qed.

Lemma of_digits_bound ds :
  Forall (fun d => 0 <= d < b) ds -> 0 <= of_digits b ds < b ^ Z.of_nat (length ds).
Proof using Hb.
  induction 1 as [|d ds Hd _ IH]; cbn [of_digits length]; [lia|].
  rewrite Nat2Z.inj_succ, Z.pow_succ_r by lia. nia.
Qed.

Lemma length_to_digits n v : length (to_digits b n v) = n.
Proof using Type. revert v. induction n as [|n IH]; intros v; cbn; auto. Qed.

Lemma to_digits_range n v : Forall (fun d => 0 <= d < b) (to_digits b n v).
Proof using Hb.
  revert v. induction n as [|n IH]; intros v; cbn; constructor; auto.
  apply Z.mod_pos_bound. lia.
Qed.

Lemma of_to_digits n v :
  of_digits b (to_digits b n v) = v mod b ^ Z.of_nat n.
Proof using Hb.
  revert v. induction n as [|n IH]; intros v; cbn [to_digits of_digits].
  { change (Z.of_nat 0) with 0. by rewrite Z.pow_0_r, Z.mod_1_r. }
  rewrite IH, Nat2Z.inj_succ, Z.pow_succ_r by lia.
  rewrite Z.rem_mul_r by lia. lia.
Qed.

Lemma of_to_digits_small n v :
  0 <= v < b ^ Z.of_nat n -> of_digits b (to_digits b n v) = v.
Proof using Hb. intros. rewrite of_to_digits. by apply Z.mod_small. Qed.

Lemma to_of_digits ds :
  Forall (fun d => 0 <= d < b) ds -> to_digits b (length ds) (of_digits b ds) = ds.
Proof using Hb.
  induction 1 as [|d ds Hd _ IH]; cbn [to_digits of_digits length]; [done|].
  rewrite (Z.mul_comm b), Z.mod_add, Z.mod_small, Z.div_add by lia.
  rewrite Z.div_small, Z.add_0_l by lia. by rewrite IH.
Qed.

(** Digit lists of one length are determined by their value. *)
Lemma of_digits_inj ds es :
  Forall (fun d => 0 <= d < b) ds -> Forall (fun d => 0 <= d < b) es ->
  length ds = length es -> of_digits b ds = of_digits b es -> ds = es.
Proof using Hb.
  intros Hd He Hl Hv. rewrite <- (to_of_digits ds), <- (to_of_digits es) by done.
  by rewrite Hl, Hv.
Qed.

(** The canonical form of a positive number starts at its leading digit. *)
Lemma canonical_lower ds :
  canonical b ds -> ds <> [] -> b ^ (Z.of_nat (length ds) - 1) <= of_digits b ds.
Proof using Hb.
  intros [Hr Hl] Hne. destruct ds as [|d ds _] using rev_ind; [done|].
  rewrite last_snoc in Hl. cbn in Hl. apply Forall_app in Hr as [Hr Hd].
  rewrite Forall_singleton in Hd. pose proof (of_digits_bound ds Hr).
  rewrite of_digits_snoc, length_app. cbn [length].
  replace (Z.of_nat (length ds + 1) - 1) with (Z.of_nat (length ds)) by lia.
  assert (0 <= b ^ Z.of_nat (length ds) * (d - 1)); [|lia]. apply Z.mul_nonneg_nonneg; lia.
Qed.

Lemma canonical_length ds es :
  canonical b ds -> canonical b es -> ds <> [] -> es <> [] ->
  of_digits b ds = of_digits b es -> (length ds <= length es)%nat.
Proof using Hb.
  intros Hd He Hnd Hne Hv. apply canonical_lower in Hd; [|done].
  destruct He as [Hr _]. apply of_digits_bound in Hr.
  destruct (decide (length ds <= length es)%nat); [done|exfalso].
  assert (b ^ Z.of_nat (length es) <= b ^ (Z.of_nat (length ds) - 1)); [|lia].
  apply Z.pow_le_mono_r; lia.
Qed.

(** Canonical digit lists are determined by their value. *)
Lemma canonical_inj ds es :
  canonical b ds -> canonical b es -> of_digits b ds = of_digits b es -> ds = es.
Proof using Hb.
  intros Hd He Hv.
  assert (forall l, canonical b l -> l <> [] -> 0 < of_digits b l) as Hpos.
  { intros l Hl Hn. apply canonical_lower in Hl; [|done].
    assert (0 < b ^ (Z.of_nat (length l) - 1)); [|lia].
    apply Z.pow_pos_nonneg; destruct l; [done|cbn [length]; lia|done|cbn [length]; lia]. }
  destruct (decide (ds = [])) as [->|Hnd], (decide (es = [])) as [->|Hne]; [done| | |].
  - specialize (Hpos es He Hne). cbn in Hv. lia.
  - specialize (Hpos ds Hd Hnd). cbn in Hv. lia.
  - apply of_digits_inj; [apply Hd|apply He| |done].
    apply Nat.le_antisymm; by apply canonical_length.
Qed.
End digits.

Lemma length_le_bytes n v : length (le_bytes n v) = n.
Proof. apply length_to_digits. Qed.

Lemma le_bytes_ok n v : bytes_ok (le_bytes n v).
Proof. apply to_digits_range. lia. Qed.

Lemma of_le_bytes n v : 0 <= v < 256 ^ Z.of_nat n -> of_le (le_bytes n v) = v.
Proof. apply of_to_digits_small. lia. Qed.

#[export] Hint Resolve le_bytes_ok : polka.
#[export] Hint Rewrite length_le_bytes : polka.

(** ** Hexadecimal text *)

Lemma length_hex_bytes bs : length (hex_bytes bs) = (2 * length bs)%nat.
Proof.
  induction bs as [|x bs IH]; [done|].
  unfold hex_bytes in *. rewrite bind_cons, length_app, IH. cbn. lia.
Qed.

Lemma hex_bytes_cons x bs :
  hex_bytes (x :: bs) = hex_digit (x / 16) :: hex_digit (x mod 16) :: hex_bytes bs.
Proof. done. Qed.

Lemma hex_bytes_app xs ys : hex_bytes (xs ++ ys) = hex_bytes xs ++ hex_bytes ys.
Proof. unfold hex_bytes. by rewrite bind_app. Qed.

Lemma drop_hex n bs : drop (2 * n) (hex_bytes bs) = hex_bytes (drop n bs).
Proof.
  revert bs. induction n as [|n IH]; intros bs; [done|].
  destruct bs as [|x bs]; [by rewrite !drop_nil|].
  replace (2 * S n)%nat with (S (S (2 * n))) by lia. cbn [drop]. by rewrite <- IH.
Qed.

Lemma take_hex n bs : take (2 * n) (hex_bytes bs) = hex_bytes (take n bs).
Proof.
  revert bs. induction n as [|n IH]; intros bs; [done|].
  destruct bs as [|x bs]; [by rewrite !take_nil|].
  replace (2 * S n)%nat with (S (S (2 * n))) by lia. rewrite hex_bytes_cons.
  cbn [take]. rewrite IH. done.
Qed.

#[export] Hint Rewrite length_hex_bytes : polka.

(** ** Buffers *)

Lemma write_at_ok buf off src :
  (off + length src <= length buf)%nat ->
  write_at buf off src = Ret (take off buf ++ src ++ drop (off + length src) buf).
Proof. intros H. unfold write_at. by rewrite (proj2 (Nat.leb_le _ _)). Qed.

Lemma write_at_length buf off src buf' :
  write_at buf off src = Ret buf' -> length buf' = length buf.
Proof.
  unfold write_at. destruct (Nat.leb_spec (off + length src) (length buf)) as [H|H];
    [|done]. intros [= <-]. autorewrite with polka. lia.
Qed.

Lemma substr_ok s pos n :
  (pos <= length s)%nat -> substr s pos n = Ret (take n (drop pos s)).
Proof. intros H. unfold substr. by rewrite (proj2 (Nat.ltb_ge _ _)). Qed.

Lemma substr_from_ok s pos : (pos <= length s)%nat -> substr_from s pos = Ret (drop pos s).
Proof. intros H. unfold substr_from. by rewrite (proj2 (Nat.ltb_ge _ _)). Qed.

Lemma cstr_length s : (length (cstr s) <= length s)%nat.
Proof. induction s as [|c s IH]; cbn; [lia|]. destruct (c =? 0); cbn; lia. Qed.

Lemma cstr_no_nul s : Forall (fun c => c <> 0) s -> cstr s = s.
Proof.
  induction 1 as [|c s Hc _ IH]; [done|]. cbn.
  destruct (Z.eqb_spec c 0); [done|]. by rewrite IH.
Qed.

Lemma cstr_nonzero s : Forall (fun c => c <> 0) (cstr s).
Proof.
  induction s as [|c s IH]; cbn; [constructor|]. destruct (Z.eqb_spec c 0); auto.
Qed.

Lemma strcpy_ok cap s : (length (cstr s) < cap)%nat -> strcpy cap s = Ret (cstr s).
Proof. intros H. unfold strcpy. by rewrite (proj2 (Nat.ltb_lt _ _)). Qed.

Lemma strcpy_ub cap s : (cap <= length (cstr s))%nat -> strcpy cap s = UB.
Proof. intros H. unfold strcpy. by rewrite (proj2 (Nat.ltb_ge _ _)). Qed.

Lemma store_ok {A} (a : list A) i v : (i < length a)%nat -> store a i v = Ret (<[i := v]> a).
Proof. intros H. unfold store. by rewrite (proj2 (Nat.ltb_lt _ _)). Qed.

Lemma store_ub {A} (a : list A) i v : (length a <= i)%nat -> store a i v = UB.
Proof. intros H. unfold store. by rewrite (proj2 (Nat.ltb_ge _ _)). Qed.

(** The buffer [pre ++ rest] is written from [pre] on. *)
Lemma write_at_app pre rest src :
  (length src <= length rest)%nat ->
  write_at (pre ++ rest) (length pre) src = Ret ((pre ++ src) ++ drop (length src) rest).
Proof.
  intros H. rewrite write_at_ok by (rewrite length_app; lia).
  rewrite take_app_length, <- drop_drop, drop_app_length. by rewrite <- app_assoc.
Qed.

(** Reading back the two characters printed for a byte. *)
Lemma stoul16_hex_byte b : is_byte b -> stoul16 (hex_byte b) = Ret b.
Proof.
  intros Hb.
  apply (forall_bytes (fun b => match stoul16 (hex_byte b) with
    | Ret v => v =? b | _ => false end)) in Hb; [|vm_compute; reflexivity].
  destruct (stoul16 (hex_byte b)) as [v| |]; [|done|done]. by apply Z.eqb_eq in Hb as ->.
Qed.

(** ** Bits *)

Lemma testbit_high k r i : 0 <= r < 2 ^ k -> k <= i -> Z.testbit r i = false.
Proof.
  intros Hr Hi. destruct (Z.lt_ge_cases k 0).
  { rewrite Z.pow_neg_r in Hr by lia. lia. }
  rewrite <- (Z.mod_small r (2 ^ k)) by lia. by apply Z.mod_pow2_bits_high.
Qed.

(** Writing [r] into the low [k] bits that a shift left free. *)
Lemma lor_disjoint a r k : 0 <= k -> 0 <= r < 2 ^ k -> Z.lor (a * 2 ^ k) r = a * 2 ^ k + r.
Proof.
  intros Hk Hr. symmetry. apply Z.add_nocarry_lor, Z.bits_inj_0. intros i.
  rewrite Z.land_spec. destruct (Z.lt_ge_cases i k).
  - by rewrite Z.mul_pow2_bits_low.
  - by rewrite (testbit_high k r), andb_false_r.
Qed.

(** Lists taken two elements at a time. *)
Lemma pair_ind {A} (P : list A -> Prop) :
  P [] -> (forall a, P [a]) -> (forall a b l, P l -> P (a :: b :: l)) -> forall l, P l.
Proof.
  intros H0 H1 H2. fix F 1. intros [|a [|b l]]; [done|done|]. apply H2, F.
Qed.

Lemma lxor_range k a b : 0 <= k -> 0 <= a < 2 ^ k -> 0 <= b < 2 ^ k -> 0 <= Z.lxor a b < 2 ^ k.
Proof.
  intros Hk Ha Hb. assert (0 <= Z.lxor a b) by (apply Z.lxor_nonneg; lia).
  split; [done|]. apply Z.bounded_iff_bits_nonneg; [done..|]. intros l Hl.
  by rewrite Z.lxor_spec, !(testbit_high k).
Qed.

Lemma shiftr_range k a n : 0 <= n -> 0 <= a < 2 ^ k -> 0 <= Z.shiftr a n < 2 ^ k.
Proof.
  intros Hn Ha. rewrite Z.shiftr_div_pow2 by done. assert (0 < 2 ^ n) by lia. split.
  - apply Z.div_pos; lia.
  - apply Z.div_lt_upper_bound; [lia|]. nia.
Qed.

Lemma read_n_ok src off n : (off + n <= length src)%nat -> read_n src off n = Ret (take n (drop off src)).
Proof. intros H. unfold read_n. by rewrite (proj2 (Nat.leb_le _ _)). Qed.

Lemma load_ok {A} (a : list A) i v : a !! i = Some v -> load a i = Ret v.
Proof. intros H. unfold load. by rewrite H. Qed.

(** ** std::map<string, A>

    The list of the entries, in increasing order of the keys. *)

Definition smap (A : Type) : Type := list (list Z * A).

(** [operator<] on strings *)
Fixpoint str_lt (a b : list Z) : bool :=
  match a, b with
  | _, [] => false
  | [], _ => true
  | x :: a', y :: b' => (x <? y) || ((x =? y) && str_lt a' b')
  end.

Fixpoint map_find {A} (key : list Z) (m : smap A) : option A :=
  match m with
  | [] => None
  | (k, v) :: m' => if decide (k = key) then Some v else map_find key m'
  end.

(** [m[key] = v] *)
Fixpoint map_set {A} (key : list Z) (v : A) (m : smap A) : smap A :=
  match m with
  | [] => [(key, v)]
  | (k, w) :: m' =>
      if decide (k = key) then (key, v) :: m'
      else if str_lt key k then (key, v) :: m
      else (k, w) :: map_set key v m'
  end.

(** [m.erase(key)] *)
Fixpoint map_erase {A} (key : list Z) (m : smap A) : smap A :=
  match m with
  | [] => []
  | (k, w) :: m' => if decide (k = key) then m' else (k, w) :: map_erase key m'
  end.

Fixpoint sorted_keys (ks : list (list Z)) : bool :=
  match ks with
  | k :: (k' :: _) as ks' => str_lt k k' && sorted_keys ks'
  | _ => true
  end.

Lemma str_lt_irrefl a : str_lt a a = false.
Proof. induction a as [|x a IH]; [done|]. cbn. rewrite IH. lia. Qed.

Lemma str_lt_trans a b c : str_lt a b = true -> str_lt b c = true -> str_lt a c = true.
Proof.
  revert b c. induction a as [|x a IH]; intros [|y b] [|z c] H1 H2; cbn in *; try done.
  apply orb_prop in H1 as [H1|[H1 H1']%andb_prop]; apply orb_prop in H2 as [H2|[H2 H2']%andb_prop];
    try (apply orb_true_iff; left; lia).
  apply orb_true_iff. right. apply andb_true_iff. split; [lia|]. by apply (IH b).
Qed.

Lemma sorted_before ks k ks' :
  sorted_keys (ks ++ k :: ks') = true -> Forall (fun x => str_lt x k = true) ks.
Proof.
  induction ks as [|x ks IH]; intros H; [constructor|].
  destruct ks as [|y ks]; cbn [app sorted_keys] in H; apply andb_prop in H as [Hxy H].
  - repeat constructor. done.
  - specialize (IH H). constructor; [|done]. apply Forall_cons in IH as [Hy _]. by apply (str_lt_trans _ y).
Qed.

Lemma map_set_append {A} key (v : A) m :
  Forall (fun kv => str_lt kv.1 key = true) m -> map_set key v m = m ++ [(key, v)].
Proof.
  induction 1 as [|[k w] m Hk _ IH]; [done|]. cbn in *. destruct (decide (k = key)) as [->|_].
  { by rewrite str_lt_irrefl in Hk. }
  destruct (str_lt key k) eqn:E; [|by rewrite IH].
  pose proof (str_lt_trans k key k Hk E) as H. by rewrite str_lt_irrefl in H.
Qed.


Lemma str_lt_total a b : str_lt a b = false -> a = b \/ str_lt b a = true.
Proof.
  revert b. induction a as [|x a IH]; intros [|y b] H; cbn in *; [by left|done|by right|].
  apply orb_false_iff in H as [H1 H2]. destruct (Z.eqb_spec x y) as [->|Hne].
  - destruct (IH b H2) as [->|E]; [by left|]. right. rewrite E, Z.eqb_refl. by rewrite orb_true_r.
  - right. apply orb_true_iff. left. lia.
Qed.

Lemma map_find_set {A} key (v : A) m : map_find key (map_set key v m) = Some v.
Proof.
  induction m as [|[k w] m IH]; cbn; [by rewrite decide_True|].
  destruct (decide (k = key)) as [->|Hne]; cbn; [by rewrite decide_True|].
  destruct (str_lt key k); cbn; [by rewrite decide_True|]. by rewrite decide_False.
Qed.

Lemma map_find_set_ne {A} key key' (v : A) m : key' <> key -> map_find key' (map_set key v m) = map_find key' m.
Proof.
  intros Hne. induction m as [|[k w] m IH]; cbn; [by rewrite decide_False|].
  destruct (decide (k = key)) as [->|Hk]; cbn; [by rewrite !decide_False|].
  destruct (str_lt key k); cbn; [by rewrite (decide_False (P := key = key'))|].
  by destruct (decide (k = key')).
Qed.

Lemma map_find_erase_ne {A} key key' (m : smap A) : key' <> key -> map_find key' (map_erase key m) = map_find key' m.
Proof.
  intros Hne. induction m as [|[k w] m IH]; [done|]. cbn. destruct (decide (k = key)) as [->|Hk]; cbn.
  - by rewrite decide_False.
  - by destruct (decide (k = key')).
Qed.

(** The keys of a map are in strictly increasing order; the operations keep them so. *)
Definition sorted_map {A} (m : smap A) : Prop := StronglySorted (fun a b => str_lt a b = true) m.*1.

Lemma map_set_elem {A} key (v : A) m k : k ∈ (map_set key v m).*1 -> k = key \/ k ∈ m.*1.
Proof.
  induction m as [|[k' w] m IH]; cbn.
  - intros Hk%list_elem_of_singleton. by left.
  - destruct (decide (k' = key)) as [->|_]; cbn; [by right|]. destruct (str_lt key k'); cbn.
    + intros [->|Hk]%elem_of_cons; [by left|by right].
    + intros [->|Hk]%elem_of_cons; [right; by left|]. destruct (IH Hk) as [->|]; [by left|right; by right].
Qed.

Lemma map_erase_elem {A} key (m : smap A) k : k ∈ (map_erase key m).*1 -> k ∈ m.*1.
Proof.
  induction m as [|[k' w] m IH]; [done|]. cbn. destruct (decide (k' = key)); cbn; [by right|].
  intros [->|Hk]%elem_of_cons; [by left|right; auto].
Qed.

Lemma map_set_sorted {A} key (v : A) m : sorted_map m -> sorted_map (map_set key v m).
Proof.
  unfold sorted_map. induction m as [|[k w] m IH]; intros Hs; cbn; [by repeat constructor|].
  apply StronglySorted_inv in Hs as [Hs Hk].
  destruct (decide (k = key)) as [->|Hne]; cbn; [by constructor|].
  destruct (str_lt key k) eqn:E; cbn.
  - constructor; [by constructor|]. constructor; [done|]. eapply Forall_impl; [apply Hk|].
    intros x Hx. by apply (str_lt_trans key k).
  - constructor; [by apply IH|]. apply Forall_forall. intros x [->|Hx]%map_set_elem.
    + by destruct (str_lt_total _ _ E) as [->|].
    + rewrite Forall_forall in Hk. by apply Hk.
Qed.

Lemma map_erase_sorted {A} key (m : smap A) : sorted_map m -> sorted_map (map_erase key m).
Proof.
  unfold sorted_map. induction m as [|[k w] m IH]; intros Hs; [done|]. cbn.
  apply StronglySorted_inv in Hs as [Hs Hk]. destruct (decide (k = key)); [done|]. cbn.
  constructor; [by apply IH|]. apply Forall_forall. intros x Hx%map_erase_elem.
  rewrite Forall_forall in Hk. by apply Hk.
Qed.

Lemma map_find_absent {A} key (m : smap A) : key ∉ m.*1 -> map_find key m = None.
Proof.
  induction m as [|[k w] m IH]; [done|]. cbn. intros [Hne Hk]%not_elem_of_cons.
  rewrite decide_False by congruence. auto.
Qed.

Lemma map_find_erase {A} key (m : smap A) : sorted_map m -> map_find key (map_erase key m) = None.
Proof.
  unfold sorted_map. induction m as [|[k w] m IH]; intros Hs; [done|]. cbn.
  apply StronglySorted_inv in Hs as [Hs Hk]. destruct (decide (k = key)) as [->|Hne]; cbn.
  - apply map_find_absent. intros Hin. rewrite Forall_forall in Hk. specialize (Hk _ Hin). by rewrite str_lt_irrefl in Hk.
  - rewrite decide_False by done. auto.
Qed.

Lemma map_find_elem {A} key (v : A) m : map_find key m = Some v -> (key, v) ∈ m.
Proof.
  induction m as [|[k w] m IH]; [done|]. cbn. destruct (decide (k = key)) as [->|_].
  - intros [= ->]. by left.
  - intros H. right. auto.
Qed.

Lemma map_elem_find {A} key (v : A) m : sorted_map m -> (key, v) ∈ m -> map_find key m = Some v.
Proof.
  unfold sorted_map. induction m as [|[k w] m IH]; intros Hs Hin; [by apply elem_of_nil in Hin|]. cbn.
  apply StronglySorted_inv in Hs as [Hs Hk]. apply elem_of_cons in Hin as [[= -> ->]|Hin]; [by rewrite decide_True|].
  destruct (decide (k = key)) as [->|Hne]; [|auto]. exfalso.
  assert (key ∈ m.*1) as Hin' by (by apply (list_elem_of_fmap_2' fst _ _ _ Hin)).
  rewrite Forall_forall in Hk. specialize (Hk _ Hin'). by rewrite str_lt_irrefl in Hk.
Qed.

(** ** Data races

    An access of a thread to an object that other threads can reach. Two accesses
    conflict when they are to the same object, one of them modifies it, and there is
    no lock that both hold; they are a data race, which is undefined behaviour, when
    they can both be next. [operator[]] of a [std::map] counts as a modification. *)
Record access (X : Type) : Type := Access { accessed : X; modifies : bool; locked : bool }.
#[global] Arguments Access {X} _ _ _.
#[global] Arguments accessed {X} _.
#[global] Arguments modifies {X} _.
#[global] Arguments locked {X} _.

Section conflicts.
Context {X : Type} `{EqDecision X}.

Definition conflict (a b : access X) : bool :=
  bool_decide (accessed a = accessed b) && (modifies a || modifies b) && negb (locked a && locked b).
Definition conflicting (l l' : list (access X)) : bool := existsb (fun a => existsb (conflict a) l') l.

Lemma conflict_sym a b : conflict a b = conflict b a.
Proof.
  unfold conflict. rewrite (orb_comm (modifies a)), (andb_comm (locked a)). do 2 f_equal. apply bool_decide_ext. done.
Qed.

Lemma conflicting_spec l l' : conflicting l l' = true <-> exists a b, a ∈ l /\ b ∈ l' /\ conflict a b = true.
Proof.
  unfold conflicting. rewrite existsb_exists. setoid_rewrite existsb_exists. setoid_rewrite <- list_elem_of_In. naive_solver.
Qed.

Lemma conflicting_sym l l' : conflicting l l' = conflicting l' l.
Proof. apply eq_true_iff_eq. rewrite !conflicting_spec. setoid_rewrite (conflict_sym) at 1. naive_solver. Qed.
End conflicts.
