(* ===== verification/Scale.v ===== *)
(** SCALE codec: [src/scale.cpp], [src/scale.h].

    The decoder consumes a stream of hexadecimal text, two characters per
    byte; the encoder fills an eight-byte buffer.  [compact_spec] is the
    compact encoding the two are measured against. *)
From S2P Require Import Prelude.

(** ** The input stream *)

Definition stream : Type := list Z.
Definition parser (A : Type) : Type := stream -> outcome (A * stream).

#[global] Instance parser_ret : MRet parser := fun A a s => Ret (a, s).
#[global] Instance parser_bind : MBind parser := fun A B f m s =>
  match m s with
  | Ret (a, s') => f a s'
  | Throw e => Throw e
  | UB => UB
  end.

(** Code that does not touch the stream. *)
Definition lift {A} (m : outcome A) : parser A := fun s =>
  match m with Ret a => Ret (a, s) | Throw e => Throw e | UB => UB end.

Definition nextWord : parser Z := fun s =>
  minor ← substr s 0 2;
  s1 ← substr_from s 2;
  major ← substr s1 0 2;
  s2 ← substr_from s1 2;
  w ← stoul16 (major ++ minor);
  Ret (u8 w, s2).

Definition nextByte : parser Z := fun s =>
  nb ← substr s 0 2;
  s1 ← substr_from s 2;
  b ← stoul16 nb;
  Ret (u8 b, s1).

Fixpoint extractString_loop (len : nat) (acc : list Z) : parser (list Z) :=
  match len with
  | O => mret acc
  | S len' => b ← nextByte; extractString_loop len' (acc ++ [b])
  end.

(** The argument is an [int]: a longer count is narrowed by the caller, and a
    negative one reads nothing. *)
Definition extractString (len : Z) : parser (list Z) :=
  extractString_loop (Z.to_nat len) [].

(** ** Decoding *)

Fixpoint decode_four (n : nat) (number multiplier : Z) : parser Z :=
  match n with
  | O => mret number
  | S n' =>
      b ← nextByte;
      decode_four n' (u64 (number + u64 (b * multiplier))) (u64 (Z.shiftl multiplier 8))
  end.

(** [value] and [multiplier] are [long]s. *)
Fixpoint decode_big (n : nat) (value multiplier : Z) : parser Z :=
  match n with
  | O => mret value
  | S n' =>
      b ← nextByte;
      p ← lift (chk64 (b * multiplier));
      value' ← lift (chk64 (value + p));
      multiplier' ← lift (chk64 (multiplier * 256));
      decode_big n' value' multiplier'
  end.

Definition decodeCompactInteger : parser Z :=
  first_byte ← nextByte;
  let flag := Z.land first_byte 3 in
  if flag =? 0 then mret (i64 (Z.shiftr first_byte 2))
  else if flag =? 1 then
    second_byte ← nextByte;
    mret (i64 (Z.shiftr (u64 (Z.land first_byte 252 + second_byte * 256)) 2))
  else if flag =? 2 then
    number ← decode_four 3 first_byte 256;
    mret (i64 (Z.shiftr number 2))
  else if flag =? 3 then
    decode_big (Z.to_nat (Z.shiftr first_byte 2 + 4)) 0 1
  else lift (Throw (CompactIntegerException (str "CompactInteger decode error: unknown flag"))).

(** ** Encoding *)

Record CompactIntegerLEBytes := { ci_length : Z; ci_bytes : list Z }.

Fixpoint encode_four (n : nat) (i : nat) (v : Z) (bytes : list Z) : outcome (list Z) :=
  match n with
  | O => Ret bytes
  | S n' =>
      bytes' ← store bytes i (u8 (Z.land v 255));
      encode_four n' (S i) (Z.shiftr v 8) bytes'
  end.

(** [while (n) { b.bytes[byteNum++] = n & 0xFF; n >>= 8; }]: a 128-bit value is
    exhausted after sixteen rounds. *)
Fixpoint encode_big (fuel : nat) (byteNum : nat) (v : Z) (bytes : list Z) : outcome (nat * list Z) :=
  if v =? 0 then Ret (byteNum, bytes)
  else match fuel with
  | O => UB
  | S fuel' =>
      bytes' ← store bytes byteNum (u8 (Z.land v 255));
      encode_big fuel' (S byteNum) (Z.shiftr v 8) bytes'
  end.

Definition encodeCompactInteger (n : Z) : outcome CompactIntegerLEBytes :=
  let zero := replicate 8 0 in
  if n <=? 63 then
    bytes ← store zero 0 (u8 (u128 (Z.shiftl n 2)));
    Ret {| ci_length := 1; ci_bytes := bytes |}
  else if n <=? 0x3FFF then
    b0 ← store zero 0 (u8 (Z.lor (u128 (Z.shiftl (Z.land n 0x3F) 2)) 1));
    bytes ← store b0 1 (u8 (Z.shiftr (Z.land n 0xFC0) 6));
    Ret {| ci_length := 2; ci_bytes := bytes |}
  else if n <=? 0x3FFFFFFF then
    b0 ← store zero 0 (u8 (Z.lor (u128 (Z.shiftl (Z.land n 0x3F) 2)) 2));
    bytes ← encode_four 3 1 (Z.shiftr n 6) b0;
    Ret {| ci_length := 4; ci_bytes := bytes |}
  else
    '(byteNum, bytes) ← encode_big 16 1 n zero;
    bytes' ← store bytes 0 (u8 (Z.lor (Z.shiftl (Z.of_nat byteNum - 5) 2) 3));
    Ret {| ci_length := Z.of_nat byteNum; ci_bytes := bytes' |}.

(** The bytes a compact integer stands for: the first [length] of them. *)
Definition ci_prefix (ci : CompactIntegerLEBytes) : list Z := take (Z.to_nat (ci_length ci)) (ci_bytes ci).

(** [for (i < ci.length) buf[i] = ci.bytes[i]] at [buf + off], and the length. *)
Definition writeCompactToBuf (ci : CompactIntegerLEBytes) (buf : list Z) (off : nat) : outcome (list Z * Z) :=
  src ← read_n (ci_bytes ci) 0 (Z.to_nat (ci_length ci));
  buf' ← write_at buf off src;
  Ret (buf', ci_length ci).

(** ** The SCALE compact encoding *)

(** How many bytes the big-integer mode uses for [n]. *)
Definition byte_length (n : Z) : nat := Z.to_nat (Z.log2 n / 8 + 1).

Definition compact_spec (n : Z) : list Z :=
  if n <? 2 ^ 6 then le_bytes 1 (4 * n)
  else if n <? 2 ^ 14 then le_bytes 2 (4 * n + 1)
  else if n <? 2 ^ 30 then le_bytes 4 (4 * n + 2)
  else (4 * (Z.of_nat (byte_length n) - 4) + 3) :: le_bytes (byte_length n) n.

(** The numbers the eight-byte buffer and the two-byte mode encode faithfully. *)
Definition compact_safe (n : Z) : bool :=
  (0 <=? n) && (n <? 2 ^ 12) || (2 ^ 14 <=? n) && (n <? 2 ^ 56).

(** ** Reading bytes *)

Lemma nextByte_hex b s : is_byte b -> nextByte (hex_byte b ++ s) = Ret (b, s).
Proof.
  intros Hb. pose proof (stoul16_hex_byte b Hb) as Hs.
  unfold nextByte, hex_byte in *. cbn. rewrite take_0, drop_0, Hs. cbn. by rewrite u8_byte.
Qed.

Lemma nextByte_hex_cons b bs s :
  is_byte b -> nextByte (hex_bytes (b :: bs) ++ s) = Ret (b, hex_bytes bs ++ s).
Proof. apply (nextByte_hex b (hex_bytes bs ++ s)). Qed.

Lemma nextByte_short s : (length s < 2)%nat -> nextByte s = Throw out_of_range.
Proof. destruct s as [|a [|b s]]; cbn; [done|done|lia]. Qed.

Lemma nextByte_range s b s' : nextByte s = Ret (b, s') -> is_byte b.
Proof.
  unfold nextByte. intros H. bind_inv H. bind_inv H. bind_inv H. injection H as <- _.
  auto with polka.
Qed.

Lemma nextByte_suffix s b s' : nextByte s = Ret (b, s') -> s' = drop 2 s /\ (2 <= length s)%nat.
Proof.
  unfold nextByte, substr_from. intros H. bind_inv H. bind_inv H. bind_inv H. injection H as _ <-.
  destruct (Nat.ltb_spec (length s) 2); naive_solver.
Qed.

Lemma stoul16_defined s : defined (stoul16 s) = true.
Proof. unfold stoul16. by repeat case_match. Qed.

Lemma nextByte_defined s : defined (nextByte s) = true.
Proof.
  unfold nextByte, substr, substr_from. repeat case_match; try done. cbn.
  pose proof (stoul16_defined (take 2 (drop 0 s))). by destruct (stoul16 _).
Qed.

Lemma extractString_loop_hex bs acc s :
  bytes_ok bs -> extractString_loop (length bs) acc (hex_bytes bs ++ s) = Ret (acc ++ bs, s).
Proof.
  intros H. revert acc. induction H as [|b bs Hb _ IH]; intros acc.
  { by rewrite app_nil_r. }
  cbn [length extractString_loop]. unfold mbind, parser_bind.
  rewrite nextByte_hex_cons by done. rewrite IH. by rewrite <- app_assoc.
Qed.

Lemma extractString_hex bs s :
  bytes_ok bs -> extractString (Z.of_nat (length bs)) (hex_bytes bs ++ s) = Ret (bs, s).
Proof.
  intros H. unfold extractString. rewrite Nat2Z.id. by apply (extractString_loop_hex bs []).
Qed.

Lemma extractString_loop_defined n acc s : defined (extractString_loop n acc s) = true.
Proof.
  revert acc s. induction n as [|n IH]; intros acc s; [done|].
  cbn [extractString_loop]. unfold mbind, parser_bind.
  pose proof (nextByte_defined s). destruct (nextByte s) as [[b s']| |]; auto.
Qed.

(** ** The decoder on the two long modes *)

(** One more byte keeps the partial value below the next multiplier. *)
Lemma le_step_bounds v m b P :
  0 <= v < m -> is_byte b -> 1 <= P ->
  0 <= b * m <= m * (256 * P) /\ 0 <= v + b * m < m * 256 /\ m * 256 <= m * (256 * P).
Proof. unfold is_byte. intros. assert (m * 256 <= m * (256 * P)) by nia. nia. Qed.

Lemma decode_four_hex bs number multiplier s :
  bytes_ok bs -> 0 <= number < multiplier ->
  multiplier * 256 ^ Z.of_nat (length bs) < 2 ^ 64 ->
  decode_four (length bs) number multiplier (hex_bytes bs ++ s)
  = Ret (number + multiplier * of_le bs, s).
Proof.
  intros H. revert number multiplier. induction H as [|b bs Hb Hbs IH]; intros v m Hv Hlt.
  { cbn. by rewrite Z.mul_0_r, Z.add_0_r. }
  cbn [length decode_four of_digits] in *. unfold mbind, parser_bind.
  rewrite nextByte_hex_cons by done. rewrite Nat2Z.inj_succ, Z.pow_succ_r in Hlt by lia.
  assert (1 <= 256 ^ Z.of_nat (length bs)) by (apply Z.lt_pred_le, Z.pow_pos_nonneg; lia).
  destruct (le_step_bounds v m b (256 ^ Z.of_nat (length bs))) as (? & ? & ?); [done..|].
  rewrite Z.shiftl_mul_pow2 by lia. change (2 ^ 8) with 256.
  rewrite (uwrap_small 64 (b * m)), !uwrap_small by lia. rewrite IH by lia. do 2 f_equal. ring.
Qed.

Lemma decode_big_hex bs value multiplier s :
  bytes_ok bs -> 0 <= value < multiplier ->
  multiplier * 256 ^ Z.of_nat (length bs) < 2 ^ 63 ->
  decode_big (length bs) value multiplier (hex_bytes bs ++ s)
  = Ret (value + multiplier * of_le bs, s).
Proof.
  intros H. revert value multiplier. induction H as [|b bs Hb Hbs IH]; intros v m Hv Hlt.
  { cbn. by rewrite Z.mul_0_r, Z.add_0_r. }
  cbn [length decode_big of_digits] in *. unfold mbind, parser_bind.
  rewrite nextByte_hex_cons by done. unfold lift.
  rewrite Nat2Z.inj_succ, Z.pow_succ_r in Hlt by lia.
  assert (1 <= 256 ^ Z.of_nat (length bs)) by (apply Z.lt_pred_le, Z.pow_pos_nonneg; lia).
  destruct (le_step_bounds v m b (256 ^ Z.of_nat (length bs))) as (? & ? & ?); [done..|].
  rewrite (chk64_ok (b * m)), (chk64_ok (v + b * m)), chk64_ok by lia. rewrite IH by lia. do 2 f_equal. ring.
Qed.

(** ** The encoder *)

Lemma byte_length_spec n :
  0 < n -> 256 ^ (Z.of_nat (byte_length n) - 1) <= n < 256 ^ Z.of_nat (byte_length n).
Proof.
  intros Hn. unfold byte_length. pose proof (Z.log2_spec n Hn) as [Hlo Hhi].
  pose proof (Z.log2_nonneg n). pose proof (Z.mod_pos_bound (Z.log2 n) 8).
  pose proof (Z.div_mod (Z.log2 n) 8). pose proof (Z.div_pos (Z.log2 n) 8).
  rewrite Z2Nat.id by lia. change 256 with (2 ^ 8). rewrite <- !Z.pow_mul_r by lia. split.
  - eapply Z.le_trans; [|exact Hlo]. apply Z.pow_le_mono_r; lia.
  - eapply Z.lt_le_trans; [exact Hhi|]. apply Z.pow_le_mono_r; lia.
Qed.

(** The bounds on [n] translate to bounds on its number of bytes. *)
Lemma byte_length_bounds n i j :
  256 ^ Z.of_nat i <= n < 256 ^ Z.of_nat j -> (i < byte_length n <= j)%nat.
Proof.
  intros [Hi Hj]. assert (0 < n). { pose proof (Z.pow_pos_nonneg 256 (Z.of_nat i)). lia. }
  destruct (byte_length_spec n) as [Hlo Hhi]; [done|].
  assert (256 ^ Z.of_nat i < 256 ^ Z.of_nat (byte_length n)) as H1 by lia.
  apply Z.pow_lt_mono_r_iff in H1; [|lia|lia].
  assert (256 ^ (Z.of_nat (byte_length n) - 1) < 256 ^ Z.of_nat j) as H2 by lia.
  apply Z.pow_lt_mono_r_iff in H2; [|lia|lia]. lia.
Qed.

Lemma land_255 v : Z.land v 255 = v mod 256.
Proof. apply (Z.land_ones v 8). lia. Qed.

Lemma u8_land_255 v : u8 (Z.land v 255) = v mod 256.
Proof. rewrite land_255. apply u8_byte, Z.mod_pos_bound. lia. Qed.

Lemma shiftr_8 v : Z.shiftr v 8 = v / 256.
Proof. by apply Z.shiftr_div_pow2. Qed.

(** A value with [k] bytes: zero when [k = 0], else its top byte is not zero. *)
Definition has_bytes (k : nat) (v : Z) : Prop :=
  match k with O => v = 0 | S k' => 256 ^ Z.of_nat k' <= v < 256 ^ Z.of_nat k end.

Lemma has_bytes_S k v : has_bytes (S k) v -> 0 < v /\ has_bytes k (v / 256).
Proof.
  unfold has_bytes. rewrite Nat2Z.inj_succ, Z.pow_succ_r by lia.
  pose proof (Z.pow_pos_nonneg 256 (Z.of_nat k)). intros Hv. split; [lia|].
  destruct k as [|k]. { apply Z.div_small. cbn in *. lia. }
  rewrite Nat2Z.inj_succ, Z.pow_succ_r in * by lia.
  split; [apply Z.div_le_lower_bound | apply Z.div_lt_upper_bound]; lia.
Qed.

Lemma byte_length_has_bytes n : 0 < n -> has_bytes (byte_length n) n.
Proof.
  intros Hn. pose proof (byte_length_spec n Hn) as H. destruct (byte_length n) as [|k].
  { change (256 ^ Z.of_nat 0) with 1 in H. lia. }
  cbn. by replace (Z.of_nat k) with (Z.of_nat (S k) - 1) by lia.
Qed.

Lemma encode_big_spec k fuel byteNum v pre zs :
  has_bytes k v -> (k <= fuel)%nat -> length pre = byteNum -> (k <= length zs)%nat ->
  encode_big fuel byteNum v (pre ++ zs) = Ret ((byteNum + k)%nat, pre ++ le_bytes k v ++ drop k zs).
Proof.
  revert fuel byteNum v pre zs. induction k as [|k IH]; intros fuel i v pre zs Hv Hf Hp Hz.
  { cbn in Hv. subst v. rewrite drop_0, Nat.add_0_r. by destruct fuel. }
  destruct (has_bytes_S k v Hv) as [Hpos Hdiv].
  destruct fuel as [|fuel]; [lia|]. destruct zs as [|z zs]; [cbn in Hz; lia|].
  cbn [encode_big]. destruct (Z.eqb_spec v 0); [lia|].
  rewrite store_ok by (rewrite length_app; cbn; lia). ostep.
  rewrite u8_land_255, shiftr_8, <- Hp.
  replace (<[length pre:=v mod 256]> (pre ++ z :: zs)) with ((pre ++ [v mod 256]) ++ zs).
  2:{ rewrite <- (Nat.add_0_r (length pre)), insert_app_r. by rewrite <- app_assoc. }
  rewrite IH; [|done|lia|rewrite length_app; cbn; lia|cbn in Hz; lia].
  f_equal. f_equal; [lia|]. by rewrite <- !app_assoc.
Qed.

Lemma encode_big_overflow k fuel byteNum v pre zs :
  has_bytes k v -> (k <= fuel)%nat -> length pre = byteNum -> (length zs < k)%nat ->
  encode_big fuel byteNum v (pre ++ zs) = UB.
Proof.
  revert fuel byteNum v pre zs. induction k as [|k IH]; intros fuel i v pre zs Hv Hf Hp Hz; [lia|].
  destruct (has_bytes_S k v Hv) as [Hpos Hdiv].
  destruct fuel as [|fuel]; [lia|]. cbn [encode_big]. destruct (Z.eqb_spec v 0); [lia|].
  destruct zs as [|z zs]; [by rewrite store_ub by (rewrite app_nil_r; lia)|].
  rewrite store_ok by (rewrite length_app; cbn; lia). ostep.
  rewrite u8_land_255, shiftr_8, <- Hp.
  replace (<[length pre:=v mod 256]> (pre ++ z :: zs)) with ((pre ++ [v mod 256]) ++ zs).
  2:{ rewrite <- (Nat.add_0_r (length pre)), insert_app_r. by rewrite <- app_assoc. }
  apply IH; [done|lia|rewrite length_app; cbn; lia|cbn in Hz; lia].
Qed.

(** The first byte of the two- and four-byte modes: six bits of the number above its mode. *)
Lemma first_byte_spec n tag :
  0 <= tag < 4 ->
  u8 (Z.lor (u128 (Z.shiftl (Z.land n 0x3F) 2)) tag) = (4 * n + tag) mod 256.
Proof.
  intros Ht. change 0x3F with (Z.ones 6). rewrite Z.land_ones by lia.
  assert (forall x, is_byte x -> x < 64 ->
    u8 (Z.lor (u128 (Z.shiftl x 2)) tag) = 4 * x + tag) as Hx.
  { intros x Hx Hlt. apply (forall_bytes (fun x => implb (x <? 64) (forallb (fun t =>
      u8 (Z.lor (u128 (Z.shiftl x 2)) t) =? 4 * x + t) [0; 1; 2; 3]))) in Hx;
      [|vm_compute; reflexivity].
    rewrite (proj2 (Z.ltb_lt x 64) Hlt) in Hx. cbn [implb] in Hx.
    rewrite forallb_forall in Hx. apply Z.eqb_eq, Hx. cbn. lia. }
  pose proof (Z.mod_pos_bound n 64). rewrite Hx by (change (2 ^ 6) with 64; unfold is_byte; lia).
  change (2 ^ 6) with 64. Z.div_mod_to_equations. lia.
Qed.

Lemma second_byte_spec n : u8 (Z.shiftr (Z.land n 0xFC0) 6) = (n / 64) mod 64.
Proof.
  rewrite Z.shiftr_land. change (Z.shiftr 0xFC0 6) with (Z.ones 6).
  rewrite Z.land_ones, Z.shiftr_div_pow2 by lia. change (2 ^ 6) with 64.
  apply u8_byte. pose proof (Z.mod_pos_bound (n / 64) 64). unfold is_byte. lia.
Qed.

Lemma le_bytes_S n v : le_bytes (S n) v = v mod 256 :: le_bytes n (v / 256).
Proof. done. Qed.

(** The two-byte mode, for every number it is chosen for. *)
Lemma encode_two n :
  64 <= n <= 0x3FFF ->
  encodeCompactInteger n
  = Ret {| ci_length := 2; ci_bytes := le_bytes 2 (4 * (n mod 4096) + 1) ++ replicate 6 0 |}.
Proof.
  intros Hn. unfold encodeCompactInteger.
  destruct (Z.leb_spec n 63); [lia|]. destruct (Z.leb_spec n 0x3FFF); [|lia].
  rewrite store_ok by (cbn; lia). ostep. rewrite store_ok by (cbn; lia). ostep.
  rewrite first_byte_spec, second_byte_spec by lia. rewrite !le_bytes_S. cbn.
  do 2 f_equal. f_equal; [Z.div_mod_to_equations; lia|]. f_equal. Z.div_mod_to_equations. lia.
Qed.

Lemma encode_four_spec n :
  0x3FFF < n <= 0x3FFFFFFF ->
  encodeCompactInteger n
  = Ret {| ci_length := 4; ci_bytes := le_bytes 4 (4 * n + 2) ++ replicate 4 0 |}.
Proof.
  intros Hn. unfold encodeCompactInteger.
  destruct (Z.leb_spec n 63); [lia|]. destruct (Z.leb_spec n 0x3FFF); [lia|].
  destruct (Z.leb_spec n 0x3FFFFFFF); [|lia].
  rewrite store_ok by (cbn; lia). ostep. rewrite first_byte_spec by lia.
  cbn [encode_four]. do 3 (rewrite store_ok by (cbn; lia); ostep).
  rewrite !u8_land_255, !shiftr_8, Z.shiftr_div_pow2 by lia. change (2 ^ 6) with 64.
  rewrite !le_bytes_S. cbn. assert ((4 * n + 2) / 256 = n / 64) as ->; [|done].
  Z.div_mod_to_equations. lia.
Qed.

Lemma encode_big_mode n :
  2 ^ 30 <= n < 2 ^ 56 ->
  encodeCompactInteger n
  = Ret {| ci_length := Z.of_nat (S (byte_length n));
           ci_bytes := (4 * (Z.of_nat (byte_length n) - 4) + 3) :: le_bytes (byte_length n) n
                       ++ replicate (7 - byte_length n) 0 |}.
Proof.
  intros Hn. assert (3 < byte_length n <= 7)%nat by (apply byte_length_bounds; lia).
  unfold encodeCompactInteger.
  destruct (Z.leb_spec n 63); [lia|]. destruct (Z.leb_spec n 0x3FFF); [lia|].
  destruct (Z.leb_spec n 0x3FFFFFFF); [lia|].
  change (replicate 8 0) with ([0] ++ replicate 7 0).
  rewrite (encode_big_spec (byte_length n));
    [|apply byte_length_has_bytes; lia|lia|done|rewrite length_replicate; lia].
  ostep. rewrite store_ok by (cbn; lia). ostep. rewrite drop_replicate. cbn.
  do 2 f_equal. assert (byte_length n = 4 \/ byte_length n = 5 \/ byte_length n = 6
    \/ byte_length n = 7)%nat as [-> | [-> | [-> | ->]]] by lia; reflexivity.
Qed.

(** Every safe number gets its SCALE encoding, at the front of a zeroed buffer. *)
Lemma encode_ok n :
  compact_safe n = true ->
  encodeCompactInteger n
  = Ret {| ci_length := Z.of_nat (length (compact_spec n));
           ci_bytes := compact_spec n ++ replicate (8 - length (compact_spec n)) 0 |}.
Proof.
  unfold compact_safe, compact_spec. intros Hs.
  destruct (Z.ltb_spec n (2 ^ 6)).
  { unfold encodeCompactInteger. destruct (Z.leb_spec n 63); [|lia].
    rewrite store_ok by (cbn; lia). ostep. rewrite le_bytes_S, Z.shiftl_mul_pow2, Z.mul_comm by lia.
    change (2 ^ 2) with 4. by rewrite (uwrap_small 128), uwrap_small, Z.mod_small by lia. }
  destruct (Z.ltb_spec n (2 ^ 14)).
  { rewrite encode_two by lia. rewrite (Z.mod_small n) by lia. done. }
  destruct (Z.ltb_spec n (2 ^ 30)).
  { by rewrite encode_four_spec by lia. }
  rewrite encode_big_mode by lia. cbn [length app]. by rewrite length_le_bytes.
Qed.

Lemma compact_spec_ok n : 0 <= n < 2 ^ 56 -> bytes_ok (compact_spec n).
Proof.
  intros Hn. unfold compact_spec.
  destruct (Z.ltb_spec n (2 ^ 6)); [auto with polka|].
  destruct (Z.ltb_spec n (2 ^ 14)); [auto with polka|].
  destruct (Z.ltb_spec n (2 ^ 30)); [auto with polka|].
  assert (3 < byte_length n <= 7)%nat by (apply byte_length_bounds; lia).
  constructor; [unfold is_byte; lia|auto with polka].
Qed.

(** ** Decoding an encoding *)

Lemma land_3 v : Z.land v 3 = v mod 4.
Proof. apply (Z.land_ones v 2). lia. Qed.

Lemma land_252 b : is_byte b -> Z.land b 252 = b - b mod 4.
Proof.
  intros Hb. apply (forall_bytes (fun b => Z.land b 252 =? b - b mod 4)) in Hb;
    [|vm_compute; reflexivity]. by apply Z.eqb_eq.
Qed.

Lemma shiftr_2 v : Z.shiftr v 2 = v / 4.
Proof. by apply Z.shiftr_div_pow2. Qed.

(** The decoder, once the first byte is read. *)
Lemma decode_unfold b bs s :
  is_byte b ->
  decodeCompactInteger (hex_bytes (b :: bs) ++ s)
  = (if b mod 4 =? 0 then mret (i64 (b / 4))
     else if b mod 4 =? 1 then
       second ← nextByte; mret (i64 (u64 (b - 1 + second * 256) / 4))
     else if b mod 4 =? 2 then number ← decode_four 3 b 256; mret (i64 (number / 4))
     else decode_big (Z.to_nat (b / 4 + 4)) 0 1) (hex_bytes bs ++ s).
Proof.
  intros Hb. unfold decodeCompactInteger at 1, mbind at 1, parser_bind at 1.
  rewrite nextByte_hex_cons by done. rewrite land_3, land_252, !shiftr_2 by done.
  pose proof (Z.mod_pos_bound b 4).
  destruct (Z.eqb_spec (b mod 4) 0); [done|].
  destruct (Z.eqb_spec (b mod 4) 1) as [->|].
  { unfold mbind, parser_bind. destruct (nextByte _) as [[c s']| |]; [|done..].
    by rewrite shiftr_2. }
  destruct (Z.eqb_spec (b mod 4) 2).
  { unfold mbind, parser_bind. destruct (decode_four _ _ _ _) as [[c s']| |]; [|done..].
    by rewrite shiftr_2. }
  destruct (Z.eqb_spec (b mod 4) 3); [done|lia].
Qed.

Lemma decode_one n s :
  0 <= n < 2 ^ 6 -> decodeCompactInteger (hex_bytes (le_bytes 1 (4 * n)) ++ s) = Ret (n, s).
Proof.
  intros Hn. rewrite le_bytes_S, decode_unfold by (apply Z.mod_pos_bound; lia).
  rewrite (Z.mod_small (4 * n)) by lia. destruct (Z.eqb_spec ((4 * n) mod 4) 0).
  2: { Z.div_mod_to_equations; lia. }
  cbn. rewrite Z.mul_comm, Z.div_mul by lia. by rewrite swrap_small by lia.
Qed.

Lemma decode_two n s :
  0 <= n < 2 ^ 14 -> decodeCompactInteger (hex_bytes (le_bytes 2 (4 * n + 1)) ++ s) = Ret (n, s).
Proof.
  intros Hn. rewrite le_bytes_S, decode_unfold by (apply Z.mod_pos_bound; lia).
  assert ((4 * n + 1) mod 256 mod 4 = 1) as -> by (Z.div_mod_to_equations; lia).
  cbn [Z.eqb Pos.eqb]. unfold mbind, parser_bind.
  rewrite le_bytes_S, nextByte_hex_cons by (apply Z.mod_pos_bound; lia).
  unfold mret, parser_ret. rewrite uwrap_small by (Z.div_mod_to_equations; lia).
  rewrite swrap_small; [|lia|Z.div_mod_to_equations; lia].
  do 2 f_equal. Z.div_mod_to_equations. lia.
Qed.

Lemma decode_four_mode n s :
  0 <= n < 2 ^ 30 -> decodeCompactInteger (hex_bytes (le_bytes 4 (4 * n + 2)) ++ s) = Ret (n, s).
Proof.
  intros Hn. rewrite le_bytes_S, decode_unfold by (apply Z.mod_pos_bound; lia).
  assert ((4 * n + 2) mod 256 mod 4 = 2) as -> by (Z.div_mod_to_equations; lia).
  cbn [Z.eqb Pos.eqb]. unfold mbind, parser_bind.
  pose proof (decode_four_hex (le_bytes 3 ((4 * n + 2) / 256)) ((4 * n + 2) mod 256) 256 s) as Hd.
  rewrite length_le_bytes in Hd. rewrite Hd; [|auto with polka|apply Z.mod_pos_bound; lia|lia].
  rewrite of_le_bytes by (change (256 ^ Z.of_nat 3) with (2 ^ 24); Z.div_mod_to_equations; lia).
  unfold mret, parser_ret.
  assert (((4 * n + 2) mod 256 + 256 * ((4 * n + 2) / 256)) / 4 = n) as ->
    by (Z.div_mod_to_equations; lia).
  by rewrite swrap_small by lia.
Qed.

Lemma decode_big_mode n s :
  2 ^ 30 <= n < 2 ^ 56 ->
  decodeCompactInteger (hex_bytes ((4 * (Z.of_nat (byte_length n) - 4) + 3)
    :: le_bytes (byte_length n) n) ++ s) = Ret (n, s).
Proof.
  intros Hn. assert (3 < byte_length n <= 7)%nat by (apply byte_length_bounds; lia).
  pose proof (byte_length_spec n ltac:(lia)) as [_ Hhi]. set (k := byte_length n) in *.
  rewrite decode_unfold by (unfold is_byte; lia).
  assert ((4 * (Z.of_nat k - 4) + 3) mod 4 = 3) as -> by (Z.div_mod_to_equations; lia).
  assert ((4 * (Z.of_nat k - 4) + 3) / 4 + 4 = Z.of_nat k) as -> by (Z.div_mod_to_equations; lia).
  cbn [Z.eqb Pos.eqb]. rewrite Nat2Z.id.
  pose proof (decode_big_hex (le_bytes k n) 0 1 s) as Hd. rewrite length_le_bytes in Hd.
  rewrite Hd; [|auto with polka|lia|].
  - rewrite of_le_bytes by lia. do 2 f_equal. lia.
  - assert (256 ^ Z.of_nat k <= 256 ^ 7) by (apply Z.pow_le_mono_r; lia). lia.
Qed.

Lemma decode_spec n s :
  0 <= n < 2 ^ 56 -> decodeCompactInteger (hex_bytes (compact_spec n) ++ s) = Ret (n, s).
Proof.
  intros Hn. unfold compact_spec.
  destruct (Z.ltb_spec n (2 ^ 6)); [apply decode_one; lia|].
  destruct (Z.ltb_spec n (2 ^ 14)); [apply decode_two; lia|].
  destruct (Z.ltb_spec n (2 ^ 30)); [apply decode_four_mode; lia|].
  apply decode_big_mode. lia.
Qed.

(** ** Failures of the decoder *)

Lemma decode_four_short n bs number multiplier t :
  bytes_ok bs -> (length bs < n)%nat -> (length t < 2)%nat ->
  decode_four n number multiplier (hex_bytes bs ++ t) = Throw out_of_range.
Proof.
  intros H. revert n number multiplier. induction H as [|b bs Hb _ IH]; intros n v m Hn Ht.
  - destruct n; [cbn in Hn; lia|]. cbn [decode_four]. unfold mbind, parser_bind.
    by rewrite nextByte_short.
  - destruct n; [lia|]. cbn [decode_four]. unfold mbind, parser_bind.
    rewrite nextByte_hex_cons by done. apply IH; [cbn in Hn; lia|done].
Qed.

Lemma decode_big_short n bs value multiplier t :
  bytes_ok bs -> (length bs < n)%nat -> (length t < 2)%nat ->
  0 <= value < multiplier -> multiplier * 256 ^ Z.of_nat n < 2 ^ 63 ->
  decode_big n value multiplier (hex_bytes bs ++ t) = Throw out_of_range.
Proof.
  intros H. revert n value multiplier. induction H as [|b bs Hb _ IH]; intros n v m Hn Ht Hv Hm.
  - destruct n; [cbn in Hn; lia|]. cbn [decode_big]. unfold mbind, parser_bind.
    by rewrite nextByte_short.
  - destruct n; [lia|]. cbn [decode_big]. unfold mbind, parser_bind, lift.
    rewrite nextByte_hex_cons by done. rewrite Nat2Z.inj_succ, Z.pow_succ_r in Hm by lia.
    assert (1 <= 256 ^ Z.of_nat n) by (apply Z.lt_pred_le, Z.pow_pos_nonneg; lia).
    destruct (le_step_bounds v m b (256 ^ Z.of_nat n)) as (? & ? & ?); [done..|].
    rewrite (chk64_ok (b * m)), (chk64_ok (v + b * m)), chk64_ok by lia.
    apply IH; [cbn in Hn; lia|done|lia|lia].
Qed.

Lemma decode_four_defined n v m s : defined (decode_four n v m s) = true.
Proof.
  revert v m s. induction n as [|n IH]; intros v m s; [done|].
  cbn [decode_four]. unfold mbind, parser_bind.
  pose proof (nextByte_defined s). destruct (nextByte s) as [[b s']| |]; auto.
Qed.

Lemma decode_big_defined n v m s :
  0 <= v < m -> m * 256 ^ Z.of_nat n < 2 ^ 63 -> defined (decode_big n v m s) = true.
Proof.
  revert v m s. induction n as [|n IH]; intros v m s Hv Hm; [done|].
  cbn [decode_big]. unfold mbind, parser_bind, lift. pose proof (nextByte_defined s).
  destruct (nextByte s) as [[b s']| |] eqn:E; [|done..]. apply nextByte_range in E.
  rewrite Nat2Z.inj_succ, Z.pow_succ_r in Hm by lia.
  assert (1 <= 256 ^ Z.of_nat n) by (apply Z.lt_pred_le, Z.pow_pos_nonneg; lia).
  destruct (le_step_bounds v m b (256 ^ Z.of_nat n)) as (? & ? & ?); [done..|].
  rewrite (chk64_ok (b * m)), (chk64_ok (v + b * m)), chk64_ok by lia. apply IH; lia.
Qed.

(** Eight or more value bytes overflow the [long] multiplier. *)
Lemma decode_big_overflow bs value multiplier s :
  bytes_ok bs -> 0 <= value < multiplier -> bs <> [] ->
  2 ^ 63 <= multiplier * 256 ^ Z.of_nat (length bs) ->
  decode_big (length bs) value multiplier (hex_bytes bs ++ s) = UB.
Proof.
  intros H. revert value multiplier. induction H as [|b bs Hb Hbs IH]; intros v m Hv Hne Hm; [done|].
  cbn [length decode_big] in *. unfold mbind, parser_bind, lift.
  rewrite nextByte_hex_cons by done. rewrite Nat2Z.inj_succ, Z.pow_succ_r in Hm by lia.
  unfold chk64. destruct (in_signed 64 (b * m)); [|done].
  destruct (in_signed 64 (v + b * m)); [|done].
  destruct (in_signed 64 (m * 256)) eqn:E; [|done]. apply in_signed_spec in E.
  apply IH.
  - unfold is_byte in Hb. nia.
  - intros ->. cbn in Hm. lia.
  - lia.
Qed.

(** ** Properties *)

(** [encodeCompactInteger] refines the SCALE compact encoding: for every
    number below 2^56 outside 4096..16383 it succeeds, writes exactly the bytes
    of [compact_spec] at the front of its eight-byte buffer, reports their count
    and leaves the rest of the buffer zero. *)
Theorem encode_refines_spec n :
  compact_safe n = true ->
  encodeCompactInteger n
  = Ret {| ci_length := Z.of_nat (length (compact_spec n));
           ci_bytes := compact_spec n ++ replicate (8 - length (compact_spec n)) 0 |}.
Proof. apply encode_ok. Qed.

Lemma encode_refines_spec_witness :
  compact_safe 1000000000000 = true /\
  encodeCompactInteger 1000000000000
  = Ret {| ci_length := 6; ci_bytes := [7; 0; 16; 165; 212; 232; 0; 0] |}.
Proof. split; [reflexivity|]. apply (encode_refines_spec 1000000000000). reflexivity. Defined.

Lemma ci_prefix_ok n :
  ci_prefix {| ci_length := Z.of_nat (length (compact_spec n));
               ci_bytes := compact_spec n ++ replicate (8 - length (compact_spec n)) 0 |}
  = compact_spec n.
Proof. unfold ci_prefix. cbn. by rewrite Nat2Z.id, take_app_length. Qed.

(** C6: decoding inverts encoding: the bytes [encodeCompactInteger] produces for
    a safe number, printed in hexadecimal and followed by any other text, make
    [decodeCompactInteger] return the number and leave exactly that text. *)
Theorem compact_roundtrip n s :
  compact_safe n = true ->
  exists ci, encodeCompactInteger n = Ret ci /\
    decodeCompactInteger (hex_bytes (ci_prefix ci) ++ s) = Ret (n, s).
Proof.
  intros Hn. rewrite encode_ok by done. eexists. split; [done|].
  rewrite ci_prefix_ok. apply decode_spec. unfold compact_safe in Hn. lia.
Qed.

Lemma compact_roundtrip_witness :
  compact_safe 141 = true /\
  exists ci, encodeCompactInteger 141 = Ret ci /\
    decodeCompactInteger (hex_bytes (ci_prefix ci) ++ str "FF") = Ret (141, str "FF").
Proof. split; [reflexivity|]. apply (compact_roundtrip 141 (str "FF")). reflexivity. Defined.

(** The two-byte mode keeps twelve bits only: its mask 0xFC0 drops bits 12
    and 13, so every number from 4096 to 16383 is encoded as, and decodes to, its
    remainder modulo 4096, a different number. *)
Theorem encode_two_byte_loses_bits n s :
  4096 <= n <= 0x3FFF ->
  exists ci, encodeCompactInteger n = Ret ci /\ ci_length ci = 2 /\
    decodeCompactInteger (hex_bytes (ci_prefix ci) ++ s) = Ret (n mod 4096, s) /\
    n mod 4096 <> n.
Proof.
  intros Hn. rewrite encode_two by lia. eexists. split; [done|]. split; [done|].
  pose proof (Z.mod_pos_bound n 4096). split; [|lia].
  apply (decode_two (n mod 4096)). lia.
Qed.

Lemma encode_two_byte_loses_bits_witness :
  exists ci, encodeCompactInteger 5000 = Ret ci /\ ci_length ci = 2 /\
    decodeCompactInteger (hex_bytes (ci_prefix ci) ++ []) = Ret (904, []) /\ 5000 mod 4096 <> 5000.
Proof. apply (encode_two_byte_loses_bits 5000 []). lia. Defined.

(** A number of more than seven bytes does not fit the buffer: from 2^56 on
    the big-integer mode writes past the end of [bytes]. *)
Theorem encode_overflows_buffer n :
  2 ^ 56 <= n < 2 ^ 128 -> encodeCompactInteger n = UB.
Proof.
  intros Hn. unfold encodeCompactInteger.
  destruct (Z.leb_spec n 63); [lia|]. destruct (Z.leb_spec n 0x3FFF); [lia|].
  destruct (Z.leb_spec n 0x3FFFFFFF); [lia|].
  assert (7 < byte_length n <= 16)%nat by (apply byte_length_bounds; lia).
  change (replicate 8 0) with ([0] ++ replicate 7 0).
  by rewrite (encode_big_overflow (byte_length n));
    [|apply byte_length_has_bytes; lia|lia|done|rewrite length_replicate; lia].
Qed.

Lemma encode_overflows_buffer_witness : encodeCompactInteger (2 ^ 60) = UB.
Proof. apply (encode_overflows_buffer (2 ^ 60)). lia. Defined.

(** The decoder is memory- and overflow-safe on every text, hexadecimal or
    not, unless its first byte announces eight or more value bytes: it returns or
    throws. *)
Theorem decode_safe s :
  (forall b s', nextByte s = Ret (b, s') -> b mod 4 = 3 -> b / 4 + 4 < 8) ->
  defined (decodeCompactInteger s) = true.
Proof.
  intros Hs. unfold decodeCompactInteger, mbind at 1, parser_bind at 1.
  pose proof (nextByte_defined s). destruct (nextByte s) as [[b s']| |] eqn:E; [|done..].
  pose proof (nextByte_range _ _ _ E) as Hb. rewrite land_3, !shiftr_2.
  destruct (Z.eqb_spec (b mod 4) 0); [done|].
  destruct (Z.eqb_spec (b mod 4) 1).
  { unfold mbind, parser_bind. pose proof (nextByte_defined s').
    by destruct (nextByte s') as [[? ?]| |]. }
  destruct (Z.eqb_spec (b mod 4) 2).
  { unfold mbind, parser_bind. pose proof (decode_four_defined 3 b 256 s').
    by destruct (decode_four 3 b 256 s') as [[? ?]| |]. }
  destruct (Z.eqb_spec (b mod 4) 3); [|done].
  specialize (Hs b s' eq_refl ltac:(done)). apply decode_big_defined; [lia|].
  unfold is_byte in Hb. pose proof (Z.div_pos b 4). rewrite Z2Nat.id by lia.
  assert (256 ^ (b / 4 + 4) <= 256 ^ 7) by (apply Z.pow_le_mono_r; lia). lia.
Qed.

Lemma decode_safe_witness : defined (decodeCompactInteger (str "0b12")) = true.
Proof. apply (decode_safe (str "0b12")). intros b s' [= <- <-]. reflexivity. Defined.

(** An announced width of eight bytes or more (mode 3, six-bit count of four
    or more) is undefined behaviour: the [long] accumulator or its multiplier
    overflows, whatever the value bytes are. *)
Theorem decode_wide_overflows b bs s :
  is_byte b -> bytes_ok bs -> b mod 4 = 3 -> 8 <= b / 4 + 4 ->
  Z.of_nat (length bs) = b / 4 + 4 ->
  decodeCompactInteger (hex_bytes (b :: bs) ++ s) = UB.
Proof.
  intros Hb Hbs Hm Hc Hl. rewrite decode_unfold by done. rewrite Hm, <- Hl, Nat2Z.id.
  cbn [Z.eqb Pos.eqb]. apply decode_big_overflow; [done|lia| |].
  - intros ->. cbn in Hl. lia.
  - assert (256 ^ 8 <= 256 ^ Z.of_nat (length bs)) by (apply Z.pow_le_mono_r; lia). lia.
Qed.

Lemma decode_wide_overflows_witness :
  decodeCompactInteger (hex_bytes (19 :: replicate 8 0) ++ []) = UB.
Proof.
  apply (decode_wide_overflows 19 (replicate 8 0) []);
    [by split | by apply Forall_replicate | reflexivity | vm_compute; discriminate | reflexivity].
Defined.

(** A truncated encoding is rejected: cut anywhere before its last byte, even
    in the middle of a byte's two characters, it makes the decoder throw
    [std::out_of_range]. *)
Theorem decode_truncated n j t :
  0 <= n < 2 ^ 56 -> (j < length (compact_spec n))%nat -> (length t < 2)%nat ->
  decodeCompactInteger (hex_bytes (take j (compact_spec n)) ++ t) = Throw out_of_range.
Proof.
  intros Hn Hj Ht. pose proof (compact_spec_ok n Hn) as Hok.
  unfold compact_spec in *.
  destruct j as [|j].
  { unfold decodeCompactInteger, mbind, parser_bind. by rewrite take_0, nextByte_short. }
  destruct (Z.ltb_spec n (2 ^ 6)).
  { rewrite length_le_bytes in Hj. lia. }
  destruct (Z.ltb_spec n (2 ^ 14)).
  { rewrite length_le_bytes in Hj. assert (j = 0%nat) as -> by lia.
    rewrite !le_bytes_S. cbn [take]. rewrite decode_unfold by (apply Z.mod_pos_bound; lia).
    assert ((4 * n + 1) mod 256 mod 4 = 1) as -> by (Z.div_mod_to_equations; lia).
    cbn [Z.eqb Pos.eqb]. unfold mbind, parser_bind. by rewrite nextByte_short. }
  destruct (Z.ltb_spec n (2 ^ 30)).
  { rewrite length_le_bytes in Hj. rewrite le_bytes_S. cbn [take].
    rewrite decode_unfold by (apply Z.mod_pos_bound; lia).
    assert ((4 * n + 2) mod 256 mod 4 = 2) as -> by (Z.div_mod_to_equations; lia).
    cbn [Z.eqb Pos.eqb]. unfold mbind, parser_bind.
    rewrite decode_four_short; [done|apply Forall_take; auto with polka| |done].
    rewrite length_take, length_le_bytes. lia. }
  assert (3 < byte_length n <= 7)%nat by (apply byte_length_bounds; lia).
  cbn [length take] in *. rewrite length_le_bytes in Hj.
  rewrite decode_unfold by (unfold is_byte; lia). set (k := byte_length n) in *.
  assert ((4 * (Z.of_nat k - 4) + 3) mod 4 = 3) as -> by (Z.div_mod_to_equations; lia).
  assert ((4 * (Z.of_nat k - 4) + 3) / 4 + 4 = Z.of_nat k) as -> by (Z.div_mod_to_equations; lia).
  cbn [Z.eqb Pos.eqb]. rewrite Nat2Z.id.
  apply decode_big_short; [apply Forall_take; auto with polka| |done|lia|].
  - rewrite length_take, length_le_bytes. lia.
  - assert (256 ^ Z.of_nat k <= 256 ^ 7) by (apply Z.pow_le_mono_r; lia). lia.
Qed.

Lemma decode_truncated_witness :
  decodeCompactInteger (hex_bytes (take 5 (compact_spec 1000000000000)) ++ str "E") = Throw out_of_range.
Proof.
  apply (decode_truncated 1000000000000 5 (str "E")); [lia|vm_compute; lia|vm_compute; lia].
Defined.
