(* ===== verification/Converters.v ===== *)
(** Text to number conversions: [src/utils/converters.cpp].

    [fromHex] is a template over the integer type of its result, [cint] below;
    [atoi128] is a shift-and-correct conversion on binary coded decimal. *)
From S2P Require Import Prelude.

(** ** Hexadecimal *)

Definition fromHexDigit (c : Z) : Z :=
  if (97 <=? c) && (c <=? 102) then u8 (c - 97 + 10)
  else if (65 <=? c) && (c <=? 70) then u8 (c - 65 + 10)
  else if (48 <=? c) && (c <=? 57) then u8 (c - 48)
  else c.

(** The two characters at the pointer. *)
Definition fromHexByte (digit1 digit2 : Z) : Z :=
  u8 (Z.lor (Z.shiftl (fromHexDigit digit1) 4) (fromHexDigit digit2)).

(** The types the template is instantiated at. *)
Inductive cint : Type := LongLong | UnsignedLong | UInt128.

(** [x << k] at each type.  A shift by the width or more is undefined (for
    [uint128], whose operator shifts a 64-bit half by [k - 64], from 128 on); a
    signed operand must not be negative, and the result must fit the unsigned type. *)
Definition shl (T : cint) (x k : Z) : outcome Z :=
  match T with
  | LongLong =>
      if (x <? 0) || (64 <=? k) || (2 ^ 64 <=? x * 2 ^ k) then UB else Ret (i64 (x * 2 ^ k))
  | UnsignedLong => if 64 <=? k then UB else Ret (u64 (x * 2 ^ k))
  | UInt128 => if 128 <=? k then UB else Ret (u128 (x * 2 ^ k))
  end.

(** [hexStr[0] == '0' && hexStr[1] == 'x'] *)
Definition has_0x (hexStr : list Z) : bool :=
  match hexStr with
  | a :: b :: _ => (a =? 48) && (b =? 120)
  | _ => false
  end.

(** The loop over [hexStr.c_str() + offset]; a last unpaired digit is read
    together with the terminating NUL. *)
Fixpoint fromHex_loop (T : cint) (bigEndianBytes : bool) (rest : list Z) (byteOffset result : Z) : outcome Z :=
  let round byte rest' :=
    if bigEndianBytes then
      r ← shl T result 8;
      rest' (Z.lor r byte) byteOffset
    else
      w ← shl T byte byteOffset;
      rest' (Z.lor w result) (byteOffset + 8) in
  match rest with
  | [] => Ret result
  | [d1] => round (fromHexByte d1 0) (fun r _ => Ret r)
  | d1 :: d2 :: rest' =>
      round (fromHexByte d1 d2) (fun r o => fromHex_loop T bigEndianBytes rest' o r)
  end.

Definition fromHex (T : cint) (hexStr : list Z) (bigEndianBytes : bool) : outcome Z :=
  fromHex_loop T bigEndianBytes (if has_0x hexStr then drop 2 hexStr else hexStr) 0 0.

(** [s.c_str()[i]]: the character, the terminating NUL, or out of bounds. *)
Definition c_str_at (s : list Z) (i : Z) : outcome Z :=
  if (i <? 0) || (Z.of_nat (length s) <? i) then UB
  else Ret (default 0 (s !! Z.to_nat i)).

(** The loop of the [vector<uint8_t>] specialisation; it reads before it tests,
    and runs at most once per character. *)
Fixpoint fromHexVec_loop (fuel : nat) (s : list Z) (bigEndianBytes : bool) (start offset : Z)
    (result : list Z) : outcome (list Z) :=
  match fuel with
  | O => UB
  | S fuel' =>
      d1 ← c_str_at s offset;
      d2 ← c_str_at s (offset + 1);
      let result' := result ++ [fromHexByte d1 d2] in
      if bigEndianBytes then
        if Z.of_nat (length s) <=? offset + 2 then Ret result'
        else fromHexVec_loop fuel' s bigEndianBytes start (offset + 2) result'
      else
        if offset - 2 <? start then Ret result'
        else fromHexVec_loop fuel' s bigEndianBytes start (offset - 2) result'
  end.

Definition fromHexVec (hexStr : list Z) (bigEndianBytes : bool) : outcome (list Z) :=
  let start := if has_0x hexStr then 2 else 0 in
  let offset := if bigEndianBytes then start else Z.of_nat (length hexStr) - 2 in
  fromHexVec_loop (S (length hexStr)) hexStr bigEndianBytes start offset [].

(** ** Decimal *)

Fixpoint atoi_skip (s : list Z) : list Z :=
  match s with
  | c :: s' => if (c =? 32) || (c =? 9) || (c =? 10) || (c =? 43) then atoi_skip s' else s
  | [] => []
  end.

(** [scratch[i] = s[i] - '0'] for the leading digits. *)
Fixpoint atoi_digits (s : list Z) : list Z :=
  match s with
  | c :: s' => if (48 <=? c) && (c <=? 57) then c - 48 :: atoi_digits s' else []
  | [] => []
  end.

(** The three inner loops, on [scratch[scanstart..digits)], most significant
    digit first.  Halving runs from the last digit up, so the bit that moves into a
    digit comes from its neighbour before that one is halved. *)
Fixpoint atoi_halve (carry : bool) (scratch : list Z) : list Z :=
  match scratch with
  | [] => []
  | d :: ds =>
      (if carry then Z.lor (Z.shiftr d 1) 8 else Z.shiftr d 1) :: atoi_halve (Z.testbit d 0) ds
  end.

Fixpoint atoi_scan (scratch : list Z) : list Z :=
  match scratch with
  | d :: ds => if d =? 0 then atoi_scan ds else scratch
  | [] => []
  end.

Definition atoi_correct (scratch : list Z) : list Z :=
  (fun d => if 7 <? d then d - 3 else d) <$> scratch.

(** [while (scanstart < digits)]: every round halves the number, so four rounds
    per digit and one more are enough. *)
Fixpoint atoi_loop (fuel : nat) (scratch : list Z) (result mask : Z) : outcome Z :=
  match scratch with
  | [] => Ret result
  | _ =>
      match fuel with
      | O => UB
      | S fuel' =>
          let result' := if Z.testbit (default 0 (last scratch)) 0 then Z.lor result mask else result in
          atoi_loop fuel' (atoi_correct (atoi_scan (atoi_halve false scratch))) result' (u128 (mask * 2))
      end
  end.

Definition atoi128 (s : list Z) : outcome Z :=
  let s1 := atoi_skip s in
  let '(sign, s2) := match s1 with
    | c :: s' => if c =? 45 then (-1, s') else (1, s1)
    | [] => (1, s1)
    end in
  let digits := atoi_digits s2 in
  assume (length digits <=? 255)%nat;;
  result ← atoi_loop (4 * length digits + 1) digits 0 1;
  Ret (u128 (result * sign)).

(** ** Specification: the bytes and the number a hexadecimal text denotes *)

Definition hex_text (cs : list Z) : Prop := Forall (fun c => is_Some (hex_value c)) cs.

Fixpoint text_bytes (cs : list Z) : list Z :=
  match cs with
  | c1 :: c2 :: cs' => 16 * default 0 (hex_value c1) + default 0 (hex_value c2) :: text_bytes cs'
  | _ => []
  end.

(** The numeral, most significant digit first. *)
Definition text_value (cs : list Z) : Z := hex_prefix_value cs 0.

Definition with_0x (cs : list Z) : list Z := 48 :: 120 :: cs.

(** Bits of a non-negative value of the type. *)
Definition cint_bits (T : cint) : Z :=
  match T with LongLong => 63 | UnsignedLong => 64 | UInt128 => 128 end.

Definition cint_width (T : cint) : Z :=
  match T with LongLong => 64 | UnsignedLong => 64 | UInt128 => 128 end.

(** The number a decimal text denotes, most significant digit first. *)
Fixpoint dec_value (ds : list Z) (acc : Z) : Z :=
  match ds with [] => acc | d :: ds' => dec_value ds' (10 * acc + d) end.

Definition is_digit (d : Z) : Prop := 0 <= d < 10.

(** ** Hexadecimal digits and bytes *)

Lemma hex_value_range c v : hex_value c = Some v -> 0 <= v < 16.
Proof. unfold hex_value. repeat case_match; intros [= <-]; lia. Qed.

Lemma hex_value_byte c v : hex_value c = Some v -> is_byte c.
Proof. unfold hex_value, is_byte. repeat case_match; intros [= <-]; lia. Qed.

Lemma fromHexDigit_value c v : hex_value c = Some v -> fromHexDigit c = v.
Proof.
  unfold hex_value, fromHexDigit.
  destruct ((48 <=? c) && (c <=? 57)) eqn:E1;
    [|destruct ((97 <=? c) && (c <=? 102)) eqn:E2;
      [|destruct ((65 <=? c) && (c <=? 70)) eqn:E3]]; intros [= <-].
  - assert ((97 <=? c) && (c <=? 102) = false) as -> by lia.
    assert ((65 <=? c) && (c <=? 70) = false) as -> by lia. apply uwrap_small. lia.
  - rewrite uwrap_small; lia.
  - rewrite uwrap_small; lia.
Qed.

Lemma fromHexByte_value c1 c2 v1 v2 :
  hex_value c1 = Some v1 -> hex_value c2 = Some v2 -> fromHexByte c1 c2 = 16 * v1 + v2.
Proof.
  intros H1 H2. unfold fromHexByte. erewrite !fromHexDigit_value by done.
  apply hex_value_range in H1, H2. rewrite Z.shiftl_mul_pow2 by lia.
  rewrite lor_disjoint by lia. rewrite uwrap_small; lia.
Qed.

(** A digit paired with the terminator counts as the high half of a byte. *)
Lemma fromHexByte_nul c v : hex_value c = Some v -> fromHexByte c 0 = 16 * v.
Proof.
  intros H. unfold fromHexByte. erewrite (fromHexDigit_value c) by done.
  apply hex_value_range in H. change (fromHexDigit 0) with 0.
  rewrite Z.lor_0_r, Z.shiftl_mul_pow2, uwrap_small; lia.
Qed.

Lemma hex_value_digit d : 0 <= d < 16 -> hex_value (hex_digit d) = Some d.
Proof.
  intros Hd. assert (is_byte d) as Hb by (unfold is_byte; lia).
  apply (forall_bytes (fun d => implb (d <? 16) (bool_decide (hex_value (hex_digit d) = Some d)))) in Hb;
    [|vm_compute; reflexivity].
  rewrite (proj2 (Z.ltb_lt d 16)) in Hb by lia. by apply bool_decide_eq_true in Hb.
Qed.

Lemma byte_nibbles b : is_byte b -> 0 <= b / 16 < 16 /\ 0 <= b mod 16 < 16.
Proof.
  unfold is_byte. intros. split; [|apply Z.mod_pos_bound; lia].
  split; [apply Z.div_pos | apply Z.div_lt_upper_bound]; lia.
Qed.

Lemma text_bytes_hex bs : bytes_ok bs -> text_bytes (hex_bytes bs) = bs.
Proof.
  induction 1 as [|b bs Hb _ IH]; [done|]. rewrite hex_bytes_cons. cbn [text_bytes].
  pose proof (byte_nibbles b Hb) as [? ?]. rewrite !hex_value_digit by lia.
  cbn [default from_option]. unfold id. rewrite IH. f_equal. Z.div_mod_to_equations. lia.
Qed.

Lemma hex_text_bytes bs : bytes_ok bs -> hex_text (hex_bytes bs).
Proof.
  unfold hex_text. induction 1 as [|b bs Hb _ IH]; [constructor|]. rewrite hex_bytes_cons.
  pose proof (byte_nibbles b Hb) as [? ?].
  do 2 (constructor; [rewrite hex_value_digit by lia; eauto|]). done.
Qed.

Lemma has_0x_text cs : hex_text cs -> has_0x cs = false.
Proof.
  intros H. destruct cs as [|a [|b cs]]; [done..|]. apply Forall_cons in H as [_ H].
  apply Forall_cons in H as [[v Hv] _]. cbn. destruct (Z.eqb_spec b 120) as [->|]; [done|].
  by rewrite andb_false_r.
Qed.

Lemma text_bytes_ok cs : hex_text cs -> bytes_ok (text_bytes cs).
Proof.
  induction cs as [|a|a b cs IH] using pair_ind; intros H; [constructor|constructor|].
  apply Forall_cons in H as [[va Ha] H]. apply Forall_cons in H as [[vb Hb] H].
  cbn. rewrite Ha, Hb. cbn. apply hex_value_range in Ha, Hb.
  constructor; [unfold is_byte; lia|auto].
Qed.

Lemma hex_prefix_value_mono cs acc : hex_text cs -> 0 <= acc -> acc <= hex_prefix_value cs acc.
Proof.
  intros H. revert acc. induction H as [|c cs [v Hv] _ IH]; intros acc Ha; [done|].
  cbn. rewrite Hv. apply hex_value_range in Hv. specialize (IH (16 * acc + v)). lia.
Qed.

(** ** The conversion loops *)

Lemma shl_ok T x k :
  0 <= x -> 0 <= k < cint_width T -> x * 2 ^ k < 2 ^ cint_bits T -> shl T x k = Ret (x * 2 ^ k).
Proof.
  intros Hx Hk Hlt. assert (0 <= x * 2 ^ k) by (apply Z.mul_nonneg_nonneg; lia).
  destruct T; cbn [cint_width cint_bits shl] in *.
  - destruct (Z.ltb_spec x 0); [lia|]. destruct (Z.leb_spec 64 k); [lia|].
    destruct (Z.leb_spec (2 ^ 64) (x * 2 ^ k)); [lia|]. cbn. rewrite swrap_small by lia. done.
  - destruct (Z.leb_spec 64 k); [lia|]. by rewrite uwrap_small by lia.
  - destruct (Z.leb_spec 128 k); [lia|]. by rewrite uwrap_small by lia.
Qed.

Lemma cint_bits_pos T : 63 <= cint_bits T <= cint_width T.
Proof. destruct T; cbn; lia. Qed.

(** The accumulator after one round, big-endian and little-endian. *)
Lemma be_round T r byte :
  0 <= r -> is_byte byte -> 256 * r + byte < 2 ^ cint_bits T ->
  shl T r 8 = Ret (256 * r) /\ Z.lor (256 * r) byte = 256 * r + byte.
Proof.
  intros Hr Hb Hlt. pose proof (cint_bits_pos T). unfold is_byte in Hb.
  rewrite shl_ok, Z.mul_comm by (change (2 ^ 8) with 256; lia). split; [done|].
  rewrite (Z.mul_comm 256). apply (lor_disjoint r byte 8); lia.
Qed.

Lemma le_round T r byte o :
  0 <= r < 2 ^ o -> is_byte byte -> 0 <= o -> o + 8 <= cint_width T ->
  byte * 2 ^ o < 2 ^ cint_bits T ->
  shl T byte o = Ret (byte * 2 ^ o) /\ Z.lor (byte * 2 ^ o) r = r + 2 ^ o * byte.
Proof.
  intros Hr Hb Ho Hw Hlt. unfold is_byte in Hb.
  rewrite shl_ok by lia. split; [done|]. rewrite lor_disjoint; lia.
Qed.

Lemma fromHex_loop_be T cs o r :
  hex_text cs -> Nat.Even (length cs) -> 0 <= r -> hex_prefix_value cs r < 2 ^ cint_bits T ->
  fromHex_loop T true cs o r = Ret (hex_prefix_value cs r).
Proof.
  revert r. induction cs as [|a|a b cs IH] using pair_ind; intros r H He Hr Hlt; [done| |].
  { destruct He as [k Hk]. cbn in Hk. lia. }
  apply Forall_cons in H as [[va Ha] H]. apply Forall_cons in H as [[vb Hb] H].
  cbn [hex_prefix_value fromHex_loop] in *. rewrite Ha, Hb in *.
  erewrite fromHexByte_value by done. apply hex_value_range in Ha, Hb.
  replace (16 * (16 * r + va) + vb) with (256 * r + (16 * va + vb)) in * by ring.
  pose proof (hex_prefix_value_mono cs (256 * r + (16 * va + vb)) H).
  destruct (be_round T r (16 * va + vb)) as [-> Hl]; [lia|unfold is_byte; lia|lia|].
  ostep. rewrite Hl. apply IH; [done| |lia|done].
  destruct He as [k Hk]. exists (k - 1)%nat. cbn in Hk. lia.
Qed.

Lemma fromHex_loop_be_odd T cs o r :
  hex_text cs -> Nat.Odd (length cs) -> 0 <= r -> 16 * hex_prefix_value cs r < 2 ^ cint_bits T ->
  fromHex_loop T true cs o r = Ret (16 * hex_prefix_value cs r).
Proof.
  revert r. induction cs as [|a|a b cs IH] using pair_ind; intros r H He Hr Hlt.
  { destruct He as [k Hk]. cbn in Hk. lia. }
  { apply Forall_cons in H as [[va Ha] H]. cbn in *. rewrite Ha in *.
    erewrite fromHexByte_nul by done. apply hex_value_range in Ha.
    destruct (be_round T r (16 * va)) as [-> Hl]; [lia|unfold is_byte; lia|lia|].
    ostep. rewrite Hl. f_equal. lia. }
  apply Forall_cons in H as [[va Ha] H]. apply Forall_cons in H as [[vb Hb] H].
  cbn [hex_prefix_value fromHex_loop] in *. rewrite Ha, Hb in *.
  erewrite fromHexByte_value by done. apply hex_value_range in Ha, Hb.
  replace (16 * (16 * r + va) + vb) with (256 * r + (16 * va + vb)) in * by ring.
  pose proof (hex_prefix_value_mono cs (256 * r + (16 * va + vb)) H).
  destruct (be_round T r (16 * va + vb)) as [-> Hl]; [lia|unfold is_byte; lia|lia|].
  ostep. rewrite Hl. apply IH; [done| |lia|done].
  destruct He as [k Hk]. exists (k - 1)%nat. cbn in Hk. lia.
Qed.

Lemma fromHex_loop_le T cs o r :
  hex_text cs -> Nat.Even (length cs) -> 0 <= o -> 0 <= r < 2 ^ o ->
  o + 8 * Z.of_nat (length (text_bytes cs)) <= cint_width T ->
  r + 2 ^ o * of_le (text_bytes cs) < 2 ^ cint_bits T ->
  fromHex_loop T false cs o r = Ret (r + 2 ^ o * of_le (text_bytes cs)).
Proof.
  revert o r. induction cs as [|a|a b cs IH] using pair_ind; intros o r H He Ho Hr Hw Hlt.
  { cbn. f_equal. lia. }
  { destruct He as [k Hk]. cbn in Hk. lia. }
  pose proof (text_bytes_ok _ H) as Hok.
  apply Forall_cons in H as [[va Ha] H]. apply Forall_cons in H as [[vb Hb] H].
  cbn [text_bytes fromHex_loop of_digits length] in *. rewrite Ha, Hb in *. cbn [default from_option] in *.
  unfold id in *. erewrite fromHexByte_value by done. apply Forall_cons in Hok as [Hbyte Hok].
  assert (0 <= of_le (text_bytes cs)) by (apply of_digits_bound; [lia|done]).
  unfold is_byte in Hbyte. set (x := 16 * va + vb) in *. set (V := of_le (text_bytes cs)) in *.
  assert (0 < 2 ^ o) by lia. assert (0 <= 2 ^ o * V) by nia.
  destruct (le_round T r x o) as [-> Hl]; [lia|done|lia|lia|nia|]. ostep. rewrite Hl.
  rewrite IH; [|done| |lia| |lia|].
  - f_equal. rewrite Z.pow_add_r by lia. change (2 ^ 8) with 256. ring.
  - destruct He as [k Hk]. exists (k - 1)%nat. cbn in Hk. lia.
  - rewrite Z.pow_add_r by lia. change (2 ^ 8) with 256. nia.
  - rewrite Z.pow_add_r by lia. change (2 ^ 8) with 256. nia.
Qed.

Lemma c_str_at_app pre a l : c_str_at (pre ++ a :: l) (Z.of_nat (length pre)) = Ret a.
Proof.
  unfold c_str_at. rewrite length_app. cbn [length].
  destruct (Z.ltb_spec (Z.of_nat (length pre)) 0); [lia|].
  destruct (Z.ltb_spec (Z.of_nat (length pre + S (length l))) (Z.of_nat (length pre))); [lia|].
  cbn. by rewrite Nat2Z.id, list_lookup_middle.
Qed.

Lemma fromHexVec_loop_be fuel pre cs start acc :
  hex_text cs -> Nat.Even (length cs) -> cs <> [] -> (length cs <= fuel)%nat ->
  fromHexVec_loop fuel (pre ++ cs) true start (Z.of_nat (length pre)) acc = Ret (acc ++ text_bytes cs).
Proof.
  revert fuel pre acc. induction cs as [|a|a b cs IH] using pair_ind; intros fuel pre acc H He Hn Hf; [done| |].
  { destruct He as [k Hk]. cbn in Hk. lia. }
  apply Forall_cons in H as [[va Ha] H]. apply Forall_cons in H as [[vb Hb] H].
  destruct fuel as [|fuel]; [cbn in Hf; lia|]. cbn [fromHexVec_loop].
  rewrite c_str_at_app. ostep.
  replace (pre ++ a :: b :: cs) with ((pre ++ [a]) ++ b :: cs) by (by rewrite <- app_assoc).
  replace (Z.of_nat (length pre) + 1) with (Z.of_nat (length (pre ++ [a])))
    by (rewrite length_app; cbn; lia).
  rewrite c_str_at_app. ostep. erewrite fromHexByte_value by done.
  replace ((pre ++ [a]) ++ b :: cs) with ((pre ++ [a; b]) ++ cs) by (by rewrite <- !app_assoc).
  replace (Z.of_nat (length pre) + 2) with (Z.of_nat (length (pre ++ [a; b])))
    by (rewrite length_app; cbn; lia).
  cbn [text_bytes]. rewrite Ha, Hb. cbn [default from_option]. unfold id.
  destruct cs as [|c cs].
  { rewrite app_nil_r, Z.leb_refl. done. }
  destruct (Z.leb_spec (Z.of_nat (length ((pre ++ [a; b]) ++ c :: cs))) (Z.of_nat (length (pre ++ [a; b]))))
    as [Hle|_]. { rewrite !length_app in Hle. cbn in Hle. lia. }
  rewrite IH; [by rewrite <- app_assoc|done| |done|cbn in *; lia].
  destruct He as [k Hk]. exists (k - 1)%nat. cbn in *. lia.
Qed.

(** ** Decimal *)

Lemma dec_value_app ds es acc : dec_value (ds ++ es) acc = dec_value es (dec_value ds acc).
Proof. revert acc. induction ds as [|d ds IH]; intros acc; cbn; auto. Qed.

Lemma dec_value_acc ds acc :
  dec_value ds acc = acc * 10 ^ Z.of_nat (length ds) + dec_value ds 0.
Proof.
  revert acc. induction ds as [|d ds IH]; intros acc; cbn [dec_value length]; [cbn; lia|].
  rewrite IH, (IH (10 * 0 + d)), Nat2Z.inj_succ, Z.pow_succ_r by lia. ring.
Qed.

Lemma dec_value_bound ds :
  Forall is_digit ds -> 0 <= dec_value ds 0 < 10 ^ Z.of_nat (length ds).
Proof.
  induction 1 as [|d ds Hd _ IH]; cbn [dec_value length]; [cbn; lia|].
  rewrite dec_value_acc, Nat2Z.inj_succ, Z.pow_succ_r by lia. unfold is_digit in Hd. nia.
Qed.

Lemma dec_value_parity ds :
  Z.testbit (default 0 (last ds)) 0 = Z.testbit (dec_value ds 0) 0.
Proof.
  destruct ds as [|d ds _] using rev_ind; [done|].
  rewrite last_snoc, dec_value_app. cbn [dec_value default from_option]. unfold id.
  rewrite !Z.bit0_odd, Z.odd_add, Z.odd_mul. done.
Qed.

Lemma digit_half d :
  is_digit d -> 0 <= d / 2 <= 4 /\ d = 2 * (d / 2) + Z.b2z (Z.testbit d 0)
    /\ Z.shiftr d 1 = d / 2 /\ Z.lor (Z.shiftr d 1) 8 = d / 2 + 8.
Proof.
  intros Hd. assert (is_byte d) as Hb by (unfold is_byte, is_digit in *; lia).
  apply (forall_bytes (fun d => implb (d <? 10) ((0 <=? d / 2) && (d / 2 <=? 4)
    && (d =? 2 * (d / 2) + Z.b2z (Z.testbit d 0)) && (Z.shiftr d 1 =? d / 2)
    && (Z.lor (Z.shiftr d 1) 8 =? d / 2 + 8)))) in Hb; [|vm_compute; reflexivity].
  unfold is_digit in Hd. rewrite (proj2 (Z.ltb_lt d 10)) in Hb by lia. cbn [implb] in Hb. lia.
Qed.

(** Halving and correcting divides the number by two. *)
Lemma atoi_halve_spec ds carry :
  Forall is_digit ds ->
  Forall is_digit (atoi_correct (atoi_halve carry ds)) /\
  dec_value (atoi_correct (atoi_halve carry ds)) 0 = dec_value ds (Z.b2z carry) / 2.
Proof.
  intros H. revert carry. induction H as [|d ds Hd Hds IH]; intros carry.
  { split; [constructor|]. by destruct carry. }
  destruct (digit_half d Hd) as (Hq & Hdq & Hs & Hl). unfold is_digit in Hd.
  cbn [atoi_halve dec_value]. rewrite Hl, Hs. destruct (IH (Z.testbit d 0)) as [IHf IHv].
  assert ((if 7 <? (if carry then d / 2 + 8 else d / 2) then (if carry then d / 2 + 8 else d / 2) - 3
           else if carry then d / 2 + 8 else d / 2) = d / 2 + 5 * Z.b2z carry) as Hc.
  { destruct carry; [destruct (Z.ltb_spec 7 (d / 2 + 8)) | destruct (Z.ltb_spec 7 (d / 2))]; cbn; lia. }
  unfold atoi_correct in *. rewrite fmap_cons, Hc. split.
  { constructor; [|done]. unfold is_digit. destruct carry; cbn; lia. }
  cbn [dec_value]. rewrite dec_value_acc, IHv, (dec_value_acc ds (_ + d)), (dec_value_acc ds (Z.b2z _)).
  assert (length ((fun d0 => if 7 <? d0 then d0 - 3 else d0) <$> atoi_halve (Z.testbit d 0) ds) = length ds)
    as -> by (rewrite length_fmap; clear; generalize (Z.testbit d 0); induction ds; cbn; auto).
  set (L := 10 ^ Z.of_nat (length ds)). set (p := Z.b2z (Z.testbit d 0)) in *.
  replace ((10 * Z.b2z carry + d) * L + dec_value ds 0)
    with ((5 * Z.b2z carry + d / 2) * L * 2 + (p * L + dec_value ds 0)) by (rewrite Hdq at 2; ring).
  rewrite Z.div_add_l by lia. lia.
Qed.

Lemma atoi_scan_value ds : dec_value (atoi_scan ds) 0 = dec_value ds 0.
Proof.
  induction ds as [|d ds IH]; [done|]. cbn [atoi_scan]. destruct (Z.eqb_spec d 0) as [->|]; [|done].
  by rewrite IH.
Qed.

(** The scan also drops zeros that the correction would keep. *)
Lemma atoi_scan_correct ds : atoi_correct (atoi_scan ds) = atoi_scan (atoi_correct ds).
Proof.
  induction ds as [|d ds IH]; [done|]. unfold atoi_correct in *. cbn [atoi_scan].
  rewrite fmap_cons. cbn [atoi_scan].
  destruct (Z.eqb_spec d 0) as [->|]; [done|].
  destruct (Z.ltb_spec 7 d).
  - destruct (Z.eqb_spec (d - 3) 0); [lia|]. rewrite fmap_cons. by destruct (Z.ltb_spec 7 d); [|lia].
  - destruct (Z.eqb_spec d 0); [lia|]. rewrite fmap_cons. by destruct (Z.ltb_spec 7 d); [lia|].
Qed.

Lemma atoi_scan_digits ds : Forall is_digit ds -> Forall is_digit (atoi_scan ds).
Proof. induction 1 as [|d ds Hd H IH]; cbn; [constructor|]. case_match; [done|by constructor]. Qed.

(** What is left after the scan is empty exactly when the number is zero. *)
Lemma atoi_scan_pos ds : Forall is_digit ds -> atoi_scan ds <> [] -> 0 < dec_value ds 0.
Proof.
  induction 1 as [|d ds Hd H IH]; [done|]. cbn [atoi_scan dec_value]. intros Hne.
  destruct (Z.eqb_spec d 0) as [->|]; [auto|]. rewrite dec_value_acc.
  pose proof (dec_value_bound ds H). unfold is_digit in Hd. nia.
Qed.

(** Setting bit [i] of the result, or nothing once the mask has left the word. *)
Lemma atoi_bit v i :
  0 <= v -> 0 <= i ->
  (if Z.testbit (v / 2 ^ i) 0 then Z.lor (u128 (v mod 2 ^ i)) (u128 (2 ^ i)) else u128 (v mod 2 ^ i))
  = u128 (v mod 2 ^ (i + 1)).
Proof.
  intros Hv Hi. unfold uwrap. rewrite Z.div_pow2_bits, Z.add_0_l by lia.
  apply Z.bits_inj'. intros j Hj.
  rewrite (Z.testbit_mod_pow2 _ 128), (Z.testbit_mod_pow2 v (i + 1)) by lia.
  destruct (Z.testbit v i) eqn:E;
    rewrite ?Z.lor_spec, !(Z.testbit_mod_pow2 _ 128), Z.testbit_mod_pow2, ?Z.pow2_bits_eqb by lia;
    destruct (Z.ltb_spec j 128), (Z.ltb_spec j i), (Z.ltb_spec j (i + 1)), (Z.eqb_spec i j);
    subst; rewrite ?E; cbn; try lia; try done; by destruct (Z.testbit v j).
Qed.

Lemma atoi_loop_spec fuel ds v i :
  Forall is_digit ds -> 0 <= v -> 0 <= i -> dec_value ds 0 = v / 2 ^ i ->
  (ds <> [] -> 0 < dec_value ds 0 \/ (0 < fuel)%nat) ->
  dec_value ds 0 < 2 ^ Z.of_nat fuel ->
  atoi_loop fuel ds (u128 (v mod 2 ^ i)) (u128 (2 ^ i)) = Ret (u128 v).
Proof.
  revert ds i. induction fuel as [|fuel IH]; intros ds i Hd Hv Hi Heq Hf Hlt.
  - destruct ds as [|d ds]; [|exfalso; destruct (Hf ltac:(done)); cbn in *; lia].
    cbn in Heq |- *. rewrite Z.mod_small; [done|].
    split; [done|]. apply eq_sym, Z.div_small_iff in Heq; lia.
  - destruct ds as [|d ds].
    { cbn in Heq |- *. rewrite Z.mod_small; [done|]. split; [done|].
      apply eq_sym, Z.div_small_iff in Heq; lia. }
    cbn [atoi_loop]. rewrite dec_value_parity, Heq, atoi_bit by lia.
    replace (u128 (u128 (2 ^ i) * 2)) with (u128 (2 ^ (i + 1))).
    2:{ unfold uwrap. rewrite Z.mul_mod_idemp_l, Z.pow_add_r by lia. done. }
    destruct (atoi_halve_spec (d :: ds) false Hd) as [Hd' Hv'].
    rewrite atoi_scan_correct. apply IH.
    + by apply atoi_scan_digits.
    + done.
    + lia.
    + rewrite atoi_scan_value, Hv'. change (Z.b2z false) with 0.
      rewrite Heq, Z.div_div, Z.pow_add_r by lia. done.
    + intros Hne. left. rewrite atoi_scan_value. by apply atoi_scan_pos.
    + rewrite atoi_scan_value, Hv'. change (Z.b2z false) with 0.
      rewrite Nat2Z.inj_succ, Z.pow_succ_r in Hlt by lia. apply Z.div_lt_upper_bound; lia.
Qed.

Definition is_blank (c : Z) : Prop := c = 32 \/ c = 9 \/ c = 10 \/ c = 43.

Definition dec_text (ds : list Z) : list Z := Z.add 48 <$> ds.

(** The text does not go on with another digit. *)
Definition no_digit (rest : list Z) : Prop :=
  match rest with c :: _ => c < 48 \/ 57 < c | [] => True end.

Lemma atoi_skip_blank ws s : Forall is_blank ws -> atoi_skip (ws ++ s) = atoi_skip s.
Proof.
  induction 1 as [|c ws Hc _ IH]; [done|]. cbn.
  by destruct Hc as [->|[->|[->| ->]]].
Qed.

Lemma atoi_digits_text ds rest :
  Forall is_digit ds -> no_digit rest -> atoi_digits (dec_text ds ++ rest) = ds.
Proof.
  intros Hd Hr. induction Hd as [|d ds Hd _ IH]; unfold dec_text in *.
  - destruct rest as [|c rest]; [done|]. cbn in *.
    by destruct (Z.leb_spec 48 c), (Z.leb_spec c 57); try lia.
  - rewrite fmap_cons. cbn [app atoi_digits]. unfold is_digit in Hd.
    destruct (Z.leb_spec 48 (48 + d)); [|lia]. destruct (Z.leb_spec (48 + d) 57); [|lia].
    cbn. rewrite IH. f_equal. lia.
Qed.

Lemma atoi_skip_digit d ds rest :
  is_digit d -> atoi_skip (dec_text (d :: ds) ++ rest) = dec_text (d :: ds) ++ rest.
Proof.
  unfold is_digit, dec_text. intros Hd. rewrite fmap_cons. cbn.
  by destruct (Z.eqb_spec (48 + d) 32), (Z.eqb_spec (48 + d) 9), (Z.eqb_spec (48 + d) 10),
    (Z.eqb_spec (48 + d) 43); try lia.
Qed.

Lemma digits_bits ds :
  Forall is_digit ds -> dec_value ds 0 < 2 ^ Z.of_nat (4 * length ds + 1).
Proof.
  intros H. apply dec_value_bound in H. eapply Z.lt_le_trans; [apply H|].
  transitivity (2 ^ Z.of_nat (4 * length ds)); [|apply Z.pow_le_mono_r; lia].
  replace (Z.of_nat (4 * length ds)) with (4 * Z.of_nat (length ds)) by lia.
  rewrite Z.pow_mul_r by lia. apply Z.pow_le_mono_l. lia.
Qed.

(** One printed byte, read as a [uint128]. *)
Lemma fromHex_byte b : is_byte b -> fromHex UInt128 (hex_byte b) true = Ret b.
Proof.
  intros Hb. apply (forall_bytes (fun b => match fromHex UInt128 (hex_byte b) true with
    | Ret v => v =? b | _ => false end)) in Hb; [|vm_compute; reflexivity].
  destruct (fromHex _ _ _) as [v| |]; [|done|done]. by apply Z.eqb_eq in Hb as ->.
Qed.

(** ** Properties *)

(** Big-endian [fromHex] reads a hexadecimal numeral: an even number of
    digits, of either case, gives the numeral's value at each of the three
    instantiated types, whenever the value fits. *)
Theorem fromHex_be_value T cs :
  hex_text cs -> Nat.Even (length cs) -> text_value cs < 2 ^ cint_bits T ->
  fromHex T (with_0x cs) true = Ret (text_value cs).
Proof. intros H He Hlt. unfold fromHex. cbn [has_0x with_0x]. by apply fromHex_loop_be. Qed.

Lemma fromHex_be_value_witness : fromHex LongLong (str "0x1a2B") true = Ret 6699.
Proof.
  apply (fromHex_be_value LongLong (str "1a2B")); [|by exists 2%nat|vm_compute; reflexivity].
  unfold hex_text. forall_list ltac:(by eexists).
Defined.

(** A numeral with an odd number of digits is read as sixteen times its value:
    the last digit is paired with the terminating NUL and becomes the high half of
    a byte.  Block numbers are sent by the node without padding. *)
Theorem fromHex_odd_scaled T cs :
  hex_text cs -> Nat.Odd (length cs) -> 16 * text_value cs < 2 ^ cint_bits T ->
  fromHex T (with_0x cs) true = Ret (16 * text_value cs).
Proof. intros H He Hlt. unfold fromHex. cbn [has_0x with_0x]. by apply fromHex_loop_be_odd. Qed.

Lemma fromHex_odd_scaled_witness :
  text_value (str "123") = 291 /\ fromHex LongLong (str "0x123") true = Ret 4656.
Proof.
  split; [reflexivity|].
  apply (fromHex_odd_scaled LongLong (str "123")); [|by exists 1%nat|vm_compute; reflexivity].
  unfold hex_text. forall_list ltac:(by eexists).
Defined.

(** Little-endian [fromHex] inverts the little-endian byte encoding: the
    hexadecimal text of the [k]-byte encoding of [n], with or without its 0x,
    gives [n] back at every type that holds [k] bytes and the value. *)
Theorem fromHex_le_roundtrip T k n (prefixed : bool) :
  8 * Z.of_nat k <= cint_width T -> 0 <= n < 256 ^ Z.of_nat k -> n < 2 ^ cint_bits T ->
  let text := hex_bytes (le_bytes k n) in
  fromHex T (if prefixed then with_0x text else text) false = Ret n.
Proof.
  intros Hk Hn Hlt text.
  assert (hex_text text) as Ht by (apply hex_text_bytes; auto with polka).
  assert (fromHex_loop T false text 0 0 = Ret n) as Hl.
  { rewrite fromHex_loop_le; subst text; rewrite ?text_bytes_hex, ?of_le_bytes, ?length_le_bytes by auto with polka;
      [f_equal; lia|done| |lia|lia|lia|lia].
    rewrite length_hex_bytes. by eexists. }
  unfold fromHex. destruct prefixed; [done|]. by rewrite has_0x_text.
Qed.

Lemma fromHex_le_roundtrip_witness :
  fromHex UInt128 (if true then with_0x (hex_bytes (le_bytes 16 (2 ^ 100))) else []) false = Ret (2 ^ 100).
Proof. apply (fromHex_le_roundtrip UInt128 16 (2 ^ 100) true); vm_compute; try split; discriminate + reflexivity. Defined.

Lemma fromHexVec_bytes bs (prefixed : bool) :
  bytes_ok bs -> bs <> [] ->
  fromHexVec (if prefixed then with_0x (hex_bytes bs) else hex_bytes bs) true = Ret bs.
Proof.
  intros Hb Hn. pose proof (hex_text_bytes bs Hb) as Ht.
  assert (Nat.Even (length (hex_bytes bs))) as He by (rewrite length_hex_bytes; by eexists).
  assert (hex_bytes bs <> []) as Hne by (destruct bs; [done|]; by rewrite hex_bytes_cons).
  destruct prefixed.
  - pose proof (fromHexVec_loop_be (S (2 + length (hex_bytes bs))) [48; 120] (hex_bytes bs) 2 []) as Hl.
    rewrite text_bytes_hex in Hl by done. apply Hl; auto with lia.
  - unfold fromHexVec. rewrite has_0x_text by done.
    pose proof (fromHexVec_loop_be (S (length (hex_bytes bs))) [] (hex_bytes bs) 0 []) as Hl.
    rewrite text_bytes_hex in Hl by done. apply Hl; auto with lia.
Qed.

(** The [vector<uint8_t>] instance recovers the bytes from their hexadecimal
    text, with or without 0x, for every non-empty byte sequence (keys and
    signatures are read with it). *)
Theorem fromHexVec_roundtrip bs (prefixed : bool) :
  bytes_ok bs -> bs <> [] ->
  fromHexVec (if prefixed then with_0x (hex_bytes bs) else hex_bytes bs) true = Ret bs.
Proof. apply fromHexVec_bytes. Qed.

Lemma fromHexVec_roundtrip_witness :
  fromHexVec (if true then with_0x (hex_bytes [0; 18; 255]) else []) true = Ret [0; 18; 255].
Proof. apply (fromHexVec_roundtrip [0; 18; 255] true); [forall_list ltac:(unfold is_byte; lia) | done]. Defined.

(** [atoi128] computes the decimal value modulo 2^128: blanks and plus signs
    are skipped, a minus negates modulo 2^128, and the shift-and-correct loop
    terminates with the value of at most 255 digits. *)
Theorem atoi128_value ws (neg : bool) ds rest :
  Forall is_blank ws -> Forall is_digit ds -> ds <> [] -> (length ds <= 255)%nat -> no_digit rest ->
  atoi128 (ws ++ (if neg then [45] else []) ++ dec_text ds ++ rest)
  = Ret (u128 (if neg then - dec_value ds 0 else dec_value ds 0)).
Proof.
  intros Hw Hd Hn Hlen Hr. unfold atoi128. rewrite atoi_skip_blank by done.
  pose proof (dec_value_bound ds Hd).
  assert (atoi_loop (4 * length ds + 1) ds 0 1 = Ret (u128 (dec_value ds 0))) as Hl.
  { pose proof (atoi_loop_spec (4 * length ds + 1) ds (dec_value ds 0) 0) as Hs.
    rewrite Z.pow_0_r, Z.mod_1_r, Z.div_1_r in Hs. apply Hs; try done; [lia| |by apply digits_bits].
    intros _. right. lia. }
  destruct ds as [|d ds]; [done|]. pose proof (Forall_inv Hd) as Hd1.
  destruct neg.
  - cbn [app]. change (atoi_skip (45 :: ?l)) with (45 :: l). cbn beta iota delta [Z.eqb Pos.eqb].
    rewrite atoi_digits_text by done. rewrite assume_true by (apply Nat.leb_le; done). ostep.
    rewrite Hl. ostep. f_equal. unfold uwrap. rewrite Z.mul_mod_idemp_l by lia. f_equal. lia.
  - cbn [app]. rewrite atoi_skip_digit by done.
    assert (exists c s, dec_text (d :: ds) ++ rest = c :: s /\ c <> 45) as (c & s & Hs & Hc).
    { unfold dec_text. rewrite fmap_cons. eexists _, _. split; [done|]. unfold is_digit in Hd1. lia. }
    rewrite Hs. cbn beta iota. destruct (Z.eqb_spec c 45); [done|].
    rewrite <- Hs, atoi_digits_text by done. rewrite assume_true by (apply Nat.leb_le; done). ostep.
    rewrite Hl. ostep. f_equal. unfold uwrap. rewrite Z.mul_mod_idemp_l by lia. f_equal. lia.
Qed.

Lemma atoi128_value_witness :
  atoi128 (str " +" ++ (if true then [45] else []) ++ dec_text [1; 2; 0] ++ str ";")
  = Ret (2 ^ 128 - 120).
Proof.
  apply (atoi128_value (str " +") true [1; 2; 0] (str ";"));
    [forall_list ltac:(vm_compute; tauto) | forall_list ltac:(unfold is_digit; lia) | done | cbn; lia | by right].
Defined.
