(* ===== verification/Blake2b.v ===== *)
(** BLAKE2b: [src/libs/blake/blake2b.cpp], [src/libs/blake/blake2-impl.h].

    The streaming implementation (a state with a 128-byte buffer and a 128-bit
    byte counter in two words) and the block-wise hash it computes. *)
From S2P Require Import Prelude.

Definition BLAKE2B_BLOCKBYTES : nat := 128.
Definition BLAKE2B_OUTBYTES : nat := 64.
Definition BLAKE2B_KEYBYTES : nat := 64.

(** ** Words *)

Definition rotr64 (w c : Z) : Z := u64 (Z.lor (Z.shiftr w c) (Z.shiftl w (64 - c))).

(** [p[0] << 0 | p[1] << 8 | ...] over the bytes at the pointer. *)
Fixpoint load_le (p : list Z) (shift : Z) : Z :=
  match p with
  | [] => 0
  | b :: p' => Z.lor (u64 (Z.shiftl b shift)) (load_le p' (shift + 8))
  end.
Definition load64 (src : list Z) (off : nat) : Z := load_le (take 8 (drop off src)) 0.

Definition store64 (w : Z) : list Z :=
  (fun i => u8 (Z.shiftr w (8 * i))) <$> [0; 1; 2; 3; 4; 5; 6; 7].

(** ** The state *)

Record blake2b_state := {
  h : list Z;
  t0 : Z; t1 : Z;
  f0 : Z; f1 : Z;
  buf : list Z;
  buflen : nat;
  outlen : nat;
  last_node : Z
}.

Definition blake2b_IV : list Z :=
  [0x6a09e667f3bcc908; 0xbb67ae8584caa73b; 0x3c6ef372fe94f82b; 0xa54ff53a5f1d36f1;
   0x510e527fade682d1; 0x9b05688c2b3e6c1f; 0x1f83d9abfb41bd6b; 0x5be0cd19137e2179].

Definition blake2b_sigma : list (list nat) :=
  [[0; 1; 2; 3; 4; 5; 6; 7; 8; 9; 10; 11; 12; 13; 14; 15];
   [14; 10; 4; 8; 9; 15; 13; 6; 1; 12; 0; 2; 11; 7; 5; 3];
   [11; 8; 12; 0; 5; 2; 15; 13; 10; 14; 3; 6; 7; 1; 9; 4];
   [7; 9; 3; 1; 13; 12; 11; 14; 2; 6; 5; 10; 4; 0; 15; 8];
   [9; 0; 5; 7; 2; 4; 10; 15; 14; 1; 11; 12; 6; 8; 3; 13];
   [2; 12; 6; 10; 0; 11; 8; 3; 4; 13; 7; 5; 15; 14; 1; 9];
   [12; 5; 1; 15; 14; 13; 4; 10; 0; 7; 6; 3; 9; 2; 8; 11];
   [13; 11; 7; 14; 12; 1; 3; 9; 5; 0; 15; 4; 8; 6; 2; 10];
   [6; 15; 14; 9; 11; 3; 0; 8; 12; 2; 13; 7; 1; 4; 10; 5];
   [10; 2; 8; 4; 7; 6; 1; 5; 15; 11; 9; 14; 3; 12; 13; 0];
   [0; 1; 2; 3; 4; 5; 6; 7; 8; 9; 10; 11; 12; 13; 14; 15];
   [14; 10; 4; 8; 9; 15; 13; 6; 1; 12; 0; 2; 11; 7; 5; 3]]%nat.

Definition blake2b_set_lastnode (S : blake2b_state) : blake2b_state :=
  {| h := h S; t0 := t0 S; t1 := t1 S; f0 := f0 S; f1 := 2 ^ 64 - 1; buf := buf S;
     buflen := buflen S; outlen := outlen S; last_node := last_node S |}.

Definition blake2b_is_lastblock (S : blake2b_state) : bool := negb (f0 S =? 0).

Definition blake2b_set_lastblock (S : blake2b_state) : blake2b_state :=
  let S1 := if last_node S =? 0 then S else blake2b_set_lastnode S in
  {| h := h S1; t0 := t0 S1; t1 := t1 S1; f0 := 2 ^ 64 - 1; f1 := f1 S1; buf := buf S1;
     buflen := buflen S1; outlen := outlen S1; last_node := last_node S1 |}.

Definition blake2b_increment_counter (S : blake2b_state) (inc : Z) : blake2b_state :=
  let t0' := u64 (t0 S + inc) in
  {| h := h S; t0 := t0'; t1 := u64 (t1 S + (if t0' <? inc then 1 else 0)); f0 := f0 S; f1 := f1 S;
     buf := buf S; buflen := buflen S; outlen := outlen S; last_node := last_node S |}.

Definition blake2b_init0 : blake2b_state :=
  {| h := blake2b_IV; t0 := 0; t1 := 0; f0 := 0; f1 := 0; buf := replicate BLAKE2B_BLOCKBYTES 0;
     buflen := 0; outlen := 0; last_node := 0 |}.

(** The 64-byte parameter block: [digest_length], [key_length], [fanout] and
    [depth] one, all other fields zero. *)
Definition blake2b_param (outlen keylen : nat) : list Z :=
  [u8 (Z.of_nat outlen); u8 (Z.of_nat keylen); 1; 1] ++ replicate 60 0.

Definition blake2b_init_param (P : list Z) : blake2b_state :=
  let S := blake2b_init0 in
  {| h := imap (fun i x => Z.lxor x (load64 P (8 * i))) (h S);
     t0 := t0 S; t1 := t1 S; f0 := f0 S; f1 := f1 S; buf := buf S; buflen := buflen S;
     outlen := Z.to_nat (default 0 (P !! 0%nat)); last_node := last_node S |}.

Definition blake2b_init (outlen : nat) : option blake2b_state :=
  if (outlen =? 0)%nat || (BLAKE2B_OUTBYTES <? outlen)%nat then None
  else Some (blake2b_init_param (blake2b_param outlen 0)).

(** ** The compression function *)

Definition G (m : list Z) (r i : nat) (a b c d : nat) (v : list Z) : list Z :=
  let s k := nth k (nth r blake2b_sigma []) 0%nat in
  let va := u64 (v !!! a + v !!! b + m !!! s (2 * i)%nat) in
  let vd := rotr64 (Z.lxor (v !!! d) va) 32 in
  let vc := u64 (v !!! c + vd) in
  let vb := rotr64 (Z.lxor (v !!! b) vc) 24 in
  let va' := u64 (va + vb + m !!! s (2 * i + 1)%nat) in
  let vd' := rotr64 (Z.lxor vd va') 16 in
  let vc' := u64 (vc + vd') in
  let vb' := rotr64 (Z.lxor vb vc') 63 in
  <[d := vd']> (<[c := vc']> (<[b := vb']> (<[a := va']> v))).

Definition ROUND (m : list Z) (r : nat) (v : list Z) : list Z :=
  let v := G m r 0 0 4 8 12 v in
  let v := G m r 1 1 5 9 13 v in
  let v := G m r 2 2 6 10 14 v in
  let v := G m r 3 3 7 11 15 v in
  let v := G m r 4 0 5 10 15 v in
  let v := G m r 5 1 6 11 12 v in
  let v := G m r 6 2 7 8 13 v in
  G m r 7 3 4 9 14 v.

(** The chaining value after one block, from the words it depends on. *)
Definition compress_words (h : list Z) (t0 t1 f0 f1 : Z) (block : list Z) : list Z :=
  let m := (fun i => load64 block (8 * i)) <$> seq 0 16 in
  let v := take 8 h ++ take 4 blake2b_IV ++
    [Z.lxor (blake2b_IV !!! 4%nat) t0; Z.lxor (blake2b_IV !!! 5%nat) t1;
     Z.lxor (blake2b_IV !!! 6%nat) f0; Z.lxor (blake2b_IV !!! 7%nat) f1] in
  let v := foldl (fun v r => ROUND m r v) v (seq 0 12) in
  imap (fun i x => Z.lxor (Z.lxor x (v !!! i)) (v !!! (i + 8)%nat)) h.

Definition blake2b_compress (S : blake2b_state) (block : list Z) : blake2b_state :=
  {| h := compress_words (h S) (t0 S) (t1 S) (f0 S) (f1 S) block;
     t0 := t0 S; t1 := t1 S; f0 := f0 S; f1 := f1 S; buf := buf S; buflen := buflen S;
     outlen := outlen S; last_node := last_node S |}.

(** ** Absorbing and finishing *)

Definition set_buf (S : blake2b_state) (buf' : list Z) (buflen' : nat) : blake2b_state :=
  {| h := h S; t0 := t0 S; t1 := t1 S; f0 := f0 S; f1 := f1 S; buf := buf'; buflen := buflen';
     outlen := outlen S; last_node := last_node S |}.

(** [while (inlen > BLAKE2B_BLOCKBYTES)]: every round takes 128 bytes off the input. *)
Fixpoint update_loop (fuel : nat) (S : blake2b_state) (input : list Z) : blake2b_state * list Z :=
  match fuel with
  | O => (S, input)
  | Datatypes.S fuel' =>
      if (BLAKE2B_BLOCKBYTES <? length input)%nat then
        let S1 := blake2b_increment_counter S (Z.of_nat BLAKE2B_BLOCKBYTES) in
        let S2 := blake2b_compress S1 (take BLAKE2B_BLOCKBYTES input) in
        update_loop fuel' S2 (drop BLAKE2B_BLOCKBYTES input)
      else (S, input)
  end.

(** [memcpy(buf + off, src, len)], with the bytes around it kept. *)
Definition splice (b : list Z) (off : nat) (src : list Z) : list Z :=
  take off b ++ src ++ drop (off + length src) b.

Definition blake2b_update (S : blake2b_state) (input : list Z) : blake2b_state :=
  if (0 <? length input)%nat then
    let left := buflen S in
    let fill := (BLAKE2B_BLOCKBYTES - left)%nat in
    let '(S', input') :=
      if (fill <? length input)%nat then
        let S1 := set_buf S (splice (buf S) left (take fill input)) 0 in
        let S2 := blake2b_increment_counter S1 (Z.of_nat BLAKE2B_BLOCKBYTES) in
        let S3 := blake2b_compress S2 (buf S2) in
        let input1 := drop fill input in
        update_loop (length input1) S3 input1
      else (S, input) in
    set_buf S' (splice (buf S') (buflen S') input') (buflen S' + length input')
  else S.

(** The digest, or the error code when the output is too small or the state is
    already finished. *)
Definition blake2b_final (S : blake2b_state) (outlen' : nat) : option (list Z) :=
  if (outlen' <? outlen S)%nat then None
  else if blake2b_is_lastblock S then None
  else
    let S1 := blake2b_increment_counter S (Z.of_nat (buflen S)) in
    let S2 := blake2b_set_lastblock S1 in
    let S3 := set_buf S2 (splice (buf S2) (buflen S2) (replicate (BLAKE2B_BLOCKBYTES - buflen S2) 0)) (buflen S2) in
    let S4 := blake2b_compress S3 (buf S3) in
    Some (take (outlen S4) (h S4 ≫= store64)).

Definition blake2b_init_key (outlen : nat) (key : list Z) : option blake2b_state :=
  if (outlen =? 0)%nat || (BLAKE2B_OUTBYTES <? outlen)%nat then None
  else if (length key =? 0)%nat || (BLAKE2B_KEYBYTES <? length key)%nat then None
  else
    let S := blake2b_init_param (blake2b_param outlen (length key)) in
    Some (blake2b_update S (key ++ replicate (BLAKE2B_BLOCKBYTES - length key) 0)).

(** The one-call interface; [None] is the return code -1, and the empty key is
    the null one. *)
Definition blake2b (outlen : nat) (input key : list Z) : option (list Z) :=
  if (outlen =? 0)%nat || (BLAKE2B_OUTBYTES <? outlen)%nat then None
  else if (BLAKE2B_KEYBYTES <? length key)%nat then None
  else
    S ← (if (0 <? length key)%nat then blake2b_init_key outlen key else blake2b_init outlen);
    blake2b_final (blake2b_update S input) outlen.

Definition blake2 (outlen : nat) (input key : list Z) : option (list Z) := blake2b outlen input key.

(** ** The hash, block by block

    [c] counts the bytes hashed so far; every block but the last is a full one,
    the last is padded with zeros and compressed with the finalisation flag. *)

Definition compress_spec (h : list Z) (block : list Z) (c : Z) (last : bool) : list Z :=
  compress_words h (c mod 2 ^ 64) (c / 2 ^ 64 mod 2 ^ 64) (if last then 2 ^ 64 - 1 else 0) 0 block.

Definition pad (msg : list Z) : list Z := msg ++ replicate (BLAKE2B_BLOCKBYTES - length msg) 0.

Fixpoint absorb (fuel : nat) (h : list Z) (c : Z) (msg : list Z) : list Z * Z * list Z :=
  match fuel with
  | O => (h, c, msg)
  | S fuel' =>
      if (BLAKE2B_BLOCKBYTES <? length msg)%nat then
        absorb fuel' (compress_spec h (take BLAKE2B_BLOCKBYTES msg) (c + 128) false) (c + 128)
          (drop BLAKE2B_BLOCKBYTES msg)
      else (h, c, msg)
  end.

Definition finish (hcp : list Z * Z * list Z) : list Z :=
  let '(h, c, p) := hcp in compress_spec h (pad p) (c + Z.of_nat (length p)) true ≫= store64.

Definition key_block (key : list Z) : list Z := match key with [] => [] | _ => pad key end.

Definition blake2b_spec (outlen : nat) (input key : list Z) : list Z :=
  let msg := key_block key ++ input in
  take outlen (finish (absorb (length msg) (h (blake2b_init_param (blake2b_param outlen (length key)))) 0 msg)).

(** ** Representation: what a state stands for *)

Record rep (S : blake2b_state) (hh : list Z) (c : Z) (p : list Z) : Prop := {
  rep_h : h S = hh;
  rep_c : 0 <= c;
  rep_t0 : t0 S = c mod 2 ^ 64;
  rep_t1 : t1 S = c / 2 ^ 64 mod 2 ^ 64;
  rep_f : f0 S = 0 /\ f1 S = 0 /\ last_node S = 0;
  rep_buf : length (buf S) = BLAKE2B_BLOCKBYTES;
  rep_len : buflen S = length p;
  rep_fits : (length p <= BLAKE2B_BLOCKBYTES)%nat;
  rep_p : take (length p) (buf S) = p
}.

Lemma counter_carry c n :
  0 <= c -> 0 <= n < 2 ^ 64 ->
  u64 (c mod 2 ^ 64 + n) = (c + n) mod 2 ^ 64 /\
  u64 (c / 2 ^ 64 mod 2 ^ 64 + (if u64 (c mod 2 ^ 64 + n) <? n then 1 else 0))
  = (c + n) / 2 ^ 64 mod 2 ^ 64.
Proof.
  intros Hc Hn. unfold uwrap. rewrite Z.add_mod_idemp_l by lia. split; [done|].
  rewrite Z.add_mod_idemp_l by lia. f_equal.
  destruct (Z.ltb_spec ((c + n) mod 2 ^ 64) n); Z.div_mod_to_equations; lia.
Qed.

Lemma length_splice b off src :
  (off + length src <= length b)%nat -> length (splice b off src) = length b.
Proof. intros H. unfold splice. autorewrite with polka. lia. Qed.

Lemma take_splice b off src :
  (off + length src <= length b)%nat -> take (off + length src) (splice b off src) = take off b ++ src.
Proof.
  intros H. unfold splice. rewrite app_assoc.
  replace (off + length src)%nat with (length (take off b ++ src)) at 1 by (autorewrite with polka; lia).
  apply take_app_length.
Qed.

Lemma increment_rep S hh c p n :
  rep S hh c p -> 0 <= n < 2 ^ 64 -> rep (blake2b_increment_counter S n) hh (c + n) p.
Proof.
  intros [] Hn. destruct (counter_carry c n) as [E0 E1]; [done..|].
  constructor; cbn; try done; [lia| |]; by rewrite rep_t2, ?rep_t3.
Qed.

Lemma compress_rep S hh c p block :
  rep S hh c p -> rep (blake2b_compress S block) (compress_spec hh block c false) c p.
Proof.
  intros []. constructor; cbn; try done. destruct rep_f0 as (-> & -> & _).
  by rewrite rep_h0, rep_t2, rep_t3.
Qed.

Lemma set_buf_rep S hh c p b p' :
  rep S hh c p -> length b = BLAKE2B_BLOCKBYTES -> (length p' <= BLAKE2B_BLOCKBYTES)%nat ->
  take (length p') b = p' -> rep (set_buf S b (length p')) hh c p'.
Proof. intros [] Hb Hl Hp. by constructor. Qed.

(** The loop over whole blocks of the input, with an empty buffer. *)
Lemma update_loop_rep fuel S hh c input :
  rep S hh c [] ->
  let '(h', c', r) := absorb fuel hh c input in
  let '(S', input') := update_loop fuel S input in
  rep S' h' c' [] /\ input' = r.
Proof.
  revert S hh c input. induction fuel as [|fuel IH]; intros S hh c input HS; [done|].
  cbn [absorb update_loop]. destruct (_ <? _)%nat; [|done].
  apply IH. apply compress_rep, increment_rep; [done|cbn; lia].
Qed.

Lemma absorb_rest fuel hh c input :
  (length input <= fuel)%nat ->
  (length (absorb fuel hh c input).2 <= BLAKE2B_BLOCKBYTES)%nat.
Proof.
  revert hh c input. induction fuel as [|fuel IH]; intros hh c input Hf; cbn [absorb].
  { cbn. unfold BLAKE2B_BLOCKBYTES. lia. }
  destruct (Nat.ltb_spec BLAKE2B_BLOCKBYTES (length input)) as [Hl|Hl]; [|cbn; lia].
  apply IH. rewrite length_drop. unfold BLAKE2B_BLOCKBYTES in *. lia.
Qed.

(** More fuel than the input needs changes nothing. *)
Lemma absorb_fuel fuel fuel' hh c input :
  (length input <= fuel)%nat -> (length input <= fuel')%nat ->
  absorb fuel hh c input = absorb fuel' hh c input.
Proof.
  revert fuel' hh c input. induction fuel as [|fuel IH]; intros fuel' hh c input Hf Hf'.
  { destruct input; [|cbn in Hf; lia]. by destruct fuel'. }
  destruct fuel' as [|fuel'].
  { destruct input; [done|cbn in Hf'; lia]. }
  cbn [absorb]. destruct (Nat.ltb_spec BLAKE2B_BLOCKBYTES (length input)); [|done].
  apply IH; rewrite length_drop; unfold BLAKE2B_BLOCKBYTES in *; lia.
Qed.

Lemma absorb_small fuel hh c p :
  (length p <= BLAKE2B_BLOCKBYTES)%nat -> absorb fuel hh c p = (hh, c, p).
Proof.
  intros H. destruct fuel; [done|]. cbn [absorb].
  by rewrite (proj2 (Nat.ltb_ge _ _)).
Qed.

(** Storing the rest of the input behind what the buffer holds. *)
Lemma store_rest_rep S hh c p input :
  rep S hh c p -> (length p + length input <= BLAKE2B_BLOCKBYTES)%nat ->
  rep (set_buf S (splice (buf S) (buflen S) input) (buflen S + length input)) hh c (p ++ input).
Proof.
  intros HS Hl. pose proof HS as []. rewrite rep_len0, <- length_app.
  eapply set_buf_rep; [done|rewrite length_splice; lia|rewrite length_app; lia|].
  rewrite length_app, take_splice by lia. by rewrite rep_p0.
Qed.

(** [blake2b_update] absorbs its input after what the buffer holds. *)
Lemma update_rep S hh c p input :
  rep S hh c p ->
  let '(h', c', r) := absorb (length (p ++ input)) hh c (p ++ input) in
  rep (blake2b_update S input) h' c' r.
Proof.
  intros HS. pose proof HS as [_ _ _ _ _ Hbuf Hlen Hfits Hp].
  unfold blake2b_update. rewrite Hlen, length_app.
  destruct (Nat.ltb_spec 0 (length input)) as [Hpos|Hz].
  2:{ destruct input; [|cbn in Hz; lia]. rewrite app_nil_r. by rewrite absorb_small. }
  destruct (Nat.ltb_spec (BLAKE2B_BLOCKBYTES - length p) (length input)) as [Hgt|Hle].
  2:{ rewrite absorb_small by (rewrite length_app; lia).
      rewrite Hlen. rewrite <- Hlen. apply store_rest_rep; [done|lia]. }
  set (fill := (BLAKE2B_BLOCKBYTES - length p)%nat) in *.
  assert (length (take fill input) = fill) as Hfill by (rewrite length_take; lia).
  assert (splice (buf S) (length p) (take fill input) = take BLAKE2B_BLOCKBYTES (p ++ input)) as Hblock.
  { unfold splice. rewrite Hp, Hfill, drop_ge by lia.
    rewrite app_nil_r, take_app_ge by lia. done. }
  rewrite Hblock. cbn [blake2b_increment_counter set_buf buf].
  assert (drop fill input = drop BLAKE2B_BLOCKBYTES (p ++ input)) as Hdrop by (by rewrite drop_app_ge by lia).
  rewrite Hdrop. set (msg := p ++ input) in *.
  assert (length msg = (length p + length input)%nat) as Hmsg by apply length_app.
  match goal with |- context [update_loop ?n ?S0 ?i] => set (S1 := S0); set (rest := i) in * end.
  assert (rep S1 (compress_spec hh (take BLAKE2B_BLOCKBYTES msg) (c + 128) false) (c + 128) []) as HS1.
  { subst S1. apply compress_rep, increment_rep; [|cbn; lia].
    eapply (set_buf_rep _ _ _ _ _ []); [done| |cbn; lia|done]. rewrite length_take. lia. }
  destruct (length p + length input)%nat as [|n] eqn:En; [lia|]. cbn [absorb].
  rewrite (proj2 (Nat.ltb_lt _ _)) by lia. fold rest.
  assert (length rest <= n)%nat as Hrest by (subst rest; rewrite length_drop; unfold BLAKE2B_BLOCKBYTES in *; lia).
  rewrite (absorb_fuel n (length rest)) by lia.
  pose proof (update_loop_rep (length rest) S1 _ _ rest HS1) as Hloop.
  pose proof (absorb_rest (length rest) (compress_spec hh (take BLAKE2B_BLOCKBYTES msg) (c + 128) false)
    (c + 128) rest ltac:(lia)) as Hr.
  destruct (absorb _ _ _ rest) as [[h' c'] r], (update_loop _ S1 rest) as [S' input'].
  destruct Hloop as [HS' ->]. apply (store_rest_rep S' h' c' [] r); [done|cbn in *; lia].
Qed.

(** Absorbing in two pieces is absorbing the concatenation. *)
Lemma absorb_app fuel hh c a b :
  (length a <= fuel)%nat ->
  let '(h', c', r) := absorb fuel hh c a in
  absorb (length (a ++ b)) hh c (a ++ b) = absorb (length (r ++ b)) h' c' (r ++ b).
Proof.
  revert hh c a. induction fuel as [|fuel IH]; intros hh c a Hf; cbn [absorb]; [done|].
  destruct (Nat.ltb_spec BLAKE2B_BLOCKBYTES (length a)) as [Hl|Hl]; [|done].
  specialize (IH (compress_spec hh (take BLAKE2B_BLOCKBYTES a) (c + 128) false) (c + 128)
    (drop BLAKE2B_BLOCKBYTES a)).
  destruct (absorb fuel _ _ _) as [[h' c'] r]. rewrite <- IH.
  2:{ rewrite length_drop. unfold BLAKE2B_BLOCKBYTES in *. lia. }
  rewrite <- (drop_app_le a b BLAKE2B_BLOCKBYTES), <- (take_app_le a b) by lia.
  destruct (length (a ++ b)) as [|n] eqn:En; [rewrite length_app in En; lia|].
  cbn [absorb]. rewrite (proj2 (Nat.ltb_lt _ _)) by (rewrite length_app in *; lia).
  apply absorb_fuel; rewrite ?length_drop; unfold BLAKE2B_BLOCKBYTES in *; lia.
Qed.

Lemma set_lastblock_eq S : last_node S = 0 ->
  blake2b_set_lastblock S =
  {| h := h S; t0 := t0 S; t1 := t1 S; f0 := 2 ^ 64 - 1; f1 := f1 S; buf := buf S;
     buflen := buflen S; outlen := outlen S; last_node := last_node S |}.
Proof. intros H. unfold blake2b_set_lastblock. by destruct (Z.eqb_spec (last_node S) 0). Qed.

(** [blake2b_final] computes the digest of what the state stands for. *)
Lemma final_rep S hh c p n :
  rep S hh c p -> (outlen S <= n)%nat ->
  blake2b_final S n = Some (take (outlen S) (finish (hh, c, p))).
Proof.
  intros HS Hn. pose proof HS as [? _ _ _ (Hf0 & Hf1 & Hln) Hbuf Hlen Hfits Hp].
  assert (rep (blake2b_increment_counter S (Z.of_nat (length p))) hh (c + Z.of_nat (length p)) p) as HS1.
  { apply increment_rep; [done|]. unfold BLAKE2B_BLOCKBYTES in *. lia. }
  unfold blake2b_final. rewrite (proj2 (Nat.ltb_ge _ _)) by lia.
  unfold blake2b_is_lastblock. rewrite Hf0. cbn [negb Z.eqb]. rewrite Hlen.
  rewrite set_lastblock_eq by (by cbn). pose proof HS1 as [Hh1 _ Ht0 Ht1 (_ & Hf1' & _) _ _ _ _].
  set (S1 := blake2b_increment_counter S (Z.of_nat (length p))) in *.
  cbn [set_buf blake2b_compress outlen h t0 t1 f0 f1 buf buflen last_node].
  assert (splice (buf S1) (buflen S1) (replicate (BLAKE2B_BLOCKBYTES - buflen S1) 0) = pad p) as ->.
  { unfold splice, pad. assert (buflen S1 = length p) as -> by (by subst S1; cbn).
    assert (buf S1 = buf S) as -> by done.
    rewrite Hp, length_replicate, drop_ge by lia. by rewrite app_nil_r. }
  unfold finish, compress_spec. by rewrite Hh1, Ht0, Ht1, Hf1'.
Qed.

Lemma update_outlen S input : outlen (blake2b_update S input) = outlen S.
Proof.
  assert (forall fuel S0 i, outlen (update_loop fuel S0 i).1 = outlen S0) as Hl.
  { induction fuel as [|fuel IH]; intros S0 i; [done|]. cbn [update_loop].
    destruct (_ <? _)%nat; [|done]. by rewrite IH. }
  unfold blake2b_update. destruct (_ <? _)%nat; [|done].
  destruct (_ <? _)%nat; [|done].
  match goal with |- context [update_loop ?n ?S0 ?i] => specialize (Hl n S0 i); destruct (update_loop n S0 i) end.
  exact Hl.
Qed.

Lemma init_rep n k :
  (0 < n <= BLAKE2B_OUTBYTES)%nat ->
  rep (blake2b_init_param (blake2b_param n k)) (h (blake2b_init_param (blake2b_param n k))) 0 []
  /\ outlen (blake2b_init_param (blake2b_param n k)) = n.
Proof.
  intros Hn. split; [constructor; cbn; unfold BLAKE2B_BLOCKBYTES; first [done | lia | by repeat split]|]. cbn [outlen blake2b_init_param blake2b_param app].
  cbn. unfold BLAKE2B_OUTBYTES in Hn. rewrite uwrap_small by lia. lia.
Qed.

Lemma length_pad p : (length p <= BLAKE2B_BLOCKBYTES)%nat -> length (pad p) = BLAKE2B_BLOCKBYTES.
Proof. intros H. unfold pad. autorewrite with polka. lia. Qed.

Lemma length_compress_words hh a b c d block : length (compress_words hh a b c d block) = length hh.
Proof. unfold compress_words. cbv zeta. by rewrite length_imap. Qed.

Lemma length_absorb_h fuel hh c msg : length (absorb fuel hh c msg).1.1 = length hh.
Proof.
  revert hh c msg. induction fuel as [|fuel IH]; intros hh c msg; cbn [absorb]; [done|].
  destruct (_ <? _)%nat; [|done]. rewrite IH. unfold compress_spec. apply length_compress_words.
Qed.

Lemma length_store64_all ws : length (ws ≫= store64) = (8 * length ws)%nat.
Proof.
  induction ws as [|w ws IH]; [done|]. rewrite bind_cons, length_app, IH. cbn. lia.
Qed.

Lemma store64_ok ws : bytes_ok (ws ≫= store64).
Proof.
  apply Forall_bind, Forall_forall. intros w _. unfold store64. apply Forall_fmap, Forall_forall.
  intros i _. apply uwrap_byte.
Qed.

Lemma blake2b_ok n input key :
  (0 < n <= BLAKE2B_OUTBYTES)%nat -> (length key <= BLAKE2B_KEYBYTES)%nat ->
  blake2b n input key = Some (blake2b_spec n input key).
Proof.
  intros Hn Hk. unfold blake2b, blake2b_spec.
  assert (((n =? 0) || (BLAKE2B_OUTBYTES <? n))%nat = false) as En.
  { apply orb_false_intro; [apply Nat.eqb_neq | apply Nat.ltb_ge]; lia. }
  rewrite En.
  rewrite (proj2 (Nat.ltb_ge _ _)) by done.
  destruct (init_rep n (length key) Hn) as [Hinit Hout].
  destruct key as [|k0 key].
  - cbn [length key_block app Nat.ltb Nat.leb]. unfold blake2b_init. rewrite En. ostep.
    cbn [mbind option_bind]. pose proof (update_rep _ _ _ _ input Hinit) as Hu. cbn [app length] in Hu.
    destruct (absorb _ _ _ input) as [[h' c'] r].
    erewrite final_rep; [|done|rewrite update_outlen; cbn [length] in Hout; lia].
    rewrite update_outlen. cbn [length] in Hout. by rewrite Hout.
  - set (K := k0 :: key) in *. change (0 <? length K)%nat with true. cbn iota.
    unfold blake2b_init_key. rewrite En. change ((length K =? 0)%nat) with false. cbn [orb].
    rewrite (proj2 (Nat.ltb_ge _ _)) by done. cbn [mbind option_bind].
    fold (pad K). change (key_block K) with (pad K).
    assert (length (pad K) = BLAKE2B_BLOCKBYTES) as Hpad.
    { apply length_pad. unfold BLAKE2B_KEYBYTES, BLAKE2B_BLOCKBYTES in *. lia. }
    pose proof (update_rep _ _ _ _ (pad K) Hinit) as H1. cbn [app] in H1.
    rewrite absorb_small in H1 by lia.
    pose proof (update_rep _ _ _ _ input H1) as H2.
    destruct (absorb _ _ _ (pad K ++ input)) as [[h' c'] r].
    erewrite final_rep; [|done|rewrite !update_outlen; lia].
    by rewrite !update_outlen, Hout.
Qed.

(** The digest has the requested length, and its elements are bytes. *)
Lemma blake2b_digest n input :
  (0 < n <= BLAKE2B_OUTBYTES)%nat ->
  exists d, blake2b n input [] = Some d /\ length d = n /\ bytes_ok d.
Proof.
  intros Hn. rewrite blake2b_ok by (done || (cbn; lia)). eexists. split; [done|].
  unfold blake2b_spec, finish. destruct (absorb _ _ _ _) as [[h' c'] r] eqn:E.
  split; [|apply Forall_take, store64_ok].
  rewrite length_take, length_store64_all. unfold compress_spec. rewrite length_compress_words.
  assert (length h' = 8%nat) as ->; [|unfold BLAKE2B_OUTBYTES in Hn; lia].
  pose proof (length_absorb_h (length (key_block [] ++ input))
    (h (blake2b_init_param (blake2b_param n (length (@nil Z))))) 0 (key_block [] ++ input)) as Hl.
  rewrite E in Hl. cbn [fst] in Hl. rewrite Hl. cbn [h blake2b_init_param]. by rewrite length_imap.
Qed.

(** ** Known answers, and the properties *)

Example blake2b_abc :
  hex_bytes <$> blake2b 32 (str "abc") []
  = Some (str "BDDD813C634239723171EF3FEE98579B94964E3BB1CB3E427262C8C068D52319").
Proof. vm_compute. reflexivity. Qed.

(** C14: the streaming implementation refines the block-wise hash: for every
    digest length from 1 to 64, key of at most 64 bytes and input, [blake2b] (init,
    update with its buffer and carry counter, final) succeeds with the BLAKE2b
    digest of the padded key block followed by the input. *)
Theorem blake2b_refines_spec n input key :
  (0 < n <= BLAKE2B_OUTBYTES)%nat -> (length key <= BLAKE2B_KEYBYTES)%nat ->
  blake2b n input key = Some (blake2b_spec n input key).
Proof. apply blake2b_ok. Qed.

Lemma blake2b_refines_spec_witness :
  blake2b 64 (str "abc") (str "k") = Some (blake2b_spec 64 (str "abc") (str "k")).
Proof.
  apply (blake2b_refines_spec 64 (str "abc") (str "k")); cbn; unfold BLAKE2B_OUTBYTES, BLAKE2B_KEYBYTES; lia.
Defined.

(** Streaming is chunking-independent: feeding a message in two pieces, split
    anywhere, gives the digest of feeding it whole, from every state that
    represents some absorbed message. *)
Theorem blake2b_update_chunks S hh c p a b n :
  rep S hh c p -> (outlen S <= n)%nat ->
  blake2b_final (blake2b_update (blake2b_update S a) b) n = blake2b_final (blake2b_update S (a ++ b)) n.
Proof.
  intros HS Hn. pose proof (update_rep S hh c p a HS) as Ha.
  pose proof (update_rep S hh c p (a ++ b) HS) as Hab.
  pose proof (absorb_app (length (p ++ a)) hh c (p ++ a) b ltac:(lia)) as Happ.
  rewrite <- app_assoc in Happ. destruct (absorb (length (p ++ a)) hh c (p ++ a)) as [[h' c'] r].
  pose proof (update_rep _ _ _ _ b Ha) as Hb. rewrite <- Happ in Hb.
  destruct (absorb _ _ _ (p ++ a ++ b)) as [[h'' c''] r''].
  erewrite !final_rep; [|done|rewrite update_outlen; lia|done|rewrite !update_outlen; lia].
  by rewrite !update_outlen.
Qed.

Lemma blake2b_update_chunks_witness :
  blake2b_final (blake2b_update (blake2b_update (blake2b_init_param (blake2b_param 32 0)) (str "ab")) (str "c")) 32
  = Some (default [] (blake2b 32 (str "abc") [])).
Proof.
  rewrite (blake2b_update_chunks _ (h (blake2b_init_param (blake2b_param 32 0))) 0 [] (str "ab") (str "c") 32).
  - vm_compute. reflexivity.
  - apply init_rep. unfold BLAKE2B_OUTBYTES. lia.
  - vm_compute. lia.
Defined.
