(* ===== verification/XXHash.v ===== *)
(** XXH64: [src/libs/xxhash/xxhash.cpp].

    The input pointer is the list of bytes from it to the end of the buffer: a
    read that is not covered by that list is undefined behaviour.

    [XXH64_spec] is the algorithm as it is described, without a pointer: arithmetic
    modulo 2^64 over the stripes of 32 bytes, the words and the bytes that the
    input falls into. The code computes it. *)
From S2P Require Import Prelude.

Definition XXH_rotl64 (x r : Z) : Z := u64 (Z.lor (Z.shiftl x r) (Z.shiftr x (64 - r))).

(** [memcpy(&val, memPtr, sizeof(val))] on the little-endian target. *)
Definition XXH_readLE32 (p : list Z) : outcome Z := bs ← read_n p 0 4; Ret (of_le bs).
Definition XXH_readLE64 (p : list Z) : outcome Z := bs ← read_n p 0 8; Ret (of_le bs).

Definition PRIME64_1 : Z := 11400714785074694791.
Definition PRIME64_2 : Z := 14029467366897019727.
Definition PRIME64_3 : Z := 1609587929392839161.
Definition PRIME64_4 : Z := 9650029242287828579.
Definition PRIME64_5 : Z := 2870177450012600261.

Definition XXH64_round (acc input : Z) : Z :=
  let acc := u64 (acc + u64 (input * PRIME64_2)) in
  let acc := XXH_rotl64 acc 31 in
  u64 (acc * PRIME64_1).

Definition XXH64_mergeRound (acc val : Z) : Z :=
  let val := XXH64_round 0 val in
  let acc := Z.lxor acc val in
  u64 (u64 (acc * PRIME64_1) + PRIME64_4).

Definition XXH64_avalanche (h64 : Z) : Z :=
  let h64 := Z.lxor h64 (Z.shiftr h64 33) in
  let h64 := u64 (h64 * PRIME64_2) in
  let h64 := Z.lxor h64 (Z.shiftr h64 29) in
  let h64 := u64 (h64 * PRIME64_3) in
  Z.lxor h64 (Z.shiftr h64 32).

(** The three tail loops of [XXH64_finalize]; [len] is below 32, so three rounds
    of eight, one of four and three of one are the most there can be. *)
Fixpoint process8 (fuel : nat) (h64 : Z) (p : list Z) (len : nat) : outcome (Z * list Z * nat) :=
  match fuel with
  | O => UB
  | S fuel' =>
      if (8 <=? len)%nat then
        k ← XXH_readLE64 p;
        let k1 := XXH64_round 0 k in
        let h64 := Z.lxor h64 k1 in
        let h64 := u64 (u64 (XXH_rotl64 h64 27 * PRIME64_1) + PRIME64_4) in
        process8 fuel' h64 (drop 8 p) (len - 8)
      else Ret (h64, p, len)
  end.

Definition process4 (h64 : Z) (p : list Z) (len : nat) : outcome (Z * list Z * nat) :=
  if (4 <=? len)%nat then
    k ← XXH_readLE32 p;
    let h64 := Z.lxor h64 (u64 (k * PRIME64_1)) in
    Ret (u64 (u64 (XXH_rotl64 h64 23 * PRIME64_2) + PRIME64_3), drop 4 p, (len - 4)%nat)
  else Ret (h64, p, len).

Fixpoint process1 (len : nat) (h64 : Z) (p : list Z) : outcome Z :=
  match len with
  | O => Ret h64
  | S len' =>
      b ← load p 0;
      let h64 := Z.lxor h64 (u64 (b * PRIME64_5)) in
      process1 len' (u64 (XXH_rotl64 h64 11 * PRIME64_1)) (drop 1 p)
  end.

Definition XXH64_finalize (h64 : Z) (p : list Z) (len : Z) : outcome Z :=
  let len := Z.to_nat (Z.land len 31) in
  '(h8, p8, len8) ← process8 4 h64 p len;
  '(h4, p4, len4) ← process4 h8 p8 len8;
  h1 ← process1 len4 h4 p4;
  Ret (XXH64_avalanche h1).

(** [do { ... } while (p <= limit)]: another stripe as long as 32 bytes are left. *)
Fixpoint stripes (fuel : nat) (v1 v2 v3 v4 : Z) (p : list Z) : outcome (Z * Z * Z * Z * list Z) :=
  match fuel with
  | O => UB
  | S fuel' =>
      k1 ← XXH_readLE64 p;
      k2 ← XXH_readLE64 (drop 8 p);
      k3 ← XXH_readLE64 (drop 16 p);
      k4 ← XXH_readLE64 (drop 24 p);
      let v1 := XXH64_round v1 k1 in
      let v2 := XXH64_round v2 k2 in
      let v3 := XXH64_round v3 k3 in
      let v4 := XXH64_round v4 k4 in
      let p' := drop 32 p in
      if (32 <=? length p')%nat then stripes fuel' v1 v2 v3 v4 p' else Ret (v1, v2, v3, v4, p')
  end.

Definition XXH64_endian_align (input : list Z) (seed : Z) : outcome Z :=
  let len := Z.of_nat (length input) in
  '(h64, p) ←
    (if (32 <=? length input)%nat then
      '(v1, v2, v3, v4, p) ← stripes (length input) (u64 (seed + PRIME64_1 + PRIME64_2))
        (u64 (seed + PRIME64_2)) seed (u64 (seed - PRIME64_1)) input;
      let h64 := u64 (XXH_rotl64 v1 1 + XXH_rotl64 v2 7 + XXH_rotl64 v3 12 + XXH_rotl64 v4 18) in
      let h64 := XXH64_mergeRound h64 v1 in
      let h64 := XXH64_mergeRound h64 v2 in
      let h64 := XXH64_mergeRound h64 v3 in
      let h64 := XXH64_mergeRound h64 v4 in
      Ret (h64, p)
    else Ret (u64 (seed + PRIME64_5), input));
  XXH64_finalize (u64 (h64 + len)) p len.

Definition XXH64 (input : list Z) (seed : Z) : outcome Z := XXH64_endian_align input seed.

(** ** The algorithm on blocks of the input *)

(** The complete blocks of [n] bytes, and the bytes after them. *)
Fixpoint chunks (n count : nat) (l : list Z) : list (list Z) :=
  match count with
  | O => []
  | S count' => take n l :: chunks n count' (drop n l)
  end.
Definition blocks (n : nat) (l : list Z) : list (list Z) := chunks n (length l / n) l.
Definition rest (n : nat) (l : list Z) : list Z := drop (n * (length l / n)) l.
Definition words (n : nat) (l : list Z) : list Z := map of_le (blocks n l).

Definition rotl (x r : Z) : Z := (x * 2 ^ r) mod 2 ^ 64 + x / 2 ^ (64 - r).

Definition spec_round (acc input : Z) : Z :=
  (rotl ((acc + input * PRIME64_2) mod 2 ^ 64) 31 * PRIME64_1) mod 2 ^ 64.

(** A lane per word of the stripe. *)
Definition spec_stripe (lanes : list Z) (stripe : list Z) : list Z :=
  zip_with spec_round lanes (words 8 stripe).

Definition spec_merge (acc lane : Z) : Z :=
  (Z.lxor acc (spec_round 0 lane) * PRIME64_1 + PRIME64_4) mod 2 ^ 64.

Definition spec_lanes (seed : Z) : list Z :=
  [(seed + PRIME64_1 + PRIME64_2) mod 2 ^ 64; (seed + PRIME64_2) mod 2 ^ 64; seed;
   (seed - PRIME64_1) mod 2 ^ 64].

Definition spec_converge (lanes : list Z) : Z :=
  fold_left spec_merge lanes (foldr Z.add 0 (zip_with rotl lanes [1; 7; 12; 18]) mod 2 ^ 64).

Definition spec_eight (h word : Z) : Z :=
  (rotl (Z.lxor h (spec_round 0 word)) 27 * PRIME64_1 + PRIME64_4) mod 2 ^ 64.
Definition spec_four (h word : Z) : Z :=
  (rotl (Z.lxor h ((word * PRIME64_1) mod 2 ^ 64)) 23 * PRIME64_2 + PRIME64_3) mod 2 ^ 64.
Definition spec_one (h byte : Z) : Z :=
  (rotl (Z.lxor h ((byte * PRIME64_5) mod 2 ^ 64)) 11 * PRIME64_1) mod 2 ^ 64.

Definition spec_tail (h : Z) (tail : list Z) : Z :=
  let after8 := rest 8 tail in
  fold_left spec_one (rest 4 after8) (fold_left spec_four (words 4 after8) (fold_left spec_eight (words 8 tail) h)).

Definition spec_avalanche (h : Z) : Z :=
  let h := (Z.lxor h (h / 2 ^ 33) * PRIME64_2) mod 2 ^ 64 in
  let h := (Z.lxor h (h / 2 ^ 29) * PRIME64_3) mod 2 ^ 64 in
  Z.lxor h (h / 2 ^ 32).

Definition XXH64_spec (input : list Z) (seed : Z) : Z :=
  let h :=
    if (length input <? 32)%nat then u64 (seed + PRIME64_5)
    else spec_converge (fold_left spec_stripe (blocks 32 input) (spec_lanes seed)) in
  spec_avalanche (spec_tail (u64 (h + Z.of_nat (length input))) (rest 32 input)).

(** ** Blocks *)

Lemma blocks_small n l : (length l < n)%nat -> blocks n l = [] /\ rest n l = l.
Proof. intros H. unfold blocks, rest. rewrite Nat.div_small by done. by rewrite Nat.mul_0_r. Qed.

Lemma blocks_cons n l :
  (0 < n <= length l)%nat -> blocks n l = take n l :: blocks n (drop n l) /\ rest n l = rest n (drop n l).
Proof.
  intros H. unfold blocks, rest. rewrite length_drop.
  assert (length l / n = S ((length l - n) / n))%nat as ->.
  { replace (length l) with ((length l - n) + 1 * n)%nat at 1 by lia. rewrite Nat.div_add by lia. lia. }
  split; [done|]. rewrite drop_drop. f_equal. lia.
Qed.

Lemma length_rest n l : length (rest n l) = (length l mod n)%nat.
Proof. unfold rest. rewrite length_drop. pose proof (Nat.Div0.div_mod (length l) n). lia. Qed.

(** The four words of a stripe. *)
Lemma words_stripe p :
  (32 <= length p)%nat ->
  words 8 (take 32 p) =
  [of_le (take 8 p); of_le (take 8 (drop 8 p)); of_le (take 8 (drop 16 p)); of_le (take 8 (drop 24 p))].
Proof.
  intros H. unfold words, blocks. rewrite length_take_le by done.
  change (32 / 8)%nat with 4%nat. cbn [chunks map]. rewrite !drop_drop, !skipn_firstn_comm, !take_take. done.
Qed.

(** ** The operations on words *)

Definition word64 (x : Z) : Prop := 0 <= x < 2 ^ 64.

Lemma word64_u64 x : word64 (u64 x).
Proof. by apply uwrap_range. Qed.
#[local] Hint Resolve word64_u64 : core.

Lemma word64_lxor a b : word64 a -> word64 b -> word64 (Z.lxor a b).
Proof. by apply lxor_range. Qed.
#[local] Hint Resolve word64_lxor : core.

Lemma rotl64_spec x r : word64 x -> 0 < r < 64 -> XXH_rotl64 x r = rotl x r.
Proof.
  intros Hx Hr. unfold XXH_rotl64, rotl, word64, uwrap in *.
  rewrite Z.shiftl_mul_pow2, Z.shiftr_div_pow2 by lia.
  assert (2 ^ 64 = 2 ^ (64 - r) * 2 ^ r) as E by (rewrite <- Z.pow_add_r by lia; f_equal; lia).
  assert (0 < 2 ^ r) by lia. assert (0 < 2 ^ (64 - r)) by lia.
  assert (0 <= x / 2 ^ (64 - r) < 2 ^ r).
  { split; [apply Z.div_pos; lia|]. apply Z.div_lt_upper_bound; lia. }
  rewrite lor_disjoint by lia. rewrite <- Z.add_mod_idemp_l by lia. apply Z.mod_small.
  rewrite E, Z.mul_mod_distr_r by lia. pose proof (Z.mod_pos_bound x (2 ^ (64 - r))). nia.
Qed.

(** Reductions in the middle of a sum or a product make no difference. *)
Ltac mod64 :=
  unfold uwrap; rewrite ?Zplus_mod_idemp_l, ?Zplus_mod_idemp_r, ?Zmult_mod_idemp_l, ?Zmult_mod_idemp_r; try done.

Lemma round_spec acc input : XXH64_round acc input = spec_round acc input.
Proof. unfold XXH64_round, spec_round. rewrite rotl64_spec by (done || auto). mod64. Qed.

Lemma round_word acc input : word64 (spec_round acc input).
Proof. apply word64_u64. Qed.
#[local] Hint Resolve round_word : core.

Lemma mergeRound_spec acc val : XXH64_mergeRound acc val = spec_merge acc val.
Proof. unfold XXH64_mergeRound, spec_merge. rewrite round_spec. mod64. Qed.

Lemma avalanche_spec h : XXH64_avalanche h = spec_avalanche h.
Proof. unfold XXH64_avalanche, spec_avalanche. cbv zeta. rewrite !Z.shiftr_div_pow2 by done. done. Qed.

(** ** The loops *)

Lemma process8_spec fuel h p :
  (length p < 8 * fuel)%nat -> word64 h ->
  process8 fuel h p (length p) = Ret (fold_left spec_eight (words 8 p) h, rest 8 p, length (rest 8 p))
  /\ word64 (fold_left spec_eight (words 8 p) h).
Proof.
  revert h p. induction fuel as [|fuel IH]; intros h p Hf Hw; [lia|]. cbn [process8]. unfold words in *.
  destruct (Nat.leb_spec 8 (length p)) as [Hl|Hl].
  - unfold XXH_readLE64. rewrite read_n_ok by lia. ostep. rewrite round_spec, rotl64_spec by (done || auto).
    destruct (blocks_cons 8 p) as [-> ->]; [lia|]. cbn [map fold_left]. rewrite <- length_drop.
    replace (u64 (u64 _ + PRIME64_4)) with (spec_eight h (of_le (take 8 p))) by (unfold spec_eight; mod64).
    apply IH; [rewrite length_drop; lia|]. apply word64_u64.
  - destruct (blocks_small 8 p) as [-> ->]; [done|]. done.
Qed.

Lemma process4_spec h p :
  (length p < 8)%nat -> word64 h ->
  process4 h p (length p) = Ret (fold_left spec_four (words 4 p) h, rest 4 p, length (rest 4 p))
  /\ word64 (fold_left spec_four (words 4 p) h).
Proof.
  intros Hp Hw. unfold process4, words. destruct (Nat.leb_spec 4 (length p)) as [Hl|Hl].
  - unfold XXH_readLE32. rewrite read_n_ok by lia. ostep. rewrite rotl64_spec by (done || auto).
    destruct (blocks_cons 4 p) as [-> ->]; [lia|].
    destruct (blocks_small 4 (drop 4 p)) as [-> ->]; [rewrite length_drop; lia|]. cbn [map fold_left].
    rewrite <- length_drop. split; [|apply word64_u64]. do 3 f_equal. unfold spec_four. mod64.
  - destruct (blocks_small 4 p) as [-> ->]; done.
Qed.

Lemma process1_spec h p :
  word64 h -> process1 (length p) h p = Ret (fold_left spec_one p h) /\ word64 (fold_left spec_one p h).
Proof.
  revert h. induction p as [|b p IH]; intros h Hw; [done|]. cbn [length process1 load lookup list_lookup]. ostep.
  rewrite rotl64_spec by (done || auto). cbn [fold_left drop]. apply IH, word64_u64.
Qed.

Lemma finalize_spec h p len :
  0 <= len -> length p = Z.to_nat (len mod 32) -> word64 h ->
  XXH64_finalize h p len = Ret (spec_avalanche (spec_tail h p)) /\ word64 (spec_tail h p).
Proof.
  intros Hlen Hp Hw. unfold XXH64_finalize, spec_tail. change 31 with (Z.ones 5). rewrite Z.land_ones by lia.
  change (2 ^ 5) with 32. rewrite <- Hp. pose proof (Z.mod_pos_bound len 32).
  destruct (process8_spec 4 h p) as [-> H8]; [lia|done|]. ostep.
  destruct (process4_spec (fold_left spec_eight (words 8 p) h) (rest 8 p)) as [-> H4];
    [rewrite length_rest; apply Nat.mod_upper_bound; lia|done|]. ostep.
  destruct (process1_spec (fold_left spec_four (words 4 (rest 8 p)) (fold_left spec_eight (words 8 p) h))
    (rest 4 (rest 8 p))) as [-> H1]; [done|]. ostep. by rewrite avalanche_spec.
Qed.

Lemma stripes_spec fuel v1 v2 v3 v4 p :
  (32 <= length p)%nat -> (length p <= fuel)%nat ->
  exists w1 w2 w3 w4, stripes fuel v1 v2 v3 v4 p = Ret (w1, w2, w3, w4, rest 32 p)
    /\ fold_left spec_stripe (blocks 32 p) [v1; v2; v3; v4] = [w1; w2; w3; w4]
    /\ Forall word64 [w1; w2; w3; w4].
Proof.
  revert v1 v2 v3 v4 p. induction fuel as [|fuel IH]; intros v1 v2 v3 v4 p Hl Hf; [lia|].
  cbn [stripes]. unfold XXH_readLE64. do 4 (rewrite read_n_ok by (rewrite ?length_drop; lia); ostep).
  rewrite !round_spec. destruct (blocks_cons 32 p) as [-> ->]; [lia|]. cbn [fold_left].
  unfold spec_stripe at 2. rewrite words_stripe by done. cbn [zip_with].
  change (drop 0 ?q) with q. destruct (Nat.leb_spec 32 (length (drop 32 p))) as [Hd|Hd].
  - apply IH; [done|]. rewrite length_drop. lia.
  - destruct (blocks_small 32 (drop 32 p)) as [-> ->]; [done|]. eexists _, _, _, _. split; [done|]. split; [done|].
    forall_list ltac:(apply round_word).
Qed.

(** ** Known answers, and the property *)

Example XXH64_empty : XXH64 [] 0 = Ret 0xEF46DB3751D8E999.
Proof. reflexivity. Qed.

Example XXH64_stripe :
  XXH64 (str "The quick brown fox jumps over the lazy dog") 0 = Ret 0x0B242D361FDA71BC.
Proof. vm_compute. reflexivity. Qed.

Lemma merge_word acc lane : word64 (spec_merge acc lane).
Proof. apply word64_u64. Qed.

Lemma converge_spec w1 w2 w3 w4 :
  Forall word64 [w1; w2; w3; w4] ->
  XXH64_mergeRound (XXH64_mergeRound (XXH64_mergeRound (XXH64_mergeRound
    (u64 (XXH_rotl64 w1 1 + XXH_rotl64 w2 7 + XXH_rotl64 w3 12 + XXH_rotl64 w4 18)) w1) w2) w3) w4
  = spec_converge [w1; w2; w3; w4] /\ word64 (spec_converge [w1; w2; w3; w4]).
Proof.
  rewrite !Forall_cons. intros (H1 & H2 & H3 & H4 & _). split; [|apply merge_word].
  rewrite !rotl64_spec by (done || lia). rewrite !mergeRound_spec. unfold spec_converge.
  cbn [zip_with foldr fold_left]. do 4 f_equal. unfold uwrap. f_equal. lia.
Qed.

(** What follows the stripes. *)
Lemma finish_spec h input :
  word64 h ->
  XXH64_finalize (u64 (h + Z.of_nat (length input))) (rest 32 input) (Z.of_nat (length input)) =
  Ret (spec_avalanche (spec_tail (u64 (h + Z.of_nat (length input))) (rest 32 input)))
  /\ word64 (spec_avalanche (spec_tail (u64 (h + Z.of_nat (length input))) (rest 32 input))).
Proof.
  intros Hh. destruct (finalize_spec (u64 (h + Z.of_nat (length input))) (rest 32 input)
    (Z.of_nat (length input))) as [-> Hw]; [lia| |apply word64_u64|].
  - rewrite length_rest, <- (Nat2Z.inj_mod _ 32). by rewrite Nat2Z.id.
  - split; [done|]. unfold spec_avalanche. cbv zeta. apply word64_lxor; [apply word64_u64|].
    rewrite <- Z.shiftr_div_pow2 by done. apply shiftr_range; [done|]. apply word64_u64.
Qed.

(** [XXH64] computes the description; its result is a word. *)
Lemma XXH64_spec_word input seed : XXH64 input seed = Ret (XXH64_spec input seed) /\ word64 (XXH64_spec input seed).
Proof.
  unfold XXH64, XXH64_endian_align, XXH64_spec.
  destruct (Nat.leb_spec 32 (length input)) as [Hl|Hl].
  - rewrite (proj2 (Nat.ltb_ge _ _)) by done.
    destruct (stripes_spec (length input) (u64 (seed + PRIME64_1 + PRIME64_2)) (u64 (seed + PRIME64_2)) seed
      (u64 (seed - PRIME64_1)) input) as (w1 & w2 & w3 & w4 & -> & E & Hw); [done|lia|]. ostep.
    change (spec_lanes seed) with [u64 (seed + PRIME64_1 + PRIME64_2); u64 (seed + PRIME64_2); seed; u64 (seed - PRIME64_1)].
    rewrite E. destruct (converge_spec _ _ _ _ Hw) as [-> Hc]. by apply finish_spec.
  - rewrite (proj2 (Nat.ltb_lt _ _)) by done. ostep.
    pose proof (finish_spec (u64 (seed + PRIME64_5)) input (word64_u64 _)) as H.
    destruct (blocks_small 32 input) as [_ Er]; [done|]. by rewrite Er in *.
Qed.

(** XXH64 is total and in range; stated for its clients. *)
Lemma XXH64_ok input seed : exists r, XXH64 input seed = Ret r /\ word64 r.
Proof. destruct (XXH64_spec_word input seed). eauto. Qed.

(** C15: [XXH64] computes the hash that its algorithm describes: for every input
    of any length and every seed, the stripe loop on four lanes and the 8-, 4- and
    1-byte tails, with pointers and wrapping arithmetic, return [XXH64_spec] of
    the blocks of the input; they terminate and never read past its end. *)
Theorem XXH64_computes_spec input seed : XXH64 input seed = Ret (XXH64_spec input seed).
Proof. apply XXH64_spec_word. Qed.
