(* ===== verification/Address.v ===== *)
(** SS58 addresses: [src/utils/address.cpp].

    [AddressUtils] keeps no state. A buffer is the list of its bytes, and an
    access past its end is undefined behaviour. The block that [new] returns for
    the digits of [EncodeBase58] is given by [slack]: the bytes that the
    allocator leaves accessible after the requested ones. The language promises
    none of them, so [slack = []] is what C++ defines. *)
From S2P Require Import Prelude Scale Blake2b.

Definition PUBLIC_KEY_LENGTH : nat := 32.
Definition ADDRESS_LENGTH : nat := 48.
Definition SR25519_PUBLIC_SIZE : nat := 32.

Record PublicKey : Type := { pk_bytes : list Z }.
Record Address : Type := { symbols : list Z }.

Definition ALPHABET : list Z := str "123456789ABCDEFGHJKLMNPQRSTUVWXYZabcdefghijkmnopqrstuvwxyz".

Definition ALPHABET_MAP : list Z := [
    -1; -1; -1; -1; -1; -1; -1; -1; -1; -1; -1; -1; -1; -1; -1; -1; -1; -1; -1; -1; -1; -1; -1; -1; -1; -1;
    -1; -1; -1; -1; -1; -1; -1; -1; -1; -1; -1; -1; -1; -1; -1; -1; -1; -1; -1; -1; -1; -1; -1; 0;  1;  2;
    3;  4;  5;  6;  7;  8;  -1; -1; -1; -1; -1; -1; -1; 9;  10; 11; 12; 13; 14; 15; 16; -1; 17; 18; 19; 20;
    21; -1; 22; 23; 24; 25; 26; 27; 28; 29; 30; 31; 32; -1; -1; -1; -1; -1; -1; 33; 34; 35; 36; 37; 38; 39;
    40; 41; 42; 43; -1; 44; 45; 46; 47; 48; 49; 50; 51; 52; 53; 54; 55; 56; 57; -1; -1; -1; -1; -1].

(** ** The loops that the two conversions share

    [carry_loop] is [for (j < n)] over the digits stored so far, with the body
    of the loop as a function from the carry and the digit to the new digit and
    the new carry; [push_loop] is [while (carry > 0)], appending digits. A carry
    has 32 bits and loses at least one of them per round. *)

Fixpoint carry_loop (body : Z -> Z -> Z * Z) (n j : nat) (carry : Z) (buf : list Z)
    : outcome (Z * list Z) :=
  match n with
  | O => Ret (carry, buf)
  | S n' =>
      d ← load buf j;
      let '(d', carry') := body carry d in
      buf ← store buf j d';
      carry_loop body n' (S j) carry' buf
  end.

Fixpoint push_loop (next : Z -> Z * Z) (fuel : nat) (len : nat) (carry : Z) (buf : list Z)
    : outcome (nat * list Z) :=
  if 0 <? carry then
    match fuel with
    | O => UB
    | S fuel' =>
        let '(d, carry') := next carry in
        buf ← store buf len d;
        push_loop next fuel' (S len) carry' buf
    end
  else Ret (len, buf).

(** [for (; i < len && in[i] == mark; i++) out[n++] = fill] *)
Fixpoint lead_loop (mark fill : Z) (inp : list Z) (n : nat) (out : list Z) : outcome (nat * list Z) :=
  match inp with
  | c :: inp' => if c =? mark then out ← store out n fill; lead_loop mark fill inp' (S n) out
                else Ret (n, out)
  | [] => Ret (n, out)
  end.

(** ** EncodeBase58 *)

Definition enc_body (carry d : Z) : Z * Z :=
  let carry := u32 (carry + u32 (Z.shiftl d 8)) in (u8 (carry mod 58), carry / 58).
Definition enc_next (carry : Z) : Z * Z := (u8 (carry mod 58), carry / 58).

Fixpoint enc_loop (bytes : list Z) (digitslen : nat) (digits : list Z) : outcome (nat * list Z) :=
  match bytes with
  | [] => Ret (digitslen, digits)
  | b :: bytes' =>
      '(carry, digits) ← carry_loop enc_body digitslen 0 b digits;
      '(digitslen, digits) ← push_loop enc_next 32 digitslen carry digits;
      enc_loop bytes' digitslen digits
  end.

(** [for (i < digitslen) result[resultlen + i] = ALPHABET[digits[digitslen - 1 - i]]];
    [n] counts the digits left. *)
Fixpoint emit_loop (n : nat) (digits : list Z) (pos : nat) (result : list Z) : outcome (list Z) :=
  match n with
  | O => Ret result
  | S n' =>
      d ← load digits n';
      c ← load ALPHABET (Z.to_nat d);
      result ← store result pos c;
      emit_loop n' digits (S pos) result
  end.

Definition EncodeBase58 (slack bytes result : list Z) : outcome (nat * list Z) :=
  let digits := replicate (length bytes * 137 / 100) 0 ++ slack in
  '(digitslen, digits) ← enc_loop bytes 1 digits;
  '(resultlen, result) ← lead_loop 0 49 bytes 0 result;
  result ← emit_loop digitslen digits resultlen result;
  result ← store result (digitslen + resultlen) 0;
  Ret ((digitslen + resultlen)%nat, result).

(** ** DecodeBase58 *)

Definition dec_body (carry d : Z) : Z * Z :=
  let carry := u32 (carry + u32 (d * 58)) in (u8 (Z.land carry 0xff), Z.shiftr carry 8).
Definition dec_next (carry : Z) : Z * Z := (u8 (Z.land carry 0xff), Z.shiftr carry 8).

Fixpoint dec_loop (s : list Z) (resultlen : nat) (result : list Z) : outcome (nat * list Z) :=
  match s with
  | [] => Ret (resultlen, result)
  | c :: s' =>
      m ← load ALPHABET_MAP (Z.to_nat c);
      '(carry, result) ← carry_loop dec_body resultlen 0 (u32 m) result;
      '(resultlen, result) ← push_loop dec_next 32 resultlen carry result;
      dec_loop s' resultlen result
  end.

(** [for (i = resultlen - 1; i >= z; i--) swap(result[i], result[resultlen - i - 1])];
    [n] counts the rounds left, the index is [z + n - 1]. *)
Fixpoint swap_loop (z n resultlen : nat) (result : list Z) : outcome (list Z) :=
  match n with
  | O => Ret result
  | S n' =>
      let i := (z + n')%nat in
      k ← load result i;
      x ← load result (resultlen - i - 1);
      result ← store result i x;
      result ← store result (resultlen - i - 1) k;
      swap_loop z n' resultlen result
  end.

Definition DecodeBase58 (s result : list Z) : outcome (nat * list Z) :=
  result ← store result 0 0;
  '(resultlen, result) ← dec_loop s 1 result;
  '(resultlen, result) ← lead_loop 49 0 s resultlen result;
  let z := (resultlen / 2 + resultlen mod 2)%nat in
  result ← swap_loop z (resultlen - z) resultlen result;
  Ret (resultlen, result).

(** ** Addresses *)

Definition SS58PRE : list Z := [0x53; 0x53; 0x35; 0x38; 0x50; 0x52; 0x45].

(** [blake2(hash, 64, ...)] into a zeroed [hash[64]], its return code ignored. *)
Definition blake2_64 (input : list Z) : list Z := default (replicate 64 0) (blake2 64 input []).

Definition getPublicKeyFromAddr (addr : Address) : outcome PublicKey :=
  let pubk := replicate PUBLIC_KEY_LENGTH 0 in
  '(len, bs58decoded) ← DecodeBase58 (symbols addr) (replicate ADDRESS_LENGTH 0);
  if (len =? 35)%nat then
    plain ← read_n bs58decoded 0 (PUBLIC_KEY_LENGTH + 1);
    ssPrefixed ← write_at (SS58PRE ++ replicate (PUBLIC_KEY_LENGTH + 1) 0) 7 plain;
    let blake2bHashed := blake2_64 ssPrefixed in
    c0 ← load bs58decoded (1 + PUBLIC_KEY_LENGTH);
    c1 ← load bs58decoded (2 + PUBLIC_KEY_LENGTH);
    h0 ← load blake2bHashed 0;
    h1 ← load blake2bHashed 1;
    if negb (c0 =? h0) || negb (c1 =? h1)
    then Throw (ApplicationException (str "Address checksum is wrong."))
    else bs ← read_n bs58decoded 1 PUBLIC_KEY_LENGTH; Ret {| pk_bytes := bs |}
  else Ret {| pk_bytes := pubk |}.

(** The overload for [const char *] copies 48 bytes whatever the string holds;
    [addrStr] is the memory from the pointer to the end of its object. *)
Definition getPublicKeyFromAddr_chars (addrStr : list Z) : outcome PublicKey :=
  s ← read_n addrStr 0 ADDRESS_LENGTH;
  getPublicKeyFromAddr {| symbols := s |}.

(** [c_str()] ends with a NUL. *)
Definition getPublicKeyFromAddr_string (addrStr : list Z) : outcome PublicKey :=
  getPublicKeyFromAddr_chars (addrStr ++ [0]).

Definition getAddrFromPublicKey (slack : list Z) (pubKey : PublicKey) : outcome (list Z) :=
  let addrCh := replicate 1024 0 in
  key ← read_n (pk_bytes pubKey) 0 SR25519_PUBLIC_SIZE;
  plainAddr ← write_at (0x2A :: replicate 1023 0) 1 key;
  plain ← read_n plainAddr 0 (SR25519_PUBLIC_SIZE + 1);
  ssPrefixed ← write_at (SS58PRE ++ replicate (SR25519_PUBLIC_SIZE + 1) 0) 7 plain;
  let blake2bHashed := blake2_64 ssPrefixed in
  h0 ← load blake2bHashed 0;
  h1 ← load blake2bHashed 1;
  plainAddr ← store plainAddr (1 + PUBLIC_KEY_LENGTH) h0;
  plainAddr ← store plainAddr (2 + PUBLIC_KEY_LENGTH) h1;
  bytes ← read_n plainAddr 0 (SR25519_PUBLIC_SIZE + 3);
  '(_, addrCh) ← EncodeBase58 slack bytes addrCh;
  Ret (cstr addrCh).

(** ** Numbers in base 58 and base 256

    [norm b ds]: the digits of a number, least significant first, with no
    superfluous leading digit (one digit for zero). *)

Definition norm (b : Z) (ds : list Z) : Prop :=
  Forall (fun d => 0 <= d < b) ds /\ ds <> []
  /\ (length ds = 1%nat \/ b ^ (Z.of_nat (length ds) - 1) <= of_digits b ds).

Section base.
Context (b : Z) (Hb : 1 < b).

Lemma norm_length ds L :
  norm b ds -> (0 < L)%nat -> of_digits b ds < b ^ Z.of_nat L -> (length ds <= L)%nat.
Proof using Hb.
  intros (Hr & Hn & [H1|Hlow]) HL Hv; [lia|].
  destruct (decide (length ds <= L)%nat); [done|exfalso].
  assert (b ^ Z.of_nat L <= b ^ (Z.of_nat (length ds) - 1)); [|lia]. apply Z.pow_le_mono_r; lia.
Qed.

Lemma norm_inj ds es : norm b ds -> norm b es -> of_digits b ds = of_digits b es -> ds = es.
Proof using Hb.
  assert (forall x y, norm b x -> norm b y -> of_digits b x = of_digits b y -> (length x <= length y)%nat) as Hle.
  { intros x y Hx (Hr & Hn & _) Hv. apply norm_length; [done|destruct y; [done|cbn; lia]|].
    rewrite Hv. by apply of_digits_bound. }
  intros Hd He Hv. apply (of_digits_inj b Hb); [apply Hd|apply He| |done].
  apply Nat.le_antisymm; by apply Hle.
Qed.

(** A digit list whose last digit is not zero is normal. *)
Lemma norm_last ds d :
  Forall (fun d => 0 <= d < b) (ds ++ [d]) -> d <> 0 -> norm b (ds ++ [d]).
Proof using Hb.
  intros Hr Hd. split; [done|]. split; [by destruct ds|]. right.
  apply canonical_lower; [done| |by destruct ds]. split; [done|]. by rewrite last_snoc.
Qed.

(** ... and a normal digit list of a positive number ends in such a digit. *)
Lemma norm_positive ds :
  norm b ds -> 0 < of_digits b ds -> exists ds' d, ds = ds' ++ [d] /\ d <> 0.
Proof using Hb.
  intros (Hr & Hn & Hlow) Hpos. destruct ds as [|d ds _] using rev_ind; [done|].
  exists ds, d. split; [done|]. intros ->. rewrite of_digits_snoc, Z.mul_0_r, Z.add_0_r in *.
  apply Forall_app in Hr as [Hr _]. apply of_digits_bound in Hr; [|done].
  destruct Hlow as [H1|Hlow].
  - rewrite length_app in H1. cbn in H1. destruct ds; [cbn in Hpos|cbn in H1]; lia.
  - rewrite length_app in Hlow. cbn [length] in Hlow.
    replace (Z.of_nat (length ds + 1) - 1) with (Z.of_nat (length ds)) in Hlow by lia. lia.
Qed.
End base.

(** *** One digit in: multiply the number stored by [m] and add the carry

    [body] and [next] are the loop bodies; both conversions satisfy the two
    hypotheses, with [m] and [b] exchanged. *)

Section conversion.
Context (b m : Z) (Hb : 1 < b <= 256) (Hm : 0 < m <= 256).
Context (body : Z -> Z -> Z * Z) (next : Z -> Z * Z).
Hypothesis body_eq : forall carry d,
  0 <= carry < m -> 0 <= d < b -> body carry d = ((carry + d * m) mod b, (carry + d * m) / b).
Hypothesis next_eq : forall carry, 0 <= carry < m -> next carry = (carry mod b, carry / b).

Lemma carry_loop_ok pre ds rest carry :
  Forall (fun d => 0 <= d < b) ds -> 0 <= carry < m ->
  exists ds' carry', carry_loop body (length ds) (length pre) carry (pre ++ ds ++ rest)
      = Ret (carry', pre ++ ds' ++ rest)
    /\ length ds' = length ds /\ Forall (fun d => 0 <= d < b) ds' /\ 0 <= carry' < m
    /\ of_digits b ds' + b ^ Z.of_nat (length ds) * carry' = of_digits b ds * m + carry.
Proof using Hb Hm body_eq.
  intros Hr. revert pre carry. induction Hr as [|d ds Hd Hr IH]; intros pre carry Hc.
  { exists [], carry. cbn. repeat split; auto; lia. }
  cbn [length carry_loop]. rewrite (load_ok _ _ d) by (by apply list_lookup_middle). ostep.
  rewrite body_eq by done. rewrite store_ok by (rewrite length_app; cbn; lia). ostep.
  rewrite insert_app_r_alt, Nat.sub_diag by lia. cbn [insert list_insert app].
  set (x := carry + d * m).
  assert (0 <= x < m * b) by (unfold x; nia).
  assert (0 <= x / b < m).
  { split; [apply Z.div_pos; lia|]. apply Z.div_lt_upper_bound; lia. }
  destruct (IH (pre ++ [x mod b]) (x / b)) as (ds' & c' & E & Hl & Hr' & Hc' & Hv); [done|].
  exists (x mod b :: ds'), c'. rewrite length_app in E. cbn [length] in E.
  rewrite Nat.add_1_r, <- !app_assoc in E. cbn [app] in *. split; [done|].
  split; [cbn; lia|]. split; [constructor; [apply Z.mod_pos_bound; lia|done]|]. split; [done|].
  cbn [of_digits]. rewrite Nat2Z.inj_succ, Z.pow_succ_r by lia.
  pose proof (Z.div_mod x b ltac:(lia)). unfold x in *. nia.
Qed.

Lemma push_loop_ok fuel pre rest carry :
  0 <= carry < m -> carry < 2 ^ Z.of_nat fuel ->
  (exists es, push_loop next fuel (length pre) carry (pre ++ rest)
      = Ret (length (pre ++ es), pre ++ es ++ drop (length es) rest)
    /\ (length es <= length rest)%nat /\ canonical b es /\ of_digits b es = carry)
  \/ (push_loop next fuel (length pre) carry (pre ++ rest) = UB /\ b ^ Z.of_nat (length rest) <= carry).
Proof using Hb Hm next_eq.
  revert pre rest carry. induction fuel as [|fuel IH]; intros pre rest carry Hc Hf.
  { cbn in Hf. assert (carry = 0) as -> by lia. left. exists []. cbn. rewrite app_nil_r.
    repeat split; auto; lia. }
  cbn [push_loop]. destruct (Z.ltb_spec 0 carry) as [Hp|Hp].
  2:{ assert (carry = 0) as -> by lia. left. exists []. cbn. rewrite app_nil_r. repeat split; auto; lia. }
  rewrite next_eq by done. destruct rest as [|r rest].
  { right. rewrite store_ub by (rewrite app_nil_r; lia). cbn. split; [done|lia]. }
  rewrite store_ok by (rewrite length_app; cbn; lia). ostep.
  rewrite insert_app_r_alt, Nat.sub_diag by lia. cbn [insert list_insert].
  pose proof (Z.div_mod carry b ltac:(lia)). pose proof (Z.mod_pos_bound carry b ltac:(lia)).
  assert (0 <= carry / b) by (apply Z.div_pos; lia).
  rewrite Nat2Z.inj_succ, Z.pow_succ_r in Hf by lia.
  destruct (IH (pre ++ [carry mod b]) rest (carry / b)) as [(es & E & Hl & [Hr Hlast] & Hv)|[E Hbig]]; [nia|nia| |].
  - left. exists (carry mod b :: es). rewrite length_app, <- app_assoc in E. cbn [length app] in E.
    rewrite Nat.add_1_r in E. rewrite E. cbn [length drop app]. split; [|split; [|split]].
    + rewrite <- app_assoc. cbn. by rewrite <- app_assoc.
    + lia.
    + split; [constructor; [lia|done]|]. destruct es as [|e es]; [cbn in *; nia|done].
    + cbn. lia.
  - right. rewrite length_app, <- app_assoc in E. cbn [length app] in E. rewrite Nat.add_1_r in E.
    split; [done|]. cbn [length]. rewrite Nat2Z.inj_succ, Z.pow_succ_r by lia. nia.
Qed.

(** One step of a conversion: the buffer [ds ++ rest] holds the number [v]; after
    it, it holds [v * m + c], unless that number does not fit. *)
Lemma digit_in ds rest c :
  norm b ds -> 0 <= c < m ->
  let r := '(carry, buf) ← carry_loop body (length ds) 0 c (ds ++ rest);
           push_loop next 32 (length ds) carry buf in
  (exists ds' rest', r = Ret (length ds', ds' ++ rest') /\ norm b ds'
    /\ length (ds' ++ rest') = length (ds ++ rest) /\ of_digits b ds' = of_digits b ds * m + c)
  \/ (r = UB /\ b ^ Z.of_nat (length (ds ++ rest)) <= of_digits b ds * m + c).
Proof using All.
  intros (Hr & Hn & Hlow) Hc r. unfold r.
  destruct (carry_loop_ok [] ds rest c Hr Hc) as (ds1 & c1 & E & Hl & Hr1 & Hc1 & Hv).
  cbn [length app] in E. rewrite E. ostep. rewrite <- Hl in *. clear E.
  pose proof (of_digits_bound b ltac:(lia) ds1 Hr1). pose proof (of_digits_bound b ltac:(lia) ds Hr).
  assert (0 < b ^ Z.of_nat (length ds1)) by (apply Z.pow_pos_nonneg; lia).
  destruct (push_loop_ok 32 ds1 rest c1 Hc1) as [(es & -> & Hle & [Hre Hlast] & He)|[-> Hbig]]; [lia| |].
  - left. exists (ds1 ++ es), (drop (length es) rest). rewrite <- app_assoc.
    assert (of_digits b (ds1 ++ es) = of_digits b ds * m + c) as Hval
      by (rewrite of_digits_app, He; lia).
    split; [done|]. split; [|split; [|done]].
    + split; [by apply Forall_app|]. split; [destruct ds1, ds; cbn in *; congruence|].
      destruct es as [|e es] using rev_ind; [|clear IHes].
      * rewrite app_nil_r in *. destruct Hlow as [Hone|Hlow]; [left; lia|right]. rewrite Hval. nia.
      * right. rewrite app_assoc. apply canonical_lower; [lia| |by destruct (ds1 ++ es)].
        split; [rewrite <- app_assoc; by apply Forall_app|]. rewrite last_snoc in *. done.
    + rewrite !length_app, length_drop. lia.
  - right. split; [done|]. rewrite <- Hv, length_app, <- Hl, Nat2Z.inj_add, Z.pow_add_r by lia. nia.
Qed.
End conversion.

Lemma enc_body_eq carry d :
  0 <= carry < 256 -> 0 <= d < 58 -> enc_body carry d = ((carry + d * 256) mod 58, (carry + d * 256) / 58).
Proof.
  intros Hc Hd. unfold enc_body. rewrite Z.shiftl_mul_pow2 by lia.
  change (2 ^ 8) with 256. rewrite (uwrap_small 32 (d * 256)), (uwrap_small 32) by lia.
  rewrite uwrap_small; [done|]. pose proof (Z.mod_pos_bound (carry + d * 256) 58). lia.
Qed.

Lemma enc_next_eq carry : 0 <= carry < 256 -> enc_next carry = (carry mod 58, carry / 58).
Proof.
  intros Hc. unfold enc_next. rewrite uwrap_small; [done|].
  pose proof (Z.mod_pos_bound carry 58). lia.
Qed.

Lemma low_byte c : u8 (Z.land c 0xff) = c mod 256.
Proof.
  change 0xff with (Z.ones 8). rewrite Z.land_ones by lia. unfold uwrap. by rewrite Z.mod_mod.
Qed.

Lemma dec_body_eq carry d :
  0 <= carry < 58 -> 0 <= d < 256 -> dec_body carry d = ((carry + d * 58) mod 256, (carry + d * 58) / 256).
Proof.
  intros Hc Hd. unfold dec_body. rewrite low_byte, Z.shiftr_div_pow2 by lia.
  by rewrite (uwrap_small 32 (d * 58)), (uwrap_small 32) by lia.
Qed.

Lemma dec_next_eq carry : 0 <= carry < 58 -> dec_next carry = (carry mod 256, carry / 256).
Proof. intros Hc. unfold dec_next. by rewrite low_byte, Z.shiftr_div_pow2 by lia. Qed.

Lemma of_digits_rev_cons b x l :
  of_digits b (rev (x :: l)) = of_digits b (rev l) + b ^ Z.of_nat (length l) * x.
Proof. cbn [rev]. by rewrite of_digits_snoc, length_rev. Qed.

Definition alpha (d : Z) : Z := default 0 (ALPHABET !! Z.to_nat d).
Definition digit58 (d : Z) : Prop := 0 <= d < 58.

(** The two tables are inverse to each other, and the symbol of zero is '1'. *)
Lemma alphabet_tables d :
  digit58 d -> load ALPHABET (Z.to_nat d) = Ret (alpha d)
    /\ load ALPHABET_MAP (Z.to_nat (alpha d)) = Ret d /\ (alpha d =? 49) = (d =? 0) /\ alpha d <> 0.
Proof.
  intros Hd. assert (is_byte d) as Hb by (unfold digit58, is_byte in *; lia).
  apply (forall_bytes (fun d => negb (d <? 58) ||
    match load ALPHABET (Z.to_nat d), load ALPHABET_MAP (Z.to_nat (alpha d)) with
    | Ret c, Ret e => (c =? alpha d) && (e =? d) && Bool.eqb (alpha d =? 49) (d =? 0) && negb (alpha d =? 0)
    | _, _ => false end)) in Hb; [|vm_compute; reflexivity].
  rewrite (proj2 (Z.ltb_lt d 58)) in Hb by apply Hd. cbn [negb orb] in Hb.
  destruct (load ALPHABET _) as [c| |]; [|done|done]. destruct (load ALPHABET_MAP _) as [e| |]; [|done|done].
  apply andb_prop in Hb as [[[H1 H2]%andb_prop H3]%andb_prop H4].
  apply Z.eqb_eq in H1 as ->. apply Z.eqb_eq in H2 as ->. apply eqb_prop in H3.
  apply negb_true_iff, Z.eqb_neq in H4. done.
Qed.

Lemma enc_loop_ok bytes ds rest :
  norm 58 ds -> bytes_ok bytes ->
  let v := of_digits 256 (rev bytes) + 256 ^ Z.of_nat (length bytes) * of_digits 58 ds in
  (exists ds' rest', enc_loop bytes (length ds) (ds ++ rest) = Ret (length ds', ds' ++ rest')
    /\ norm 58 ds' /\ length (ds' ++ rest') = length (ds ++ rest) /\ of_digits 58 ds' = v)
  \/ (enc_loop bytes (length ds) (ds ++ rest) = UB /\ 58 ^ Z.of_nat (length (ds ++ rest)) <= v).
Proof.
  intros Hn Hb. revert ds rest Hn. induction Hb as [|x bytes Hx Hbs IH]; intros ds rest Hn v.
  { left. exists ds, rest. unfold v. cbn [rev of_digits length]. change (Z.of_nat 0) with 0.
    rewrite Z.pow_0_r, Z.mul_1_l. done. }
  cbn [enc_loop].
  pose proof (of_digits_bound 256 ltac:(lia) (rev bytes) (Forall_rev Hbs)) as Hrev.
  rewrite length_rev in Hrev. set (p := 256 ^ Z.of_nat (length bytes)) in *.
  assert (v = of_digits 256 (rev bytes) + p * (of_digits 58 ds * 256 + x)) as ->.
  { unfold v. rewrite of_digits_rev_cons. cbn [length]. rewrite Nat2Z.inj_succ, Z.pow_succ_r by lia.
    fold p. ring. }
  assert (1 <= p) by (apply (Z.pow_le_mono_r 256 0); lia).
  destruct (digit_in 58 256 ltac:(lia) ltac:(lia) enc_body enc_next enc_body_eq enc_next_eq ds rest x Hn Hx)
    as [(ds1 & rest1 & E & Hn1 & Hl1 & Hv1)|[E Hbig]].
  - apply bind_Ret_inv in E as ((c1 & buf1) & -> & E). ostep. rewrite E. ostep.
    rewrite <- Hl1, <- Hv1. by apply IH.
  - right. split; [|nia].
    destruct (carry_loop enc_body _ _ _ _) as [[c1 buf1]| |]; cbn in E |- *; [|done|done]. by rewrite E.
Qed.

Lemma dec_loop_ok es ds rest :
  norm 256 ds -> Forall digit58 es ->
  let v := of_digits 58 (rev es) + 58 ^ Z.of_nat (length es) * of_digits 256 ds in
  (exists ds' rest', dec_loop (alpha <$> es) (length ds) (ds ++ rest) = Ret (length ds', ds' ++ rest')
    /\ norm 256 ds' /\ length (ds' ++ rest') = length (ds ++ rest) /\ of_digits 256 ds' = v)
  \/ (dec_loop (alpha <$> es) (length ds) (ds ++ rest) = UB /\ 256 ^ Z.of_nat (length (ds ++ rest)) <= v).
Proof.
  intros Hn Hb. revert ds rest Hn. induction Hb as [|x es Hx Hbs IH]; intros ds rest Hn v.
  { left. exists ds, rest. unfold v. cbn [rev of_digits length]. change (Z.of_nat 0) with 0.
    rewrite Z.pow_0_r, Z.mul_1_l. done. }
  cbn [fmap list_fmap dec_loop]. destruct (alphabet_tables x Hx) as (_ & -> & _ & _). ostep.
  rewrite (uwrap_small 32) by (unfold digit58 in Hx; lia).
  pose proof (of_digits_bound 58 ltac:(lia) (rev es) (Forall_rev Hbs)) as Hrev.
  rewrite length_rev in Hrev. set (p := 58 ^ Z.of_nat (length es)) in *.
  assert (v = of_digits 58 (rev es) + p * (of_digits 256 ds * 58 + x)) as ->.
  { unfold v. rewrite of_digits_rev_cons. cbn [length]. rewrite Nat2Z.inj_succ, Z.pow_succ_r by lia.
    fold p. ring. }
  assert (1 <= p) by (apply (Z.pow_le_mono_r 58 0); lia).
  destruct (digit_in 256 58 ltac:(lia) ltac:(lia) dec_body dec_next dec_body_eq dec_next_eq ds rest x Hn Hx)
    as [(ds1 & rest1 & E & Hn1 & Hl1 & Hv1)|[E Hbig]].
  - apply bind_Ret_inv in E as ((c1 & buf1) & -> & E). ostep. rewrite E. ostep.
    rewrite <- Hl1, <- Hv1. by apply IH.
  - right. split; [|nia].
    destruct (carry_loop dec_body _ _ _ _) as [[c1 buf1]| |]; cbn in E |- *; [|done|done]. by rewrite E.
Qed.

(** ** The remaining loops *)

Fixpoint lead (mark : Z) (l : list Z) : nat :=
  match l with
  | c :: l' => if c =? mark then S (lead mark l') else O
  | [] => O
  end.

Lemma store_app {A} (pre rest : list A) x y :
  store (pre ++ y :: rest) (length pre) x = Ret (pre ++ x :: rest).
Proof.
  rewrite store_ok by (rewrite length_app; cbn; lia).
  by rewrite insert_app_r_alt, Nat.sub_diag by lia.
Qed.

Lemma snoc_app {A} (pre : list A) x rest : pre ++ x :: rest = (pre ++ [x]) ++ rest.
Proof. by rewrite <- app_assoc. Qed.

Lemma length_snoc {A} (pre : list A) x : length (pre ++ [x]) = S (length pre).
Proof. rewrite length_app. cbn. lia. Qed.

Lemma lead_loop_ok mark fill inp pre rest :
  (lead mark inp <= length rest)%nat ->
  lead_loop mark fill inp (length pre) (pre ++ rest)
  = Ret ((length pre + lead mark inp)%nat, pre ++ replicate (lead mark inp) fill ++ drop (lead mark inp) rest).
Proof.
  revert pre rest. induction inp as [|c inp IH]; intros pre rest Hl; cbn [lead lead_loop] in *.
  { cbn. by rewrite Nat.add_0_r. }
  destruct (c =? mark); [|cbn; by rewrite Nat.add_0_r].
  destruct rest as [|r rest]; [cbn in Hl; lia|]. rewrite store_app. ostep.
  rewrite snoc_app, <- (length_snoc pre fill), IH by (cbn in Hl; lia).
  rewrite length_snoc, <- app_assoc. cbn. repeat f_equal. lia.
Qed.

Lemma lead_loop_ub mark fill inp pre rest :
  (length rest < lead mark inp)%nat -> lead_loop mark fill inp (length pre) (pre ++ rest) = UB.
Proof.
  revert pre rest. induction inp as [|c inp IH]; intros pre rest Hl; cbn [lead lead_loop] in *; [lia|].
  destruct (c =? mark); [|lia]. destruct rest as [|r rest].
  { by rewrite app_nil_r, store_ub by lia. }
  rewrite store_app. ostep. rewrite snoc_app, <- (length_snoc pre fill). apply IH. cbn in Hl. lia.
Qed.

Lemma emit_loop_ok ds tail pre rest :
  Forall digit58 ds -> (length ds <= length rest)%nat ->
  emit_loop (length ds) (ds ++ tail) (length pre) (pre ++ rest)
  = Ret (pre ++ (alpha <$> rev ds) ++ drop (length ds) rest).
Proof.
  revert tail pre rest. induction ds as [|d ds IH] using rev_ind; intros tail pre rest Hd Hl; [done|].
  apply Forall_app in Hd as [Hds Hd]. rewrite Forall_singleton in Hd. rewrite length_snoc in *. cbn [emit_loop].
  rewrite <- app_assoc. rewrite (load_ok _ _ d) by (by apply list_lookup_middle). ostep.
  destruct (alphabet_tables d Hd) as (-> & _). ostep. destruct rest as [|r rest]; [cbn in Hl; lia|].
  rewrite store_app. ostep. rewrite snoc_app, <- (length_snoc pre (alpha d)), IH by (cbn in *; done || lia).
  rewrite rev_app_distr, <- app_assoc. done.
Qed.

(** Swapping inwards from both ends reverses what lies between. *)
Lemma swap_loop_ok n z mid pre post tail :
  length mid = (2 * n + Nat.modulo (length mid) 2)%nat -> length pre = length post ->
  z = (length pre + n + Nat.modulo (length mid) 2)%nat ->
  swap_loop z n (length (pre ++ mid ++ post)) (pre ++ mid ++ post ++ tail)
  = Ret (pre ++ rev mid ++ post ++ tail).
Proof.
  revert mid pre post. induction n as [|n IH]; intros mid pre post Hm Hp Hz.
  { destruct mid as [|x [|y mid]]; [done|done|].
    pose proof (Nat.mod_upper_bound (length (x :: y :: mid)) 2). cbn [length] in *. lia. }
  destruct mid as [|x mid]; [cbn [length] in Hm; lia|].
  destruct mid as [|y mid _] using rev_ind; [cbn in Hm; lia|].
  assert (Nat.modulo (length (x :: mid ++ [y])) 2 = Nat.modulo (length mid) 2) as Ev.
  { cbn [length]. rewrite length_snoc. replace (S (S (length mid))) with (length mid + 1 * 2)%nat by lia.
    apply Nat.Div0.mod_add. }
  rewrite Ev in *. cbn [length] in Hm. rewrite length_snoc in Hm.
  cbn [swap_loop].
  assert (length (pre ++ (x :: mid ++ [y]) ++ post) = (2 * length pre + length mid + 2)%nat) as El.
  { rewrite !length_app. cbn [length]. rewrite length_snoc. lia. }
  rewrite El. replace (z + n)%nat with (length (pre ++ x :: mid)) by (rewrite length_app; cbn [length]; lia).
  replace (2 * length pre + length mid + 2 - length (pre ++ x :: mid) - 1)%nat with (length pre)
    by (rewrite length_app; cbn [length]; lia).
  assert (pre ++ (x :: mid ++ [y]) ++ post ++ tail = (pre ++ x :: mid) ++ y :: post ++ tail) as ->
    by (rewrite <- !app_assoc; cbn; by rewrite <- app_assoc).
  rewrite (load_ok ((pre ++ x :: mid) ++ y :: post ++ tail) (length (pre ++ x :: mid)) y)
    by (by apply list_lookup_middle). ostep.
  assert (forall w, (pre ++ x :: mid) ++ w :: post ++ tail = pre ++ x :: mid ++ w :: post ++ tail) as Ew
    by (intros; by rewrite <- app_assoc).
  rewrite Ew, (load_ok _ _ x) by (by apply list_lookup_middle). ostep.
  rewrite <- Ew, store_app. ostep. rewrite Ew, store_app. ostep.
  replace (pre ++ y :: mid ++ x :: post ++ tail) with ((pre ++ [y]) ++ mid ++ (x :: post) ++ tail)
    by (by rewrite <- app_assoc).
  replace (2 * length pre + length mid + 2)%nat with (length ((pre ++ [y]) ++ mid ++ x :: post))
    by (rewrite !length_app; cbn [length]; lia).
  rewrite IH; [|lia|rewrite length_snoc; cbn [length]; lia|rewrite length_snoc; lia].
  cbn [rev]. rewrite rev_app_distr. cbn. by rewrite <- !app_assoc.
Qed.

(** ** The conversions *)

Lemma norm_zero b : 1 < b -> norm b [0].
Proof. intros. split; [repeat constructor; lia|]. split; [done|by left]. Qed.

(** 58 digits times 1.37, and one more, are enough for any number of bytes. *)
Lemma digits_enough n : 256 ^ Z.of_nat n < 58 ^ Z.of_nat (n * 137 / 100 + 1).
Proof.
  set (q := (n * 137 / 100)%nat).
  assert (137 * n < 100 * q + 100)%nat as Hq.
  { unfold q. pose proof (Nat.div_mod (n * 137) 100). pose proof (Nat.mod_upper_bound (n * 137) 100). lia. }
  apply (Z.pow_lt_mono_l_iff _ _ 100); [lia..|]. rewrite <- !Z.pow_mul_r by lia.
  apply Z.le_lt_trans with (58 ^ (137 * Z.of_nat n)).
  - rewrite (Z.mul_comm _ 100), !Z.pow_mul_r by lia. apply Z.pow_le_mono_l. split; [lia|].
    vm_compute. discriminate.
  - apply Z.pow_lt_mono_r; lia.
Qed.

Definition value256 (bytes : list Z) : Z := of_digits 256 (rev bytes).
Definition value58 (es : list Z) : Z := of_digits 58 (rev es).

Lemma value256_bound bytes : bytes_ok bytes -> 0 <= value256 bytes < 256 ^ Z.of_nat (length bytes).
Proof. intros H. rewrite <- length_rev. apply of_digits_bound; [lia|]. by apply Forall_rev. Qed.

(** The digits buffer of [EncodeBase58] starts with the number zero. *)
Lemma digits_start (bytes slack : list Z) :
  bytes <> [] -> exists rest, replicate (length bytes * 137 / 100) 0 ++ slack = [0] ++ rest
    /\ length ([0] ++ rest) = (length bytes * 137 / 100 + length slack)%nat.
Proof.
  intros Hne. assert (1 <= length bytes * 137 / 100)%nat.
  { apply Nat.div_le_lower_bound; [lia|]. destruct bytes; [done|cbn [length]; lia]. }
  destruct (length bytes * 137 / 100)%nat as [|n]; [lia|].
  exists (replicate n 0 ++ slack). split; [done|]. cbn. rewrite length_app, length_replicate. lia.
Qed.

Lemma EncodeBase58_ok slack bytes result :
  bytes_ok bytes -> bytes <> [] -> (1 <= length slack)%nat ->
  (lead 0 bytes + length bytes * 137 / 100 + 2 <= length result)%nat ->
  exists ds rest, norm 58 ds /\ of_digits 58 ds = value256 bytes
    /\ EncodeBase58 slack bytes result
       = Ret ((length ds + lead 0 bytes)%nat, (alpha <$> replicate (lead 0 bytes) 0 ++ rev ds) ++ 0 :: rest).
Proof.
  intros Hb Hne Hs Hcap. unfold EncodeBase58.
  destruct (digits_start bytes slack Hne) as (rest & -> & Hlen).
  pose proof (value256_bound bytes Hb) as Hval. pose proof (digits_enough (length bytes)) as Hen.
  destruct (enc_loop_ok bytes [0] rest (norm_zero 58 ltac:(lia)) Hb)
    as [(ds & rest' & E & Hn & Hl & Hv)|[_ Hbig]]; cbn [of_digits] in *;
    rewrite !Z.mul_0_r, !Z.add_0_r in *; fold (value256 bytes) in *.
  2:{ exfalso. rewrite Hlen in Hbig.
      assert (58 ^ Z.of_nat (length bytes * 137 / 100 + 1)
        <= 58 ^ Z.of_nat (length bytes * 137 / 100 + length slack)) by (apply Z.pow_le_mono_r; lia). lia. }
  assert (length ds <= length bytes * 137 / 100 + 1)%nat as Hds by (apply (norm_length 58); (done || lia)).
  cbn [length] in E. rewrite E. ostep. set (k := lead 0 bytes) in *.
  pose proof (lead_loop_ok 0 49 bytes [] result) as El. cbn [length app Nat.add] in El.
  rewrite El by lia. fold k. ostep.
  assert (Forall digit58 ds) as Hd by apply Hn.
  pose proof (emit_loop_ok ds rest' (replicate k 49) (drop k result) Hd) as Ee.
  rewrite length_replicate in Ee. rewrite Ee by (rewrite length_drop; lia). ostep. rewrite drop_drop.
  destruct (drop (k + length ds) result) as [|r rest2] eqn:Er.
  { apply (f_equal length) in Er. rewrite length_drop in Er. cbn in Er. lia. }
  exists ds, rest2. split; [done|]. split; [done|]. rewrite app_assoc.
  pose proof (store_app (replicate k 49 ++ (alpha <$> rev ds)) rest2 0 r) as Es.
  replace (length (replicate k 49 ++ (alpha <$> rev ds))) with (length ds + k)%nat in Es
    by (rewrite length_app, length_replicate, length_fmap, length_rev; lia).
  rewrite Es. ostep. rewrite fmap_app, fmap_replicate. done.
Qed.

Lemma EncodeBase58_ub bytes result :
  bytes_ok bytes -> bytes <> [] -> 58 ^ Z.of_nat (length bytes * 137 / 100) <= value256 bytes ->
  EncodeBase58 [] bytes result = UB.
Proof.
  intros Hb Hne Hbig. unfold EncodeBase58.
  destruct (digits_start bytes [] Hne) as (rest & -> & Hlen).
  destruct (enc_loop_ok bytes [0] rest (norm_zero 58 ltac:(lia)) Hb)
    as [(ds & rest' & E & Hn & Hl & Hv)|[E _]]; [|cbn [length] in E; by rewrite E].
  exfalso.
  cbn [of_digits] in *. rewrite !Z.mul_0_r, !Z.add_0_r in Hv. fold (value256 bytes) in Hv.
  destruct Hn as (Hr & _ & _). apply of_digits_bound in Hr; [|lia].
  assert (58 ^ Z.of_nat (length ds) <= 58 ^ Z.of_nat (length bytes * 137 / 100)); [|lia].
  apply Z.pow_le_mono_r; [lia|]. rewrite length_app in Hl. cbn [length] in Hlen. lia.
Qed.

Lemma lead_alpha es : Forall digit58 es -> lead 49 (alpha <$> es) = lead 0 es.
Proof.
  induction 1 as [|d es Hd _ IH]; [done|]. cbn [fmap list_fmap lead].
  destruct (alphabet_tables d Hd) as (_ & _ & -> & _). destruct (d =? 0); [|done]. f_equal. apply IH.
Qed.

Lemma rev_replicate {A} n (x : A) : rev (replicate n x) = replicate n x.
Proof. induction n as [|n IH]; [done|]. cbn [replicate rev]. rewrite IH. symmetry. apply replicate_cons_app. Qed.

Lemma DecodeBase58_ok es result ds :
  Forall digit58 es -> norm 256 ds -> of_digits 256 ds = value58 es ->
  (lead 0 es + length ds <= length result)%nat ->
  exists rest, DecodeBase58 (alpha <$> es) result
    = Ret ((length ds + lead 0 es)%nat, (replicate (lead 0 es) 0 ++ rev ds) ++ rest).
Proof.
  intros He Hn Hv Hcap. unfold DecodeBase58.
  destruct result as [|r0 res]; [destruct ds; [by destruct Hn as (_ & ? & _)|cbn in Hcap; lia]|].
  rewrite store_ok by (cbn; lia). ostep. cbn [insert list_insert]. change (0 :: res) with ([0] ++ res).
  destruct (dec_loop_ok es [0] res (norm_zero 256 ltac:(lia)) He)
    as [(ds' & rest' & E & Hn' & Hl & Hv')|[_ Hbig]]; cbn [of_digits] in *;
    rewrite !Z.mul_0_r, !Z.add_0_r in *; fold (value58 es) in *.
  2:{ exfalso. destruct Hn as (Hr & _ & _). apply of_digits_bound in Hr; [|lia].
      assert (256 ^ Z.of_nat (length ds) <= 256 ^ Z.of_nat (length ([0] ++ res))); [|lia].
      apply Z.pow_le_mono_r; [lia|]. cbn [length app] in *. lia. }
  assert (ds' = ds) as -> by (apply (norm_inj 256); [lia|done|done|lia]).
  cbn [length] in E. rewrite E. ostep. rewrite length_app in Hl. cbn [length app] in Hcap, Hl.
  rewrite lead_loop_ok by (rewrite lead_alpha by done; lia). ostep. rewrite lead_alpha by done.
  set (k := lead 0 es) in *. set (tail := drop k rest').
  pose proof (swap_loop_ok ((length ds + k) / 2) ((length ds + k) / 2 + (length ds + k) mod 2)
    (ds ++ replicate k 0) [] [] tail) as Hsw.
  cbn [app length] in Hsw. rewrite app_nil_r in Hsw.
  replace (length (ds ++ replicate k 0)) with (length ds + k)%nat in Hsw
    by (rewrite length_app, length_replicate; lia).
  pose proof (Nat.div_mod_eq (length ds + k) 2) as Hdm.
  replace (length ds + k - ((length ds + k) / 2 + (length ds + k) mod 2))%nat
    with ((length ds + k) / 2)%nat by lia.
  rewrite app_assoc, Hsw by lia. ostep. exists tail.
  by rewrite rev_app_distr, rev_replicate.
Qed.

(** ** Round trip *)

Lemma lead_split bytes :
  Exists (fun x => x <> 0) bytes ->
  exists x tl, bytes = replicate (lead 0 bytes) 0 ++ x :: tl /\ x <> 0.
Proof.
  induction 1 as [x tl Hx|x tl _ IH]; cbn [lead].
  - rewrite (proj2 (Z.eqb_neq x 0)) by done. by exists x, tl.
  - destruct (Z.eqb_spec x 0) as [->|Hx]; [|by exists x, tl].
    destruct IH as (y & tl' & E & Hy). exists y, tl'. split; [|done]. cbn. by rewrite <- E.
Qed.

Lemma lead_replicate n x tl : x <> 0 -> lead 0 (replicate n 0 ++ x :: tl) = n.
Proof.
  intros Hx. induction n as [|n IH]; cbn.
  - by rewrite (proj2 (Z.eqb_neq x 0)).
  - by f_equal.
Qed.

Lemma of_digits_lead b n ds : of_digits b (rev (replicate n 0 ++ ds)) = of_digits b (rev ds).
Proof. rewrite rev_app_distr, rev_replicate, of_digits_app, of_digits_zeros. lia. Qed.

(** The text of some bytes, as digits: what [DecodeBase58] makes of it. *)
Lemma base58_back bytes ds :
  bytes_ok bytes -> Exists (fun x => x <> 0) bytes -> norm 58 ds -> of_digits 58 ds = value256 bytes ->
  let es := replicate (lead 0 bytes) 0 ++ rev ds in
  Forall digit58 es /\
  forall result, (length bytes <= length result)%nat ->
    exists rest, DecodeBase58 (alpha <$> es) result = Ret (length bytes, bytes ++ rest).
Proof.
  intros Hb Hne Hn Hv es. destruct (lead_split bytes Hne) as (x & tl & Hsplit & Hx).
  set (k := lead 0 bytes) in *.
  assert (Forall digit58 es) as Hes.
  { apply Forall_app. split; [apply Forall_replicate; unfold digit58; lia|]. apply Forall_rev, Hn. }
  split; [done|]. intros result Hcap.
  assert (bytes_ok (x :: tl)) as Hxt by (rewrite Hsplit in Hb; by apply Forall_app in Hb as [_ ?]).
  assert (norm 256 (rev (x :: tl))) as Hn2.
  { cbn [rev]. apply norm_last; [lia| |done]. change (rev tl ++ [x]) with (rev (x :: tl)). by apply Forall_rev. }
  assert (of_digits 58 ds = of_digits 256 (rev (x :: tl))) as Hval
    by (rewrite Hv, Hsplit; apply of_digits_lead).
  assert (0 < of_digits 58 ds) as Hpos.
  { rewrite Hval, of_digits_rev_cons. apply Forall_cons in Hxt as [Hx0 Htl].
    pose proof (value256_bound tl Htl). unfold value256 in *.
    assert (0 < 256 ^ Z.of_nat (length tl)) by (apply Z.pow_pos_nonneg; lia). unfold is_byte in Hx0. nia. }
  destruct (norm_positive 58 ltac:(lia) ds Hn Hpos) as (ds0 & d & -> & Hd).
  assert (lead 0 es = k) as Hlead
    by (unfold es; rewrite rev_app_distr; cbn [rev app]; by apply lead_replicate).
  assert (length bytes = k + length (x :: tl))%nat as Hlen
    by (rewrite Hsplit at 1; by rewrite length_app, length_replicate).
  destruct (DecodeBase58_ok es result (rev (x :: tl))) as (rest & E); [done|done| | |].
  - unfold value58, es. rewrite of_digits_lead, rev_involutive. lia.
  - rewrite Hlead, length_rev. lia.
  - exists rest. rewrite E, Hlead, rev_involutive, <- Hsplit, length_rev. do 2 f_equal. lia.
Qed.

Lemma cstr_app_nul s rest : Forall (fun c => c <> 0) s -> cstr (s ++ 0 :: rest) = s.
Proof.
  induction 1 as [|c s Hc _ IH]; [done|]. cbn. rewrite (proj2 (Z.eqb_neq c 0)) by done. by f_equal.
Qed.

Lemma alpha_nonzero es : Forall digit58 es -> Forall (fun c => c <> 0) (alpha <$> es).
Proof. intros H. rewrite Forall_fmap. eapply Forall_impl; [exact H|]. intros d Hd. by apply alphabet_tables. Qed.

(** The text that [EncodeBase58] produces, and its length. *)
Lemma base58_text slack bytes result :
  bytes_ok bytes -> Exists (fun x => x <> 0) bytes -> slack <> [] ->
  (lead 0 bytes + length bytes * 137 / 100 + 2 <= length result)%nat ->
  exists es out, EncodeBase58 slack bytes result = Ret (length es, out) /\ cstr out = alpha <$> es
    /\ Forall digit58 es
    /\ (forall L, lead 0 bytes = O -> 58 ^ Z.of_nat L <= value256 bytes < 58 ^ Z.of_nat (S L) -> length es = S L)
    /\ forall result', (length bytes <= length result')%nat ->
        exists rest, DecodeBase58 (alpha <$> es) result' = Ret (length bytes, bytes ++ rest).
Proof.
  intros Hb Hne Hs Hcap. assert (bytes <> []) by (by intros ->; inversion Hne).
  destruct (EncodeBase58_ok slack bytes result) as (ds & rest & Hn & Hv & E); [done..|by destruct slack; [|cbn; lia]|done|].
  destruct (base58_back bytes ds Hb Hne Hn Hv) as [Hes Hdec].
  set (es := replicate (lead 0 bytes) 0 ++ rev ds) in *.
  assert (length es = length ds + lead 0 bytes)%nat as Hl
    by (unfold es; rewrite length_app, length_replicate, length_rev; lia).
  eexists es, _. rewrite Hl. split; [done|]. split; [by apply cstr_app_nul, alpha_nonzero|].
  split; [done|]. split; [|done]. intros L -> [Hlo Hhi]. rewrite Nat.add_0_r, <- Hv in *.
  apply Nat.le_antisymm; [apply (norm_length 58); [lia|done|lia|done]|].
  destruct Hn as (Hr & _ & _). apply of_digits_bound in Hr; [|lia].
  destruct (decide (S L <= length ds)%nat); [done|exfalso].
  assert (58 ^ Z.of_nat (length ds) <= 58 ^ Z.of_nat L) by (apply Z.pow_le_mono_r; lia). lia.
Qed.

(** Base 58 round trip. For every byte string that is not all zeros,
    leading zeros included, and with room for one digit more than the source
    allocates, [EncodeBase58] succeeds, ends its output with a NUL, and
    [DecodeBase58] of the text gives back the bytes. *)
Theorem base58_roundtrip slack bytes result result' :
  bytes_ok bytes -> Exists (fun x => x <> 0) bytes -> slack <> [] ->
  (lead 0 bytes + length bytes * 137 / 100 + 2 <= length result)%nat ->
  (length bytes <= length result')%nat ->
  exists n out rest, EncodeBase58 slack bytes result = Ret (n, out) /\ length (cstr out) = n
    /\ DecodeBase58 (cstr out) result' = Ret (length bytes, bytes ++ rest).
Proof.
  intros Hb Hne Hs Hcap Hcap'.
  destruct (base58_text slack bytes result) as (es & out & E & Ec & _ & _ & Hdec); [done..|].
  destruct (Hdec result' Hcap') as (rest & Ed). exists (length es), out, rest.
  by rewrite Ec, length_fmap.
Qed.

Lemma base58_roundtrip_witness :
  exists n out rest, EncodeBase58 [0] [0; 0; 7; 255] (replicate 9 0) = Ret (n, out) /\ length (cstr out) = n
    /\ DecodeBase58 (cstr out) (replicate 4 0) = Ret (4%nat, [0; 0; 7; 255] ++ rest).
Proof.
  apply (base58_roundtrip [0] [0; 0; 7; 255] (replicate 9 0) (replicate 4 0));
    [repeat constructor; unfold is_byte; lia| |done|cbn; lia|cbn; lia].
  do 2 right. by left.
Defined.

(** ** Addresses *)

Definition payload (x : Z) (key : list Z) (c0 c1 : Z) : list Z := x :: key ++ [c0; c1].
Definition checksum (x : Z) (key : list Z) : list Z := take 2 (blake2_64 (SS58PRE ++ x :: key)).

Lemma blake2_64_ok input : length (blake2_64 input) = 64%nat /\ bytes_ok (blake2_64 input).
Proof.
  unfold blake2_64, blake2. destruct (blake2b_digest 64 input) as (d & -> & Hl & Hd); [unfold BLAKE2B_OUTBYTES; lia|].
  done.
Qed.

Lemma checksum_loads x key :
  exists h0 h1, load (blake2_64 (SS58PRE ++ x :: key)) 0 = Ret h0 /\ load (blake2_64 (SS58PRE ++ x :: key)) 1 = Ret h1
    /\ checksum x key = [h0; h1] /\ is_byte h0 /\ is_byte h1.
Proof.
  unfold checksum. destruct (blake2_64_ok (SS58PRE ++ x :: key)) as [Hl Hb].
  destruct (blake2_64 _) as [|h0 [|h1 hs]]; [done|done|].
  exists h0, h1. repeat split; try done.
  all: rewrite !Forall_cons in Hb; unfold is_byte in *; lia.
Qed.

Lemma payload_split bs : length bs = 35%nat -> exists x key c0 c1, length key = 32%nat /\ bs = payload x key c0 c1.
Proof.
  intros Hl. destruct bs as [|x bs]; [done|]. exists x, (take 32 bs). cbn in Hl.
  assert (length (drop 32 bs) = 2)%nat as Hd by (rewrite length_drop; lia).
  destruct (drop 32 bs) as [|c0 [|c1 [|]]] eqn:E; try done. exists c0, c1.
  split; [rewrite length_take; lia|]. unfold payload. by rewrite <- E, take_drop.
Qed.

Lemma payload_parts x key c0 c1 :
  length key = 32%nat ->
  take 33 (payload x key c0 c1) = x :: key /\ drop 33 (payload x key c0 c1) = [c0; c1]
  /\ take 32 (drop 1 (payload x key c0 c1)) = key.
Proof.
  intros Hk. unfold payload. cbn [drop take]. rewrite drop_0, <- Hk. by rewrite take_app_length, drop_app_length.
Qed.

(** What is looked up in the decoded bytes. *)
Lemma payload_reads x key c0 c1 rest :
  length key = 32%nat ->
  read_n (payload x key c0 c1 ++ rest) 0 33 = Ret (x :: key)
  /\ read_n (payload x key c0 c1 ++ rest) 1 32 = Ret key
  /\ load (payload x key c0 c1 ++ rest) 33 = Ret c0 /\ load (payload x key c0 c1 ++ rest) 34 = Ret c1.
Proof.
  intros Hk. unfold payload.
  assert (forall r, (x :: key ++ [c0; c1]) ++ r = (x :: key) ++ c0 :: c1 :: r) as E
    by (intros; cbn; by rewrite <- app_assoc).
  rewrite E. assert (length (x :: key) = 33%nat) as Hl by (cbn; lia).
  rewrite !read_n_ok by (rewrite length_app; cbn [length]; lia).
  rewrite drop_0, take_app_le, take_ge by lia. split; [done|].
  split; [|split; apply load_ok; rewrite lookup_app_r by lia; by rewrite Hl].
  cbn [app]. by rewrite skipn_cons, drop_0, take_app_le, take_ge by lia.
Qed.

Lemma prefixed_write x key :
  length key = 32%nat -> write_at (SS58PRE ++ replicate 33 0) 7 (x :: key) = Ret (SS58PRE ++ x :: key).
Proof.
  intros Hk. pose proof (write_at_app SS58PRE (replicate 33 0) (x :: key)) as E.
  change (length SS58PRE) with 7%nat in E. rewrite E by (cbn [length]; rewrite length_replicate; lia).
  rewrite drop_ge by (cbn [length]; rewrite length_replicate; lia). by rewrite app_nil_r.
Qed.

Lemma getPublicKeyFromAddr_payload es x key c0 c1 rest :
  length key = 32%nat ->
  DecodeBase58 (alpha <$> es) (replicate ADDRESS_LENGTH 0) = Ret (35%nat, payload x key c0 c1 ++ rest) ->
  getPublicKeyFromAddr {| symbols := alpha <$> es |}
  = if bool_decide (checksum x key = [c0; c1]) then Ret {| pk_bytes := key |}
    else Throw (ApplicationException (str "Address checksum is wrong.")).
Proof.
  intros Hk E. unfold getPublicKeyFromAddr. cbn [symbols]. rewrite E. ostep. cbn [Nat.eqb].
  destruct (payload_reads x key c0 c1 rest Hk) as (E0 & E1 & E2 & E3).
  unfold PUBLIC_KEY_LENGTH. cbn [Nat.add]. rewrite E0. ostep. rewrite prefixed_write by done. ostep.
  rewrite E2, E3. ostep. destruct (checksum_loads x key) as (h0 & h1 & -> & -> & -> & _ & _). ostep.
  rewrite E1. ostep.
  destruct (Z.eqb_spec c0 h0) as [->|H0], (Z.eqb_spec c1 h1) as [->|H1]; cbn [negb orb];
    first [by rewrite bool_decide_eq_true_2 by done | by rewrite bool_decide_eq_false_2 by congruence].
Qed.

(** Payloads that start with 11 or more take exactly 48 symbols. *)
Lemma payload_value x key c0 c1 :
  11 <= x < 256 -> length key = 32%nat -> bytes_ok key -> is_byte c0 -> is_byte c1 ->
  bytes_ok (payload x key c0 c1) /\ length (payload x key c0 c1) = 35%nat
  /\ lead 0 (payload x key c0 c1) = O /\ Exists (fun x => x <> 0) (payload x key c0 c1)
  /\ 58 ^ 47 <= value256 (payload x key c0 c1) < 58 ^ 48.
Proof.
  intros Hx Hk Hkey H0 H1. unfold payload.
  assert (bytes_ok (key ++ [c0; c1])) as Htl by (apply Forall_app; auto).
  assert (length (key ++ [c0; c1]) = 34%nat) as Hl by (rewrite length_app; cbn; lia).
  split; [constructor; [unfold is_byte; lia|done]|]. split; [cbn [length]; lia|].
  split; [cbn [lead]; by rewrite (proj2 (Z.eqb_neq x 0)) by lia|]. split; [left; lia|].
  unfold value256. rewrite of_digits_rev_cons, Hl. pose proof (value256_bound _ Htl) as Hv.
  unfold value256 in Hv. rewrite Hl in Hv. change (Z.of_nat 34) with 34 in *.
  assert (58 ^ 47 <= 256 ^ 34 * 11) by (vm_compute; discriminate).
  assert (256 ^ 34 * 256 <= 58 ^ 48) by (vm_compute; discriminate). nia.
Qed.

Definition addrCh : list Z := replicate 1024 0.

Lemma encode_payload slack x key c0 c1 :
  slack <> [] -> 11 <= x < 256 -> length key = 32%nat -> bytes_ok key -> is_byte c0 -> is_byte c1 ->
  exists es out, EncodeBase58 slack (payload x key c0 c1) addrCh = Ret (48%nat, out)
    /\ cstr out = alpha <$> es /\ length es = 48%nat /\ Forall digit58 es
    /\ getPublicKeyFromAddr {| symbols := alpha <$> es |}
      = if bool_decide (checksum x key = [c0; c1]) then Ret {| pk_bytes := key |}
        else Throw (ApplicationException (str "Address checksum is wrong.")).
Proof.
  intros Hs Hx Hk Hkey H0 H1.
  destruct (payload_value x key c0 c1) as (Hb & Hl & Hlead & Hne & Hv); [done..|].
  destruct (base58_text slack (payload x key c0 c1) addrCh) as (es & out & E & Ec & Hes & HL & Hdec); [done..| |].
  { rewrite Hlead, Hl. unfold addrCh. rewrite length_replicate. vm_compute. lia. }
  assert (length es = 48%nat) as Hes48 by (by apply (HL 47%nat)).
  destruct (Hdec (replicate ADDRESS_LENGTH 0)) as (rest & Ed).
  { rewrite Hl, length_replicate. unfold ADDRESS_LENGTH. lia. }
  rewrite Hl in Ed. exists es, out. rewrite E, Hes48.
  by rewrite (getPublicKeyFromAddr_payload es x key c0 c1 rest).
Qed.

(** The overload for strings reads exactly the 48 symbols of such an address. *)
Lemma getPublicKey_string_48 s :
  length s = 48%nat -> getPublicKeyFromAddr_string s = getPublicKeyFromAddr {| symbols := s |}.
Proof.
  intros Hs. unfold getPublicKeyFromAddr_string, getPublicKeyFromAddr_chars, ADDRESS_LENGTH.
  rewrite read_n_ok by (rewrite length_app; cbn; lia). ostep. by rewrite drop_0, take_app_le, take_ge by lia.
Qed.

(** [getAddrFromPublicKey] is [EncodeBase58] of the key with its prefix and checksum. *)
Lemma getAddr_encodes slack key :
  length key = 32%nat -> exists h0 h1, checksum 0x2A key = [h0; h1] /\ is_byte h0 /\ is_byte h1 /\
  getAddrFromPublicKey slack {| pk_bytes := key |}
  = '(_, out) ← EncodeBase58 slack (payload 0x2A key h0 h1) addrCh; Ret (cstr out).
Proof.
  intros Hk. destruct (checksum_loads 0x2A key) as (h0 & h1 & E0 & E1 & Ec & Hb0 & Hb1).
  exists h0, h1. split; [done|]. split; [done|]. split; [done|].
  unfold getAddrFromPublicKey. cbn [pk_bytes]. unfold SR25519_PUBLIC_SIZE, PUBLIC_KEY_LENGTH.
  rewrite read_n_ok by lia. ostep. rewrite drop_0, take_ge by lia.
  pose proof (write_at_app [0x2A] (replicate 1023 0) key) as Ew. rewrite Hk, length_replicate in Ew.
  cbn [length app] in Ew. rewrite Ew by lia. ostep. clear Ew.
  change (drop 32 (replicate 1023 0)) with (0 :: 0 :: replicate 989 0).
  change (0x2A :: key ++ 0 :: 0 :: replicate 989 0) with ((0x2A :: key) ++ 0 :: 0 :: replicate 989 0).
  assert (length (0x2A :: key) = 33%nat) as Hl by (cbn; lia). cbn [Nat.add].
  rewrite read_n_ok by (rewrite length_app; lia). ostep. rewrite drop_0, take_app_le, take_ge by lia.
  rewrite prefixed_write by done. ostep. rewrite E0, E1. ostep.
  pose proof (store_app (0x2A :: key) (0 :: replicate 989 0) h0 0) as Es. rewrite Hl in Es. rewrite Es. ostep.
  rewrite snoc_app. pose proof (store_app ((0x2A :: key) ++ [h0]) (replicate 989 0) h1 0) as Es1.
  rewrite length_snoc, Hl in Es1. rewrite Es1. ostep. rewrite snoc_app.
  assert (((0x2A :: key) ++ [h0]) ++ [h1] = payload 0x2A key h0 h1) as ->
    by (unfold payload; cbn; by rewrite <- app_assoc).
  assert (length (payload 0x2A key h0 h1) = 35%nat) as Hp
    by (unfold payload; cbn [length]; rewrite length_app; cbn; lia).
  rewrite read_n_ok by (rewrite length_app; lia). ostep. by rewrite drop_0, take_app_le, take_ge by lia.
Qed.

(** A key used by the repository's address tests. *)
Definition test_key : list Z :=
  [0xa6;0x73;0xc8;0x14;0xfa;0xab;0xab;0x0f;0x81;0xf2;0x83;0x7d;0x79;0xdf;0x6a;0xca;
   0x04;0x4d;0xf1;0x2b;0xa9;0xb7;0x27;0x11;0x0f;0xeb;0xf9;0x5b;0xff;0x2d;0x0c;0x01].

Lemma test_key_ok : bytes_ok test_key.
Proof. forall_list ltac:(unfold is_byte; lia). Qed.

Example test_address : getAddrFromPublicKey [0] {| pk_bytes := test_key |}
  = Ret (str "5FpxCaAovn3t2sTsbBeT5pWTj2rg392E8QoduwAyENcPrKht").
Proof. vm_compute. reflexivity. Qed.

Example test_bad_checksum :
  getPublicKeyFromAddr_string (str "5FpxCaAovn3t2sTsbBeT5pWTj2rg392E8QoduwAyENcPrKhu")
  = Throw (ApplicationException (str "Address checksum is wrong.")).
Proof. vm_compute. reflexivity. Qed.

Lemma getAddr_ok slack key :
  slack <> [] -> length key = 32%nat -> bytes_ok key ->
  exists addr, getAddrFromPublicKey slack {| pk_bytes := key |} = Ret addr
    /\ length addr = ADDRESS_LENGTH /\ Forall (fun c => c ∈ ALPHABET) addr
    /\ getPublicKeyFromAddr_string addr = Ret {| pk_bytes := key |}.
Proof.
  intros Hs Hk Hkey. destruct (getAddr_encodes slack key Hk) as (h0 & h1 & Ec & H0 & H1 & ->).
  destruct (encode_payload slack 0x2A key h0 h1) as (es & out & -> & Eo & Hl & Hes & Eg); [done|lia|done..|].
  ostep. exists (cstr out). rewrite Eo, length_fmap, Hl. split; [done|]. split; [done|]. split.
  - apply Forall_fmap. eapply Forall_impl; [exact Hes|]. intros d Hd. cbn.
    destruct (alphabet_tables d Hd) as (E & _). unfold load in E.
    destruct (ALPHABET !! _) eqn:El; [|done]. injection E as <-. by eapply list_elem_of_lookup_2.
  - rewrite getPublicKey_string_48 by (rewrite length_fmap; lia). rewrite Eg.
    by rewrite bool_decide_eq_true_2.
Qed.

(** C7: address round trip. For every public key of 32 bytes, when the digits
    block has at least one accessible byte more than was requested,
    [getAddrFromPublicKey] produces an address of exactly 48 symbols of the
    alphabet, and [getPublicKeyFromAddr] of it returns the key. *)
Theorem address_roundtrip slack key :
  slack <> [] -> length key = 32%nat -> bytes_ok key ->
  exists addr, getAddrFromPublicKey slack {| pk_bytes := key |} = Ret addr
    /\ length addr = ADDRESS_LENGTH /\ Forall (fun c => c ∈ ALPHABET) addr
    /\ getPublicKeyFromAddr_string addr = Ret {| pk_bytes := key |}.
Proof. apply getAddr_ok. Qed.

Lemma address_roundtrip_witness :
  exists addr, getAddrFromPublicKey [0] {| pk_bytes := test_key |} = Ret addr
    /\ length addr = ADDRESS_LENGTH /\ Forall (fun c => c ∈ ALPHABET) addr
    /\ getPublicKeyFromAddr_string addr = Ret {| pk_bytes := test_key |}.
Proof. apply (address_roundtrip [0] test_key); [done|reflexivity|apply test_key_ok]. Defined.

(** *** The bytes of a text, and what becomes of every text of 48 symbols *)

(** The bytes that a text in base 58 stands for: a zero for each leading '1', then
    its number in base 256. *)
Definition base58_bytes (es : list Z) : list Z :=
  replicate (lead 0 es) 0 ++ rev (le_bytes (byte_length (value58 es)) (value58 es)).

Lemma norm_le_bytes n : 0 < n -> norm 256 (le_bytes (byte_length n) n) /\ of_digits 256 (le_bytes (byte_length n) n) = n.
Proof.
  intros Hn. pose proof (byte_length_spec n Hn) as Hv.
  assert (of_digits 256 (le_bytes (byte_length n) n) = n) as E by (apply of_le_bytes; lia).
  assert (byte_length n <> O) as Hl by (unfold byte_length; pose proof (Z.log2_nonneg n); pose proof (Z.div_pos (Z.log2 n) 8); lia).
  split; [|done]. split; [apply le_bytes_ok|]. rewrite length_le_bytes, E. split; [|right; lia].
  intros H0. apply Hl. by rewrite <- (length_le_bytes (byte_length n) n), H0.
Qed.

Lemma value58_zero es : Forall digit58 es -> value58 es = 0 -> es = replicate (length es) 0.
Proof.
  intros Hes. unfold value58. induction Hes as [|e es He Hes IH]; [done|]. rewrite of_digits_rev_cons. intros Hv.
  pose proof (of_digits_bound 58 ltac:(lia) (rev es) (Forall_rev Hes)) as Hb. unfold digit58 in He.
  assert (0 < 58 ^ Z.of_nat (length es)) by (apply Z.pow_pos_nonneg; lia).
  cbn [length replicate]. f_equal; [nia|]. apply IH. nia.
Qed.

Lemma value58_positive es : Forall digit58 es -> value58 es <> 0 -> Exists (fun e => e <> 0) es /\ 0 < value58 es.
Proof.
  intros Hes Hv. pose proof (of_digits_bound 58 ltac:(lia) (rev es) (Forall_rev Hes)) as Hb. split; [|unfold value58 in *; lia].
  clear Hb. induction Hes as [|e es He Hes IH]; [done|]. destruct (decide (e = 0)) as [->|]; [right|by left].
  apply IH. intros H0. apply Hv. unfold value58 in *. rewrite of_digits_rev_cons. lia.
Qed.

(** The number of the digits after the leading zeros bounds the number of the bytes. *)
Lemma base58_fits es :
  Forall digit58 es -> value58 es <> 0 -> (lead 0 es + byte_length (value58 es) <= length es)%nat.
Proof.
  intros Hes Hv. destruct (value58_positive es Hes Hv) as [Hex Hpos].
  destruct (lead_split es Hex) as (x & tl & Hsplit & Hx). set (k := lead 0 es) in *.
  assert (value58 es = of_digits 58 (rev (x :: tl))) as E by (unfold value58; rewrite Hsplit at 1; apply of_digits_lead).
  assert (length es = k + length (x :: tl))%nat as -> by (rewrite Hsplit at 1; by rewrite length_app, length_replicate).
  assert (Forall digit58 (x :: tl)) as Hxt by (rewrite Hsplit in Hes; by apply Forall_app in Hes as [_ ?]).
  pose proof (of_digits_bound 58 ltac:(lia) _ (Forall_rev Hxt)) as Hb. rewrite <- E, length_rev in Hb.
  assert (58 ^ Z.of_nat (length (x :: tl)) <= 256 ^ Z.of_nat (length (x :: tl))) by (apply Z.pow_le_mono_l; lia).
  assert (byte_length (value58 es) <= length (x :: tl))%nat; [|lia].
  apply (byte_length_bounds _ 0). change (256 ^ Z.of_nat 0) with 1. lia.
Qed.

(** The bytes are the only ones with the number and the leading zeros of the text. *)
Lemma base58_bytes_spec es :
  Forall digit58 es -> value58 es <> 0 ->
  bytes_ok (base58_bytes es) /\ value256 (base58_bytes es) = value58 es /\ lead 0 (base58_bytes es) = lead 0 es.
Proof.
  intros Hes Hv. destruct (value58_positive es Hes Hv) as [_ Hpos]. destruct (norm_le_bytes _ Hpos) as [Hn E].
  unfold base58_bytes. split; [|split].
  - apply Forall_app. split; [apply Forall_replicate; unfold is_byte; lia|apply Forall_rev, le_bytes_ok].
  - unfold value256. by rewrite of_digits_lead, rev_involutive.
  - destruct (norm_positive 256 ltac:(lia) _ Hn) as (ds & d & -> & Hd); [lia|]. rewrite rev_app_distr. by apply lead_replicate.
Qed.

Lemma DecodeBase58_bytes es result :
  Forall digit58 es -> value58 es <> 0 -> (length es <= length result)%nat ->
  exists rest, DecodeBase58 (alpha <$> es) result = Ret (length (base58_bytes es), base58_bytes es ++ rest).
Proof.
  intros Hes Hv Hl. destruct (value58_positive es Hes Hv) as [_ Hpos]. destruct (norm_le_bytes _ Hpos) as [Hn E].
  pose proof (base58_fits es Hes Hv).
  destruct (DecodeBase58_ok es result _ Hes Hn E) as (rest & Ed); [rewrite length_le_bytes; lia|].
  exists rest. rewrite Ed. unfold base58_bytes. rewrite length_app, length_replicate, length_rev, length_le_bytes.
  do 2 f_equal. lia.
Qed.

(** C34: the checksum, for every text of 48 symbols of base 58. The text stands for
    the bytes with its number in base 256 and as many leading zeros as it has leading
    '1's. If they are 35 bytes, network byte, key and two checksum bytes, the key is
    returned exactly when the last two are the first two of the BLAKE2b hash of
    ["SS58PRE"] and the first 33, and otherwise "Address checksum is wrong." is
    thrown. If there are more or fewer bytes, nothing is checked and nothing thrown:
    the key of zeros is returned. The text of 48 '1's, which stands for no number
    but zero, is written past the end of the decoder's buffer. *)
Theorem address_checksum_enforced es :
  Forall digit58 es -> length es = ADDRESS_LENGTH ->
  (value58 es <> 0 -> bytes_ok (base58_bytes es) /\ value256 (base58_bytes es) = value58 es
                      /\ lead 0 (base58_bytes es) = lead 0 es)
  /\ getPublicKeyFromAddr_string (alpha <$> es)
    = let bytes := base58_bytes es in
      if value58 es =? 0 then UB
      else if negb (length bytes =? 35)%nat then Ret {| pk_bytes := replicate PUBLIC_KEY_LENGTH 0 |}
      else if bool_decide (take 2 (blake2_64 (SS58PRE ++ take 33 bytes)) = drop 33 bytes)
           then Ret {| pk_bytes := take 32 (drop 1 bytes) |}
           else Throw (ApplicationException (str "Address checksum is wrong.")).
Proof.
  intros Hes Hl. split; [by apply base58_bytes_spec|]. cbv zeta.
  rewrite getPublicKey_string_48 by (by rewrite length_fmap). destruct (Z.eqb_spec (value58 es) 0) as [H0|Hv].
  { rewrite (value58_zero es Hes H0), Hl. vm_compute. reflexivity. }
  destruct (DecodeBase58_bytes es (replicate ADDRESS_LENGTH 0) Hes Hv) as (rest & Ed); [rewrite length_replicate; lia|].
  destruct (Nat.eqb_spec (length (base58_bytes es)) 35) as [H35|H35]; cbn [negb].
  2:{ unfold getPublicKeyFromAddr. cbn [symbols]. rewrite Ed. ostep. by rewrite (proj2 (Nat.eqb_neq _ _) H35). }
  rewrite H35 in Ed. destruct (payload_split _ H35) as (x & key & c0 & c1 & Hk & Ep). rewrite Ep in *.
  rewrite (getPublicKeyFromAddr_payload es x key c0 c1 rest Hk Ed).
  destruct (payload_parts x key c0 c1 Hk) as (-> & -> & ->). done.
Qed.

Lemma address_checksum_enforced_witness :
  getPublicKeyFromAddr_string (alpha <$> replicate 48 57) = Ret {| pk_bytes := replicate 32 0 |}
  /\ getPublicKeyFromAddr_string (alpha <$> replicate 47 20 ++ [0]) = Throw (ApplicationException (str "Address checksum is wrong.")).
Proof.
  split.
  - destruct (address_checksum_enforced (replicate 48 57)) as [_ E]; [apply Forall_replicate; unfold digit58; lia|reflexivity|].
    etransitivity; [exact E|]. vm_compute. reflexivity.
  - destruct (address_checksum_enforced (replicate 47 20 ++ [0])) as [_ E];
      [apply Forall_app; split; [apply Forall_replicate|apply Forall_singleton]; unfold digit58; lia|reflexivity|].
    etransitivity; [exact E|]. vm_compute. reflexivity.
Defined.

(** The digits buffer is one byte short. With the [len * 137 / 100] bytes that
    [EncodeBase58] allocates, and nothing after them, writing the address of any
    public key runs past the end of the block. *)
Theorem address_digits_overflow key :
  length key = 32%nat -> bytes_ok key -> getAddrFromPublicKey [] {| pk_bytes := key |} = UB.
Proof.
  intros Hk Hkey. destruct (getAddr_encodes [] key Hk) as (h0 & h1 & _ & H0 & H1 & ->).
  destruct (payload_value 0x2A key h0 h1) as (Hb & Hl & _ & Hne & Hv); [lia|done..|].
  rewrite EncodeBase58_ub; [done|done|discriminate|]. rewrite Hl. change (Z.of_nat (35 * 137 / 100)) with 47. apply Hv.
Qed.

Lemma address_digits_overflow_witness : getAddrFromPublicKey [] {| pk_bytes := test_key |} = UB.
Proof. apply (address_digits_overflow test_key); [reflexivity|apply test_key_ok]. Defined.

(** The all-'1' text makes the decoder write past its 48 bytes. *)
Example ones_overflow : getPublicKeyFromAddr_string (replicate 48 49) = UB.
Proof. vm_compute. reflexivity. Qed.

(** ... and all-zero bytes do not survive a round trip. *)
Example zeros_no_roundtrip :
  ('(n, out) ← EncodeBase58 [0] [0] (replicate 8 0); DecodeBase58 (cstr out) (replicate 8 7))
  = Ret (3%nat, [0; 0; 0; 7; 7; 7; 7; 7]).
Proof. vm_compute. reflexivity. Qed.
