(* ===== verification/Json.v ===== *)
(** JSON values, their printer and their parser: [src/libs/json11/json11.cpp].

    A [Json] is the value that its shared pointer refers to; values are
    immutable, so sharing is not observable. An object is a [std::map]: the list
    of its members in increasing order of the keys. The parser keeps the text
    from the current position on; [str[size]] reads as NUL, as [std::string]
    promises. Its [failed] flag is the error result, which carries the first
    message. *)
From S2P Require Import Prelude.

(** What the code uses of the floating-point library: reading a numeral, testing
    for a finite value, printing with 17 significant digits, and the conversion to [int] (undefined
    when the value does not fit). *)
Class Doubles := {
  double : Type;
  strtod : list Z -> double;
  isfinite : double -> bool;
  print_17g : double -> list Z;
  double_to_int : double -> option Z;
}.

#[warnings="-register-all"]
Inductive Json `{Doubles} : Type :=
| JNull
| JInt (value : Z)
| JDouble (value : double)
| JBool (value : bool)
| JString (value : list Z)
| JArray (items : list Json)
| JObject (members : list (list Z * Json)).

(** [STANDARD] text, or text with C-style comments. *)
Inductive JsonParse := STANDARD | COMMENTS.

Section json.
Context `{D : Doubles} (strategy : JsonParse).

(** ** Accessors: a default value when the type does not match *)

Definition is_null (j : Json) : bool := match j with JNull => true | _ => false end.

Definition int_value (j : Json) : outcome Z :=
  match j with
  | JInt z => Ret z
  | JDouble d => match double_to_int d with Some z => Ret z | None => UB end
  | _ => Ret 0
  end.

Definition bool_value (j : Json) : bool := match j with JBool b => b | _ => false end.
Definition string_value (j : Json) : list Z := match j with JString s => s | _ => [] end.
Definition array_items (j : Json) : list Json := match j with JArray l => l | _ => [] end.
Definition object_items (j : Json) : list (list Z * Json) := match j with JObject m => m | _ => [] end.

Definition at_index (j : Json) (i : nat) : Json :=
  match j with JArray l => default JNull (l !! i) | _ => JNull end.

Definition at_key (j : Json) (key : list Z) : Json :=
  match j with JObject m => default JNull (map_find key m) | _ => JNull end.

(** ** Printing *)

(** ["%d"] *)
Definition dec_digit (d : Z) : Z := 48 + d.

Fixpoint dec_digits (fuel : nat) (n : Z) (acc : list Z) : list Z :=
  match fuel with
  | O => acc
  | S fuel' =>
      if n <? 10 then dec_digit n :: acc
      else dec_digits fuel' (n / 10) (dec_digit (n mod 10) :: acc)
  end.

Definition print_d (z : Z) : list Z :=
  if z <? 0 then 45 :: dec_digits 20 (- z) [] else dec_digits 20 z [].

(** ["%04x"] of a character below 0x20 *)
Definition lower_hex (d : Z) : Z := if d <? 10 then 48 + d else 87 + d.
Definition print_04x (c : Z) : list Z := [48; 48; lower_hex (c / 16); lower_hex (c mod 16)].

Fixpoint dump_chars (value : list Z) : list Z :=
  match value with
  | [] => []
  | ch :: rest =>
      if ch =? 92 then 92 :: 92 :: dump_chars rest
      else if ch =? 34 then 92 :: 34 :: dump_chars rest
      else if ch =? 8 then 92 :: 98 :: dump_chars rest
      else if ch =? 12 then 92 :: 102 :: dump_chars rest
      else if ch =? 10 then 92 :: 110 :: dump_chars rest
      else if ch =? 13 then 92 :: 114 :: dump_chars rest
      else if ch =? 9 then 92 :: 116 :: dump_chars rest
      else if ch <=? 0x1f then 92 :: 117 :: print_04x ch ++ dump_chars rest
      else
        match rest with
        | c1 :: c2 :: rest' =>
            if (ch =? 0xe2) && (c1 =? 0x80) && (c2 =? 0xa8) then str "\u2028" ++ dump_chars rest'
            else if (ch =? 0xe2) && (c1 =? 0x80) && (c2 =? 0xa9) then str "\u2029" ++ dump_chars rest'
            else ch :: dump_chars rest
        | _ => ch :: dump_chars rest
        end
  end.

Definition dump_string (value : list Z) : list Z := 34 :: dump_chars value ++ [34].

Fixpoint commas (items : list (list Z)) : list Z :=
  match items with
  | [] => []
  | [x] => x
  | x :: items' => x ++ 44 :: 32 :: commas items'
  end.

Fixpoint dump (j : Json) : list Z :=
  match j with
  | JNull => str "null"
  | JInt z => print_d z
  | JDouble d => if isfinite d then print_17g d else str "null"
  | JBool b => if b then str "true" else str "false"
  | JString s => dump_string s
  | JArray l => 91 :: commas (map dump l) ++ [93]
  | JObject m => 123 :: commas (map (fun kv => dump_string kv.1 ++ 58 :: 32 :: dump kv.2) m) ++ [125]
  end.

(** ** Parsing *)

(** [POut]: the fuel of the model ran out; [json_parse_total] shows it never does. *)
Inductive presult (A : Type) : Type :=
| POk (a : A) (rest : list Z)
| PFail (msg : list Z)
| POut.
Arguments POk {A} a rest.
Arguments PFail {A} msg.
Arguments POut {A}.

Definition pbind {A B} (m : presult A) (f : A -> list Z -> presult B) : presult B :=
  match m with
  | POk a rest => f a rest
  | PFail msg => PFail msg
  | POut => POut
  end.

Definition max_depth : Z := 200.

(** [str[i]] *)
Definition cur (s : list Z) : Z := match s with c :: _ => c | [] => 0 end.

Definition in_range (x lower upper : Z) : bool := (lower <=? x) && (x <=? upper).

Definition esc (c : Z) : list Z :=
  if (0x20 <=? c) && (c <=? 0x7f)
  then 39 :: c :: 39 :: 32 :: 40 :: print_d (swrap 8 c) ++ [41]
  else 40 :: print_d (swrap 8 c) ++ [41].

Fixpoint consume_whitespace (s : list Z) : list Z :=
  match s with
  | c :: s' => if (c =? 32) || (c =? 13) || (c =? 10) || (c =? 9) then consume_whitespace s' else s
  | [] => []
  end.

(** [while (i < str.size() && str[i] != '\n') i++] *)
Fixpoint skip_line (s : list Z) : list Z :=
  match s with
  | c :: s' => if c =? 10 then s else skip_line s'
  | [] => []
  end.

(** The loop of a multi-line comment; fewer than two characters left are an error. *)
Fixpoint skip_block (s : list Z) : presult unit :=
  match s with
  | c :: (d :: r) as s' => if (c =? 42) && (d =? 47) then POk tt r else skip_block s'
  | _ => PFail (str "unexpected end of input inside multi-line comment")
  end.

Definition consume_comment (s : list Z) : presult bool :=
  if cur s =? 47 then
    match tail s with
    | [] => PFail (str "unexpected end of input after start of comment")
    | c :: s' =>
        if c =? 47 then POk true (skip_line s')
        else if c =? 42 then pbind (skip_block s') (fun _ r => POk true r)
        else PFail (str "malformed comment")
    end
  else POk false s.

(** The [do ... while (comment_found)]; every comment is two characters at least. *)
Fixpoint consume_comments (fuel : nat) (s : list Z) : presult unit :=
  match fuel with
  | O => POut
  | S fuel' =>
      pbind (consume_comment s) (fun comment_found r =>
        let r := consume_whitespace r in
        if comment_found then consume_comments fuel' r else POk tt r)
  end.

Definition consume_garbage (s : list Z) : presult unit :=
  let s := consume_whitespace s in
  match strategy with
  | STANDARD => POk tt s
  | COMMENTS => consume_comments (S (length s)) s
  end.

Definition get_next_token (s : list Z) : presult Z :=
  pbind (consume_garbage s) (fun _ r =>
    match r with
    | [] => PFail (str "unexpected end of input")
    | c :: s' => POk c s'
    end).

Definition encode_utf8 (pt : Z) : list Z :=
  if pt <? 0 then []
  else if pt <? 0x80 then [pt]
  else if pt <? 0x800 then [u8 (Z.lor (Z.shiftr pt 6) 0xC0); u8 (Z.lor (Z.land pt 0x3F) 0x80)]
  else if pt <? 0x10000 then
    [u8 (Z.lor (Z.shiftr pt 12) 0xE0); u8 (Z.lor (Z.land (Z.shiftr pt 6) 0x3F) 0x80);
     u8 (Z.lor (Z.land pt 0x3F) 0x80)]
  else
    [u8 (Z.lor (Z.shiftr pt 18) 0xF0); u8 (Z.lor (Z.land (Z.shiftr pt 12) 0x3F) 0x80);
     u8 (Z.lor (Z.land (Z.shiftr pt 6) 0x3F) 0x80); u8 (Z.lor (Z.land pt 0x3F) 0x80)].

(** The character that a one-letter escape stands for. *)
Definition unescape (ch : Z) : option Z :=
  if ch =? 98 then Some 8
  else if ch =? 102 then Some 12
  else if ch =? 110 then Some 10
  else if ch =? 114 then Some 13
  else if ch =? 116 then Some 9
  else if (ch =? 34) || (ch =? 92) || (ch =? 47) then Some ch
  else None.

Definition is_hex (c : Z) : bool := in_range c 97 102 || in_range c 65 70 || in_range c 48 57.

(** The [while (true)] of [parse_string]; every round consumes a character. *)
Fixpoint parse_string_loop (fuel : nat) (last : Z) (out : list Z) (s : list Z) : presult (list Z) :=
  match fuel with
  | O => POut
  | S fuel' =>
      match s with
      | [] => PFail (str "unexpected end of input in string")
      | ch :: s1 =>
          if ch =? 34 then POk (out ++ encode_utf8 last) s1
          else if in_range ch 0 0x1f then PFail (str "unescaped " ++ esc ch ++ str " in string")
          else if negb (ch =? 92) then parse_string_loop fuel' (-1) (out ++ encode_utf8 last ++ [ch]) s1
          else
            match s1 with
            | [] => PFail (str "unexpected end of input in string")
            | ch' :: s2 =>
                if ch' =? 117 then
                  let e := take 4 s2 in
                  if (length e <? 4)%nat then PFail (str "bad \u escape: " ++ e)
                  else if negb (forallb is_hex e) then PFail (str "bad \u escape: " ++ e)
                  else
                    let codepoint := hex_prefix_value e 0 in
                    if in_range last 0xD800 0xDBFF && in_range codepoint 0xDC00 0xDFFF
                    then parse_string_loop fuel' (-1)
                           (out ++ encode_utf8 (Z.lor (Z.shiftl (last - 0xD800) 10) (codepoint - 0xDC00) + 0x10000))
                           (drop 4 s2)
                    else parse_string_loop fuel' codepoint (out ++ encode_utf8 last) (drop 4 s2)
                else
                  match unescape ch' with
                  | Some c => parse_string_loop fuel' (-1) (out ++ encode_utf8 last ++ [c]) s2
                  | None => PFail (str "invalid escape character " ++ esc ch')
                  end
            end
      end
  end.

Definition parse_string (s : list Z) : presult (list Z) := parse_string_loop (S (length s)) (-1) [] s.

(** [while (in_range(str[i], '0', '9')) i++] *)
Fixpoint skip_digits (s : list Z) : list Z :=
  match s with
  | c :: s' => if in_range c 48 57 then skip_digits s' else s
  | [] => []
  end.

Definition is_num_tail (c : Z) : bool := (c =? 46) || (c =? 101) || (c =? 69).

(** [std::atoi] of a numeral: an optional minus sign and digits. *)
Fixpoint digits_value (s : list Z) (acc : Z) : Z :=
  match s with
  | c :: s' => if in_range c 48 57 then digits_value s' (10 * acc + (c - 48)) else acc
  | [] => acc
  end.
Definition atoi (s : list Z) : Z :=
  if cur s =? 45 then - digits_value (tail s) 0 else digits_value s 0.

Definition parse_number (s0 : list Z) : presult Json :=
  let s := if cur s0 =? 45 then tail s0 else s0 in
  pbind
    (if cur s =? 48 then
       let s1 := tail s in
       if in_range (cur s1) 48 57 then PFail (str "leading 0s not permitted in numbers") else POk tt s1
     else if in_range (cur s) 49 57 then POk tt (skip_digits (tail s))
     else PFail (str "invalid " ++ esc (cur s) ++ str " in number"))
  (fun _ s =>
    if negb (is_num_tail (cur s)) && (length s0 - length s <=? 9)%nat then POk (JInt (atoi s0)) s
    else
      pbind
        (if cur s =? 46 then
           if negb (in_range (cur (tail s)) 48 57)
           then PFail (str "at least one digit required in fractional part")
           else POk tt (skip_digits (tail s))
         else POk tt s)
      (fun _ s =>
        pbind
          (if (cur s =? 101) || (cur s =? 69) then
             let s1 := tail s in
             let s2 := if (cur s1 =? 43) || (cur s1 =? 45) then tail s1 else s1 in
             if negb (in_range (cur s2) 48 57)
             then PFail (str "at least one digit required in exponent")
             else POk tt (skip_digits s2)
           else POk tt s)
        (fun _ s => POk (JDouble (strtod (take (length s0 - length s) s0))) s))).

Definition expect (expected : list Z) (res : Json) (s : list Z) : presult Json :=
  if bool_decide (take (length expected) s = expected) then POk res (drop (length expected) s)
  else PFail (str "parse error: expected " ++ expected ++ str ", got " ++ take (length expected) s).

Fixpoint parse_json (fuel : nat) (depth : Z) (s : list Z) {struct fuel} : presult Json :=
  match fuel with
  | O => POut
  | S fuel' =>
      if max_depth <? depth then PFail (str "exceeded maximum nesting depth")
      else
        pbind (get_next_token s) (fun ch rest =>
          if (ch =? 45) || ((48 <=? ch) && (ch <=? 57)) then parse_number (ch :: rest)
          else if ch =? 116 then expect (str "true") (JBool true) (ch :: rest)
          else if ch =? 102 then expect (str "false") (JBool false) (ch :: rest)
          else if ch =? 110 then expect (str "null") JNull (ch :: rest)
          else if ch =? 34 then pbind (parse_string rest) (fun v r => POk (JString v) r)
          else if ch =? 123 then
            pbind (get_next_token rest) (fun ch r =>
              if ch =? 125 then POk (JObject []) r else parse_members fuel' depth ch [] r)
          else if ch =? 91 then
            pbind (get_next_token rest) (fun ch r =>
              if ch =? 93 then POk (JArray []) r else parse_elements fuel' depth [] (ch :: r))
          else PFail (str "expected value, got " ++ esc ch))
  end
with parse_members (fuel : nat) (depth ch : Z) (data : list (list Z * Json)) (s : list Z)
    {struct fuel} : presult Json :=
  match fuel with
  | O => POut
  | S fuel' =>
      if negb (ch =? 34) then PFail (str "expected '" ++ [34] ++ str "' in object, got " ++ esc ch)
      else
        pbind (parse_string s) (fun key r =>
        pbind (get_next_token r) (fun ch r =>
          if negb (ch =? 58) then PFail (str "expected ':' in object, got " ++ esc ch)
          else
            pbind (parse_json fuel' (depth + 1) r) (fun v r =>
            let data := map_set key v data in
            pbind (get_next_token r) (fun ch r =>
              if ch =? 125 then POk (JObject data) r
              else if negb (ch =? 44) then PFail (str "expected ',' in object, got " ++ esc ch)
              else pbind (get_next_token r) (fun ch r => parse_members fuel' depth ch data r)))))
  end
with parse_elements (fuel : nat) (depth : Z) (data : list Json) (s : list Z) {struct fuel} : presult Json :=
  match fuel with
  | O => POut
  | S fuel' =>
      pbind (parse_json fuel' (depth + 1) s) (fun v r =>
      let data := data ++ [v] in
      pbind (get_next_token r) (fun ch r =>
        if ch =? 93 then POk (JArray data) r
        else if negb (ch =? 44) then PFail (str "expected ',' in list, got " ++ esc ch)
        else pbind (get_next_token r) (fun ch r => parse_elements fuel' depth data (ch :: r))))
  end.

(** Two rounds of fuel per character suffice: a value and its list step. *)
Definition parse (inp : list Z) : presult Json :=
  pbind (parse_json (2 * length inp + 2) 0 inp) (fun result rest =>
  pbind (consume_garbage rest) (fun _ rest =>
    match rest with
    | [] => POk result []
    | c :: _ => PFail (str "unexpected trailing " ++ esc c)
    end)).

(** ** Induction on values *)

Section ind.
Context (P : Json -> Prop).
Hypothesis Hnull : P JNull.
Hypothesis Hint : forall z, P (JInt z).
Hypothesis Hdouble : forall d, P (JDouble d).
Hypothesis Hbool : forall b, P (JBool b).
Hypothesis Hstring : forall s, P (JString s).
Hypothesis Harray : forall l, Forall P l -> P (JArray l).
Hypothesis Hobject : forall m, Forall (fun kv => P kv.2) m -> P (JObject m).

Lemma Json_nested_ind : forall j, P j.
Proof using Hnull Hint Hdouble Hbool Hstring Harray Hobject.
  fix F 1. intros [|z|d|b|s|l|m]; [done|done|done|done|done| |].
  - apply Harray. induction l as [|x l IH]; constructor; [apply F|done].
  - apply Hobject. induction m as [|[k v] m IH]; constructor; [apply F|done].
Qed.
End ind.

(** ** Consumption: every step of the parser shortens the text *)

Definition shorter {A} (m : presult A) (s : list Z) : Prop :=
  match m with POk _ r => (length r < length s)%nat | PFail _ => True | POut => False end.
Definition not_longer {A} (m : presult A) (s : list Z) : Prop :=
  match m with POk _ r => (length r <= length s)%nat | PFail _ => True | POut => False end.

Lemma shorter_bind {A B} (m : presult A) (f : A -> list Z -> presult B) s :
  shorter m s -> (forall a r, (length r < length s)%nat -> not_longer (f a r) r) -> shorter (pbind m f) s.
Proof.
  intros Hm Hf. destruct m as [a r|msg|]; cbn in *; [|done|done].
  specialize (Hf a r Hm). destruct (f a r); cbn in *; [lia|done|done].
Qed.

Lemma not_longer_bind {A B} (m : presult A) (f : A -> list Z -> presult B) s :
  not_longer m s -> (forall a r, (length r <= length s)%nat -> not_longer (f a r) r) ->
  not_longer (pbind m f) s.
Proof.
  intros Hm Hf. destruct m as [a r|msg|]; cbn in *; [|done|done].
  specialize (Hf a r Hm). destruct (f a r); cbn in *; [lia|done|done].
Qed.

Lemma shorter_weaken {A} (m : presult A) s : shorter m s -> not_longer m s.
Proof. destruct m; cbn; [lia|done|done]. Qed.

Lemma consume_whitespace_length s : (length (consume_whitespace s) <= length s)%nat.
Proof. induction s as [|c s IH]; cbn; [lia|]. destruct (_ || _); cbn in *; lia. Qed.

Lemma skip_line_length s : (length (skip_line s) <= length s)%nat.
Proof. induction s as [|c s IH]; cbn; [lia|]. destruct (_ =? _); cbn in *; lia. Qed.

Lemma skip_block_not_longer s : not_longer (skip_block s) s.
Proof.
  induction s as [|c [|d r] IH]; [done..|].
  change (skip_block (c :: d :: r)) with (if (c =? 42) && (d =? 47) then POk tt r else skip_block (d :: r)).
  destruct (_ && _); [cbn; lia|].
  destruct (skip_block (d :: r)); cbn in *; [lia|done|done].
Qed.

(** A comment that is found is consumed; otherwise nothing moves. *)
Lemma consume_comment_length s :
  match consume_comment s with
  | POk true r => (length r < length s)%nat
  | POk false r => r = s
  | PFail _ => True
  | POut => False
  end.
Proof.
  unfold consume_comment. destruct (cur s =? 47) eqn:E; [|done].
  destruct s as [|c0 [|c s]]; [done..|]. cbn [tail length].
  destruct (c =? 47); [pose proof (skip_line_length s); lia|]. destruct (c =? 42); [|done].
  pose proof (skip_block_not_longer s). destruct (skip_block s); cbn in *; [lia|done|done].
Qed.

Lemma consume_comments_not_longer fuel s : (length s < fuel)%nat -> not_longer (consume_comments fuel s) s.
Proof.
  revert s. induction fuel as [|fuel IH]; intros s Hf; [lia|]. cbn [consume_comments].
  pose proof (consume_comment_length s) as H. destruct (consume_comment s) as [[] r| |]; cbn; [|subst r|done..].
  - pose proof (consume_whitespace_length r). specialize (IH (consume_whitespace r) ltac:(lia)).
    destruct (consume_comments _ _); cbn in *; [lia|done|done].
  - apply consume_whitespace_length.
Qed.

Lemma consume_garbage_not_longer s : not_longer (consume_garbage s) s.
Proof.
  unfold consume_garbage. pose proof (consume_whitespace_length s).
  destruct strategy; [done|].
  pose proof (consume_comments_not_longer (S (length (consume_whitespace s))) (consume_whitespace s) ltac:(lia)).
  destruct (consume_comments _ _); cbn in *; [lia|done|done].
Qed.

Lemma get_next_token_shorter s : shorter (get_next_token s) s.
Proof.
  unfold get_next_token. pose proof (consume_garbage_not_longer s).
  destruct (consume_garbage s) as [[] [|c r]| |]; cbn in *; [done|lia|done|done].
Qed.

Lemma parse_string_loop_shorter fuel last out s :
  (length s < fuel)%nat -> shorter (parse_string_loop fuel last out s) s.
Proof.
  revert last out s. induction fuel as [|fuel IH]; intros last out s Hf; [lia|].
  assert (forall last out r, (length r < length s)%nat -> shorter (parse_string_loop fuel last out r) s) as IH'.
  { intros last' out' r Hr. specialize (IH last' out' r ltac:(lia)).
    destruct (parse_string_loop fuel last' out' r); cbn in *; [lia|done|done]. }
  cbn [parse_string_loop]. destruct s as [|ch s1]; [done|]. destruct (ch =? 34); [cbn; lia|].
  destruct (in_range ch 0 31); [done|]. destruct (negb (ch =? 92)); [apply IH'; cbn; lia|].
  destruct s1 as [|ch' s2]; [done|]. destruct (ch' =? 117).
  - destruct (_ <? _)%nat; [done|]. destruct (negb _); [done|].
    destruct (_ && _); apply IH'; rewrite length_drop; cbn [length]; lia.
  - destruct (unescape ch'); [apply IH'; cbn; lia|done].
Qed.

Lemma parse_string_shorter s : shorter (parse_string s) s.
Proof. apply parse_string_loop_shorter. lia. Qed.

Lemma skip_digits_length s : (length (skip_digits s) <= length s)%nat.
Proof. induction s as [|c s IH]; cbn; [lia|]. destruct (in_range _ _ _); cbn in *; lia. Qed.

Lemma length_tail (s : list Z) : (length (tail s) <= length s)%nat.
Proof. destruct s; cbn; lia. Qed.

Lemma parse_number_shorter c s : shorter (parse_number (c :: s)) (c :: s).
Proof.
  unfold parse_number. set (t := if cur (c :: s) =? 45 then tail (c :: s) else c :: s).
  assert (length t <= length (c :: s))%nat as Ht by (unfold t; destruct (_ =? _); cbn; lia).
  assert (forall A (m : presult A), shorter m t -> shorter m (c :: s)) as Hsh
    by (intros A m; destruct m; cbn in *; [lia|done|done]).
  apply Hsh. apply shorter_bind.
  - destruct t as [|d t']; cbn [cur tail]; [done|].
    destruct (d =? 48); [destruct (in_range _ _ _); cbn; [done|lia]|].
    destruct (in_range d 49 57); [|done]. pose proof (skip_digits_length t'). cbn. lia.
  - intros _ r _. destruct (_ && _); [cbn; lia|]. apply not_longer_bind.
    + destruct (cur r =? 46); [|cbn; lia]. destruct (negb _); [done|]. cbn.
      pose proof (skip_digits_length (tail r)). pose proof (length_tail r). lia.
    + intros _ r2 _. apply not_longer_bind; [|intros; cbn; lia].
      destruct (_ || _); [|cbn; lia].
      set (r3 := if (cur (tail r2) =? 43) || (cur (tail r2) =? 45) then tail (tail r2) else tail r2).
      assert (length r3 <= length r2)%nat.
      { unfold r3. pose proof (length_tail r2). pose proof (length_tail (tail r2)). destruct (_ || _); lia. }
      destruct (negb _); [done|]. pose proof (skip_digits_length r3). cbn. lia.
Qed.

Lemma expect_shorter e j s : e <> [] -> s <> [] -> shorter (expect e j s) s.
Proof.
  intros He Hs. unfold expect. destruct (bool_decide _); [|done]. cbn. rewrite length_drop.
  destruct e, s; cbn in *; [done|done|done|lia].
Qed.

Lemma parse_total_aux fuel :
  (forall depth s, (2 * length s + 1 <= fuel)%nat -> shorter (parse_json fuel depth s) s)
  /\ (forall depth ch data s, (2 * length s + 2 <= fuel)%nat -> shorter (parse_members fuel depth ch data s) s)
  /\ (forall depth data s, (2 * length s + 2 <= fuel)%nat -> shorter (parse_elements fuel depth data s) s).
Proof.
  induction fuel as [|fuel (IHj & IHm & IHe)]; [repeat split; intros; lia|]. split; [|split].
  - intros depth s Hf. cbn [parse_json]. destruct (max_depth <? depth); [done|].
    apply shorter_bind; [apply get_next_token_shorter|]. intros ch r Hr.
    destruct (_ || _). { pose proof (parse_number_shorter ch r) as H. destruct (parse_number _); cbn in *; [lia|done|done]. }
    destruct (ch =? 116). { pose proof (expect_shorter (str "true") (JBool true) (ch :: r)) as H.
      destruct (expect _ _ _); cbn in *; [|done|by apply H]. specialize (H ltac:(done) ltac:(done)). lia. }
    destruct (ch =? 102). { pose proof (expect_shorter (str "false") (JBool false) (ch :: r)) as H.
      destruct (expect _ _ _); cbn in *; [|done|by apply H]. specialize (H ltac:(done) ltac:(done)). lia. }
    destruct (ch =? 110). { pose proof (expect_shorter (str "null") JNull (ch :: r)) as H.
      destruct (expect _ _ _); cbn in *; [|done|by apply H]. specialize (H ltac:(done) ltac:(done)). lia. }
    destruct (ch =? 34). { apply shorter_weaken, shorter_bind; [apply parse_string_shorter|]. intros; cbn; lia. }
    destruct (ch =? 123).
    { apply shorter_weaken, shorter_bind; [apply get_next_token_shorter|]. intros c2 r2 Hr2.
      destruct (c2 =? 125); [cbn; lia|]. apply shorter_weaken, IHm. lia. }
    destruct (ch =? 91); [|done].
    pose proof (get_next_token_shorter r) as Ht. destruct (get_next_token r) as [c2 r2| |]; [|done|done].
    cbn [pbind]. destruct (c2 =? 93); [cbn in *; lia|]. cbn in Ht.
    specialize (IHe depth [] (c2 :: r2)). cbn [length] in IHe.
    destruct (parse_elements _ _ _ _); cbn in *; [|done|apply IHe; lia]. specialize (IHe ltac:(lia)). lia.
  - intros depth ch data s Hf. cbn [parse_members]. destruct (negb _); [done|].
    apply shorter_bind; [apply parse_string_shorter|]. intros key r Hr.
    apply shorter_weaken, shorter_bind; [apply get_next_token_shorter|]. intros c2 r2 Hr2.
    destruct (negb _); [done|]. apply shorter_weaken, shorter_bind; [apply IHj; lia|]. intros v r3 Hr3.
    apply shorter_weaken, shorter_bind; [apply get_next_token_shorter|]. intros c4 r4 Hr4.
    destruct (c4 =? 125); [cbn; lia|]. destruct (negb _); [done|].
    apply shorter_weaken, shorter_bind; [apply get_next_token_shorter|]. intros c5 r5 Hr5.
    apply shorter_weaken, IHm. lia.
  - intros depth data s Hf. cbn [parse_elements].
    apply shorter_bind; [apply IHj; lia|]. intros v r Hr.
    apply shorter_weaken, shorter_bind; [apply get_next_token_shorter|]. intros c2 r2 Hr2.
    destruct (c2 =? 93); [cbn; lia|]. destruct (negb _); [done|].
    pose proof (get_next_token_shorter r2) as Ht. destruct (get_next_token r2) as [c3 r3| |]; [|done|done].
    cbn [pbind]. cbn in Ht. specialize (IHe depth (data ++ [v]) (c3 :: r3)). cbn [length] in IHe.
    destruct (parse_elements _ _ _ _); cbn in *; [|done|apply IHe; lia]. specialize (IHe ltac:(lia)). lia.
Qed.

Lemma parse_not_out inp : parse inp <> POut.
Proof.
  unfold parse. pose proof (proj1 (parse_total_aux (2 * length inp + 2)) 0 inp ltac:(lia)) as H.
  destruct (parse_json _ _ _) as [j rest| |]; cbn in *; [|done|done].
  pose proof (consume_garbage_not_longer rest). destruct (consume_garbage rest) as [[] [|c r]| |]; done.
Qed.

(** ** Printing then parsing: strings *)

Definition quiet (last : Z) : Prop := last = -1 \/ 0 <= last < 0xD800.

Lemma control_escape ch :
  is_byte ch -> (ch <=? 0x1f) = true ->
  forallb is_hex (print_04x ch) = true /\ hex_prefix_value (print_04x ch) 0 = ch /\ encode_utf8 ch = [ch].
Proof.
  intros Hb Hc.
  apply (forall_bytes (fun ch => negb (ch <=? 0x1f) || (forallb is_hex (print_04x ch)
    && (hex_prefix_value (print_04x ch) 0 =? ch) && bool_decide (encode_utf8 ch = [ch])))) in Hb;
    [|vm_compute; reflexivity].
  rewrite Hc in Hb. cbn [negb orb] in Hb. apply andb_prop in Hb as [[H1 H2]%andb_prop H3].
  apply Z.eqb_eq in H2. apply bool_decide_eq_true in H3. done.
Qed.

Section string_steps.
Context (fuel : nat) (last : Z) (out : list Z) (Hlast : quiet last).

Lemma step_plain ch s :
  (ch =? 34) = false -> (ch <=? 0x1f) = false -> (ch =? 92) = false ->
  parse_string_loop (S fuel) last out (ch :: s) = parse_string_loop fuel (-1) (out ++ encode_utf8 last ++ [ch]) s.
Proof.
  intros H1 H2 H3. cbn [parse_string_loop]. rewrite H1, H3. unfold in_range. by rewrite H2, andb_false_r.
Qed.

Lemma step_escape c code s :
  unescape code = Some c -> (code =? 117) = false ->
  parse_string_loop (S fuel) last out (92 :: code :: s)
  = parse_string_loop fuel (-1) (out ++ encode_utf8 last ++ [c]) s.
Proof. intros H1 H2. cbn [parse_string_loop]. cbn -[parse_string_loop unescape]. by rewrite H2, H1. Qed.

Lemma step_unicode e s :
  length e = 4%nat -> forallb is_hex e = true ->
  parse_string_loop (S fuel) last out (92 :: 117 :: e ++ s)
  = parse_string_loop fuel (hex_prefix_value e 0) (out ++ encode_utf8 last) s.
Proof using Hlast.
  intros He Hh. cbn [parse_string_loop]. cbn -[parse_string_loop hex_prefix_value take drop length forallb in_range Nat.ltb].
  rewrite <- He, take_app_length, drop_app_length, Nat.ltb_irrefl, Hh. cbn [negb].
  assert (in_range last 55296 56319 = false) as ->; [|done].
  unfold in_range. destruct Hlast; lia.
Qed.
End string_steps.

Lemma parse_dump_chars n v fuel last out rest :
  (length v <= n)%nat -> bytes_ok v -> quiet last -> (length (dump_chars v) < fuel)%nat ->
  parse_string_loop fuel last out (dump_chars v ++ 34 :: rest) = POk (out ++ encode_utf8 last ++ v) rest.
Proof.
  revert v fuel last out. induction n as [|n IH]; intros v fuel last out Hn Hb Hq Hf.
  { destruct v; [|cbn in Hn; lia]. destruct fuel; [cbn in Hf; lia|]. cbn. by rewrite app_nil_r. }
  destruct v as [|ch v]. { destruct fuel; [cbn in Hf; lia|]. cbn. by rewrite app_nil_r. }
  apply Forall_cons in Hb as [Hch Hb]. cbn [length] in Hn.
  destruct fuel as [|fuel]; [lia|]. assert (quiet (-1)) as Hq1 by (by left).
  assert (forall c v' f, (length v' <= n)%nat -> bytes_ok v' -> (length (dump_chars v') < f)%nat ->
    parse_string_loop f (-1) (out ++ encode_utf8 last ++ [c]) (dump_chars v' ++ 34 :: rest)
    = POk (out ++ encode_utf8 last ++ c :: v') rest) as Hplain.
  { intros c v' f H1 H2 H3. rewrite IH by done. cbn. by rewrite <- !app_assoc. }
  assert (forall e v' f, length e = 4%nat -> forallb is_hex e = true -> quiet (hex_prefix_value e 0) ->
    (length v' <= n)%nat -> bytes_ok v' -> (length (dump_chars v') < f)%nat ->
    parse_string_loop (S f) last out ((92 :: 117 :: e ++ dump_chars v') ++ 34 :: rest)
    = POk (out ++ encode_utf8 last ++ encode_utf8 (hex_prefix_value e 0) ++ v') rest) as Huni.
  { intros e v' f H1 H2 H3 H4 H5 H6. cbn [app]. rewrite <- app_assoc, step_unicode by done.
    rewrite IH by done. by rewrite <- !app_assoc. }
  assert (forall code c, (length (dump_chars v) + 2 < S fuel)%nat -> unescape code = Some c ->
    (code =? 117) = false -> parse_string_loop (S fuel) last out ((92 :: code :: dump_chars v) ++ 34 :: rest)
    = POk (out ++ encode_utf8 last ++ c :: v) rest) as Hesc.
  { intros code c Hl H1 H2. cbn [app]. rewrite (step_escape fuel last out c) by done. apply Hplain; (done || lia). }
  cbn [dump_chars] in *.
  destruct (Z.eqb_spec ch 92) as [->|]; [apply Hesc; [cbn [length] in Hf; lia|done|done]|].
  destruct (ch =? 34) eqn:E34; [apply Z.eqb_eq in E34 as ->; apply Hesc; [cbn [length] in Hf; lia|done|done]|].
  destruct (Z.eqb_spec ch 8) as [->|]; [apply Hesc; [cbn [length] in Hf; lia|done|done]|].
  destruct (Z.eqb_spec ch 12) as [->|]; [apply Hesc; [cbn [length] in Hf; lia|done|done]|].
  destruct (Z.eqb_spec ch 10) as [->|]; [apply Hesc; [cbn [length] in Hf; lia|done|done]|].
  destruct (Z.eqb_spec ch 13) as [->|]; [apply Hesc; [cbn [length] in Hf; lia|done|done]|].
  destruct (Z.eqb_spec ch 9) as [->|]; [apply Hesc; [cbn [length] in Hf; lia|done|done]|].
  destruct (ch <=? 31) eqn:E31.
  { destruct (control_escape ch Hch E31) as (Hh & Hv & He).
    rewrite Huni by (done || (rewrite Hv; right; unfold is_byte in Hch; lia) || (cbn [length] in Hf; rewrite length_app in Hf; lia) || lia).
    by rewrite Hv, He. }
  assert ((ch =? 92) = false) as E92 by lia.
  assert (forall v', v' = v -> (length (ch :: dump_chars v') < S fuel)%nat ->
    parse_string_loop (S fuel) last out ((ch :: dump_chars v') ++ 34 :: rest)
    = POk (out ++ encode_utf8 last ++ ch :: v) rest) as Hdef.
  { intros v' -> Hl. cbn [app length] in *. rewrite step_plain by done. apply Hplain; (done || lia). }
  destruct v as [|c1 [|c2 v]]; [by apply Hdef|by apply Hdef|].
  destruct ((ch =? 226) && (c1 =? 128) && (c2 =? 168)) eqn:Ea.
  { apply andb_prop in Ea as [[->%Z.eqb_eq ->%Z.eqb_eq]%andb_prop ->%Z.eqb_eq].
    do 2 apply Forall_cons in Hb as [_ Hb]. cbn [length] in Hn. rewrite length_app in Hf. cbn in Hf.
    change (str "\u2028" ++ dump_chars v) with (92 :: 117 :: [50; 48; 50; 56] ++ dump_chars v).
    rewrite Huni by (done || (right; vm_compute; split; [discriminate|reflexivity]) || lia). done. }
  destruct ((ch =? 226) && (c1 =? 128) && (c2 =? 169)) eqn:Eb; [|by apply Hdef].
  apply andb_prop in Eb as [[->%Z.eqb_eq ->%Z.eqb_eq]%andb_prop ->%Z.eqb_eq].
  do 2 apply Forall_cons in Hb as [_ Hb]. cbn [length] in Hn. rewrite length_app in Hf. cbn in Hf.
  change (str "\u2029" ++ dump_chars v) with (92 :: 117 :: [50; 48; 50; 57] ++ dump_chars v).
  rewrite Huni by (done || (right; vm_compute; split; [discriminate|reflexivity]) || lia). done.
Qed.

Lemma parse_dump_string v rest : bytes_ok v -> parse_string (dump_chars v ++ 34 :: rest) = POk v rest.
Proof.
  intros Hb. unfold parse_string. rewrite (parse_dump_chars (length v)) by (done || (by left) || (rewrite length_app; lia)).
  done.
Qed.

(** ** Numbers *)

Definition digit_char (c : Z) : Prop := 48 <= c <= 57.

(** What may follow a number: anything that does not continue it. *)
Definition stops (rest : list Z) : Prop :=
  in_range (cur rest) 48 57 = false /\ is_num_tail (cur rest) = false.

Lemma in_range_spec x a b : in_range x a b = true <-> a <= x <= b.
Proof. unfold in_range. lia. Qed.

Lemma skip_digits_app ds rest :
  Forall digit_char ds -> in_range (cur rest) 48 57 = false -> skip_digits (ds ++ rest) = rest.
Proof.
  intros Hd Hr. induction Hd as [|d ds Hd _ IH]; cbn [app skip_digits].
  - destruct rest as [|c rest]; [done|]. cbn in *. by rewrite Hr.
  - by rewrite (proj2 (in_range_spec d 48 57) Hd).
Qed.

Lemma digits_value_stop rest a : in_range (cur rest) 48 57 = false -> digits_value rest a = a.
Proof. destruct rest as [|c rest]; [done|]. cbn. by intros ->. Qed.

Lemma dec_digits_S fuel n acc :
  dec_digits (S fuel) n acc = if n <? 10 then dec_digit n :: acc
    else dec_digits fuel (n / 10) (dec_digit (n mod 10) :: acc).
Proof. done. Qed.

(** The digits printed for [n]: how many, the first, and their value. *)
Lemma dec_digits_spec fuel n acc :
  0 <= n < 10 ^ Z.of_nat (S fuel) ->
  exists d ds, dec_digits (S fuel) n acc = d :: ds ++ acc /\ Forall digit_char (d :: ds)
    /\ (n = 0 -> d = 48 /\ ds = []) /\ (0 < n -> 49 <= d <= 57 /\ 10 ^ Z.of_nat (length ds) <= n)
    /\ forall rest a, digits_value ((d :: ds) ++ rest) a
        = digits_value rest (a * 10 ^ Z.of_nat (S (length ds)) + n).
Proof.
  revert n acc. induction fuel as [|fuel IH]; intros n acc Hn.
  all: rewrite dec_digits_S.
  all: destruct (Z.ltb_spec n 10) as [H10|H10]; [|try (change (10 ^ Z.of_nat 1) with 10 in Hn; lia)].
  1,2: exists (dec_digit n), []; unfold dec_digit; split; [done|];
    split; [apply Forall_singleton; unfold digit_char; lia|]; split; [by intros ->|];
    split; [cbn; lia|]; intros rest a;
    cbn [app digits_value length]; rewrite (proj2 (in_range_spec (48 + n) 48 57)) by lia;
    f_equal; change (Z.of_nat 1) with 1; lia.
  - rewrite Nat2Z.inj_succ, Z.pow_succ_r in Hn by lia.
    pose proof (Z.div_mod n 10 ltac:(lia)). pose proof (Z.mod_pos_bound n 10 ltac:(lia)).
    destruct (IH (n / 10) (dec_digit (n mod 10) :: acc)) as (d & ds & -> & Hd & _ & Hpos & Hval); [lia|].
    exists d, (ds ++ [dec_digit (n mod 10)]). split; [by rewrite <- app_assoc|]. unfold dec_digit in *.
    split; [apply (Forall_app_2 _ (d :: ds)); [done|]; apply Forall_singleton; unfold digit_char; lia|].
    split; [lia|].
    destruct (Hpos ltac:(lia)) as [Hd0 Hlow]. split.
    + intros _. split; [done|]. rewrite length_app, Nat2Z.inj_add, Z.pow_add_r by lia.
      cbn [length]. change (10 ^ Z.of_nat 1) with 10. lia.
    + intros rest a.
      replace ((d :: ds ++ [48 + n mod 10]) ++ rest) with ((d :: ds) ++ (48 + n mod 10) :: rest)
        by (cbn; by rewrite <- app_assoc).
      rewrite Hval. cbn [digits_value]. rewrite (proj2 (in_range_spec (48 + n mod 10) 48 57)) by lia.
      f_equal. rewrite length_app. cbn [length].
      replace (Z.of_nat (S (length ds + 1))) with (Z.of_nat (S (length ds)) + 1) by lia.
      rewrite Z.pow_add_r by lia. change (10 ^ 1) with 10. lia.
Qed.

(** Integers whose numeral has at most nine characters come back as integers. *)
Definition minus (neg : bool) : list Z := if neg then [45] else [].
Definition short_int (z : Z) : bool := (- 10 ^ 8 <? z) && (z <? 10 ^ 9).

Lemma parse_unsigned d ds rest :
  Forall digit_char (d :: ds) -> (d = 48 /\ ds = [] \/ 49 <= d <= 57) -> stops rest ->
  (if d =? 48
   then if in_range (cur (ds ++ rest)) 48 57
        then PFail (str "leading 0s not permitted in numbers") else POk tt (ds ++ rest)
   else if in_range d 49 57 then POk tt (skip_digits (ds ++ rest))
   else PFail (str "invalid " ++ esc d ++ str " in number")) = POk tt rest.
Proof.
  intros Hd Hhead [Hs _]. apply Forall_cons in Hd as [_ Hd].
  destruct Hhead as [[-> ->]|Hr]; [cbn [app Z.eqb Pos.eqb]; by rewrite Hs|].
  rewrite (proj2 (Z.eqb_neq d 48)), (proj2 (in_range_spec d 49 57)) by lia.
  by rewrite skip_digits_app.
Qed.

Lemma parse_print_d z rest :
  short_int z = true -> stops rest -> parse_number (print_d z ++ rest) = POk (JInt z) rest.
Proof.
  intros Hz Hst. unfold short_int in Hz. unfold print_d.
  assert (exists (neg : bool) d ds, (if z <? 0 then 45 :: dec_digits 20 (- z) [] else dec_digits 20 z [])
      = minus neg ++ d :: ds /\ Forall digit_char (d :: ds)
    /\ (d = 48 /\ ds = [] \/ 49 <= d <= 57) /\ (length (minus neg ++ d :: ds) <= 9)%nat
    /\ (if neg then - digits_value ((d :: ds) ++ rest) 0 else digits_value ((d :: ds) ++ rest) 0) = z)
    as (neg & d & ds & -> & Hd & Hhead & Hlen & Hval).
  { assert (forall n k, 0 <= n -> n < 10 ^ Z.of_nat k -> (1 <= k <= 20)%nat -> exists d ds, dec_digits 20 n [] = d :: ds
      /\ Forall digit_char (d :: ds) /\ (d = 48 /\ ds = [] \/ 49 <= d <= 57) /\ (length (d :: ds) <= k)%nat
      /\ digits_value ((d :: ds) ++ rest) 0 = n) as Hgen.
    { intros n k Hn Hk Hk20. destruct (dec_digits_spec 19 n []) as (d & ds & -> & Hd & H0 & Hpos & Hv).
      { split; [done|]. eapply Z.lt_le_trans; [exact Hk|]. apply Z.pow_le_mono_r; lia. }
      exists d, ds. rewrite app_nil_r. split; [done|]. split; [done|].
      destruct (Z.eq_dec n 0) as [->|Hnz].
      - destruct (H0 eq_refl) as [-> ->]. split; [by left|]. split; [cbn; lia|].
        rewrite Hv, digits_value_stop by apply Hst. lia.
      - destruct (Hpos ltac:(lia)) as [Hd1 Hlow]. split; [by right|]. split.
        + cbn [length]. destruct (decide (S (length ds) <= k)%nat); [done|exfalso].
          assert (10 ^ Z.of_nat k <= 10 ^ Z.of_nat (length ds)) by (apply Z.pow_le_mono_r; lia). lia.
        + rewrite Hv, digits_value_stop by apply Hst. lia. }
    destruct (Z.ltb_spec z 0) as [Hneg|Hneg].
    - destruct (Hgen (- z) 8%nat) as (d & ds & -> & Hd & Hh & Hl & Hv); [lia|cbn; lia|lia|].
      exists true, d, ds. do 3 (split; [done|]). split; [cbn [minus length app] in *; lia|lia].
    - destruct (Hgen z 9%nat) as (d & ds & -> & Hd & Hh & Hl & Hv); [lia|cbn; lia|lia|].
      exists false, d, ds. done. }
  unfold parse_number. set (s0 := (minus neg ++ d :: ds) ++ rest).
  assert ((if cur s0 =? 45 then tail s0 else s0) = (d :: ds) ++ rest /\ atoi s0 = z) as [-> Ha].
  { apply Forall_cons in Hd as [Hd _]. unfold digit_char in Hd.
    unfold atoi, s0. destruct neg; cbn [minus cur app]; [done|].
    by rewrite (proj2 (Z.eqb_neq d 45)) by lia. }
  cbn [app cur tail]. rewrite parse_unsigned by done. cbn [pbind].
  destruct Hst as [Hs1 Hs2]. rewrite Hs2. cbn [negb andb].
  assert (length s0 - length rest <= 9)%nat as Hl9.
  { unfold s0. rewrite length_app. lia. }
  rewrite (proj2 (Nat.leb_le _ _)) by done. by rewrite Ha.
Qed.

(** ** Values *)

(** Values that survive: no doubles, integers of at most nine characters, bytes
    in strings, keys in order, no deeper than the parser goes. *)
Definition byteb (c : Z) : bool := (0 <=? c) && (c <? 256).

Fixpoint json_ok (depth : Z) (j : Json) : bool :=
  (depth <=? max_depth) &&
  match j with
  | JNull | JBool _ => true
  | JInt z => short_int z
  | JDouble _ => false
  | JString s => forallb byteb s
  | JArray l => forallb (json_ok (depth + 1)) l
  | JObject m => forallb (fun kv => forallb byteb kv.1 && json_ok (depth + 1) kv.2) m && sorted_keys (map fst m)
  end.

Definition parses (depth : Z) (j : Json) : Prop :=
  forall fuel rest, stops rest -> (2 * length (dump j) <= fuel)%nat ->
  parse_json (S fuel) depth (dump j ++ rest) = POk j rest.

(** The characters that whitespace or a comment starts with. *)
Definition white (c : Z) : bool := (c =? 32) || (c =? 13) || (c =? 10) || (c =? 9) || (c =? 47).

Lemma no_whitespace c t : white c = false -> consume_whitespace (c :: t) = c :: t.
Proof. intros H. cbn. unfold white in H. by apply orb_false_iff in H as [-> _]. Qed.

Lemma no_garbage c t : white c = false -> consume_garbage (c :: t) = POk tt (c :: t).
Proof.
  intros H. unfold consume_garbage. rewrite no_whitespace by done. destruct strategy; [done|].
  cbn [consume_comments]. unfold consume_comment. cbn [cur].
  assert ((c =? 47) = false) as -> by (unfold white in H; by apply orb_false_iff in H as [_ ->]).
  cbn [pbind]. by rewrite no_whitespace.
Qed.

Lemma garbage_space s : consume_garbage (32 :: s) = consume_garbage s.
Proof. done. Qed.

Lemma token c t : white c = false -> get_next_token (c :: t) = POk c t.
Proof. intros H. unfold get_next_token. by rewrite no_garbage. Qed.

Lemma token_space c t : white c = false -> get_next_token (32 :: c :: t) = POk c t.
Proof. intros H. unfold get_next_token. by rewrite garbage_space, no_garbage. Qed.

Lemma byteb_ok s : forallb byteb s = true -> bytes_ok s.
Proof. rewrite forallb_forall, Forall_forall. intros H c Hc. specialize (H c). unfold byteb, is_byte in *.
  assert (In c s) by (by apply list_elem_of_In). intuition lia. Qed.

Lemma print_d_head z :
  exists c t, print_d z = c :: t /\ (c =? 45) || ((48 <=? c) && (c <=? 57)) = true.
Proof.
  unfold print_d. assert (forall fuel n acc, 0 <= n -> acc <> [] \/ (0 < fuel)%nat -> 
    (exists c t, acc = c :: t /\ 48 <= c <= 57) \/ acc = [] ->
    exists c t, dec_digits fuel n acc = c :: t /\ 48 <= c <= 57) as H.
  { induction fuel as [|fuel IH]; intros n acc Hn Hne Hacc.
    - destruct Hacc as [(c & t & -> & Hc)| ->]; [by exists c, t|]. destruct Hne; [done|lia].
    - cbn [dec_digits]. unfold dec_digit. destruct (Z.ltb_spec n 10); [eexists _, _; split; [done|lia]|].
      pose proof (Z.mod_pos_bound n 10 ltac:(lia)).
      apply IH; [apply Z.div_pos; lia|by left|]. left. eexists _, _. split; [done|lia]. }
  destruct (Z.ltb_spec z 0); [by eexists _, _|].
  destruct (H 20%nat z []) as (c & t & -> & Hc); [done|right; lia|by right|].
  exists c, t. split; [done|lia].
Qed.

Lemma dump_head depth j : json_ok depth j = true -> exists c t, dump j = c :: t /\ white c = false /\ c <> 93.
Proof.
  destruct j as [|z|d|b|s|l|m]; cbn [json_ok dump]; rewrite ?andb_false_r; intros H; try done;
    try (by eexists _, _).
  - destruct (print_d_head z) as (c & t & -> & Hc). exists c, t. split; [done|]. unfold white. lia.
  - destruct b; by eexists _, _.
Qed.

Lemma expect_app e j rest : expect e j (e ++ rest) = POk j rest.
Proof. unfold expect. rewrite take_app_length, drop_app_length. by rewrite bool_decide_eq_true_2. Qed.

Lemma commas_cons x l : l <> [] -> commas (x :: l) = x ++ 44 :: 32 :: commas l.
Proof. by destruct l. Qed.

Lemma parse_elements_ok depth l data fuel rest :
  l <> [] -> Forall (parses (depth + 1)) l -> forallb (json_ok (depth + 1)) l = true ->
  (2 * length (commas (map dump l)) + 1 <= fuel)%nat ->
  parse_elements (S fuel) depth data (commas (map dump l) ++ 93 :: rest) = POk (JArray (data ++ l)) rest.
Proof.
  intros Hne Hp. revert data fuel Hne. induction Hp as [|x l Hx Hp IH]; intros data fuel Hne Hok Hf; [done|].
  cbn [forallb] in Hok. apply andb_prop in Hok as [Hokx Hok]. destruct fuel as [|fuel]; [lia|].
  destruct l as [|y l'].
  - cbn [map commas] in *. cbn [parse_elements]. rewrite Hx by (done || lia). cbn [pbind].
    rewrite token by done. done.
  - set (l := y :: l') in *. cbn [map] in Hf |- *. rewrite commas_cons in Hf |- * by done.
    rewrite !length_app in Hf. cbn [length] in Hf. rewrite <- app_assoc. cbn [app].
    change (parse_elements (S (S fuel)) depth data ?s) with
      (pbind (parse_json (S fuel) (depth + 1) s) (fun v r =>
        pbind (get_next_token r) (fun ch r =>
        if ch =? 93 then POk (JArray (data ++ [v])) r
        else if negb (ch =? 44) then PFail (str "expected ',' in list, got " ++ esc ch)
        else pbind (get_next_token r) (fun ch r => parse_elements (S fuel) depth (data ++ [v]) (ch :: r))))).
    rewrite Hx by (done || lia). cbn [pbind]. rewrite token by done. cbn [pbind Z.eqb Pos.eqb negb].
    assert (exists c t, commas (map dump l) ++ 93 :: rest = c :: t /\ white c = false) as (c & t & E & Hw).
    { apply andb_prop in Hok as [Hoky _]. destruct (dump_head _ _ Hoky) as (c & t & E & Hw & _).
      unfold l. cbn [map]. destruct (map dump l'); cbn [commas]; rewrite E; by eexists _, _. }
    rewrite E, token_space by done. cbn [pbind]. rewrite <- E, IH by (done || lia). by rewrite <- app_assoc.
Qed.

(** *** Members: keys in order are appended *)

Definition member_text (kv : list Z * Json) : list Z := dump_string kv.1 ++ 58 :: 32 :: dump kv.2.

Lemma parse_members_ok depth m data fuel rest :
  m <> [] -> Forall (fun kv => parses (depth + 1) kv.2) m ->
  forallb (fun kv => forallb byteb kv.1 && json_ok (depth + 1) kv.2) m = true ->
  sorted_keys (map fst (data ++ m)) = true ->
  (2 * length (commas (map member_text m)) + 1 <= fuel)%nat ->
  exists t, commas (map member_text m) = 34 :: t /\
  parse_members (S fuel) depth 34 data (t ++ 125 :: rest) = POk (JObject (data ++ m)) rest.
Proof.
  intros Hne Hp. revert data fuel Hne. induction Hp as [|[k v] m Hv Hp IH]; intros data fuel Hne Hok Hs Hf; [done|].
  cbn [forallb fst snd] in *. apply andb_prop in Hok as [[Hk Hokv]%andb_prop Hok]. apply byteb_ok in Hk.
  destruct (dump_head _ _ Hokv) as (c & tv & Ev & Hw & _).
  assert (Forall (fun kv => str_lt kv.1 k = true) data) as Hlt.
  { rewrite map_app in Hs. cbn [map fst] in Hs. apply sorted_before in Hs.
    by apply Forall_fmap in Hs. }
  destruct fuel as [|fuel]; [lia|].
  assert (forall r, stops r -> (2 * length (dump v) <= fuel)%nat ->
    parse_members (S (S fuel)) depth 34 data (dump_chars k ++ 34 :: 58 :: 32 :: dump v ++ r)
    = pbind (get_next_token r) (fun ch r =>
        if ch =? 125 then POk (JObject (data ++ [(k, v)])) r
        else if negb (ch =? 44) then PFail (str "expected ',' in object, got " ++ esc ch)
        else pbind (get_next_token r) (fun ch r => parse_members (S fuel) depth ch (data ++ [(k, v)]) r))) as Hstep.
  { intros r Hr Hfv.
    change (parse_members (S (S fuel)) depth 34 data ?s) with
      (pbind (parse_string s) (fun key r =>
        pbind (get_next_token r) (fun ch r =>
          if negb (ch =? 58) then PFail (str "expected ':' in object, got " ++ esc ch)
          else pbind (parse_json (S fuel) (depth + 1) r) (fun v r =>
            pbind (get_next_token r) (fun ch r =>
              if ch =? 125 then POk (JObject (map_set key v data)) r
              else if negb (ch =? 44) then PFail (str "expected ',' in object, got " ++ esc ch)
              else pbind (get_next_token r) (fun ch r => parse_members (S fuel) depth ch (map_set key v data) r)))))).
    rewrite parse_dump_string by done. cbn [pbind]. rewrite token by done. cbn [pbind Z.eqb Pos.eqb negb].
    assert (parse_json (S fuel) (depth + 1) (32 :: dump v ++ r) = POk v r) as ->.
    { specialize (Hv fuel r Hr Hfv). rewrite Ev in *. cbn [app] in *.
      cbn [parse_json] in *. rewrite token_space by done. rewrite token in Hv by done. exact Hv. }
    cbn [pbind]. by rewrite map_set_append. }
  assert (member_text (k, v) = 34 :: dump_chars k ++ 34 :: 58 :: 32 :: dump v) as Emt
    by (unfold member_text, dump_string; cbn; by rewrite <- app_assoc).
  cbn [map] in Hf |- *. rewrite Emt in Hf |- *. clear Emt.
  destruct m as [|kv2 m].
  - cbn [map commas app] in *. eexists. split; [done|]. rewrite <- app_assoc. cbn [app].
    repeat (rewrite ?length_app in Hf; cbn [length] in Hf).
    rewrite Hstep by (done || lia). by rewrite token by done.
  - set (m2 := kv2 :: m) in *. rewrite commas_cons in Hf |- * by done. cbn [app] in *. eexists. split; [done|].
    repeat (rewrite ?length_app in Hf; cbn [length] in Hf). repeat (rewrite <- app_assoc; cbn [app]).
    rewrite Hstep by (done || lia). rewrite token by done. cbn [pbind Z.eqb Pos.eqb negb].
    destruct (IH (data ++ [(k, v)]) fuel) as (t & Et & Hpm); [done|done|by rewrite <- app_assoc|lia|].
    rewrite Et. cbn [app]. rewrite token_space by done. cbn [pbind].
    rewrite Hpm. by rewrite <- app_assoc.
Qed.

Lemma parse_dump j depth : json_ok depth j = true -> parses depth j.
Proof.
  revert depth. induction j as [|z|d|b|s|l IH|m IH] using Json_nested_ind; intros depth Hok fuel rest Hst Hf;
    cbn [json_ok] in Hok; apply andb_prop in Hok as [Hd Hok]; apply Z.leb_le in Hd;
    cbn [parse_json]; rewrite (proj2 (Z.ltb_ge max_depth depth)) by done.
  - change (dump JNull ++ rest) with (110 :: 117 :: 108 :: 108 :: rest).
    rewrite token by done. cbn -[expect str]. apply (expect_app (str "null")).
  - cbn [dump]. destruct (print_d_head z) as (c & t & E & Hc). rewrite E. cbn [app].
    rewrite token by (unfold white; lia). cbn [pbind]. rewrite Hc.
    change (c :: t ++ rest) with ((c :: t) ++ rest). rewrite <- E. by apply parse_print_d.
  - done.
  - destruct b.
    + change (dump (JBool true) ++ rest) with (116 :: 114 :: 117 :: 101 :: rest).
      rewrite token by done. cbn -[expect str]. apply (expect_app (str "true")).
    + change (dump (JBool false) ++ rest) with (102 :: 97 :: 108 :: 115 :: 101 :: rest).
      rewrite token by done. cbn -[expect str]. apply (expect_app (str "false")).
  - cbn [dump]. unfold dump_string. cbn [app]. rewrite token by done. cbn [pbind]. cbn -[parse_string dump_chars].
    rewrite <- app_assoc. cbn [app]. rewrite parse_dump_string by (by apply byteb_ok). done.
  - cbn [dump app]. rewrite token by done. cbn [pbind]. cbn -[get_next_token parse_elements commas map].
    cbn [dump length] in Hf. rewrite length_app in Hf. cbn [length] in Hf. rewrite <- app_assoc. cbn [app].
    destruct l as [|x l]. { cbn [map commas app]. by rewrite token. }
    assert (Forall (parses (depth + 1)) (x :: l)) as Hp.
    { rewrite Forall_forall in *. intros y Hy. apply IH; [done|]. rewrite forallb_forall in Hok.
      by apply Hok, list_elem_of_In. }
    assert (exists c t, commas (map dump (x :: l)) = c :: t /\ white c = false /\ c <> 93) as (c & t & E & Hw & Hc).
    { cbn [forallb] in Hok. apply andb_prop in Hok as [Hx _].
      destruct (dump_head _ _ Hx) as (c & t & E & Hw & Hc). cbn [map].
      destruct (map dump l); cbn [commas]; rewrite E; by eexists _, _. }
    rewrite E. cbn [app]. rewrite token by done. cbn [pbind]. rewrite (proj2 (Z.eqb_neq c 93)) by done.
    change (c :: t ++ 93 :: rest) with ((c :: t) ++ 93 :: rest). rewrite <- E. destruct fuel as [|fuel]; [lia|].
    apply parse_elements_ok; [done..|]. cbn [map] in *. lia.
  - apply andb_prop in Hok as [Hok Hs].
    cbn [dump app]. rewrite token by done. cbn [pbind]. cbn -[get_next_token parse_members commas map].
    cbn [dump length] in Hf. rewrite length_app in Hf. cbn [length] in Hf. rewrite <- app_assoc. cbn [app].
    change (map _ m) with (map member_text m) in Hf |- *.
    destruct m as [|kv m]. { cbn [map commas app]. by rewrite token. }
    assert (Forall (fun kv => parses (depth + 1) kv.2) (kv :: m)) as Hp.
    { rewrite Forall_forall in *. intros y Hy. apply IH; [done|]. rewrite forallb_forall in Hok.
      specialize (Hok y). apply list_elem_of_In in Hy. specialize (Hok Hy). by apply andb_prop in Hok as [_ ?]. }
    destruct fuel as [|fuel]; [lia|].
    destruct (parse_members_ok depth (kv :: m) [] fuel rest) as (t & E & Hpm); [done..|lia|].
    rewrite E. cbn [app]. rewrite token by done. cbn [pbind]. done.
Qed.
End json.

Arguments POk {A} a rest.
Arguments PFail {A} msg.
Arguments POut {A}.

Lemma parse_of_dump `{D : Doubles} strategy j : json_ok 0 j = true -> parse strategy (dump j) = POk j [].
Proof.
  intros Hok. unfold parse. replace (2 * length (dump j) + 2)%nat with (S (2 * length (dump j) + 1)) by lia.
  pose proof (parse_dump strategy j 0 Hok (2 * length (dump j) + 1)%nat []) as H. rewrite app_nil_r in H.
  rewrite H by (done || lia). by destruct strategy.
Qed.

(** Printing and parsing are inverse. For every JSON value without doubles
    whose integers have at most nine characters (arbitrary bytes in strings and
    keys, escapes, nested arrays and objects down to the parser's depth limit),
    [Json::parse] of [dump] returns the value, with no error and no text left,
    whether comments are allowed or not. *)
Theorem json_roundtrip `{D : Doubles} strategy j : json_ok 0 j = true -> parse strategy (dump j) = POk j [].
Proof. apply parse_of_dump. Qed.

(** An instance for evaluation: doubles as the numerals they were read from. *)
Definition numeral_doubles : Doubles :=
  {| double := list Z; strtod := id; isfinite _ := true; print_17g := id; double_to_int _ := None |}.

Definition sample_json : Json (H := numeral_doubles) :=
  JObject [(str "block", JArray [JInt (-12); JNull; JString [34; 10; 0; 0xe2; 0x80; 0xa8; 255]]); (str "ok", JBool true)].

Lemma json_roundtrip_witness : parse (D := numeral_doubles) COMMENTS (dump sample_json) = POk sample_json [].
Proof. apply (json_roundtrip (D := numeral_doubles) COMMENTS sample_json). vm_compute. reflexivity. Defined.

(** The parser is total. On every text, well-formed or not, [Json::parse]
    terminates with a value or an error message, under either strategy: no
    nesting, unfinished string, escape or comment makes it loop or run away. *)
Theorem json_parse_total `{D : Doubles} strategy inp :
  (exists j, parse strategy inp = POk j []) \/ (exists msg, parse strategy inp = PFail msg).
Proof.
  destruct (parse strategy inp) as [j r|msg|] eqn:E; [|by right; exists msg|by apply parse_not_out in E].
  left. exists j. unfold parse in E. destruct (parse_json _ _ _) as [j' r'| |]; cbn in E; [|done|done].
  destruct (consume_garbage strategy r') as [[] [|c r2]| |]; cbn in E; [|done..]. by injection E as -> <-.
Qed.

(** Ten digits are read as a double. *)
Example ten_digits_double :
  parse (D := numeral_doubles) STANDARD (dump (D := numeral_doubles) (JInt 1234567890)) = POk (JDouble (H := numeral_doubles) (str "1234567890")) [].
Proof. vm_compute. reflexivity. Qed.
