(* ===== verification/JsonMulti.v ===== *)
(** Comments, concatenated documents and shapes of JSON values: what
    [src/libs/json11/json11.cpp] offers on top of the parser of [Json].

    A gap is what may stand around a document: white space and, where the
    strategy of the parser allows it, comments. [parse_multi] reads a text that
    holds several documents; the fuel of its loop is the length of the text,
    since every round consumes a character. *)
From S2P Require Import Prelude Json.

Section multi.
Context `{D : Doubles} (strategy : JsonParse).

(** ** Gaps: white space and comments *)

Inductive gap :=
| Space (c : Z)
| Line (text : list Z)
| Block (text : list Z).

Definition gap_text (g : gap) : list Z :=
  match g with
  | Space c => [c]
  | Line t => 47 :: 47 :: t ++ [10]
  | Block t => 47 :: 42 :: t ++ [42; 47]
  end.

Definition gaps_text (gs : list gap) : list Z := concat (map gap_text gs).

(** No [*/] inside. *)
Fixpoint no_close (t : list Z) : bool :=
  match t with
  | c :: (d :: _) as t' => negb ((c =? 42) && (d =? 47)) && no_close t'
  | _ => true
  end.

Definition comments_allowed : bool := match strategy with COMMENTS => true | STANDARD => false end.

Definition gap_ok (g : gap) : bool :=
  match g with
  | Space c => (c =? 32) || (c =? 13) || (c =? 10) || (c =? 9)
  | Line t => comments_allowed && forallb (fun c => negb (c =? 10)) t
  | Block t => comments_allowed && no_close t
  end.

(** ** Several documents *)

Record multi := { json_vec : list Json; parser_stop_pos : nat; err : option (list Z) }.

(** What [parse_json] returns when it fails: an unfinished string is returned as
    the empty string, everything else as null. *)
Definition failed_value (s : list Z) : Json :=
  match get_next_token strategy s with
  | POk ch _ => if ch =? 34 then JString [] else JNull
  | _ => JNull
  end.

Fixpoint multi_loop (fuel size stop : nat) (json_vec : list Json) (s : list Z) : option multi :=
  match fuel with
  | O => None
  | S fuel' =>
      match s with
      | [] => Some {| json_vec := json_vec; parser_stop_pos := stop; err := None |}
      | _ =>
          match parse_json strategy (2 * length s + 2) 0 s with
          | POut => None
          | PFail msg =>
              Some {| json_vec := json_vec ++ [failed_value s]; parser_stop_pos := stop; err := Some msg |}
          | POk v r =>
              match consume_garbage strategy r with
              | POut => None
              | PFail msg => Some {| json_vec := json_vec ++ [v]; parser_stop_pos := stop; err := Some msg |}
              | POk _ r' => multi_loop fuel' size (size - length r') (json_vec ++ [v]) r'
              end
          end
      end
  end.

Definition parse_multi (inp : list Z) : option multi :=
  multi_loop (S (length inp)) (length inp) 0 [] inp.

(** ** Shapes *)

Inductive JsonType := NUL | NUMBER | BOOL | STRING | ARRAY | OBJECT.

#[export] Instance JsonType_eq_dec : EqDecision JsonType.
Proof. solve_decision. Defined.

Definition type (j : Json) : JsonType :=
  match j with
  | JNull => NUL
  | JInt _ | JDouble _ => NUMBER
  | JBool _ => BOOL
  | JString _ => STRING
  | JArray _ => ARRAY
  | JObject _ => OBJECT
  end.

Fixpoint check_types (j : Json) (types : list (list Z * JsonType)) : bool * option (list Z) :=
  match types with
  | [] => (true, None)
  | item :: types' =>
      if bool_decide (type (at_key j item.1) = item.2) then check_types j types'
      else (false, Some (str "bad type for " ++ item.1 ++ str " in " ++ dump j))
  end.

(** The result and what is assigned to [err]. *)
Definition has_shape (j : Json) (types : list (list Z * JsonType)) : bool * option (list Z) :=
  if bool_decide (type j = OBJECT) then check_types j types
  else (false, Some (str "expected JSON object, got " ++ dump j)).

(** ** Gaps are skipped *)

Lemma skip_line_text t rest :
  forallb (fun c => negb (c =? 10)) t = true -> skip_line (t ++ 10 :: rest) = 10 :: rest.
Proof.
  induction t as [|c t IH]; [done|]. cbn. intros [Hc Ht]%andb_prop. apply negb_true_iff in Hc. rewrite Hc. auto.
Qed.

Lemma skip_block_step c d r :
  skip_block (c :: d :: r) = if (c =? 42) && (d =? 47) then POk tt r else skip_block (d :: r).
Proof. done. Qed.

Lemma skip_block_text t rest : no_close t = true -> skip_block (t ++ 42 :: 47 :: rest) = POk tt rest.
Proof.
  induction t as [|c [|d t] IH]; intros H; [done| |].
  - cbn [app]. rewrite skip_block_step. rewrite andb_false_r. done.
  - cbn [no_close] in H. apply andb_prop in H as [H Ht]. cbn [app]. rewrite skip_block_step.
    apply negb_true_iff in H. rewrite H. by apply IH.
Qed.

Lemma comments_S f s :
  consume_comments (S f) s = pbind (consume_comment s) (fun comment_found r =>
    if comment_found then consume_comments f (consume_whitespace r) else POk tt (consume_whitespace r)).
Proof. done. Qed.

Lemma consume_comments_fuel f1 f2 s :
  (length s < f1)%nat -> (length s < f2)%nat -> consume_comments f1 s = consume_comments f2 s.
Proof.
  revert f2 s. induction f1 as [|f1 IH]; intros [|f2] s H1 H2; [lia..|]. rewrite !comments_S.
  pose proof (consume_comment_length s) as H. destruct (consume_comment s) as [[] r| |]; cbn [pbind]; try done.
  pose proof (consume_whitespace_length r). apply IH; lia.
Qed.

(** The loop of [consume_garbage], one comment at a time. *)
Lemma garbage_step s :
  comments_allowed = true ->
  consume_garbage strategy s =
  pbind (consume_comment (consume_whitespace s)) (fun comment_found r =>
    if comment_found then consume_garbage strategy r else POk tt (consume_whitespace r)).
Proof.
  unfold comments_allowed, consume_garbage. destruct strategy; [done|intros _].
  pose proof (consume_comment_length (consume_whitespace s)) as H.
  rewrite comments_S.
  destruct (consume_comment _) as [[] r| |]; cbn [pbind]; try done.
  pose proof (consume_whitespace_length r). apply consume_comments_fuel; lia.
Qed.

Lemma garbage_white c s :
  gap_ok (Space c) = true -> consume_garbage strategy (c :: s) = consume_garbage strategy s.
Proof. cbn [gap_ok]. intros H. unfold consume_garbage. cbn [consume_whitespace]. by rewrite H. Qed.

Lemma garbage_gap g s : gap_ok g = true -> consume_garbage strategy (gap_text g ++ s) = consume_garbage strategy s.
Proof.
  destruct g as [c|t|t]; [by apply garbage_white|..]; cbn [gap_ok gap_text]; intros [Hc Ht]%andb_prop;
    rewrite garbage_step by done; cbn [app]; rewrite <- app_assoc; cbn -[consume_garbage skip_block].
  - rewrite skip_line_text by done. by apply garbage_white.
  - by rewrite skip_block_text.
Qed.

Lemma garbage_gaps gs s :
  forallb gap_ok gs = true -> consume_garbage strategy (gaps_text gs ++ s) = consume_garbage strategy s.
Proof.
  unfold gaps_text. induction gs as [|g gs IH]; [done|]. cbn [forallb map concat]. intros [Hg Hgs]%andb_prop.
  rewrite <- app_assoc, garbage_gap by done. by apply IH.
Qed.

Lemma parse_json_gaps gs fuel depth s :
  forallb gap_ok gs = true ->
  parse_json strategy fuel depth (gaps_text gs ++ s) = parse_json strategy fuel depth s.
Proof.
  intros H. destruct fuel as [|fuel]; [done|]. cbn [parse_json].
  assert (get_next_token strategy (gaps_text gs ++ s) = get_next_token strategy s) as ->; [|done].
  unfold get_next_token. by rewrite garbage_gaps.
Qed.

Lemma gaps_stop g gs s : gap_ok g = true -> stops (gaps_text (g :: gs) ++ s).
Proof.
  unfold stops, gaps_text, in_range, is_num_tail.
  destruct g as [c|t|t]; cbn [gap_ok]; intros H; cbn -[Z.eqb Z.leb]; [lia|done|done].
Qed.
(** ** Texts that hold several documents *)

Fixpoint docs_text (docs : list (Json * list gap)) : list Z :=
  match docs with
  | [] => []
  | (j, gs) :: docs' => dump j ++ gaps_text gs ++ docs_text docs'
  end.

(** Without a gap the text of [j] must not continue a number. *)
Definition separates (j : Json) : bool := match j with JInt z => z <? 0 | _ => true end.

Fixpoint docs_ok (docs : list (Json * list gap)) : bool :=
  match docs with
  | [] => true
  | (j, gs) :: docs' =>
      json_ok 0 j && forallb gap_ok gs
      && match gs, docs' with [], (j', _) :: _ => separates j' | _, _ => true end
      && docs_ok docs'
  end.

Lemma dump_stops depth j s : json_ok depth j = true -> separates j = true -> stops (dump j ++ s).
Proof.
  destruct j as [|z|d|b|t|l|m]; cbn [json_ok separates]; intros Hok Hs; try done.
  - cbn [dump]. unfold print_d. rewrite Hs. done.
  - by rewrite andb_false_r in Hok.
  - by destruct b.
Qed.

Lemma docs_stop j gs docs :
  docs_ok ((j, gs) :: docs) = true -> stops (gaps_text gs ++ docs_text docs).
Proof.
  cbn [docs_ok]. intros [[[_ Hg]%andb_prop Hs]%andb_prop Hd]%andb_prop.
  destruct gs as [|g gs]; [|cbn [forallb] in Hg; apply andb_prop in Hg as [Hg _]; by apply gaps_stop].
  cbn [app gaps_text concat map]. destruct docs as [|[j' gs'] docs]; [done|].
  cbn [docs_ok] in Hd. apply andb_prop in Hd as [[[Hj _]%andb_prop _]%andb_prop _].
  cbn [docs_text]. by eapply dump_stops.
Qed.

(** No garbage in front of a document, and none at the end. *)
Lemma docs_no_garbage docs : docs_ok docs = true -> consume_garbage strategy (docs_text docs) = POk tt (docs_text docs).
Proof.
  destruct docs as [|[j gs] docs]; cbn [docs_ok docs_text]; [by destruct strategy|].
  intros [[[Hj _]%andb_prop _]%andb_prop _]%andb_prop.
  destruct (dump_head _ _ Hj) as (c & t & -> & Hw & _). by apply no_garbage.
Qed.

Lemma dump_not_nil depth j : json_ok depth j = true -> dump j <> [].
Proof. intros H. by destruct (dump_head _ _ H) as (c & t & -> & _). Qed.

(** One round of the loop reads one document and the gap behind it. *)
Lemma multi_round fuel size stop acc lead j gs docs :
  forallb gap_ok lead = true -> docs_ok ((j, gs) :: docs) = true ->
  multi_loop (S fuel) size stop acc (gaps_text lead ++ docs_text ((j, gs) :: docs)) =
  multi_loop fuel size (size - length (docs_text docs)) (acc ++ [j]) (docs_text docs).
Proof.
  intros Hl Hd. pose proof (docs_stop _ _ _ Hd) as Hst. cbn [docs_ok] in Hd.
  apply andb_prop in Hd as [[[Hj Hg]%andb_prop _]%andb_prop Hd].
  pose proof (dump_not_nil _ _ Hj) as Hn. cbn [multi_loop docs_text].
  set (s := gaps_text lead ++ dump j ++ gaps_text gs ++ docs_text docs).
  assert (parse_json strategy (2 * length s + 2) 0 s = POk j (gaps_text gs ++ docs_text docs)) as ->.
  { unfold s at 2. rewrite parse_json_gaps by done.
    replace (2 * length s + 2)%nat with (S (2 * length s + 1)) by lia.
    apply parse_dump; [done..|]. unfold s. rewrite !length_app. lia. }
  rewrite garbage_gaps, docs_no_garbage by done.
  destruct s eqn:E; [|done]. unfold s in E. apply app_nil in E as [_ [? _]%app_nil]. done.
Qed.

Lemma multi_docs docs fuel size stop acc :
  docs_ok docs = true -> (length docs < fuel)%nat -> docs <> [] \/ stop = size ->
  multi_loop fuel size stop acc (docs_text docs) =
  Some {| json_vec := acc ++ map fst docs; parser_stop_pos := size; err := None |}.
Proof.
  revert fuel stop acc. induction docs as [|[j gs] docs IH]; intros fuel stop acc Hd Hf Hs.
  - destruct fuel; [cbn in Hf; lia|]. destruct Hs as [?| ->]; [done|]. cbn. by rewrite app_nil_r.
  - destruct fuel as [|fuel]; [lia|].
    change (docs_text ((j, gs) :: docs)) with (gaps_text [] ++ docs_text ((j, gs) :: docs)).
    rewrite multi_round by done.
    cbn [docs_ok] in Hd. apply andb_prop in Hd as [_ Hd]. cbn [length] in Hf.
    rewrite IH; [|done|lia|destruct docs; [right; cbn; lia|by left]]. cbn [map]. by rewrite <- app_assoc.
Qed.

Lemma docs_length docs : docs_ok docs = true -> (length docs <= length (docs_text docs))%nat.
Proof.
  induction docs as [|[j gs] docs IH]; [done|]. cbn [docs_ok docs_text].
  intros [[[Hj _]%andb_prop _]%andb_prop Hd]%andb_prop. pose proof (dump_not_nil _ _ Hj) as Hn.
  rewrite !length_app. specialize (IH Hd). destruct (dump j); [done|]. cbn [length]. lia.
Qed.

(** ** The loop ends; the error and the stop position tell whether all was read *)

Definition complete (size : nat) (m : multi) : Prop :=
  (parser_stop_pos m <= size)%nat /\ (err m = None <-> parser_stop_pos m = size).

Lemma multi_loop_complete fuel size stop acc s :
  (length s < fuel)%nat -> (length s <= size)%nat -> stop = (size - length s)%nat ->
  exists m, multi_loop fuel size stop acc s = Some m /\ complete size m.
Proof.
  unfold complete. revert stop acc s. induction fuel as [|fuel IH]; intros stop acc s Hf Hl Hs; [lia|].
  cbn [multi_loop]. destruct s as [|c s].
  { cbn in Hs. eexists. split; [done|]. cbn. split; [lia|split; [lia|done]]. }
  cbn [length] in Hs, Hl, Hf.
  assert (stop < size)%nat by lia.
  pose proof (proj1 (parse_total_aux strategy (2 * length (c :: s) + 2)) 0 (c :: s) ltac:(lia)) as Hp.
  set (t := c :: s) in *. assert (length t = S (length s)) as Et by done.
  destruct (parse_json _ _ _ _) as [v r|msg|]; [| |done];
    [|eexists; split; [done|]; cbn; split; [lia|split; [done|lia]]].
  cbn in Hp. pose proof (consume_garbage_not_longer strategy r) as Hg.
  destruct (consume_garbage strategy r) as [[] r'|msg|]; [| |done];
    [|eexists; split; [done|]; cbn; split; [lia|split; [done|lia]]].
  cbn in Hg. apply IH; lia.
Qed.
End multi.

(** C9: a stream of documents is read back. Documents printed one after the
    other, each followed by white space and (where the strategy allows them)
    comments, are exactly the values that [parse_multi] returns, in order, with
    the stop position at the end of the text and no error; a gap may be missing
    wherever the next document does not begin with a digit. *)
Theorem parse_multi_roundtrip `{D : Doubles} strategy lead docs :
  docs <> [] -> forallb (gap_ok strategy) lead = true -> docs_ok strategy docs = true ->
  parse_multi strategy (gaps_text lead ++ docs_text docs) =
  Some {| json_vec := map fst docs; parser_stop_pos := length (gaps_text lead ++ docs_text docs); err := None |}.
Proof.
  intros Hne Hl Hd. unfold parse_multi. pose proof (docs_length _ docs Hd) as Hlen.
  destruct docs as [|[j gs] docs]; [done|]. rewrite multi_round by done.
  cbn [docs_ok] in Hd. apply andb_prop in Hd as [_ Hd]. cbn [length] in Hlen.
  rewrite multi_docs; [done|done|rewrite length_app; lia|destruct docs; [right; cbn; lia|by left]].
Qed.

Lemma parse_multi_roundtrip_witness :
  let doc1 := JArray (H := numeral_doubles) [JInt 1; JString (str "x")] in
  parse_multi (D := numeral_doubles) COMMENTS
    (gaps_text [Line (str "first")] ++ docs_text [(doc1, []); (JBool true, [Space 32; Block (str "**")]); (JInt 7, [])]) =
  Some {| json_vec := [doc1; JBool true; JInt 7]; parser_stop_pos := 28; err := None |}.
Proof.
  exact (parse_multi_roundtrip (D := numeral_doubles) COMMENTS [Line (str "first")]
           [(JArray [JInt 1; JString (str "x")], []); (JBool true, [Space 32; Block (str "**")]); (JInt 7, [])]
           ltac:(discriminate) eq_refl eq_refl).
Defined.

(** One document may be surrounded by gaps. *)
Theorem parse_with_gaps `{D : Doubles} strategy lead j trail :
  forallb (gap_ok strategy) lead = true -> json_ok 0 j = true -> forallb (gap_ok strategy) trail = true ->
  parse strategy (gaps_text lead ++ dump j ++ gaps_text trail) = POk j [].
Proof.
  intros Hl Hj Ht. unfold parse. set (t := gaps_text lead ++ dump j ++ gaps_text trail).
  assert (parse_json strategy (2 * length t + 2) 0 t = POk j (gaps_text trail)) as ->.
  { unfold t at 2. rewrite parse_json_gaps by done.
    replace (2 * length t + 2)%nat with (S (2 * length t + 1)) by lia.
    apply parse_dump; [done| |unfold t; rewrite !length_app; lia].
    destruct trail as [|g gs]; [done|]. cbn [forallb] in Ht. apply andb_prop in Ht as [Hg _].
    rewrite <- (app_nil_r (gaps_text _)). by apply (gaps_stop strategy). }
  cbn [pbind]. rewrite <- (app_nil_r (gaps_text trail)), garbage_gaps by done. by destruct strategy.
Qed.

(** C35: [parse_multi] ends on every text, under either strategy; it reports an error exactly when it stops
    before the end. *)
Theorem parse_multi_complete `{D : Doubles} strategy inp :
  exists m, parse_multi strategy inp = Some m /\ (parser_stop_pos m <= length inp)%nat
    /\ (err m = None <-> parser_stop_pos m = length inp).
Proof. apply multi_loop_complete; lia. Qed.

(** [has_shape] holds of the objects whose members have the types asked for; an
    absent member counts as null. *)
Theorem has_shape_spec `{D : Doubles} j types :
  (has_shape j types).1 = true <->
  (exists m, j = JObject m) /\ Forall (fun item => type (at_key j item.1) = item.2) types.
Proof.
  unfold has_shape. destruct (bool_decide_reflect (type j = OBJECT)) as [Hj|Hj].
  - assert (exists m, j = JObject m) as Ho by (destruct j; try done; eauto).
    transitivity (Forall (fun item => type (at_key j item.1) = item.2) types); [|intuition].
    clear Ho. induction types as [|item types IH]; [by split|]. cbn [check_types]. rewrite Forall_cons, <- IH.
    destruct (bool_decide_reflect (type (at_key j item.1) = item.2)); naive_solver.
  - split; [done|]. intros [[m ->] _]. done.
Qed.
