(* ===== verification/JsonTyped.v ===== *)
(** What the parser of [src/libs/json11/json11.cpp] can return: the type of the values
    that the functions of [Json] and [JsonMulti] build from a text, and what follows
    for printing them.

    [has_type] lists what the C++ types and the code promise: integers are [int]s of
    at most nine characters, the characters of strings are bytes, the members of an
    object are in the order of their keys, each key once, and values are not nested
    deeper than [max_depth]. *)
From S2P Require Import Prelude Json JsonMulti.

Create HintDb typed.

Section types.
Context `{D : Doubles}.

(** ** The type of values *)

Fixpoint has_type (depth : Z) (j : Json) : bool :=
  (depth <=? max_depth) &&
  match j with
  | JNull | JBool _ | JDouble _ => true
  | JInt z => short_int z
  | JString s => forallb byteb s
  | JArray l => forallb (has_type (depth + 1)) l
  | JObject m => forallb (fun kv => forallb byteb kv.1 && has_type (depth + 1) kv.2) m && sorted_keys (map fst m)
  end.

Fixpoint double_free (j : Json) : bool :=
  match j with
  | JDouble _ => false
  | JArray l => forallb double_free l
  | JObject m => forallb (fun kv => double_free kv.2) m
  | _ => true
  end.

(** The values that are printed and parsed unchanged are those without doubles. *)
Lemma has_type_ok depth j : has_type depth j = true -> double_free j = true -> json_ok depth j = true.
Proof.
  revert depth. induction j as [| | | | |l IH|m IH] using Json_nested_ind; intros depth Ht Hd; try done.
  - cbn in *. apply andb_prop in Ht as [-> Ht]. cbn. induction IH as [|x l Hx _ IHl]; [done|]. cbn in *.
    apply andb_prop in Ht as [Ht Hts], Hd as [Hd Hds]. by rewrite Hx, IHl.
  - cbn in *. apply andb_prop in Ht as [-> [Ht ->]%andb_prop]. cbn. rewrite andb_true_r. induction IH as [|[k x] m Hx _ IHm]; [done|]. cbn in *.
    apply andb_prop in Ht as [[-> Ht]%andb_prop Hts], Hd as [Hd Hds]. by rewrite Hx, IHm.
Qed.

Lemma has_type_depth depth j : has_type depth j = true -> depth <= max_depth.
Proof. destruct j; cbn; intros [H _]%andb_prop; by apply Z.leb_le. Qed.

Lemma short_int_int z : short_int z = true -> - 2 ^ 31 <= z < 2 ^ 31.
Proof. unfold short_int. lia. Qed.

(** ** Results *)

(** A result satisfies [P], and what is left of the text are bytes. *)
Definition yields {A} (P : A -> Prop) (m : presult A) : Prop :=
  match m with POk a r => P a /\ bytes_ok r | _ => True end.

Lemma yields_pbind {A B} (P : A -> Prop) (Q : B -> Prop) m (f : A -> list Z -> presult B) :
  yields P m -> (forall a r, P a -> bytes_ok r -> yields Q (f a r)) -> yields Q (pbind m f).
Proof. intros Hm Hf. destruct m as [a r| |]; cbn; [|done..]. destruct Hm. by apply Hf. Qed.

Lemma bytes_tail s : bytes_ok s -> bytes_ok (tail s).
Proof. by intros [|]. Qed.

Lemma bytes_drop n s : bytes_ok s -> bytes_ok (drop n s).
Proof. apply Forall_drop. Qed.

#[local] Hint Resolve bytes_tail bytes_drop : typed.

Lemma bytes_byteb s : bytes_ok s -> forallb byteb s = true.
Proof. induction 1 as [|c s Hc _ IH]; [done|]. cbn. rewrite IH. unfold is_byte, byteb in *. lia. Qed.

(** ** White space, comments and tokens *)

Lemma bytes_whitespace s : bytes_ok s -> bytes_ok (consume_whitespace s).
Proof. induction 1 as [|c s Hc Hs IH]; [done|]. cbn. destruct (_ || _); [done|]. by constructor. Qed.

Lemma bytes_line s : bytes_ok s -> bytes_ok (skip_line s).
Proof. induction 1 as [|c s Hc Hs IH]; [done|]. cbn. destruct (_ =? _); [by constructor|done]. Qed.

Lemma bytes_digits s : bytes_ok s -> bytes_ok (skip_digits s).
Proof. induction 1 as [|c s Hc Hs IH]; [done|]. cbn. destruct (in_range _ _ _); [done|by constructor]. Qed.

#[local] Hint Resolve bytes_whitespace bytes_line bytes_digits : typed.

Lemma yields_block s : bytes_ok s -> yields (fun _ => True) (skip_block s).
Proof.
  induction 1 as [|c s Hc Hs IH]; [done|]. destruct s as [|d r]; [done|].
  change (skip_block (c :: d :: r)) with (if (c =? 42) && (d =? 47) then POk tt r else skip_block (d :: r)).
  destruct (_ && _); [|done]. split; [done|]. by apply Forall_cons in Hs as [_ ?].
Qed.

Lemma yields_comment s : bytes_ok s -> yields (fun _ => True) (consume_comment s).
Proof.
  intros Hs. unfold consume_comment. destruct (_ =? 47); [|done]. pose proof (bytes_tail s Hs) as Ht.
  destruct (tail s) as [|c r]; [done|]. apply Forall_cons in Ht as [_ Hr]. destruct (_ =? 47); [split; auto with typed|].
  destruct (_ =? 42); [|done]. eapply yields_pbind; [by apply yields_block|]. by intros [] r' _ Hr'.
Qed.

Lemma yields_comments fuel s : bytes_ok s -> yields (fun _ => True) (consume_comments fuel s).
Proof.
  revert s. induction fuel as [|fuel IH]; intros s Hs; [done|]. cbn [consume_comments].
  eapply yields_pbind; [by apply yields_comment|]. intros [] r _ Hr; [apply IH|split]; auto with typed.
Qed.

Lemma yields_garbage strategy s : bytes_ok s -> yields (fun _ => True) (consume_garbage strategy s).
Proof. intros Hs. unfold consume_garbage. destruct strategy; [split; auto with typed|]. apply yields_comments. auto with typed. Qed.

Lemma yields_token strategy s : bytes_ok s -> yields is_byte (get_next_token strategy s).
Proof.
  intros Hs. unfold get_next_token. eapply yields_pbind; [by apply yields_garbage|].
  intros _ [|c r] _ Hr; [done|]. by apply Forall_cons in Hr.
Qed.

(** ** Strings *)

Lemma encode_utf8_bytes pt : bytes_ok (encode_utf8 pt).
Proof.
  unfold encode_utf8. destruct (Z.ltb_spec pt 0); [constructor|]. destruct (Z.ltb_spec pt 0x80); [repeat constructor; lia|].
  destruct (_ <? _); [|destruct (_ <? _)]; repeat (apply List.Forall_cons; [apply uwrap_byte|]); constructor.
Qed.

Lemma unescape_byte ch c : is_byte ch -> unescape ch = Some c -> is_byte c.
Proof. intros Hch. unfold unescape. repeat case_match; intros [= <-]; unfold is_byte in *; lia. Qed.

Lemma yields_string_loop fuel last out s : bytes_ok out -> bytes_ok s -> yields bytes_ok (parse_string_loop fuel last out s).
Proof.
  revert last out s. induction fuel as [|fuel IH]; intros last out s Ho Hs; [done|]. cbn [parse_string_loop].
  destruct s as [|ch s1]; [done|]. apply Forall_cons in Hs as [Hch Hs1]. pose proof (encode_utf8_bytes last) as Hl.
  assert (forall c, is_byte c -> bytes_ok (out ++ encode_utf8 last ++ [c])) as Hout
    by (intros c Hc; apply Forall_app; split; [done|]; apply Forall_app; split; [done|]; by apply Forall_singleton).
  destruct (_ =? 34); [split; [by apply Forall_app|done]|]. destruct (in_range _ _ _); [done|].
  destruct (negb _); [by apply IH; [apply Hout|]|]. destruct s1 as [|ch' s2]; [done|]. apply Forall_cons in Hs1 as [Hch' Hs2].
  destruct (_ =? 117).
  - destruct (_ <? _)%nat; [done|]. destruct (negb _); [done|].
    destruct (_ && _); (apply IH; [apply Forall_app; split; [done|apply encode_utf8_bytes]|auto with typed]).
  - destruct (unescape ch') as [c|] eqn:Ec; [|done]. apply IH; [|done]. by apply Hout, (unescape_byte ch').
Qed.

Lemma yields_string s : bytes_ok s -> yields bytes_ok (parse_string s).
Proof. apply yields_string_loop. constructor. Qed.

(** ** Numbers *)

(** The digits that are skipped are those of the value. *)
Lemma digits_value_bound s acc : 0 <= acc ->
  0 <= digits_value s acc < (acc + 1) * 10 ^ Z.of_nat (length s - length (skip_digits s)).
Proof.
  revert acc. induction s as [|c s IH]; intros acc Hacc; [cbn; lia|]. cbn [digits_value skip_digits].
  destruct (in_range c 48 57) eqn:E; [|rewrite Nat.sub_diag; cbn; lia]. unfold in_range in E.
  pose proof (skip_digits_length s) as Hl. cbn [length].
  replace (S (length s) - length (skip_digits s))%nat with (S (length s - length (skip_digits s))) by lia.
  rewrite Nat2Z.inj_succ, Z.pow_succ_r by lia. pose proof (IH (10 * acc + (c - 48)) ltac:(lia)) as [H1 H2]. split; [done|].
  eapply Z.lt_le_trans; [exact H2|]. rewrite Z.mul_assoc. apply Z.mul_le_mono_nonneg_r; lia.
Qed.

Lemma pow10_le n k : (n <= k)%nat -> 10 ^ Z.of_nat n <= 10 ^ Z.of_nat k.
Proof. intros. apply Z.pow_le_mono_r; lia. Qed.

(** The integer part of a numeral. *)
Definition int_part (s : list Z) : presult unit :=
  if cur s =? 48 then
    if in_range (cur (tail s)) 48 57 then PFail (str "leading 0s not permitted in numbers") else POk tt (tail s)
  else if in_range (cur s) 49 57 then POk tt (skip_digits (tail s))
  else PFail (str "invalid " ++ esc (cur s) ++ str " in number").

Lemma int_part_bound s : bytes_ok s ->
  match int_part s with
  | POk _ r => bytes_ok r /\ (length r < length s)%nat /\ 0 <= digits_value s 0 < 10 ^ Z.of_nat (length s - length r)
  | _ => True
  end.
Proof.
  intros Hs. unfold int_part. destruct s as [|c s]; [done|]. cbn [cur tail]. apply Forall_cons in Hs as [_ Hs].
  pose proof (digits_value_bound (c :: s) 0 ltac:(lia)) as Hb. cbn [digits_value skip_digits] in *.
  destruct (Z.eqb_spec c 48) as [->|Hc].
  - destruct (in_range (cur s) 48 57) eqn:E; [done|]. split; [done|]. split; [cbn; lia|]. change (in_range 48 48 57) with true. cbv iota.
    rewrite digits_value_stop by done. cbn [length]. replace (S (length s) - length s)%nat with 1%nat by lia. by vm_compute.
  - destruct (in_range c 49 57) eqn:E; [|done]. assert (in_range c 48 57 = true) as E' by (unfold in_range in *; lia). rewrite E' in *.
    split; [auto with typed|]. pose proof (skip_digits_length s). split; [cbn; lia|]. lia.
Qed.

(** An integer has at most nine characters, its sign among them. *)
Lemma yields_number depth s0 : depth <= max_depth -> bytes_ok s0 -> yields (fun j => has_type depth j = true) (parse_number s0).
Proof.
  intros Hd H0. apply Z.leb_le in Hd. unfold parse_number. set (s := if cur s0 =? 45 then tail s0 else s0).
  assert (bytes_ok s) as Hs by (unfold s; destruct (_ =? _); auto with typed).
  match goal with |- yields _ (pbind ?m ?f) => change (pbind m f) with (pbind (int_part s) f) end.
  pose proof (int_part_bound s Hs) as Hi. destruct (int_part s) as [[] r| |]; [|done..]. destruct Hi as (Hr & Hl & Hv). cbn [pbind].
  destruct (_ && _) eqn:Ei.
  - apply andb_prop in Ei as [_ Ei%Nat.leb_le]. split; [|done]. cbn. rewrite Hd. cbn [andb]. unfold short_int, atoi.
    revert Hl Hv. unfold s. destruct (Z.eqb_spec (cur s0) 45) as [E|E]; intros Hl Hv.
    + assert (S (length (tail s0)) = length s0) as El by (destruct s0; [done|reflexivity]).
      pose proof (pow10_le (length (tail s0) - length r) 8 ltac:(lia)). change (10 ^ Z.of_nat 8) with (10 ^ 8) in *. lia.
    + pose proof (pow10_le (length s0 - length r) 9 ltac:(lia)). change (10 ^ Z.of_nat 9) with (10 ^ 9) in *. lia.
  - clear Ei Hv Hl. eapply (yields_pbind (fun _ => True)).
    + destruct (_ =? 46); [|done]. destruct (negb _); [done|]. split; auto with typed.
    + intros [] r2 _ Hr2. eapply (yields_pbind (fun _ => True)); [|intros [] r3 _ Hr3; split; [cbn; by rewrite Hd|done]].
      destruct (_ || _); [|done]. cbv zeta. destruct (negb _); [done|]. split; [done|]. destruct (_ || _); auto with typed.
Qed.

(** ** Values *)

Lemma yields_expect (P : Json -> Prop) e j s : P j -> bytes_ok s -> yields P (expect e j s).
Proof. intros Hj Hs. unfold expect. destruct (bool_decide _); [|done]. split; auto with typed. Qed.

(** The members so far: their keys are in order, and the values one level deeper. *)
Definition members_typed (depth : Z) (m : list (list Z * Json)) : Prop :=
  sorted_map m /\ Forall (fun kv => bytes_ok kv.1 /\ has_type (depth + 1) kv.2 = true) m.

Lemma sorted_map_keys (m : list (list Z * Json)) : sorted_map m -> sorted_keys (map fst m) = true.
Proof.
  unfold sorted_map. change (m.*1) with (map fst m). induction 1 as [|k ks Hs IH Hk]; [done|].
  destruct ks as [|k' ks]; [done|]. apply Forall_cons in Hk as [Hk _]. change (sorted_keys (k :: k' :: ks)) with (str_lt k k' && sorted_keys (k' :: ks)). by rewrite Hk, IH.
Qed.

Lemma map_set_Forall {A} (P : list Z * A -> Prop) key v m : P (key, v) -> Forall P m -> Forall P (map_set key v m).
Proof.
  intros Hv. induction 1 as [|[k w] m Hk Hm IH]; cbn; [by repeat constructor|].
  destruct (decide _); [by constructor|]. destruct (str_lt key k); by repeat constructor.
Qed.

Lemma members_typed_set depth key v m : members_typed depth m -> bytes_ok key -> has_type (depth + 1) v = true ->
  members_typed depth (map_set key v m).
Proof. intros [Hs Hm] Hk Hv. split; [by apply map_set_sorted|]. by apply map_set_Forall. Qed.

Lemma members_typed_object depth m : depth <= max_depth -> members_typed depth m -> has_type depth (JObject m) = true.
Proof.
  intros Hd [Hs Hm]. cbn. rewrite (proj2 (Z.leb_le _ _) Hd), sorted_map_keys by done. rewrite andb_true_r. cbn.
  apply forallb_forall. intros kv Hin. rewrite Forall_forall in Hm. destruct (Hm kv) as [Hk Hv]; [by apply list_elem_of_In|].
  by rewrite bytes_byteb, Hv.
Qed.

Lemma elements_typed depth l : depth <= max_depth -> Forall (fun j => has_type (depth + 1) j = true) l -> has_type depth (JArray l) = true.
Proof. intros Hd Hl. cbn. rewrite (proj2 (Z.leb_le _ _) Hd). apply forallb_forall. intros j Hin. rewrite Forall_forall in Hl. by apply Hl, list_elem_of_In. Qed.

Context (strategy : JsonParse).
#[local] Abbreviation typed depth := (fun j => has_type depth j = true).

Lemma yields_json fuel :
  (forall depth s, bytes_ok s -> yields (typed depth) (parse_json strategy fuel depth s))
  /\ (forall depth ch data s, depth <= max_depth -> bytes_ok s -> members_typed depth data ->
       yields (typed depth) (parse_members strategy fuel depth ch data s))
  /\ (forall depth data s, depth <= max_depth -> bytes_ok s -> Forall (typed (depth + 1)) data ->
       yields (typed depth) (parse_elements strategy fuel depth data s)).
Proof.
  induction fuel as [|fuel (IHj & IHm & IHe)]; [done|].
  assert (forall A (Q : A -> Prop) s (f : Z -> list Z -> presult A), bytes_ok s ->
    (forall ch r, bytes_ok (ch :: r) -> yields Q (f ch r)) -> yields Q (pbind (get_next_token strategy s) f)) as Htoken.
  { intros A Q s f Hs Hf. eapply yields_pbind; [by apply yields_token|]. intros ch r Hch Hr. apply Hf. by constructor. }
  split; [|split].
  - intros depth s Hs. cbn [parse_json]. destruct (Z.ltb_spec max_depth depth) as [|Hd]; [done|].
    apply Htoken; [done|]. intros ch r Hr. pose proof (proj1 (Forall_cons _ _ _) Hr) as [_ Hr'].
    assert (forall j, match j with JNull | JBool _ => True | _ => False end -> has_type depth j = true) as Hconst
      by (intros []; try done; intros _; cbn; by rewrite (proj2 (Z.leb_le _ _) Hd)).
    destruct (_ || _); [by apply yields_number|].
    destruct (_ =? 116); [by apply yields_expect; [apply Hconst|]|]. destruct (_ =? 102); [by apply yields_expect; [apply Hconst|]|].
    destruct (_ =? 110); [by apply yields_expect; [apply Hconst|]|].
    destruct (_ =? 34).
    { eapply yields_pbind; [by apply yields_string|]. intros v r2 Hv Hr2. split; [|done]. cbn. by rewrite (proj2 (Z.leb_le _ _) Hd), bytes_byteb. }
    destruct (_ =? 123).
    { apply Htoken; [done|]. intros c2 r2 Hr2. apply Forall_cons in Hr2 as [_ Hr2]. destruct (_ =? 125).
      - split; [|done]. cbn. by rewrite (proj2 (Z.leb_le _ _) Hd).
      - apply IHm; [done..|]. split; constructor. }
    destruct (_ =? 91); [|done]. apply Htoken; [done|]. intros c2 r2 Hr2. destruct (_ =? 93).
    + apply Forall_cons in Hr2 as [_ Hr2]. split; [|done]. cbn. by rewrite (proj2 (Z.leb_le _ _) Hd).
    + apply IHe; [done..|constructor].
  - intros depth ch data s Hd Hs Hm. cbn [parse_members]. destruct (negb _); [done|].
    eapply yields_pbind; [by apply yields_string|]. intros key r Hk Hr. apply Htoken; [done|]. intros c2 r2 Hr2.
    apply Forall_cons in Hr2 as [_ Hr2]. destruct (negb _); [done|]. eapply yields_pbind; [by apply IHj|]. intros v r3 Hv Hr3. cbv zeta.
    pose proof (members_typed_set depth key v data Hm Hk Hv) as Hm'. apply Htoken; [done|]. intros c4 r4 Hr4. apply Forall_cons in Hr4 as [_ Hr4].
    destruct (_ =? 125); [split; [by apply members_typed_object|done]|]. destruct (negb _); [done|].
    apply Htoken; [done|]. intros c5 r5 Hr5. apply Forall_cons in Hr5 as [_ Hr5]. by apply IHm.
  - intros depth data s Hd Hs Hm. cbn [parse_elements]. eapply yields_pbind; [by apply IHj|]. intros v r Hv Hr. cbv zeta.
    assert (Forall (typed (depth + 1)) (data ++ [v])) as Hm' by (apply Forall_app; split; [done|by apply Forall_singleton]).
    apply Htoken; [done|]. intros c2 r2 Hr2. apply Forall_cons in Hr2 as [_ Hr2].
    destruct (_ =? 93); [split; [by apply elements_typed|done]|]. destruct (negb _); [done|].
    apply Htoken; [done|]. intros c3 r3 Hr3. by apply IHe.
Qed.

Lemma parse_typed inp j r : bytes_ok inp -> parse strategy inp = POk j r -> has_type 0 j = true.
Proof.
  intros Hb E. unfold parse in E. pose proof (proj1 (yields_json (2 * length inp + 2)) 0 inp Hb) as Hj.
  destruct (parse_json _ _ _ _) as [j' r'| |]; [|done..]. cbn [pbind yields] in E, Hj.
  destruct (consume_garbage _ _) as [[] [|c r2]| |]; try done. injection E as <- _. apply Hj.
Qed.

(** C10: whatever the parser accepts has the type of JSON values, and printing it is a
    normal form. For every text of bytes, under either strategy, the value that is
    parsed contains only [int]s of at most nine characters, bytes in strings and keys,
    objects with every key once and in order, and is nested at most 200 deep; and if
    it contains no doubles, parsing the text that is printed for it, under either
    strategy, gives the same value again. *)
Theorem parse_well_typed inp j r : bytes_ok inp -> parse strategy inp = POk j r ->
  has_type 0 j = true /\ (double_free j = true -> forall strategy', parse strategy' (dump j) = POk j []).
Proof.
  intros Hb E. pose proof (parse_typed inp j r Hb E) as Ht. split; [done|]. intros Hd strategy'.
  by apply parse_of_dump, has_type_ok.
Qed.

(** The values of [parse_multi] have the type too, those of an unfinished text as well. *)
Lemma multi_loop_typed fuel size stop vec s m : bytes_ok s -> Forall (typed 0) vec ->
  multi_loop strategy fuel size stop vec s = Some m -> Forall (typed 0) (json_vec m).
Proof.
  revert stop vec s. induction fuel as [|fuel IH]; intros stop vec s Hs Hv E; [done|]. cbn [multi_loop] in E.
  destruct s as [|c s']; [by injection E as <-|]. set (s := c :: s') in *.
  pose proof (proj1 (yields_json (2 * length s + 2)) 0 s Hs) as Hj.
  destruct (parse_json _ _ _ _) as [j r|msg|]; [|injection E as <-; cbn; apply Forall_app; split; [done|apply Forall_singleton]|done].
  - destruct Hj as [Hj Hr]. assert (Forall (typed 0) (vec ++ [j])) as Hv' by (apply Forall_app; split; [done|by apply Forall_singleton]).
    pose proof (yields_garbage strategy r Hr) as Hg. destruct (consume_garbage _ _) as [[] r'| |]; [|by injection E as <-|done].
    by apply (IH _ _ _ (proj2 Hg) Hv' E).
  - unfold failed_value. destruct (get_next_token _ _) as [ch r| |]; try done. by destruct (ch =? 34).
Qed.

Lemma parse_multi_typed inp m : bytes_ok inp -> parse_multi strategy inp = Some m -> Forall (typed 0) (json_vec m).
Proof. intros Hb. by apply multi_loop_typed. Qed.
End types.

(** ** An example *)

#[local] Existing Instance numeral_doubles.

(** Members out of order, a key twice, and an escaped character. *)
Definition sample_text : list Z := str "{'b': [1, -22], 'a': {'x': null}, 'b': '\u00e9'}".
Definition quoted (s : list Z) : list Z := (fun c => if c =? 39 then 34 else c) <$> s.
Definition sample_value : Json :=
  JObject [(str "a", JObject [(str "x", JNull)]); (str "b", JString [0xc3; 0xa9])].

Lemma parse_well_typed_witness :
  parse COMMENTS (quoted sample_text) = POk sample_value [] /\ has_type 0 sample_value = true
  /\ parse STANDARD (dump sample_value) = POk sample_value [].
Proof.
  assert (parse COMMENTS (quoted sample_text) = POk sample_value []) as E by (vm_compute; reflexivity).
  assert (bytes_ok (quoted sample_text)) as Hb by (apply byteb_ok; vm_compute; reflexivity).
  destruct (parse_well_typed COMMENTS (quoted sample_text) sample_value [] Hb E) as [Ht Hp].
  split; [exact E|]. split; [exact Ht|]. apply Hp. vm_compute. reflexivity.
Defined.
