(* ===== verification/JsonOrder.v ===== *)
(** Comparing JSON values: the operators of [Json] in [src/libs/json11/json11.cpp] and
    [src/libs/json11/json11.hpp].

    The code compares the values that two shared pointers refer to, after a shortcut
    for equal pointers; [json_order] shows that the shortcut changes nothing for
    values without NaN. Numbers are compared as [double]s, whose comparisons are a
    parameter. *)
From S2P Require Import Prelude Json JsonMulti.

(** ** Comparisons of doubles *)

(** What the code uses of [double]: the conversion from [int], [==] and [<], which are
    a weak order on the values that are not NaN. *)
Class DoubleOrder `{D : Doubles} := {
  double_of_int : Z -> double;
  is_nan : double -> bool;
  double_eq : double -> double -> bool;
  double_lt : double -> double -> bool;
  int_not_nan z : is_nan (double_of_int z) = false;
  double_eq_spec a b : is_nan a = false -> is_nan b = false -> double_eq a b = negb (double_lt a b) && negb (double_lt b a);
  double_lt_asym a b : double_lt a b = true -> double_lt b a = false;
  double_lt_weak a b c : is_nan b = false -> double_lt a c = true -> double_lt a b = true \/ double_lt b c = true;
}.

(** [std::lexicographical_compare] *)
Fixpoint lexicographical_compare {A} (lt : A -> A -> bool) (l l' : list A) : bool :=
  match l, l' with
  | _, [] => false
  | [], _ => true
  | x :: l1, y :: l2 => if lt x y then true else if lt y x then false else lexicographical_compare lt l1 l2
  end.

(** [==] on vectors *)
Fixpoint vector_eq {A} (eq : A -> A -> bool) (l l' : list A) : bool :=
  match l, l' with
  | [], [] => true
  | x :: l1, y :: l2 => eq x y && vector_eq eq l1 l2
  | _, _ => false
  end.

Section order.
Context `{D : Doubles} `{DO : !DoubleOrder}.

(** ** The operators *)

(** The position of a type in [Json::Type]. *)
Definition type_index (t : JsonType) : nat :=
  match t with NUL => 0 | NUMBER => 1 | BOOL => 2 | STRING => 3 | ARRAY => 4 | OBJECT => 5 end.

Definition number_value (j : Json) : double :=
  match j with JInt z => double_of_int z | JDouble d => d | _ => double_of_int 0 end.

(** [==] and [<] on the members of a map: pairs of a key and a value *)
Definition member_eq (eq : Json -> Json -> bool) (a b : list Z * Json) : bool := bool_decide (a.1 = b.1) && eq a.2 b.2.
Definition member_less (lt : Json -> Json -> bool) (a b : list Z * Json) : bool :=
  str_lt a.1 b.1 || (negb (str_lt b.1 a.1) && lt a.2 b.2).

(** [operator==] and [operator<]; the fuel bounds the nesting. *)
Fixpoint json_equals (fuel : nat) (j k : Json) : bool :=
  match fuel with
  | O => true
  | S fuel' =>
      if negb (bool_decide (type j = type k)) then false
      else match j, k with
           | JBool b, JBool b' => Bool.eqb b b'
           | JString s, JString s' => bool_decide (s = s')
           | JArray l, JArray l' => vector_eq (json_equals fuel') l l'
           | JObject m, JObject m' => vector_eq (member_eq (json_equals fuel')) m m'
           | JNull, _ => true
           | _, _ => double_eq (number_value j) (number_value k)
           end
  end.

Fixpoint json_less (fuel : nat) (j k : Json) : bool :=
  match fuel with
  | O => false
  | S fuel' =>
      if negb (bool_decide (type j = type k)) then (type_index (type j) <? type_index (type k))%nat
      else match j, k with
           | JBool b, JBool b' => negb b && b'
           | JString s, JString s' => str_lt s s'
           | JArray l, JArray l' => lexicographical_compare (json_less fuel') l l'
           | JObject m, JObject m' => lexicographical_compare (member_less (json_less fuel')) m m'
           | JNull, _ => false
           | _, _ => double_lt (number_value j) (number_value k)
           end
  end.

(** Levels of arrays and objects *)
Fixpoint height (j : Json) : nat :=
  match j with
  | JArray l => S (max_list (map height l))
  | JObject m => S (max_list (map (fun kv => height kv.2) m))
  | _ => 0
  end.

Definition json_eq (j k : Json) : bool := json_equals (S (height j)) j k.
Definition json_lt (j k : Json) : bool := json_less (S (height j)) j k.
Definition json_ne (j k : Json) : bool := negb (json_eq j k).
Definition json_le (j k : Json) : bool := negb (json_lt k j).
Definition json_gt (j k : Json) : bool := json_lt k j.
Definition json_ge (j k : Json) : bool := negb (json_lt j k).

(** ** Weak orders *)

Definition weak_order {A} (ok : A -> bool) (lt : A -> A -> bool) : Prop :=
  (forall a b, ok a = true -> ok b = true -> lt a b = true -> lt b a = false)
  /\ (forall a b c, ok a = true -> ok b = true -> ok c = true -> lt a c = true -> lt a b = true \/ lt b c = true).

(** Neither is less. *)
Definition tied {A} (lt : A -> A -> bool) (a b : A) : bool := negb (lt a b) && negb (lt b a).

Lemma weak_tied {A} (ok : A -> bool) lt a b c : weak_order ok lt -> ok a = true -> ok b = true -> ok c = true ->
  lt a b = false -> lt b c = false -> lt a c = false.
Proof. intros [_ Hw] Ha Hb Hc H1 H2. destruct (lt a c) eqn:E; [|done]. destruct (Hw a b c Ha Hb Hc E); congruence. Qed.

Lemma weak_trans {A} (ok : A -> bool) lt a b c : weak_order ok lt -> ok a = true -> ok b = true -> ok c = true ->
  lt a b = true -> lt b c = true -> lt a c = true.
Proof.
  intros [Has Hw] Ha Hb Hc H1 H2. destruct (Hw a c b Ha Hc Hb H1) as [|H3]; [done|]. rewrite (Has b c) in H3; done.
Qed.

Lemma lexicographical_weak {A} (ok : A -> bool) (lt : A -> A -> bool) : weak_order ok lt ->
  weak_order (forallb ok) (lexicographical_compare lt).
Proof.
  intros Ho. pose proof Ho as [Has Hw]. split.
  - induction a as [|x l IH]; intros [|y l'] Hl Hl' E; cbn in *; try done.
    apply andb_prop in Hl as [Hx Hl], Hl' as [Hy Hl']. destruct (lt x y) eqn:E1; [by rewrite (Has x y)|].
    destruct (lt y x); [done|]. by apply IH.
  - induction a as [|x l1 IH]; intros [|y l2] [|z l3] H1 H2 H3 E; cbn in *; auto.
    apply andb_prop in H1 as [Hx H1], H2 as [Hy H2], H3 as [Hz H3].
    destruct (lt x z) eqn:Exz; [destruct (Hw x y z Hx Hy Hz Exz) as [-> | ->]; [by left|by right]|].
    destruct (lt z x) eqn:Ezx; [done|]. destruct (lt x y) eqn:Exy; [by left|]. destruct (lt y z) eqn:Eyz; [by right|].
    rewrite (weak_tied ok lt y z x Ho Hy Hz Hx Eyz Ezx), (weak_tied ok lt z x y Ho Hz Hx Hy Ezx Exy). by apply IH.
Qed.

(** *** Strings and members *)

Lemma str_lt_antisym a b : str_lt a b = false -> str_lt b a = false -> a = b.
Proof. intros H1 H2. destruct (str_lt_total a b H1); congruence. Qed.

Lemma str_lt_weak ok : weak_order ok str_lt.
Proof.
  assert (forall a b, str_lt a b = true -> str_lt b a = false) as Has.
  { intros a b H. destruct (str_lt b a) eqn:E; [|done]. pose proof (str_lt_trans a b a H E) as H'. by rewrite str_lt_irrefl in H'. }
  split; [intros a b _ _; apply Has|]. intros a b c _ _ _ H. destruct (str_lt a b) eqn:E1; [by left|right].
  destruct (str_lt b a) eqn:E2; [by apply (str_lt_trans b a c)|]. by rewrite <- (str_lt_antisym a b).
Qed.

Lemma member_less_weak ok lt : weak_order ok lt -> weak_order (fun kv : list Z * Json => ok kv.2) (member_less lt).
Proof.
  intros Ho. pose proof Ho as [Has Hw]. destruct (str_lt_weak (fun _ => true)) as [Sas Sw]. unfold member_less. split.
  - intros [k x] [k' y] Hx Hy E; cbn in *. destruct (str_lt k k') eqn:E1.
    + by rewrite (Sas k k') by done.
    + cbn in E. apply andb_prop in E as [E2 E]. apply negb_true_iff in E2. rewrite E2. cbn. by apply Has.
  - intros [k x] [k' y] [k2 z] Hx Hy Hz E; cbn in *. destruct (str_lt k k') eqn:E1; [by left|]. destruct (str_lt k' k2) eqn:E2; [by right|].
    pose proof (weak_tied _ str_lt k k' k2 (str_lt_weak (fun _ => true)) eq_refl eq_refl eq_refl E1 E2) as E3. rewrite E3 in E. cbn in *.
    apply andb_prop in E as [E4 E]. apply negb_true_iff in E4.
    rewrite (weak_tied _ str_lt k' k2 k (str_lt_weak (fun _ => true)) eq_refl eq_refl eq_refl E2 E4).
    rewrite (weak_tied _ str_lt k2 k k' (str_lt_weak (fun _ => true)) eq_refl eq_refl eq_refl E4 E1). cbn. by apply Hw.
Qed.

(** *** Values *)

Fixpoint nan_free (j : Json) : bool :=
  match j with
  | JDouble d => negb (is_nan d)
  | JArray l => forallb nan_free l
  | JObject m => forallb (fun kv => nan_free kv.2) m
  | _ => true
  end.

Lemma number_nan_free j : nan_free j = true -> is_nan (number_value j) = false.
Proof. destruct j; cbn; intros H; try apply int_not_nan. by apply negb_true_iff. Qed.

(** Two values of one type. *)
Definition same_less (fuel : nat) (j k : Json) : bool :=
  match j, k with
  | JBool b, JBool b' => negb b && b'
  | JString s, JString s' => str_lt s s'
  | JArray l, JArray l' => lexicographical_compare (json_less fuel) l l'
  | JObject m, JObject m' => lexicographical_compare (member_less (json_less fuel)) m m'
  | JNull, _ => false
  | _, _ => double_lt (number_value j) (number_value k)
  end.

Lemma json_less_S fuel j k :
  json_less (S fuel) j k = if bool_decide (type j = type k) then same_less fuel j k
                           else (type_index (type j) <? type_index (type k))%nat.
Proof. cbn [json_less]. by destruct (bool_decide _). Qed.

Lemma type_index_inj t t' : type_index t = type_index t' -> t = t'.
Proof. by destruct t, t'. Qed.

Lemma same_less_weak fuel : weak_order nan_free (json_less fuel) ->
  (forall a b, nan_free a = true -> nan_free b = true -> type a = type b -> same_less fuel a b = true -> same_less fuel b a = false)
  /\ (forall a b c, nan_free a = true -> nan_free b = true -> nan_free c = true -> type a = type b -> type b = type c ->
       same_less fuel a c = true -> same_less fuel a b = true \/ same_less fuel b c = true).
Proof.
  intros IH. pose proof (lexicographical_weak _ _ IH) as [Las Lw].
  pose proof (lexicographical_weak _ _ (member_less_weak _ _ IH)) as [Mas Mw]. destruct (str_lt_weak (fun _ => true)) as [Sas Sw].
  split.
  - intros a b Ha Hb E. destruct a, b; try discriminate E; cbn [same_less]; auto using double_lt_asym. by destruct value, value0.
  - intros a b c Ha Hb Hc E1 E2. pose proof (number_nan_free b Hb) as Hn.
    destruct a, b; try discriminate E1; destruct c; try discriminate E2; cbn [same_less]; auto using double_lt_weak.
    destruct value, value0, value1; auto.
Qed.

Lemma json_less_weak fuel : weak_order nan_free (json_less fuel).
Proof.
  induction fuel as [|fuel IH]; [done|]. destruct (same_less_weak fuel IH) as [Has Hw]. split.
  - intros a b Ha Hb. rewrite !json_less_S. case_bool_decide as E1; case_bool_decide as E2; try congruence; [by apply Has|].
    intros H%Nat.ltb_lt. apply Nat.ltb_ge. lia.
  - intros a b c Ha Hb Hc. rewrite !json_less_S. pose proof (type_index_inj (type a) (type b)). pose proof (type_index_inj (type b) (type c)).
    repeat case_bool_decide; try congruence; auto; rewrite ?Nat.ltb_lt; intros; try congruence.
    all: try (assert (type_index (type a) = type_index (type b)) by congruence); try (assert (type_index (type a) = type_index (type c)) by congruence);
      try (assert (type_index (type b) = type_index (type c)) by congruence).
    all: destruct (Nat.lt_trichotomy (type_index (type a)) (type_index (type b))) as [|[|]]; try (exfalso; by auto); lia.
Qed.

(** *** The fuel is enough, and [==] holds exactly if neither value is less *)

Lemma lexicographical_ext {A} (lt lt' : A -> A -> bool) l l' :
  (forall x y, x ∈ l -> y ∈ l' -> lt x y = lt' x y /\ lt y x = lt' y x) ->
  lexicographical_compare lt l l' = lexicographical_compare lt' l l'.
Proof.
  revert l'. induction l as [|x l IH]; intros [|y l'] H; try done. cbn.
  destruct (H x y) as [-> ->]; [by left..|]. rewrite (IH l'); [done|]. intros x' y' ??. apply H; by right.
Qed.

Lemma vector_eq_tied {A} (eq lt : A -> A -> bool) l l' :
  (forall x y, x ∈ l -> y ∈ l' -> eq x y = tied lt x y) -> vector_eq eq l l' = tied (lexicographical_compare lt) l l'.
Proof.
  revert l'. induction l as [|x l IH]; intros [|y l'] H; try done. cbn. rewrite (H x y), (IH l') by first [by left|intros; apply H; by right].
  unfold tied. cbn. by destruct (lt x y), (lt y x).
Qed.

Lemma member_eq_tied eq lt (a b : list Z * Json) : eq a.2 b.2 = tied lt a.2 b.2 -> member_eq eq a b = tied (member_less lt) a b.
Proof.
  intros E. unfold member_eq, tied, member_less in *. rewrite E. case_bool_decide as Ek.
  - rewrite Ek, !str_lt_irrefl. by destruct (lt _ _), (lt _ _).
  - destruct (str_lt a.1 b.1) eqn:E1, (str_lt b.1 a.1) eqn:E2; try done; try (cbn; by rewrite ?andb_false_r). by destruct Ek; apply str_lt_antisym.
Qed.

Lemma height_element l x : x ∈ l -> (height x < height (JArray l))%nat.
Proof. intros Hx. cbn. apply Nat.lt_succ_r, max_list_elem_of_le. by apply list_elem_of_fmap_2. Qed.

Lemma height_member m kv : kv ∈ m -> (height kv.2 < height (JObject m))%nat.
Proof. intros Hx. cbn. apply Nat.lt_succ_r, max_list_elem_of_le. by apply (list_elem_of_fmap_2 (fun kv => height kv.2)). Qed.

Lemma json_less_fuel f f' j k : (Nat.min (height j) (height k) < f)%nat -> (Nat.min (height j) (height k) < f')%nat ->
  json_less f j k = json_less f' j k.
Proof.
  revert f' j k. induction f as [|f IH]; intros [|f'] j k Hf Hf'; [lia..|]. rewrite !json_less_S. case_bool_decide as E; [|done].
  destruct j, k; try discriminate E; try done; cbn [same_less]; apply lexicographical_ext.
  - intros x y Hx%height_element Hy%height_element. split; apply IH; lia.
  - intros x y Hx%height_member Hy%height_member. unfold member_less.
    by rewrite (IH f' x.2 y.2), (IH f' y.2 x.2) by lia.
Qed.

Lemma json_equals_tied f j k : nan_free j = true -> nan_free k = true -> (Nat.min (height j) (height k) < f)%nat ->
  json_equals f j k = tied (json_less f) j k.
Proof.
  revert j k. induction f as [|f IH]; intros j k Hj Hk Hf; [lia|]. unfold tied. rewrite !json_less_S. cbn [json_equals].
  case_bool_decide as E; [|rewrite bool_decide_eq_false_2 by congruence; cbn [negb]; pose proof (type_index_inj (type j) (type k));
    destruct (Nat.ltb_spec (type_index (type j)) (type_index (type k))), (Nat.ltb_spec (type_index (type k)) (type_index (type j)));
    try done; exfalso; apply E, H; lia].
  rewrite bool_decide_eq_true_2 by done. pose proof (number_nan_free j Hj). pose proof (number_nan_free k Hk).
  destruct j, k; try discriminate E; cbn [negb same_less]; try (by apply double_eq_spec); try done.
  - by destruct value, value0.
  - case_bool_decide as Es; [subst; by rewrite str_lt_irrefl|].
    destruct (str_lt value value0) eqn:E1, (str_lt value0 value) eqn:E2; try done. by destruct Es; apply str_lt_antisym.
  - apply (vector_eq_tied (json_equals f) (json_less f)). intros x y Hx Hy. cbn [nan_free] in Hj, Hk. rewrite forallb_forall in Hj, Hk.
    apply IH; [by apply Hj, list_elem_of_In|by apply Hk, list_elem_of_In|]. apply height_element in Hx, Hy. lia.
  - apply (vector_eq_tied (member_eq (json_equals f)) (member_less (json_less f))). intros x y Hx Hy. cbn [nan_free] in Hj, Hk.
    rewrite forallb_forall in Hj, Hk. apply member_eq_tied, IH; [by apply (Hj x), list_elem_of_In|by apply (Hk y), list_elem_of_In|].
    apply height_member in Hx, Hy. lia.
Qed.

Lemma json_lt_fuel f j k : (Nat.max (height j) (height k) < f)%nat -> json_lt j k = json_less f j k.
Proof. intros Hf. apply json_less_fuel; lia. Qed.

(** The operators are a weak order on the values without NaN, as maps and sorting
    need it: [<] is asymmetric and transitive, [==] holds exactly if neither value is
    less, is reflexive - the shortcut for equal pointers changes nothing - and
    transitive, and the other operators are made of these. *)
Theorem json_order j k l : nan_free j = true -> nan_free k = true -> nan_free l = true ->
  json_lt j j = false /\ json_eq j j = true
  /\ (json_lt j k = true -> json_lt k j = false)
  /\ (json_lt j k = true -> json_lt k l = true -> json_lt j l = true)
  /\ json_eq j k = negb (json_lt j k) && negb (json_lt k j)
  /\ (json_eq j k = true -> json_eq k l = true -> json_eq j l = true)
  /\ json_le j k = json_lt j k || json_eq j k /\ json_ge j k = json_le k j /\ json_ne j k = negb (json_eq k j).
Proof.
  intros Hj Hk Hl. set (f := S (Nat.max (height j) (Nat.max (height k) (height l)))).
  destruct (json_less_weak f) as [Has Hw].
  assert (forall a b, a ∈ [j; k; l] -> b ∈ [j; k; l] -> json_lt a b = json_less f a b /\ json_eq a b = tied (json_less f) a b) as E.
  { intros a b Ha Hb.
    assert (forall x, x ∈ [j; k; l] -> (height x < f)%nat /\ nan_free x = true) as Hx
      by (intros x; rewrite !elem_of_cons, elem_of_nil; intros [->|[->|[->|[]]]]; (split; [unfold f; lia|done])).
    destruct (Hx a Ha), (Hx b Hb). split; [apply json_lt_fuel; lia|]. unfold json_eq. rewrite json_equals_tied by (done || lia).
    unfold tied. by rewrite (json_less_fuel (S (height a)) f a b), (json_less_fuel (S (height a)) f b a) by lia. }
  unfold json_le, json_ge, json_ne, json_le.
  assert (j ∈ [j; k; l] /\ k ∈ [j; k; l] /\ l ∈ [j; k; l]) as (Ij & Ik & Il) by (repeat split; set_solver).
  rewrite (proj1 (E j j Ij Ij)), (proj2 (E j j Ij Ij)), (proj1 (E j k Ij Ik)), (proj1 (E k j Ik Ij)), (proj1 (E k l Ik Il)), (proj1 (E j l Ij Il)).
  rewrite (proj2 (E j k Ij Ik)), (proj2 (E k l Ik Il)), (proj2 (E j l Ij Il)), (proj2 (E k j Ik Ij)).
  assert (json_less f j j = false) as Ejj by (destruct (json_less f j j) eqn:Ejj; [by rewrite <- (Has j j Hj Hj Ejj)|done]).
  unfold tied. rewrite Ejj. split_and!; try done.
  - by apply Has.
  - by apply (weak_trans nan_free).
  - intros [H1%negb_true_iff H2%negb_true_iff]%andb_prop [H3%negb_true_iff H4%negb_true_iff]%andb_prop.
    pose proof (json_less_weak f) as Ho.
    by rewrite (weak_tied nan_free (json_less f) j k l), (weak_tied nan_free (json_less f) l k j).
  - pose proof (Has j k Hj Hk). destruct (json_less f j k), (json_less f k j); intuition congruence.
  - by rewrite andb_comm.
Qed.
End order.

(** ** An example *)

(** Doubles that are integers. *)
#[local] Instance int_doubles : Doubles :=
  {| double := Z; strtod := atoi; isfinite _ := true; print_17g := print_d; double_to_int := Some |}.
#[local] Program Instance int_order : DoubleOrder :=
  {| double_of_int := id; is_nan _ := false; double_eq := Z.eqb; double_lt := Z.ltb |}.
Next Obligation. done. Qed.
Next Obligation. intros. cbn in *. lia. Qed.
Next Obligation. intros. cbn in *. lia. Qed.
Next Obligation. intros. cbn in *. lia. Qed.

(** An [int] and a [double] of the same value are equal, at any depth. *)
Definition sample_left : Json := JArray [JNull; JObject [(str "a", JInt 7)]; JString (str "x")].
Definition sample_right : Json := JArray [JNull; JObject [(str "a", JDouble 7)]; JString (str "xy")].

Lemma json_order_witness : json_lt sample_left sample_right = true /\ json_lt sample_right sample_left = false.
Proof.
  split; [vm_compute; reflexivity|].
  apply (json_order sample_left sample_right JNull); vm_compute; reflexivity.
Defined.
