(* ===== verification/Extrinsic.v ===== *)
(** Extrinsics: [src/structs/signaturepayload.h], [src/structs/transfer.h],
    [src/structs/extrinsic.h], and the byte level of [submitExtrinsic],
    [submitAndSubcribeExtrinsic], [signAndSendTransfer] and [pendingExtrinsics]
    of [src/application.cpp].

    The serializers fill a buffer from a moving position: a [writer] passes on
    the buffer and [writtenLength]. *)
From S2P Require Import Prelude Scale Converters Blake2b Address.

(** ** Writing into a buffer *)

Definition writer : Type := list Z * nat -> outcome (list Z * nat).

(** [buf[writtenLength++] = v] *)
Definition put (v : Z) : writer := fun '(buf, n) =>
  buf ← store buf n v; Ret (buf, S n).

(** [memcpy(buf + writtenLength, src, len); writtenLength += len] *)
Definition put_bytes (src : list Z) (len : nat) : writer := fun '(buf, n) =>
  bs ← read_n src 0 len;
  buf ← write_at buf n bs;
  Ret (buf, (n + len)%nat).

(** [writtenLength += scale::writeCompactToBuf(ci, buf + writtenLength)] *)
Definition put_compact (ci : CompactIntegerLEBytes) : writer := fun '(buf, n) =>
  '(buf, len) ← writeCompactToBuf ci buf n;
  Ret (buf, (n + Z.to_nat len)%nat).

Definition andthen (w1 w2 : writer) : writer := fun st => st ← w1 st; w2 st.
Infix ";;;" := andthen (at level 60, right associativity).

(** ** Data *)

Definition SIGNATURE_VERSION : Z := 0x81.
Definition ADDRESS_SEPARATOR : Z := 0xFF.
Definition BLOCK_HASH_SIZE : nat := 32.
Definition SR25519_SIGNATURE_SIZE : nat := 64.
Definition MAX_METHOD_BYTES_SZ : nat := 2048.
Definition DEFAULT_FIXED_EXSTRINSIC_SIZE : Z := 103.

Inductive ExtrinsicEra : Type := IMMORTAL_ERA | MORTAL_ERA.
Definition era_int (e : ExtrinsicEra) : Z := match e with IMMORTAL_ERA => 0 | MORTAL_ERA => 1 end.

Record Signature : Type := {
  version : Z;
  signerPublicKey : list Z;
  sr25519Signature : list Z;
  sig_nonce : Z;
  sig_era : ExtrinsicEra;
}.

Record SignaturePayload : Type := {
  sp_nonce : Z;
  methodBytesLength : Z;
  sp_methodBytes : list Z;
  sp_era : ExtrinsicEra;
  authoringBlockHash : list Z;
}.

Record TransferMethod : Type := {
  tm_moduleIndex : Z;
  tm_methodIndex : Z;
  receiverPublicKey : list Z;
  amount : Z;
}.

Record TransferExtrinsic : Type := {
  te_length : Z;
  te_signature : Signature;
  te_method : TransferMethod;
}.

Record GenericExtrinsic : Type := {
  ge_length : Z;
  ge_signature : Signature;
  ge_moduleIndex : Z;
  ge_methodIndex : Z;
  ge_methodBytes : list Z;
  ge_signerAddress : list Z;
}.

(** ** SignaturePayload::serializeBinary *)

Definition sp_serializeBinary (sp : SignaturePayload) (buf : list Z) : outcome (list Z * nat) :=
  compactNonce ← encodeCompactInteger (sp_nonce sp);
  (put_compact compactNonce ;;;
   put_bytes (sp_methodBytes sp) (Z.to_nat (methodBytesLength sp)) ;;;
   put (era_int (sp_era sp)) ;;;
   put_bytes (authoringBlockHash sp) BLOCK_HASH_SIZE) (buf, O).

(** ** TransferExtrinsic *)

Definition te_put_method (m : TransferMethod) : writer := fun st =>
  st ← (put (tm_moduleIndex m) ;;;
        put (tm_methodIndex m) ;;;
        put ADDRESS_SEPARATOR ;;;
        put_bytes (receiverPublicKey m) SR25519_PUBLIC_SIZE) st;
  compactAmount ← encodeCompactInteger (amount m);
  put_compact compactAmount st.

Definition te_serializeMethodBinary (te : TransferExtrinsic) (buf : list Z) : outcome (list Z * nat) :=
  te_put_method (te_method te) (buf, O).

(** It also sets the extrinsic's [length]. *)
Definition te_serializeBinary (te : TransferExtrinsic) (buf : list Z)
    : outcome (TransferExtrinsic * (list Z * nat)) :=
  let sig := te_signature te in
  compactAmount ← encodeCompactInteger (amount (te_method te));
  compactNonce ← encodeCompactInteger (sig_nonce sig);
  let length := u128 (134 + ci_length compactAmount + ci_length compactNonce) in
  compactLength ← encodeCompactInteger length;
  st ← (put_compact compactLength ;;;
        put (version sig) ;;;
        put ADDRESS_SEPARATOR ;;;
        put_bytes (signerPublicKey sig) SR25519_PUBLIC_SIZE ;;;
        put_bytes (sr25519Signature sig) SR25519_SIGNATURE_SIZE ;;;
        put_compact compactNonce ;;;
        put (era_int (sig_era sig)) ;;;
        te_put_method (te_method te)) (buf, O);
  Ret ({| te_length := length; te_signature := sig; te_method := te_method te |}, st).

(** [for (i < n) sprintf(b, "%02X", bytes[i]), teStr += b] after ["0x"] *)
Definition hex_string (bytes : list Z) (n : nat) : outcome (list Z) :=
  bs ← read_n bytes 0 n; Ret (48 :: 120 :: hex_bytes bs).

(** ** Signing, with the signature function of the sr25519 library *)

Section signing.
Context (sr25519_sign : list Z -> list Z -> list Z -> list Z).

(** [sr25519_sign(sig, publicKey, secretKey, msg, len)] into a 64-byte array. The
    library reads [SR25519_PUBLIC_SIZE] and [SR25519_SECRET_SIZE] bytes of the keys
    ([src/utils/sr25519.h]), whatever the vectors hold. *)
Definition SR25519_SECRET_SIZE : nat := 64.
Definition sign (publicKey secretKey msg : list Z) (len : nat) : outcome (list Z) :=
  m ← read_n msg 0 len;
  pk ← read_n publicKey 0 SR25519_PUBLIC_SIZE;
  sk ← read_n secretKey 0 SR25519_SECRET_SIZE;
  read_n (sr25519_sign pk sk m) 0 SR25519_SIGNATURE_SIZE.

Definition uninit (n : nat) : list Z := replicate n 0.

(** [signAndSendTransfer] from the sender's nonce to the text it submits. *)
Definition transfer_text (nonce moduleIndex methodIndex : Z) (sender recipient : list Z)
    (privateKey : list Z) (transferAmount : Z) (genesis : list Z) : outcome (list Z) :=
  recipientPK ← getPublicKeyFromAddr_string recipient;
  senderPK ← getPublicKeyFromAddr_string sender;
  let m := {| tm_moduleIndex := u8 moduleIndex; tm_methodIndex := u8 methodIndex;
              receiverPublicKey := pk_bytes recipientPK; amount := transferAmount |} in
  '(methodBytes, mlen) ← te_put_method m (uninit MAX_METHOD_BYTES_SZ, O);
  let sp := {| sp_nonce := nonce; methodBytesLength := u8 (Z.of_nat mlen); sp_methodBytes := methodBytes;
               sp_era := IMMORTAL_ERA; authoringBlockHash := genesis |} in
  '(payload, payloadLength) ← sp_serializeBinary sp (uninit MAX_METHOD_BYTES_SZ);
  secretKeyVec ← fromHexVec privateKey true;
  sig ← sign (pk_bytes senderPK) secretKeyVec payload payloadLength;
  let te := {| te_length := 0;
               te_signature := {| version := SIGNATURE_VERSION; signerPublicKey := pk_bytes senderPK;
                                  sr25519Signature := sig; sig_nonce := nonce; sig_era := IMMORTAL_ERA |};
               te_method := m |} in
  '(_, (teBytes, teByteLength)) ← te_serializeBinary te (uninit MAX_METHOD_BYTES_SZ);
  hex_string teBytes teByteLength.

(** The part that [submitExtrinsic] and [submitAndSubcribeExtrinsic] share; they
    differ in the length they announce, given here from the nonce's encoding. *)
Definition extrinsic_text (announced : CompactIntegerLEBytes -> Z) (nonce moduleIndex methodIndex : Z)
    (encodedMethodBytes sender privateKey genesis : list Z) : outcome (list Z) :=
  compactNonce ← encodeCompactInteger nonce;
  let encodedMethodBytesSize := length encodedMethodBytes in
  let mmBuf := [u8 moduleIndex; u8 methodIndex; ADDRESS_SEPARATOR] in
  completeMessage ← write_at (uninit MAX_METHOD_BYTES_SZ) 0 mmBuf;
  completeMessage ← write_at completeMessage 3 encodedMethodBytes;
  senderPK ← getPublicKeyFromAddr_string sender;
  let sp := {| sp_nonce := nonce; methodBytesLength := u8 (Z.of_nat encodedMethodBytesSize + 3);
               sp_methodBytes := completeMessage; sp_era := IMMORTAL_ERA; authoringBlockHash := genesis |} in
  '(payload, payloadLength) ← sp_serializeBinary sp (uninit MAX_METHOD_BYTES_SZ);
  secretKeyVec ← fromHexVec privateKey true;
  sig ← sign (pk_bytes senderPK) secretKeyVec payload payloadLength;
  compactLength ← encodeCompactInteger (announced compactNonce);
  '(buf, writtenLength) ←
    (put_compact compactLength ;;;
     put SIGNATURE_VERSION ;;;
     put ADDRESS_SEPARATOR ;;;
     put_bytes (pk_bytes senderPK) SR25519_PUBLIC_SIZE ;;;
     put_bytes sig SR25519_SIGNATURE_SIZE ;;;
     put_compact compactNonce ;;;
     put (era_int IMMORTAL_ERA)) (uninit 2048, O);
  '(teBytes, n) ← put_bytes buf writtenLength (uninit MAX_METHOD_BYTES_SZ, O);
  '(teBytes, n) ← put_bytes completeMessage (3 + encodedMethodBytesSize) (teBytes, n);
  hex_string teBytes n.

(** [length] in [submitExtrinsic]: [int + unsigned + long - 1], a [long]. *)
Definition submit_length (size : nat) (compactNonce : CompactIntegerLEBytes) : Z :=
  u32 (DEFAULT_FIXED_EXSTRINSIC_SIZE + Z.of_nat size) + ci_length compactNonce - 1.

(** [length] in [submitAndSubcribeExtrinsic]: the nonce's length is left out. *)
Definition watch_length (size : nat) (compactNonce : CompactIntegerLEBytes) : Z :=
  u32 (DEFAULT_FIXED_EXSTRINSIC_SIZE + Z.of_nat size).

Definition submit_text (nonce moduleIndex methodIndex : Z)
    (encodedMethodBytes sender privateKey genesis : list Z) : outcome (list Z) :=
  extrinsic_text (submit_length (length encodedMethodBytes)) nonce moduleIndex methodIndex
    encodedMethodBytes sender privateKey genesis.

Definition watch_text (nonce moduleIndex methodIndex : Z)
    (encodedMethodBytes sender privateKey genesis : list Z) : outcome (list Z) :=
  extrinsic_text (watch_length (length encodedMethodBytes)) nonce moduleIndex methodIndex
    encodedMethodBytes sender privateKey genesis.
End signing.

(** ** Reading a pending extrinsic *)

(** [(uint8_t)fromHex<uint128>(estr.substr(0, 2)); estr = estr.substr(2);] *)
Definition take_byte (estr : list Z) : outcome (Z * list Z) :=
  h ← substr estr 0 2;
  b ← fromHex UInt128 h true;
  estr ← substr_from estr 2;
  Ret (u8 b, estr).

(** One round of the loop of [pendingExtrinsics] that stores an extrinsic. *)
Definition read_pending (slack e : list Z) : outcome GenericExtrinsic :=
  estr ← substr_from e 2;
  '(len, estr) ← decodeCompactInteger estr;
  '(ver, estr) ← take_byte estr;
  pkHex ← substr estr 2 (SR25519_PUBLIC_SIZE * 2);
  pk ← fromHexVec pkHex true;
  signer ← read_n pk 0 SR25519_PUBLIC_SIZE;
  estr ← substr_from estr (SR25519_PUBLIC_SIZE * 2 + 2);
  sigHex ← substr estr 0 (SR25519_SIGNATURE_SIZE * 2);
  sigV ← fromHexVec sigHex true;
  sig ← read_n sigV 0 SR25519_SIGNATURE_SIZE;
  estr ← substr_from estr (SR25519_SIGNATURE_SIZE * 2);
  '(nonce, estr) ← decodeCompactInteger estr;
  '(eraInt, estr) ← take_byte estr;
  '(moduleIndex, estr) ← take_byte estr;
  '(methodIndex, estr) ← take_byte estr;
  addr ← getAddrFromPublicKey slack {| pk_bytes := signer |};
  Ret {| ge_length := u128 len;
         ge_signature := {| version := ver; signerPublicKey := signer; sr25519Signature := sig;
                            sig_nonce := u128 nonce;
                            sig_era := if negb (eraInt =? 0) then MORTAL_ERA else IMMORTAL_ERA |};
         ge_moduleIndex := moduleIndex; ge_methodIndex := methodIndex;
         ge_methodBytes := estr; ge_signerAddress := addr |}.

(** The loop of [pendingExtrinsics]: the count of all items, the first
    [bufferSize] of them stored. *)
Fixpoint read_pending_all (slack : list Z) (bufferSize count : Z) (items : list (list Z))
    : outcome (Z * list GenericExtrinsic) :=
  match items with
  | [] => Ret (count, [])
  | e :: items' =>
      if count <? bufferSize then
        g ← read_pending slack e;
        '(n, gs) ← read_pending_all slack bufferSize (count + 1) items';
        Ret (n, g :: gs)
      else read_pending_all slack bufferSize (count + 1) items'
  end.

(** ** The wire format *)

Definition signature_part (sig : Signature) : list Z :=
  [version sig; ADDRESS_SEPARATOR] ++ signerPublicKey sig ++ sr25519Signature sig
  ++ compact_spec (sig_nonce sig) ++ [era_int (sig_era sig)].

Definition transfer_call (m : TransferMethod) : list Z :=
  [tm_moduleIndex m; tm_methodIndex m; ADDRESS_SEPARATOR] ++ receiverPublicKey m ++ compact_spec (amount m).

(** A length prefix and what it counts. *)
Definition framed (body : list Z) : list Z := compact_spec (Z.of_nat (length body)) ++ body.

Definition payload_spec (nonce : Z) (call : list Z) (era : ExtrinsicEra) (genesis : list Z) : list Z :=
  compact_spec nonce ++ call ++ [era_int era] ++ genesis.

Definition sig_ok (sig : Signature) : Prop :=
  length (signerPublicKey sig) = 32%nat /\ length (sr25519Signature sig) = 64%nat /\ compact_safe (sig_nonce sig) = true.

Definition method_ok (m : TransferMethod) : Prop :=
  length (receiverPublicKey m) = 32%nat /\ compact_safe (amount m) = true.

(** ** Writers append *)

Definition appends (w : writer) (bs : list Z) : Prop :=
  forall pre rest, (length bs <= length rest)%nat ->
  w (pre ++ rest, length pre) = Ret ((pre ++ bs) ++ drop (length bs) rest, length (pre ++ bs)).

Lemma appends_andthen w1 w2 b1 b2 : appends w1 b1 -> appends w2 b2 -> appends (w1 ;;; w2) (b1 ++ b2).
Proof.
  intros H1 H2 pre rest Hl. rewrite length_app in Hl. unfold andthen. rewrite H1 by lia. ostep.
  rewrite H2 by (rewrite length_drop; lia). rewrite drop_drop, <- !app_assoc, (length_app b1). done.
Qed.

Lemma appends_put v : appends (put v) [v].
Proof.
  intros pre [|r rest] Hl; [cbn in Hl; lia|]. unfold put. rewrite store_app. ostep.
  rewrite <- app_assoc, length_snoc. done.
Qed.

Lemma appends_put_bytes src n : length src = n -> appends (put_bytes src n) src.
Proof.
  intros <- pre rest Hl. unfold put_bytes. rewrite read_n_ok by lia. ostep.
  rewrite drop_0, take_ge by lia. rewrite write_at_app by done. ostep. by rewrite length_app.
Qed.

Lemma appends_put_prefix src bs rest' : src = bs ++ rest' -> appends (put_bytes src (length bs)) bs.
Proof.
  intros -> pre rest Hl. unfold put_bytes. rewrite read_n_ok by (rewrite length_app; lia). ostep.
  rewrite drop_0, take_app_length. rewrite write_at_app by done. ostep. by rewrite length_app.
Qed.

(** The compact integer that stands for [n]. *)
Definition ci_of (n : Z) : CompactIntegerLEBytes :=
  {| ci_length := Z.of_nat (length (compact_spec n));
     ci_bytes := compact_spec n ++ replicate (8 - length (compact_spec n)) 0 |}.

Lemma encode_ci n : compact_safe n = true -> encodeCompactInteger n = Ret (ci_of n).
Proof. apply encode_ok. Qed.

Lemma appends_compact n : appends (put_compact (ci_of n)) (compact_spec n).
Proof.
  intros pre rest Hl. unfold put_compact, writeCompactToBuf. cbn [ci_bytes ci_length ci_of]. rewrite Nat2Z.id.
  rewrite read_n_ok by (rewrite length_app; lia). ostep. rewrite drop_0, take_app_length.
  rewrite write_at_app by done. ostep. by rewrite Nat2Z.id, length_app.
Qed.

(** Parts that cannot fail appended one after the other. *)
Ltac appends_tac :=
  repeat match goal with
  | |- appends (_ ;;; _) (_ ++ _) => apply appends_andthen
  | |- appends (put _) _ => apply appends_put
  | |- appends (put_compact (ci_of _)) _ => apply appends_compact
  | |- appends (put_bytes _ _) _ => apply appends_put_bytes
  end.

Lemma appends_method m : method_ok m -> appends (te_put_method m) (transfer_call m).
Proof.
  intros [Hr Ha] pre rest Hl.
  assert (appends ((put (tm_moduleIndex m) ;;; put (tm_methodIndex m) ;;; put ADDRESS_SEPARATOR ;;;
      put_bytes (receiverPublicKey m) SR25519_PUBLIC_SIZE) ;;; put_compact (ci_of (amount m)))
    (([tm_moduleIndex m] ++ [tm_methodIndex m] ++ [ADDRESS_SEPARATOR] ++ receiverPublicKey m)
      ++ compact_spec (amount m))) as H by (by appends_tac).
  specialize (H pre rest Hl). etransitivity; [|exact H]. unfold te_put_method, andthen. by rewrite encode_ci.
Qed.

(** A writer run on a whole buffer. *)
Lemma appends_run w bs buf :
  appends w bs -> (length bs <= length buf)%nat ->
  w (buf, O) = Ret (bs ++ drop (length bs) buf, length bs).
Proof. intros Hw Hl. apply (Hw [] buf Hl). Qed.

(** ** Transfers *)

Lemma compact_spec_length n : compact_safe n = true -> (1 <= length (compact_spec n) <= 8)%nat.
Proof.
  intros Hn. unfold compact_safe in Hn. unfold compact_spec.
  destruct (Z.ltb_spec n (2 ^ 6)); [rewrite length_le_bytes; lia|].
  destruct (Z.ltb_spec n (2 ^ 14)); [rewrite length_le_bytes; lia|].
  destruct (Z.ltb_spec n (2 ^ 30)); [rewrite length_le_bytes; lia|].
  assert (3 < byte_length n <= 7)%nat by (apply byte_length_bounds; lia).
  cbn [length]. rewrite length_le_bytes. lia.
Qed.

Lemma transfer_body_length sig m :
  sig_ok sig -> method_ok m ->
  Z.of_nat (length (signature_part sig ++ transfer_call m))
  = 134 + Z.of_nat (length (compact_spec (amount m))) + Z.of_nat (length (compact_spec (sig_nonce sig))).
Proof.
  intros (H1 & H2 & _) (H3 & _). unfold signature_part, transfer_call.
  repeat (rewrite ?length_app; cbn [length]). lia.
Qed.

Lemma te_serialize_ok te buf :
  sig_ok (te_signature te) -> method_ok (te_method te) -> (158 <= length buf)%nat ->
  let body := signature_part (te_signature te) ++ transfer_call (te_method te) in
  te_serializeBinary te buf
  = Ret ({| te_length := Z.of_nat (length body); te_signature := te_signature te; te_method := te_method te |},
         (framed body ++ drop (length (framed body)) buf, length (framed body))).
Proof.
  intros Hs Hm Hb body. pose proof (transfer_body_length _ _ Hs Hm) as Hl. fold body in Hl.
  destruct Hs as (H1 & H2 & H3), Hm as (H4 & H5).
  pose proof (compact_spec_length _ H3). pose proof (compact_spec_length _ H5).
  unfold te_serializeBinary. rewrite (encode_ci (amount _)), (encode_ci (sig_nonce _)) by done. ostep.
  cbn [ci_length ci_of]. rewrite <- Hl. rewrite (uwrap_small 128) by lia.
  assert (compact_safe (Z.of_nat (length body)) = true) as Hsafe by (unfold compact_safe; lia).
  pose proof (compact_spec_length _ Hsafe).
  rewrite (encode_ci (Z.of_nat _)) by done. ostep.
  rewrite (appends_run _ (framed body)); [done| |].
  - unfold framed, body, signature_part. rewrite <- !app_assoc.
    apply appends_andthen; [apply appends_compact|]. apply (appends_andthen _ _ [_]); [apply appends_put|].
    apply (appends_andthen _ _ [_]); [apply appends_put|]. appends_tac; [done|done|by apply appends_method].
  - unfold framed. rewrite length_app. lia.
Qed.

Lemma sp_serialize_ok sp call rest buf :
  compact_safe (sp_nonce sp) = true -> sp_methodBytes sp = call ++ rest ->
  methodBytesLength sp = Z.of_nat (length call) -> length (authoringBlockHash sp) = 32%nat ->
  (length call + 41 <= length buf)%nat ->
  let p := payload_spec (sp_nonce sp) call (sp_era sp) (authoringBlockHash sp) in
  sp_serializeBinary sp buf = Ret (p ++ drop (length p) buf, length p).
Proof.
  intros Hn Hc Hm Ha Hb p. unfold sp_serializeBinary. rewrite encode_ci by done. ostep.
  pose proof (compact_spec_length _ Hn). rewrite (appends_run _ p); [done| |].
  - unfold p, payload_spec. rewrite Hm, Nat2Z.id. apply appends_andthen; [apply appends_compact|].
    apply appends_andthen; [by apply (appends_put_prefix _ _ rest)|]. by appends_tac.
  - unfold p, payload_spec. repeat (rewrite ?length_app; cbn [length]). lia.
Qed.

(** ** Submitted texts

    The signature library writes 64 bytes, given keys of the sizes it documents;
    nothing else is used of it. *)

Section texts.
Context (sr25519_sign : list Z -> list Z -> list Z -> list Z).
Hypothesis sign_length : forall pk sk msg,
  length pk = SR25519_PUBLIC_SIZE -> length sk = SR25519_SECRET_SIZE -> length (sr25519_sign pk sk msg) = SR25519_SIGNATURE_SIZE.

Lemma read_all (l : list Z) n : length l = n -> read_n l 0 n = Ret l.
Proof using. intros <-. rewrite read_n_ok by lia. by rewrite drop_0, firstn_all. Qed.

Lemma sign_ok pk sk p rest : length pk = SR25519_PUBLIC_SIZE -> length sk = SR25519_SECRET_SIZE ->
  sign sr25519_sign pk sk (p ++ rest) (length p) = Ret (sr25519_sign pk sk p).
Proof using sign_length.
  intros Hpk Hsk. unfold sign. rewrite (read_n_ok (p ++ rest)) by (rewrite length_app; lia). ostep.
  rewrite drop_0, take_app_length, (read_all pk), (read_all sk) by done. ostep. apply read_all. by apply sign_length.
Qed.

(** A private key that is too short is read past its end. *)
Lemma short_key_undefined pk sk msg len : (length sk < SR25519_SECRET_SIZE)%nat -> sign sr25519_sign pk sk msg len = UB.
Proof using.
  intros Hsk. unfold sign. assert (read_n sk 0 SR25519_SECRET_SIZE = UB) as ->.
  { unfold read_n. by rewrite (proj2 (Nat.leb_gt _ _)) by lia. }
  unfold read_n. by destruct (_ <=? _)%nat, (_ <=? _)%nat.
Qed.

Lemma hex_string_ok bs rest : hex_string (bs ++ rest) (length bs) = Ret (48 :: 120 :: hex_bytes bs).
Proof. unfold hex_string. rewrite read_n_ok by (rewrite length_app; lia). ostep. by rewrite drop_0, take_app_length. Qed.

(** The signature over a call, and the signature part that carries it. *)
Definition signed (pk sk genesis : list Z) (nonce : Z) (call : list Z) : Signature :=
  {| version := SIGNATURE_VERSION; signerPublicKey := pk;
     sr25519Signature := sr25519_sign pk sk (payload_spec nonce call IMMORTAL_ERA genesis);
     sig_nonce := nonce; sig_era := IMMORTAL_ERA |}.

Lemma transfer_text_ok nonce mi ci sender recipient priv amt genesis pk rk sk :
  compact_safe nonce = true -> compact_safe amt = true -> is_byte mi -> is_byte ci ->
  getPublicKeyFromAddr_string sender = Ret {| pk_bytes := pk |} -> length pk = 32%nat ->
  getPublicKeyFromAddr_string recipient = Ret {| pk_bytes := rk |} -> length rk = 32%nat ->
  fromHexVec priv true = Ret sk -> length sk = SR25519_SECRET_SIZE -> length genesis = 32%nat ->
  let call := transfer_call {| tm_moduleIndex := mi; tm_methodIndex := ci; receiverPublicKey := rk; amount := amt |} in
  transfer_text sr25519_sign nonce mi ci sender recipient priv amt genesis
  = Ret (48 :: 120 :: hex_bytes (framed (signature_part (signed pk sk genesis nonce call) ++ call))).
Proof using sign_length.
  intros Hn Ha Hmi Hci Es Hpk Er Hrk Epriv Hsk Hg call. unfold transfer_text. rewrite Er, Es. ostep.
  rewrite (u8_byte mi), (u8_byte ci) by done. cbn [pk_bytes].
  set (m := {| tm_moduleIndex := mi; tm_methodIndex := ci; receiverPublicKey := rk; amount := amt |}) in *.
  assert (method_ok m) as Hm by done.
  assert (length call = 35 + length (compact_spec amt))%nat as Hlc
    by (unfold call, transfer_call; repeat (rewrite ?length_app; cbn [length]); cbn; lia).
  pose proof (compact_spec_length _ Ha) as Hla. pose proof (compact_spec_length _ Hn) as Hln.
  unfold uninit, MAX_METHOD_BYTES_SZ.
  rewrite (appends_run _ _ _ (appends_method m Hm)) by (fold call; rewrite length_replicate; lia). ostep. fold call.
  rewrite (uwrap_small 8) by lia.
  rewrite (sp_serialize_ok _ call (drop (length call) (replicate 2048 0))) by
    (done || (rewrite length_replicate; lia)). ostep. cbn [sp_nonce sp_era authoringBlockHash].
  rewrite Epriv. ostep. rewrite sign_ok by done. ostep.
  rewrite te_serialize_ok; cbn [te_signature te_method]; [|split; [done|split; [by apply sign_length|done]]|done|rewrite length_replicate; lia].
  ostep. apply hex_string_ok.
Qed.

Definition submit_call (mi ci : Z) (enc : list Z) : list Z := [mi; ci; ADDRESS_SEPARATOR] ++ enc.

Lemma extrinsic_text_ok announced nonce mi ci enc sender priv genesis pk sk :
  compact_safe nonce = true -> is_byte mi -> is_byte ci -> (length enc <= 1900)%nat ->
  getPublicKeyFromAddr_string sender = Ret {| pk_bytes := pk |} -> length pk = 32%nat ->
  fromHexVec priv true = Ret sk -> length sk = SR25519_SECRET_SIZE -> length genesis = 32%nat -> compact_safe (announced (ci_of nonce)) = true ->
  let call := submit_call mi ci enc in
  let covered := take (Z.to_nat (u8 (Z.of_nat (length call)))) call in
  extrinsic_text sr25519_sign announced nonce mi ci enc sender priv genesis
  = Ret (48 :: 120 :: hex_bytes (compact_spec (announced (ci_of nonce))
      ++ signature_part (signed pk sk genesis nonce covered) ++ call)).
Proof using sign_length.
  intros Hn Hmi Hci He Es Hpk Epriv Hsk Hg Han call covered.
  assert (length call = 3 + length enc)%nat as Hlc by done.
  pose proof (compact_spec_length _ Hn) as Hln. pose proof (compact_spec_length _ Han) as Hlan.
  unfold extrinsic_text. rewrite encode_ci by done. ostep. rewrite (u8_byte mi), (u8_byte ci) by done.
  unfold uninit, MAX_METHOD_BYTES_SZ.
  pose proof (write_at_app [] (replicate 2048 0) [mi; ci; ADDRESS_SEPARATOR]) as Ew. cbn [length app] in Ew.
  rewrite Ew by (rewrite length_replicate; lia). ostep. clear Ew.
  pose proof (write_at_app [mi; ci; ADDRESS_SEPARATOR] (drop 3 (replicate 2048 0)) enc) as Ew. cbn [length] in Ew.
  change (mi :: ci :: ADDRESS_SEPARATOR :: drop 3 (replicate 2048 0))
    with ([mi; ci; ADDRESS_SEPARATOR] ++ drop 3 (replicate 2048 0)).
  rewrite Ew by (rewrite length_drop, length_replicate; lia). ostep. clear Ew. fold (submit_call mi ci enc). fold call.
  set (tl := drop (length enc) (drop 3 (replicate 2048 0))). rewrite Es. ostep. cbn [pk_bytes].
  assert (length covered = Z.to_nat (u8 (Z.of_nat (length call)))) as Hlcov.
  { unfold covered. rewrite length_take. pose proof (uwrap_range 8 (Z.of_nat (length call)) ltac:(lia)).
    assert (u8 (Z.of_nat (length call)) <= Z.of_nat (length call)) by (apply Z.mod_le; lia). lia. }
  assert (Z.of_nat (length covered) = u8 (Z.of_nat (length enc) + 3)) as Hcov.
  { rewrite Hlcov. replace (Z.of_nat (length enc) + 3) with (Z.of_nat (length call)) by lia.
    apply Z2Nat.id. apply uwrap_range. lia. }
  pose proof (uwrap_range 8 (Z.of_nat (length enc) + 3) ltac:(lia)).
  rewrite (sp_serialize_ok _ covered (drop (length covered) call ++ tl)); cbn [sp_nonce sp_methodBytes methodBytesLength authoringBlockHash sp_era];
    [|done| |by symmetry|done|rewrite length_replicate; lia].
  2:{ rewrite app_assoc. f_equal. unfold covered at 1. rewrite <- Hlcov. symmetry. apply take_drop. }
  ostep. rewrite Epriv. ostep. rewrite sign_ok by done. ostep. rewrite encode_ci by done. ostep.
  set (sg := signed pk sk genesis nonce covered).
  assert (length (signature_part sg) = 99 + length (compact_spec nonce))%nat as Hlsg.
  { unfold signature_part, sg, signed. cbn [version signerPublicKey sr25519Signature sig_nonce sig_era].
    repeat (rewrite ?length_app; cbn [length]). rewrite sign_length by done. unfold SR25519_SIGNATURE_SIZE. lia. }
  rewrite (appends_run _ (compact_spec (announced (ci_of nonce)) ++ signature_part sg)).
  2:{ unfold signature_part, sg, signed. cbn [version signerPublicKey sr25519Signature sig_nonce sig_era].
      apply appends_andthen; [apply appends_compact|]. apply (appends_andthen _ _ [_]); [apply appends_put|].
      apply (appends_andthen _ _ [_]); [apply appends_put|]. appends_tac; [done|]. by apply sign_length. }
  2:{ rewrite length_app, length_replicate. lia. }
  ostep. set (hd := compact_spec (announced (ci_of nonce)) ++ signature_part sg).
  assert (length hd = length (compact_spec (announced (ci_of nonce))) + length (signature_part sg))%nat as Hlhd
    by (unfold hd; apply length_app).
  rewrite (appends_run _ _ _ (appends_put_prefix _ hd (drop (length hd) (replicate 2048 0)) eq_refl))
    by (rewrite length_replicate; lia). ostep.
  replace (3 + length enc)%nat with (length call) by lia.
  rewrite (appends_put_prefix (call ++ tl) call tl eq_refl) by (rewrite length_drop, length_replicate; lia).
  ostep. rewrite hex_string_ok. unfold hd. by rewrite <- app_assoc.
Qed.
End texts.

Lemma submit_body_length sr25519_sign pk sk genesis nonce covered mi ci enc :
  (forall pk sk msg, length pk = SR25519_PUBLIC_SIZE -> length sk = SR25519_SECRET_SIZE ->
     length (sr25519_sign pk sk msg) = SR25519_SIGNATURE_SIZE) -> length pk = 32%nat -> length sk = SR25519_SECRET_SIZE ->
  length (signature_part (signed sr25519_sign pk sk genesis nonce covered) ++ submit_call mi ci enc)
  = (102 + length (compact_spec nonce) + length enc)%nat.
Proof.
  intros Hs Hpk Hsk. unfold signature_part, signed, submit_call. cbn [version signerPublicKey sr25519Signature sig_nonce sig_era].
  repeat (rewrite ?length_app; cbn [length]). rewrite Hs by done. unfold SR25519_SIGNATURE_SIZE. lia.
Qed.

Lemma compact_safe_small n : 0 <= n < 4096 -> compact_safe n = true.
Proof. intros Hn. unfold compact_safe. change (2 ^ 12) with 4096. lia. Qed.

Lemma submit_length_ok n (enc : list Z) :
  (length enc <= 1900)%nat ->
  submit_length (length enc) (ci_of n) = Z.of_nat (102 + length (compact_spec n) + length enc).
Proof.
  intros He. unfold submit_length, DEFAULT_FIXED_EXSTRINSIC_SIZE. rewrite uwrap_small by lia. cbn [ci_length ci_of]. lia.
Qed.

(** ** Properties *)

Definition test_transfer : TransferExtrinsic :=
  {| te_length := 0;
     te_signature := {| version := SIGNATURE_VERSION; signerPublicKey := [4; 5; 6] ++ replicate 29 0;
       sr25519Signature := [0x11; 0x12; 0x13] ++ replicate 61 0; sig_nonce := 3; sig_era := IMMORTAL_ERA |};
     te_method := {| tm_moduleIndex := 3; tm_methodIndex := 0; receiverPublicKey := [1; 2; 3] ++ replicate 29 0;
       amount := 1000000000000 |} |}.

(** [TransferExtrinsic::serializeBinary] writes a correctly framed extrinsic:
    for every signature and transfer whose nonce and amount the codec encodes, a
    158-byte buffer is enough, the bytes are the SCALE length prefix followed by
    version, separator, signer, signature, nonce, era, call indices, separator,
    receiver and amount, the announced [length] is the number of bytes after the
    prefix, and the returned count is the number of bytes written. *)
Theorem transfer_framed te buf :
  sig_ok (te_signature te) -> method_ok (te_method te) -> (158 <= length buf)%nat ->
  let body := signature_part (te_signature te) ++ transfer_call (te_method te) in
  te_serializeBinary te buf
  = Ret ({| te_length := Z.of_nat (length body); te_signature := te_signature te; te_method := te_method te |},
         (framed body ++ drop (length (framed body)) buf, length (framed body))).
Proof. apply te_serialize_ok. Qed.

Lemma transfer_framed_witness :
  let body := signature_part (te_signature test_transfer) ++ transfer_call (te_method test_transfer) in
  te_serializeBinary test_transfer (replicate 1024 0)
  = Ret ({| te_length := Z.of_nat (length body); te_signature := te_signature test_transfer; te_method := te_method test_transfer |},
         (framed body ++ drop (length (framed body)) (replicate 1024 0), length (framed body))).
Proof. apply (transfer_framed test_transfer (replicate 1024 0)); [done|done|]. rewrite length_replicate. lia. Defined.

(** The bytes that the repository's transaction test expects. *)
Example test_transfer_bytes :
  hex_bytes (framed (signature_part (te_signature test_transfer) ++ transfer_call (te_method test_transfer)))
  = str "350281FF0405060000000000000000000000000000000000000000000000000000000000111213000000000000000000"
    ++ str "000000000000000000000000000000000000000000000000000000000000000000000000000000000000000000000000"
    ++ str "000000000C000300FF0102030000000000000000000000000000000000000000000000000000000000070010A5D4E8".
Proof. vm_compute. reflexivity. Qed.

(** Discharges the hypotheses of the theorems below on concrete inputs. *)
Ltac concrete :=
  first [ unfold is_byte; lia | intros; apply length_replicate | rewrite ?length_replicate; lia
        | vm_compute; reflexivity | cbn; lia ].

(** A stand-in for the signature library in evaluations, and a private key. *)
Definition sign64 (pk sk msg : list Z) : list Z := replicate 64 7.
Definition test_secret : list Z := replicate 64 1.
Definition test_private_key : list Z := str "0x" ++ hex_bytes test_secret.

(** C3: what [signAndSendTransfer] submits, from the addresses to the text: when
    both addresses decode, the nonce and amount are encodable and the private key has
    the 64 bytes that the library reads, the text is the hexadecimal form of a framed transfer of [amount] to the recipient's key,
    signed by the sender over exactly nonce, call, era and genesis hash. *)
Theorem transfer_text_signed sr25519_sign nonce mi ci sender recipient priv amt genesis pk rk sk :
  (forall pk sk msg, length pk = SR25519_PUBLIC_SIZE -> length sk = SR25519_SECRET_SIZE ->
     length (sr25519_sign pk sk msg) = SR25519_SIGNATURE_SIZE) ->
  compact_safe nonce = true -> compact_safe amt = true -> is_byte mi -> is_byte ci ->
  getPublicKeyFromAddr_string sender = Ret {| pk_bytes := pk |} -> length pk = 32%nat ->
  getPublicKeyFromAddr_string recipient = Ret {| pk_bytes := rk |} -> length rk = 32%nat ->
  fromHexVec priv true = Ret sk -> length sk = SR25519_SECRET_SIZE -> length genesis = 32%nat ->
  let call := transfer_call {| tm_moduleIndex := mi; tm_methodIndex := ci; receiverPublicKey := rk; amount := amt |} in
  transfer_text sr25519_sign nonce mi ci sender recipient priv amt genesis
  = Ret (48 :: 120 :: hex_bytes (framed (signature_part (signed sr25519_sign pk sk genesis nonce call) ++ call))).
Proof. intros. by apply transfer_text_ok. Qed.

Definition test_addr : list Z := str "5FpxCaAovn3t2sTsbBeT5pWTj2rg392E8QoduwAyENcPrKht".

Lemma transfer_text_signed_witness :
  let call := transfer_call {| tm_moduleIndex := 3; tm_methodIndex := 0; receiverPublicKey := test_key; amount := 5 |} in
  transfer_text sign64 70 3 0 test_addr test_addr test_private_key 5 (replicate 32 9)
  = Ret (48 :: 120 :: hex_bytes (framed (signature_part (signed sign64 test_key test_secret (replicate 32 9) 70 call) ++ call))).
Proof.
  apply (transfer_text_signed sign64 70 3 0 test_addr test_addr test_private_key 5 (replicate 32 9) test_key test_key test_secret); concrete.
Defined.

(** What [submitExtrinsic] submits for a call of up to 255 bytes (module and
    method index, separator and at most 252 encoded bytes): a correctly framed
    extrinsic whose signature covers exactly nonce, call, era and genesis hash. *)
Theorem submit_text_signed sr25519_sign nonce mi ci enc sender priv genesis pk sk :
  (forall pk sk msg, length pk = SR25519_PUBLIC_SIZE -> length sk = SR25519_SECRET_SIZE ->
     length (sr25519_sign pk sk msg) = SR25519_SIGNATURE_SIZE) ->
  compact_safe nonce = true -> is_byte mi -> is_byte ci -> (length enc <= 252)%nat ->
  getPublicKeyFromAddr_string sender = Ret {| pk_bytes := pk |} -> length pk = 32%nat ->
  fromHexVec priv true = Ret sk -> length sk = SR25519_SECRET_SIZE -> length genesis = 32%nat ->
  let call := submit_call mi ci enc in
  submit_text sr25519_sign nonce mi ci enc sender priv genesis
  = Ret (48 :: 120 :: hex_bytes (framed (signature_part (signed sr25519_sign pk sk genesis nonce call) ++ call))).
Proof.
  intros Hs Hn Hmi Hci He Es Hpk Ep Hsk Hg call. pose proof (compact_spec_length _ Hn).
  pose proof (submit_length_ok nonce enc ltac:(lia)) as El.
  unfold submit_text. rewrite (extrinsic_text_ok sr25519_sign Hs _ nonce mi ci enc sender priv genesis pk sk);
    try done; [|lia|rewrite El; apply compact_safe_small; lia].
  fold call. assert (length call = 3 + length enc)%nat as Hl by done.
  rewrite (uwrap_small 8), Nat2Z.id, take_ge by lia. unfold framed, call at 4.
  rewrite submit_body_length by done. by rewrite El.
Qed.

Lemma submit_text_signed_witness :
  let call := submit_call 4 1 [0; 1; 2] in
  submit_text sign64 70 4 1 [0; 1; 2] test_addr test_private_key (replicate 32 9)
  = Ret (48 :: 120 :: hex_bytes (framed (signature_part (signed sign64 test_key test_secret (replicate 32 9) 70 call) ++ call))).
Proof.
  apply (submit_text_signed sign64 70 4 1 [0; 1; 2] test_addr test_private_key (replicate 32 9) test_key test_secret); concrete.
Defined.

(** A longer call is signed only in part. [methodBytesLength] is a [uint8_t]:
    for 253 to 1900 encoded bytes the extrinsic is framed as before, but its
    signature covers the first [(size + 3) mod 256] bytes of the call, which is
    not the call that is submitted. *)
Theorem submit_text_truncates sr25519_sign nonce mi ci enc sender priv genesis pk sk :
  (forall pk sk msg, length pk = SR25519_PUBLIC_SIZE -> length sk = SR25519_SECRET_SIZE ->
     length (sr25519_sign pk sk msg) = SR25519_SIGNATURE_SIZE) ->
  compact_safe nonce = true -> is_byte mi -> is_byte ci -> (253 <= length enc <= 1900)%nat ->
  getPublicKeyFromAddr_string sender = Ret {| pk_bytes := pk |} -> length pk = 32%nat ->
  fromHexVec priv true = Ret sk -> length sk = SR25519_SECRET_SIZE -> length genesis = 32%nat ->
  let call := submit_call mi ci enc in
  let covered := take (Z.to_nat ((Z.of_nat (length enc) + 3) mod 256)) call in
  submit_text sr25519_sign nonce mi ci enc sender priv genesis
  = Ret (48 :: 120 :: hex_bytes (framed (signature_part (signed sr25519_sign pk sk genesis nonce covered) ++ call)))
  /\ covered <> call.
Proof.
  intros Hs Hn Hmi Hci He Es Hpk Ep Hsk Hg call covered. pose proof (compact_spec_length _ Hn).
  pose proof (submit_length_ok nonce enc ltac:(lia)) as El.
  assert (length call = 3 + length enc)%nat as Hl by done. split.
  - unfold submit_text. rewrite (extrinsic_text_ok sr25519_sign Hs _ nonce mi ci enc sender priv genesis pk sk);
      try done; [|lia|rewrite El; apply compact_safe_small; lia].
    fold call. unfold uwrap. change (2 ^ 8) with 256. rewrite Hl.
    replace (Z.of_nat (3 + length enc)) with (Z.of_nat (length enc) + 3) by lia. fold covered.
    unfold framed, call at 2. rewrite submit_body_length by done. by rewrite El.
  - intros E. apply (f_equal length) in E. unfold covered in E. rewrite length_take in E.
    pose proof (Z.mod_pos_bound (Z.of_nat (length enc) + 3) 256 ltac:(lia)). lia.
Qed.

Lemma submit_text_truncates_witness :
  let call := submit_call 4 1 (replicate 300 1) in
  let covered := take 47 call in
  submit_text sign64 70 4 1 (replicate 300 1) test_addr test_private_key (replicate 32 9)
  = Ret (48 :: 120 :: hex_bytes (framed (signature_part (signed sign64 test_key test_secret (replicate 32 9) 70 covered) ++ call)))
  /\ covered <> call.
Proof.
  apply (submit_text_truncates sign64 70 4 1 (replicate 300 1) test_addr test_private_key (replicate 32 9) test_key test_secret); concrete.
Defined.

(** [submitAndSubcribeExtrinsic] announces the wrong length once the nonce
    needs more than one byte: from nonce 64 on, the prefix counts fewer bytes
    than follow it. *)
Theorem watch_text_misframed sr25519_sign nonce mi ci enc sender priv genesis pk sk :
  (forall pk sk msg, length pk = SR25519_PUBLIC_SIZE -> length sk = SR25519_SECRET_SIZE ->
     length (sr25519_sign pk sk msg) = SR25519_SIGNATURE_SIZE) ->
  compact_safe nonce = true -> 64 <= nonce -> is_byte mi -> is_byte ci -> (length enc <= 252)%nat ->
  getPublicKeyFromAddr_string sender = Ret {| pk_bytes := pk |} -> length pk = 32%nat ->
  fromHexVec priv true = Ret sk -> length sk = SR25519_SECRET_SIZE -> length genesis = 32%nat ->
  let call := submit_call mi ci enc in
  let body := signature_part (signed sr25519_sign pk sk genesis nonce call) ++ call in
  let announced := 103 + Z.of_nat (length enc) in
  watch_text sr25519_sign nonce mi ci enc sender priv genesis
  = Ret (48 :: 120 :: hex_bytes (compact_spec announced ++ body)) /\ announced < Z.of_nat (length body).
Proof.
  intros Hs Hn H64 Hmi Hci He Es Hpk Ep Hsk Hg call body announced.
  assert (watch_length (length enc) (ci_of nonce) = announced) as El.
  { unfold watch_length, DEFAULT_FIXED_EXSTRINSIC_SIZE. by rewrite uwrap_small by lia. }
  split.
  - unfold watch_text. rewrite (extrinsic_text_ok sr25519_sign Hs _ nonce mi ci enc sender priv genesis pk sk);
      try done; [|lia|rewrite El; apply compact_safe_small; lia].
    fold call. assert (length call = 3 + length enc)%nat as Hl by done.
    rewrite (uwrap_small 8), Nat2Z.id, take_ge by lia. by rewrite El.
  - unfold body, call. rewrite submit_body_length by done.
    assert (2 <= length (compact_spec nonce))%nat; [|unfold announced; lia].
    unfold compact_spec. rewrite (proj2 (Z.ltb_ge nonce (2 ^ 6))) by lia.
    destruct (nonce <? 2 ^ 14); [rewrite length_le_bytes; lia|].
    destruct (Z.ltb_spec nonce (2 ^ 30)); [rewrite length_le_bytes; lia|].
    assert (3 < byte_length nonce <= 7)%nat by (apply byte_length_bounds; unfold compact_safe in Hn; lia).
    cbn [length]. rewrite length_le_bytes. lia.
Qed.

Lemma watch_text_misframed_witness :
  let call := submit_call 4 1 [0; 1; 2] in
  let body := signature_part (signed sign64 test_key test_secret (replicate 32 9) 70 call) ++ call in
  let announced := 103 + Z.of_nat (length [0; 1; 2]) in
  watch_text sign64 70 4 1 [0; 1; 2] test_addr test_private_key (replicate 32 9)
  = Ret (48 :: 120 :: hex_bytes (compact_spec announced ++ body)) /\ announced < Z.of_nat (length body).
Proof.
  apply (watch_text_misframed sign64 70 4 1 [0; 1; 2] test_addr test_private_key (replicate 32 9) test_key test_secret); concrete.
Defined.

(** ** Reading back *)

Lemma take_byte_hex b bs : is_byte b -> take_byte (hex_bytes (b :: bs)) = Ret (b, hex_bytes bs).
Proof.
  intros Hb. unfold take_byte. rewrite hex_bytes_cons, substr_ok by lia. ostep.
  change (take 2 (drop 0 (hex_digit (b / 16) :: hex_digit (b mod 16) :: hex_bytes bs))) with (hex_byte b).
  rewrite fromHex_byte by done. ostep. rewrite substr_from_ok by (cbn [length]; lia). ostep. by rewrite u8_byte.
Qed.

Lemma substr_hex bs i n k m :
  k = (2 * i)%nat -> m = (2 * n)%nat -> (i <= length bs)%nat ->
  substr (hex_bytes bs) k m = Ret (hex_bytes (take n (drop i bs))).
Proof. intros -> -> Hi. rewrite substr_ok by (rewrite length_hex_bytes; lia). by rewrite drop_hex, take_hex. Qed.

Lemma substr_from_hex bs i k :
  k = (2 * i)%nat -> (i <= length bs)%nat -> substr_from (hex_bytes bs) k = Ret (hex_bytes (drop i bs)).
Proof. intros -> Hi. rewrite substr_from_ok by (rewrite length_hex_bytes; lia). by rewrite drop_hex. Qed.

Lemma decode_framed n bs : 0 <= n < 2 ^ 56 -> decodeCompactInteger (hex_bytes (compact_spec n ++ bs)) = Ret (n, hex_bytes bs).
Proof. intros Hn. rewrite hex_bytes_app. by apply decode_spec. Qed.

Lemma read_pending_ok slack sig mi mj tl addr :
  is_byte (version sig) -> bytes_ok (signerPublicKey sig) -> length (signerPublicKey sig) = 32%nat ->
  bytes_ok (sr25519Signature sig) -> length (sr25519Signature sig) = 64%nat -> 0 <= sig_nonce sig < 2 ^ 56 ->
  is_byte mi -> is_byte mj -> getAddrFromPublicKey slack {| pk_bytes := signerPublicKey sig |} = Ret addr ->
  let body := signature_part sig ++ mi :: mj :: tl in
  Z.of_nat (length body) < 2 ^ 56 ->
  read_pending slack (48 :: 120 :: hex_bytes (framed body))
  = Ret {| ge_length := Z.of_nat (length body); ge_signature := sig; ge_moduleIndex := mi; ge_methodIndex := mj;
           ge_methodBytes := hex_bytes tl; ge_signerAddress := addr |}.
Proof.
  intros Hv Hpk Lpk Hsg Lsg Hn Hmi Hmj Ea body Hlen. unfold read_pending.
  rewrite substr_from_ok by (cbn; lia). ostep. rewrite skipn_cons, skipn_cons, drop_0. unfold framed.
  rewrite decode_framed by lia. ostep. set (L := Z.of_nat (length body)) in *. unfold body, signature_part.
  rewrite <- !app_assoc. cbn [app].
  rewrite take_byte_hex by done. ostep. unfold SR25519_PUBLIC_SIZE, SR25519_SIGNATURE_SIZE.
  rewrite (substr_hex _ 1 32) by (done || (cbn [length]; lia)). ostep. rewrite skipn_cons, drop_0.
  rewrite take_app_length' by done.
  rewrite (fromHexVec_bytes _ false) by (done || by (intros E; rewrite E in Lpk)). ostep.
  rewrite read_n_ok by lia. ostep. rewrite drop_0, take_ge by lia.
  rewrite (substr_from_hex _ 33) by (lia || (rewrite length_cons, length_app; lia)). ostep.
  rewrite skipn_cons, drop_app_length' by done.
  rewrite (substr_hex _ 0 64) by (done || lia). ostep. rewrite drop_0, take_app_length' by done.
  rewrite (fromHexVec_bytes _ false) by (done || by (intros E; rewrite E in Lsg)). ostep.
  rewrite read_n_ok by lia. ostep. rewrite drop_0, take_ge by lia.
  rewrite (substr_from_hex _ 64) by (lia || (rewrite length_app; lia)). ostep. rewrite drop_app_length' by done.
  rewrite decode_framed by done. ostep.
  rewrite take_byte_hex by (unfold is_byte; destruct (sig_era sig); cbn; lia). ostep.
  rewrite take_byte_hex by done. ostep. rewrite take_byte_hex by done. ostep. rewrite Ea. ostep.
  rewrite !(uwrap_small 128) by lia. do 2 f_equal. destruct sig as [v pk sg n e]. cbn. by destruct e.
Qed.

(** C32: [pendingExtrinsics] inverts the wire format: the text of any framed
    extrinsic (signature, call indices and further bytes) is read back field by
    field, with the length that was announced, the call's remaining bytes as
    text, and the signer's address. *)
Theorem pending_roundtrip slack sig mi mj tl :
  slack <> [] ->
  is_byte (version sig) -> bytes_ok (signerPublicKey sig) -> length (signerPublicKey sig) = 32%nat ->
  bytes_ok (sr25519Signature sig) -> length (sr25519Signature sig) = 64%nat -> 0 <= sig_nonce sig < 2 ^ 56 ->
  is_byte mi -> is_byte mj ->
  let body := signature_part sig ++ mi :: mj :: tl in
  Z.of_nat (length body) < 2 ^ 56 ->
  exists addr, getAddrFromPublicKey slack {| pk_bytes := signerPublicKey sig |} = Ret addr /\
  read_pending slack (48 :: 120 :: hex_bytes (framed body))
  = Ret {| ge_length := Z.of_nat (length body); ge_signature := sig; ge_moduleIndex := mi; ge_methodIndex := mj;
           ge_methodBytes := hex_bytes tl; ge_signerAddress := addr |}.
Proof.
  intros Hs Hv Hpk Lpk Hsg Lsg Hn Hmi Hmj body Hlen.
  destruct (getAddr_ok slack (signerPublicKey sig) Hs Lpk Hpk) as (addr & Ea & _).
  exists addr. split; [done|]. by apply read_pending_ok.
Qed.

Definition test_sig : Signature :=
  {| version := 0x81; signerPublicKey := test_key; sr25519Signature := replicate 64 7; sig_nonce := 70; sig_era := MORTAL_ERA |}.

Lemma pending_roundtrip_witness :
  let body := signature_part test_sig ++ 3 :: 0 :: [255; 1] in
  exists addr, getAddrFromPublicKey [0] {| pk_bytes := signerPublicKey test_sig |} = Ret addr /\
  read_pending [0] (48 :: 120 :: hex_bytes (framed body))
  = Ret {| ge_length := Z.of_nat (length body); ge_signature := test_sig; ge_moduleIndex := 3; ge_methodIndex := 0;
           ge_methodBytes := hex_bytes [255; 1]; ge_signerAddress := addr |}.
Proof.
  apply (pending_roundtrip [0] test_sig 3 0 [255; 1]); try done;
    first [unfold is_byte; cbn; lia | apply test_key_ok | apply Forall_replicate; unfold is_byte; lia | vm_compute; reflexivity | cbn; lia].
Defined.
