(* ===== verification/Storage.v ===== *)
(** Storage keys: [src/utils/storage.cpp] and [src/structs/hasher.h]. *)
From S2P Require Import Prelude Blake2b XXHash Address Json.

Definition STORAGE_KEY_BYTELENGTH : nat := 32.

Inductive Hasher : Type := XXHASH | BLAKE2.

(** [sprintf(key + strlen(key), ...)] into [key[cap]]; [key] is its C string. *)
Definition sprintf_at (cap : nat) (key s : list Z) : outcome (list Z) :=
  if (length key + length s <? cap)%nat then Ret (key ++ s) else UB.

(** [for (i < n) sprintf(key + strlen(key), "%02X", bytes[i])] *)
Fixpoint sprintf_hex (cap : nat) (key bytes : list Z) : outcome (list Z) :=
  match bytes with
  | [] => Ret key
  | b :: bytes' => key ← sprintf_at cap key (hex_byte b); sprintf_hex cap key bytes'
  end.

(** [(unsigned char)((h & (0xFF << 8 i)) >> 8 i)] for [i] from 0 to 7 *)
Definition hash_bytes (h : Z) : list Z :=
  (fun i => u8 (Z.shiftr (Z.land h (Z.shiftl 0xFF (8 * i))) (8 * i))) <$> [0; 1; 2; 3; 4; 5; 6; 7].

Definition getStorageKey (hasher : Hasher) (data : list Z) : outcome (list Z) :=
  let cap := (2 * STORAGE_KEY_BYTELENGTH + 3)%nat in
  match hasher with
  | XXHASH =>
      xxhash1 ← XXH64 data 0;
      let bytes1 := hash_bytes xxhash1 in
      xxhash2 ← XXH64 data 1;
      let bytes2 := hash_bytes xxhash2 in
      key ← sprintf_at cap [] (str "0x");
      key ← sprintf_hex cap key bytes1;
      sprintf_hex cap key bytes2
  | BLAKE2 =>
      blake2bHashed ← match blake2b 32 data [] with Some d => Ret d | None => UB end;
      key ← sprintf_at cap [] (str "0x");
      sprintf_hex cap key blake2bHashed
  end.

Definition getAddressStorageKey (hasher : Hasher) (address : Address) (prefix : list Z) : outcome (list Z) :=
  pubk ← getPublicKeyFromAddr address;
  data ← write_at (replicate (PUBLIC_KEY_LENGTH + STRING_SIZE) 0) 0 prefix;
  key ← read_n (pk_bytes pubk) 0 PUBLIC_KEY_LENGTH;
  data ← write_at data (length prefix) key;
  d ← read_n data 0 (PUBLIC_KEY_LENGTH + length prefix);
  getStorageKey hasher d.

(** [sprintf(data, "%s%s", prefix, value); getStorageKey(hasher, data, strlen(data))] *)
Definition text_storage_key (cap : nat) (hasher : Hasher) (prefix value : list Z) : outcome (list Z) :=
  data ← sprintf_at cap [] (cstr prefix ++ cstr value);
  getStorageKey hasher data.

Definition number_types : list (list Z) :=
  [str "BlockNumber"; str "u32"; str "AccountIndex"; str "PropIndex"; str "ReferendumIndex"; str "ParaId"].

Definition getMappedStorageKey `{Doubles} (hasher : Hasher) (jsonPrm prefix : list Z) : outcome (list Z) :=
  json ←
    match parse STANDARD jsonPrm with
    | POk json _ => Ret json
    | PFail err =>
        if (0 <? length err)%nat then Throw (ApplicationException (str "Invalid parameter string: " ++ err))
        else Ret JNull
    | POut => UB
    end;
  let type := string_value (at_key json (str "type")) in
  let value := string_value (at_key json (str "value")) in
  if bool_decide (type = str "AccountId") then
    symbols ← read_n (value ++ [0]) 0 ADDRESS_LENGTH;
    getAddressStorageKey hasher {| symbols := symbols |} prefix
  else if bool_decide (type ∈ number_types) then text_storage_key 128 hasher prefix value
  else if bool_decide (type = str "Hash") then text_storage_key 256 hasher prefix value
  else Throw (ApplicationException (str "Invalid parameter type: " ++ type)).

Definition getPlainStorageKey (hasher : Hasher) (prefix : list Z) : outcome (list Z) :=
  getStorageKey hasher prefix.

(** ** The hash in a key *)

Definition key_hash (hasher : Hasher) (data : list Z) : list Z :=
  match hasher with
  | XXHASH =>
      match XXH64 data 0, XXH64 data 1 with
      | Ret h0, Ret h1 => le_bytes 8 h0 ++ le_bytes 8 h1
      | _, _ => []
      end
  | BLAKE2 => blake2b_spec 32 data []
  end.

Definition key_text (hasher : Hasher) (data : list Z) : list Z := str "0x" ++ hex_bytes (key_hash hasher data).

Lemma hash_bytes_le h : 0 <= h < 2 ^ 64 -> hash_bytes h = le_bytes 8 h.
Proof.
  intros Hh. unfold hash_bytes.
  assert (forall i, 0 <= i -> u8 (Z.shiftr (Z.land h (Z.shiftl 255 (8 * i))) (8 * i)) = h / 256 ^ i mod 256) as E.
  { intros i Hi. rewrite Z.shiftr_land, Z.shiftr_shiftl_l by lia. rewrite Z.sub_diag, Z.shiftl_0_r.
    change 255 with (Z.ones 8). rewrite Z.land_ones, Z.shiftr_div_pow2 by lia.
    unfold uwrap. rewrite Z.mod_mod by lia. rewrite Z.pow_mul_r by lia. done. }
  cbn [fmap list_fmap]. rewrite !E by lia. unfold le_bytes, to_digits.
  rewrite !Z.div_div by lia. rewrite Z.pow_0_r, Z.div_1_r. done.
Qed.

Lemma sprintf_hex_ok cap key bytes :
  (length key + 2 * length bytes < cap)%nat -> sprintf_hex cap key bytes = Ret (key ++ hex_bytes bytes).
Proof.
  revert key. induction bytes as [|b bytes IH]; intros key Hl; cbn [sprintf_hex].
  { unfold hex_bytes. cbn. by rewrite app_nil_r. }
  cbn [length] in Hl. unfold sprintf_at, hex_byte. rewrite (proj2 (Nat.ltb_lt _ _)) by (cbn [length]; lia). ostep.
  rewrite IH by (rewrite length_app; cbn [length]; lia). rewrite hex_bytes_cons, <- app_assoc. done.
Qed.

Lemma key_hash_length hasher data :
  length (key_hash hasher data) = match hasher with XXHASH => 16 | BLAKE2 => 32 end%nat.
Proof.
  destruct hasher; cbn [key_hash].
  - destruct (XXH64_ok data 0) as (h0 & -> & _), (XXH64_ok data 1) as (h1 & -> & _).
    by rewrite length_app, !length_le_bytes.
  - destruct (blake2b_digest 32 data) as (d & E & Hl & _); [unfold BLAKE2B_OUTBYTES; lia|].
    rewrite blake2b_ok in E by (unfold BLAKE2B_OUTBYTES, BLAKE2B_KEYBYTES; cbn; lia). by injection E as <-.
Qed.

Lemma getStorageKey_ok hasher data : getStorageKey hasher data = Ret (key_text hasher data).
Proof.
  pose proof (key_hash_length hasher data) as Hl.
  unfold getStorageKey, key_text, STORAGE_KEY_BYTELENGTH. destruct hasher; cbn [key_hash] in *.
  - destruct (XXH64_ok data 0) as (h0 & E0 & H0), (XXH64_ok data 1) as (h1 & E1 & H1).
    rewrite E0, E1. ostep. change (sprintf_at _ [] (str "0x")) with (Ret (str "0x")). ostep.
    rewrite !hash_bytes_le by done. rewrite !sprintf_hex_ok
      by (rewrite ?length_app, ?length_hex_bytes, ?length_le_bytes; cbn; lia). ostep.
    rewrite sprintf_hex_ok by (rewrite ?length_app, ?length_hex_bytes, ?length_le_bytes; cbn; lia).
    by rewrite hex_bytes_app, <- app_assoc.
  - rewrite blake2b_ok by (unfold BLAKE2B_OUTBYTES, BLAKE2B_KEYBYTES; cbn; lia). ostep.
    change (sprintf_at _ [] (str "0x")) with (Ret (str "0x")). ostep.
    rewrite sprintf_hex_ok by (rewrite Hl; cbn; lia). done.
Qed.

(** ** Keys *)

Lemma address_key_ok hasher addr prefix pk :
  getPublicKeyFromAddr addr = Ret {| pk_bytes := pk |} -> length pk = 32%nat -> (length prefix <= 256)%nat ->
  getAddressStorageKey hasher addr prefix = Ret (key_text hasher (prefix ++ pk)).
Proof.
  intros Epk Hpk Hp. unfold getAddressStorageKey, PUBLIC_KEY_LENGTH, STRING_SIZE. rewrite Epk. ostep.
  pose proof (write_at_app [] (replicate (32 + 256) 0) prefix) as Ew. cbn [length app] in Ew.
  rewrite Ew by (rewrite length_replicate; lia). ostep. cbn [pk_bytes].
  rewrite read_n_ok by lia. ostep. rewrite drop_0, take_ge by lia.
  rewrite write_at_app by (rewrite length_drop, length_replicate; lia). ostep.
  replace (32 + length prefix)%nat with (length (prefix ++ pk)) by (rewrite length_app; lia).
  rewrite read_n_ok by (rewrite (length_app (prefix ++ pk)); lia). ostep. rewrite drop_0, take_app_length. apply getStorageKey_ok.
Qed.

(** The parameter text that clients build for a type and a value. *)
Definition mapped_param `{Doubles} (type value : list Z) : list Z :=
  dump (JObject [(str "type", JString type); (str "value", JString value)]).

Lemma mapped_param_parse `{D : Doubles} type value :
  bytes_ok type -> bytes_ok value ->
  parse STANDARD (mapped_param type value) = POk (JObject [(str "type", JString type); (str "value", JString value)]) [].
Proof.
  intros Ht Hv. apply parse_of_dump. cbn [json_ok]. unfold max_depth. cbn [Z.leb Z.compare Pos.compare Pos.compare_cont andb].
  assert (forall l, bytes_ok l -> forallb byteb l = true) as Hb.
  { intros l Hl. apply forallb_forall. intros x Hx. apply list_elem_of_In in Hx. rewrite Forall_forall in Hl.
    specialize (Hl x Hx). unfold is_byte, byteb in *. lia. }
  cbn [forallb fst snd]. cbn [json_ok]. rewrite !Hb by (done || forall_list ltac:(unfold is_byte; lia)). reflexivity.
Qed.

Lemma text_storage_key_ok cap hasher prefix value :
  (length (cstr prefix) + length (cstr value) < cap)%nat ->
  text_storage_key cap hasher prefix value = Ret (key_text hasher (cstr prefix ++ cstr value)).
Proof.
  intros H. unfold text_storage_key, sprintf_at. cbn [length Nat.add].
  rewrite length_app, (proj2 (Nat.ltb_lt _ _)) by done. ostep. apply getStorageKey_ok.
Qed.

(** ** Properties *)

(** C33: every storage key is well formed: for any data and either hash function
    the key is computed within its buffer, and is "0x" followed by 32 or 64
    upper-case digits: the two XXH64 hashes (seeds 0 and 1) in little-endian byte
    order, or the 32-byte BLAKE2b hash, of the data. *)
Theorem storage_key_format hasher data :
  getStorageKey hasher data = Ret (key_text hasher data)
  /\ length (key_text hasher data) = match hasher with XXHASH => 34 | BLAKE2 => 66 end%nat.
Proof.
  split; [apply getStorageKey_ok|]. unfold key_text. rewrite length_app, length_hex_bytes, key_hash_length.
  by destruct hasher.
Qed.

Definition test_address48 : Address := {| symbols := str "5FpxCaAovn3t2sTsbBeT5pWTj2rg392E8QoduwAyENcPrKht" |}.

(** The keys that the repository's tests expect. *)
Example test_key_xxhash :
  getAddressStorageKey XXHASH test_address48 (str "Balances FreeBalance")
  = Ret (str "0x66F795B8D457430EDDA717C3CBA459B9").
Proof. vm_compute. reflexivity. Qed.

Example test_key_blake2 :
  getAddressStorageKey BLAKE2 test_address48 (str "Balances FreeBalance")
  = Ret (str "0x216F908CA0FC8CD350701926F1005F6D7D512B20354458E2D2170F85A278F909").
Proof. vm_compute. reflexivity. Qed.

(** A mapped key of an account is the hash of the prefix followed by the public
    key of the address in the JSON parameter: parsing the parameter, decoding the
    address and copying both parts lose nothing, for every prefix of at most 256
    bytes and every address that decodes. *)
Theorem mapped_account_key `{D : Doubles} hasher addr prefix pk :
  bytes_ok addr -> (length prefix <= 256)%nat ->
  getPublicKeyFromAddr_string addr = Ret {| pk_bytes := pk |} -> length pk = 32%nat ->
  getMappedStorageKey hasher (mapped_param (str "AccountId") addr) prefix = Ret (key_text hasher (prefix ++ pk)).
Proof.
  intros Ha Hp Epk Hpk. unfold getMappedStorageKey.
  rewrite mapped_param_parse by (done || forall_list ltac:(unfold is_byte; lia)). ostep.
  change (string_value (at_key _ (str "type"))) with (str "AccountId").
  change (string_value (at_key _ (str "value"))) with addr.
  rewrite bool_decide_eq_true_2 by done.
  unfold getPublicKeyFromAddr_string, getPublicKeyFromAddr_chars in Epk.
  apply bind_Ret_inv in Epk as (s & -> & Epk). ostep. by apply address_key_ok.
Qed.

Lemma mapped_account_key_witness :
  getMappedStorageKey (H := numeral_doubles) BLAKE2
    (mapped_param (H := numeral_doubles) (str "AccountId") (symbols test_address48)) (str "Balances FreeBalance")
  = Ret (key_text BLAKE2 (str "Balances FreeBalance" ++ test_key)).
Proof.
  apply (mapped_account_key (D := numeral_doubles) BLAKE2 (symbols test_address48) (str "Balances FreeBalance") test_key);
    [forall_list ltac:(unfold is_byte; lia)|cbn; lia|vm_compute; reflexivity|reflexivity].
Defined.

(** A mapped key of a numeric type is bounded by its 128-byte buffer: prefix and
    value together may have at most 127 bytes, and then the key is the hash of
    both; one byte more and [sprintf] runs past the buffer. *)
Theorem mapped_number_key `{D : Doubles} hasher type value prefix :
  type ∈ number_types -> bytes_ok value ->
  getMappedStorageKey hasher (mapped_param type value) prefix
  = if (length (cstr prefix) + length (cstr value) <? 128)%nat
    then Ret (key_text hasher (cstr prefix ++ cstr value)) else UB.
Proof.
  intros Ht Hv. unfold getMappedStorageKey.
  assert (bytes_ok type /\ type <> str "AccountId") as [Hb Hne].
  { unfold number_types in Ht. repeat (apply elem_of_cons in Ht as [->|Ht]); [..|by apply elem_of_nil in Ht];
      (split; [forall_list ltac:(unfold is_byte; lia)|done]). }
  rewrite mapped_param_parse by done. ostep.
  change (string_value (at_key _ (str "type"))) with type.
  change (string_value (at_key _ (str "value"))) with value.
  rewrite bool_decide_eq_false_2, bool_decide_eq_true_2 by done.
  destruct (Nat.ltb_spec (length (cstr prefix) + length (cstr value)) 128) as [Hl|Hl].
  - by apply text_storage_key_ok.
  - unfold text_storage_key, sprintf_at. cbn [length Nat.add].
    rewrite length_app, (proj2 (Nat.ltb_ge _ _)) by done. done.
Qed.

Definition test_number : list Z := replicate 120 49.

Lemma mapped_number_key_witness :
  getMappedStorageKey (H := numeral_doubles) XXHASH (mapped_param (H := numeral_doubles) (str "u32") test_number) (str "Council X")
  = if (length (cstr (str "Council X")) + length (cstr test_number) <? 128)%nat
    then Ret (key_text XXHASH (cstr (str "Council X") ++ cstr test_number)) else UB.
Proof.
  apply (mapped_number_key (D := numeral_doubles) XXHASH (str "u32") test_number (str "Council X")).
  - unfold number_types. set_solver.
  - apply Forall_replicate. unfold is_byte. lia.
Defined.

(** A parameter that is not JSON, or whose type is not one of those supported,
    is rejected with an [ApplicationException], whatever the prefix. *)
Theorem mapped_key_rejects `{D : Doubles} hasher prefix :
  (forall text msg, parse STANDARD text = PFail msg -> msg <> [] ->
    getMappedStorageKey hasher text prefix
    = Throw (ApplicationException (str "Invalid parameter string: " ++ msg)))
  /\ (forall type value, bytes_ok type -> bytes_ok value ->
    type ∉ number_types ++ [str "AccountId"; str "Hash"] ->
    getMappedStorageKey hasher (mapped_param type value) prefix
    = Throw (ApplicationException (str "Invalid parameter type: " ++ type))).
Proof.
  split.
  - intros text msg E Hne. unfold getMappedStorageKey. rewrite E. by destruct msg.
  - intros type value Ht Hv Hn. unfold getMappedStorageKey. rewrite mapped_param_parse by done. ostep.
    change (string_value (at_key _ (str "type"))) with type.
    change (string_value (at_key _ (str "value"))) with value.
    rewrite elem_of_app in Hn.
    rewrite !bool_decide_eq_false_2; [done|..]; intros E; apply Hn; [right|by left|right]; subst type; set_solver.
Qed.

Lemma mapped_key_rejects_witness :
  getMappedStorageKey (H := numeral_doubles) XXHASH (str "{") []
  = Throw (ApplicationException (str "Invalid parameter string: " ++ str "unexpected end of input"))
  /\ getMappedStorageKey (H := numeral_doubles) XXHASH (mapped_param (H := numeral_doubles) (str "u64") []) []
  = Throw (ApplicationException (str "Invalid parameter type: " ++ str "u64")).
Proof.
  destruct (mapped_key_rejects (D := numeral_doubles) XXHASH []) as [H1 H2]. split.
  - apply (H1 (str "{") (str "unexpected end of input")); [vm_compute; reflexivity|done].
  - apply (H2 (str "u64") []); [forall_list ltac:(unfold is_byte; lia)|constructor|].
    unfold number_types. cbn [app]. intros Hin. repeat (apply elem_of_cons in Hin as [?|Hin]; [done|]). by apply elem_of_nil in Hin.
Defined.
