(* ===== verification/Metadata.v ===== *)
(** Runtime metadata: [src/metadatafactory.cpp], [src/structs/metadataV0.h] to
    [src/structs/metadataV7.h] and [src/structs/metadataV7.cpp].

    Objects made by [new] hold indeterminate values until they are written: a
    field is [None] until then. A [char[256]] is the C string copied into it. An
    array of 64 pointers is the list of those that were set, from index 0; the
    others are null. The versions 4 to 7 share their calls and events, and 5 to 7
    their storage entries; the source repeats the code, here it is shared. *)
From S2P Require Import Prelude Scale.


(** ** Data *)

Abbreviation text := (list Z).

Record FunctionCallArg : Type := { arg_name : text; arg_type : text }.
Record Call : Type := { call_name : option text; call_args : list FunctionCallArg; call_docs : list text }.
Record EventArg : Type := { ev_name : option text; ev_args : list text; ev_docs : list text }.
Record Const : Type := { const_name : text; const_type : text; const_value : text; const_docs : list text }.

Record FuncTypeV4 : Type := {
  ft4_type : option Z; ft4_hasher : option Z; ft4_key1 : option text; ft4_key2 : option text }.
Record StorageV4 : Type := {
  st4_name : option text; st4_modifier : option Z; st4_type : FuncTypeV4;
  st4_fallback : option text; st4_docs : list text }.

Record FuncType : Type := {
  ft_type : option Z; ft_hasher : option text; ft_key1 : option text; ft_key2 : option text;
  ft_value : option text; ft_key2hasher : option text; ft_isLinked : option bool }.
Record Storage : Type := {
  st_name : option text; st_modifier : option Z; st_type : FuncType;
  st_fallback : option text; st_docs : list text }.

(** The same structs under the names of each version. *)
Definition FunctionCallArgV4 := FunctionCallArg.
Definition CallV4 := Call.
Definition EventArgV4 := EventArg.
Definition FunctionCallArgV5 := FunctionCallArg.
Definition CallV5 := Call.
Definition EventArgV5 := EventArg.
Definition FunctionCallArgV6 := FunctionCallArg.
Definition CallV6 := Call.
Definition EventArgV6 := EventArg.
Definition FunctionCallArgV7 := FunctionCallArg.
Definition CallV7 := Call.
Definition EventArgV7 := EventArg.
Definition FuncTypeV5 := FuncType.
Definition StorageV5 := Storage.
Definition FuncTypeV6 := FuncType.
Definition StorageV6 := Storage.
Definition FuncTypeV7 := FuncType.
Definition StorageV7 := Storage.
Definition ConstV6 := Const.
Definition ConstV7 := Const.
Record StorageCollectionV7 : Type := { sc_prefix : text; sc_items : list StorageV7 }.

Record ModuleV4 : Type := {
  m4_name : text; m4_prefix : text; m4_storage : list StorageV4; m4_call : list CallV4; m4_ev : list EventArgV4 }.
Record ModuleV5 : Type := {
  m5_name : text; m5_prefix : text; m5_storage : list StorageV5; m5_call : list CallV5; m5_ev : list EventArgV5 }.
Record ModuleV6 : Type := {
  m6_name : text; m6_prefix : text; m6_storage : list StorageV6; m6_call : list CallV6; m6_ev : list EventArgV6;
  m6_cons : list ConstV6 }.
Record ModuleV7 : Type := {
  m7_name : text; m7_storage : option StorageCollectionV7; m7_call : list CallV7; m7_ev : list EventArgV7;
  m7_cons : list ConstV7 }.

Record MDV4 : Type := { md4_module : list ModuleV4 }.
Record MDV5 : Type := { md5_module : list ModuleV5 }.
Record MDV6 : Type := { md6_module : list ModuleV6 }.
Record MDV7 : Type := { md7_module : list ModuleV7 }.

Record EventArgV0 : Type := { ea0_name : text; ea0_argItem : list text; ea0_eventDoc : list text }.
Record OuterEventV0 : Type := { oe0_name : text; oe0_eventArg : list EventArgV0 }.
Record FunctionCallV0 : Type := {
  fn0_id : Z; fn0_name : text; fn0_args : list FunctionCallArg; fn0_docs : list text }.
Record FunctionV0 : Type := {
  f0_name : text; f0_value : text; f0_key : option text; f0_fallback : text; f0_docs : list text }.
(** [s0_typeName] is [function[0].type[0].typeName], the only one that is written. *)
Record StorageV0 : Type := { s0_prefix : text; s0_function : list FunctionV0; s0_typeName : option Z }.
Record ModuleV0 : Type := {
  m0_prefix : text; m0_name : text; m0_callName : text; m0_fn1 : list FunctionCallV0; m0_storage : option StorageV0 }.
Record DispachCallV0 : Type := { dc0_name : text; dc0_prefix : text; dc0_index : Z }.
Record MDV0 : Type := {
  md0_oewName : text; md0_events : list OuterEventV0; md0_module : list ModuleV0;
  md0_dispachName : text; md0_dispach : list DispachCallV0 }.

(** ** Parsers the code repeats *)

(** [int n = decodeCompactInteger(str)] *)
Definition compact_int : parser Z := n ← decodeCompactInteger; mret (i32 n).

(** [strcpy(dst, extractString(str, len).c_str())] with its length before it. *)
Definition get_string : parser text :=
  len ← compact_int;
  s ← extractString len;
  lift (strcpy STRING_SIZE s).

(** [for (i < count)] an item into [dst[i]], with room for [room] items. When
    there is no room left, [overrun] is what is still read before the first store
    past the array. *)
Fixpoint get_items_in {A B} (overrun : parser B) (room : nat) (count : Z) (item : parser A) : parser (list A) :=
  if count <=? 0 then mret []
  else
    match room with
    | O => _ ← overrun; lift UB
    | S room' => x ← item; xs ← get_items_in overrun room' (count - 1) item; mret (x :: xs)
    end.

(** The usual case: the item is complete before it is stored. *)
Definition get_items {A} (room : nat) (count : Z) (item : parser A) : parser (list A) :=
  get_items_in item room count item.

(** The documentation lines that end most entries; the count is a [long]. *)
Definition get_docs : parser (list text) :=
  docCount ← decodeCompactInteger;
  get_items COLLECTION_SIZE docCount get_string.

(** [str.substr(0, n); str = str.substr(n)] for a [size_t] [n] *)
Definition get_raw (n : Z) : parser text := fun s =>
  if (n <? 0) || (Z.of_nat (length s) <? n) then Throw out_of_range
  else Ret (take (Z.to_nat n) s, drop (Z.to_nat n) s).

(** [auto len = decodeCompactInteger(str)], a [long]: the raw text of [len] bytes. *)
Definition get_fallback : parser text :=
  fallbackLen ← decodeCompactInteger;
  n ← lift (chk64 (fallbackLen * 2));
  raw ← get_raw n;
  lift (strcpy STRING_SIZE raw).

(** [int len]: the product is an [int]. *)
Definition get_value : parser text :=
  valueLen ← compact_int;
  _ ← lift (assume (in_signed 32 (valueLen * 2)));
  raw ← get_raw (valueLen * 2);
  lift (strcpy STRING_SIZE raw).

Definition get_arg : parser FunctionCallArg :=
  name ← get_string;
  type ← get_string;
  mret {| arg_name := name; arg_type := type |}.

(** ** Version 0 *)

Definition getEventArgV0 : parser EventArgV0 :=
  name ← get_string;
  argitemsize ← decodeCompactInteger;
  items ← get_items COLLECTION_SIZE argitemsize get_string;
  docs ← get_docs;
  mret {| ea0_name := name; ea0_argItem := items; ea0_eventDoc := docs |}.

Definition getEventV0 : parser OuterEventV0 :=
  name ← get_string;
  eventArgCount ← compact_int;
  args ← get_items COLLECTION_SIZE eventArgCount getEventArgV0;
  mret {| oe0_name := name; oe0_eventArg := args |}.

Definition getFunctionCallV0 : parser FunctionCallV0 :=
  id ← nextWord;
  name ← get_string;
  argsCount ← compact_int;
  args ← get_items_in get_string COLLECTION_SIZE argsCount get_arg;
  docCount ← compact_int;
  docs ← get_items COLLECTION_SIZE docCount get_string;
  mret {| fn0_id := id; fn0_name := name; fn0_args := args; fn0_docs := docs |}.

(** One storage function and its [type], which goes to function 0. *)
Definition getFunctionV0 : parser (FunctionV0 * Z) :=
  name ← get_string;
  type ← nextByte;
  hasSecondType ← nextByte;
  type1Len ← compact_int;
  type1 ← extractString type1Len;
  type2 ← (if 0 <? hasSecondType then type2Len ← compact_int; extractString type2Len else mret []);
  '(value, key) ←
    (if type =? 0 then v ← lift (strcpy STRING_SIZE type1); mret (v, None)
     else v ← lift (strcpy STRING_SIZE type2); k ← lift (strcpy STRING_SIZE type1); mret (v, Some k));
  fallback ← get_fallback;
  docs ← get_docs;
  mret ({| f0_name := name; f0_value := value; f0_key := key; f0_fallback := fallback; f0_docs := docs |}, type).

Definition getModuleV0 : parser ModuleV0 :=
  prefix ← get_string;
  name ← get_string;
  callName ← get_string;
  callFuntionsCount ← compact_int;
  fn1 ← get_items_in nextWord COLLECTION_SIZE callFuntionsCount getFunctionCallV0;
  storageIsset ← nextByte;
  storage ←
    (if storageIsset =? 0 then mret None
     else
       sprefix ← get_string;
       storageFuncsCount ← compact_int;
       fs ← get_items_in get_string COLLECTION_SIZE storageFuncsCount getFunctionV0;
       mret (Some {| s0_prefix := sprefix; s0_function := fs.*1; s0_typeName := last (fs.*2) |}));
  mret {| m0_prefix := prefix; m0_name := name; m0_callName := callName; m0_fn1 := fn1; m0_storage := storage |}.

Definition getOuterDispachV0 : parser DispachCallV0 :=
  name ← get_string;
  prefix ← get_string;
  index ← nextWord;
  mret {| dc0_name := name; dc0_prefix := prefix; dc0_index := index |}.

Definition fillV0Metadata : parser MDV0 :=
  oewName ← get_string;
  eventsLen ← compact_int;
  events ← get_items COLLECTION_SIZE eventsLen getEventV0;
  modulesLen ← compact_int;
  modules ← get_items COLLECTION_SIZE modulesLen getModuleV0;
  dispachName ← get_string;
  outerDispachLen ← compact_int;
  dispach ← get_items COLLECTION_SIZE outerDispachLen getOuterDispachV0;
  mret {| md0_oewName := oewName; md0_events := events; md0_module := modules;
          md0_dispachName := dispachName; md0_dispach := dispach |}.

(** ** Versions 4 to 7: entries *)

Definition getCall : parser Call :=
  name ← get_string;
  args ← compact_int;
  arg ← get_items STRING_SIZE args get_arg;
  docs ← get_docs;
  mret {| call_name := Some name; call_args := arg; call_docs := docs |}.
Definition getCallV4 : parser CallV4 := getCall.
Definition getCallV5 : parser CallV5 := getCall.
Definition getCallV6 : parser CallV6 := getCall.
Definition getCallV7 : parser CallV7 := getCall.

Definition getEvent : parser EventArg :=
  name ← get_string;
  args ← compact_int;
  arg ← get_items COLLECTION_SIZE args get_string;
  docs ← get_docs;
  mret {| ev_name := Some name; ev_args := arg; ev_docs := docs |}.
Definition getEventV4 : parser EventArgV4 := getEvent.
Definition getEventV5 : parser EventArgV5 := getEvent.
Definition getEventV6 : parser EventArgV6 := getEvent.
Definition getEventV7 : parser EventArgV7 := getEvent.

Definition getConsts : parser Const :=
  name ← get_string;
  type ← get_string;
  value ← get_value;
  docs ← get_docs;
  mret {| const_name := name; const_type := type; const_value := value; const_docs := docs |}.
Definition getConstsV6 : parser ConstV6 := getConsts.
Definition getConstsV7 : parser ConstV7 := getConsts.

Definition getStorageV4 : parser StorageV4 :=
  name ← get_string;
  modifier ← nextByte;
  type ← nextByte;
  key1 ← get_string;
  '(key2, hasher) ←
    (if negb (type =? 0) then k ← get_string; h ← nextByte; mret (Some k, Some h) else mret (None, None));
  fallback ← get_fallback;
  docs ← get_docs;
  mret {| st4_name := Some name; st4_modifier := Some modifier;
          st4_type := {| ft4_type := Some type; ft4_hasher := hasher; ft4_key1 := Some key1; ft4_key2 := key2 |};
          st4_fallback := Some fallback; st4_docs := docs |}.

Definition getStorage : parser Storage :=
  name ← get_string;
  modifier ← nextByte;
  hasSecondType ← nextByte;
  type ← (if negb (hasSecondType =? 0) then nextByte else mret 0);
  key1 ← get_string;
  value1 ← (if hasSecondType =? 1 then v ← get_string; mret (Some v) else mret None);
  value ← (if hasSecondType =? 2 then _ ← get_string; v ← get_string; mret (Some v) else mret value1);
  isLinked ← (if negb (hasSecondType =? 0) then b ← nextByte; mret (Some (negb (b =? 0))) else mret None);
  fallback ← get_fallback;
  docs ← get_docs;
  mret {| st_name := Some name; st_modifier := Some modifier;
          st_type := {| ft_type := Some type; ft_hasher := None; ft_key1 := Some key1; ft_key2 := None;
                        ft_value := value; ft_key2hasher := None; ft_isLinked := isLinked |};
          st_fallback := Some fallback; st_docs := docs |}.
Definition getStorageV5 : parser StorageV5 := getStorage.
Definition getStorageV6 : parser StorageV6 := getStorage.
Definition getStorageV7 : parser StorageV7 := getStorage.

(** [new StorageV4], [new StorageV5], [new CallV5], ...: nothing is written. *)
Definition blank_storage4 : StorageV4 :=
  {| st4_name := None; st4_modifier := None;
     st4_type := {| ft4_type := None; ft4_hasher := None; ft4_key1 := None; ft4_key2 := None |};
     st4_fallback := None; st4_docs := [] |}.
Definition blank_storage : Storage :=
  {| st_name := None; st_modifier := None;
     st_type := {| ft_type := None; ft_hasher := None; ft_key1 := None; ft_key2 := None; ft_value := None;
                   ft_key2hasher := None; ft_isLinked := None |};
     st_fallback := None; st_docs := [] |}.
Definition blank_call : Call := {| call_name := None; call_args := []; call_docs := [] |}.
Definition blank_event : EventArg := {| ev_name := None; ev_args := []; ev_docs := [] |}.

(** A collection with its "is set" byte; an empty one gets a blank first entry. *)
Definition get_collection {A} (blank : A) (item : parser A) : parser (list A) :=
  isset ← nextByte;
  if negb (isset =? 0) then
    count ← compact_int;
    if count =? 0 then mret [blank] else get_items COLLECTION_SIZE count item
  else mret [].

(** The same in version 7, where nothing is made for an empty one. *)
Definition get_collection7 {A} (item : parser A) : parser (list A) :=
  isset ← nextByte;
  if negb (isset =? 0) then count ← compact_int; get_items COLLECTION_SIZE count item else mret [].

(** The constants have no "is set" byte, and their count is a [long]. *)
Definition get_consts : parser (list Const) :=
  constsCount ← decodeCompactInteger;
  get_items COLLECTION_SIZE constsCount getConsts.

(** ** Versions 4 to 7: modules *)

Definition skip_magic : parser unit :=
  _ ← nextByte; _ ← nextByte; _ ← nextByte; _ ← nextByte; _ ← nextByte; mret tt.

(** [md->module[moduleIndex] = move(module)] comes before the module is read: an
    index past the array is undefined at once. *)
Definition get_modules {A} (count : Z) (item : parser A) : parser (list A) :=
  get_items_in (mret tt) COLLECTION_SIZE count item.

Definition getModuleV4 : parser ModuleV4 :=
  name ← get_string;
  prefix ← get_string;
  storage ← get_collection blank_storage4 getStorageV4;
  call ← get_collection blank_call getCallV4;
  ev ← get_collection blank_event getEventV4;
  mret {| m4_name := name; m4_prefix := prefix; m4_storage := storage; m4_call := call; m4_ev := ev |}.

Definition fillV4Metadata : parser MDV4 :=
  _ ← skip_magic;
  mLen ← compact_int;
  modules ← get_modules mLen getModuleV4;
  mret {| md4_module := modules |}.

Definition getModuleV5 : parser ModuleV5 :=
  name ← get_string;
  prefix ← get_string;
  storage ← get_collection blank_storage getStorageV5;
  call ← get_collection blank_call getCallV5;
  ev ← get_collection blank_event getEventV5;
  mret {| m5_name := name; m5_prefix := prefix; m5_storage := storage; m5_call := call; m5_ev := ev |}.

Definition fillV5Metadata : parser MDV5 :=
  _ ← skip_magic;
  mLen ← compact_int;
  modules ← get_modules mLen getModuleV5;
  mret {| md5_module := modules |}.

Definition getModuleV6 : parser ModuleV6 :=
  name ← get_string;
  prefix ← get_string;
  storage ← get_collection blank_storage getStorageV6;
  call ← get_collection blank_call getCallV6;
  ev ← get_collection blank_event getEventV6;
  cons ← get_consts;
  mret {| m6_name := name; m6_prefix := prefix; m6_storage := storage; m6_call := call; m6_ev := ev;
          m6_cons := cons |}.

Definition fillV6Metadata : parser MDV6 :=
  _ ← skip_magic;
  mLen ← compact_int;
  modules ← get_modules mLen getModuleV6;
  mret {| md6_module := modules |}.

Definition getModuleV7 : parser ModuleV7 :=
  name ← get_string;
  storageIsset ← nextByte;
  storage ←
    (if negb (storageIsset =? 0) then
       prefix ← get_string;
       storageLen ← compact_int;
       items ← get_items COLLECTION_SIZE storageLen getStorageV7;
       mret (Some {| sc_prefix := prefix; sc_items := items |})
     else mret None);
  call ← get_collection7 getCallV7;
  ev ← get_collection7 getEventV7;
  cons ← get_consts;
  mret {| m7_name := name; m7_storage := storage; m7_call := call; m7_ev := ev; m7_cons := cons |}.

Definition fillV7Metadata : parser MDV7 :=
  _ ← skip_magic;
  mLen ← compact_int;
  modules ← get_modules mLen getModuleV7;
  mret {| md7_module := modules |}.

(** ** MetadataFactory *)

Record MetadataFactory : Type := { buffer : list Z; factory_version : Z }.

Definition newMetadataFactory : MetadataFactory := {| buffer := []; factory_version := -1 |}.
Definition setInputData (f : MetadataFactory) (hexString : list Z) : MetadataFactory :=
  {| buffer := hexString; factory_version := factory_version f |}.

(** [try { result = fill(_buffer); _version = v; } catch (...) {}]: the object and
    the factory afterwards. *)
Definition try_fill {A} (fill : parser A) (v : Z) (f : MetadataFactory) : outcome (option A * MetadataFactory) :=
  match fill (buffer f) with
  | Ret (md, _) => Ret (Some md, {| buffer := buffer f; factory_version := v |})
  | Throw _ => Ret (None, f)
  | UB => UB
  end.

Definition getMetadataV0 := try_fill fillV0Metadata 0.
Definition getMetadataV4 := try_fill fillV4Metadata 4.
Definition getMetadataV5 := try_fill fillV5Metadata 5.
Definition getMetadataV6 := try_fill fillV6Metadata 6.
Definition getMetadataV7 := try_fill fillV7Metadata 7.

Definition getVersion (f : MetadataFactory) : outcome (Z * MetadataFactory) :=
  '(_, f) ← getMetadataV0 f;
  f ← (if factory_version f =? -1 then '(_, f) ← getMetadataV5 f; Ret f else Ret f);
  f ← (if factory_version f =? -1 then '(_, f) ← getMetadataV6 f; Ret f else Ret f);
  f ← (if factory_version f =? -1 then '(_, f) ← getMetadataV7 f; Ret f else Ret f);
  Ret (factory_version f, f).

(** ** What every result of a parser satisfies *)

Definition yields {A} (p : parser A) (P : A -> Prop) : Prop := forall s x r, p s = Ret (x, r) -> P x.

Lemma yields_mono {A} (p : parser A) (P Q : A -> Prop) : yields p P -> (forall x, P x -> Q x) -> yields p Q.
Proof. intros H HPQ s x r E. eauto. Qed.

Lemma yields_bind {A B} (p : parser A) (f : A -> parser B) (P : A -> Prop) (Q : B -> Prop) :
  yields p P -> (forall x, P x -> yields (f x) Q) -> yields (p ≫= f) Q.
Proof.
  intros Hp Hf s y r E. unfold mbind, parser_bind in E. destruct (p s) as [[x s']| |] eqn:Ep; [|done..].
  by eapply (Hf x); eauto.
Qed.

Lemma yields_any {A} (p : parser A) : yields p (fun _ => True).
Proof. done. Qed.

Lemma yields_then {A B} (p : parser A) (f : A -> parser B) (Q : B -> Prop) :
  (forall x, yields (f x) Q) -> yields (p ≫= f) Q.
Proof. intros Hf. apply (yields_bind p f (fun _ => True)); [apply yields_any|auto]. Qed.

Lemma yields_ret {A} (x : A) (P : A -> Prop) : P x -> yields (mret x) P.
Proof. intros H s y r [= <- <-]. done. Qed.

Lemma yields_items_in {A B} (overrun : parser B) room count (item : parser A) (P : A -> Prop) :
  yields item P -> yields (get_items_in overrun room count item) (Forall P).
Proof.
  intros Hi. revert count. induction room as [|room IH]; intros count; cbn [get_items_in].
  - destruct (count <=? 0); [by apply yields_ret|]. intros s x r E. unfold mbind, parser_bind in E.
    by destruct (overrun s) as [[? ?]| |].
  - destruct (count <=? 0); [by apply yields_ret|]. eapply yields_bind; [done|]. intros x Hx.
    eapply yields_bind; [apply IH|]. intros xs Hxs. apply yields_ret. by constructor.
Qed.

Lemma yields_items {A} room count (item : parser A) (P : A -> Prop) :
  yields item P -> yields (get_items room count item) (Forall P).
Proof. apply yields_items_in. Qed.

Lemma yields_collection {A} (blank : A) (item : parser A) (P : A -> Prop) :
  P blank -> yields item P -> yields (get_collection blank item) (Forall P).
Proof.
  intros Hb Hi. apply yields_then. intros isset. destruct (negb (isset =? 0)); [|by apply yields_ret].
  apply yields_then. intros count. destruct (count =? 0); [|by apply yields_items].
  apply yields_ret. by repeat constructor.
Qed.

(** [storage->type.hasher] is never assigned in versions 5 to 7. *)
Definition hasher_unset (st : Storage) : Prop := ft_hasher (st_type st) = None.

Lemma getStorage_hasher : yields getStorage hasher_unset.
Proof. repeat (apply yields_then; intros ?). by apply yields_ret. Qed.

Lemma storages_hasher : yields (get_collection blank_storage getStorage) (Forall hasher_unset).
Proof. apply yields_collection; [done|apply getStorage_hasher]. Qed.

Lemma fillV5_hasher : yields fillV5Metadata (fun md => Forall (fun m => Forall hasher_unset (m5_storage m)) (md5_module md)).
Proof.
  do 2 (apply yields_then; intros ?). eapply yields_bind; [apply (yields_items_in _ _ _ _ (fun m => Forall hasher_unset (m5_storage m)))|].
  - do 2 (apply yields_then; intros ?). eapply yields_bind; [apply storages_hasher|]. intros st Hst.
    do 2 (apply yields_then; intros ?). by apply yields_ret.
  - intros ms Hms. by apply yields_ret.
Qed.

Lemma fillV6_hasher : yields fillV6Metadata (fun md => Forall (fun m => Forall hasher_unset (m6_storage m)) (md6_module md)).
Proof.
  do 2 (apply yields_then; intros ?). eapply yields_bind; [apply (yields_items_in _ _ _ _ (fun m => Forall hasher_unset (m6_storage m)))|].
  - do 2 (apply yields_then; intros ?). eapply yields_bind; [apply storages_hasher|]. intros st Hst.
    do 3 (apply yields_then; intros ?). by apply yields_ret.
  - intros ms Hms. by apply yields_ret.
Qed.

Definition collection_unset (m : ModuleV7) : Prop :=
  match m7_storage m with Some c => Forall hasher_unset (sc_items c) | None => True end.

Lemma fillV7_hasher : yields fillV7Metadata (fun md => Forall collection_unset (md7_module md)).
Proof.
  do 2 (apply yields_then; intros ?). eapply yields_bind; [apply (yields_items_in _ _ _ _ collection_unset)|].
  - do 2 (apply yields_then; intros ?).
    apply (yields_bind _ _ (fun o => match o with Some c => Forall hasher_unset (sc_items c) | None => True end)).
    + destruct (negb _); [|by apply yields_ret]. do 2 (apply yields_then; intros ?).
      eapply yields_bind; [apply yields_items, getStorage_hasher|]. intros st Hst. by apply yields_ret.
    + intros c Hc. do 3 (apply yields_then; intros ?). by apply yields_ret.
  - intros ms Hms. by apply yields_ret.
Qed.

(** ** Parsers and the bytes they accept

    [decodes p bs x]: on the hexadecimal text of [bs], whatever follows it, [p]
    consumes exactly that text and returns [x]. *)

Definition decodes {A} (p : parser A) (bs : list Z) (x : A) : Prop :=
  forall rest, p (hex_bytes bs ++ rest) = Ret (x, rest).

Lemma decodes_ret {A} (x : A) : decodes (mret x) [] x.
Proof. done. Qed.

Lemma decodes_bind {A B} (p : parser A) (f : A -> parser B) b1 b2 x y :
  decodes p b1 x -> decodes (f x) b2 y -> decodes (p ≫= f) (b1 ++ b2) y.
Proof.
  intros H1 H2 rest. unfold mbind, parser_bind. by rewrite hex_bytes_app, <- app_assoc, H1, H2.
Qed.

Lemma decodes_byte b : is_byte b -> decodes nextByte [b] b.
Proof. intros Hb rest. by apply (nextByte_hex_cons b [] rest). Qed.

Lemma decodes_compact n : 0 <= n < 2 ^ 56 -> decodes decodeCompactInteger (compact_spec n) n.
Proof. intros Hn rest. by apply decode_spec. Qed.

(** A last step that consumes nothing. *)
Lemma decodes_map {A B} (p : parser A) (f : A -> parser B) bs x y :
  decodes p bs x -> decodes (f x) [] y -> decodes (p ≫= f) bs y.
Proof. intros H1 H2. rewrite <- (app_nil_r bs). by eapply decodes_bind. Qed.

Lemma decodes_int n : 0 <= n < 2 ^ 31 -> decodes compact_int (compact_spec n) n.
Proof.
  intros Hn. eapply decodes_map; [apply decodes_compact; lia|].
  rewrite swrap_small by lia. apply decodes_ret.
Qed.

(** Text that fits a [char[256]]. *)
Definition text_ok (s : text) : Prop :=
  bytes_ok s /\ Forall (fun c => c <> 0) s /\ (length s < STRING_SIZE)%nat.

Definition enc_text (s : text) : list Z := compact_spec (Z.of_nat (length s)) ++ s.

Lemma decodes_text s : text_ok s -> decodes get_string (enc_text s) s.
Proof.
  intros (Hb & Hz & Hl). unfold STRING_SIZE in Hl. eapply decodes_bind; [apply decodes_int; lia|].
  eapply decodes_map; [intros rest; by apply extractString_hex|].
  intros rest. unfold lift. rewrite strcpy_ok; rewrite cstr_no_nul by done; done.
Qed.

Section items.
Context {A B C : Type} (item : parser A) (overrun : parser B) (enc : C -> list Z) (obj : C -> A).

Lemma decodes_items room l :
  Forall (fun x => decodes item (enc x) (obj x)) l -> (length l <= room)%nat ->
  decodes (get_items_in overrun room (Z.of_nat (length l)) item) (l ≫= enc) (obj <$> l).
Proof.
  intros Hl. revert room. induction Hl as [|x l Hx _ IH]; intros room Hr.
  { destruct room; apply decodes_ret. }
  destruct room as [|room]; [cbn in Hr; lia|]. cbn [get_items_in length].
  rewrite (proj2 (Z.leb_gt _ _)) by lia. rewrite bind_cons. eapply decodes_bind; [exact Hx|].
  replace (Z.of_nat (S (length l)) - 1) with (Z.of_nat (length l)) by lia.
  eapply decodes_map; [apply IH; cbn in Hr; lia|]. apply decodes_ret.
Qed.

Definition enc_list (l : list C) : list Z := compact_spec (Z.of_nat (length l)) ++ (l ≫= enc).

Lemma decodes_list_long room l :
  Forall (fun x => decodes item (enc x) (obj x)) l -> (length l <= room <= 256)%nat ->
  decodes (n ← decodeCompactInteger; get_items_in overrun room n item) (enc_list l) (obj <$> l).
Proof. intros Hl Hr. eapply decodes_bind; [apply decodes_compact; lia|]. apply decodes_items; [done|lia]. Qed.

Lemma decodes_list_int room l :
  Forall (fun x => decodes item (enc x) (obj x)) l -> (length l <= room <= 256)%nat ->
  decodes (n ← compact_int; get_items_in overrun room n item) (enc_list l) (obj <$> l).
Proof. intros Hl Hr. eapply decodes_bind; [apply decodes_int; lia|]. apply decodes_items; [done|lia]. Qed.
End items.

(** Binding after a list. *)
Lemma decodes_bind_assoc {A B C} (p : parser A) (f : A -> parser B) (g : B -> parser C) bs x :
  decodes (y ← (x ← p; f x); g y) bs x -> decodes (x ← p; y ← f x; g y) bs x.
Proof.
  intros H rest. rewrite <- (H rest). unfold mbind, parser_bind. by destruct (p _) as [[? ?]| |].
Qed.

Definition small_list {A} (l : list A) : Prop := (length l <= COLLECTION_SIZE)%nat.

Lemma decodes_docs docs :
  Forall text_ok docs -> small_list docs -> decodes get_docs (enc_list enc_text docs) docs.
Proof.
  intros Hd Hl. rewrite <- (list_fmap_id docs) at 2. unfold get_docs, get_items.
  apply decodes_list_long; [|unfold small_list, COLLECTION_SIZE in *; lia].
  eapply Forall_impl; [exact Hd|]. apply decodes_text.
Qed.

(** Raw bytes, kept as text. *)
Definition enc_raw (bs : list Z) : list Z := compact_spec (Z.of_nat (length bs)) ++ bs.

Lemma hex_bytes_nonzero bs : bytes_ok bs -> Forall (fun c => c <> 0) (hex_bytes bs).
Proof.
  induction 1 as [|b bs Hb _ IH]; [constructor|]. rewrite hex_bytes_cons. unfold is_byte in Hb.
  pose proof (Z.mod_pos_bound b 16 ltac:(lia)). assert (0 <= b / 16) by (apply Z.div_pos; lia).
  repeat constructor; [| |done]; unfold hex_digit; destruct (_ <? _); lia.
Qed.

Lemma decodes_raw bs :
  bytes_ok bs -> (length bs < 128)%nat ->
  decodes (n ← get_raw (Z.of_nat (length bs) * 2); lift (strcpy STRING_SIZE n)) bs (hex_bytes bs).
Proof.
  intros Hb Hl rest. unfold mbind, parser_bind, get_raw.
  rewrite length_app, length_hex_bytes.
  assert ((Z.of_nat (length bs) * 2 <? 0) || (Z.of_nat (2 * length bs + length rest) <? Z.of_nat (length bs) * 2) = false)
    as -> by (apply orb_false_intro; apply Z.ltb_ge; lia).
  replace (Z.to_nat (Z.of_nat (length bs) * 2)) with (length (hex_bytes bs)) by (rewrite length_hex_bytes; lia).
  rewrite take_app_length, drop_app_length. unfold lift.
  rewrite strcpy_ok; rewrite cstr_no_nul by (by apply hex_bytes_nonzero); [done|].
  rewrite length_hex_bytes. unfold STRING_SIZE. lia.
Qed.

Lemma decodes_fallback bs :
  bytes_ok bs -> (length bs < 128)%nat -> decodes get_fallback (enc_raw bs) (hex_bytes bs).
Proof.
  intros Hb Hl. eapply decodes_bind; [apply decodes_compact; lia|]. intros rest.
  unfold mbind at 1, parser_bind at 1, lift at 1. rewrite chk64_ok by lia. by apply decodes_raw.
Qed.

Lemma decodes_value bs :
  bytes_ok bs -> (length bs < 128)%nat -> decodes get_value (enc_raw bs) (hex_bytes bs).
Proof.
  intros Hb Hl. eapply decodes_bind; [apply decodes_int; lia|]. intros rest.
  unfold mbind at 1, parser_bind at 1, lift at 1.
  assert (in_signed 32 (Z.of_nat (length bs) * 2) = true) as -> by (apply in_signed_spec; cbn; lia).
  cbn [assume]. by apply decodes_raw.
Qed.

(** ** What the encoders of the node produce

    A description of each kind of entry, its bytes, and the object that the
    parser should build from them. *)

Definition arg_ok (a : FunctionCallArg) : Prop := text_ok (arg_name a) /\ text_ok (arg_type a).
Definition enc_arg (a : FunctionCallArg) : list Z := enc_text (arg_name a) ++ enc_text (arg_type a).

Definition enc_call (c : Call) : list Z :=
  enc_text (default [] (call_name c)) ++ enc_list enc_arg (call_args c) ++ enc_list enc_text (call_docs c).
Definition call_ok (c : Call) : Prop :=
  (exists n, call_name c = Some n /\ text_ok n) /\ Forall arg_ok (call_args c) /\ (length (call_args c) <= 256)%nat
  /\ Forall text_ok (call_docs c) /\ small_list (call_docs c).

Definition enc_event (e : EventArg) : list Z :=
  enc_text (default [] (ev_name e)) ++ enc_list enc_text (ev_args e) ++ enc_list enc_text (ev_docs e).
Definition event_ok (e : EventArg) : Prop :=
  (exists n, ev_name e = Some n /\ text_ok n) /\ Forall text_ok (ev_args e) /\ small_list (ev_args e)
  /\ Forall text_ok (ev_docs e) /\ small_list (ev_docs e).

Record const_desc : Type := { cd_name : text; cd_type : text; cd_value : list Z; cd_docs : list text }.
Definition enc_const (c : const_desc) : list Z :=
  enc_text (cd_name c) ++ enc_text (cd_type c) ++ enc_raw (cd_value c) ++ enc_list enc_text (cd_docs c).
Definition const_obj (c : const_desc) : Const :=
  {| const_name := cd_name c; const_type := cd_type c; const_value := hex_bytes (cd_value c); const_docs := cd_docs c |}.
Definition const_ok (c : const_desc) : Prop :=
  text_ok (cd_name c) /\ text_ok (cd_type c) /\ bytes_ok (cd_value c) /\ (length (cd_value c) < 128)%nat
  /\ Forall text_ok (cd_docs c) /\ small_list (cd_docs c).

Inductive storage_kind : Type :=
| Plain
| Map (hasher : Z) (value : text) (linked : bool)
| DoubleMap (hasher : Z) (key2 value : text) (linked : bool).

Record storage_desc : Type := {
  sd_name : text; sd_modifier : Z; sd_key1 : text; sd_kind : storage_kind; sd_fallback : list Z; sd_docs : list text }.

Definition enc_bool (b : bool) : list Z := [if b then 1 else 0].

Definition enc_storage (d : storage_desc) : list Z :=
  enc_text (sd_name d) ++ [sd_modifier d]
  ++ match sd_kind d with
     | Plain => [0] ++ enc_text (sd_key1 d)
     | Map h v b => [1] ++ [h] ++ enc_text (sd_key1 d) ++ enc_text v ++ enc_bool b
     | DoubleMap h k v b => [2] ++ [h] ++ enc_text (sd_key1 d) ++ (enc_text k ++ enc_text v) ++ enc_bool b
     end
  ++ enc_raw (sd_fallback d) ++ enc_list enc_text (sd_docs d).

Definition storage_obj (d : storage_desc) : Storage :=
  {| st_name := Some (sd_name d); st_modifier := Some (sd_modifier d);
     st_type :=
       {| ft_type := Some match sd_kind d with Plain => 0 | Map h _ _ | DoubleMap h _ _ _ => h end;
          ft_hasher := None; ft_key1 := Some (sd_key1 d); ft_key2 := None;
          ft_value := match sd_kind d with Plain => None | Map _ v _ | DoubleMap _ _ v _ => Some v end;
          ft_key2hasher := None;
          ft_isLinked := match sd_kind d with Plain => None | Map _ _ b | DoubleMap _ _ _ b => Some b end |};
     st_fallback := Some (hex_bytes (sd_fallback d)); st_docs := sd_docs d |}.

Definition kind_ok (k : storage_kind) : Prop :=
  match k with
  | Plain => True
  | Map h v _ => is_byte h /\ text_ok v
  | DoubleMap h k v _ => is_byte h /\ text_ok k /\ text_ok v
  end.

Definition storage_ok (d : storage_desc) : Prop :=
  text_ok (sd_name d) /\ is_byte (sd_modifier d) /\ text_ok (sd_key1 d) /\ kind_ok (sd_kind d)
  /\ bytes_ok (sd_fallback d) /\ (length (sd_fallback d) < 128)%nat /\ Forall text_ok (sd_docs d) /\ small_list (sd_docs d).

Lemma decodes_arg a : arg_ok a -> decodes get_arg (enc_arg a) a.
Proof.
  intros [H1 H2]. eapply decodes_bind; [by apply decodes_text|]. eapply decodes_map; [by apply decodes_text|].
  destruct a. apply decodes_ret.
Qed.

(** A list in the middle of a parser. *)
Lemma decodes_list_then {A B C D} (item : parser A) (overrun : parser D) (enc : C -> list Z) (obj : C -> A) room l
    (k : list A -> parser B) bs y :
  Forall (fun x => decodes item (enc x) (obj x)) l -> (length l <= room <= 256)%nat ->
  decodes (k (obj <$> l)) bs y ->
  decodes (n ← compact_int; xs ← get_items_in overrun room n item; k xs) (enc_list enc l ++ bs) y.
Proof.
  intros Hl Hr Hk. unfold enc_list. rewrite <- app_assoc. eapply decodes_bind; [apply decodes_int; lia|].
  eapply decodes_bind; [apply decodes_items; [done|lia]|done].
Qed.

Lemma decodes_call c : call_ok c -> decodes getCall (enc_call c) c.
Proof.
  intros ((n & En & Hn) & Ha & La & Hd & Ld). unfold enc_call. rewrite En. cbn [default].
  eapply decodes_bind; [by apply decodes_text|]. unfold get_items.
  eapply (decodes_list_then _ _ _ id); [|unfold STRING_SIZE; lia|].
  { eapply Forall_impl; [exact Ha|]. apply decodes_arg. }
  eapply decodes_map; [by apply decodes_docs|]. destruct c. cbn in *. rewrite En, list_fmap_id. apply decodes_ret.
Qed.

Lemma decodes_event e : event_ok e -> decodes getEvent (enc_event e) e.
Proof.
  intros ((n & En & Hn) & Ha & La & Hd & Ld). unfold enc_event. rewrite En. cbn [default].
  eapply decodes_bind; [by apply decodes_text|]. unfold get_items.
  eapply (decodes_list_then _ _ _ id); [|unfold small_list, COLLECTION_SIZE in *; lia|].
  { eapply Forall_impl; [exact Ha|]. apply decodes_text. }
  eapply decodes_map; [by apply decodes_docs|]. destruct e. cbn in *. rewrite En, list_fmap_id. apply decodes_ret.
Qed.

Lemma decodes_const c : const_ok c -> decodes getConsts (enc_const c) (const_obj c).
Proof.
  intros (H1 & H2 & H3 & H4 & H5 & H6).
  eapply decodes_bind; [by apply decodes_text|]. eapply decodes_bind; [by apply decodes_text|].
  eapply decodes_bind; [by apply decodes_value|]. eapply decodes_map; [by apply decodes_docs|]. apply decodes_ret.
Qed.

Lemma decodes_bool b : decodes nextByte (enc_bool b) (if b then 1 else 0).
Proof. destruct b; apply decodes_byte; unfold is_byte; lia. Qed.

(** A branch that reads nothing. *)
Lemma decodes_skip {A B} (x : A) (f : A -> parser B) bs y : decodes (f x) bs y -> decodes (mret x ≫= f) bs y.
Proof. intros H. apply H. Qed.

Lemma decodes_storage d : storage_ok d -> decodes getStorage (enc_storage d) (storage_obj d).
Proof.
  intros (H1 & H2 & H3 & H4 & H5 & H6 & H7 & H8). unfold enc_storage, storage_obj.
  eapply decodes_bind; [by apply decodes_text|]. eapply decodes_bind; [by apply decodes_byte|].
  assert (forall f bs y, decodes (f (hex_bytes (sd_fallback d)) (sd_docs d)) [] y -> bs = enc_raw (sd_fallback d) ++ enc_list enc_text (sd_docs d) ->
    decodes (a ← get_fallback; b ← get_docs; f a b : parser Storage) bs y) as Hend.
  { intros f bs y Hf ->. eapply decodes_bind; [by apply decodes_fallback|]. eapply decodes_map; [by apply decodes_docs|done]. }
  destruct (sd_kind d) as [|h v b|h k v b]; cbn [kind_ok] in H4; rewrite <- !app_assoc.
  - eapply decodes_bind; [apply decodes_byte; unfold is_byte; lia|]. cbn [negb Z.eqb Pos.eqb]. apply decodes_skip.
    eapply decodes_bind; [by apply decodes_text|]. do 3 apply decodes_skip. apply Hend; [apply decodes_ret|done].
  - destruct H4 as [Hh Hv]. eapply decodes_bind; [apply decodes_byte; unfold is_byte; lia|]. cbn [negb Z.eqb Pos.eqb].
    eapply decodes_bind; [by apply decodes_byte|]. eapply decodes_bind; [by apply decodes_text|].
    eapply decodes_bind; [eapply decodes_map; [by apply decodes_text|apply decodes_ret]|]. apply decodes_skip.
    eapply decodes_bind; [eapply decodes_map; [apply decodes_bool|apply decodes_ret]|].
    apply Hend; [|done]. destruct b; apply decodes_ret.
  - destruct H4 as (Hh & Hk & Hv). eapply decodes_bind; [apply decodes_byte; unfold is_byte; lia|]. cbn [negb Z.eqb Pos.eqb].
    eapply decodes_bind; [by apply decodes_byte|]. eapply decodes_bind; [by apply decodes_text|]. apply decodes_skip.
    rewrite (app_assoc (enc_text k)).
    eapply decodes_bind; [eapply decodes_bind; [by apply decodes_text|]; eapply decodes_map; [by apply decodes_text|apply decodes_ret]|].
    eapply decodes_bind; [eapply decodes_map; [apply decodes_bool|apply decodes_ret]|].
    apply Hend; [|done]. destruct b; apply decodes_ret.
Qed.

(** *** Version 7 *)

Record module7_desc : Type := {
  d7_name : text; d7_storage : option (text * list storage_desc); d7_calls : option (list Call);
  d7_events : option (list EventArg); d7_consts : list const_desc }.

Definition enc_option {A} (enc : A -> list Z) (o : option A) : list Z :=
  match o with None => [0] | Some x => [1] ++ enc x end.

Definition enc_module7 (d : module7_desc) : list Z :=
  enc_text (d7_name d)
  ++ enc_option (fun s => enc_text s.1 ++ enc_list enc_storage s.2) (d7_storage d)
  ++ enc_option (enc_list enc_call) (d7_calls d)
  ++ enc_option (enc_list enc_event) (d7_events d)
  ++ enc_list enc_const (d7_consts d).

Definition module7_obj (d : module7_desc) : ModuleV7 :=
  {| m7_name := d7_name d;
     m7_storage := (fun s => {| sc_prefix := s.1; sc_items := storage_obj <$> s.2 |}) <$> d7_storage d;
     m7_call := default [] (d7_calls d); m7_ev := default [] (d7_events d);
     m7_cons := const_obj <$> d7_consts d |}.

Definition option_all {A} (P : A -> Prop) (o : option A) : Prop := match o with None => True | Some x => P x end.

Definition module7_ok (d : module7_desc) : Prop :=
  text_ok (d7_name d)
  /\ option_all (fun s => text_ok s.1 /\ Forall storage_ok s.2 /\ small_list s.2) (d7_storage d)
  /\ option_all (fun l => Forall call_ok l /\ small_list l) (d7_calls d)
  /\ option_all (fun l => Forall event_ok l /\ small_list l) (d7_events d)
  /\ Forall const_ok (d7_consts d) /\ small_list (d7_consts d).

(** A version 7 blob: five bytes of magic and version, and the modules. *)
Definition enc_metadata7 (magic : list Z) (ds : list module7_desc) : list Z := magic ++ enc_list enc_module7 ds.

Lemma decodes_collection7 {A} (item : parser A) enc (ok : A -> Prop) o :
  (forall x, ok x -> decodes item (enc x) x) -> option_all (fun l => Forall ok l /\ small_list l) o ->
  decodes (get_collection7 item) (enc_option (enc_list enc) o) (default [] o).
Proof.
  intros Hi Ho. unfold get_collection7, get_items. destruct o as [l|]; cbn [enc_option option_all default] in *.
  - destruct Ho as [Hl Hs]. eapply decodes_bind; [apply decodes_byte; unfold is_byte; lia|]. cbn [negb Z.eqb Pos.eqb].
    unfold small_list, COLLECTION_SIZE in *. pose proof (decodes_list_int item item enc id 64 l) as H.
    rewrite list_fmap_id in H. apply H; [|lia]. eapply Forall_impl; [exact Hl|done].
  - eapply decodes_map; [apply decodes_byte; unfold is_byte; lia|]. apply decodes_ret.
Qed.

Lemma decodes_consts l : Forall const_ok l -> small_list l -> decodes get_consts (enc_list enc_const l) (const_obj <$> l).
Proof.
  intros Hl Hs. apply decodes_list_long; [|unfold small_list, COLLECTION_SIZE in *; lia].
  eapply Forall_impl; [exact Hl|]. apply decodes_const.
Qed.

Lemma decodes_module7 d : module7_ok d -> decodes getModuleV7 (enc_module7 d) (module7_obj d).
Proof.
  intros (H1 & H2 & H3 & H4 & H5 & H6). unfold enc_module7, module7_obj, getModuleV7.
  eapply decodes_bind; [by apply decodes_text|].
  assert (forall (st : option StorageCollectionV7),
    decodes (call ← get_collection7 getCallV7; ev ← get_collection7 getEventV7; cons ← get_consts;
      mret {| m7_name := d7_name d; m7_storage := st; m7_call := call; m7_ev := ev; m7_cons := cons |})
     (enc_option (enc_list enc_call) (d7_calls d) ++ enc_option (enc_list enc_event) (d7_events d)
      ++ enc_list enc_const (d7_consts d))
     {| m7_name := d7_name d; m7_storage := st; m7_call := default [] (d7_calls d);
        m7_ev := default [] (d7_events d); m7_cons := const_obj <$> d7_consts d |}) as Hend.
  { intros st. eapply decodes_bind; [by apply (decodes_collection7 _ _ call_ok _ decodes_call)|].
    eapply decodes_bind; [by apply (decodes_collection7 _ _ event_ok _ decodes_event)|].
    eapply decodes_map; [by apply decodes_consts|]. apply decodes_ret. }
  destruct (d7_storage d) as [[p items]|]; cbn [enc_option option_all fmap option_fmap option_map fst snd] in *.
  - destruct H2 as (Hp & Hi & Hs). rewrite <- !app_assoc.
    eapply decodes_bind; [apply decodes_byte; unfold is_byte; lia|]. cbn [negb Z.eqb Pos.eqb].
    rewrite !(app_assoc _ (enc_list enc_storage items)).
    eapply decodes_bind; [|apply Hend].
    eapply decodes_bind; [by apply decodes_text|]. rewrite <- (app_nil_r (enc_list _ _)).
    eapply (decodes_list_then _ _ enc_storage storage_obj); [|unfold small_list, COLLECTION_SIZE in *; lia|apply decodes_ret].
    eapply Forall_impl; [exact Hi|]. apply decodes_storage.
  - eapply decodes_bind; [apply decodes_byte; unfold is_byte; lia|]. cbn [negb Z.eqb Pos.eqb].
    apply decodes_skip, Hend.
Qed.

Lemma decodes_magic magic : bytes_ok magic -> length magic = 5%nat -> decodes skip_magic magic tt.
Proof.
  intros Hm Hl. destruct magic as [|a [|b [|c [|d [|e [|f magic]]]]]]; try done.
  repeat (apply Forall_cons in Hm as [? Hm]). clear Hm Hl.
  change [a; b; c; d; e] with ([a] ++ [b] ++ [c] ++ [d] ++ [e]).
  do 4 (eapply decodes_bind; [by apply decodes_byte|]). eapply decodes_map; [by apply decodes_byte|apply decodes_ret].
Qed.

Lemma decodes_metadata7 magic ds :
  bytes_ok magic -> length magic = 5%nat -> Forall module7_ok ds -> small_list ds ->
  decodes fillV7Metadata (enc_metadata7 magic ds) {| md7_module := module7_obj <$> ds |}.
Proof.
  intros Hm Hl Hd Hs. eapply decodes_bind; [by apply decodes_magic|]. unfold get_modules.
  rewrite <- (app_nil_r (enc_list _ _)).
  eapply (decodes_list_then _ _ enc_module7 module7_obj); [|unfold small_list, COLLECTION_SIZE in *; lia|apply decodes_ret].
  eapply Forall_impl; [exact Hd|]. apply decodes_module7.
Qed.

(** ** Properties *)

(** C8: the version 7 parser inverts the metadata encoding. For every list of at
    most 64 modules, with any storage entries (plain, map and double map), calls,
    events and constants whose texts fit their arrays, the blob's hexadecimal text
    is parsed into exactly those modules; the five leading bytes are skipped
    whatever they are. *)
Theorem metadata7_roundtrip magic ds :
  bytes_ok magic -> length magic = 5%nat -> Forall module7_ok ds -> small_list ds ->
  getMetadataV7 {| buffer := hex_bytes (enc_metadata7 magic ds); factory_version := -1 |}
  = Ret (Some {| md7_module := module7_obj <$> ds |},
         {| buffer := hex_bytes (enc_metadata7 magic ds); factory_version := 7 |}).
Proof.
  intros Hm Hl Hd Hs. unfold getMetadataV7, try_fill. cbn [buffer].
  pose proof (decodes_metadata7 magic ds Hm Hl Hd Hs []) as H. rewrite app_nil_r in H. by rewrite H.
Qed.

Definition sample_module7 : module7_desc :=
  {| d7_name := str "Balances";
     d7_storage := Some (str "Balances", [
       {| sd_name := str "TotalIssuance"; sd_modifier := 1; sd_key1 := str "T::Balance"; sd_kind := Plain;
          sd_fallback := [0; 0]; sd_docs := [str " The total."] |};
       {| sd_name := str "FreeBalance"; sd_modifier := 1; sd_key1 := str "T::AccountId";
          sd_kind := Map 0 (str "T::Balance") false; sd_fallback := [0]; sd_docs := [] |}]);
     d7_calls := Some [{| call_name := Some (str "transfer");
       call_args := [{| arg_name := str "dest"; arg_type := str "Address" |}]; call_docs := [] |}];
     d7_events := None;
     d7_consts := [{| cd_name := str "MaxFee"; cd_type := str "u32"; cd_value := [1; 0; 0; 0]; cd_docs := [] |}] |}.

Ltac text_ok_tac :=
  split; [forall_list ltac:(unfold is_byte; lia)|split; [forall_list ltac:(discriminate)|cbn; unfold STRING_SIZE; lia]].

Lemma sample_module7_ok : module7_ok sample_module7.
Proof.
  unfold module7_ok, sample_module7, storage_ok, call_ok, const_ok, arg_ok, kind_ok, small_list, COLLECTION_SIZE;
    repeat first [ progress cbn [option_all fst snd sd_name sd_modifier sd_key1 sd_kind sd_fallback sd_docs d7_name
                     d7_storage d7_calls d7_events d7_consts call_name call_args call_docs arg_name arg_type
                     cd_name cd_type cd_value cd_docs length]
                 | lia | exact I | match goal with |- text_ok _ => text_ok_tac end
                 | match goal with |- exists _, _ => eexists; split; [reflexivity|] end
                 | constructor | unfold is_byte ].
Qed.

Lemma metadata7_roundtrip_witness :
  getMetadataV7 {| buffer := hex_bytes (enc_metadata7 [109; 101; 116; 97; 7] [sample_module7]); factory_version := -1 |}
  = Ret (Some {| md7_module := module7_obj <$> [sample_module7] |},
         {| buffer := hex_bytes (enc_metadata7 [109; 101; 116; 97; 7] [sample_module7]); factory_version := 7 |}).
Proof.
  apply (metadata7_roundtrip [109; 101; 116; 97; 7] [sample_module7]);
    [forall_list ltac:(unfold is_byte; lia)|reflexivity|by apply Forall_singleton, sample_module7_ok|unfold small_list, COLLECTION_SIZE; cbn; lia].
Defined.

(** *** Limits *)

Lemma get_string_long s rest :
  bytes_ok s -> (256 <= length (cstr s))%nat -> Z.of_nat (length s) < 2 ^ 31 ->
  get_string (hex_bytes (enc_text s) ++ rest) = UB.
Proof.
  intros Hb Hc Hl. unfold get_string, enc_text. rewrite hex_bytes_app, <- app_assoc.
  unfold mbind, parser_bind at 1. rewrite (decodes_int (Z.of_nat (length s))) by lia.
  unfold parser_bind at 1. rewrite extractString_hex by done. unfold lift. by rewrite strcpy_ub.
Qed.

(** After a parser that succeeds, the outcome is that of what follows. *)
Lemma decodes_then {A B} (p : parser A) (f : A -> parser B) bs x rest :
  decodes p bs x -> (p ≫= f) (hex_bytes bs ++ rest) = f x rest.
Proof. intros H. unfold mbind, parser_bind. by rewrite H. Qed.

Lemma items_overrun {A B C} (item : parser A) (overrun : parser B) (enc : C -> list Z) (obj : C -> A) room l rest :
  Forall (fun x => decodes item (enc x) (obj x)) l -> (room < length l)%nat ->
  (forall n l', l' = drop room l -> (0 < n) -> get_items_in overrun 0 n item (hex_bytes (l' ≫= enc) ++ rest) = UB) ->
  get_items_in overrun room (Z.of_nat (length l)) item (hex_bytes (l ≫= enc) ++ rest) = UB.
Proof.
  intros Hl. revert room. induction Hl as [|x l Hx _ IH]; intros room Hr Hover; [cbn in Hr; lia|].
  destruct room as [|room]; [apply Hover; [done|cbn [length]; lia]|].
  cbn [get_items_in length]. rewrite (proj2 (Z.leb_gt _ _)) by lia.
  rewrite bind_cons, hex_bytes_app, <- app_assoc, (decodes_then item _ _ (obj x)) by done.
  replace (Z.of_nat (S (length l)) - 1) with (Z.of_nat (length l)) by lia.
  unfold mbind, parser_bind. rewrite IH; [done|cbn in Hr; lia|done].
Qed.

(** A text of 256 bytes or more overflows its array: when the first module's
    name is that long, [getMetadataV7] copies it past [name[256]]. The same copy
    serves every name, type and documentation line. *)
Theorem metadata7_long_name magic count s rest :
  bytes_ok magic -> length magic = 5%nat -> 0 < count < 2 ^ 31 ->
  bytes_ok s -> Forall (fun c => c <> 0) s -> 256 <= Z.of_nat (length s) < 2 ^ 31 ->
  getMetadataV7 {| buffer := hex_bytes (magic ++ compact_spec count ++ enc_text s) ++ rest; factory_version := -1 |} = UB.
Proof.
  intros Hm Hl Hc Hb Hz Hs. unfold getMetadataV7, try_fill, fillV7Metadata. cbn [buffer].
  rewrite hex_bytes_app, <- app_assoc, (decodes_then skip_magic _ _ tt) by (by apply decodes_magic).
  rewrite hex_bytes_app, <- app_assoc, (decodes_then compact_int _ _ count) by (apply decodes_int; lia).
  unfold mbind at 1, parser_bind at 1, get_modules, COLLECTION_SIZE. cbn [get_items_in].
  rewrite (proj2 (Z.leb_gt _ _)) by lia. unfold mbind at 1, parser_bind at 1, getModuleV7.
  unfold mbind at 1, parser_bind at 1.
  rewrite get_string_long; [done|done|rewrite cstr_no_nul by done; lia|lia].
Qed.

Definition long_name : text := replicate 256 65.

Lemma metadata7_long_name_witness :
  getMetadataV7 {| buffer := hex_bytes ([109; 101; 116; 97; 7] ++ compact_spec 1 ++ enc_text long_name) ++ str "00"; factory_version := -1 |} = UB.
Proof.
  apply (metadata7_long_name [109; 101; 116; 97; 7] 1 long_name (str "00"));
    [forall_list ltac:(unfold is_byte; lia)|reflexivity|lia|apply Forall_replicate; unfold is_byte; lia
    |apply Forall_replicate; discriminate|unfold long_name; rewrite length_replicate; lia].
Defined.

(** The module array is not bounded: a well-formed blob of 65 modules or more
    makes [getMetadataV7] write past [module[64]]. *)
Theorem metadata7_too_many_modules magic ds :
  bytes_ok magic -> length magic = 5%nat -> Forall module7_ok ds -> 64 < Z.of_nat (length ds) < 2 ^ 31 ->
  getMetadataV7 {| buffer := hex_bytes (enc_metadata7 magic ds); factory_version := -1 |} = UB.
Proof.
  intros Hm Hl Hd Hn. unfold getMetadataV7, try_fill, fillV7Metadata. cbn [buffer].
  unfold enc_metadata7, enc_list. rewrite hex_bytes_app, (decodes_then skip_magic _ _ tt) by (by apply decodes_magic).
  rewrite hex_bytes_app, (decodes_then compact_int _ _ (Z.of_nat (length ds))) by (apply decodes_int; lia).
  unfold mbind at 1, parser_bind at 1, get_modules, COLLECTION_SIZE.
  rewrite <- (app_nil_r (hex_bytes _)), (items_overrun _ _ enc_module7 module7_obj); [done| |lia|].
  - eapply Forall_impl; [exact Hd|]. apply decodes_module7.
  - intros n l' _ Hpos. cbn [get_items_in]. by rewrite (proj2 (Z.leb_gt _ _)) by lia.
Qed.

Definition many_modules : list module7_desc := replicate 65 sample_module7.

Lemma metadata7_too_many_modules_witness :
  getMetadataV7 {| buffer := hex_bytes (enc_metadata7 [109; 101; 116; 97; 7] many_modules); factory_version := -1 |} = UB.
Proof.
  apply (metadata7_too_many_modules [109; 101; 116; 97; 7] many_modules);
    [forall_list ltac:(unfold is_byte; lia)|reflexivity|apply Forall_replicate, sample_module7_ok
    |unfold many_modules; rewrite length_replicate; lia].
Defined.

Lemma cstr_app_le a b : Forall (fun c => c <> 0) a -> (length a <= length (cstr (a ++ b)))%nat.
Proof.
  intros Ha. induction Ha as [|c a Hc _ IH]; cbn; [lia|]. rewrite (proj2 (Z.eqb_neq c 0)) by done. cbn. lia.
Qed.

(** The version is probed, not read. The bytes "meta" that start a blob of
    version 4 and later are taken by the version 0 parser for a text of 6491
    bytes: if the blob is long enough and has no NUL in its next 254 bytes, the
    probe overflows [name[256]] before any other version is tried. *)
Theorem probe_V0_overflows bs version :
  bytes_ok bs -> 6489 <= Z.of_nat (length bs) -> Forall (fun c => c <> 0) (take 254 bs) ->
  getVersion {| buffer := hex_bytes ([109; 101; 116; 97] ++ bs); factory_version := version |} = UB.
Proof.
  intros Hb Hl Hz. set (s := [116; 97] ++ take (Z.to_nat 6489) bs). set (r := drop (Z.to_nat 6489) bs).
  assert (Z.of_nat (length s) = 6491) as Hs by (unfold s; rewrite length_app, length_take; cbn [length]; lia).
  assert ([109; 101; 116; 97] ++ bs = enc_text s ++ r) as ->.
  { unfold enc_text. rewrite Hs. change (compact_spec 6491) with [109; 101]. unfold s, r. cbn -[Z.to_nat]. by rewrite take_drop. }
  unfold getVersion, getMetadataV0, try_fill. cbn [buffer].
  assert (fillV0Metadata (hex_bytes (enc_text s ++ r)) = UB) as ->; [|done].
  unfold fillV0Metadata, mbind at 1, parser_bind at 1. rewrite hex_bytes_app.
  rewrite get_string_long; [done| | |lia].
  - apply Forall_app. split; [forall_list ltac:(unfold is_byte; lia)|by apply Forall_take].
  - assert (s = ([116; 97] ++ take 254 bs) ++ drop 254 (take (Z.to_nat 6489) bs)) as ->.
    { unfold s. rewrite <- app_assoc. f_equal.
      replace (take 254 bs) with (take 254 (take (Z.to_nat 6489) bs)) by (rewrite take_take; f_equal; lia).
      by rewrite take_drop. }
    etransitivity; [|apply cstr_app_le, Forall_app; split; [forall_list ltac:(discriminate)|done]].
    rewrite length_app, length_take. cbn [length]. lia.
Qed.

Definition long_blob : list Z := replicate (Z.to_nat 6489) 65.

Lemma probe_V0_overflows_witness :
  getVersion {| buffer := hex_bytes ([109; 101; 116; 97] ++ long_blob); factory_version := -1 |} = UB.
Proof.
  apply (probe_V0_overflows long_blob (-1)); [apply Forall_replicate; unfold is_byte; lia|unfold long_blob; rewrite length_replicate; lia|].
  unfold long_blob. rewrite take_replicate. apply Forall_replicate. discriminate.
Defined.

(** [getVersion] does not try version 4. *)
Lemma getVersion_not_4 f v f' :
  factory_version f = -1 -> getVersion f = Ret (v, f') -> v <> 4.
Proof.
  assert (forall A (fill : parser A) k f md f', try_fill fill k f = Ret (md, f') ->
    factory_version f' = k \/ factory_version f' = factory_version f) as Ht.
  { intros A fill k g md g' E. unfold try_fill in E. destruct (fill _) as [[m r]| |]; [|injection E as _ <-; by right|done].
    injection E as _ <-. by left. }
  intros Hf E. unfold getVersion in E.
  apply bind_Ret_inv in E as ([m0 f0] & E0 & E). apply Ht in E0.
  apply bind_Ret_inv in E as (f1 & E1 & E). apply bind_Ret_inv in E as (f2 & E2 & E).
  apply bind_Ret_inv in E as (f3 & E3 & E). injection E as <- _.
  assert (forall A (fill : parser A) k f g, (if factory_version f =? -1 then '(_, f) ← try_fill fill k f; Ret f else Ret f) = Ret g ->
    factory_version g = k \/ factory_version g = factory_version f) as Hs.
  { intros A fill k g g' Eg. destruct (factory_version g =? -1); [|injection Eg as <-; by right].
    apply bind_Ret_inv in Eg as ([? ?] & Eg & [= <-]). by apply Ht in Eg. }
  apply Hs in E1. apply Hs in E2. apply Hs in E3. lia.
Qed.
