(* ===== verification/Lookup.v ===== *)
(** Lookups in the metadata: the private helpers of [CPolkaApi] in
    [src/application.cpp], and [src/structs/metadata.h].

    Indexing an array of 64 outside its bounds, following a null pointer and
    reading a field that was never written are undefined behaviour. *)
From S2P Require Import Prelude Scale Converters Json Storage Metadata.

Record Metadata : Type := {
  metadataV0 : option MDV0;
  metadataV4 : option MDV4;
  metadataV5 : option MDV5;
  metadataV6 : option MDV6;
  metadataV7 : option MDV7;
}.

(** ** createMetadata: the five parsers in turn, on the text without its "0x" *)

Definition createMetadata `{Doubles} (jsonObject : Json) : outcome Metadata :=
  hex ← substr_from (string_value jsonObject) 2;
  let mdf := setInputData newMetadataFactory hex in
  '(v0, mdf) ← getMetadataV0 mdf;
  '(v4, mdf) ← getMetadataV4 mdf;
  '(v5, mdf) ← getMetadataV5 mdf;
  '(v6, mdf) ← getMetadataV6 mdf;
  '(v7, mdf) ← getMetadataV7 mdf;
  Ret {| metadataV0 := v0; metadataV4 := v4; metadataV5 := v5; metadataV6 := v6; metadataV7 := v7 |}.

(** ** Access *)

(** [array[i]] for an array of 64 pointers: a pointer that may be null. *)
Definition ptr_at {A} (l : list A) (i : Z) : outcome (option A) :=
  if (0 <=? i) && (i <? 64) then Ret (l !! Z.to_nat i) else UB.

(** [array[i]->...] *)
Definition deref_at {A} (l : list A) (i : Z) : outcome A :=
  p ← ptr_at l i; match p with Some x => Ret x | None => UB end.

(** [*p], or a field that was written. *)
Definition written {A} (o : option A) : outcome A := match o with Some x => Ret x | None => UB end.

(** [if (meta->metadataV0 && meta->metadataV0->module[i]) ... else if (meta->metadataV4 && ...) ...] *)
Definition at_version {B} (meta : Metadata) (i : Z)
    (k0 : MDV0 -> outcome B) (k4 : MDV4 -> outcome B) (k5 : MDV5 -> outcome B) (k6 : MDV6 -> outcome B)
    (k7 : MDV7 -> outcome B) (otherwise : outcome B) : outcome B :=
  let try {V M} (md : option V) (modules : V -> list M) (k : V -> outcome B) (next : outcome B) :=
    match md with
    | Some v => p ← ptr_at (modules v) i; match p with Some _ => k v | None => next end
    | None => next
    end in
  try (metadataV0 meta) md0_module k0
    (try (metadataV4 meta) md4_module k4
      (try (metadataV5 meta) md5_module k5
        (try (metadataV6 meta) md6_module k6
          (try (metadataV7 meta) md7_module k7 otherwise)))).

Definition easytolower (c : Z) : Z := if (c <=? 90) && (65 <=? c) then c + 32 else c.
Definition lower (s : text) : text := easytolower <$> s.

(** ** hasMethods *)

Definition has_first {A} (l : list A) : bool := match l with [] => false | _ => true end.

Definition hasMethods (meta : Metadata) (i : Z) : outcome bool :=
  at_version meta i
    (fun m => x ← deref_at (md0_module m) i; s ← written (m0_storage x); f ← written (head (s0_function s));
              Ret (0 <? Z.of_nat (length (f0_name f))))
    (fun m => x ← deref_at (md4_module m) i; Ret (has_first (m4_call x)))
    (fun m => x ← deref_at (md5_module m) i; Ret (has_first (m5_call x)))
    (fun m => x ← deref_at (md6_module m) i; Ret (has_first (m6_call x)))
    (fun m => x ← deref_at (md7_module m) i; Ret (has_first (m7_call x)))
    (Ret false).

(** ** getModuleIndex *)

Definition module_name (meta : Metadata) (i : Z) : outcome text :=
  at_version meta i
    (fun m => x ← deref_at (md0_module m) i; Ret (m0_prefix x))
    (fun m => x ← deref_at (md4_module m) i; Ret (m4_name x))
    (fun m => x ← deref_at (md5_module m) i; Ret (m5_name x))
    (fun m => x ← deref_at (md6_module m) i; Ret (m6_name x))
    (fun m => x ← deref_at (md7_module m) i; Ret (m7_name x))
    (Ret []).

(** [for (i < COLLECTION_SIZE)]; [n] counts the rounds left. *)
Fixpoint module_loop (meta : Metadata) (moduleNameLower : text) (skipZeroCalls : bool)
    (n : nat) (i zeroMethodModuleCount : Z) : outcome Z :=
  match n with
  | O => Ret (-1)
  | S n' =>
      name ← module_name meta i;
      if (0 <? length name)%nat then
        h ← hasMethods meta i;
        let zero := if h : bool then zeroMethodModuleCount else zeroMethodModuleCount + 1 in
        if bool_decide (moduleNameLower = lower name)
        then Ret (if skipZeroCalls then i - zero else i)
        else module_loop meta moduleNameLower skipZeroCalls n' (i + 1) zero
      else module_loop meta moduleNameLower skipZeroCalls n' (i + 1) zeroMethodModuleCount
  end.

Definition getModuleIndex (meta : Metadata) (moduleName : text) (skipZeroCalls : bool) : outcome Z :=
  module_loop meta (lower moduleName) skipZeroCalls COLLECTION_SIZE 0 0.

(** ** getStorageMethodIndex, getCallMethodIndex

    The condition looks at module [i], the name is taken from [moduleIndex]. *)

Definition storage_name (meta : Metadata) (moduleIndex i : Z) : outcome text :=
  at_version meta i
    (fun m => x ← deref_at (md0_module m) moduleIndex; s ← written (m0_storage x);
              f ← written (s0_function s !! Z.to_nat i); Ret (f0_name f))
    (fun m => x ← deref_at (md4_module m) moduleIndex; s ← deref_at (m4_storage x) i; written (st4_name s))
    (fun m => x ← deref_at (md5_module m) moduleIndex; s ← deref_at (m5_storage x) i; written (st_name s))
    (fun m => x ← deref_at (md6_module m) moduleIndex; s ← deref_at (m6_storage x) i; written (st_name s))
    (fun m => x ← deref_at (md7_module m) moduleIndex; c ← written (m7_storage x);
              s ← deref_at (sc_items c) i; written (st_name s))
    (Ret []).

Definition call_name_at (meta : Metadata) (moduleIndex i : Z) : outcome text :=
  at_version meta i
    (fun m => x ← deref_at (md0_module m) moduleIndex; f ← written (m0_fn1 x !! Z.to_nat i); Ret (fn0_name f))
    (fun m => x ← deref_at (md4_module m) moduleIndex; c ← deref_at (m4_call x) i; written (call_name c))
    (fun m => x ← deref_at (md5_module m) moduleIndex; c ← deref_at (m5_call x) i; written (call_name c))
    (fun m => x ← deref_at (md6_module m) moduleIndex; c ← deref_at (m6_call x) i; written (call_name c))
    (fun m => x ← deref_at (md7_module m) moduleIndex; c ← deref_at (m7_call x) i; written (call_name c))
    (Ret []).

(** The loop both share; [n] counts the rounds left. *)
Fixpoint method_loop (name_at : Z -> outcome text) (funcNameLower : text) (n : nat) (i : Z) : outcome Z :=
  match n with
  | O => Ret (-1)
  | S n' =>
      name ← name_at i;
      if bool_decide (funcNameLower = lower name) then Ret i
      else method_loop name_at funcNameLower n' (i + 1)
  end.

Definition getStorageMethodIndex (meta : Metadata) (moduleIndex : Z) (funcName : text) : outcome Z :=
  method_loop (storage_name meta moduleIndex) (lower funcName) COLLECTION_SIZE 0.

Definition getCallMethodIndex (meta : Metadata) (moduleIndex : Z) (funcName : text) : outcome Z :=
  method_loop (call_name_at meta moduleIndex) (lower funcName) COLLECTION_SIZE 0.

(** ** getFuncHasher *)

(** The hasher text. In version 4 the hasher is a number, and assigning it to a
    string makes a string of one character. *)
Definition hasher_text (meta : Metadata) (moduleIndex methodIndex : Z) : outcome text :=
  match metadataV4 meta, metadataV5 meta, metadataV6 meta, metadataV7 meta with
  | Some m, _, _, _ =>
      x ← deref_at (md4_module m) moduleIndex; s ← deref_at (m4_storage x) methodIndex;
      h ← written (ft4_hasher (st4_type s)); Ret [u8 h]
  | None, Some m, _, _ =>
      x ← deref_at (md5_module m) moduleIndex; s ← deref_at (m5_storage x) methodIndex;
      written (ft_hasher (st_type s))
  | None, None, Some m, _ =>
      x ← deref_at (md6_module m) moduleIndex; s ← deref_at (m6_storage x) methodIndex;
      written (ft_hasher (st_type s))
  | None, None, None, Some m =>
      x ← deref_at (md7_module m) moduleIndex; c ← written (m7_storage x);
      s ← deref_at (sc_items c) methodIndex; written (ft_hasher (st_type s))
  | None, None, None, None => Ret []
  end.

Definition getFuncHasher (meta : Metadata) (moduleName funcName : text) : outcome Hasher :=
  match metadataV0 meta with
  | Some _ => Ret XXHASH
  | None =>
      moduleIndex ← getModuleIndex meta moduleName false;
      hasherStr ←
        (if 0 <=? moduleIndex then
           methodIndex ← getStorageMethodIndex meta moduleIndex funcName;
           if 0 <? methodIndex then hasher_text meta moduleIndex methodIndex else Ret []
         else Ret []);
      Ret (if bool_decide (hasherStr = str "Blake2_256") then BLAKE2 else XXHASH)
  end.

(** ** isStateVariablePlain *)

Definition not_found (moduleIndex varIndex : Z) : exn :=
  ApplicationException (str "Module + State variable not found: " ++ print_d moduleIndex ++ str ":" ++ print_d varIndex).

Definition isStateVariablePlain (meta : Metadata) (moduleIndex varIndex : Z) : outcome bool :=
  at_version meta moduleIndex
    (fun m => x ← deref_at (md0_module m) moduleIndex; s ← written (m0_storage x);
              if varIndex =? 0 then t ← written (s0_typeName s); Ret (t =? 0) else UB)
    (fun m => x ← deref_at (md4_module m) moduleIndex; s ← deref_at (m4_storage x) varIndex;
              t ← written (ft4_type (st4_type s)); Ret (t =? 0))
    (fun m => x ← deref_at (md5_module m) moduleIndex; s ← deref_at (m5_storage x) varIndex;
              t ← written (ft_type (st_type s)); Ret (t =? 0))
    (fun m => x ← deref_at (md6_module m) moduleIndex; s ← deref_at (m6_storage x) varIndex;
              t ← written (ft_type (st_type s)); Ret (t =? 0))
    (fun m => x ← deref_at (md7_module m) moduleIndex; c ← written (m7_storage x);
              s ← deref_at (sc_items c) varIndex; t ← written (ft_type (st_type s)); Ret (t =? 0))
    (Throw (not_found moduleIndex varIndex)).

(** ** getMetadataConst: [for (i < COLLECTION_SIZE)]; [n] counts the rounds left *)

Fixpoint const_loop (cons : list Const) (constName : text) (n : nat) (i : nat) : outcome Z :=
  match n with
  | O => Ret (-1)
  | S n' =>
      c ← written (cons !! i);
      if bool_decide (const_name c = cstr constName) then fromHex LongLong (const_value c) false
      else const_loop cons constName n' (S i)
  end.

Definition getMetadataConst (meta : Metadata) (module constName : text) : outcome Z :=
  babeModuleIndex ← getModuleIndex meta module false;
  m ← written (metadataV7 meta);
  x ← deref_at (md7_module m) babeModuleIndex;
  const_loop (m7_cons x) constName COLLECTION_SIZE 0.

(** ** Module indexes *)

(** Metadata of one version, and what matters of its modules: the name, and
    whether there are calls. *)
Inductive single : Metadata -> list (text * bool) -> Prop :=
| single4 m : (length (md4_module m) <= 64)%nat ->
    single {| metadataV0 := None; metadataV4 := Some m; metadataV5 := None; metadataV6 := None; metadataV7 := None |}
      ((fun x => (m4_name x, has_first (m4_call x))) <$> md4_module m)
| single5 m : (length (md5_module m) <= 64)%nat ->
    single {| metadataV0 := None; metadataV4 := None; metadataV5 := Some m; metadataV6 := None; metadataV7 := None |}
      ((fun x => (m5_name x, has_first (m5_call x))) <$> md5_module m)
| single6 m : (length (md6_module m) <= 64)%nat ->
    single {| metadataV0 := None; metadataV4 := None; metadataV5 := None; metadataV6 := Some m; metadataV7 := None |}
      ((fun x => (m6_name x, has_first (m6_call x))) <$> md6_module m)
| single7 m : (length (md7_module m) <= 64)%nat ->
    single {| metadataV0 := None; metadataV4 := None; metadataV5 := None; metadataV6 := None; metadataV7 := Some m |}
      ((fun x => (m7_name x, has_first (m7_call x))) <$> md7_module m).

Lemma ptr_at_ok {A} (l : list A) (i : nat) : (i < 64)%nat -> ptr_at l (Z.of_nat i) = Ret (l !! i).
Proof.
  intros Hi. unfold ptr_at. rewrite Nat2Z.id.
  assert ((0 <=? Z.of_nat i) && (Z.of_nat i <? 64) = true) as -> by lia. done.
Qed.

Lemma deref_at_some {A} (l : list A) (i : nat) x : (i < 64)%nat -> l !! i = Some x -> deref_at l (Z.of_nat i) = Ret x.
Proof. intros Hi Hx. unfold deref_at. rewrite ptr_at_ok by done. ostep. by rewrite Hx. Qed.

Lemma deref_at_none {A} (l : list A) (i : nat) : (i < 64)%nat -> l !! i = None -> deref_at l (Z.of_nat i) = UB.
Proof. intros Hi Hx. unfold deref_at. rewrite ptr_at_ok by done. ostep. by rewrite Hx. Qed.

Lemma single_name meta v i o :
  single meta v -> (i < 64)%nat -> v !! i = o ->
  module_name meta (Z.of_nat i) = Ret (match o with Some x => x.1 | None => [] end)
  /\ (forall x, o = Some x -> hasMethods meta (Z.of_nat i) = Ret x.2).
Proof.
  intros Hs Hi <-. destruct Hs as [m Hl|m Hl|m Hl|m Hl]; unfold module_name, hasMethods, at_version;
    cbn [metadataV0 metadataV4 metadataV5 metadataV6 metadataV7]; rewrite !ptr_at_ok by done; ostep;
    rewrite list_lookup_fmap;
    (destruct (_ !! i) as [x|] eqn:E; cbn [fmap option_fmap option_map fst snd]; [|split; [done|]]);
    rewrite ?(deref_at_some _ _ x) by done; try (split; [done|]);
    intros y; rewrite ?list_lookup_fmap, ?E; by intros [= <-].
Qed.

Definition no_calls (x : text * bool) : Prop := x.2 = false.
#[export] Instance no_calls_dec x : Decision (no_calls x).
Proof. unfold no_calls. apply _. Defined.

(** The index of the module with this name, letter case aside; for the node it is
    counted without the modules that have no calls. *)
Definition module_spec (v : list (text * bool)) (name : text) (skipZeroCalls : bool) : Z :=
  match list_find (fun x => lower x.1 = lower name) v with
  | Some (i, _) =>
      if skipZeroCalls then Z.of_nat i - Z.of_nat (length (filter no_calls (take (S i) v))) else Z.of_nat i
  | None => -1
  end.

(** Past the last module the remaining rounds find nothing. *)
Lemma module_loop_end meta v target skip zero n i :
  single meta v -> (length v <= i)%nat -> (i + n <= 64)%nat ->
  module_loop meta target skip n (Z.of_nat i) zero = Ret (-1).
Proof.
  intros Hs. revert i. induction n as [|n IH]; intros i Hi Hn; [done|]. cbn [module_loop].
  destruct (single_name meta v i None Hs ltac:(lia) (lookup_ge_None_2 v i ltac:(lia))) as [-> _]. ostep. cbn [length Nat.ltb Nat.leb].
  replace (Z.of_nat i + 1) with (Z.of_nat (S i)) by lia. apply IH; lia.
Qed.

Lemma module_loop_ok meta v name skip past rest n :
  single meta v -> v = past ++ rest -> Forall (fun x => x.1 <> []) v ->
  (length past + n = 64)%nat -> (length v <= 64)%nat ->
  Forall (fun x => lower x.1 <> lower name) past ->
  module_loop meta (lower name) skip n (Z.of_nat (length past)) (Z.of_nat (length (filter no_calls past)))
  = Ret (module_spec v name skip).
Proof.
  intros Hs Hv Hne. revert past rest Hv. induction n as [|n IH]; intros past rest Hv Hn Hl Hnot.
  - cbn [module_loop]. assert (rest = []) as ->.
    { rewrite Hv, length_app in Hl. destruct rest; [done|cbn in Hl; lia]. }
    rewrite app_nil_r in Hv. subst past. unfold module_spec.
    by rewrite (proj2 (list_find_None _ _)).
  - destruct rest as [|x rest].
    { rewrite app_nil_r in Hv. subst past. rewrite (module_loop_end meta v) by (done || lia).
      unfold module_spec. by rewrite (proj2 (list_find_None _ _)). }
    cbn [module_loop]. assert (v !! length past = Some x) as Ex by (rewrite Hv; by apply list_lookup_middle).
    destruct (single_name meta v (length past) _ Hs ltac:(lia) Ex) as [E1 E2].
    rewrite E1. ostep. cbn iota. specialize (E2 x eq_refl).
    assert ((0 <? length x.1)%nat = true) as ->.
    { rewrite Hv in Hne. apply Forall_app in Hne as [_ Hx%Forall_inv]. destruct x.1; [done|apply Nat.ltb_lt; cbn; lia]. }
    rewrite E2. ostep.
    assert ((if x.2 then Z.of_nat (length (filter no_calls past)) else Z.of_nat (length (filter no_calls past)) + 1)
      = Z.of_nat (length (filter no_calls (past ++ [x])))) as ->.
    { rewrite filter_app, length_app, filter_cons, filter_nil. destruct (decide (no_calls x)) as [Hx|Hx];
        unfold no_calls in Hx; [rewrite Hx|destruct x.2; [|done]]; cbn; lia. }
    destruct (decide (lower name = lower x.1)) as [En|En].
    + rewrite bool_decide_eq_true_2 by done. unfold module_spec. rewrite Hv.
      rewrite list_find_app_r by (by apply list_find_None).
      cbn [list_find]. rewrite decide_True by done. cbn [fmap option_fmap option_map prod_map].
      cbn [fst Nat.add]. replace (take (S (length past)) (past ++ x :: rest)) with (past ++ [x]); [done|].
      rewrite (cons_middle x past rest), app_assoc. rewrite take_app_length'; [done|]. rewrite length_app. cbn. lia.
    + rewrite bool_decide_eq_false_2 by done.
      replace (Z.of_nat (length past) + 1) with (Z.of_nat (length (past ++ [x]))) by (rewrite length_app; cbn; lia).
      apply (IH (past ++ [x]) rest); [by rewrite <- app_assoc|rewrite length_app; cbn; lia|done|].
      apply Forall_app. split; [done|]. apply Forall_singleton. congruence.
Qed.

Lemma getModuleIndex_ok meta v name skip :
  single meta v -> Forall (fun x => x.1 <> []) v -> getModuleIndex meta name skip = Ret (module_spec v name skip).
Proof.
  intros Hs Hne. unfold getModuleIndex. change 0 with (Z.of_nat (length (@nil (text * bool)))) at 1.
  assert (length v <= 64)%nat as Hl by (destruct Hs; rewrite length_fmap; done).
  apply (module_loop_ok meta v name skip [] v 64); done.
Qed.

(** ** Method indexes *)

Lemma method_loop_ok name_at (names : list text) (nmods : nat) target n i :
  target <> [] -> (nmods <= 64)%nat -> (i + n = 64)%nat ->
  (forall j, (j < 64)%nat -> name_at (Z.of_nat j) =
     if (j <? nmods)%nat then match names !! j with Some s => Ret s | None => UB end else Ret []) ->
  Forall (fun s => lower s <> target) (take (i `min` nmods) names) -> (i `min` nmods <= length names)%nat ->
  method_loop name_at target n (Z.of_nat i)
  = match list_find (fun s => lower s = target) (take nmods names) with
    | Some (k, _) => Ret (Z.of_nat k)
    | None => if (length names <? nmods)%nat then UB else Ret (-1)
    end.
Proof.
  intros Ht Hm. revert i. induction n as [|n IH]; intros i Hi Hat Hnot Hlen.
  - cbn [method_loop]. rewrite Nat.min_r in Hnot, Hlen by lia.
    rewrite (proj2 (list_find_None _ _)) by done. by rewrite (proj2 (Nat.ltb_ge _ _)) by lia.
  - cbn [method_loop]. rewrite Hat by lia.
    replace (Z.of_nat i + 1) with (Z.of_nat (S i)) by lia.
    destruct (Nat.ltb_spec i nmods) as [Him|Him].
    + rewrite Nat.min_l in Hnot, Hlen by lia. destruct (names !! i) as [s|] eqn:E.
      * ostep. pose proof (lookup_lt_Some _ _ _ E).
        destruct (decide (target = lower s)) as [Es|Es].
        -- rewrite bool_decide_eq_true_2 by done.
           assert (list_find (fun s => lower s = target) (take nmods names) = Some (i, s)) as ->; [|done].
           apply list_find_Some. rewrite lookup_take_lt by done. split; [done|]. split; [done|].
           intros j y Hy Hj. rewrite lookup_take_lt in Hy by lia.
           rewrite Forall_lookup in Hnot. apply (Hnot j). by rewrite lookup_take_lt.
        -- rewrite bool_decide_eq_false_2 by done. apply IH; [lia|done| |lia].
           rewrite Nat.min_l by lia. rewrite (take_S_r _ _ s) by done.
           apply Forall_app. split; [done|]. apply Forall_singleton. congruence.
      * apply lookup_ge_None in E. ostep.
        rewrite (proj2 (list_find_None _ _)).
        -- by rewrite (proj2 (Nat.ltb_lt _ _)) by lia.
        -- rewrite take_ge in Hnot |- * by lia. done.
    + ostep. rewrite bool_decide_eq_false_2 by done.
      apply IH; [lia|done| |]; rewrite Nat.min_r in * by lia; done.
Qed.

(** The calls of a module of version 7 metadata, all of them with a name. *)
Definition call_names (x : ModuleV7) (names : list text) : Prop := (call_name <$> m7_call x) = (Some <$> names).

Lemma call_index7 m mi x names name :
  (length (md7_module m) <= 64)%nat -> md7_module m !! mi = Some x -> call_names x names ->
  (length names <= 64)%nat -> name <> [] ->
  getCallMethodIndex {| metadataV0 := None; metadataV4 := None; metadataV5 := None; metadataV6 := None; metadataV7 := Some m |}
    (Z.of_nat mi) name
  = match list_find (fun s => lower s = lower name) (take (length (md7_module m)) names) with
    | Some (k, _) => Ret (Z.of_nat k)
    | None => if (length names <? length (md7_module m))%nat then UB else Ret (-1)
    end.
Proof.
  intros Hl Hx Hn Hln Hne. unfold getCallMethodIndex. change 0 with (Z.of_nat 0).
  pose proof (lookup_lt_Some _ _ _ Hx).
  apply (method_loop_ok _ names (length (md7_module m))); [by destruct name|done|done| |constructor|lia].
  intros j Hj. unfold call_name_at, at_version. cbn [metadataV0 metadataV4 metadataV5 metadataV6 metadataV7].
  rewrite ptr_at_ok by done. ostep. destruct (Nat.ltb_spec j (length (md7_module m))) as [Hjm|Hjm].
  - destruct (lookup_lt_is_Some_2 _ _ Hjm) as [y ->]. rewrite (deref_at_some _ mi x) by (lia || done). ostep.
    assert (call_name <$> m7_call x !! j = Some <$> names !! j) as E
      by (rewrite <- !list_lookup_fmap; by rewrite Hn).
    destruct (m7_call x !! j) as [c|] eqn:Ec, (names !! j) as [s|]; try done; cbn in E.
    + rewrite (deref_at_some _ j c) by done. ostep. injection E as ->. done.
    + by rewrite deref_at_none.
  - by rewrite lookup_ge_None_2 by lia.
Qed.

(** ** Properties *)

(** [getModuleIndex] finds modules as the node numbers them: on metadata of
    one version (4 to 7) with at most 64 named modules it returns the index of the
    first module with the name, letter case aside, and [-1] when there is none;
    with [skipZeroCalls] the modules without calls up to and including it are not
    counted. *)
Theorem getModuleIndex_spec meta v name skip :
  single meta v -> Forall (fun x => x.1 <> []) v -> getModuleIndex meta name skip = Ret (module_spec v name skip).
Proof. apply getModuleIndex_ok. Qed.

Definition sample_modules : MDV7 :=
  {| md7_module := module7_obj <$>
      [ {| d7_name := str "System"; d7_storage := None; d7_calls := None; d7_events := None; d7_consts := [] |};
        sample_module7 ] |}.

Definition sample_metadata : Metadata :=
  {| metadataV0 := None; metadataV4 := None; metadataV5 := None; metadataV6 := None; metadataV7 := Some sample_modules |}.

Lemma getModuleIndex_spec_witness :
  getModuleIndex sample_metadata (str "balances") true
  = Ret (module_spec ((fun x => (m7_name x, has_first (m7_call x))) <$> md7_module sample_modules) (str "balances") true).
Proof.
  apply (getModuleIndex_spec sample_metadata); [apply single7; cbn; lia|forall_list ltac:(discriminate)].
Defined.

Example sample_module_indexes :
  getModuleIndex sample_metadata (str "balances") false = Ret 1
  /\ getModuleIndex sample_metadata (str "balances") true = Ret 0
  /\ getModuleIndex sample_metadata (str "staking") false = Ret (-1).
Proof. by repeat split. Qed.

(** [getCallMethodIndex], completely, on version 7 metadata: the first call with
    the name among as many calls as there are modules; failing that, [-1] if the
    module has at least as many calls as there are modules, and otherwise a null
    call is dereferenced. *)
Theorem getCallMethodIndex_spec m mi x names name :
  (length (md7_module m) <= 64)%nat -> md7_module m !! mi = Some x -> call_names x names ->
  (length names <= 64)%nat -> name <> [] ->
  getCallMethodIndex {| metadataV0 := None; metadataV4 := None; metadataV5 := None; metadataV6 := None; metadataV7 := Some m |}
    (Z.of_nat mi) name
  = match list_find (fun s => lower s = lower name) (take (length (md7_module m)) names) with
    | Some (k, _) => Ret (Z.of_nat k)
    | None => if (length names <? length (md7_module m))%nat then UB else Ret (-1)
    end.
Proof. apply call_index7. Qed.

Lemma getCallMethodIndex_spec_witness :
  getCallMethodIndex sample_metadata (Z.of_nat 1) (str "Transfer")
  = match list_find (fun s => lower s = lower (str "Transfer")) (take (length (md7_module sample_modules)) [str "transfer"]) with
    | Some (k, _) => Ret (Z.of_nat k)
    | None => if (length [str "transfer"] <? length (md7_module sample_modules))%nat then UB else Ret (-1)
    end.
Proof.
  apply (getCallMethodIndex_spec sample_modules 1 (module7_obj sample_module7) [str "transfer"] (str "Transfer"));
    [cbn; lia|reflexivity|reflexivity|cbn; lia|discriminate].
Defined.

(** Metadata whose storage entries have no hasher in versions 5 to 7. *)
Definition hashers_unset (meta : Metadata) : Prop :=
  (forall m, metadataV5 meta = Some m -> Forall (fun x => Forall hasher_unset (m5_storage x)) (md5_module m))
  /\ (forall m, metadataV6 meta = Some m -> Forall (fun x => Forall hasher_unset (m6_storage x)) (md6_module m))
  /\ (forall m, metadataV7 meta = Some m -> Forall collection_unset (md7_module m)).

Lemma try_fill_inv {A} (p : parser A) v f o f' (P : A -> Prop) :
  yields p P -> try_fill p v f = Ret (o, f') -> forall x, o = Some x -> P x.
Proof.
  intros Hp E x ->. unfold try_fill in E. destruct (p (buffer f)) as [[y r]| |] eqn:Ep; [|done..].
  injection E as -> <-. by eapply Hp.
Qed.

Lemma createMetadata_unset `{Doubles} j meta : createMetadata j = Ret meta -> hashers_unset meta.
Proof.
  intros E. unfold createMetadata in E. apply bind_Ret_inv in E as (hex & _ & E).
  apply bind_Ret_inv in E as ([v0 f0] & _ & E). apply bind_Ret_inv in E as ([v4 f4] & _ & E).
  apply bind_Ret_inv in E as ([v5 f5] & E5 & E). apply bind_Ret_inv in E as ([v6 f6] & E6 & E).
  apply bind_Ret_inv in E as ([v7 f7] & E7 & E). injection E as <-. repeat split; cbn.
  - by apply (try_fill_inv _ _ _ _ _ _ fillV5_hasher E5).
  - by apply (try_fill_inv _ _ _ _ _ _ fillV6_hasher E6).
  - by apply (try_fill_inv _ _ _ _ _ _ fillV7_hasher E7).
Qed.

Lemma deref_at_elem {A} (l : list A) i x : deref_at l i = Ret x -> x ∈ l.
Proof.
  intros Hd. unfold deref_at in Hd. apply bind_Ret_inv in Hd as ([y|] & Hp & Hd); [|done]. injection Hd as <-.
  unfold ptr_at in Hp. destruct (_ && _); [|done]. injection Hp as Hp. by eapply list_elem_of_lookup_2.
Qed.

(** Following pointers in an unset table never reaches a hasher. *)
Lemma no_hasher {A} (ms : list A) (st : A -> list Storage) mi fi t :
  Forall (fun x => Forall hasher_unset (st x)) ms ->
  (x ← deref_at ms mi; s ← deref_at (st x) fi; written (ft_hasher (st_type s))) <> Ret t.
Proof.
  intros Hu E. apply bind_Ret_inv in E as (x & Hx & E). apply bind_Ret_inv in E as (s & Hs & E).
  apply deref_at_elem in Hx, Hs. rewrite Forall_forall in Hu. specialize (Hu x Hx).
  rewrite Forall_forall in Hu. by rewrite (Hu s Hs) in E.
Qed.

Lemma hasher_text_unset meta mi fi t : hashers_unset meta -> hasher_text meta mi fi = Ret t -> t <> str "Blake2_256".
Proof.
  intros (H5 & H6 & H7) E. unfold hasher_text in E. destruct (metadataV4 meta) as [m|].
  { apply bind_Ret_inv in E as (x & _ & E). apply bind_Ret_inv in E as (s & _ & E).
    apply bind_Ret_inv in E as (v & _ & E). by injection E as <-. }
  destruct (metadataV5 meta) as [m|]; [by apply no_hasher in E; eauto|].
  destruct (metadataV6 meta) as [m|]; [by apply no_hasher in E; eauto|].
  destruct (metadataV7 meta) as [m|]; [|by injection E as <-]. specialize (H7 m eq_refl).
  apply bind_Ret_inv in E as (x & Hx & E). apply bind_Ret_inv in E as (c & Hc & E).
  apply bind_Ret_inv in E as (s & Hs & E). apply deref_at_elem in Hx, Hs.
  rewrite Forall_forall in H7. specialize (H7 x Hx). unfold collection_unset in H7.
  destruct (m7_storage x) as [c'|]; [|done]. injection Hc as ->.
  rewrite Forall_forall in H7. by rewrite (H7 s Hs) in E.
Qed.

(** The storage hash function is never recognised. On whatever metadata
    [createMetadata] makes of a node's answer (the parsers never write [hasher] for
    versions 5 to 7, and version 4 stores a number), for every module and
    function, [getFuncHasher] never answers BLAKE2: it answers XXHASH or has
    undefined behaviour. *)
Theorem getFuncHasher_never_blake2 `{Doubles} response meta moduleName funcName h :
  createMetadata response = Ret meta -> getFuncHasher meta moduleName funcName = Ret h -> h = XXHASH.
Proof.
  intros Hu%createMetadata_unset E. unfold getFuncHasher in E. destruct (metadataV0 meta); [by injection E|].
  apply bind_Ret_inv in E as (mi & _ & E). apply bind_Ret_inv in E as (hs & Eh & E). injection E as <-.
  assert (hs <> str "Blake2_256") as Hne; [|by rewrite bool_decide_eq_false_2].
  destruct (0 <=? mi); [|by injection Eh as <-]. apply bind_Ret_inv in Eh as (fi & _ & Eh).
  destruct (0 <? fi); [|by injection Eh as <-]. by eapply hasher_text_unset.
Qed.

(** A node's answer with the module Balances alone. *)
Definition sample_answer : list Z :=
  str "0x" ++ hex_bytes (enc_metadata7 [109; 101; 116; 97; 7] [sample_module7]).
Definition answered_metadata : Metadata :=
  {| metadataV0 := None; metadataV4 := None; metadataV5 := None; metadataV6 := None;
     metadataV7 := Some {| md7_module := [module7_obj sample_module7] |} |}.

Lemma getFuncHasher_never_blake2_witness :
  createMetadata (H := numeral_doubles) (JString sample_answer) = Ret answered_metadata
  /\ getFuncHasher answered_metadata (str "Balances") (str "TotalIssuance") = Ret XXHASH /\ XXHASH = XXHASH.
Proof.
  split; [vm_compute; reflexivity|split; [reflexivity|]].
  apply (getFuncHasher_never_blake2 (H := numeral_doubles) (JString sample_answer) answered_metadata (str "Balances")
    (str "TotalIssuance")); [vm_compute; reflexivity|reflexivity].
Defined.

(** Reading the hasher of a function past the first is undefined, as [connect] does. *)
Example hasher_unwritten : getFuncHasher sample_metadata (str "Balances") (str "FreeBalance") = UB.
Proof. reflexivity. Qed.
