(* ===== verification/Decode.v ===== *)
(** The structures that the API returns and their construction from the node's
    answers: the [create] functions and [deserialize] of [src/application.cpp], and
    [src/structs/].

    The objects are cleared before they are filled: a text that is not written is
    empty, a number zero; of an array the written elements are listed, the others
    are zero. A [char[256]] is the C string copied into it. *)
From S2P Require Import Prelude Converters Json.

Abbreviation text := (list Z).

(** ** Structures *)

Record SystemInfo : Type := {
  chainId : text; chainName : text; si_version : text; tokenDecimals : Z; tokenSymbol : text }.
Record BlockHash : Type := { hash : text }.
Record ApiItem : Type := { num : text; api_id : Z }.
Record RuntimeVersion : Type := {
  api : list ApiItem; authoringVersion : Z; implName : text; implVersion : Z; specName : text; specVersion : Z }.
(** [digest] is the list of the values; the keys stay zero. *)
Record BlockHeader : Type := {
  parentHash : text; number : Z; stateRoot : text; extrinsicsRoot : text; digest : list text }.
Record Block : Type := { header : BlockHeader; extrinsic : list text }.
Record SignedBlock : Type := { block : Block; justification : text }.
Record FinalHead : Type := { fh_blockHash : text }.
Record SystemHealth : Type := { sh_peers : Z; isSyncing : bool; shouldHavePeers : bool }.
Record PeerInfo : Type := {
  bestHash : text; bestNumber : Z; pi_peerId : text; protocolVersion : Z; roles : text }.
Record PeersInfo : Type := { count : Z; peers : list PeerInfo }.
Record ConnectedPeerInfo : Type := {
  enabled : bool; dialing : text; knownAddresses : list text; nanos : Z; secs : Z; open : bool; versionString : text }.
Record ConnectedPeer : Type := { cp_key : text; connectedPeerInfo : ConnectedPeerInfo }.
Record NotConnectedPeer : Type := { ncp_key : text; ncp_knownAddresses : list text }.
Record NetworkState : Type := {
  AverageDownloadPerSec : Z; AverageUploadPerSec : Z; connectedPeers : list ConnectedPeer;
  externalAddresses : list text; listenedAddresses : list text; notConnectedPeers : list NotConnectedPeer;
  ns_peerId : text; peerset : text }.
Record StorageItem : Type := { sti_key : text; sti_blockHash : text; sti_value : text }.

Definition MAX_PEER_COUNT : nat := 256.

(** [for (item : items) { ... dst[i] ...; i++; }] into an array of [room] elements *)
Fixpoint fill {X A} (room : nat) (items : list X) (f : X -> outcome A) : outcome (list A) :=
  match items, room with
  | [], _ => Ret []
  | _ :: _, O => UB
  | x :: items', S room' => a ← f x; l ← fill room' items' f; Ret (a :: l)
  end.

(** The standard library's [what()] of its own exceptions. *)
Class StdWhat := std_what : exn -> text.

Definition what `{StdWhat} (e : exn) : text :=
  match e with
  | CompactIntegerException msg | ApplicationException msg | JsonRpcException msg | websocketpp_exception msg => msg
  | out_of_range | invalid_argument | bad_function_call | system_error => std_what e
  end.

Section decode.
Context `{D : Doubles}.

(** [jsonObject["key"]], and [strcpy(field, json.string_value().c_str())] *)
Definition at_str (j : Json) (key : String.string) : Json := at_key j (str key).
Definition copy_string (j : Json) : outcome text := strcpy STRING_SIZE (string_value j).

Definition deserialize {A} `{StdWhat} (F : Json -> outcome A) (jsonObject : Json) : outcome A :=
  match F jsonObject with
  | Throw e => Throw (ApplicationException (str "Cannot deserialize data " ++ what e))
  | o => o
  end.

Definition createSystemInfo (jsonObject : Json) : outcome SystemInfo :=
  name ← copy_string (at_index jsonObject 0);
  id ← copy_string (at_index jsonObject 1);
  version ← copy_string (at_index jsonObject 2);
  decimals ← int_value (at_str (at_index jsonObject 3) "tokenDecimals");
  symbol ← copy_string (at_str (at_index jsonObject 3) "tokenSymbol");
  Ret {| chainId := id; chainName := name; si_version := version; tokenDecimals := decimals; tokenSymbol := symbol |}.

Definition createBlockHash (jsonObject : Json) : outcome BlockHash :=
  h ← copy_string jsonObject; Ret {| hash := h |}.

Definition createApiItem (item : Json) : outcome ApiItem :=
  n ← copy_string (at_index item 0);
  i ← int_value (at_index item 1);
  Ret {| num := n; api_id := i |}.

Definition createRuntimeVersion (jsonObject : Json) : outcome RuntimeVersion :=
  spec ← copy_string (at_str jsonObject "specName");
  impl ← copy_string (at_str jsonObject "implName");
  av ← int_value (at_str jsonObject "authoringVersion");
  sv ← int_value (at_str jsonObject "specVersion");
  iv ← int_value (at_str jsonObject "implVersion");
  apis ← fill COLLECTION_SIZE (array_items (at_str jsonObject "apis")) createApiItem;
  Ret {| api := apis; authoringVersion := u32 av; implName := impl; implVersion := iv; specName := spec;
         specVersion := sv |}.

Definition createDigest (jsonObject : Json) : outcome (list text) :=
  fill COLLECTION_SIZE (array_items (at_str (at_str jsonObject "digest") "logs")) copy_string.

Definition decodeBlockHeader (jsonObject : Json) : outcome BlockHeader :=
  parent ← copy_string (at_str jsonObject "parentHash");
  n ← fromHex LongLong (string_value (at_str jsonObject "number")) true;
  state ← copy_string (at_str jsonObject "stateRoot");
  root ← copy_string (at_str jsonObject "extrinsicsRoot");
  logs ← createDigest jsonObject;
  Ret {| parentHash := parent; number := u64 n; stateRoot := state; extrinsicsRoot := root; digest := logs |}.

Definition createBlock (jsonObject : Json) : outcome SignedBlock :=
  h ← decodeBlockHeader (at_str (at_str jsonObject "block") "header");
  xs ← fill COLLECTION_SIZE (array_items (at_str jsonObject "extrinsics")) copy_string;
  j ← copy_string (at_str jsonObject "justification");
  Ret {| block := {| header := h; extrinsic := xs |}; justification := j |}.

Definition createBlockHeader (jsonObject : Json) : outcome BlockHeader :=
  parent ← copy_string (at_str jsonObject "parentHash");
  digits ← substr_from (string_value (at_str jsonObject "parentHash")) 2;
  n ← atoi128 (cstr digits);
  state ← copy_string (at_str jsonObject "stateRoot");
  root ← copy_string (at_str jsonObject "extrinsicsRoot");
  logs ← createDigest jsonObject;
  Ret {| parentHash := parent; number := u64 n; stateRoot := state; extrinsicsRoot := root; digest := logs |}.

Definition createFinalHead (jsonObject : Json) : outcome FinalHead :=
  h ← copy_string jsonObject; Ret {| fh_blockHash := h |}.

Definition createSystemHealth (jsonObject : Json) : outcome SystemHealth :=
  p ← int_value (at_str jsonObject "peers");
  Ret {| sh_peers := p; isSyncing := bool_value (at_str jsonObject "isSyncing");
         shouldHavePeers := bool_value (at_str jsonObject "shouldHavePeers") |}.

Definition createConnectedPeer (item : list Z * Json) : outcome ConnectedPeer :=
  key ← strcpy STRING_SIZE item.1;
  ep ← copy_string (at_str item.2 "dialing");
  addresses ← fill COLLECTION_SIZE (array_items (at_str item.2 "knownAddresses")) copy_string;
  n ← int_value (at_str (at_str item.2 "latestPingTime") "nanos");
  s ← int_value (at_str (at_str item.2 "latestPingTime") "secs");
  v ← copy_string (at_str item.2 "versionString");
  Ret {| cp_key := key;
         connectedPeerInfo := {| enabled := bool_value (at_str item.2 "enabled"); dialing := ep;
           knownAddresses := addresses; nanos := u64 n; secs := u64 s; open := bool_value (at_str item.2 "open");
           versionString := v |} |}.

(** [notConnectedPeers[i]] for an [i] that stays 0: every peer is written over the
    one before; addresses of an earlier peer beyond the new ones remain. *)
Fixpoint notConnected_loop (items : list (list Z * Json)) (slot : option NotConnectedPeer)
    : outcome (option NotConnectedPeer) :=
  match items with
  | [] => Ret slot
  | item :: items' =>
      key ← strcpy STRING_SIZE item.1;
      addresses ← fill COLLECTION_SIZE (array_items (at_str item.2 "knownAddresses")) copy_string;
      let old := match slot with Some p => ncp_knownAddresses p | None => [] end in
      notConnected_loop items'
        (Some {| ncp_key := key; ncp_knownAddresses := addresses ++ drop (length addresses) old |})
  end.

Definition createNetworkState (jsonObject : Json) : outcome NetworkState :=
  down ← int_value (at_str jsonObject "averageDownloadPerSec");
  up ← int_value (at_str jsonObject "averageUploadPerSec");
  connected ← fill COLLECTION_SIZE (object_items (at_str jsonObject "connectedPeers")) createConnectedPeer;
  external ← fill COLLECTION_SIZE (array_items (at_str jsonObject "externalAddresses")) copy_string;
  listened ← fill COLLECTION_SIZE (array_items (at_str jsonObject "listenedAddresses")) copy_string;
  slot ← notConnected_loop (object_items (at_str jsonObject "notConnectedPeers")) None;
  peer ← copy_string (at_str jsonObject "peerId");
  set ← copy_string (at_str jsonObject "peerset");
  Ret {| AverageDownloadPerSec := u32 down; AverageUploadPerSec := u32 up; connectedPeers := connected;
         externalAddresses := external; listenedAddresses := listened;
         notConnectedPeers := match slot with Some p => [p] | None => [] end; ns_peerId := peer; peerset := set |}.

Definition createPeer (item : Json) : outcome PeerInfo :=
  best ← copy_string (at_str item "bestHash");
  n ← int_value (at_str item "bestNumber");
  id ← copy_string (at_str item "peerId");
  v ← int_value (at_str item "protocolVersion");
  r ← copy_string (at_str item "roles");
  Ret {| bestHash := best; bestNumber := u64 n; pi_peerId := id; protocolVersion := u32 v; roles := r |}.

Definition too_many_peers (n : Z) : text :=
  str "Number of records exceeded " ++ print_d (Z.of_nat MAX_PEER_COUNT) ++ str "actual value: " ++ print_d n.

Definition createPeerInfo (jsonObject : Json) : outcome PeersInfo :=
  let items := array_items jsonObject in
  let n := i32 (Z.of_nat (length items)) in
  if Z.of_nat MAX_PEER_COUNT <? n then Throw (ApplicationException (too_many_peers n))
  else ps ← fill MAX_PEER_COUNT items createPeer; Ret {| count := n; peers := ps |}.

(** The loop of [queryStorage]: [while ((i < itemBufSize) && (response[i].dump() != "null"))];
    [n] counts the room left. *)
Fixpoint query_items (response : Json) (n i : nat) : outcome (list StorageItem) :=
  match n with
  | O => Ret []
  | S n' =>
      let r := at_index response i in
      if bool_decide (dump r = str "null") then Ret []
      else
        b ← copy_string (at_str r "block");
        k ← copy_string (at_index (at_index (at_str r "changes") 0) 0);
        v ← copy_string (at_index (at_index (at_str r "changes") 0) 1);
        l ← query_items response n' (S i);
        Ret ({| sti_key := k; sti_blockHash := b; sti_value := v |} :: l)
  end.
End decode.

(** ** Answers as the node sends them *)

Section answers.
Context `{D : Doubles}.

(** A text that fits its array. *)
Definition fits (s : text) : Prop := (length s < STRING_SIZE)%nat /\ Forall (fun c => c <> 0) s.

Lemma copy_string_fits s : fits s -> copy_string (JString s) = Ret s.
Proof. intros [Hl Hz]. unfold copy_string. cbn. rewrite strcpy_ok; by rewrite cstr_no_nul. Qed.

Lemma fill_ok {X A} room (f : X -> outcome A) (g : A -> X) (l : list A) :
  (length l <= room)%nat -> (forall a, a ∈ l -> f (g a) = Ret a) -> fill room (g <$> l) f = Ret l.
Proof.
  revert room. induction l as [|a l IH]; intros room Hl Hf; [by destruct room|].
  destruct room as [|room]; [cbn in Hl; lia|]. cbn [fmap list_fmap fill].
  rewrite Hf by (by left). ostep. rewrite IH; [done|cbn in Hl; lia|]. intros b Hb. apply Hf. by right.
Qed.

Lemma fill_length {X A} room (f : X -> outcome A) items l : fill room items f = Ret l -> length l = length items.
Proof.
  revert room l. induction items as [|x items IH]; intros [|room] l E; cbn in E; try by injection E as <-.
  - done.
  - apply bind_Ret_inv in E as (a & _ & E). apply bind_Ret_inv in E as (l' & El & E).
    injection E as <-. cbn. by rewrite (IH room).
Qed.

Lemma fill_overrun {X A} room (f : X -> outcome A) items l : (room < length items)%nat -> fill room items f <> Ret l.
Proof.
  revert room l. induction items as [|x items IH]; intros [|room] l Hl E; cbn in Hl, E; [lia|lia|done|].
  apply bind_Ret_inv in E as (a & _ & E). apply bind_Ret_inv in E as (l' & El & E).
  apply (IH room l'); [lia|done].
Qed.

Definition api_json (a : ApiItem) : Json := JArray [JString (num a); JInt (api_id a)].

(** The answer to [chain_getRuntimeVersion], its members in the order of the map. *)
Definition rv_json (rv : RuntimeVersion) : Json :=
  JObject [(str "apis", JArray (api_json <$> api rv));
           (str "authoringVersion", JInt (authoringVersion rv));
           (str "implName", JString (implName rv));
           (str "implVersion", JInt (implVersion rv));
           (str "specName", JString (specName rv));
           (str "specVersion", JInt (specVersion rv))].

Definition rv_ok (rv : RuntimeVersion) : Prop :=
  fits (specName rv) /\ fits (implName rv) /\ 0 <= authoringVersion rv < 2 ^ 31
  /\ (length (api rv) <= COLLECTION_SIZE)%nat /\ Forall (fun a => fits (num a)) (api rv).

Lemma createRuntimeVersion_ok rv : rv_ok rv -> createRuntimeVersion (rv_json rv) = Ret rv.
Proof.
  destruct rv as [apis av impl iv spec sv]. intros (Hs & Hi & Hav & Hl & Ha).
  cbn [specName implName authoringVersion api] in *. unfold createRuntimeVersion.
  change (at_str (rv_json _) "specName") with (JString spec).
  change (at_str (rv_json _) "implName") with (JString impl).
  change (at_str (rv_json _) "authoringVersion") with (JInt av).
  change (at_str (rv_json _) "specVersion") with (JInt sv).
  change (at_str (rv_json _) "implVersion") with (JInt iv).
  change (at_str (rv_json _) "apis") with (JArray (api_json <$> apis)).
  rewrite !copy_string_fits by done. cbn [int_value array_items]. ostep.
  rewrite (fill_ok _ _ api_json); [|done|].
  - ostep. by rewrite uwrap_small by lia.
  - intros [n i] Hin. rewrite Forall_forall in Ha. unfold createApiItem. cbn [at_index api_json num api_id].
    change (default JNull ([JString n; JInt i] !! 0%nat)) with (JString n).
    change (default JNull ([JString n; JInt i] !! 1%nat)) with (JInt i).
    rewrite copy_string_fits by (apply (Ha _ Hin)). done.
Qed.

(** The answer to [chain_getRuntimeVersion] is read field by field: for every
    runtime version whose texts fit their arrays and that lists at most 64 APIs,
    [createRuntimeVersion] recovers it from its JSON form. *)
Theorem runtimeVersion_roundtrip rv : rv_ok rv -> createRuntimeVersion (rv_json rv) = Ret rv.
Proof. apply createRuntimeVersion_ok. Qed.

(** The answer to [chain_getBlock]. *)
Definition block_json (header extrinsics justification : Json) : Json :=
  JObject [(str "block", JObject [(str "extrinsics", extrinsics); (str "header", header)]);
           (str "justification", justification)].

(** Two answers are not read as the node means them. The number of a header
    from [chain_getHeader] is ignored, whatever it is (it is taken from the parent
    hash); and a block from [chain_getBlock] is read without its extrinsics,
    whatever they are. *)
Theorem block_answers_misread :
  (forall m n, createBlockHeader (JObject (map_set (str "number") n m)) = createBlockHeader (JObject m))
  /\ (forall h xs j b, createBlock (block_json h xs j) = Ret b -> extrinsic (block b) = []).
Proof.
  split.
  - intros m n. unfold createBlockHeader, createDigest, at_str. cbn [at_key].
    rewrite !map_find_set_ne by discriminate. done.
  - intros h xs j b E. unfold createBlock in E. apply bind_Ret_inv in E as (hd & _ & E).
    change (at_str (block_json h xs j) "extrinsics") with JNull in E. cbn [array_items fill] in E.
    apply bind_Ret_inv in E as (xs' & Exs & E). injection Exs as <-.
    apply bind_Ret_inv in E as (jt & _ & E). by injection E as <-.
Qed.

(** [getNetworkState] reports at most one peer that is not connected, whatever
    the node answers: every such peer is written over the one before. *)
Theorem one_notConnectedPeer j ns : createNetworkState j = Ret ns -> (length (notConnectedPeers ns) <= 1)%nat.
Proof.
  intros E. unfold createNetworkState in E.
  repeat (apply bind_Ret_inv in E as (? & _ & E)). injection E as <-. cbn. destruct x4; cbn; lia.
Qed.
End answers.

Definition sample_version : RuntimeVersion :=
  {| api := [{| num := str "0xdf6acb689907609b"; api_id := 2 |}; {| num := str "0x37e397fc7c91f5e4"; api_id := 1 |}];
     authoringVersion := 1; implName := str "parity-polkadot"; implVersion := 1; specName := str "polkadot";
     specVersion := 112 |}.

Lemma sample_version_ok : rv_ok sample_version.
Proof.
  assert (forall s, (length s <? STRING_SIZE)%nat && forallb (fun c => negb (c =? 0)) s = true -> fits s) as Hf.
  { intros s [Hl Hz]%andb_prop. split; [by apply Nat.ltb_lt|]. apply List.Forall_forall. intros c Hc.
    rewrite forallb_forall in Hz. specialize (Hz c Hc). by destruct (Z.eqb_spec c 0). }
  split; [by apply Hf|]. split; [by apply Hf|]. split; [done|]. split; [vm_compute; lia|].
  cbn [api sample_version]. apply List.Forall_cons; [by apply Hf|]. apply List.Forall_cons; [by apply Hf|]. done.
Qed.

Lemma runtimeVersion_roundtrip_witness :
  createRuntimeVersion (D := numeral_doubles) (rv_json sample_version) = Ret sample_version.
Proof.
  apply (runtimeVersion_roundtrip (D := numeral_doubles) sample_version). apply sample_version_ok.
Defined.

Definition two_peers : Json (H := numeral_doubles) :=
  JObject [(str "notConnectedPeers", JObject
    [(str "a", JObject [(str "knownAddresses", JArray [JString (str "x"); JString (str "y")])]);
     (str "b", JObject [(str "knownAddresses", JArray [JString (str "z")])])])].

Definition merged_state : NetworkState :=
  {| AverageDownloadPerSec := 0; AverageUploadPerSec := 0; connectedPeers := []; externalAddresses := [];
     listenedAddresses := [];
     notConnectedPeers := [{| ncp_key := str "b"; ncp_knownAddresses := [str "z"; str "y"] |}];
     ns_peerId := []; peerset := [] |}.

Lemma one_notConnectedPeer_witness :
  createNetworkState (D := numeral_doubles) two_peers = Ret merged_state
  /\ (length (notConnectedPeers merged_state) <= 1)%nat.
Proof.
  split; [vm_compute; reflexivity|].
  apply (one_notConnectedPeer (D := numeral_doubles) two_peers). vm_compute. reflexivity.
Defined.

(** An answer to [system_peers] is bounded: of more than 256 peers (and fewer
    than 2^31) [createPeerInfo] makes an error that names their number, and the
    peers it returns are as many as the node listed. *)
Theorem createPeerInfo_bounded `{D : Doubles} items :
  Z.of_nat (length items) < 2 ^ 31 ->
  (MAX_PEER_COUNT < length items)%nat /\ createPeerInfo (JArray items)
    = Throw (ApplicationException (too_many_peers (Z.of_nat (length items))))
  \/ (length items <= MAX_PEER_COUNT)%nat /\ forall ps, createPeerInfo (JArray items) = Ret ps ->
       count ps = Z.of_nat (length items) /\ length (peers ps) = length items.
Proof.
  intros Hl. unfold createPeerInfo. cbn [array_items]. rewrite (swrap_small 32) by (cbn; lia).
  destruct (Z.ltb_spec (Z.of_nat MAX_PEER_COUNT) (Z.of_nat (length items))) as [H|H]; [left; split; [lia|done]|].
  right. split; [lia|]. intros ps E. apply bind_Ret_inv in E as (l & El & E). injection E as <-. cbn.
  split; [done|]. by apply fill_length in El.
Qed.

Lemma createPeerInfo_bounded_witness :
  let items := replicate 257 (JNull (H := numeral_doubles)) in
  (MAX_PEER_COUNT < length items)%nat /\ createPeerInfo (JArray items)
    = Throw (ApplicationException (too_many_peers (Z.of_nat (length items))))
  \/ (length items <= MAX_PEER_COUNT)%nat /\ forall ps, createPeerInfo (JArray items) = Ret ps ->
       count ps = Z.of_nat (length items) /\ length (peers ps) = length items.
Proof. intros items. apply (createPeerInfo_bounded (D := numeral_doubles) items). vm_compute. reflexivity. Defined.

(** A block with one extrinsic, and what is read of it. *)
Definition sample_header : Json (H := numeral_doubles) :=
  JObject [(str "number", JString (str "0x12")); (str "parentHash", JString (str "0x01"))].

Definition read_block : SignedBlock :=
  {| block := {| header := {| parentHash := str "0x01"; number := 18; stateRoot := []; extrinsicsRoot := [];
                              digest := [] |};
                 extrinsic := [] |};
     justification := [] |}.

Lemma block_answers_misread_witness :
  createBlock (D := numeral_doubles) (block_json sample_header (JArray [JString (str "0x0102")]) JNull) = Ret read_block
  /\ extrinsic (block read_block) = [].
Proof.
  split; [vm_compute; reflexivity|].
  apply (proj2 (block_answers_misread (D := numeral_doubles)) sample_header (JArray [JString (str "0x0102")]) JNull).
  vm_compute. reflexivity.
Defined.
