(* ===== verification/Api.v ===== *)
(** The API object: [CPolkaApi] of [src/application.cpp] and [src/application.h].

    The state holds the object, the JSON-RPC client below it (any instance of
    [IJsonRpc]) and the calls made to the application's callbacks. Members that
    the constructor does not set are [None] until they are assigned.

    Updates of subscriptions are handled between the calls of the application,
    and while [getAccountNonce] waits; the client lists those that have arrived.
    [Races] lets them be handled while a subscription is being made. *)
From stdpp Require Import functions.
From S2P Require Import Prelude Scale Converters Address Json Storage Metadata Lookup Decode Extrinsic.

(** ** Callbacks *)

(** A function of the application, and the two functions of the API itself: they
    store the number of the best block, and the nonce [getAccountNonce] waits for. *)
Inductive callback : Type := User (name : nat) | SetBestBlock | SetNonce.

Record Era : Type := { eraProgress : Z; eraLength : Z }.
Record SessionOrEpoch : Type := {
  isEpoch : bool; sessionLength : option Z; sessionProgress : option Z;
  epochProgress : option Z; epochLength : option Z }.

(** What a callback is called with. *)
Inductive update : Type :=
| BlockNumber (n : Z)
| AccountNonce (n : Z)
| Balance (n : Z)
| ExtrinsicStatus (s : text)
| TransferStatus (s : text)
| EraAndSession (e : Era) (s : SessionOrEpoch)
| FinalizedBlock (h : BlockHeader)
| RuntimeUpdate (rv : RuntimeVersion)
| StorageValue (s : text).

(** ** The object *)

(** The subscriptions of which there is one each, with the members
    [_xSubscriber] and [_xSubscriptionId], and those kept per address or key. *)
Inductive slot_name : Type :=
| BlockNumberSlot | ExtrinsicSlot | TransferSlot | EraSlot | FinalizedSlot | RuntimeSlot.
Inductive table_name : Type := NonceTable | BalanceTable | StorageTable.

#[export] Instance slot_name_eq_dec : EqDecision slot_name.
Proof. solve_decision. Defined.
#[export] Instance table_name_eq_dec : EqDecision table_name.
Proof. solve_decision. Defined.

Record slot : Type := { subscriber : option callback; subscriptionId : option Z }.
Record table : Type := { subscribers : smap (option callback); subscriptionIds : smap Z }.

Record ProtocolParameters : Type := {
  FreeBalanceHasher : option Hasher;
  FreeBalancePrefix : text;
  BalanceModuleIndex : option Z;
  TransferMethodIndex : option Z;
  GenesisBlockHash : option (list Z);
  metadata : option Metadata;
}.

(** Storage keys and constants for eras, epochs and sessions; the keys are the
    members [_storageKeyX]. *)
Inductive era_key : Type :=
| CurrentEra | SessionsPerEra | CurrentSessionIndex | BabeGenesisSlot | BabeCurrentSlot | BabeEpochIndex.

#[export] Instance era_key_eq_dec : EqDecision era_key.
Proof. solve_decision. Defined.

Record EraParameters : Type := {
  storageKey : era_key -> text;
  babeEpochDuration : option Z;
  sessionsPerEra : option Z;
  isEpochBased : option bool;
}.

Record CPolkaApi : Type := {
  protocolPrm : ProtocolParameters;
  bestBlockNum : Z;
  slots : slot_name -> slot;
  tables : table_name -> table;
  eraPrm : EraParameters;
}.

(** The constructor sets two of the six subscription ids. *)
Definition newCPolkaApi : CPolkaApi := {|
  protocolPrm := {| FreeBalanceHasher := None; FreeBalancePrefix := []; BalanceModuleIndex := None;
                    TransferMethodIndex := None; GenesisBlockHash := None; metadata := None |};
  bestBlockNum := -1;
  slots := fun s =>
    match s with
    | BlockNumberSlot | EraSlot => {| subscriber := None; subscriptionId := Some 0 |}
    | _ => {| subscriber := None; subscriptionId := None |}
    end;
  tables := fun _ => {| subscribers := []; subscriptionIds := [] |};
  eraPrm := {| storageKey := fun _ => []; babeEpochDuration := None; sessionsPerEra := None; isEpochBased := None |};
|}.

Definition set_protocolPrm (p : ProtocolParameters) (a : CPolkaApi) : CPolkaApi :=
  {| protocolPrm := p; bestBlockNum := bestBlockNum a; slots := slots a; tables := tables a; eraPrm := eraPrm a |}.
Definition set_bestBlockNum (n : Z) (a : CPolkaApi) : CPolkaApi :=
  {| protocolPrm := protocolPrm a; bestBlockNum := n; slots := slots a; tables := tables a; eraPrm := eraPrm a |}.
Definition set_slot (s : slot_name) (v : slot) (a : CPolkaApi) : CPolkaApi :=
  {| protocolPrm := protocolPrm a; bestBlockNum := bestBlockNum a; slots := <[s := v]> (slots a);
     tables := tables a; eraPrm := eraPrm a |}.
Definition set_table (t : table_name) (v : table) (a : CPolkaApi) : CPolkaApi :=
  {| protocolPrm := protocolPrm a; bestBlockNum := bestBlockNum a; slots := slots a;
     tables := <[t := v]> (tables a); eraPrm := eraPrm a |}.
Definition set_eraPrm (e : EraParameters) (a : CPolkaApi) : CPolkaApi :=
  {| protocolPrm := protocolPrm a; bestBlockNum := bestBlockNum a; slots := slots a; tables := tables a; eraPrm := e |}.

(** ** The JSON-RPC client: [src/interfaces/ijsonrpc.h] *)

(** Each operation is a call on the client. [rpc_inbox] lists the updates of
    subscriptions that have arrived, with their subscription id. *)
Class IJsonRpc `{Doubles} := {
  rpc : Type;
  rpc_connect : text -> call rpc Z;
  rpc_disconnect : call rpc unit;
  rpc_request : Json -> Z -> call rpc Json;
  rpc_subscribeWs : Json -> call rpc Z;
  rpc_unsubscribeWs : Z -> text -> call rpc Z;
  rpc_inbox : rpc -> list (Z * Json);
  rpc_set_inbox : list (Z * Json) -> rpc -> rpc;
}.

Definition PAPI_OK : Z := 0.
Definition RESPONSE_TIMEOUT_S : Z := 10.

Section api.
Context `{D : Doubles} `{J : !IJsonRpc} `{W : StdWhat}.

(** ** State and effects *)

(** [nonceDone] is the [result] of [getAccountNonce], once it is done. *)
Record state : Type := {
  polka : CPolkaApi;
  node : rpc;
  calls : list (nat * update);
  nonceDone : option Z;
}.

Definition M : Type -> Type := call state.

#[global] Instance M_ret : MRet M := call_ret state.
#[global] Instance M_bind : MBind M := call_bind state.

Definition run {A} (m : outcome A) : M A := fun st => Some (m, st).
Definition this : M CPolkaApi := fun st => Some (Ret (polka st), st).
Definition modify (f : CPolkaApi -> CPolkaApi) : M unit := fun st =>
  Some (Ret tt, {| polka := f (polka st); node := node st; calls := calls st; nonceDone := nonceDone st |}).
Definition set_node (n : rpc) (st : state) : state :=
  {| polka := polka st; node := n; calls := calls st; nonceDone := nonceDone st |}.
Definition set_nonceDone (o : option Z) (st : state) : state :=
  {| polka := polka st; node := node st; calls := calls st; nonceDone := o |}.
Definition add_call (c : nat) (u : update) (st : state) : state :=
  {| polka := polka st; node := node st; calls := calls st ++ [(c, u)]; nonceDone := nonceDone st |}.
Definition on_node {A} (m : call rpc A) : M A := on_part node set_node m.

Definition request (q : Json) (timeout_s : Z) : M Json := on_node (rpc_request q timeout_s).
Definition subscribeWs (q : Json) : M Z := on_node (rpc_subscribeWs q).
Definition unsubscribeWs (id : Z) (method : text) : M Z := on_node (rpc_unsubscribeWs id method).

(** [Json::object{{"method", method}, {"params", Json::array{params}}}] *)
Definition query (method : String.string) (params : list Json) : Json :=
  JObject [(str "method", JString (str method)); (str "params", JArray params)].

(** ** Calling a callback

    An empty [std::function] throws. The two callbacks of the API are only ever
    registered for block numbers and nonces. *)
Definition invoke (cb : option callback) (u : update) : M unit := fun st =>
  match cb with
  | None => Some (Throw bad_function_call, st)
  | Some (User c) => Some (Ret tt, add_call c u st)
  | Some SetBestBlock => match u with BlockNumber n => modify (set_bestBlockNum n) st | _ => Some (Ret tt, st) end
  | Some SetNonce => match u with AccountNonce n => Some (Ret tt, set_nonceDone (Some n) st) | _ => Some (Ret tt, st) end
  end.

Definition get_slot (s : slot_name) : M slot := a ← this; mret (slots a s).
Definition get_table (t : table_name) : M table := a ← this; mret (tables a t).

(** Reading a member that may not have been assigned. *)
Definition slot_id (s : slot_name) : M Z := v ← get_slot s; run (written (subscriptionId v)).
Definition invoke_slot (s : slot_name) (u : update) : M unit := v ← get_slot s; invoke (subscriber v) u.

(** [_subscribers[key](...)]: the operator inserts an empty function if there is none. *)
Definition invoke_keyed (t : table_name) (key : text) (u : update) : M unit :=
  v ← get_table t;
  match map_find key (subscribers v) with
  | Some cb => invoke cb u
  | None =>
      modify (set_table t {| subscribers := map_set key None (subscribers v); subscriptionIds := subscriptionIds v |});;
      invoke None u
  end.

(** ** Updates of subscriptions *)

(** [for (auto const &sid : ids) if (sid.second == subscriptionId)]: the first key. *)
Definition key_of_id (id : Z) (ids : smap Z) : option text :=
  fst ∘ snd <$> list_find (fun kv => kv.2 = id) ids.

(** [message["changes"][i][j]] *)
Definition change (message : Json) (i j : nat) : Json := at_index (at_index (at_str message "changes") i) j.

(** [if (!x.is_null()) v = fromHex<long long>(x.string_value(), false)] with [v = 0] before *)
Definition read_change (message : Json) (i : nat) : outcome Z :=
  if is_null (change message i 1) then Ret 0 else fromHex LongLong (string_value (change message i 1)) false.

(** [a % b] on [long long] *)
Definition rem64 (a b : Z) : outcome Z :=
  if (b =? 0) || ((a =? - 2 ^ 63) && (b =? -1)) then UB else Ret (Z.rem a b).

Definition epoch_update (p : EraParameters) (message : Json) : outcome (Era * SessionOrEpoch) :=
  epochIndex ← read_change message 0;
  epochOrGenesisStartSlot ← read_change message 1;
  currentSlot ← read_change message 2;
  duration ← written (babeEpochDuration p);
  perEra ← written (sessionsPerEra p);
  offset ← chk64 (duration * epochIndex);
  epochStartSlot ← chk64 (offset + epochOrGenesisStartSlot);
  progress ← chk64 (currentSlot - epochStartSlot);
  r ← rem64 epochIndex perEra;
  done ← chk64 (r * duration);
  era ← chk64 (done + progress);
  eraDuration ← chk64 (perEra * duration);
  Ret ({| eraProgress := era; eraLength := eraDuration |},
       {| isEpoch := true; sessionLength := None; sessionProgress := None;
          epochProgress := Some progress; epochLength := Some duration |}).

(** Nothing is reported while one of the five values is missing. *)
Definition session_update (bestBlock : Z) (message : Json) : outcome (option (Era * SessionOrEpoch)) :=
  lastLengthChange ← read_change message 0;
  length ← read_change message 1;
  currentEra ← read_change message 2;
  perEra ← read_change message 3;
  currentIndex ← read_change message 4;
  if (0 <? lastLengthChange) && (0 <? length) && (0 <? currentEra) && (0 <? perEra) && (0 <? currentIndex) then
    since ← chk64 (bestBlock - lastLengthChange);
    since ← chk64 (since + length);
    progress ← rem64 since length;
    r ← rem64 currentIndex perEra;
    done ← chk64 (r * length);
    era ← chk64 (done + progress);
    total ← chk64 (perEra * length);
    Ret (Some ({| eraProgress := era; eraLength := total |},
               {| isEpoch := false; sessionLength := Some length; sessionProgress := Some progress;
                  epochProgress := None; epochLength := None |}))
  else Ret None.

(** [s.find(sub) != npos] *)
Fixpoint contains (sub s : text) : bool :=
  bool_decide (take (length sub) s = sub) || match s with [] => false | _ :: s' => contains sub s' end.

Definition cleared : slot := {| subscriber := None; subscriptionId := Some 0 |}.

(** The last subscriptions that are looked at: finalized heads, runtime versions and
    storage. *)
Definition handle_last (subscription : Z) (message : Json) : M unit :=
  finalizedId ← slot_id FinalizedSlot;
  if finalizedId =? subscription then
    h ← run (decodeBlockHeader message);
    invoke_slot FinalizedSlot (FinalizedBlock h)
  else
  runtimeId ← slot_id RuntimeSlot;
  if runtimeId =? subscription then
    rv ← run (createRuntimeVersion message);
    invoke_slot RuntimeSlot (RuntimeUpdate rv)
  else
  a ← this;
  match key_of_id subscription (subscriptionIds (tables a StorageTable)) with
  | Some key => invoke_keyed StorageTable key (StorageValue (string_value (change message 0 1)))
  | None => mret tt
  end.

(** Eras and sessions, once the best block is known. *)
Definition handle_era (subscription : Z) (message : Json) : M unit :=
  a ← this;
  eraId ← slot_id EraSlot;
  if (eraId =? subscription) && negb (bestBlockNum a =? -1) then
    epochs ← run (written (isEpochBased (eraPrm a)));
    if epochs : bool then
      es ← run (epoch_update (eraPrm a) message);
      invoke_slot EraSlot (EraAndSession es.1 es.2)
    else
      o ← run (session_update (bestBlockNum a) message);
      match o with
      | Some es => invoke_slot EraSlot (EraAndSession es.1 es.2)
      | None => mret tt
      end
  else handle_last subscription message.

(** The two subscriptions of extrinsics. *)
Definition handle_extrinsics (subscription : Z) (message : Json) : M unit :=
  extrinsicId ← slot_id ExtrinsicSlot;
  if extrinsicId =? subscription then invoke_slot ExtrinsicSlot (ExtrinsicStatus (dump message))
  else
  transferId ← slot_id TransferSlot;
  if transferId =? subscription then
    if contains (str "ready") (dump message) then invoke_slot TransferSlot (TransferStatus (str "ready"))
    else if contains (str "finalized") (dump message) then
      invoke_slot TransferSlot (TransferStatus (str "finalized"));;
      modify (set_slot TransferSlot cleared)
    else mret tt
  else handle_era subscription message.

Definition handleWsMessage (subscription : Z) (message : Json) : M unit :=
  a ← this;
  blockId ← slot_id BlockNumberSlot;
  if blockId =? subscription then
    n ← run (fromHex LongLong (string_value (at_str message "number")) true);
    invoke_slot BlockNumberSlot (BlockNumber n)
  else
  match key_of_id subscription (subscriptionIds (tables a NonceTable)) with
  | Some key =>
      n ← run (fromHex UnsignedLong (string_value (change message 0 1)) false);
      invoke_keyed NonceTable key (AccountNonce n)
  | None =>
  match key_of_id subscription (subscriptionIds (tables a BalanceTable)) with
  | Some key =>
      n ← run (fromHex UInt128 (string_value (change message 0 1)) false);
      invoke_keyed BalanceTable key (Balance n)
  | None => handle_extrinsics subscription message
  end
  end.

(** ** Subscribing and unsubscribing

    The single subscriptions repeat one body, and so do those per key. *)

Definition set_subscriber (s : slot_name) (cb : callback) : M unit :=
  v ← get_slot s;
  modify (set_slot s {| subscriber := Some cb; subscriptionId := subscriptionId v |}).

Definition set_slot_id (s : slot_name) (id : Z) : M unit :=
  v ← get_slot s;
  modify (set_slot s {| subscriber := subscriber v; subscriptionId := Some id |}).

(** [if (!id) id = _jsonRpc->subscribeWs(q, this)] *)
Definition subscribe_once (s : slot_name) (q : Json) : M unit :=
  id ← slot_id s;
  if id =? 0 then newId ← subscribeWs q; set_slot_id s newId else mret tt.

Definition subscribe_slot (s : slot_name) (q : Json) (cb : callback) : M Z :=
  set_subscriber s cb;; subscribe_once s q;; mret PAPI_OK.

Definition unsubscribe_slot (s : slot_name) (method : String.string) : M Z :=
  id ← slot_id s;
  (if id =? 0 then mret tt else unsubscribeWs id (str method);; modify (set_slot s cleared));;
  mret PAPI_OK.

(** [_ids[key] = _jsonRpc->subscribeWs(q, this)]: the request comes before the
    entry is made (C++ leaves the order open). *)
Definition subscribe_keyed (t : table_name) (key : text) (q : M Json) (cb : callback) : M Z :=
  v ← get_table t;
  modify (set_table t {| subscribers := map_set key (Some cb) (subscribers v); subscriptionIds := subscriptionIds v |});;
  match map_find key (subscriptionIds v) with
  | Some _ => mret PAPI_OK
  | None =>
      q ← q;
      id ← subscribeWs q;
      v ← get_table t;
      modify (set_table t {| subscribers := subscribers v; subscriptionIds := map_set key id (subscriptionIds v) |});;
      mret PAPI_OK
  end.

Definition unsubscribe_keyed (t : table_name) (key : text) (method : String.string) : M Z :=
  v ← get_table t;
  match map_find key (subscriptionIds v) with
  | Some id =>
      unsubscribeWs id (str method);;
      v ← get_table t;
      modify (set_table t {| subscribers := map_erase key (subscribers v);
                             subscriptionIds := map_erase key (subscriptionIds v) |});;
      mret PAPI_OK
  | None => mret PAPI_OK
  end.

Definition subscribeBlockNumber (cb : callback) : M Z :=
  subscribe_slot BlockNumberSlot (query "chain_subscribeNewHead" []) cb.
Definition unsubscribeBlockNumber : M Z := unsubscribe_slot BlockNumberSlot "chain_unsubscribeNewHead".

Definition LAST_LENGTH_CHANGE_SUBSCRIPTION : text := str "0xe781aa1e06ea53e01a4e129e0496764e".
Definition SESSION_LENGTH_SUBSCRIPTION : text := str "0xd9c94b41dc87728ebf0a966d2e9ad9c0".

Definition subscribeEraAndSession (cb : callback) : M Z :=
  set_subscriber EraSlot cb;;
  subscribeBlockNumber SetBestBlock;;
  a ← this;
  let p := eraPrm a in
  epochs ← run (written (isEpochBased p));
  let keys :=
    if epochs : bool then [storageKey p BabeEpochIndex; storageKey p BabeGenesisSlot; storageKey p BabeCurrentSlot]
    else [LAST_LENGTH_CHANGE_SUBSCRIPTION; SESSION_LENGTH_SUBSCRIPTION; storageKey p CurrentEra;
          storageKey p SessionsPerEra; storageKey p CurrentSessionIndex] in
  subscribe_once EraSlot (query "state_subscribeStorage" [JArray (JString <$> keys)]);;
  mret PAPI_OK.

Definition unsubscribeEraAndSession : M Z :=
  unsubscribe_slot EraSlot "state_unsubscribeStorage";;
  unsubscribeBlockNumber;;
  mret PAPI_OK.

(** [state_subscribeStorage] for the key of an account; the first 48 characters of
    the address are copied. *)
Definition account_query (address : text) (prefix : String.string) : M Json :=
  a ← this;
  symbols ← run (read_n (address ++ [0]) 0 ADDRESS_LENGTH);
  hasher ← run (written (FreeBalanceHasher (protocolPrm a)));
  storageKey ← run (getAddressStorageKey hasher {| symbols := symbols |} (str prefix));
  mret (query "state_subscribeStorage" [JArray [JString storageKey]]).

Definition subscribeBalance (address : text) (cb : callback) : M Z :=
  subscribe_keyed BalanceTable address (account_query address "Balances FreeBalance") cb.
Definition unsubscribeBalance (address : text) : M Z :=
  unsubscribe_keyed BalanceTable address "state_unsubscribeStorage".

Definition subscribeAccountNonce (address : text) (cb : callback) : M Z :=
  subscribe_keyed NonceTable address (account_query address "System AccountNonce") cb.
Definition unsubscribeAccountNonce (address : text) : M Z :=
  unsubscribe_keyed NonceTable address "state_unsubscribeStorage".

Definition subscribeFinalizedBlock (cb : callback) : M Z :=
  subscribe_slot FinalizedSlot (query "chain_subscribeFinalizedHeads" []) cb.
Definition unsubscribeFinalizedBlock : M Z := unsubscribe_slot FinalizedSlot "chain_unsubscribeFinalizedHeads".

Definition subscribeRuntimeVersion (cb : callback) : M Z :=
  subscribe_slot RuntimeSlot (query "state_subscribeRuntimeVersion" []) cb.
Definition unsubscribeRuntimeVersion : M Z := unsubscribe_slot RuntimeSlot "state_unsubscribeRuntimeVersion".

Definition subscribeStorage (key : text) (cb : callback) : M Z :=
  subscribe_keyed StorageTable key (mret (query "state_subscribeStorage" [JArray [JString key]])) cb.
Definition unsubscribeStorage (key : text) : M Z :=
  unsubscribe_keyed StorageTable key "state_unsubscribeStorage".

(** ** getAccountNonce *)

(** [while (!done) usleep(10000)]: the updates that have arrived are handled in
    turn; when none is left and the nonce has not come, the call never returns. *)
Fixpoint wait_nonce (inbox : list (Z * Json)) : M Z := fun st =>
  match nonceDone st with
  | Some n => Some (Ret n, set_node (rpc_set_inbox inbox (node st)) st)
  | None =>
      match inbox with
      | [] => None
      | (id, message) :: inbox' => (handleWsMessage id message;; wait_nonce inbox') st
      end
  end.

Definition getAccountNonce (address : text) : M Z :=
  (fun st => Some (Ret tt, set_nonceDone None st));;
  subscribeAccountNonce address SetNonce;;
  result ← (fun st => wait_nonce (rpc_inbox (node st)) st);
  unsubscribeAccountNonce address;;
  mret result.

(** ** Requests *)

(** The request and [deserialize<T, F>] of its answer. *)
Definition get {A} (q : Json) (F : Json -> outcome A) : M A :=
  response ← request q RESPONSE_TIMEOUT_S;
  run (deserialize F response).

(** [Json::array{params->blockHash}] when there are parameters *)
Definition hash_param (params : option text) : list Json :=
  match params with Some h => [JString (cstr h)] | None => [] end.

Definition getSystemInfo : M SystemInfo :=
  systemNameJson ← request (query "system_name" []) RESPONSE_TIMEOUT_S;
  systemChainJson ← request (query "system_chain" []) RESPONSE_TIMEOUT_S;
  systemVersionJson ← request (query "system_version" []) RESPONSE_TIMEOUT_S;
  systemPropertiesJson ← request (query "system_properties" []) RESPONSE_TIMEOUT_S;
  run (deserialize createSystemInfo
    (JArray [systemNameJson; systemChainJson; systemVersionJson; systemPropertiesJson])).

Definition getBlockHash (blockNumber : option Z) : M BlockHash :=
  get (query "chain_getBlockHash" (match blockNumber with Some n => [JInt n] | None => [] end)) createBlockHash.
Definition getMetadata (params : option text) : M Metadata :=
  get (query "state_getMetadata" (hash_param params)) createMetadata.
Definition getRuntimeVersion (params : option text) : M RuntimeVersion :=
  get (query "chain_getRuntimeVersion" (hash_param params)) createRuntimeVersion.
Definition getBlock (params : option text) : M SignedBlock :=
  get (query "chain_getBlock" (hash_param params)) createBlock.
Definition getBlockHeader (params : option text) : M BlockHeader :=
  get (query "chain_getHeader" (hash_param params)) createBlockHeader.
Definition getSystemHealth : M SystemHealth := get (query "system_health" []) createSystemHealth.
Definition getFinalizedHead : M FinalHead := get (query "chain_getFinalizedHead" []) createFinalHead.
Definition getSystemPeers : M PeersInfo := get (query "system_peers" []) createPeerInfo.
Definition getNetworkState : M NetworkState := get (query "system_networkState" []) createNetworkState.

(** [*_protocolPrm.metadata] *)
Definition the_metadata : M Metadata := a ← this; run (written (metadata (protocolPrm a))).

Definition getKeys (jsonPrm module variable : text) : M text :=
  meta ← the_metadata;
  moduleIndex ← run (getModuleIndex meta module false);
  if moduleIndex =? -1 then run (Throw (ApplicationException (str "Module not found")))
  else
  variableIndex ← run (getStorageMethodIndex meta moduleIndex variable);
  if variableIndex =? -1 then run (Throw (ApplicationException (str "Variable not found")))
  else
  plain ← run (isStateVariablePlain meta moduleIndex variableIndex);
  a ← this;
  hasher ← run (written (FreeBalanceHasher (protocolPrm a)));
  run (if plain : bool then getPlainStorageKey hasher (module ++ str " " ++ variable)
       else getMappedStorageKey hasher jsonPrm (module ++ str " " ++ variable)).

(** A query about a key at the head of the chain. *)
Definition ask_at_head (method : String.string) (params : M (list Json)) : M Json :=
  headHash ← getBlockHash None;
  ps ← params;
  request (query method (ps ++ [JString (hash headHash)])) RESPONSE_TIMEOUT_S.

Definition key_param (jsonPrm module variable : text) : M (list Json) :=
  key ← getKeys jsonPrm module variable; mret [JString key].

Definition getStorage (jsonPrm module variable : text) : M text :=
  response ← ask_at_head "state_getStorage" (key_param jsonPrm module variable);
  mret (string_value response).
Definition getStorageHash (jsonPrm module variable : text) : M text :=
  response ← ask_at_head "state_getStorageHash" (key_param jsonPrm module variable);
  mret (string_value response).
Definition getStorageSize (jsonPrm module variable : text) : M Z :=
  response ← ask_at_head "state_getStorageSize" (key_param jsonPrm module variable);
  run (int_value response).

Definition child_params (childStorageKey storageKey : text) : M (list Json) :=
  mret [JString childStorageKey; JString storageKey].

Definition getChildKeys (childStorageKey storageKey : text) : M text :=
  response ← ask_at_head "state_getChildKeys" (child_params childStorageKey storageKey);
  mret (string_value response).
Definition getChildStorage (childStorageKey storageKey : text) : M text :=
  response ← ask_at_head "state_getChildStorage" (child_params childStorageKey storageKey);
  mret (string_value response).
Definition getChildStorageHash (childStorageKey storageKey : text) : M text :=
  response ← ask_at_head "state_getChildStorageHash" (child_params childStorageKey storageKey);
  mret (string_value response).
Definition getChildStorageSize (childStorageKey storageKey : text) : M Z :=
  response ← ask_at_head "state_getChildStorageSize" (child_params childStorageKey storageKey);
  run (int_value response).

Definition stateCall (name data hash : text) : M text :=
  response ← request (query "state_call" [JString name; JString data; JString hash]) RESPONSE_TIMEOUT_S;
  mret (dump response).

(** The items written to the caller's buffer; their number is returned. *)
Definition queryStorage (key startHash stopHash : text) (itemBufSize : Z) : M (list StorageItem) :=
  response ← request (query "state_queryStorage" [JArray [JString key]; JString startHash; JString stopHash]) 30;
  run (query_items response (Z.to_nat itemBufSize) 0).

Definition pendingExtrinsics (slack : list Z) (bufferSize : Z) : M (Z * list GenericExtrinsic) :=
  response ← request (query "author_pendingExtrinsics" []) RESPONSE_TIMEOUT_S;
  run (read_pending_all slack bufferSize 0 (string_value <$> array_items response)).

Definition removeExtrinsic (extrinsicHash : text) : M bool :=
  response ← request (query "author_removeExtrinsic" [JString extrinsicHash]) RESPONSE_TIMEOUT_S;
  if is_null response then run (Throw (ApplicationException (str "Not supported"))) else mret false.

Definition disconnect : M unit := on_node rpc_disconnect.

(** ** connect *)

Definition set_prm (f : ProtocolParameters -> ProtocolParameters) : M unit :=
  modify (fun a => set_protocolPrm (f (protocolPrm a)) a).
Definition set_era (f : EraParameters -> EraParameters) : M unit := modify (fun a => set_eraPrm (f (eraPrm a)) a).

(** The byte of a hash text; past its end the array holds zeros. *)
Definition hash_byte (h : text) (i : nat) : Z := fromHexByte (nth (2 + i * 2) h 0) (nth (3 + i * 2) h 0).

Definition set_key (k : era_key) (v : text) : M unit :=
  set_era (fun e => {| storageKey := <[k := v]> (storageKey e); babeEpochDuration := babeEpochDuration e;
                       sessionsPerEra := sessionsPerEra e; isEpochBased := isEpochBased e |}).

(** [getMetadataConst] on the metadata of the object *)
Definition metadata_const (module name : String.string) : M Z :=
  meta ← the_metadata; run (getMetadataConst meta (str module) (str name)).

(** The body of the [try] block: what is assigned before an exception stays. *)
Definition read_babe : M unit :=
  k ← getKeys [] (str "Babe") (str "GenesisSlot");
  set_key BabeGenesisSlot k;;
  k ← getKeys [] (str "Babe") (str "CurrentSlot");
  set_key BabeCurrentSlot k;;
  k ← getKeys [] (str "Babe") (str "EpochIndex");
  set_key BabeEpochIndex k;;
  n ← metadata_const "Staking" "SessionsPerEra";
  set_era (fun e => {| storageKey := storageKey e; babeEpochDuration := babeEpochDuration e;
                       sessionsPerEra := Some n; isEpochBased := isEpochBased e |});;
  n ← metadata_const "Babe" "EpochDuration";
  set_era (fun e => {| storageKey := storageKey e; babeEpochDuration := Some n;
                       sessionsPerEra := sessionsPerEra e; isEpochBased := isEpochBased e |}).

(** [try { m } catch (ApplicationException) {}] *)
Definition catch_application (m : M unit) : M unit := fun st =>
  match m st with
  | Some (Throw (ApplicationException _), st') => Some (Ret tt, st')
  | r => r
  end.

Definition plain_key (name : String.string) : M text :=
  a ← this;
  hasher ← run (written (FreeBalanceHasher (protocolPrm a)));
  run (getPlainStorageKey hasher (str name)).

Definition connect (node_url : text) : M Z :=
  result ← on_node (rpc_connect node_url);
  genesisHashStr ← getBlockHash (Some 0);
  set_prm (fun p => {| FreeBalanceHasher := FreeBalanceHasher p; FreeBalancePrefix := FreeBalancePrefix p;
    BalanceModuleIndex := BalanceModuleIndex p; TransferMethodIndex := TransferMethodIndex p;
    GenesisBlockHash := Some (hash_byte (hash genesisHashStr) <$> seq 0 BLOCK_HASH_SIZE); metadata := metadata p |});;
  meta ← getMetadata None;
  set_prm (fun p => {| FreeBalanceHasher := FreeBalanceHasher p; FreeBalancePrefix := FreeBalancePrefix p;
    BalanceModuleIndex := BalanceModuleIndex p; TransferMethodIndex := TransferMethodIndex p;
    GenesisBlockHash := GenesisBlockHash p; metadata := Some meta |});;
  hasher ← run (getFuncHasher meta (str "Balances") (str "FreeBalance"));
  set_prm (fun p => {| FreeBalanceHasher := Some hasher; FreeBalancePrefix := str "Balances FreeBalance";
    BalanceModuleIndex := BalanceModuleIndex p; TransferMethodIndex := TransferMethodIndex p;
    GenesisBlockHash := GenesisBlockHash p; metadata := metadata p |});;
  moduleIndex ← run (getModuleIndex meta (str "Balances") true);
  set_prm (fun p => {| FreeBalanceHasher := FreeBalanceHasher p; FreeBalancePrefix := FreeBalancePrefix p;
    BalanceModuleIndex := Some moduleIndex; TransferMethodIndex := TransferMethodIndex p;
    GenesisBlockHash := GenesisBlockHash p; metadata := metadata p |});;
  absoluteIndex ← run (getModuleIndex meta (str "Balances") false);
  methodIndex ← run (getCallMethodIndex meta absoluteIndex (str "transfer"));
  set_prm (fun p => {| FreeBalanceHasher := FreeBalanceHasher p; FreeBalancePrefix := FreeBalancePrefix p;
    BalanceModuleIndex := BalanceModuleIndex p; TransferMethodIndex := Some methodIndex;
    GenesisBlockHash := GenesisBlockHash p; metadata := metadata p |});;
  k ← plain_key "Staking CurrentEra"; set_key CurrentEra k;;
  k ← plain_key "Staking SessionsPerEra"; set_key SessionsPerEra k;;
  k ← plain_key "Session CurrentIndex"; set_key CurrentSessionIndex k;;
  catch_application read_babe;;
  set_era (fun e => {| storageKey := storageKey e; babeEpochDuration := babeEpochDuration e;
                       sessionsPerEra := sessionsPerEra e;
                       isEpochBased := Some (negb (bool_decide (storageKey e BabeGenesisSlot = []))) |});;
  mret result.

(** ** Submitting extrinsics *)

Section submit.
Context (sr25519_sign : list Z -> list Z -> list Z -> list Z).

(** The indexes of module and method, and the genesis hash. *)
Definition call_indexes (module method : text) : M (Z * Z * list Z) :=
  meta ← the_metadata;
  absoluteIndex ← run (getModuleIndex meta module false);
  moduleIndex ← run (getModuleIndex meta module true);
  methodIndex ← run (getCallMethodIndex meta absoluteIndex method);
  a ← this;
  genesis ← run (written (GenesisBlockHash (protocolPrm a)));
  mret (moduleIndex, methodIndex, genesis).

Definition submitAndSubcribeExtrinsic (encodedMethodBytes module method sender privateKey : text)
    (cb : callback) : M unit :=
  nonce ← getAccountNonce sender;
  _ ← run (encodeCompactInteger nonce);
  '(moduleIndex, methodIndex, genesis) ← call_indexes module method;
  teStr ← run (watch_text sr25519_sign nonce moduleIndex methodIndex encodedMethodBytes sender privateKey genesis);
  set_subscriber ExtrinsicSlot cb;;
  id ← subscribeWs (query "author_submitAndWatchExtrinsic" [JString teStr]);
  set_slot_id ExtrinsicSlot id.

Definition submitExtrinsic (encodedMethodBytes module method sender privateKey : text) : M text :=
  nonce ← getAccountNonce sender;
  _ ← run (encodeCompactInteger nonce);
  '(moduleIndex, methodIndex, genesis) ← call_indexes module method;
  teStr ← run (submit_text sr25519_sign nonce moduleIndex methodIndex encodedMethodBytes sender privateKey genesis);
  response ← request (query "author_submitExtrinsic" [JString teStr]) RESPONSE_TIMEOUT_S;
  mret (string_value response).

Definition signAndSendTransfer (sender privateKey recipient : text) (transferAmount : Z) (cb : callback) : M unit :=
  nonce ← getAccountNonce sender;
  a ← this;
  let p := protocolPrm a in
  moduleIndex ← run (written (BalanceModuleIndex p));
  methodIndex ← run (written (TransferMethodIndex p));
  genesis ← run (written (GenesisBlockHash p));
  teStr ← run (transfer_text sr25519_sign nonce moduleIndex methodIndex sender recipient privateKey transferAmount genesis);
  set_subscriber TransferSlot cb;;
  id ← subscribeWs (query "author_submitAndWatchExtrinsic" [JString teStr]);
  set_slot_id TransferSlot id.
End submit.
End api.
