(* ===== verification/ApiInvariant.v ===== *)
(** What holds of the API object in every state that calls and updates lead to. *)
From stdpp Require Import functions relations.
From S2P Require Import Prelude Scale Converters Address Json Storage Metadata Lookup Decode Extrinsic Api.

(** ** Code that cannot throw *)

Definition throwless {A} (o : outcome A) : Prop := forall e, o <> Throw e.

Lemma throwless_ret {A} (a : A) : throwless (Ret a).
Proof. done. Qed.
Lemma throwless_ub {A} : throwless (UB (A := A)).
Proof. done. Qed.

Lemma throwless_bind {A B} (o : outcome A) (f : A -> outcome B) :
  throwless o -> (forall a, throwless (f a)) -> throwless (o ≫= f).
Proof. intros Ho Hf. destruct o as [a|e|]; [apply Hf|by destruct (Ho e)|done]. Qed.

Create HintDb throwless.
#[export] Hint Resolve throwless_ret throwless_ub : throwless.

Ltac throwless :=
  repeat first
    [ progress intros
    | apply throwless_bind
    | match goal with |- throwless (if ?b then _ else _) => destruct b end
    | match goal with |- throwless (match ?x with _ => _ end) => destruct x end
    | solve [auto with throwless] ].

Lemma throwless_written {A} (o : option A) : throwless (written o).
Proof. by destruct o. Qed.
Lemma throwless_assume b : throwless (assume b).
Proof. by destruct b. Qed.
Lemma throwless_chk64 z : throwless (chk64 z).
Proof. unfold chk64. throwless. Qed.
Lemma throwless_rem64 a b : throwless (rem64 a b).
Proof. unfold rem64. throwless. Qed.
Lemma throwless_strcpy n s : throwless (strcpy n s).
Proof. unfold strcpy. throwless. Qed.
#[export] Hint Resolve throwless_written throwless_assume throwless_chk64 throwless_rem64 throwless_strcpy : throwless.

Lemma throwless_shl T x k : throwless (shl T x k).
Proof. unfold shl. destruct T; throwless. Qed.
#[export] Hint Resolve throwless_shl : throwless.

Lemma throwless_fromHex_loop T b n : forall rest off acc,
  (length rest <= n)%nat -> throwless (fromHex_loop T b rest off acc).
Proof.
  induction n as [|n IH]; intros [|c [|d rest]] off acc Hn; cbn [length] in Hn; try lia; cbn [fromHex_loop];
    destruct b; throwless; apply IH; lia.
Qed.

Lemma throwless_fromHex T s b : throwless (fromHex T s b).
Proof. by apply (throwless_fromHex_loop T b (length (if has_0x s then drop 2 s else s))). Qed.
#[export] Hint Resolve throwless_fromHex : throwless.

Lemma throwless_fill {X A} room (items : list X) (f : X -> outcome A) :
  (forall x, throwless (f x)) -> throwless (fill room items f).
Proof.
  intros Hf. revert room. induction items as [|x items IH]; intros [|room]; cbn [fill]; throwless; auto.
Qed.
#[export] Hint Resolve throwless_fill : throwless.

Section updates.
Context `{D : Doubles}.

Lemma throwless_int_value j : throwless (int_value j).
Proof. unfold int_value. throwless. Qed.
#[local] Hint Resolve throwless_int_value : throwless.

Lemma throwless_copy_string j : throwless (copy_string j).
Proof. unfold copy_string. throwless. Qed.
#[local] Hint Resolve throwless_copy_string : throwless.

Lemma throwless_header j : throwless (decodeBlockHeader j).
Proof. unfold decodeBlockHeader, createDigest. throwless. Qed.

Lemma throwless_runtime j : throwless (createRuntimeVersion j).
Proof. unfold createRuntimeVersion, createApiItem. throwless. apply throwless_fill. throwless. Qed.

Lemma throwless_read_change m i : throwless (read_change m i).
Proof. unfold read_change. throwless. Qed.
#[local] Hint Resolve throwless_read_change : throwless.

Lemma throwless_epoch p m : throwless (epoch_update p m).
Proof. unfold epoch_update. throwless. Qed.

Lemma throwless_session b m : throwless (session_update b m).
Proof. unfold session_update. throwless. Qed.
End updates.
#[export] Hint Resolve throwless_header throwless_runtime throwless_epoch throwless_session : throwless.

(** ** The invariant

    A subscription with an id has a callback that is not empty. The maps are in
    the order of their keys. *)

Definition slot_wf (s : slot) : Prop := forall id, subscriptionId s = Some id -> id <> 0 -> subscriber s <> None.

Definition table_wf (t : table) : Prop :=
  sorted_map (subscribers t) /\ sorted_map (subscriptionIds t)
  /\ forall key id, map_find key (subscriptionIds t) = Some id -> exists cb, map_find key (subscribers t) = Some (Some cb).

Definition wf (a : CPolkaApi) : Prop := (forall s, slot_wf (slots a s)) /\ (forall t, table_wf (tables a t)).

Lemma wf_new : wf newCPolkaApi.
Proof.
  split; [|intros t; split; [constructor|split; [constructor|done]]].
  intros [] id H Hne; cbn in *; congruence.
Qed.

Lemma wf_set_slot a s v : wf a -> slot_wf v -> wf (set_slot s v a).
Proof.
  intros [Hs Ht] Hv. split; [|done]. intros s'. cbn. destruct (decide (s = s')) as [<-|Hne].
  - by rewrite fn_lookup_insert.
  - by rewrite fn_lookup_insert_ne.
Qed.

Lemma wf_set_table a t v : wf a -> table_wf v -> wf (set_table t v a).
Proof.
  intros [Hs Ht] Hv. split; [done|]. intros t'. cbn. destruct (decide (t = t')) as [<-|Hne].
  - by rewrite fn_lookup_insert.
  - by rewrite fn_lookup_insert_ne.
Qed.

Lemma table_wf_add t key cb :
  table_wf t -> table_wf {| subscribers := map_set key (Some cb) (subscribers t); subscriptionIds := subscriptionIds t |}.
Proof.
  intros (H1 & H2 & H3). split; [by apply map_set_sorted|]. split; [done|]. intros key' id Hid. cbn.
  destruct (decide (key' = key)) as [->|Hne]; [rewrite map_find_set; by eexists|].
  rewrite map_find_set_ne by done. by apply (H3 key' id).
Qed.

Lemma table_wf_id t key cb id :
  table_wf t -> map_find key (subscribers t) = Some (Some cb) ->
  table_wf {| subscribers := subscribers t; subscriptionIds := map_set key id (subscriptionIds t) |}.
Proof.
  intros (H1 & H2 & H3) Hcb. split; [done|]. split; [by apply map_set_sorted|]. intros key' id' Hid. cbn in *.
  destruct (decide (key' = key)) as [->|Hne]; [by eexists|].
  rewrite map_find_set_ne in Hid by done. by apply (H3 key' id').
Qed.

Lemma table_wf_erase t key :
  table_wf t -> table_wf {| subscribers := map_erase key (subscribers t); subscriptionIds := map_erase key (subscriptionIds t) |}.
Proof.
  intros (H1 & H2 & H3). split; [by apply map_erase_sorted|]. split; [by apply map_erase_sorted|].
  intros key' id Hid. cbn in *. destruct (decide (key' = key)) as [->|Hne]; [by rewrite map_find_erase in Hid|].
  rewrite map_find_erase_ne in Hid by done. rewrite map_find_erase_ne by done. by apply (H3 key' id).
Qed.

Lemma slot_wf_sub cb o : slot_wf {| subscriber := Some cb; subscriptionId := o |}.
Proof. done. Qed.
Lemma slot_wf_cleared : slot_wf cleared.
Proof. intros id [= <-]. done. Qed.

Section triples.
Context `{D : Doubles} `{J : !IJsonRpc} `{W : StdWhat}.

(** [m], started with [P], ends with [Q], or throws with [X]. *)
Definition triple {A} (P : CPolkaApi -> Prop) (m : M A) (Q : A -> CPolkaApi -> Prop) (X : CPolkaApi -> Prop) : Prop :=
  forall st o st', P (polka st) -> m st = Some (o, st') ->
    match o with Ret x => Q x (polka st') | Throw _ => X (polka st') | UB => True end.

(** [m] keeps [P], however it ends. *)
Definition keeps {A} (P : CPolkaApi -> Prop) (m : M A) : Prop := triple P m (fun _ => P) P.

Lemma triple_bind {A B} P (m : M A) R (f : A -> M B) Q X :
  triple P m R X -> (forall x, triple (R x) (f x) Q X) -> triple P (m ≫= f) Q X.
Proof.
  intros Hm Hf st o st' HP E. unfold mbind, M_bind, call_bind in E. destruct (m st) as [[[x|e|] st1]|] eqn:Em; [| | |done].
  - specialize (Hm _ _ _ HP Em). by apply (Hf x st1).
  - injection E as <- <-. by apply (Hm _ _ _ HP Em).
  - by injection E as <- <-.
Qed.

Lemma triple_weaken {A} (P P' : CPolkaApi -> Prop) (m : M A) (Q Q' : A -> CPolkaApi -> Prop) (X X' : CPolkaApi -> Prop) :
  triple P m Q X -> (forall a, P' a -> P a) -> (forall x a, Q x a -> Q' x a) -> (forall a, X a -> X' a) -> triple P' m Q' X'.
Proof.
  intros Hm HP HQ HX st o st' H E. specialize (Hm st o st' (HP _ H) E). destruct o; auto.
Qed.

Lemma triple_ret {A} (P : CPolkaApi -> Prop) (x : A) Q X : (forall a, P a -> Q x a) -> triple P (mret x) Q X.
Proof. intros H st o st' HP [= <- <-]. auto. Qed.

Lemma triple_pre {A} (P : CPolkaApi -> Prop) (m : M A) Q X :
  (forall a, P a -> triple (fun a' => a' = a) m Q X) -> triple P m Q X.
Proof. intros H st o st' HP E. by apply (H (polka st) HP st o st'). Qed.

Lemma triple_this (P : CPolkaApi -> Prop) X : triple P this (fun x a => P a /\ x = a) X.
Proof. intros st o st' HP [= <- <-]. done. Qed.

Lemma triple_modify (P : CPolkaApi -> Prop) f Q X : (forall a, P a -> Q tt (f a)) -> triple P (modify f) Q X.
Proof. intros H st o st' HP [= <- <-]. by apply H. Qed.

Lemma triple_node {A} P (m : call rpc A) : keeps P (on_node m).
Proof.
  intros st o st' HP E. unfold on_node, on_part in E. destruct (m (node st)) as [[o' n]|]; [|done].
  injection E as <- <-. by destruct o'.
Qed.

Lemma triple_run {A} P (m : outcome A) : keeps P (run m).
Proof. intros st o st' HP [= <- <-]. by destruct m. Qed.

Lemma triple_run_throwless {A} P (m : outcome A) X : throwless m -> triple P (run m) (fun _ => P) X.
Proof. intros Hm st o st' HP [= <- <-]. destruct m as [x|e|]; [done|by destruct (Hm e)|done]. Qed.

Lemma triple_get_slot (P : CPolkaApi -> Prop) s X : triple P (get_slot s) (fun v a => P a /\ v = slots a s) X.
Proof. intros st o st' HP [= <- <-]. done. Qed.

Lemma triple_get_table (P : CPolkaApi -> Prop) t X : triple P (get_table t) (fun v a => P a /\ v = tables a t) X.
Proof. intros st o st' HP [= <- <-]. done. Qed.

Lemma triple_slot_id (P : CPolkaApi -> Prop) s X :
  triple P (slot_id s) (fun id a => P a /\ subscriptionId (slots a s) = Some id) X.
Proof.
  intros st o st' HP E. unfold slot_id in E. unfold mbind, M_bind, call_bind in E. cbn in E.
  injection E as <- <-. destruct (subscriptionId (slots (polka st) s)); [by split|done].
Qed.

Lemma triple_invoke (P : CPolkaApi -> Prop) cb u X :
  (forall n a, P a -> P (set_bestBlockNum n a)) -> triple P (invoke (Some cb) u) (fun _ => P) X.
Proof.
  intros Hb st o st' HP E. destruct cb; cbn in E; [by injection E as <- <-| |]; destruct u; injection E as <- <-; cbn; auto.
Qed.

(** ** Updates keep the invariant and do not throw *)

Definition missing (id : Z) (a : CPolkaApi) : Prop := wf a /\ id = 0.

Lemma wf_best n a : wf a -> wf (set_bestBlockNum n a).
Proof. done. Qed.

Lemma triple_invoke_wf (P : CPolkaApi -> Prop) cb u X :
  (forall a, P a -> wf a) -> triple P (invoke (Some cb) u) (fun _ => wf) X.
Proof. intros HP. eapply triple_weaken; [by apply (triple_invoke wf cb u X)|done..]. Qed.

Lemma triple_invoke_slot s u id :
  triple (fun a => wf a /\ subscriptionId (slots a s) = Some id) (invoke_slot s u) (fun _ => wf) (missing id).
Proof.
  apply triple_pre. intros a [Hwf Hid]. eapply triple_bind; [apply triple_get_slot|]. intros v.
  apply triple_pre. intros a' [-> ->]. destruct (subscriber (slots a s)) as [cb|] eqn:E.
  - apply triple_invoke_wf. by intros ? ->.
  - intros st o st' Hst [= <- <-]. rewrite Hst. split; [done|]. destruct (Z.eqb_spec id 0) as [|Hne]; [done|].
    by destruct (proj1 Hwf s id Hid Hne).
Qed.

Lemma triple_invoke_keyed t key u id X :
  triple (fun a => wf a /\ map_find key (subscriptionIds (tables a t)) = Some id) (invoke_keyed t key u) (fun _ => wf) X.
Proof.
  apply triple_pre. intros a [Hwf Hid]. eapply triple_bind; [apply triple_get_table|]. intros v.
  apply triple_pre. intros a' [-> ->]. destruct (proj2 Hwf t) as (_ & _ & H3). destruct (H3 key id Hid) as [cb ->].
  apply triple_invoke_wf. by intros ? ->.
Qed.

Lemma key_of_id_spec id (ids : smap Z) key :
  sorted_map ids -> key_of_id id ids = Some key -> map_find key ids = Some id.
Proof.
  intros Hs H. unfold key_of_id in H. destruct (list_find _ ids) as [[i [k v]]|] eqn:E; [|done].
  injection H as <-. apply list_find_Some in E as (Hi & Hv & _). cbn in Hv. subst v.
  apply map_elem_find; [done|]. by apply (list_elem_of_lookup_2 _ i).
Qed.

(** Running code that does not throw, and going on in the same state. *)
Lemma triple_run_then {A B} P (o : outcome A) (f : A -> M B) Q X :
  throwless o -> (forall x, triple P (f x) Q X) -> triple P (x ← run o; f x) Q X.
Proof. intros Ho Hf. eapply triple_bind; [by apply triple_run_throwless|]. intros x. apply Hf. Qed.

Lemma triple_slot_id_then {B} (P : CPolkaApi -> Prop) s (f : Z -> M B) Q X :
  (forall id, triple (fun a => P a /\ subscriptionId (slots a s) = Some id) (f id) Q X) ->
  triple P (id ← slot_id s; f id) Q X.
Proof. intros Hf. eapply triple_bind; [apply triple_slot_id|]. apply Hf. Qed.

Lemma triple_slot_update {A} s (o : outcome A) u id (P : CPolkaApi -> Prop) :
  throwless o -> (forall a, P a -> wf a /\ subscriptionId (slots a s) = Some id) ->
  triple P (x ← run o; invoke_slot s (u x)) (fun _ => wf) (missing id).
Proof.
  intros Ho HP. apply triple_run_then; [done|]. intros x.
  eapply triple_weaken; [apply (triple_invoke_slot s (u x) id)|done|done|done].
Qed.

Lemma triple_done (P : CPolkaApi -> Prop) X : (forall a, P a -> wf a) -> triple P (mret tt) (fun _ => wf) X.
Proof. intros H. by apply triple_ret. Qed.

(** The update of a slot whose id has just been compared. *)
Lemma triple_slot_case s u id (P : CPolkaApi -> Prop) :
  (forall a, P a -> wf a) ->
  triple (fun a => P a /\ subscriptionId (slots a s) = Some id) (invoke_slot s u) (fun _ => wf) (missing id).
Proof.
  intros HP. eapply triple_weaken; [apply (triple_invoke_slot s u id)| |done|done]. intros a [Ha Hid]. auto.
Qed.

Lemma triple_last id m : triple wf (handle_last id m) (fun _ => wf) (missing id).
Proof.
  unfold handle_last. apply triple_slot_id_then. intros fid. destruct (Z.eqb_spec fid id) as [->|_].
  { apply triple_run_then; [auto with throwless|]. intros h. by apply triple_slot_case. }
  apply triple_slot_id_then. intros rid. destruct (Z.eqb_spec rid id) as [->|_].
  { apply triple_run_then; [auto with throwless|]. intros rv. apply triple_slot_case. tauto. }
  eapply triple_bind; [apply triple_this|]. intros a.
  destruct (key_of_id id _) as [key|] eqn:E; [|apply triple_done; tauto].
  eapply triple_weaken; [apply (triple_invoke_keyed StorageTable key _ id)| |done|done].
  intros a' [[[H _] _] ->]. split; [done|]. apply key_of_id_spec; [apply (proj2 H)|done].
Qed.

Lemma triple_era id m : triple wf (handle_era id m) (fun _ => wf) (missing id).
Proof.
  unfold handle_era. eapply triple_bind; [apply triple_this|]. intros a.
  apply triple_slot_id_then. intros eid. destruct (Z.eqb_spec eid id) as [->|_]; cbn [andb];
    [destruct (negb _)|]; try (eapply triple_weaken; [apply triple_last| |done|done]; tauto).
  apply triple_run_then; [auto with throwless|]. intros [|]; (apply triple_run_then; [auto with throwless|]).
  - intros es. apply triple_slot_case. tauto.
  - intros [es|]; [apply triple_slot_case; tauto|apply triple_done; tauto].
Qed.

Lemma triple_extrinsics id m : triple wf (handle_extrinsics id m) (fun _ => wf) (missing id).
Proof.
  unfold handle_extrinsics. apply triple_slot_id_then. intros xid. destruct (Z.eqb_spec xid id) as [->|_].
  { by apply triple_slot_case. }
  apply triple_slot_id_then. intros tid. destruct (Z.eqb_spec tid id) as [->|_].
  - destruct (contains _ _); [apply triple_slot_case; tauto|]. destruct (contains _ _); [|apply triple_done; tauto].
    eapply triple_bind; [apply triple_slot_case; tauto|]. intros []. apply triple_modify. intros a Ha.
    by apply wf_set_slot, slot_wf_cleared.
  - eapply triple_weaken; [apply triple_era| |done|done]. tauto.
Qed.

Lemma triple_handle id m : triple wf (handleWsMessage id m) (fun _ => wf) (missing id).
Proof.
  unfold handleWsMessage. eapply triple_bind; [apply triple_this|]. intros a.
  apply triple_slot_id_then. intros bid. destruct (Z.eqb_spec bid id) as [->|_].
  { apply triple_run_then; [auto with throwless|]. intros n. apply triple_slot_case. tauto. }
  assert (forall t key u, key_of_id id (subscriptionIds (tables a t)) = Some key ->
    triple (fun a' => (wf a' /\ a = a') /\ subscriptionId (slots a' BlockNumberSlot) = Some bid)
      (invoke_keyed t key u) (fun _ => wf) (missing id)) as Hk.
  { intros t key u E. eapply triple_weaken; [apply (triple_invoke_keyed t key _ id)| |done|done].
    intros a' [[H ->] _]. split; [done|]. apply key_of_id_spec; [apply (proj2 H)|done]. }
  destruct (key_of_id id (subscriptionIds (tables a NonceTable))) as [key|] eqn:E1.
  { apply triple_run_then; [auto with throwless|]. intros n. by apply Hk. }
  destruct (key_of_id id (subscriptionIds (tables a BalanceTable))) as [key|] eqn:E2.
  { apply triple_run_then; [auto with throwless|]. intros n. by apply Hk. }
  eapply triple_weaken; [apply triple_extrinsics| |done|done]. tauto.
Qed.

(** ** Calls keep the invariant *)

(** The invariant, and the subscriptions in [S] have a callback. *)
Definition called (S : list slot_name) (a : CPolkaApi) : Prop :=
  wf a /\ forall s, s ∈ S -> subscriber (slots a s) <> None.

Lemma called_nil a : called [] a <-> wf a.
Proof. split; [by intros [H _]|]. intros H. split; [done|]. intros s Hs. by apply elem_of_nil in Hs. Qed.

Lemma called_set S s v a : called S a -> slot_wf v -> (s ∈ S -> subscriber v <> None) -> called S (set_slot s v a).
Proof.
  intros [Hwf HS] Hv Hs. split; [by apply wf_set_slot|]. intros s' Hs'. cbn.
  destruct (decide (s = s')) as [<-|Hne]; [rewrite fn_lookup_insert; auto|rewrite fn_lookup_insert_ne by done; auto].
Qed.

Lemma triple_set_subscriber S s cb X : triple (called S) (set_subscriber s cb) (fun _ => called (s :: S)) X.
Proof.
  unfold set_subscriber. eapply triple_bind; [apply triple_get_slot|]. intros v. apply triple_modify.
  intros a [Ha _]. split.
  - apply wf_set_slot; [apply Ha|apply slot_wf_sub].
  - intros s' Hs'. cbn. destruct (decide (s = s')) as [<-|Hne]; [by rewrite fn_lookup_insert|].
    rewrite fn_lookup_insert_ne by done. apply (proj2 Ha). apply elem_of_cons in Hs' as [->|]; done.
Qed.

Lemma triple_set_slot_id S s id X : s ∈ S -> triple (called S) (set_slot_id s id) (fun _ => called S) X.
Proof.
  intros Hs. unfold set_slot_id. eapply triple_bind; [apply triple_get_slot|]. intros v. apply triple_modify.
  intros a [Ha ->]. pose proof (proj2 Ha s Hs). apply called_set; [done| |done]. by intros id' _ _.
Qed.

Lemma called_wf S a : called S a -> wf a.
Proof. by intros []. Qed.

Lemma triple_subscribe_once S s q : s ∈ S -> triple (called S) (subscribe_once s q) (fun _ => called S) wf.
Proof.
  intros Hs. unfold subscribe_once. apply triple_slot_id_then. intros id. destruct (id =? 0).
  - eapply triple_bind; [eapply triple_weaken; [apply (triple_node (called S))|..]|].
    + by intros a [? _].
    + done.
    + apply called_wf.
    + intros newId. by apply triple_set_slot_id.
  - apply triple_ret. by intros a [? _].
Qed.

Lemma triple_subscribe_slot S s q cb : triple (called S) (subscribe_slot s q cb) (fun _ => called S) wf.
Proof.
  unfold subscribe_slot. eapply triple_bind; [apply triple_set_subscriber|]. intros [].
  eapply triple_bind; [apply triple_subscribe_once; by left|]. intros [].
  apply triple_ret. intros a [Ha HS]. split; [done|]. intros s' Hs'. apply HS. by right.
Qed.

Lemma keeps_subscribe_slot s q cb : keeps wf (subscribe_slot s q cb).
Proof.
  eapply triple_weaken; [apply (triple_subscribe_slot [] s q cb)| | |done].
  - intros a. apply called_nil.
  - intros x a. apply called_nil.
Qed.

Lemma keeps_bind {A B} P (m : M A) (f : A -> M B) :
  keeps P m -> (forall x, keeps P (f x)) -> keeps P (m ≫= f).
Proof. intros Hm Hf. by eapply triple_bind. Qed.

Lemma keeps_ret {A} P (x : A) : keeps P (mret x : M A).
Proof. by apply triple_ret. Qed.

Lemma keeps_this P : keeps P this.
Proof. eapply triple_weaken; [apply (triple_this P P)|done| |done]. by intros x a [? _]. Qed.

Lemma keeps_slot_id P s : keeps P (slot_id s).
Proof. eapply triple_weaken; [apply (triple_slot_id P s P)|done| |done]. by intros x a [? _]. Qed.

Lemma keeps_modify P f : (forall a, P a -> P (f a)) -> keeps P (modify f).
Proof. intros Hf. by apply triple_modify. Qed.

Lemma keeps_handle id m : keeps wf (handleWsMessage id m).
Proof. eapply triple_weaken; [apply (triple_handle id m)|done|done|]. by intros a [? _]. Qed.

Lemma keeps_unsubscribe_slot s method : keeps wf (unsubscribe_slot s method).
Proof.
  unfold unsubscribe_slot. apply keeps_bind; [apply keeps_slot_id|]. intros id.
  apply keeps_bind; [|intros; apply keeps_ret]. destruct (id =? 0); [apply keeps_ret|].
  apply keeps_bind; [apply triple_node|]. intros _. apply keeps_modify. intros a Ha. by apply wf_set_slot, slot_wf_cleared.
Qed.

(** A request made while the entry of [key] has its callback. *)
Lemma keeps_subscribe_keyed t key q cb :
  (forall P, keeps P q) -> keeps wf (subscribe_keyed t key q cb).
Proof.
  intros Hq. unfold subscribe_keyed. eapply triple_bind; [apply triple_get_table|]. intros v.
  set (P := fun a => wf a /\ map_find key (subscribers (tables a t)) = Some (Some cb)).
  assert (forall a, P a -> wf a) as HP by by intros a [].
  eapply (triple_bind _ _ (fun _ => P)).
  { apply triple_modify. intros a [Ha ->]. split.
    - apply wf_set_table; [done|]. apply table_wf_add, (proj2 Ha).
    - cbn. rewrite fn_lookup_insert. apply map_find_set. }
  intros []. destruct (map_find key _); [by apply triple_ret|].
  eapply triple_bind; [eapply triple_weaken; [apply (Hq P)|done|done|done]|]. intros query.
  eapply triple_bind; [eapply triple_weaken; [apply (triple_node P)|done|done|done]|]. intros id.
  eapply triple_bind; [apply triple_get_table|]. intros v'. eapply (triple_bind _ _ (fun _ => wf)).
  - apply triple_modify. intros a [[Ha Hcb] ->]. apply wf_set_table; [done|].
    apply (table_wf_id _ key cb id); [apply (proj2 Ha)|apply Hcb].
  - intros []. by apply triple_ret.
Qed.

Lemma keeps_unsubscribe_keyed t key method : keeps wf (unsubscribe_keyed t key method).
Proof.
  unfold unsubscribe_keyed. eapply triple_bind; [apply (triple_get_table wf)|]. intros v.
  eapply (triple_weaken wf _ _ (fun _ => wf) _ wf); [|by intros a []|done|done].
  destruct (map_find key _); [|apply keeps_ret].
  apply keeps_bind; [apply triple_node|]. intros _. eapply triple_bind; [apply triple_get_table|]. intros v'.
  eapply (triple_bind _ _ (fun _ => wf)); [|intros; apply keeps_ret].
  apply triple_modify. intros a [Ha ->]. apply wf_set_table; [done|]. apply table_wf_erase, (proj2 Ha).
Qed.

Lemma keeps_run {A} (m : outcome A) P : keeps P (run m).
Proof. apply triple_run. Qed.

Lemma keeps_request q t P : keeps P (request q t).
Proof. apply triple_node. Qed.

Lemma keeps_subscribeWs q P : keeps P (subscribeWs q).
Proof. apply triple_node. Qed.

Lemma keeps_on_node {A} (m : call rpc A) P : keeps P (on_node m).
Proof. apply triple_node. Qed.

Lemma keeps_account_query address prefix P : keeps P (account_query address prefix).
Proof.
  unfold account_query. apply keeps_bind; [apply keeps_this|]. intros a.
  apply keeps_bind; [apply keeps_run|]. intros symbols. apply keeps_bind; [apply keeps_run|]. intros hasher.
  apply keeps_bind; [apply keeps_run|]. intros k. apply keeps_ret.
Qed.

Lemma keeps_set_id s id : keeps (called [s]) (set_slot_id s id).
Proof. apply triple_set_slot_id. by left. Qed.

(** Registering a callback and then the id of the request made for it. *)
Lemma keeps_register s cb q :
  keeps wf (set_subscriber s cb;; id ← subscribeWs q; set_slot_id s id).
Proof.
  eapply (triple_bind _ _ (fun _ => called [s])).
  { eapply triple_weaken; [apply (triple_set_subscriber [] s cb wf)| |done|done]. intros a. apply called_nil. }
  intros []. eapply (triple_bind _ _ (fun _ => called [s])).
  { eapply triple_weaken; [apply (keeps_subscribeWs q (called [s]))|done|done|apply called_wf]. }
  intros id. eapply triple_weaken; [apply keeps_set_id|done|intros ? ?; apply called_wf|apply called_wf].
Qed.

Lemma keeps_era_subscription cb : keeps wf (subscribeEraAndSession cb).
Proof.
  unfold subscribeEraAndSession. eapply (triple_bind _ _ (fun _ => called [EraSlot])).
  { eapply triple_weaken; [apply (triple_set_subscriber [] EraSlot cb wf)| |done|done]. intros a. apply called_nil. }
  intros []. eapply (triple_bind _ _ (fun _ => called [EraSlot])); [apply triple_subscribe_slot|]. intros _.
  eapply (triple_bind _ _ (fun _ => called [EraSlot])).
  { eapply triple_weaken; [apply (triple_this (called [EraSlot]) wf)|done| |done]. by intros x a [? _]. }
  intros a. eapply (triple_bind _ _ (fun _ => called [EraSlot])).
  { eapply triple_weaken; [apply (triple_run (called [EraSlot]))|done|done|apply called_wf]. }
  intros epochs. eapply (triple_bind _ _ (fun _ => called [EraSlot])); [apply triple_subscribe_once; by left|].
  intros []. apply triple_ret. apply called_wf.
Qed.

Lemma keeps_catch P (m : M unit) : keeps P m -> keeps P (catch_application m).
Proof.
  intros Hm st o st' Hwf E. unfold catch_application in E. destruct (m st) as [[r st1]|] eqn:Em; [|done].
  specialize (Hm _ _ _ Hwf Em). destruct r as [x|e|]; [by injection E as <- <-| |by injection E as <- <-].
  destruct e; by injection E as <- <-.
Qed.
End triples.

(** What the building blocks of the calls must keep for a property to hold in
    every reachable state. *)
Class Invariant `{D : Doubles} `{J : !IJsonRpc} (P : CPolkaApi -> Prop) : Prop := {
  inv_prm p a : P a -> P (set_protocolPrm p a);
  inv_era e a : P a -> P (set_eraPrm e a);
  inv_handle id m : keeps P (handleWsMessage id m);
  inv_subscribe_slot s q cb : keeps P (subscribe_slot s q cb);
  inv_unsubscribe_slot s method : keeps P (unsubscribe_slot s method);
  inv_subscribe_keyed t key q cb : (forall P', keeps P' q) -> keeps P (subscribe_keyed t key q cb);
  inv_unsubscribe_keyed t key method : keeps P (unsubscribe_keyed t key method);
  inv_register s cb q : s = TransferSlot \/ s = ExtrinsicSlot ->
    keeps P (set_subscriber s cb;; id ← subscribeWs q; set_slot_id s id);
  inv_era_subscription cb : keeps P (subscribeEraAndSession cb);
}.

#[export] Instance wf_invariant `{D : Doubles} `{J : !IJsonRpc} : Invariant wf.
Proof.
  split; intros; [done|done|apply keeps_handle|apply keeps_subscribe_slot|apply keeps_unsubscribe_slot
    |by apply keeps_subscribe_keyed|apply keeps_unsubscribe_keyed|apply keeps_register|apply keeps_era_subscription].
Qed.

Create HintDb keeps.

(** Follows the code: sequences, conditionals, matches. *)
Ltac keeps :=
  repeat first
    [ progress intros
    | solve [auto with keeps]
    | apply keeps_bind
    | apply keeps_catch
    | match goal with |- keeps _ (if ?b then _ else _) => destruct b end
    | match goal with |- keeps _ (match ?x with _ => _ end) => destruct x end ].

(** ** Reachable states *)

Section reachable.
Context `{D : Doubles} `{J : !IJsonRpc} `{W : StdWhat}.
Context (sr25519_sign : list Z -> list Z -> list Z -> list Z).

(** The calls of [IApplication], with callbacks of the application, and the
    updates that the client delivers: their subscription id is not 0
    ([handleMessage] of [src/jsonrpc.cpp]). *)
Inductive public : forall A, M A -> Prop :=
| pub_connect url : public _ (connect url)
| pub_disconnect : public _ disconnect
| pub_getSystemInfo : public _ getSystemInfo
| pub_getBlockHash p : public _ (getBlockHash p)
| pub_getMetadata p : public _ (getMetadata p)
| pub_getRuntimeVersion p : public _ (getRuntimeVersion p)
| pub_getBlock p : public _ (getBlock p)
| pub_getBlockHeader p : public _ (getBlockHeader p)
| pub_getFinalizedHead : public _ getFinalizedHead
| pub_getSystemHealth : public _ getSystemHealth
| pub_getSystemPeers : public _ getSystemPeers
| pub_getNetworkState : public _ getNetworkState
| pub_getAccountNonce address : public _ (getAccountNonce address)
| pub_getKeys p m v : public _ (getKeys p m v)
| pub_getStorage p m v : public _ (getStorage p m v)
| pub_getStorageHash p m v : public _ (getStorageHash p m v)
| pub_getStorageSize p m v : public _ (getStorageSize p m v)
| pub_getChildKeys c k : public _ (getChildKeys c k)
| pub_getChildStorage c k : public _ (getChildStorage c k)
| pub_getChildStorageHash c k : public _ (getChildStorageHash c k)
| pub_getChildStorageSize c k : public _ (getChildStorageSize c k)
| pub_stateCall n d h : public _ (stateCall n d h)
| pub_queryStorage k a b n : public _ (queryStorage k a b n)
| pub_pendingExtrinsics slack n : public _ (pendingExtrinsics slack n)
| pub_removeExtrinsic h : public _ (removeExtrinsic h)
| pub_signAndSendTransfer a k b n c : public _ (signAndSendTransfer sr25519_sign a k b n (User c))
| pub_submitAndSubcribeExtrinsic e m f a k c : public _ (submitAndSubcribeExtrinsic sr25519_sign e m f a k (User c))
| pub_submitExtrinsic e m f a k : public _ (submitExtrinsic sr25519_sign e m f a k)
| pub_subscribeBlockNumber c : public _ (subscribeBlockNumber (User c))
| pub_unsubscribeBlockNumber : public _ unsubscribeBlockNumber
| pub_subscribeBalance a c : public _ (subscribeBalance a (User c))
| pub_unsubscribeBalance a : public _ (unsubscribeBalance a)
| pub_subscribeEraAndSession c : public _ (subscribeEraAndSession (User c))
| pub_unsubscribeEraAndSession : public _ unsubscribeEraAndSession
| pub_subscribeAccountNonce a c : public _ (subscribeAccountNonce a (User c))
| pub_unsubscribeAccountNonce a : public _ (unsubscribeAccountNonce a)
| pub_subscribeFinalizedBlock c : public _ (subscribeFinalizedBlock (User c))
| pub_unsubscribeFinalizedBlock : public _ unsubscribeFinalizedBlock
| pub_subscribeRuntimeVersion c : public _ (subscribeRuntimeVersion (User c))
| pub_unsubscribeRuntimeVersion : public _ unsubscribeRuntimeVersion
| pub_subscribeStorage k c : public _ (subscribeStorage k (User c))
| pub_unsubscribeStorage k : public _ (unsubscribeStorage k)
| pub_update id m : id <> 0 -> public _ (handleWsMessage id m).

(** One call or update that returns, with a value or an exception. *)
Inductive step : state -> state -> Prop :=
| step_public A (m : M A) o st st' : public A m -> m st = Some (o, st') -> o <> UB -> step st st'.

Definition initial (st : state) : Prop := polka st = newCPolkaApi.

End reachable.

Section preserved.
Context `{D : Doubles} `{J : !IJsonRpc} `{W : StdWhat}.
Context (sr25519_sign : list Z -> list Z -> list Z -> list Z).
Context (P : CPolkaApi -> Prop) `{I : !Invariant P}.

Lemma keeps_set_prm f : keeps P (set_prm f).
Proof. apply keeps_modify. intros a. apply inv_prm. Qed.

Lemma keeps_set_era f : keeps P (set_era f).
Proof. apply keeps_modify. intros a. apply inv_era. Qed.

#[local] Hint Resolve keeps_ret keeps_run keeps_this keeps_request keeps_subscribeWs keeps_on_node keeps_slot_id
  keeps_set_prm keeps_set_era inv_handle inv_subscribe_slot inv_unsubscribe_slot inv_unsubscribe_keyed inv_register
  inv_era_subscription : keeps.

Lemma inv_nonce_subscription address cb : keeps P (subscribeAccountNonce address cb).
Proof. apply inv_subscribe_keyed. intros P'. apply keeps_account_query. Qed.

Lemma keeps_wait_nonce inbox : keeps P (wait_nonce inbox).
Proof.
  induction inbox as [|[id m] inbox IH]; intros st o st' HP E; cbn [wait_nonce] in E.
  - destruct (nonceDone st); [by injection E as <- <-|done].
  - destruct (nonceDone st); [by injection E as <- <-|].
    by apply (keeps_bind _ _ _ (inv_handle id m) (fun _ => IH) st).
Qed.

Lemma keeps_getAccountNonce address : keeps P (getAccountNonce address).
Proof.
  unfold getAccountNonce. apply keeps_bind; [by intros st o st' HP [= <- <-]|]. intros [].
  apply keeps_bind; [apply inv_nonce_subscription|]. intros _.
  apply keeps_bind; [intros st o st'; apply (keeps_wait_nonce _)|]. intros n. unfold unsubscribeAccountNonce. keeps.
Qed.

Lemma keeps_getKeys p m v : keeps P (getKeys p m v).
Proof. unfold getKeys, the_metadata. keeps. Qed.

Lemma keeps_set_key k v : keeps P (set_key k v).
Proof. apply keeps_set_era. Qed.

Lemma keeps_ask method ps : keeps P ps -> keeps P (ask_at_head method ps).
Proof. intros H. unfold ask_at_head, getBlockHash, get. keeps. Qed.

#[local] Hint Resolve inv_nonce_subscription keeps_getAccountNonce keeps_getKeys keeps_set_key keeps_ask : keeps.

Lemma keeps_connect url : keeps P (connect url).
Proof. unfold connect, getBlockHash, getMetadata, plain_key, get. keeps. Qed.

Lemma keeps_get {A} q (F : Json -> outcome A) : keeps P (get q F).
Proof. unfold get. keeps. Qed.

Lemma keeps_key_param p m v : keeps P (key_param p m v).
Proof. unfold key_param. keeps. Qed.

Lemma keeps_indexes m f : keeps P (call_indexes m f).
Proof. unfold call_indexes, the_metadata. keeps. Qed.
#[local] Hint Resolve keeps_connect keeps_get keeps_key_param keeps_indexes : keeps.

#[local] Hint Unfold getSystemInfo getBlockHash getMetadata getRuntimeVersion getBlock getBlockHeader getFinalizedHead
  getSystemHealth getSystemPeers getNetworkState getStorage getStorageHash getStorageSize child_params getChildKeys
  getChildStorage getChildStorageHash getChildStorageSize stateCall queryStorage pendingExtrinsics removeExtrinsic
  signAndSendTransfer submitAndSubcribeExtrinsic submitExtrinsic subscribeBlockNumber unsubscribeBlockNumber
  unsubscribeBalance unsubscribeEraAndSession unsubscribeAccountNonce subscribeFinalizedBlock
  unsubscribeFinalizedBlock subscribeRuntimeVersion unsubscribeRuntimeVersion unsubscribeStorage get : keeps.

Lemma public_keeps A (m : M A) : public sr25519_sign A m -> keeps P m.
Proof.
  destruct 1; try solve [auto with keeps]; try solve [autounfold with keeps; keeps].
  - apply keeps_on_node.
  - apply inv_subscribe_keyed. intros P'. apply keeps_account_query.
  - apply inv_subscribe_keyed. intros P'. by apply triple_ret.
Qed.

Lemma reachable_keeps st0 st : P newCPolkaApi -> initial st0 -> rtc (step sr25519_sign) st0 st -> P (polka st).
Proof.
  intros HP0 H0 Hr. assert (P (polka st0)) as HP by by rewrite H0. clear H0 HP0.
  induction Hr as [st|st1 st2 st3 Hs _ IH]; [done|]. apply IH. destruct Hs as [A m o st st' Hp E Ho].
  pose proof (public_keeps A m Hp st o st' HP E). by destruct o.
Qed.
End preserved.

Lemma reachable_wf `{D : Doubles} `{J : !IJsonRpc} `{W : StdWhat} sign st0 st :
  initial st0 -> rtc (step sign) st0 st -> wf (polka st).
Proof. apply (reachable_keeps sign wf), wf_new. Qed.

(** ** Members that are never assigned

    The ids of the subscriptions of finalized heads and runtime versions are not
    set by the constructor, and every function that sets them reads them first. *)

Definition unset (a : CPolkaApi) : Prop :=
  subscriptionId (slots a FinalizedSlot) = None /\ subscriptionId (slots a RuntimeSlot) = None.

Lemma unset_set_slot a s v :
  unset a -> (s = FinalizedSlot \/ s = RuntimeSlot -> subscriptionId v = None) -> unset (set_slot s v a).
Proof.
  intros [Hf Hr] Hv. split; cbn.
  - destruct (decide (s = FinalizedSlot)) as [->|]; [rewrite fn_lookup_insert; auto|by rewrite fn_lookup_insert_ne].
  - destruct (decide (s = RuntimeSlot)) as [->|]; [rewrite fn_lookup_insert; auto|by rewrite fn_lookup_insert_ne].
Qed.

Section unset.
Context `{D : Doubles} `{J : !IJsonRpc}.

#[local] Hint Resolve keeps_ret keeps_run keeps_this keeps_request keeps_subscribeWs keeps_on_node keeps_slot_id : keeps.

Lemma unset_get_slot s : keeps unset (get_slot s).
Proof. unfold get_slot. keeps. Qed.

Lemma unset_get_table t : keeps unset (get_table t).
Proof. unfold get_table. keeps. Qed.

Lemma unset_modify_table t v : keeps unset (modify (set_table t v)).
Proof. by apply keeps_modify. Qed.

Lemma unset_invoke cb u : keeps unset (invoke cb u).
Proof.
  intros st o st' HP E. destruct cb as [[c| |]|]; cbn in E; [by injection E as <- <-| | |by injection E as <- <-];
    destruct u; by injection E as <- <-.
Qed.
#[local] Hint Resolve unset_get_slot unset_get_table unset_modify_table unset_invoke : keeps.

Lemma unset_handle id m : keeps unset (handleWsMessage id m).
Proof.
  unfold handleWsMessage, handle_extrinsics, handle_era, handle_last, invoke_slot, invoke_keyed. keeps.
  apply keeps_modify. intros a Ha. apply unset_set_slot; [done|]. by intros [|].
Qed.

Lemma unset_set_subscriber s cb : keeps unset (set_subscriber s cb).
Proof.
  unfold set_subscriber. eapply (triple_bind _ _ (fun v a => unset a /\ v = slots a s)); [apply triple_get_slot|].
  intros v. apply triple_modify. intros a [Ha ->]. apply unset_set_slot; [done|]. intros [->| ->]; apply Ha.
Qed.

(** Code that starts by reading one of the two ids does not return. *)
Lemma unset_slot_id {B} s (f : Z -> M B) :
  (s <> FinalizedSlot -> s <> RuntimeSlot -> forall id, keeps unset (f id)) -> keeps unset (id ← slot_id s; f id).
Proof.
  intros Hf. eapply triple_bind; [apply triple_slot_id|]. intros id. apply triple_pre. intros a [Ha Hid].
  destruct (decide (s = FinalizedSlot)) as [->|Hs1]; [by rewrite (proj1 Ha) in Hid|].
  destruct (decide (s = RuntimeSlot)) as [->|Hs2]; [by rewrite (proj2 Ha) in Hid|].
  eapply triple_weaken; [apply (Hf Hs1 Hs2 id)|by intros ? ->|done|done].
Qed.

Lemma unset_set_slot_id s id : s <> FinalizedSlot -> s <> RuntimeSlot -> keeps unset (set_slot_id s id).
Proof.
  intros H1 H2. unfold set_slot_id. apply keeps_bind; [apply unset_get_slot|]. intros v.
  apply keeps_modify. intros a Ha. apply unset_set_slot; [done|]. by intros [|].
Qed.

Lemma unset_subscribe_once s q : keeps unset (subscribe_once s q).
Proof.
  unfold subscribe_once. apply unset_slot_id. intros H1 H2 id. destruct (id =? 0); [|apply keeps_ret].
  apply keeps_bind; [apply keeps_subscribeWs|]. intros newId. by apply unset_set_slot_id.
Qed.
#[local] Hint Resolve unset_set_subscriber unset_subscribe_once : keeps.

#[export] Instance unset_invariant : Invariant unset.
Proof.
  split; try done.
  - apply unset_handle.
  - intros s q cb. unfold subscribe_slot. keeps.
  - intros s method. unfold unsubscribe_slot. apply unset_slot_id. intros H1 H2 id. destruct (id =? 0); [keeps|].
    apply keeps_bind; [|intros; apply keeps_ret]. apply keeps_bind; [apply triple_node|]. intros _.
    apply keeps_modify. intros a Ha. apply unset_set_slot; [done|]. by intros [|].
  - intros t key q cb Hq. unfold subscribe_keyed. keeps.
  - intros t key method. unfold unsubscribe_keyed. keeps. apply triple_node.
  - intros s cb q Hs. apply keeps_bind; [auto with keeps|]. intros _. apply keeps_bind; [auto with keeps|]. intros id.
    apply unset_set_slot_id; by destruct Hs as [->| ->].
  - intros cb. unfold subscribeEraAndSession, subscribeBlockNumber, subscribe_slot. keeps.
Qed.
End unset.
