(* ===== verification/ApiBehaviour.v ===== *)
(** What the calls and updates of the API object do. *)
From stdpp Require Import functions relations.
From S2P Require Import Prelude Scale Converters Address Json Storage Metadata Lookup Decode Extrinsic Api ApiInvariant.

(** ** A scripted client

    It answers requests and subscriptions from lists and keeps what was sent. *)

Section script.
Context `{D : Doubles}.

Record script : Type := { answers : list Json; ids : list Z; inbox : list (Z * Json); sent : list Json }.

Definition send {A} (q : Json) (o : outcome A) : call script A := fun s =>
  Some (o, {| answers := answers s; ids := ids s; inbox := inbox s; sent := sent s ++ [q] |}).

Definition not_connected {A} : call script A := ends (Throw (JsonRpcException (str "Not connected"))).

Definition scripted_client : IJsonRpc := {|
  rpc := script;
  rpc_connect url := mret PAPI_OK;
  rpc_disconnect := mret tt;
  rpc_request q _ s :=
    match answers s with
    | a :: r => send q (Ret a) {| answers := r; ids := ids s; inbox := inbox s; sent := sent s |}
    | [] => not_connected s
    end;
  rpc_subscribeWs q s :=
    match ids s with
    | i :: r => send q (Ret i) {| answers := answers s; ids := r; inbox := inbox s; sent := sent s |}
    | [] => not_connected s
    end;
  rpc_unsubscribeWs id method := send (JObject [(str "method", JString method); (str "params", JArray [JInt id])]) (Ret 0);
  rpc_inbox := inbox;
  rpc_set_inbox l s := {| answers := answers s; ids := ids s; inbox := l; sent := sent s |};
|}.
End script.

#[local] Existing Instance numeral_doubles.
#[local] Existing Instance scripted_client.
#[local] Instance no_what : StdWhat := fun _ => [].

Definition start (s : script) : state := {| polka := newCPolkaApi; node := s; calls := []; nonceDone := None |}.

Section behaviour.
Context `{D : Doubles} `{J : !IJsonRpc} `{W : StdWhat}.
Context (sr25519_sign : list Z -> list Z -> list Z -> list Z).

(** ** Running code step by step *)

Lemma bind_this {B} (f : CPolkaApi -> M B) st : (a ← this; f a) st = f (polka st) st.
Proof. done. Qed.

Lemma bind_get_slot {B} s (f : slot -> M B) st : (v ← get_slot s; f v) st = f (slots (polka st) s) st.
Proof. done. Qed.

Lemma bind_get_table {B} t (f : table -> M B) st : (v ← get_table t; f v) st = f (tables (polka st) t) st.
Proof. done. Qed.

Lemma bind_slot_id {B} s id (f : Z -> M B) st :
  subscriptionId (slots (polka st) s) = Some id -> (x ← slot_id s; f x) st = f id st.
Proof. intros H. unfold slot_id, get_slot, mbind, M_bind, call_bind, this, mret, M_ret, call_ret, run. by rewrite H. Qed.

Lemma bind_slot_id_none {B} s (f : Z -> M B) st :
  subscriptionId (slots (polka st) s) = None -> (x ← slot_id s; f x) st = Some (UB, st).
Proof. intros H. unfold slot_id, get_slot, mbind, M_bind, call_bind, this, mret, M_ret, call_ret, run. by rewrite H. Qed.

Lemma bind_run {A B} (o : outcome A) x (f : A -> M B) st : o = Ret x -> (y ← run o; f y) st = f x st.
Proof. by intros ->. Qed.

Lemma invoke_slot_user s u c st :
  subscriber (slots (polka st) s) = Some (User c) -> invoke_slot s u st = Some (Ret tt, add_call c u st).
Proof. intros H. unfold invoke_slot. rewrite bind_get_slot. by rewrite H. Qed.

Lemma invoke_keyed_user t key u c st :
  map_find key (subscribers (tables (polka st) t)) = Some (Some (User c)) ->
  invoke_keyed t key u st = Some (Ret tt, add_call c u st).
Proof. intros H. unfold invoke_keyed. rewrite bind_get_table. by rewrite H. Qed.

(** ** Block numbers *)

(** The header of a new block, with its number in hexadecimal. *)
Definition head_message (digits : list Z) : Json := JObject [(str "number", JString (with_0x digits))].

(** Block numbers reach the application as the node means them only when their
    hexadecimal form has an even number of digits. With an odd number of digits
    (nodes send no leading zeros) the callback is called with sixteen times the
    number of the block. *)
Theorem block_number_update st c id digits :
  slots (polka st) BlockNumberSlot = {| subscriber := Some (User c); subscriptionId := Some id |} ->
  hex_text digits -> 16 * text_value digits < 2 ^ 63 ->
  handleWsMessage id (head_message digits) st
  = Some (Ret tt, add_call c
      (BlockNumber (if Nat.even (length digits) then text_value digits else 16 * text_value digits)) st).
Proof.
  intros Hs Hd Hv. unfold text_value in *. pose proof (hex_prefix_value_mono digits 0 Hd ltac:(lia)).
  unfold handleWsMessage. rewrite bind_this, (bind_slot_id _ id) by by rewrite Hs.
  rewrite Z.eqb_refl. change (at_str (head_message digits) "number") with (JString (with_0x digits)). cbn [string_value].
  rewrite (bind_run _ (if Nat.even (length digits) then text_value digits else 16 * text_value digits)).
  - apply invoke_slot_user. by rewrite Hs.
  - change (fromHex LongLong (with_0x digits) true) with (fromHex_loop LongLong true digits 0 0). destruct (Nat.even (length digits)) eqn:E.
    + apply fromHex_loop_be; [done|by apply Nat.even_spec|done|change (cint_bits LongLong) with 63; lia].
    + apply fromHex_loop_be_odd; [done| |done|change (cint_bits LongLong) with 63; lia]. rewrite <- Nat.odd_spec. unfold Nat.odd. by rewrite E.
Qed.

(** ** Updates of accounts and storage *)

Lemma key_of_id_none id (m : smap Z) : sorted_map m -> (forall k, map_find k m <> Some id) -> key_of_id id m = None.
Proof.
  intros Hs Hn. destruct (key_of_id id m) as [k|] eqn:E; [|done].
  by destruct (Hn k), (key_of_id_spec id m k Hs E).
Qed.

Lemma key_of_id_unique id (m : smap Z) key :
  sorted_map m -> map_find key m = Some id -> (forall k, map_find k m = Some id -> k = key) -> key_of_id id m = Some key.
Proof.
  intros Hs Hf Hu. destruct (key_of_id id m) as [k|] eqn:E.
  - by rewrite (Hu k (key_of_id_spec id m k Hs E)).
  - unfold key_of_id in E. destruct (list_find _ m) as [[? [? ?]]|] eqn:El; [done|].
    apply list_find_None in El. rewrite Forall_forall in El.
    by destruct (El (key, id) (map_find_elem _ _ _ Hf)).
Qed.

(** What the callback of an account is called with. *)
Definition account_update (t : table_name) (message : Json) : outcome update :=
  let value := string_value (change message 0 1) in
  match t with
  | NonceTable => AccountNonce <$> fromHex UnsignedLong value false
  | BalanceTable => Balance <$> fromHex UInt128 value false
  | StorageTable => UB
  end.

(** The subscription [key] of [t] has the id [id]; no other account has, and the
    subscription of block numbers has not. *)
Definition sole_owner (a : CPolkaApi) (t : table_name) (key : text) (id : Z) : Prop :=
  map_find key (subscriptionIds (tables a t)) = Some id
  /\ (forall t' key', map_find key' (subscriptionIds (tables a t')) = Some id -> t' = t /\ key' = key)
  /\ (exists i, subscriptionId (slots a BlockNumberSlot) = Some i /\ i <> id).

Lemma owner_key a t key id : wf a -> sole_owner a t key id -> key_of_id id (subscriptionIds (tables a t)) = Some key.
Proof.
  intros [_ Hwf] (Hf & Hu & _). apply key_of_id_unique; [apply (Hwf t)|done|]. intros k Hk. by apply (Hu t k).
Qed.

Lemma other_table a t t' key id : wf a -> sole_owner a t key id -> t' <> t -> key_of_id id (subscriptionIds (tables a t')) = None.
Proof.
  intros [_ Hwf] (Hf & Hu & _) Hne. apply key_of_id_none; [apply (Hwf t')|]. intros k Hk. by destruct (Hu t' k Hk).
Qed.

(** C20: updates of nonces and balances are routed. In every reachable state where
    one subscription has the id, its callback is called, once, with the value that
    the update carries in little-endian hexadecimal, no other callback is, and
    nothing else changes. *)
Theorem account_update_routed st0 st t key id c message u :
  initial st0 -> rtc (step sr25519_sign) st0 st ->
  sole_owner (polka st) t key id -> map_find key (subscribers (tables (polka st) t)) = Some (Some (User c)) ->
  account_update t message = Ret u ->
  handleWsMessage id message st = Some (Ret tt, add_call c u st).
Proof.
  intros H0 Hr Ho Hc Hu. apply (reachable_wf sr25519_sign st0 st H0) in Hr as Hwf.
  destruct (proj2 (proj2 Ho)) as (i & Hi & Hne).
  unfold handleWsMessage. rewrite bind_this, (bind_slot_id _ i), (proj2 (Z.eqb_neq _ _)) by done.
  destruct t; cbn [account_update] in Hu; [| |done].
  - rewrite (owner_key _ NonceTable key id Hwf Ho). destruct (fromHex UnsignedLong _ _) as [n| |]; [|done..].
    injection Hu as <-. by apply invoke_keyed_user.
  - rewrite (other_table _ BalanceTable NonceTable key id Hwf Ho) by done.
    rewrite (owner_key _ BalanceTable key id Hwf Ho). destruct (fromHex UInt128 _ _) as [n| |]; [|done..].
    injection Hu as <-. by apply invoke_keyed_user.
Qed.

(** ** Progress of eras *)

(** C36: the progress that is reported of an epoch-based era is right and in range:
    for [e] complete epochs of [d] slots since the genesis slot [g], eras of [n]
    epochs, and a current slot [c] in the running epoch, the epoch's progress is
    the slots since its start, the era's progress adds the complete epochs of this
    era, and it is less than the era's length; nothing overflows. *)
Theorem epoch_progress p message e g c d n :
  babeEpochDuration p = Some d -> sessionsPerEra p = Some n ->
  read_change message 0 = Ret e -> read_change message 1 = Ret g -> read_change message 2 = Ret c ->
  0 < d -> 0 < n -> n * d < 2 ^ 63 -> 0 <= e -> 0 <= g -> d * e + g <= c < d * e + g + d -> c < 2 ^ 63 ->
  let progress := e mod n * d + (c - (d * e + g)) in
  epoch_update p message
  = Ret ({| eraProgress := progress; eraLength := n * d |},
         {| isEpoch := true; sessionLength := None; sessionProgress := None;
            epochProgress := Some (c - (d * e + g)); epochLength := Some d |})
  /\ 0 <= progress < n * d.
Proof.
  intros Hd Hn He Hg Hc Hd0 Hn0 Hnd He0 Hg0 Hr Hc64 progress.
  assert (0 <= e mod n < n) as Hmod by (apply Z.mod_pos_bound; lia).
  assert (0 <= e mod n * d <= (n - 1) * d) as Hmd by nia.
  assert (0 <= d * e) by nia. split; [|unfold progress; nia].
  unfold epoch_update. rewrite He, Hg, Hc, Hd, Hn. cbn [written]. ostep.
  rewrite (chk64_ok (d * e)) by lia. ostep. rewrite (chk64_ok (d * e + g)) by lia. ostep.
  rewrite (chk64_ok (c - _)) by lia. ostep. unfold rem64.
  assert ((n =? 0) || ((e =? - 2 ^ 63) && (n =? -1)) = false) as -> by lia. ostep.
  rewrite Z.rem_mod_nonneg by lia. rewrite (chk64_ok (e mod n * d)) by lia. ostep.
  rewrite chk64_ok by lia. ostep. by rewrite chk64_ok by lia.
Qed.

(** The same for sessions: with the length [l] of a session that last changed at
    block [b0], at least one session before the best block or later, the session's
    progress is [(best - b0) mod l]; with [n] sessions per era and the session
    index [i] the era's progress is less than its length; and nothing is reported
    while a value is missing. *)
Theorem session_progress best message b0 l era n i :
  read_change message 0 = Ret b0 -> read_change message 1 = Ret l -> read_change message 2 = Ret era ->
  read_change message 3 = Ret n -> read_change message 4 = Ret i ->
  0 <= b0 -> 0 <= l -> 0 <= era -> 0 <= n -> 0 <= i -> b0 - l <= best -> best + l < 2 ^ 63 -> n * l < 2 ^ 63 ->
  session_update best message
  = Ret (if (b0 =? 0) || (l =? 0) || (era =? 0) || (n =? 0) || (i =? 0) then None
         else Some ({| eraProgress := i mod n * l + (best - b0) mod l; eraLength := n * l |},
                    {| isEpoch := false; sessionLength := Some l; sessionProgress := Some ((best - b0) mod l);
                       epochProgress := None; epochLength := None |}))
  /\ (0 < l -> 0 < n -> 0 <= i mod n * l + (best - b0) mod l < n * l).
Proof.
  intros H0 H1 H2 H3 H4 Hb Hl He Hn Hi Hbest Hsum Hnl.
  assert (0 < l -> 0 <= (best - b0) mod l < l) as Hm by (intros; apply Z.mod_pos_bound; lia).
  assert (0 < n -> 0 <= i mod n < n) as Hn' by (intros; apply Z.mod_pos_bound; lia).
  split; [|intros Hl0 Hn0; specialize (Hm Hl0); specialize (Hn' Hn0); nia].
  unfold session_update. rewrite H0, H1, H2, H3, H4. ostep.
  destruct ((b0 =? 0) || (l =? 0) || (era =? 0) || (n =? 0) || (i =? 0)) eqn:E.
  { assert ((0 <? b0) && (0 <? l) && (0 <? era) && (0 <? n) && (0 <? i) = false) as -> by lia. done. }
  assert ((0 <? b0) && (0 <? l) && (0 <? era) && (0 <? n) && (0 <? i) = true) as -> by lia.
  assert (0 <= i mod n * l <= (n - 1) * l) as Hil by (specialize (Hn' ltac:(lia)); nia).
  specialize (Hm ltac:(lia)).
  rewrite (chk64_ok (best - b0)) by lia. ostep. rewrite (chk64_ok (best - b0 + l)) by lia. ostep. unfold rem64.
  assert ((l =? 0) || ((best - b0 + l =? - 2 ^ 63) && (l =? -1)) = false) as -> by lia. ostep.
  assert ((n =? 0) || ((i =? - 2 ^ 63) && (n =? -1)) = false) as -> by lia. ostep.
  rewrite !Z.rem_mod_nonneg by lia. replace (best - b0 + l) with (best - b0 + 1 * l) by lia.
  rewrite Z_mod_plus_full. rewrite (chk64_ok (i mod n * l)) by lia. ostep.
  rewrite chk64_ok by lia. ostep. by rewrite chk64_ok by lia.
Qed.

(** ** Subscriptions that cannot be used *)

(** No subscription of another kind than storage has the id. *)
Definition only_storage (a : CPolkaApi) (id : Z) : Prop :=
  key_of_id id (subscriptionIds (tables a NonceTable)) = None
  /\ key_of_id id (subscriptionIds (tables a BalanceTable)) = None
  /\ forall s, subscriptionId (slots a s) <> Some id.

(** Comparing the id of a slot that does not match either goes on or is undefined. *)
Lemma skip_or_stuck {B} s id (k k' : M B) st :
  subscriptionId (slots (polka st) s) <> Some id -> k' st = Some (UB, st) ->
  (x ← slot_id s; if x =? id then k else k') st = Some (UB, st).
Proof.
  intros Hs Hk. destruct (subscriptionId (slots (polka st) s)) as [i|] eqn:E.
  - rewrite (bind_slot_id _ i) by done. rewrite (proj2 (Z.eqb_neq i id)) by congruence. done.
  - by apply bind_slot_id_none.
Qed.

Lemma last_undefined id m st : unset (polka st) -> handle_last id m st = Some (UB, st).
Proof. intros [Hf _]. unfold handle_last. by apply bind_slot_id_none. Qed.

Lemma storage_update_undefined id m st :
  unset (polka st) -> only_storage (polka st) id -> handleWsMessage id m st = Some (UB, st).
Proof.
  intros Hu (Hn & Hb & Hs). unfold handleWsMessage. rewrite bind_this. apply skip_or_stuck; [done|]. rewrite Hn, Hb.
  unfold handle_extrinsics. apply skip_or_stuck; [done|]. apply skip_or_stuck; [done|].
  unfold handle_era. rewrite bind_this. destruct (subscriptionId (slots (polka st) EraSlot)) as [i|] eqn:E.
  - rewrite (bind_slot_id _ i) by done. rewrite (proj2 (Z.eqb_neq i id)) by (specialize (Hs EraSlot); congruence).
    by apply last_undefined.
  - by apply bind_slot_id_none.
Qed.

Lemma subscribe_unset s q cb st :
  subscriptionId (slots (polka st) s) = None -> exists st', subscribe_slot s q cb st = Some (UB, st').
Proof.
  intros H. unfold subscribe_slot, set_subscriber. unfold mbind at 1, M_bind at 1, call_bind at 1. rewrite bind_get_slot. cbn [modify].
  unfold subscribe_once. unfold mbind at 1, M_bind at 1, call_bind at 1. rewrite bind_slot_id_none; [by eexists|].
  cbn. by rewrite fn_lookup_insert.
Qed.

(** Three kinds of subscription have undefined behaviour whatever was called
    before. In every reachable state, subscribing to finalized heads or runtime
    versions (and ending that) reads an id that was never assigned; and so does
    every update of a storage subscription, whose id is compared after theirs. *)
Theorem subscriptions_undefined st0 st :
  initial st0 -> rtc (step sr25519_sign) st0 st ->
  (forall c, exists st', subscribeFinalizedBlock (User c) st = Some (UB, st'))
  /\ (forall c, exists st', subscribeRuntimeVersion (User c) st = Some (UB, st'))
  /\ unsubscribeFinalizedBlock st = Some (UB, st) /\ unsubscribeRuntimeVersion st = Some (UB, st)
  /\ (forall id message, only_storage (polka st) id -> handleWsMessage id message st = Some (UB, st)).
Proof.
  intros H0 Hr. assert (unset (polka st)) as Hu by (apply (reachable_keeps sr25519_sign unset st0); done).
  pose proof Hu as [Hf Hrt]. repeat split.
  - intros c. by apply subscribe_unset.
  - intros c. by apply subscribe_unset.
  - by apply bind_slot_id_none.
  - by apply bind_slot_id_none.
  - intros id m Ho. by apply storage_update_undefined.
Qed.

(** ** Eras and block numbers share a subscription *)

Definition takes_block_numbers (a : CPolkaApi) : Prop := subscriber (slots a BlockNumberSlot) = Some SetBestBlock.

Definition no_block_numbers (a : CPolkaApi) : Prop := subscriptionId (slots a BlockNumberSlot) = Some 0.

Definition anything (a : CPolkaApi) : Prop := True.

Lemma triple_anything {A} P (m : M A) : triple P m (fun _ => anything) anything.
Proof. intros st o st' HP E. by destruct o. Qed.

Lemma block_set_slot a s v :
  takes_block_numbers a -> (s = BlockNumberSlot -> subscriber v = Some SetBestBlock) -> takes_block_numbers (set_slot s v a).
Proof.
  intros Ha Hv. unfold takes_block_numbers. cbn. destruct (decide (s = BlockNumberSlot)) as [->|Hne].
  - rewrite fn_lookup_insert. auto.
  - by rewrite fn_lookup_insert_ne.
Qed.

Lemma block_set_id s id : triple takes_block_numbers (set_slot_id s id) (fun _ => takes_block_numbers) anything.
Proof.
  unfold set_slot_id. eapply triple_bind; [apply triple_get_slot|]. intros v. apply triple_modify.
  intros a [Ha ->]. apply block_set_slot; [done|]. by intros ->.
Qed.

Lemma block_subscribe_once s q : triple takes_block_numbers (subscribe_once s q) (fun _ => takes_block_numbers) anything.
Proof.
  unfold subscribe_once. eapply triple_bind; [apply triple_slot_id|]. intros id.
  eapply (triple_weaken takes_block_numbers _ _ (fun _ => takes_block_numbers) _ anything); [|by intros a []|done|done].
  destruct (id =? 0); [|by apply triple_ret].
  eapply triple_bind; [eapply triple_weaken; [apply (triple_node takes_block_numbers)|done|done|done]|].
  intros newId. apply block_set_id.
Qed.

Lemma triple_era_subscription cb :
  triple anything (subscribeEraAndSession cb) (fun _ => takes_block_numbers) anything.
Proof.
  unfold subscribeEraAndSession, subscribeBlockNumber, subscribe_slot.
  eapply (triple_bind _ _ (fun _ => anything)); [apply triple_anything|]. intros ?.
  eapply (triple_bind _ _ (fun _ => takes_block_numbers)).
  { eapply (triple_bind _ _ (fun _ => takes_block_numbers)).
    - unfold set_subscriber. eapply triple_bind; [apply triple_get_slot|]. intros v. apply triple_modify.
      intros a _. unfold takes_block_numbers. cbn. by rewrite fn_lookup_insert.
    - intros ?. eapply triple_bind; [apply block_subscribe_once|]. intros ?. by apply triple_ret. }
  intros ?. eapply (triple_bind _ _ (fun _ => takes_block_numbers)).
  { eapply triple_weaken; [apply (triple_this takes_block_numbers anything)|done| |done]. by intros ? a []. }
  intros a. eapply (triple_bind _ _ (fun _ => takes_block_numbers)).
  { eapply triple_weaken; [apply (triple_run takes_block_numbers)|done|done|done]. }
  intros epochs. eapply triple_bind; [apply block_subscribe_once|]. intros ?. by apply triple_ret.
Qed.

Lemma triple_era_end : triple anything unsubscribeEraAndSession (fun _ => no_block_numbers) anything.
Proof.
  unfold unsubscribeEraAndSession. eapply (triple_bind _ _ (fun _ => anything)); [apply triple_anything|]. intros ?.
  eapply (triple_bind _ _ (fun _ => no_block_numbers)); [|intros _; by apply triple_ret].
  unfold unsubscribeBlockNumber, unsubscribe_slot. eapply triple_bind; [apply triple_slot_id|]. intros id.
  eapply (triple_bind _ _ (fun _ => no_block_numbers)); [|intros _; by apply triple_ret].
  destruct (Z.eqb_spec id 0) as [->|_]; [apply triple_ret; by intros a []|].
  eapply (triple_bind _ _ (fun _ => anything)); [apply triple_anything|]. intros ?.
  apply triple_modify. intros a _. unfold no_block_numbers. cbn. by rewrite fn_lookup_insert.
Qed.

(** Subscribing to eras takes the subscription of block numbers away from the
    application. When it returns, new block numbers go to the API itself, whatever
    callback was registered for them; and ending the era subscription ends that of
    block numbers too. *)
Theorem era_takes_block_numbers st cb st' r :
  subscribeEraAndSession cb st = Some (Ret r, st') ->
  subscriber (slots (polka st') BlockNumberSlot) = Some SetBestBlock
  /\ forall st'' r', unsubscribeEraAndSession st' = Some (Ret r', st'') ->
       subscriptionId (slots (polka st'') BlockNumberSlot) = Some 0.
Proof.
  intros E. split.
  - pose proof (triple_era_subscription cb st (Ret r) st' I E) as H. exact H.
  - intros st'' r' E'. pose proof (triple_era_end st' (Ret r') st'' I E') as H. exact H.
Qed.

(** ** getAccountNonce *)

Definition nonce_known (address : text) (a : CPolkaApi) : Prop :=
  wf a /\ exists id, map_find address (subscriptionIds (tables a NonceTable)) = Some id.

Definition nonce_gone (address : text) (a : CPolkaApi) : Prop :=
  map_find address (subscriptionIds (tables a NonceTable)) = None
  /\ map_find address (subscribers (tables a NonceTable)) = None.

(** Handling an update does not touch the ids of accounts. *)
Definition same_ids (a a' : CPolkaApi) : Prop := forall t, subscriptionIds (tables a' t) = subscriptionIds (tables a t).

Lemma same_refl a : same_ids a a.
Proof. done. Qed.

Lemma same_invoke a cb u : keeps (same_ids a) (invoke cb u).
Proof.
  intros st o st' HP E. destruct cb as [[c| |]|]; cbn in E; [by injection E as <- <-| | |by injection E as <- <-];
    destruct u; by injection E as <- <-.
Qed.

Lemma same_invoke_keyed a t key u : keeps (same_ids a) (invoke_keyed t key u).
Proof.
  unfold invoke_keyed. eapply (triple_bind _ _ (fun v a' => same_ids a a' /\ v = tables a' t)); [apply triple_get_table|].
  intros v. apply triple_pre. intros a' [Ha ->]. apply (triple_weaken (same_ids a) _ _ (fun _ => same_ids a) _ (same_ids a));
    [|by intros ? ->|done|done].
  destruct (map_find key _); [apply same_invoke|]. apply keeps_bind; [|intros; apply same_invoke].
  apply keeps_modify. intros b Hb t'. cbn. destruct (decide (t = t')) as [<-|Hne].
  - rewrite fn_lookup_insert. cbn. by rewrite Ha.
  - by rewrite fn_lookup_insert_ne.
Qed.

#[local] Hint Resolve keeps_ret keeps_run keeps_this keeps_slot_id same_invoke same_invoke_keyed : keeps.

Lemma same_handle a id m : keeps (same_ids a) (handleWsMessage id m).
Proof.
  unfold handleWsMessage, handle_extrinsics, handle_era, handle_last, invoke_slot, get_slot. keeps.
  by apply keeps_modify.
Qed.

Lemma same_wait a inbox : keeps (same_ids a) (wait_nonce inbox).
Proof.
  induction inbox as [|[id m] inbox IH]; intros st o st' HP E; cbn [wait_nonce] in E.
  - destruct (nonceDone st); [by injection E as <- <-|done].
  - destruct (nonceDone st); [by injection E as <- <-|].
    by apply (keeps_bind _ _ _ (same_handle a id m) (fun _ => IH) st).
Qed.

Lemma known_wait address inbox : keeps (nonce_known address) (wait_nonce inbox).
Proof.
  intros st o st' [Hwf [id Hid]] E.
  assert (forall a', same_ids (polka st) a' -> wf a' -> nonce_known address a') as Hk.
  { intros a' Hs Hw. split; [done|]. exists id. by rewrite Hs. }
  pose proof (keeps_wait_nonce wf inbox st o st' Hwf E) as Hw.
  pose proof (same_wait (polka st) inbox st o st' (same_refl _) E) as Hs. destruct o; auto.
Qed.

Lemma known_subscribe address cb :
  triple wf (subscribeAccountNonce address cb) (fun _ => nonce_known address) anything.
Proof.
  unfold subscribeAccountNonce, subscribe_keyed. eapply triple_bind; [apply triple_get_table|]. intros v.
  set (P := fun a => wf a /\ map_find address (subscribers (tables a NonceTable)) = Some (Some cb)
                      /\ subscriptionIds (tables a NonceTable) = subscriptionIds v).
  eapply (triple_bind _ _ (fun _ => P)).
  { apply triple_modify. intros a [Ha ->]. split; [|split].
    - apply wf_set_table; [done|]. apply table_wf_add, (proj2 Ha).
    - cbn. rewrite fn_lookup_insert. apply map_find_set.
    - cbn. by rewrite fn_lookup_insert. }
  intros []. destruct (map_find address (subscriptionIds v)) as [id|] eqn:E.
  { apply triple_ret. intros a (Ha & _ & Hids). split; [done|]. exists id. by rewrite Hids. }
  eapply triple_bind; [eapply triple_weaken; [apply (keeps_account_query _ _ P)|done|done|done]|]. intros q.
  eapply triple_bind; [eapply triple_weaken; [apply (triple_node P)|done|done|done]|]. intros id.
  eapply triple_bind; [apply triple_get_table|]. intros v'. eapply (triple_bind _ _ (fun _ => nonce_known address)).
  - apply triple_modify. intros a [(Ha & Hcb & _) ->]. split.
    + apply wf_set_table; [done|]. apply (table_wf_id _ address cb id); [apply (proj2 Ha)|done].
    + exists id. cbn. rewrite fn_lookup_insert. apply map_find_set.
  - intros []. by apply triple_ret.
Qed.

Lemma known_unsubscribe address :
  triple (nonce_known address) (unsubscribeAccountNonce address) (fun _ => nonce_gone address) anything.
Proof.
  unfold unsubscribeAccountNonce, unsubscribe_keyed.
  eapply (triple_bind _ _ (fun v a => nonce_known address a /\ v = tables a NonceTable)); [apply triple_get_table|].
  intros v. apply triple_pre. intros a [[Ha [id Hid]] ->]. rewrite Hid.
  eapply (triple_bind _ _ (fun _ a' => a' = a)); [eapply triple_weaken; [apply (triple_node (fun a' => a' = a))|done|done|done]|].
  intros z. eapply (triple_bind _ _ (fun v a' => a' = a /\ v = tables a' NonceTable)); [apply triple_get_table|].
  intros v'. eapply (triple_bind _ _ (fun _ => nonce_gone address)); [|intros []; by apply triple_ret].
  apply triple_modify. intros a' [-> ->]. destruct (proj2 Ha NonceTable) as (H1 & H2 & _).
  split; cbn; rewrite fn_lookup_insert; by apply map_find_erase.
Qed.

Lemma getAccountNonce_triple address :
  triple wf (getAccountNonce address) (fun _ => nonce_gone address) anything.
Proof.
  unfold getAccountNonce. eapply (triple_bind _ _ (fun _ => wf)); [by intros st o st' Hwf [= <- <-]|]. intros [].
  eapply triple_bind; [apply known_subscribe|]. intros r.
  eapply (triple_bind _ _ (fun _ => nonce_known address)).
  { intros st o st' HP E. pose proof (known_wait address _ st o st' HP E). by destruct o. }
  intros n. eapply triple_bind; [apply known_unsubscribe|]. intros ?. by apply triple_ret.
Qed.

(** [getAccountNonce] ends the subscription of the address that the application
    may have: whenever it returns, in any reachable state, the address has neither
    a callback nor an id any more. *)
Theorem getAccountNonce_ends_subscription st0 st address n st' :
  initial st0 -> rtc (step sr25519_sign) st0 st -> getAccountNonce address st = Some (Ret n, st') ->
  nonce_gone address (polka st').
Proof.
  intros H0 Hr E. apply (reachable_wf sr25519_sign st0 st H0) in Hr.
  by apply (getAccountNonce_triple address st (Ret n) st' Hr E).
Qed.

Lemma bind_Some {A B} (m : M A) (f : A -> M B) x st st' : m st = Some (Ret x, st') -> (y ← m; f y) st = f x st'.
Proof. intros H. unfold mbind, M_bind, call_bind. by rewrite H. Qed.

(** The nonce table once the API itself has subscribed. *)
Definition with_nonce (address : text) (id : Z) (t : table) : table :=
  {| subscribers := map_set address (Some SetNonce) (subscribers t); subscriptionIds := map_set address id (subscriptionIds t) |}.

Lemma account_query_ok st address prefix h key :
  FreeBalanceHasher (protocolPrm (polka st)) = Some h -> (ADDRESS_LENGTH <= length address)%nat ->
  getAddressStorageKey h {| symbols := take ADDRESS_LENGTH address |} (str prefix) = Ret key ->
  account_query address prefix st = Some (Ret (query "state_subscribeStorage" [JArray [JString key]]), st).
Proof.
  intros Hh Hl Hk. unfold account_query. rewrite bind_this.
  erewrite bind_run by (unfold read_n; rewrite length_app; cbn [length];
    rewrite (proj2 (Nat.leb_le _ _)) by lia; reflexivity).
  erewrite bind_run by (by rewrite Hh). rewrite drop_0, take_app_le by done.
  erewrite bind_run by apply Hk. reflexivity.
Qed.

Lemma subscribe_nonce_ok st address h key id r1 :
  FreeBalanceHasher (protocolPrm (polka st)) = Some h -> (ADDRESS_LENGTH <= length address)%nat ->
  getAddressStorageKey h {| symbols := take ADDRESS_LENGTH address |} (str "System AccountNonce") = Ret key ->
  map_find address (subscriptionIds (tables (polka st) NonceTable)) = None ->
  rpc_subscribeWs (query "state_subscribeStorage" [JArray [JString key]]) (node st) = Some (Ret id, r1) ->
  exists st1, subscribeAccountNonce address SetNonce st = Some (Ret PAPI_OK, st1)
    /\ node st1 = r1 /\ calls st1 = calls st /\ nonceDone st1 = nonceDone st
    /\ slots (polka st1) = slots (polka st)
    /\ tables (polka st1) NonceTable = with_nonce address id (tables (polka st) NonceTable)
    /\ forall t, t <> NonceTable -> tables (polka st1) t = tables (polka st) t.
Proof.
  intros Hh Hl Hk Hn Hs. unfold subscribeAccountNonce, subscribe_keyed. rewrite bind_get_table.
  erewrite bind_Some by reflexivity. rewrite Hn. cbn [polka set_table protocolPrm tables node calls nonceDone].
  erewrite (bind_Some (account_query _ _)); [|by eapply account_query_ok].
  erewrite (bind_Some (subscribeWs _)); [|unfold subscribeWs, on_node, on_part; cbn [node]; by rewrite Hs].
  rewrite bind_get_table. erewrite bind_Some by reflexivity. eexists. split; [reflexivity|].
  cbn. rewrite !fn_lookup_insert. repeat split. intros t Ht. by rewrite !fn_lookup_insert_ne.
Qed.

Lemma wait_first st address id message rest n :
  nonceDone st = None -> wf (polka st) -> sole_owner (polka st) NonceTable address id ->
  map_find address (subscribers (tables (polka st) NonceTable)) = Some (Some SetNonce) ->
  fromHex UnsignedLong (string_value (change message 0 1)) false = Ret n ->
  wait_nonce ((id, message) :: rest) st
  = Some (Ret n, set_node (rpc_set_inbox rest (node st)) (set_nonceDone (Some n) st)).
Proof.
  intros Hd Hwf Ho Hc Hv. cbn [wait_nonce]. rewrite Hd. destruct (proj2 (proj2 Ho)) as (b & Hb & Hne).
  assert (handleWsMessage id message st = Some (Ret tt, set_nonceDone (Some n) st)) as E.
  { unfold handleWsMessage. rewrite bind_this, (bind_slot_id _ b), (proj2 (Z.eqb_neq _ _)) by done.
    rewrite (owner_key _ NonceTable address id Hwf Ho). rewrite (bind_run _ n) by done.
    unfold invoke_keyed. by rewrite bind_get_table, Hc. }
  rewrite (bind_Some _ _ _ _ _ E). by destruct rest.
Qed.

Lemma unsubscribe_ok st t key id method z r2 :
  map_find key (subscriptionIds (tables (polka st) t)) = Some id ->
  rpc_unsubscribeWs id (str method) (node st) = Some (Ret z, r2) ->
  exists st', unsubscribe_keyed t key method st = Some (Ret PAPI_OK, st')
    /\ node st' = r2 /\ calls st' = calls st /\ slots (polka st') = slots (polka st).
Proof.
  intros Hid Hu. unfold unsubscribe_keyed. rewrite bind_get_table, Hid.
  erewrite (bind_Some (unsubscribeWs _ _)); [|unfold unsubscribeWs, on_node, on_part; by rewrite Hu].
  rewrite bind_get_table. erewrite bind_Some by reflexivity. eexists. split; [reflexivity|]. done.
Qed.

(** C21: [getAccountNonce] returns the account's nonce. In a reachable state after
    [connect], for an address that is not subscribed: when the client subscribes
    under an id of its own and the first update that arrives carries a nonce, the
    call returns that nonce, ends the subscription, and calls no callback of the
    application. *)
Theorem getAccountNonce_returns st0 st address h key id r1 message rest n z r2 :
  initial st0 -> rtc (step sr25519_sign) st0 st ->
  FreeBalanceHasher (protocolPrm (polka st)) = Some h -> (ADDRESS_LENGTH <= length address)%nat ->
  getAddressStorageKey h {| symbols := take ADDRESS_LENGTH address |} (str "System AccountNonce") = Ret key ->
  map_find address (subscriptionIds (tables (polka st) NonceTable)) = None ->
  rpc_subscribeWs (query "state_subscribeStorage" [JArray [JString key]]) (node st) = Some (Ret id, r1) ->
  rpc_inbox r1 = (id, message) :: rest ->
  (forall t k, map_find k (subscriptionIds (tables (polka st) t)) <> Some id) ->
  (exists b, subscriptionId (slots (polka st) BlockNumberSlot) = Some b /\ b <> id) ->
  fromHex UnsignedLong (string_value (change message 0 1)) false = Ret n ->
  rpc_unsubscribeWs id (str "state_unsubscribeStorage") (rpc_set_inbox rest r1) = Some (Ret z, r2) ->
  exists st', getAccountNonce address st = Some (Ret n, st') /\ node st' = r2 /\ calls st' = calls st
    /\ slots (polka st') = slots (polka st).
Proof.
  intros H0 Hr Hh Hl Hk Hn Hs Hin Hids Hb Hv Hu. apply (reachable_wf sr25519_sign st0 st H0) in Hr as Hwf.
  unfold getAccountNonce. erewrite bind_Some by reflexivity.
  destruct (subscribe_nonce_ok (set_nonceDone None st) address h key id r1 Hh Hl Hk Hn Hs)
    as (st1 & E1 & Hnode & Hcalls & Hdone & Hslots & Hnt & Hot).
  assert (wf (polka st1)) as Hwf1.
  { pose proof (known_subscribe address SetNonce (set_nonceDone None st) (Ret PAPI_OK) st1 Hwf E1) as [Hw _]. exact Hw. }
  erewrite (bind_Some (subscribeAccountNonce _ _)) by exact E1. cbn [polka set_nonceDone] in *.
  assert (sole_owner (polka st1) NonceTable address id) as Ho.
  { split; [|split].
    - rewrite Hnt. apply map_find_set.
    - intros t k Hkt. destruct (decide (t = NonceTable)) as [->|Hne]; [|rewrite Hot in Hkt by done; by destruct (Hids t k)].
      split; [done|]. rewrite Hnt in Hkt. cbn in Hkt. destruct (decide (k = address)) as [|Hka]; [done|].
      rewrite map_find_set_ne in Hkt by done. by destruct (Hids NonceTable k).
    - by rewrite Hslots. }
  assert (map_find address (subscribers (tables (polka st1) NonceTable)) = Some (Some SetNonce)) as Hc
    by (rewrite Hnt; apply map_find_set).
  erewrite bind_Some; [|rewrite Hnode, Hin; by apply (wait_first st1 address id)].
  edestruct (unsubscribe_ok (set_node (rpc_set_inbox rest (node st1)) (set_nonceDone (Some n) st1)) NonceTable address id)
    as (st' & E' & Hn' & Hc' & Hs'); [apply Ho|cbn; rewrite Hnode; apply Hu|].
  unfold unsubscribeAccountNonce. erewrite (bind_Some (unsubscribe_keyed _ _ _)) by exact E'. eexists. split; [reflexivity|].
  rewrite Hn', Hc', Hs'. cbn. by rewrite Hcalls, Hslots.
Qed.

(** ** Extrinsics *)

Lemma set_subscriber_eq s cb (st : state) : exists st', set_subscriber s cb st = Some (Ret tt, st')
  /\ node st' = node st /\ calls st' = calls st /\ tables (polka st') = tables (polka st)
  /\ slots (polka st') s = {| subscriber := Some cb; subscriptionId := subscriptionId (slots (polka st) s) |}
  /\ forall s', s' <> s -> slots (polka st') s' = slots (polka st) s'.
Proof.
  eexists. split; [reflexivity|]. cbn. split_and!; try done; [by rewrite fn_lookup_insert|].
  intros s' Hs. by rewrite fn_lookup_insert_ne.
Qed.

Lemma set_slot_id_eq s id (st : state) : exists st', set_slot_id s id st = Some (Ret tt, st')
  /\ node st' = node st /\ calls st' = calls st /\ tables (polka st') = tables (polka st)
  /\ slots (polka st') s = {| subscriber := subscriber (slots (polka st) s); subscriptionId := Some id |}
  /\ forall s', s' <> s -> slots (polka st') s' = slots (polka st) s'.
Proof.
  eexists. split; [reflexivity|]. cbn. split_and!; try done; [by rewrite fn_lookup_insert|].
  intros s' Hs. by rewrite fn_lookup_insert_ne.
Qed.

(** No other subscription has the id. *)
Definition fresh_id (sid : Z) (a : CPolkaApi) : Prop :=
  (forall s, s ∈ [BlockNumberSlot; ExtrinsicSlot] -> exists id, subscriptionId (slots a s) = Some id /\ id <> sid)
  /\ key_of_id sid (subscriptionIds (tables a NonceTable)) = None
  /\ key_of_id sid (subscriptionIds (tables a BalanceTable)) = None.

Lemma fresh_id_same (st st' : state) id : fresh_id id (polka st) -> tables (polka st') = tables (polka st) ->
  (forall s, s <> TransferSlot -> slots (polka st') s = slots (polka st) s) -> fresh_id id (polka st').
Proof.
  intros (Hs & Hn & Hb) Ht Ho. split; [|by rewrite Ht]. intros s Hin. rewrite Ho by (intros ->; set_solver). by apply Hs.
Qed.

Definition set_polka (a : CPolkaApi) (st : state) : state :=
  {| polka := a; node := node st; calls := calls st; nonceDone := nonceDone st |}.

(** An update with the id of the transfer goes to its callback. *)
Lemma transfer_update_eq sid o message (st : state) : fresh_id sid (polka st) ->
  slots (polka st) TransferSlot = {| subscriber := o; subscriptionId := Some sid |} ->
  handleWsMessage sid message st
  = (if contains (str "ready") (dump message) then invoke o (TransferStatus (str "ready"))
     else if contains (str "finalized") (dump message) then
       invoke o (TransferStatus (str "finalized"));; modify (set_slot TransferSlot cleared)
     else mret tt) st.
Proof.
  intros (Hs & Hn & Hb) Ht.
  destruct (Hs BlockNumberSlot) as (b & Eb & Nb); [by left|]. destruct (Hs ExtrinsicSlot) as (e & Ee & Ne); [by right; left|].
  unfold handleWsMessage. rewrite bind_this, (bind_slot_id _ _ _ _ Eb), (proj2 (Z.eqb_neq b sid)), Hn, Hb by done.
  unfold handle_extrinsics. rewrite (bind_slot_id _ _ _ _ Ee), (proj2 (Z.eqb_neq e sid)) by done.
  rewrite (bind_slot_id _ sid) by (by rewrite Ht). rewrite Z.eqb_refl.
  assert (forall u, invoke_slot TransferSlot u st = invoke o u st) as Hi by (intros u; unfold invoke_slot; by rewrite bind_get_slot, Ht).
  destruct (contains _ _); [apply Hi|]. destruct (contains _ _); [|done].
  unfold mbind, M_bind, call_bind. by rewrite Hi.
Qed.

Lemma transfer_update sid c message (st : state) : fresh_id sid (polka st) ->
  slots (polka st) TransferSlot = {| subscriber := Some (User c); subscriptionId := Some sid |} ->
  (contains (str "ready") (dump message) = true ->
     handleWsMessage sid message st = Some (Ret tt, add_call c (TransferStatus (str "ready")) st))
  /\ (contains (str "ready") (dump message) = false -> contains (str "finalized") (dump message) = true ->
     handleWsMessage sid message st
     = Some (Ret tt, set_polka (set_slot TransferSlot cleared (polka st)) (add_call c (TransferStatus (str "finalized")) st))).
Proof.
  intros Hf Ht. rewrite (transfer_update_eq _ _ _ _ Hf Ht). split; [by intros ->|by intros -> ->].
Qed.
End behaviour.

(** ** On a scripted client *)

Definition no_sign (pk sk msg : list Z) : list Z := replicate 64 0.

Definition sample_script : script :=
  {| answers := [JNull; JNull]; ids := [7; 8; 9]; inbox := []; sent := [] |}.

(** One public call that returns in [st'], which the goal determines. *)
Ltac one_call c :=
  eapply rtc_l; [eapply (step_public no_sign _ _ (Ret _)); [apply c|reflexivity|discriminate]|].

Definition block_subscribed : state :=
  {| polka := set_slot BlockNumberSlot {| subscriber := Some (User 1); subscriptionId := Some 7 |}
                (set_slot BlockNumberSlot {| subscriber := Some (User 1); subscriptionId := Some 0 |} newCPolkaApi);
     node := {| answers := [JNull; JNull]; ids := [8; 9]; inbox := [];
                sent := [query "chain_subscribeNewHead" []] |};
     calls := []; nonceDone := None |}.

Lemma block_subscribed_reachable : rtc (step no_sign) (start sample_script) block_subscribed.
Proof. one_call (pub_subscribeBlockNumber no_sign 1). apply rtc_refl. Qed.

Lemma block_number_update_witness :
  handleWsMessage 7 (head_message (str "1a4")) block_subscribed
  = Some (Ret tt, add_call 1 (BlockNumber 6720) block_subscribed).
Proof.
  apply (block_number_update block_subscribed 1 7 (str "1a4"));
    [reflexivity|unfold hex_text; forall_list ltac:(by eexists)|vm_compute; reflexivity].
Defined.

Definition sample_epochs : EraParameters :=
  {| storageKey := fun _ => []; babeEpochDuration := Some 10; sessionsPerEra := Some 6; isEpochBased := Some true |}.

(** An update with three or five values. *)
Definition change_json (values : list Json) : Json :=
  JObject [(str "changes", JArray ((fun v => JArray [JNull; v]) <$> values))].

Definition epoch_message : Json :=
  change_json [JString (str "0x0f00000000000000"); JString (str "0x6400000000000000"); JString (str "0xff00000000000000")].

Lemma epoch_progress_witness :
  epoch_update sample_epochs epoch_message
  = Ret ({| eraProgress := 35; eraLength := 60 |},
         {| isEpoch := true; sessionLength := None; sessionProgress := None;
            epochProgress := Some 5; epochLength := Some 10 |})
  /\ 0 <= 15 mod 6 * 10 + (255 - (10 * 15 + 100)) < 6 * 10.
Proof.
  apply (epoch_progress sample_epochs epoch_message 15 100 255 10 6); try reflexivity; lia.
Defined.

Definition session_message : Json :=
  change_json [JString (str "0x64"); JString (str "0x0a"); JString (str "0x05"); JString (str "0x06"); JString (str "0x0f")].

Lemma session_progress_witness :
  session_update 255 session_message
  = Ret (Some ({| eraProgress := 35; eraLength := 60 |},
               {| isEpoch := false; sessionLength := Some 10; sessionProgress := Some 5;
                  epochProgress := None; epochLength := None |}))
  /\ (0 < 10 -> 0 < 6 -> 0 <= 15 mod 6 * 10 + (255 - 100) mod 10 < 6 * 10).
Proof.
  apply (session_progress 255 session_message 100 10 5 6 15); try reflexivity; lia.
Defined.

Lemma subscriptions_undefined_witness :
  unsubscribeRuntimeVersion block_subscribed = Some (UB, block_subscribed).
Proof.
  apply (subscriptions_undefined no_sign (start sample_script) block_subscribed);
    [reflexivity|apply block_subscribed_reachable].
Defined.

(** ** Connected to a node *)

(** A node whose module Balances has one storage entry and one call. *)
Definition node_module : module7_desc :=
  {| d7_name := str "Balances";
     d7_storage := Some (str "Balances",
       [{| sd_name := str "FreeBalance"; sd_modifier := 1; sd_key1 := str "T::AccountId";
           sd_kind := Map 0 (str "T::Balance") false; sd_fallback := [0]; sd_docs := [] |}]);
     d7_calls := Some [{| call_name := Some (str "transfer"); call_args := []; call_docs := [] |}];
     d7_events := None; d7_consts := [] |}.

Definition node_script : script :=
  {| answers := [JString (str "0x" ++ hex_bytes (replicate 32 9));
                 JString (str "0x" ++ hex_bytes (enc_metadata7 [109; 101; 116; 97; 7] [node_module])); JNull];
     ids := [7; 8; 9];
     inbox := [(7, change_json [JString (str "0x2a00000000000000")])];
     sent := [] |}.

Definition after {A} (m : M A) (st : state) : state := match m st with Some (_, st') => st' | None => st end.

Definition connected : state := after (connect []) (start node_script).

Example connect_returns : connect [] (start node_script) = Some (Ret PAPI_OK, connected).
Proof. vm_compute. reflexivity. Qed.

Example connect_parameters :
  GenesisBlockHash (protocolPrm (polka connected)) = Some (replicate 32 9)
  /\ BalanceModuleIndex (protocolPrm (polka connected)) = Some 0
  /\ TransferMethodIndex (protocolPrm (polka connected)) = Some 0
  /\ isEpochBased (eraPrm (polka connected)) = Some false.
Proof. vm_compute. done. Qed.

Lemma connected_reachable : rtc (step no_sign) (start node_script) connected.
Proof.
  apply rtc_once. apply (step_public no_sign _ (connect []) (Ret PAPI_OK)); [apply pub_connect| |discriminate].
  apply connect_returns.
Qed.

Definition nonce_key : list Z :=
  match getAddressStorageKey XXHASH {| symbols := take ADDRESS_LENGTH test_addr |} (str "System AccountNonce") with
  | Ret k => k | _ => [] end.

(** The client after a call. *)
Definition client_after {A} (m : call rpc A) (r : rpc) : rpc := match m r with Some (_, r') => r' | None => r end.

Definition nonce_subscribed : rpc :=
  client_after (rpc_subscribeWs (query "state_subscribeStorage" [JArray [JString nonce_key]])) (node connected).

Lemma getAccountNonce_returns_witness :
  exists st', getAccountNonce test_addr connected = Some (Ret 42, st')
    /\ node st' = client_after (rpc_unsubscribeWs 7 (str "state_unsubscribeStorage")) (rpc_set_inbox [] nonce_subscribed)
    /\ calls st' = calls connected /\ slots (polka st') = slots (polka connected).
Proof.
  apply (getAccountNonce_returns no_sign (start node_script) connected test_addr XXHASH nonce_key 7 nonce_subscribed
    (change_json [JString (str "0x2a00000000000000")]) [] 42 0).
  - reflexivity.
  - apply connected_reachable.
  - vm_compute. reflexivity.
  - vm_compute. lia.
  - vm_compute. reflexivity.
  - vm_compute. reflexivity.
  - vm_compute. reflexivity.
  - vm_compute. reflexivity.
  - intros t k. vm_compute. by destruct t.
  - exists 0. split; [vm_compute; reflexivity|lia].
  - vm_compute. reflexivity.
  - vm_compute. reflexivity.
Defined.

Lemma getAccountNonce_ends_subscription_witness :
  nonce_gone test_addr (polka (after (getAccountNonce test_addr) connected)).
Proof.
  apply (getAccountNonce_ends_subscription no_sign (start node_script) connected test_addr 42);
    [reflexivity|apply connected_reachable|vm_compute; reflexivity].
Defined.

(** With a subscription of the application's own to balances. *)
Definition balance_subscribed : state := after (subscribeBalance test_addr (User 3)) connected.

Lemma balance_subscribed_reachable : rtc (step no_sign) (start node_script) balance_subscribed.
Proof.
  eapply rtc_r; [apply connected_reachable|].
  apply (step_public no_sign _ (subscribeBalance test_addr (User 3)) (Ret PAPI_OK));
    [apply pub_subscribeBalance|vm_compute; reflexivity|discriminate].
Qed.

Lemma account_update_routed_witness :
  handleWsMessage 7 (change_json [JString (str "0x00e40b54020000000000000000000000")]) balance_subscribed
  = Some (Ret tt, add_call 3 (Balance 10000000000) balance_subscribed).
Proof.
  apply (account_update_routed no_sign (start node_script) balance_subscribed BalanceTable test_addr 7 3);
    [reflexivity|apply balance_subscribed_reachable| |vm_compute; reflexivity|vm_compute; reflexivity].
  split; [vm_compute; reflexivity|]. split; [|exists 0; split; [vm_compute; reflexivity|lia]].
  intros t k. destruct t; [by vm_compute| |by vm_compute].
  change (subscriptionIds (tables (polka balance_subscribed) BalanceTable)) with [(test_addr, 7)].
  cbn [map_find]. by destruct (decide (test_addr = k)) as [<-|].
Defined.

Lemma era_takes_block_numbers_witness :
  let st := after (subscribeBlockNumber (User 1)) connected in
  let st' := after (subscribeEraAndSession (User 2)) st in
  subscriber (slots (polka st) BlockNumberSlot) = Some (User 1)
  /\ subscriber (slots (polka st') BlockNumberSlot) = Some SetBestBlock
  /\ forall st'' r', unsubscribeEraAndSession st' = Some (Ret r', st'') ->
       subscriptionId (slots (polka st'') BlockNumberSlot) = Some 0.
Proof.
  split; [vm_compute; reflexivity|].
  apply (era_takes_block_numbers (after (subscribeBlockNumber (User 1)) connected) (User 2) _ PAPI_OK).
  vm_compute. reflexivity.
Defined.
