(* ===== verification/Races.v ===== *)
(** Updates that are handled while a subscription is being made.

    [CJsonRpc::subscribeWs] starts the consumer thread of a subscription before it
    returns, and the API object stores the id only after it has returned. The
    consumers of this and of other subscriptions can therefore hand updates to
    [handleWsMessage] in between. The calls of [src/application.cpp] that subscribe
    are repeated here with such a gap, in which the consumers handle a number of the
    updates that have arrived, one after the other; with none they are those of [Api]. *)
From stdpp Require Import functions.
From S2P Require Import Prelude Scale Converters Address Json Extrinsic Storage Metadata Lookup Decode Api ApiInvariant ApiBehaviour.

Section races.
Context `{D : Doubles} `{J : !IJsonRpc} `{W : StdWhat}.

(** ** Consumer threads *)

Definition next_update : M (option (Z * Json)) := fun st =>
  match rpc_inbox (node st) with
  | [] => Some (Ret None, st)
  | u :: rest => Some (Ret (Some u), set_node (rpc_set_inbox rest (node st)) st)
  end.

(** The consumers hand at most [n] of the updates that wait to the API object. *)
Fixpoint consumers (n : nat) : M unit :=
  match n with
  | O => mret tt
  | S n' =>
      o ← next_update;
      match o with
      | Some (subscriptionId, message) => handleWsMessage subscriptionId message;; consumers n'
      | None => mret tt
      end
  end.

(** ** Calls with a gap *)

Definition subscribeWs_with (n : nat) (q : Json) : M Z := id ← subscribeWs q; consumers n;; mret id.

Definition subscribe_once_with (n : nat) (s : slot_name) (q : Json) : M unit :=
  id ← slot_id s;
  if id =? 0 then newId ← subscribeWs_with n q; set_slot_id s newId else mret tt.

Definition subscribe_slot_with (n : nat) (s : slot_name) (q : Json) (cb : callback) : M Z :=
  set_subscriber s cb;; subscribe_once_with n s q;; mret PAPI_OK.

Definition subscribe_keyed_with (n : nat) (t : table_name) (key : text) (q : M Json) (cb : callback) : M Z :=
  v ← get_table t;
  modify (set_table t {| subscribers := map_set key (Some cb) (subscribers v); subscriptionIds := subscriptionIds v |});;
  match map_find key (subscriptionIds v) with
  | Some _ => mret PAPI_OK
  | None =>
      q ← q;
      id ← subscribeWs_with n q;
      v ← get_table t;
      modify (set_table t {| subscribers := subscribers v; subscriptionIds := map_set key id (subscriptionIds v) |});;
      mret PAPI_OK
  end.

Definition subscribeEraAndSession_with (n n' : nat) (cb : callback) : M Z :=
  set_subscriber EraSlot cb;;
  subscribe_slot_with n BlockNumberSlot (query "chain_subscribeNewHead" []) SetBestBlock;;
  a ← this;
  let p := eraPrm a in
  epochs ← run (written (isEpochBased p));
  let keys :=
    if epochs : bool then [storageKey p BabeEpochIndex; storageKey p BabeGenesisSlot; storageKey p BabeCurrentSlot]
    else [LAST_LENGTH_CHANGE_SUBSCRIPTION; SESSION_LENGTH_SUBSCRIPTION; storageKey p CurrentEra;
          storageKey p SessionsPerEra; storageKey p CurrentSessionIndex] in
  subscribe_once_with n' EraSlot (query "state_subscribeStorage" [JArray (JString <$> keys)]);;
  mret PAPI_OK.

(** The end of [submitAndSubcribeExtrinsic]. *)
Definition watch_with (n : nat) (teStr : text) (cb : callback) : M unit :=
  set_subscriber ExtrinsicSlot cb;;
  id ← subscribeWs_with n (query "author_submitAndWatchExtrinsic" [JString teStr]);
  set_slot_id ExtrinsicSlot id.

Definition subscribeAccountNonce_with (n : nat) (address : text) (cb : callback) : M Z :=
  subscribe_keyed_with n NonceTable address (account_query address "System AccountNonce") cb.

Definition getAccountNonce_with (n : nat) (address : text) : M Z :=
  (fun st => Some (Ret tt, set_nonceDone None st));;
  subscribeAccountNonce_with n address SetNonce;;
  result ← (fun st => wait_nonce (rpc_inbox (node st)) st);
  unsubscribeAccountNonce address;;
  mret result.

Definition signAndSendTransfer_with (sr25519_sign : list Z -> list Z -> list Z -> list Z) (n : nat)
    (sender privateKey recipient : text) (transferAmount : Z) (cb : callback) : M unit :=
  nonce ← getAccountNonce sender;
  a ← this;
  let p := protocolPrm a in
  moduleIndex ← run (written (BalanceModuleIndex p));
  methodIndex ← run (written (TransferMethodIndex p));
  genesis ← run (written (GenesisBlockHash p));
  teStr ← run (transfer_text sr25519_sign nonce moduleIndex methodIndex sender recipient privateKey transferAmount genesis);
  set_subscriber TransferSlot cb;;
  id ← subscribeWs_with n (query "author_submitAndWatchExtrinsic" [JString teStr]);
  set_slot_id TransferSlot id.

(** Without updates in the gap the calls are those of [Api]. *)
Lemma bind_ext {A B} (m m' : M A) (f f' : A -> M B) st :
  m st = m' st -> (forall a st', f a st' = f' a st') -> (m ≫= f) st = (m' ≫= f') st.
Proof. intros Hm Hf. unfold mbind, M_bind, call_bind. rewrite Hm. destruct (m' st) as [[[a|e|] st']|]; auto. Qed.

Lemma subscribeWs_0 q st : subscribeWs_with 0 q st = subscribeWs q st.
Proof. unfold subscribeWs_with, mbind, M_bind, call_bind. by destruct (subscribeWs q st) as [[[] ?]|]. Qed.

Lemma subscribe_once_0 s q st : subscribe_once_with 0 s q st = subscribe_once s q st.
Proof. apply bind_ext; [done|]. intros id st2. destruct (id =? 0); [|done]. by apply bind_ext; [apply subscribeWs_0|]. Qed.

Lemma subscribe_slot_0 s q cb st : subscribe_slot_with 0 s q cb st = subscribe_slot s q cb st.
Proof.
  apply bind_ext; [done|]. intros _ st1. by apply bind_ext; [apply subscribe_once_0|].
Qed.

Lemma subscribeEraAndSession_0 cb st : subscribeEraAndSession_with 0 0 cb st = subscribeEraAndSession cb st.
Proof.
  apply bind_ext; [done|]. intros _ st1. apply bind_ext; [apply subscribe_slot_0|]. intros _ st2.
  do 2 (apply bind_ext; [done|]; intros ? ?). by apply bind_ext; [apply subscribe_once_0|].
Qed.

Lemma subscribe_keyed_0 t key q cb st : subscribe_keyed_with 0 t key q cb st = subscribe_keyed t key q cb st.
Proof.
  apply bind_ext; [done|]. intros v st1. apply bind_ext; [done|]. intros _ st2.
  destruct (map_find key _); [done|]. apply bind_ext; [done|]. intros query st3. by apply bind_ext; [apply subscribeWs_0|].
Qed.

Lemma getAccountNonce_0 address st : getAccountNonce_with 0 address st = getAccountNonce address st.
Proof. apply bind_ext; [done|]. intros _ st1. by apply bind_ext; [apply subscribe_keyed_0|]. Qed.

Lemma signAndSendTransfer_0 sign s k r amt cb st : signAndSendTransfer_with sign 0 s k r amt cb st = signAndSendTransfer sign s k r amt cb st.
Proof. do 7 (apply bind_ext; [done|]; intros ? ?). by apply bind_ext; [apply subscribeWs_0|]. Qed.

(** What the gap does. *)
Lemma consumers_next n id message rest st : rpc_inbox (node st) = (id, message) :: rest ->
  consumers (S n) st = (handleWsMessage id message;; consumers n) (set_node (rpc_set_inbox rest (node st)) st).
Proof. intros E. cbn [consumers]. unfold mbind at 1, M_bind at 1, call_bind, next_update. by rewrite E. Qed.

Lemma consumers_none n st : rpc_inbox (node st) = [] -> consumers n st = Some (Ret tt, st).
Proof. intros E. destruct n; [done|]. cbn [consumers]. unfold mbind at 1, M_bind at 1, call_bind, next_update. by rewrite E. Qed.

Lemma subscribeWs_with_eq n q id r1 st st2 : rpc_subscribeWs q (node st) = Some (Ret id, r1) ->
  consumers n (set_node r1 st) = Some (Ret tt, st2) -> subscribeWs_with n q st = Some (Ret id, st2).
Proof.
  intros E Ec. unfold subscribeWs_with. erewrite (bind_Some (subscribeWs _)); [|unfold subscribeWs, on_node, on_part; by rewrite E].
  by erewrite bind_Some by exact Ec.
Qed.

(** ** What the consumers leave alone *)

Lemma keeps_and {A} (P Q : CPolkaApi -> Prop) (m : M A) : keeps P m -> keeps Q m -> keeps (fun a => P a /\ Q a) m.
Proof. intros HP HQ st o st' [Hp Hq] E. specialize (HP _ _ _ Hp E). specialize (HQ _ _ _ Hq E). by destruct o. Qed.

(** The callback of a subscription other than that of a transfer, and one in a table. *)
Definition slot_callback (s : slot_name) (cb : callback) (a : CPolkaApi) : Prop := subscriber (slots a s) = Some cb.
Definition keyed_callback (t : table_name) (key : text) (cb : callback) (a : CPolkaApi) : Prop :=
  map_find key (subscribers (tables a t)) = Some (Some cb).

(** Callbacks change the number of the best block at most. *)
Lemma stays_invoke (P : CPolkaApi -> Prop) cb u : (forall n a, P a -> P (set_bestBlockNum n a)) -> keeps P (invoke cb u).
Proof. intros Hb. destruct cb as [cb|]; [by apply triple_invoke|]. by intros st o st' HP [= <- <-]. Qed.

Lemma stays_handle (P : CPolkaApi -> Prop) id m :
  (forall n a, P a -> P (set_bestBlockNum n a)) -> (forall a, P a -> P (set_slot TransferSlot cleared a)) ->
  (forall t key u, keeps P (invoke_keyed t key u)) -> keeps P (handleWsMessage id m).
Proof.
  intros Hb Hc Hk. pose proof (fun cb u => stays_invoke P cb u Hb) as Hi.
  pose proof (keeps_modify P _ Hc) as Hm. pose proof (keeps_slot_id P) as Hs. pose proof (keeps_this P) as Ht.
  pose proof (fun A (o : outcome A) => keeps_run o P) as Hr. pose proof (keeps_ret (A := unit) P tt) as Hu.
  unfold handleWsMessage, handle_extrinsics, handle_era, handle_last, invoke_slot, get_slot. keeps; by apply keeps_ret.
Qed.

Lemma slot_callback_handle s cb id m : s <> TransferSlot -> keeps (slot_callback s cb) (handleWsMessage id m).
Proof.
  intros Hs. apply stays_handle; [done| |].
  - intros a Ha. unfold slot_callback. cbn. by rewrite fn_lookup_insert_ne.
  - intros t key u. unfold invoke_keyed. eapply triple_bind; [apply triple_get_table|]. intros v.
    eapply (triple_weaken (slot_callback s cb) _ _ (fun _ => slot_callback s cb) _ (slot_callback s cb)); [|by intros a []|done|done].
    destruct (map_find key _); [by apply stays_invoke|]. apply keeps_bind; [by apply keeps_modify|]. intros _. by apply stays_invoke.
Qed.

Lemma keyed_callback_handle t key cb id m : keeps (keyed_callback t key cb) (handleWsMessage id m).
Proof.
  apply stays_handle; [done|done|]. intros t' key' u. unfold invoke_keyed.
  eapply triple_bind; [apply triple_get_table|]. intros v. apply triple_pre. intros a [Ha ->].
  apply (triple_weaken (keyed_callback t key cb) _ _ (fun _ => keyed_callback t key cb) _ (keyed_callback t key cb)); [|by intros ? ->|done|done].
  destruct (map_find key' _) eqn:Ef; [by apply stays_invoke|]. apply keeps_bind; [|intros _; by apply stays_invoke].
  apply keeps_modify. intros b Hb. unfold keyed_callback. cbn. destruct (decide (t' = t)) as [->|Hne]; [|by rewrite fn_lookup_insert_ne].
  rewrite fn_lookup_insert. cbn. assert (key <> key') by (intros <-; unfold keyed_callback in Ha; congruence).
  rewrite map_find_set_ne by done. exact Ha.
Qed.

Lemma keeps_consumers (P : CPolkaApi -> Prop) n : (forall id m, keeps P (handleWsMessage id m)) -> keeps P (consumers n).
Proof.
  intros Hh. induction n as [|n IH]; [apply keeps_ret|]. cbn [consumers]. apply keeps_bind.
  - intros st o st' HP E. unfold next_update in E. destruct (rpc_inbox _); by injection E as <- <-.
  - intros [[id m]|]; [apply keeps_bind; [apply Hh|by intros _]|apply keeps_ret].
Qed.

Lemma keeps_subscribeWs_with (P : CPolkaApi -> Prop) n q : (forall id m, keeps P (handleWsMessage id m)) -> keeps P (subscribeWs_with n q).
Proof.
  intros Hh. apply keeps_bind; [apply keeps_subscribeWs|]. intros id. apply keeps_bind; [by apply keeps_consumers|]. intros _. apply keeps_ret.
Qed.

(** ** Which subscriptions bear the gap *)

(** The invariant, and the single subscriptions in [S] have the callbacks it gives. *)
Definition bears (S : list (slot_name * callback)) (a : CPolkaApi) : Prop :=
  wf a /\ forall s cb, (s, cb) ∈ S -> slot_callback s cb a.

Lemma bears_nil a : wf a -> bears [] a.
Proof. intros H. split; [done|]. by intros s cb []%elem_of_nil. Qed.

Lemma bears_wf S a : bears S a -> wf a.
Proof. by intros []. Qed.

Lemma bears_handle S id m : (forall cb, (TransferSlot, cb) ∉ S) -> keeps (bears S) (handleWsMessage id m).
Proof.
  intros HS st o st' [Hwf Hc] E. pose proof (keeps_handle id m st o st' Hwf E) as Hw.
  assert (forall s cb, (s, cb) ∈ S -> match o with UB => True | _ => slot_callback s cb (polka st') end) as Hk.
  { intros s cb Hs. assert (s <> TransferSlot) as Hne by (intros ->; by apply (HS cb)).
    pose proof (slot_callback_handle s cb id m Hne st o st' (Hc s cb Hs) E). by destruct o. }
  by destruct o.
Qed.

(** Registering a callback, and an id where there is one. *)
Lemma bears_subscriber S s cb X : (forall cb', (s, cb') ∉ S) ->
  triple (bears S) (set_subscriber s cb) (fun _ => bears ((s, cb) :: S)) X.
Proof.
  intros HS. unfold set_subscriber. eapply triple_bind; [apply triple_get_slot|]. intros v. apply triple_modify.
  intros a [[Ha Hc] _]. split; [by apply wf_set_slot, slot_wf_sub|]. intros s' cb' Hin. unfold slot_callback. cbn.
  apply elem_of_cons in Hin as [[= -> ->]|Hin]; [by rewrite fn_lookup_insert|].
  rewrite fn_lookup_insert_ne by (intros ->; by apply (HS cb')). by apply Hc.
Qed.

Lemma bears_slot_id S s cb id X : (s, cb) ∈ S -> triple (bears S) (set_slot_id s id) (fun _ => bears S) X.
Proof.
  intros Hs. unfold set_slot_id. eapply triple_bind; [apply triple_get_slot|]. intros v. apply triple_modify.
  intros a [[Ha Hc] ->]. pose proof (Hc s cb Hs) as Hcb. unfold slot_callback in Hcb. split.
  - apply wf_set_slot; [done|]. rewrite Hcb. apply slot_wf_sub.
  - intros s' cb' Hin. unfold slot_callback. cbn. destruct (decide (s = s')) as [<-|Hne].
    + rewrite fn_lookup_insert. by apply Hc.
    + rewrite fn_lookup_insert_ne by done. by apply Hc.
Qed.

(** A request, updates in the gap, and the id. *)
Lemma bears_register S n s cb q : (s, cb) ∈ S -> (forall cb', (TransferSlot, cb') ∉ S) ->
  keeps (bears S) (id ← subscribeWs_with n q; set_slot_id s id).
Proof.
  intros Hs HS. apply keeps_bind; [apply keeps_subscribeWs_with; intros; by apply bears_handle|].
  intros id. by apply (bears_slot_id S s cb).
Qed.

Lemma bears_once S n s cb q : (s, cb) ∈ S -> (forall cb', (TransferSlot, cb') ∉ S) ->
  keeps (bears S) (subscribe_once_with n s q).
Proof.
  intros Hs HS. unfold subscribe_once_with. apply keeps_bind; [apply keeps_slot_id|]. intros id.
  destruct (id =? 0); [by apply (bears_register S n s cb)|apply keeps_ret].
Qed.

(** Going on while subscriptions keep their callbacks. *)
Lemma bears_then {A B} S (m : M A) (f : A -> M B) Q : keeps (bears S) m ->
  (forall x, triple (bears S) (f x) Q wf) -> triple (bears S) (m ≫= f) Q wf.
Proof.
  intros Hm Hf. eapply (triple_bind _ _ (fun _ => bears S)); [|exact Hf].
  apply (triple_weaken _ _ _ _ _ _ _ Hm); [done|done|apply bears_wf].
Qed.

Lemma bears_start {A} s cb (f : M A) Q : triple (bears [(s, cb)]) f Q wf -> triple wf (set_subscriber s cb;; f) Q wf.
Proof.
  intros Hf. eapply (triple_bind _ _ (fun _ => bears [(s, cb)])); [|by intros []].
  apply (triple_weaken (bears []) _ _ (fun _ => bears [(s, cb)]) _ wf); [|apply bears_nil|done|done].
  apply bears_subscriber. intros cb'. apply not_elem_of_nil.
Qed.

Lemma slot_with_triple n s q cb : s <> TransferSlot ->
  triple wf (subscribe_slot_with n s q cb) (fun _ a => wf a /\ slot_callback s cb a) wf.
Proof.
  intros Hs. apply bears_start. apply bears_then; [apply (bears_once _ n s cb); set_solver|]. intros [].
  apply triple_ret. intros a [Ha Hc]. split; [done|]. apply Hc. by left.
Qed.

Lemma era_with_triple n n' cb :
  triple wf (subscribeEraAndSession_with n n' cb)
    (fun _ a => wf a /\ slot_callback EraSlot cb a /\ slot_callback BlockNumberSlot SetBestBlock a) wf.
Proof.
  set (S := [(BlockNumberSlot, SetBestBlock); (EraSlot, cb)]). assert (forall cb', (TransferSlot, cb') ∉ S) as HS by set_solver.
  apply bears_start. eapply (triple_bind _ _ (fun _ => bears S)).
  { unfold subscribe_slot_with. eapply (triple_bind _ _ (fun _ => bears S)); [apply bears_subscriber; set_solver|].
    intros []. apply bears_then; [apply (bears_once _ n BlockNumberSlot SetBestBlock); [by left|done]|].
    intros []. by apply triple_ret. }
  intros _. apply bears_then; [apply keeps_this|]. intros a. apply bears_then; [apply triple_run|]. intros epochs.
  apply bears_then; [apply (bears_once _ n' EraSlot cb); [by right; left|done]|]. intros [].
  apply triple_ret. intros b [Hb Hc]. split; [done|]. split; apply Hc; [by right; left|by left].
Qed.

Lemma watch_with_triple n teStr cb :
  triple wf (watch_with n teStr cb) (fun _ a => wf a /\ slot_callback ExtrinsicSlot cb a) wf.
Proof.
  apply bears_start. apply (triple_weaken _ _ _ _ _ _ _ (bears_register [(ExtrinsicSlot, cb)] n ExtrinsicSlot cb
    (query "author_submitAndWatchExtrinsic" [JString teStr]) ltac:(by left) ltac:(set_solver))); [done| |apply bears_wf].
  intros [] a [Ha Hc]. split; [done|]. apply Hc. by left.
Qed.

Lemma keyed_with_triple n t key q cb : (forall P, keeps P q) ->
  triple wf (subscribe_keyed_with n t key q cb) (fun _ a => wf a /\ keyed_callback t key cb a) wf.
Proof.
  intros Hq. set (P := fun a => wf a /\ keyed_callback t key cb a). assert (forall a, P a -> wf a) as HP by by intros a [].
  assert (forall id m, keeps P (handleWsMessage id m)) as Hh by (intros; by apply keeps_and; [apply keeps_handle|apply keyed_callback_handle]).
  unfold subscribe_keyed_with. eapply triple_bind; [apply triple_get_table|]. intros v. eapply (triple_bind _ _ (fun _ => P)).
  { apply triple_modify. intros a [Ha ->]. split; [apply wf_set_table; [done|]; apply table_wf_add, (proj2 Ha)|].
    unfold keyed_callback. cbn. rewrite fn_lookup_insert. apply map_find_set. }
  intros []. apply (triple_weaken P P _ (fun _ => P) (fun _ => P) P wf); [|done|done|done].
  destruct (map_find key _); [apply keeps_ret|]. apply keeps_bind; [apply Hq|]. intros query.
  apply keeps_bind; [by apply keeps_subscribeWs_with|]. intros id. eapply triple_bind; [apply triple_get_table|]. intros v'.
  eapply triple_bind with (R := fun _ => P); [|intros []; apply keeps_ret]. apply triple_modify. intros a [[Ha Hc] ->]. unfold keyed_callback in *. split.
  - apply wf_set_table; [done|]. by apply (table_wf_id _ key cb id); [apply (proj2 Ha)|].
  - unfold keyed_callback. cbn. by rewrite fn_lookup_insert.
Qed.

(** C17: subscriptions bear updates that are handled while they are made. Whatever the
    consumers hand to the API object between the answer of the node and the
    assignment of the id, subscribing keeps the invariant (so that no later update
    makes the API throw), and the callback that has been registered stays. This holds
    of the subscriptions for heads and runtime versions, of those kept per key, of
    that for eras with its two gaps, which also registers the callback that stores the
    number of the best block, and of watched extrinsics; not of transfers. *)
Theorem subscribing_bears_updates n n' s q t key k cb teStr : s <> TransferSlot -> (forall P, keeps P k) ->
  triple wf (subscribe_slot_with n s q cb) (fun _ a => wf a /\ slot_callback s cb a) wf
  /\ triple wf (subscribe_keyed_with n t key k cb) (fun _ a => wf a /\ keyed_callback t key cb a) wf
  /\ triple wf (subscribeEraAndSession_with n n' cb)
       (fun _ a => wf a /\ slot_callback EraSlot cb a /\ slot_callback BlockNumberSlot SetBestBlock a) wf
  /\ triple wf (watch_with n teStr cb) (fun _ a => wf a /\ slot_callback ExtrinsicSlot cb a) wf.
Proof.
  intros Hs Hk. split; [by apply slot_with_triple|]. split; [by apply keyed_with_triple|].
  split; [apply era_with_triple|apply watch_with_triple].
Qed.

(** ** An update that comes too early *)

(** No subscription of the object has the id, and all ids have been assigned. *)
Definition unclaimed (id : Z) (a : CPolkaApi) : Prop :=
  (forall s, exists i, subscriptionId (slots a s) = Some i /\ i <> id)
  /\ forall t, key_of_id id (subscriptionIds (tables a t)) = None.

Lemma handle_unclaimed id m st : unclaimed id (polka st) -> handleWsMessage id m st = Some (Ret tt, st).
Proof.
  intros [Hs Ht]. assert (forall (A : Type) s (f : Z -> M A) st', polka st' = polka st -> exists i, (x ← slot_id s; f x) st' = f i st' /\ (i =? id) = false) as Hid.
  { intros A s f st' E. destruct (Hs s) as (i & Ei & Hi). exists i. split; [by apply bind_slot_id; rewrite E|by apply Z.eqb_neq]. }
  unfold handleWsMessage. rewrite bind_this.
  edestruct Hid as (i1 & -> & ->); [done|]. rewrite !Ht. unfold handle_extrinsics.
  edestruct Hid as (i2 & -> & ->); [done|]. edestruct Hid as (i3 & -> & ->); [done|]. unfold handle_era. rewrite bind_this.
  edestruct Hid as (i4 & -> & ->); [done|]. cbn [andb]. unfold handle_last.
  edestruct Hid as (i5 & -> & ->); [done|]. edestruct Hid as (i6 & -> & ->); [done|]. by rewrite bind_this, Ht.
Qed.

(** C22: [getAccountNonce] depends on which thread comes first. When the node confirms the
    subscription and sends the nonce, and the consumer thread handles that update
    before the id has been stored, the update belongs to no subscription and is
    dropped; if no other update comes the call never returns. (When the consumer comes
    later the call returns the nonce.) *)
Theorem early_nonce_lost n st address h key id r1 message :
  FreeBalanceHasher (protocolPrm (polka st)) = Some h -> (ADDRESS_LENGTH <= length address)%nat ->
  getAddressStorageKey h {| symbols := take ADDRESS_LENGTH address |} (str "System AccountNonce") = Ret key ->
  map_find address (subscriptionIds (tables (polka st) NonceTable)) = None ->
  rpc_subscribeWs (query "state_subscribeStorage" [JArray [JString key]]) (node st) = Some (Ret id, r1) ->
  rpc_inbox r1 = [(id, message)] -> rpc_inbox (rpc_set_inbox [] r1) = [] -> unclaimed id (polka st) ->
  getAccountNonce_with (S n) address st = None.
Proof.
  intros Hh Hl Hk Hf Hs Hin Hout [Hus Hut]. unfold getAccountNonce_with. erewrite bind_Some by reflexivity.
  set (st0 := set_nonceDone None st). set (v := tables (polka st) NonceTable).
  set (st1 := set_polka (set_table NonceTable {| subscribers := map_set address (Some SetNonce) (subscribers v); subscriptionIds := subscriptionIds v |} (polka st)) st0).
  assert (unclaimed id (polka st1)) as Hu.
  { split; [apply Hus|]. intros t. cbn. destruct (decide (NonceTable = t)) as [<-|Hne]; [rewrite fn_lookup_insert|rewrite fn_lookup_insert_ne by done]; apply Hut. }
  set (st2 := set_node (rpc_set_inbox [] r1) st1).
  assert (subscribeWs_with (S n) (query "state_subscribeStorage" [JArray [JString key]]) st1 = Some (Ret id, st2)) as E.
  { eapply subscribeWs_with_eq; [exact Hs|]. erewrite consumers_next by exact Hin.
    erewrite bind_Some by (by apply handle_unclaimed). by apply consumers_none. }
  erewrite (bind_Some (subscribeAccountNonce_with _ _ _)).
  2: { unfold subscribeAccountNonce_with, subscribe_keyed_with. rewrite bind_get_table. erewrite bind_Some by reflexivity.
       change (tables (polka st0) NonceTable) with v. assert (map_find address (subscriptionIds v) = None) as -> by exact Hf.
       erewrite (bind_Some (account_query _ _)); [|by eapply account_query_ok].
       erewrite bind_Some by exact E. rewrite bind_get_table. erewrite bind_Some by reflexivity. reflexivity. }
  unfold mbind, M_bind, call_bind. cbn [node set_node]. unfold st2. cbn [node set_node]. by rewrite Hout.
Qed.

(** ** Two transfers at a time *)

(** C18: a transfer that is submitted while another is under way takes its updates, and
    loses its own. The callback of the new transfer replaces that of the old one
    before the node has answered; when the old one is finalized in the gap, the new
    callback is called with "finalized" and cleared; the id of the new transfer is
    stored without a callback, and its first update makes the API throw, on a thread
    of the client. *)
Theorem overlapping_transfers sign sender priv recipient amt c c' (st st1 : state) nonce mi ci genesis teStr old id r1 message :
  getAccountNonce sender st = Some (Ret nonce, st1) ->
  BalanceModuleIndex (protocolPrm (polka st1)) = Some mi -> TransferMethodIndex (protocolPrm (polka st1)) = Some ci ->
  GenesisBlockHash (protocolPrm (polka st1)) = Some genesis ->
  transfer_text sign nonce mi ci sender recipient priv amt genesis = Ret teStr ->
  slots (polka st1) TransferSlot = {| subscriber := Some (User c'); subscriptionId := Some old |} -> fresh_id old (polka st1) ->
  rpc_subscribeWs (query "author_submitAndWatchExtrinsic" [JString teStr]) (node st1) = Some (Ret id, r1) ->
  rpc_inbox r1 = [(old, message)] -> contains (str "ready") (dump message) = false -> contains (str "finalized") (dump message) = true ->
  exists st2, signAndSendTransfer_with sign 1 sender priv recipient amt (User c) st = Some (Ret tt, st2)
    /\ calls st2 = calls st1 ++ [(c, TransferStatus (str "finalized"))]
    /\ slots (polka st2) TransferSlot = {| subscriber := None; subscriptionId := Some id |}
    /\ (fresh_id id (polka st1) -> forall message', contains (str "ready") (dump message') = true ->
          handleWsMessage id message' st2 = Some (Throw bad_function_call, st2)).
Proof.
  intros En Emi Eci Eg Et Ht Hf Hs Hin Hr Hz.
  destruct (set_subscriber_eq TransferSlot (User c) st1) as (sa & Ea & Na & Ca & Ta & Sa & Oa). rewrite Ht in Sa. cbn in Sa.
  set (sb := set_node (rpc_set_inbox [] r1) sa).
  assert (fresh_id old (polka sb)) as Hfb by (by apply (fresh_id_same st1 sa)).
  destruct (transfer_update old c message sb Hfb Sa) as [_ Eu]. specialize (Eu Hr Hz). set (sc := set_polka _ _) in Eu.
  assert (subscribeWs_with 1 (query "author_submitAndWatchExtrinsic" [JString teStr]) sa = Some (Ret id, sc)) as Es.
  { eapply subscribeWs_with_eq; [by rewrite Na|]. erewrite consumers_next by exact Hin.
    change (set_node _ (set_node _ sa)) with sb. by erewrite bind_Some by exact Eu. }
  destruct (set_slot_id_eq TransferSlot id sc) as (sd & Ed & Nd & Cd & Td & Sd & Od).
  assert (slots (polka sd) TransferSlot = {| subscriber := None; subscriptionId := Some id |}) as Hd.
  { rewrite Sd. cbn. by rewrite fn_lookup_insert. }
  exists sd. split; [|split; [rewrite Cd; cbn; by rewrite Ca|split; [done|]]].
  - unfold signAndSendTransfer_with. erewrite bind_Some by exact En. rewrite bind_this. erewrite bind_run by (by rewrite Emi). erewrite bind_run by (by rewrite Eci).
    erewrite bind_run by (by rewrite Eg). erewrite bind_run by exact Et. erewrite bind_Some by exact Ea. by erewrite bind_Some by exact Es.
  - intros Hfi message' Hr'. rewrite (transfer_update_eq id None); [by rewrite Hr'| |done].
    apply (fresh_id_same st1 sd); [done|by rewrite Td|]. intros s Hne. rewrite Od by done. cbn. rewrite fn_lookup_insert_ne by done. by apply Oa.
Qed.
End races.

(** ** Examples *)

#[local] Existing Instance numeral_doubles.
#[local] Existing Instance scripted_client.
#[local] Instance no_what : StdWhat := fun _ => [].

(** An object after [connect] in memory that was zero, with the transfer [old] under way. *)
Definition settled (old : Z) : CPolkaApi :=
  set_slot TransferSlot {| subscriber := Some (User 3); subscriptionId := Some old |}
    (foldr (fun s => set_slot s {| subscriber := None; subscriptionId := Some 0 |}) (polka connected) [ExtrinsicSlot; FinalizedSlot; RuntimeSlot]).

Definition race_state (old : Z) (updates : list (Z * Json)) : state :=
  {| polka := settled old; node := {| answers := [JNull; JNull]; ids := [7; 8]; inbox := updates; sent := [] |}; calls := []; nonceDone := None |}.

Definition nonce_42 : Json := change_json [JString (str "0x2a00000000000000")].

Lemma settled_wf old : wf (settled old).
Proof.
  assert (wf (polka connected)) as Hc by (apply (reachable_wf no_sign (start node_script)); [reflexivity|apply connected_reachable]).
  unfold settled. cbn [foldr]. do 4 (apply wf_set_slot; [|by intros ? [= <-]]). exact Hc.
Qed.

Definition before_bearing : state := race_state 5 [(7, head_message (str "20")); (5, JString (str "ready"))].
Definition after_bearing : state := after (subscribe_slot_with 2 BlockNumberSlot (query "chain_subscribeNewHead" []) (User 4)) before_bearing.

Lemma bearing_eq : subscribe_slot_with 2 BlockNumberSlot (query "chain_subscribeNewHead" []) (User 4) before_bearing = Some (Ret PAPI_OK, after_bearing).
Proof.
  assert (fst <$> subscribe_slot_with 2 BlockNumberSlot (query "chain_subscribeNewHead" []) (User 4) before_bearing = Some (Ret PAPI_OK)) as H
    by (vm_compute; reflexivity).
  unfold after_bearing, after. destruct (subscribe_slot_with _ _ _ _ _) as [[o st]|]; [|done]. by injection H as ->.
Qed.

Lemma before_bearing_wf : wf (polka before_bearing).
Proof. apply settled_wf. Qed.

Lemma subscribing_bears_updates_witness : wf (polka after_bearing) /\ slot_callback BlockNumberSlot (User 4) (polka after_bearing).
Proof.
  pose proof (proj1 (subscribing_bears_updates 2 0 BlockNumberSlot (query "chain_subscribeNewHead" []) NonceTable [] (mret JNull) (User 4) []
    ltac:(discriminate) (fun P => keeps_ret P JNull))) as H.
  exact (H before_bearing (Ret PAPI_OK) after_bearing before_bearing_wf bearing_eq).
Defined.

Lemma early_nonce_lost_witness :
  getAccountNonce_with 1 test_addr (race_state 5 [(7, nonce_42)]) = None
  /\ option_map fst (getAccountNonce_with 0 test_addr (race_state 5 [(7, nonce_42)])) = Some (Ret 42).
Proof.
  split; [|vm_compute; reflexivity].
  eapply (early_nonce_lost 0 (race_state 5 [(7, nonce_42)]) test_addr XXHASH nonce_key 7 _ nonce_42);
    [vm_compute; reflexivity|vm_compute; lia|vm_compute; reflexivity|vm_compute; reflexivity|reflexivity|reflexivity|reflexivity|].
  split; [|intros []; vm_compute; reflexivity].
  intros []; eexists; (split; [vm_compute; reflexivity|discriminate]).
Defined.

Definition finalized_5 : list (Z * Json) := [(7, nonce_42); (5, JString (str "finalized"))].

Definition nonce_taken : state := after (getAccountNonce test_addr) (race_state 5 finalized_5).

Definition transfer_of_5 : text :=
  match transfer_text no_sign 42 0 0 test_addr test_addr test_private_key 5 (replicate 32 9) with Ret s => s | _ => [] end.

Lemma overlapping_transfers_witness :
  exists st2, signAndSendTransfer_with no_sign 1 test_addr test_private_key test_addr 5 (User 4) (race_state 5 finalized_5) = Some (Ret tt, st2)
  /\ calls st2 = [(4%nat, TransferStatus (str "finalized"))]
  /\ handleWsMessage 8 (JString (str "ready")) st2 = Some (Throw bad_function_call, st2).
Proof.
  destruct (overlapping_transfers no_sign test_addr test_private_key test_addr 5 4 3 (race_state 5 finalized_5) nonce_taken 42 0 0 (replicate 32 9)
    transfer_of_5 5 8 (client_after (rpc_subscribeWs (query "author_submitAndWatchExtrinsic" [JString transfer_of_5])) (node nonce_taken))
    (JString (str "finalized"))) as (st2 & E & Ec & _ & Hu);
    [vm_compute; reflexivity|vm_compute; reflexivity|vm_compute; reflexivity|vm_compute; reflexivity|vm_compute; reflexivity|vm_compute; reflexivity
    | |vm_compute; reflexivity|vm_compute; reflexivity|vm_compute; reflexivity|vm_compute; reflexivity|].
  - split; [|split; vm_compute; reflexivity]. intros s Hs. exists 0. split; [|done].
    apply elem_of_cons in Hs as [->|[->|[]%elem_of_nil]%elem_of_cons]; vm_compute; reflexivity.
  - exists st2. split; [exact E|]. split; [rewrite Ec; vm_compute; reflexivity|]. apply Hu; [|vm_compute; reflexivity].
    split; [|split; vm_compute; reflexivity]. intros s Hs. exists 0. split; [|done].
    apply elem_of_cons in Hs as [->|[->|[]%elem_of_nil]%elem_of_cons]; vm_compute; reflexivity.
Defined.
