(* ===== verification/Updates.v ===== *)
(** What becomes of every update.

    [owner_of], [update_of] and [callback_of] say which subscription an update is taken
    for, what it tells and to whom, without running [handleWsMessage]; the theorem is
    that it does exactly that, in every state that calls and updates lead to, also
    when updates are handled while a call of [src/application.cpp] subscribes. *)
From stdpp Require Import functions relations.
From S2P Require Import Prelude Scale Converters Address Json Extrinsic Storage Metadata Lookup Decode Api ApiInvariant ApiBehaviour Races.

Section updates.
Context `{D : Doubles} `{J : !IJsonRpc} `{W : StdWhat}.

(** ** What becomes of an update

    The subscription that an update is taken for, found in the order in which
    [handleWsMessage] compares the ids; comparing one that was never assigned is
    undefined. An update for eras counts only once the best block is known. *)

Inductive owner : Type := OwnedSlot (s : slot_name) | OwnedKey (t : table_name) (key : text) | Nobody.

Definition slot_owns (a : CPolkaApi) (s : slot_name) (id : Z) : outcome bool :=
  i ← written (subscriptionId (slots a s)); Ret (i =? id).

Definition owner_last (a : CPolkaApi) (id : Z) : outcome owner :=
  f ← slot_owns a FinalizedSlot id;
  if f : bool then Ret (OwnedSlot FinalizedSlot) else
  r ← slot_owns a RuntimeSlot id;
  if r : bool then Ret (OwnedSlot RuntimeSlot) else
  Ret (match key_of_id id (subscriptionIds (tables a StorageTable)) with Some key => OwnedKey StorageTable key | None => Nobody end).

Definition owner_era (a : CPolkaApi) (id : Z) : outcome owner :=
  e ← slot_owns a EraSlot id;
  if e && negb (bestBlockNum a =? -1) then Ret (OwnedSlot EraSlot) else owner_last a id.

Definition owner_extrinsics (a : CPolkaApi) (id : Z) : outcome owner :=
  x ← slot_owns a ExtrinsicSlot id;
  if x : bool then Ret (OwnedSlot ExtrinsicSlot) else
  t ← slot_owns a TransferSlot id;
  if t : bool then Ret (OwnedSlot TransferSlot) else owner_era a id.

Definition owner_of (a : CPolkaApi) (id : Z) : outcome owner :=
  b ← slot_owns a BlockNumberSlot id;
  if b : bool then Ret (OwnedSlot BlockNumberSlot) else
  match key_of_id id (subscriptionIds (tables a NonceTable)) with
  | Some key => Ret (OwnedKey NonceTable key)
  | None =>
  match key_of_id id (subscriptionIds (tables a BalanceTable)) with
  | Some key => Ret (OwnedKey BalanceTable key)
  | None => owner_extrinsics a id
  end
  end.

(** What the update tells the owner's callback, if anything. *)
Definition update_of (a : CPolkaApi) (o : owner) (message : Json) : outcome (option update) :=
  let value := string_value (change message 0 1) in
  match o with
  | OwnedSlot BlockNumberSlot => n ← fromHex LongLong (string_value (at_str message "number")) true; Ret (Some (BlockNumber n))
  | OwnedSlot ExtrinsicSlot => Ret (Some (ExtrinsicStatus (dump message)))
  | OwnedSlot TransferSlot =>
      Ret (if contains (str "ready") (dump message) then Some (TransferStatus (str "ready"))
           else if contains (str "finalized") (dump message) then Some (TransferStatus (str "finalized")) else None)
  | OwnedSlot EraSlot =>
      epochs ← written (isEpochBased (eraPrm a));
      if epochs : bool then es ← epoch_update (eraPrm a) message; Ret (Some (EraAndSession es.1 es.2))
      else es ← session_update (bestBlockNum a) message; Ret (match es with Some es => Some (EraAndSession es.1 es.2) | None => None end)
  | OwnedSlot FinalizedSlot => h ← decodeBlockHeader message; Ret (Some (FinalizedBlock h))
  | OwnedSlot RuntimeSlot => rv ← createRuntimeVersion message; Ret (Some (RuntimeUpdate rv))
  | OwnedKey NonceTable _ => n ← fromHex UnsignedLong value false; Ret (Some (AccountNonce n))
  | OwnedKey BalanceTable _ => n ← fromHex UInt128 value false; Ret (Some (Balance n))
  | OwnedKey StorageTable _ => Ret (Some (StorageValue value))
  | Nobody => Ret None
  end.

Definition callback_of (a : CPolkaApi) (o : owner) : option callback :=
  match o with
  | OwnedSlot s => subscriber (slots a s)
  | OwnedKey t key => default None (map_find key (subscribers (tables a t)))
  | Nobody => None
  end.

(** A callback called, and the end of a transfer. *)
Definition called_back (cb : callback) (u : update) (st : state) : state :=
  match cb, u with
  | User c, _ => add_call c u st
  | SetBestBlock, BlockNumber n => set_polka (set_bestBlockNum n (polka st)) st
  | SetNonce, AccountNonce n => set_nonceDone (Some n) st
  | _, _ => st
  end.

Definition concluded (u : update) (st : state) : state :=
  match u with
  | TransferStatus s => if bool_decide (s = str "finalized") then set_polka (set_slot TransferSlot cleared (polka st)) st else st
  | _ => st
  end.

(** The update [message] with the id [id], handled in [st], as these say. *)
Definition taken (o : outcome owner) (message : Json) (st : state) (r : option (outcome unit * state)) : Prop :=
  match (o' ← o; u ← update_of (polka st) o' message; Ret (o', u)) with
  | Ret (o', Some u) => exists cb, callback_of (polka st) o' = Some cb /\ r = Some (Ret tt, concluded u (called_back cb u st))
  | Ret (_, None) => r = Some (Ret tt, st)
  | UB => r = Some (UB, st)
  | Throw _ => False
  end.

(** *** The code follows it *)

Lemma bind_slot_owns {B} s (f : Z -> M B) st :
  (x ← slot_id s; f x) st
  = match subscriptionId (slots (polka st) s) with Some i => f i st | None => Some (UB, st) end.
Proof. destruct (subscriptionId _) eqn:E; [by apply bind_slot_id|by apply bind_slot_id_none]. Qed.

Lemma slot_owns_eq a s id : slot_owns a s id = match subscriptionId (slots a s) with Some i => Ret (i =? id) | None => UB end.
Proof. unfold slot_owns. by destruct (subscriptionId _). Qed.

Lemma invoke_called cb u st : invoke (Some cb) u st = Some (Ret tt, called_back cb u st).
Proof. by destruct cb, u. Qed.

Lemma invoke_slot_called s u id st : wf (polka st) -> id <> 0 -> subscriptionId (slots (polka st) s) = Some id ->
  exists cb, callback_of (polka st) (OwnedSlot s) = Some cb /\ invoke_slot s u st = Some (Ret tt, called_back cb u st).
Proof.
  intros Hwf Hid Hs. unfold invoke_slot. rewrite bind_get_slot. cbn [callback_of].
  destruct (subscriber (slots (polka st) s)) as [cb|] eqn:Ec; [|by destruct (proj1 Hwf s id Hs Hid)].
  exists cb. split; [done|apply invoke_called].
Qed.

Lemma invoke_keyed_called t key u id st : wf (polka st) -> key_of_id id (subscriptionIds (tables (polka st) t)) = Some key ->
  exists cb, callback_of (polka st) (OwnedKey t key) = Some cb /\ invoke_keyed t key u st = Some (Ret tt, called_back cb u st).
Proof.
  intros [_ Hwf] Hk. destruct (Hwf t) as (_ & Hs & Hc). apply key_of_id_spec in Hk; [|done].
  destruct (Hc key id Hk) as [cb Ecb]. exists cb. unfold invoke_keyed. rewrite bind_get_table. cbn [callback_of]. rewrite Ecb.
  split; [done|apply invoke_called].
Qed.

(** A decoder run, then the callback of the owner called: what the branches of
    [handleWsMessage] do. *)
Lemma taken_decoded {A} o (v : outcome A) (g : A -> update) (k : A -> M unit) message st :
  throwless v -> update_of (polka st) o message = (x ← v; Ret (Some (g x))) ->
  (forall x, exists cb, callback_of (polka st) o = Some cb /\ k x st = Some (Ret tt, concluded (g x) (called_back cb (g x) st))) ->
  taken (Ret o) message st ((x ← run v; k x) st).
Proof.
  intros Hv Eu Hk. unfold taken. ostep. rewrite Eu. destruct v as [x|e|]; [|by destruct (Hv e)|done]. ostep.
  destruct (Hk x) as (cb & Ec & Ek). by exists cb.
Qed.

Lemma taken_last id message st : wf (polka st) -> id <> 0 ->
  taken (owner_last (polka st) id) message st (handle_last id message st).
Proof.
  intros Hwf Hid. unfold handle_last, owner_last. rewrite bind_slot_owns, (slot_owns_eq _ FinalizedSlot).
  destruct (subscriptionId (slots (polka st) FinalizedSlot)) as [i|] eqn:Ef; [|done]. ostep.
  destruct (Z.eqb_spec i id) as [->|_].
  { apply (taken_decoded _ _ FinalizedBlock); [auto with throwless|done|]. intros h. by apply (invoke_slot_called _ _ id). }
  rewrite bind_slot_owns, (slot_owns_eq _ RuntimeSlot). destruct (subscriptionId (slots (polka st) RuntimeSlot)) as [i'|] eqn:Er; [|done]. ostep.
  destruct (Z.eqb_spec i' id) as [->|_].
  { apply (taken_decoded _ _ RuntimeUpdate); [auto with throwless|done|]. intros h. by apply (invoke_slot_called _ _ id). }
  rewrite bind_this. destruct (key_of_id id _) as [key|] eqn:Ek; [|done].
  unfold taken. ostep. cbn [update_of]. ostep. by apply (invoke_keyed_called _ _ _ id).
Qed.

Lemma taken_era id message st : wf (polka st) -> id <> 0 ->
  taken (owner_era (polka st) id) message st (handle_era id message st).
Proof.
  intros Hwf Hid. unfold handle_era, owner_era. rewrite bind_this, bind_slot_owns, (slot_owns_eq _ EraSlot).
  destruct (subscriptionId (slots (polka st) EraSlot)) as [i|] eqn:Ei; [|done]. ostep.
  destruct ((i =? id) && negb (bestBlockNum (polka st) =? -1)) eqn:Eb; [|by apply taken_last].
  apply andb_prop in Eb as [Eb _]. apply Z.eqb_eq in Eb as ->.
  destruct (isEpochBased (eraPrm (polka st))) as [b|] eqn:Ee; [|unfold taken; ostep; cbn [update_of]; by rewrite Ee].
  erewrite bind_run by reflexivity. destruct b.
  - apply (taken_decoded _ _ (fun es => EraAndSession es.1 es.2)); [auto with throwless|cbn [update_of]; by rewrite Ee|].
    intros es. by apply (invoke_slot_called _ _ id).
  - pose proof (throwless_session (bestBlockNum (polka st)) message) as Hv. unfold taken. ostep. cbn [update_of]. rewrite Ee. ostep.
    destruct (session_update (bestBlockNum (polka st)) message) as [[es|]|e|]; [|done|by destruct (Hv e)|done].
    ostep. by apply (invoke_slot_called _ _ id).
Qed.

Lemma taken_extrinsics id message st : wf (polka st) -> id <> 0 ->
  taken (owner_extrinsics (polka st) id) message st (handle_extrinsics id message st).
Proof.
  intros Hwf Hid. unfold handle_extrinsics, owner_extrinsics. rewrite bind_slot_owns, (slot_owns_eq _ ExtrinsicSlot).
  destruct (subscriptionId (slots (polka st) ExtrinsicSlot)) as [i|] eqn:Ex; [|done]. ostep.
  destruct (Z.eqb_spec i id) as [->|_]; [by apply (invoke_slot_called _ _ id)|].
  rewrite bind_slot_owns, (slot_owns_eq _ TransferSlot). destruct (subscriptionId (slots (polka st) TransferSlot)) as [i'|] eqn:Et; [|done]. ostep.
  destruct (Z.eqb_spec i' id) as [->|_]; [|by apply taken_era].
  unfold taken. ostep. cbn [update_of]. ostep. destruct (contains (str "ready") (dump message)).
  { by apply (invoke_slot_called _ _ id). }
  destruct (contains (str "finalized") (dump message)); [|done].
  destruct (invoke_slot_called TransferSlot (TransferStatus (str "finalized")) id st) as (cb & Ec & Ei); [done..|].
  exists cb. split; [done|]. by erewrite bind_Some by exact Ei.
Qed.

Lemma handle_taken id message st : wf (polka st) -> id <> 0 ->
  taken (owner_of (polka st) id) message st (handleWsMessage id message st).
Proof.
  intros Hwf Hid. unfold handleWsMessage, owner_of. rewrite bind_this, bind_slot_owns, (slot_owns_eq _ BlockNumberSlot).
  destruct (subscriptionId (slots (polka st) BlockNumberSlot)) as [i|] eqn:Eb; [|done]. ostep.
  destruct (Z.eqb_spec i id) as [->|_].
  { apply (taken_decoded _ _ BlockNumber); [auto with throwless|done|]. intros n. by apply (invoke_slot_called _ _ id). }
  destruct (key_of_id id (subscriptionIds (tables (polka st) NonceTable))) as [key|] eqn:En.
  { apply (taken_decoded _ _ AccountNonce); [auto with throwless|done|]. intros n. by apply (invoke_keyed_called _ _ _ id). }
  destruct (key_of_id id (subscriptionIds (tables (polka st) BalanceTable))) as [key|] eqn:Ea; [|by apply taken_extrinsics].
  apply (taken_decoded _ _ Balance); [auto with throwless|done|]. intros n. by apply (invoke_keyed_called _ _ _ id).
Qed.

(** ** Every call, with updates in its gaps

    The calls that submit extrinsics get a nonce first and then subscribe, or send. *)

Context (sr25519_sign : list Z -> list Z -> list Z -> list Z).

Definition submitAndSubcribeExtrinsic_with (n n' : nat) (encodedMethodBytes module method sender privateKey : text)
    (cb : callback) : M unit :=
  nonce ← getAccountNonce_with n sender;
  _ ← run (encodeCompactInteger nonce);
  '(moduleIndex, methodIndex, genesis) ← call_indexes module method;
  teStr ← run (watch_text sr25519_sign nonce moduleIndex methodIndex encodedMethodBytes sender privateKey genesis);
  watch_with n' teStr cb.

Definition submitExtrinsic_with (n : nat) (encodedMethodBytes module method sender privateKey : text) : M text :=
  nonce ← getAccountNonce_with n sender;
  _ ← run (encodeCompactInteger nonce);
  '(moduleIndex, methodIndex, genesis) ← call_indexes module method;
  teStr ← run (submit_text sr25519_sign nonce moduleIndex methodIndex encodedMethodBytes sender privateKey genesis);
  response ← request (query "author_submitExtrinsic" [JString teStr]) RESPONSE_TIMEOUT_S;
  mret (string_value response).

(** A transfer, with updates in the gap of the nonce but not in its own. *)
Definition signAndSendTransfer_nonce_with (n : nat) (sender privateKey recipient : text) (transferAmount : Z)
    (cb : callback) : M unit :=
  nonce ← getAccountNonce_with n sender;
  a ← this;
  let p := protocolPrm a in
  moduleIndex ← run (written (BalanceModuleIndex p));
  methodIndex ← run (written (TransferMethodIndex p));
  genesis ← run (written (GenesisBlockHash p));
  teStr ← run (transfer_text sr25519_sign nonce moduleIndex methodIndex sender recipient privateKey transferAmount genesis);
  set_subscriber TransferSlot cb;;
  id ← subscribeWs (query "author_submitAndWatchExtrinsic" [JString teStr]);
  set_slot_id TransferSlot id.

(** The calls and updates of [public], and the calls with gaps other than that of a
    transfer. *)
Inductive gapped : forall A, M A -> Prop :=
| gap_public A (m : M A) : public sr25519_sign A m -> gapped A m
| gap_slot n s q c : s <> TransferSlot -> gapped _ (subscribe_slot_with n s q (User c))
| gap_era n n' c : gapped _ (subscribeEraAndSession_with n n' (User c))
| gap_account n t address prefix c : gapped _ (subscribe_keyed_with n t address (account_query address prefix) (User c))
| gap_storage n key c :
    gapped _ (subscribe_keyed_with n StorageTable key (mret (query "state_subscribeStorage" [JArray [JString key]])) (User c))
| gap_nonce n address : gapped _ (getAccountNonce_with n address)
| gap_watch n n' e m f a k c : gapped _ (submitAndSubcribeExtrinsic_with n n' e m f a k (User c))
| gap_submit n e m f a k : gapped _ (submitExtrinsic_with n e m f a k)
| gap_transfer n a k b amt c : gapped _ (signAndSendTransfer_nonce_with n a k b amt (User c)).

(** One call or update that returns, with a value or an exception. *)
Inductive gap_step : state -> state -> Prop :=
| gap_step_call A (m : M A) o st st' : gapped A m -> m st = Some (o, st') -> o <> UB -> gap_step st st'.

Lemma keeps_with {A} (m : M A) Q : triple wf m (fun _ a => wf a /\ Q a) wf -> keeps wf m.
Proof. intros H. apply (triple_weaken _ _ _ _ _ _ _ H); [done| |done]. by intros x a []. Qed.

Lemma keeps_nonce_with n address : keeps wf (getAccountNonce_with n address).
Proof.
  unfold getAccountNonce_with. apply keeps_bind; [by intros st o st' HP [= <- <-]|]. intros [].
  apply keeps_bind; [eapply keeps_with, keyed_with_triple; intros P'; apply keeps_account_query|]. intros _.
  apply keeps_bind; [intros st o st'; apply (keeps_wait_nonce wf)|]. intros r.
  apply keeps_bind; [apply keeps_unsubscribe_keyed|]. intros _. apply keeps_ret.
Qed.

Lemma keeps_watch_with n teStr cb : keeps wf (watch_with n teStr cb).
Proof. eapply keeps_with, watch_with_triple. Qed.

#[local] Hint Resolve keeps_ret keeps_run keeps_this keeps_request keeps_nonce_with keeps_watch_with keeps_register : keeps.

Lemma gapped_keeps A (m : M A) : gapped A m -> keeps wf m.
Proof.
  destruct 1.
  - by apply (public_keeps sr25519_sign wf).
  - by eapply keeps_with, slot_with_triple.
  - eapply keeps_with, era_with_triple.
  - eapply keeps_with, keyed_with_triple. intros P'. apply keeps_account_query.
  - eapply keeps_with, keyed_with_triple. intros P'. apply keeps_ret.
  - apply keeps_nonce_with.
  - unfold submitAndSubcribeExtrinsic_with, call_indexes, the_metadata. keeps.
  - unfold submitExtrinsic_with, call_indexes, the_metadata. keeps.
  - unfold signAndSendTransfer_nonce_with. keeps.
Qed.

Lemma gap_reachable_wf st0 st : initial st0 -> rtc gap_step st0 st -> wf (polka st).
Proof.
  intros H0 Hr. assert (wf (polka st0)) as Hwf by (rewrite H0; apply wf_new). clear H0.
  induction Hr as [st|st1 st2 st3 Hs _ IH]; [done|]. apply IH. destruct Hs as [A m o st st' Hp E Ho].
  pose proof (gapped_keeps A m Hp st o st' Hwf E). by destruct o.
Qed.

(** C16: what every update does. In every state that calls of the application and
    updates lead to from a new object, also when updates are handled while a call
    subscribes (to anything but a transfer), handling an update of any subscription
    ends in one of three ways. If ids are compared that were never assigned, or the
    update is read where that is undefined, it is undefined. If the update belongs to
    no subscription, or tells its subscription nothing, nothing changes. And
    otherwise the callback that is registered for the subscription, of which there
    is one, is called with what the update tells, once, and nothing else changes,
    but that a transfer ends with "finalized". No exception is thrown: no
    callback that is empty or gone is called. (An exception would end the program, for
    updates are handled on threads of the client.) *)
Theorem updates_end st0 st id message :
  initial st0 -> rtc gap_step st0 st -> id <> 0 ->
  match (o ← owner_of (polka st) id; u ← update_of (polka st) o message; Ret (o, u)) with
  | Ret (o, Some u) =>
      exists cb, callback_of (polka st) o = Some cb
        /\ handleWsMessage id message st = Some (Ret tt, concluded u (called_back cb u st))
  | Ret (_, None) => handleWsMessage id message st = Some (Ret tt, st)
  | UB => handleWsMessage id message st = Some (UB, st)
  | Throw _ => False
  end.
Proof. intros H0 Hr Hid. apply handle_taken; [by apply (gap_reachable_wf st0)|done]. Qed.
End updates.

(** ** Examples *)

#[local] Existing Instance numeral_doubles.
#[local] Existing Instance scripted_client.
#[local] Existing Instance ApiBehaviour.no_what.

(** A subscription to heads during which the update of another one was handled. *)
Definition overtaken : state :=
  after (subscribe_slot_with 1 BlockNumberSlot (query "chain_subscribeNewHead" []) (User 4)) balance_subscribed.

Lemma gap_step_after {A} (m : M A) x st : gapped no_sign A m -> fst <$> m st = Some (Ret x) -> gap_step no_sign st (after m st).
Proof.
  intros Hm E. unfold after. destruct (m st) as [[o st']|] eqn:Em; [|done]. injection E as ->.
  by apply (gap_step_call no_sign A m (Ret x)).
Qed.

Lemma overtaken_reachable : rtc (gap_step no_sign) (start node_script) overtaken.
Proof.
  assert (gap_step no_sign (start node_script) connected) as H1.
  { unfold connected. eapply gap_step_after; [apply gap_public, pub_connect|]. by rewrite connect_returns. }
  assert (gap_step no_sign connected balance_subscribed) as H2.
  { unfold balance_subscribed. eapply gap_step_after; [apply gap_public, pub_subscribeBalance|vm_compute; reflexivity]. }
  assert (gap_step no_sign balance_subscribed overtaken) as H3.
  { unfold overtaken. eapply gap_step_after; [by apply gap_slot|vm_compute; reflexivity]. }
  by do 2 (eapply rtc_l; [eassumption|]); apply rtc_once.
Qed.

Definition balance_message : Json := change_json [JString (str "0x00e40b54020000000000000000000000")].

Lemma updates_end_witness :
  handleWsMessage 7 balance_message overtaken
    = Some (Ret tt, add_call 3 (Balance 10000000000) overtaken)
  /\ handleWsMessage 9 JNull overtaken = Some (UB, overtaken).
Proof.
  pose proof overtaken_reachable as Hr.
  split.
  - pose proof (updates_end no_sign (start node_script) overtaken 7 balance_message eq_refl Hr ltac:(discriminate)) as H.
    assert ((o ← owner_of (polka overtaken) 7; u ← update_of (polka overtaken) o balance_message; Ret (o, u))
      = Ret (OwnedKey BalanceTable test_addr, Some (Balance 10000000000))) as E by (vm_compute; reflexivity).
    rewrite E in H. destruct H as (cb & Ec & H). assert (cb = User 3) as -> by (vm_compute in Ec; congruence). exact H.
  - pose proof (updates_end no_sign (start node_script) overtaken 9 JNull eq_refl Hr ltac:(discriminate)) as H.
    assert ((o ← owner_of (polka overtaken) 9; u ← update_of (polka overtaken) o JNull; Ret (o, u)) = UB) as E by (vm_compute; reflexivity).
    rewrite E in H. exact H.
Defined.
