(* ===== verification/Int128.v ===== *)
(** 128-bit integers: [src/libs/int128/int128.h] and [src/libs/int128/int128.cpp].

    A [uint128] is a pair of 64-bit words. The operators are those of the portable
    branches of the file; where the compiler has [unsigned __int128] multiplication
    and division use it. The other files model the type as integers modulo 2^128,
    which the theorems of this file and of [Words] justify.

    A shift of a 64-bit word by a negative amount or by 64 and more is undefined, and
    a failed [assert] counts as undefined behaviour. *)
From S2P Require Import Prelude.

(** ** The type: [class uint128] *)

Record uint128 : Type := MakeUint128 { Uint128High64 : Z; Uint128Low64 : Z }.

(** The number that the two words stand for. *)
Definition uval (x : uint128) : Z := Uint128High64 x * 2 ^ 64 + Uint128Low64 x.

Definition is_word (z : Z) : Prop := 0 <= z < 2 ^ 64.
Definition uint128_ok (x : uint128) : Prop := is_word (Uint128High64 x) /\ is_word (Uint128Low64 x).

(** ** Constructors and conversions *)

Definition UINT64_MAX : Z := 18446744073709551615.
Definition Uint128Max : uint128 := MakeUint128 UINT64_MAX UINT64_MAX.

(** From a signed type, and from an unsigned one of at most 64 bits. *)
Definition uint128_of_signed (v : Z) : uint128 := MakeUint128 (if v <? 0 then UINT64_MAX else 0) (u64 v).
Definition uint128_of_unsigned (v : Z) : uint128 := MakeUint128 0 v.

Definition uint128_to_bool (x : uint128) : bool := negb (Uint128Low64 x =? 0) || negb (Uint128High64 x =? 0).
(** To an unsigned and to a signed type of [w] bits. *)
Definition uint128_to_unsigned (w : Z) (x : uint128) : Z := uwrap w (Uint128Low64 x).
Definition uint128_to_signed (w : Z) (x : uint128) : Z := swrap w (Uint128Low64 x).

(** ** Comparisons *)

Definition uint128_eq (lhs rhs : uint128) : bool :=
  (Uint128Low64 lhs =? Uint128Low64 rhs) && (Uint128High64 lhs =? Uint128High64 rhs).
Definition uint128_ne (lhs rhs : uint128) : bool := negb (uint128_eq lhs rhs).
Definition uint128_lt (lhs rhs : uint128) : bool :=
  if Uint128High64 lhs =? Uint128High64 rhs then Uint128Low64 lhs <? Uint128Low64 rhs
  else Uint128High64 lhs <? Uint128High64 rhs.
Definition uint128_gt (lhs rhs : uint128) : bool :=
  if Uint128High64 lhs =? Uint128High64 rhs then Uint128Low64 rhs <? Uint128Low64 lhs
  else Uint128High64 rhs <? Uint128High64 lhs.
Definition uint128_le (lhs rhs : uint128) : bool :=
  if Uint128High64 lhs =? Uint128High64 rhs then Uint128Low64 lhs <=? Uint128Low64 rhs
  else Uint128High64 lhs <=? Uint128High64 rhs.
Definition uint128_ge (lhs rhs : uint128) : bool :=
  if Uint128High64 lhs =? Uint128High64 rhs then Uint128Low64 rhs <=? Uint128Low64 lhs
  else Uint128High64 rhs <=? Uint128High64 lhs.

(** ** Operators on bits *)

(** [~x] on a 64-bit word *)
Definition not64 (z : Z) : Z := u64 (Z.lnot z).

Definition uint128_not (x : uint128) : uint128 := MakeUint128 (not64 (Uint128High64 x)) (not64 (Uint128Low64 x)).
Definition uint128_or (lhs rhs : uint128) : uint128 :=
  MakeUint128 (Z.lor (Uint128High64 lhs) (Uint128High64 rhs)) (Z.lor (Uint128Low64 lhs) (Uint128Low64 rhs)).
Definition uint128_and (lhs rhs : uint128) : uint128 :=
  MakeUint128 (Z.land (Uint128High64 lhs) (Uint128High64 rhs)) (Z.land (Uint128Low64 lhs) (Uint128Low64 rhs)).
Definition uint128_xor (lhs rhs : uint128) : uint128 :=
  MakeUint128 (Z.lxor (Uint128High64 lhs) (Uint128High64 rhs)) (Z.lxor (Uint128Low64 lhs) (Uint128Low64 rhs)).
Definition uint128_is_zero (x : uint128) : bool := (Uint128High64 x =? 0) && (Uint128Low64 x =? 0).

(** [x << n] and [x >> n] on 64-bit words *)
Definition shl64 (x n : Z) : outcome Z := if (0 <=? n) && (n <? 64) then Ret (u64 (Z.shiftl x n)) else UB.
Definition shr64 (x n : Z) : outcome Z := if (0 <=? n) && (n <? 64) then Ret (Z.shiftr x n) else UB.

Definition uint128_shl (lhs : uint128) (amount : Z) : outcome uint128 :=
  if amount <? 64 then
    if negb (amount =? 0) then
      h ← shl64 (Uint128High64 lhs) amount;
      c ← shr64 (Uint128Low64 lhs) (64 - amount);
      l ← shl64 (Uint128Low64 lhs) amount;
      Ret (MakeUint128 (Z.lor h c) l)
    else Ret lhs
  else h ← shl64 (Uint128Low64 lhs) (amount - 64); Ret (MakeUint128 h 0).

Definition uint128_shr (lhs : uint128) (amount : Z) : outcome uint128 :=
  if amount <? 64 then
    if negb (amount =? 0) then
      h ← shr64 (Uint128High64 lhs) amount;
      l ← shr64 (Uint128Low64 lhs) amount;
      c ← shl64 (Uint128High64 lhs) (64 - amount);
      Ret (MakeUint128 h (Z.lor l c))
    else Ret lhs
  else l ← shr64 (Uint128High64 lhs) (amount - 64); Ret (MakeUint128 0 l).

(** ** Arithmetic *)

Definition uint128_neg (x : uint128) : uint128 :=
  let hi := not64 (Uint128High64 x) in
  let lo := u64 (not64 (Uint128Low64 x) + 1) in
  MakeUint128 (if lo =? 0 then u64 (hi + 1) else hi) lo.

Definition uint128_add (lhs rhs : uint128) : uint128 :=
  let result := MakeUint128 (u64 (Uint128High64 lhs + Uint128High64 rhs)) (u64 (Uint128Low64 lhs + Uint128Low64 rhs)) in
  if Uint128Low64 result <? Uint128Low64 lhs
  then MakeUint128 (u64 (Uint128High64 result + 1)) (Uint128Low64 result)
  else result.

Definition uint128_sub (lhs rhs : uint128) : uint128 :=
  let result := MakeUint128 (u64 (Uint128High64 lhs - Uint128High64 rhs)) (u64 (Uint128Low64 lhs - Uint128Low64 rhs)) in
  if Uint128Low64 lhs <? Uint128Low64 rhs
  then MakeUint128 (u64 (Uint128High64 result - 1)) (Uint128Low64 result)
  else result.

(** Schoolbook multiplication on 32-bit halves. *)
Definition uint128_mul (lhs rhs : uint128) : outcome uint128 :=
  let a32 := Z.shiftr (Uint128Low64 lhs) 32 in
  let a00 := Z.land (Uint128Low64 lhs) 0xffffffff in
  let b32 := Z.shiftr (Uint128Low64 rhs) 32 in
  let b00 := Z.land (Uint128Low64 rhs) 0xffffffff in
  let result := MakeUint128
    (u64 (u64 (u64 (Uint128High64 lhs * Uint128Low64 rhs) + u64 (Uint128Low64 lhs * Uint128High64 rhs)) + u64 (a32 * b32)))
    (u64 (a00 * b00)) in
  p ← uint128_shl (uint128_of_unsigned (u64 (a32 * b00))) 32;
  q ← uint128_shl (uint128_of_unsigned (u64 (a00 * b32))) 32;
  Ret (uint128_add (uint128_add result p) q).

(** [++x] and [--x]; the postfix forms give the old value. *)
Definition uint128_inc (x : uint128) : uint128 := uint128_add x (uint128_of_signed 1).
Definition uint128_dec (x : uint128) : uint128 := uint128_sub x (uint128_of_signed 1).

(** ** Division *)

(** [STEP(T, n, pos, sh)] *)
Definition STEP (np : Z * Z) (sh : Z) : Z * Z :=
  let '(n, pos) := np in if 2 ^ sh <=? n then (Z.shiftr n sh, Z.lor pos sh) else (n, pos).

Definition Fls64 (n : Z) : outcome Z :=
  assume (negb (n =? 0));;
  let '(n, pos) := STEP (n, 0) 0x20 in
  let n32 := u32 n in
  let '(n32, pos) := STEP (STEP (STEP (n32, pos) 0x10) 0x08) 0x04 in
  Ret (pos + Z.land (Z.shiftr 0x3333333322221100 (Z.shiftl n32 2)) 0x3).

Definition Fls128 (n : uint128) : outcome Z :=
  if negb (Uint128High64 n =? 0) then p ← Fls64 (Uint128High64 n); Ret (p + 64) else Fls64 (Uint128Low64 n).

(** [for (int i = 0; i <= shift; ++i)]: the rounds left, and [dividend],
    [denominator] and [quotient]. *)
Fixpoint divmod_loop (rounds : nat) (dividend denominator quotient : uint128) : outcome (uint128 * uint128) :=
  match rounds with
  | O => Ret (quotient, dividend)
  | S rounds' =>
      q ← uint128_shl quotient 1;
      d ← uint128_shr denominator 1;
      if uint128_ge dividend denominator
      then divmod_loop rounds' (uint128_sub dividend denominator) d (uint128_or q (uint128_of_signed 1))
      else divmod_loop rounds' dividend d q
  end.

(** Quotient and remainder. *)
Definition DivModImpl (dividend divisor : uint128) : outcome (uint128 * uint128) :=
  assume (uint128_ne divisor (uint128_of_signed 0));;
  if uint128_gt divisor dividend then Ret (uint128_of_signed 0, dividend)
  else if uint128_eq divisor dividend then Ret (uint128_of_signed 1, uint128_of_signed 0)
  else
    a ← Fls128 dividend;
    b ← Fls128 divisor;
    let shift := a - b in
    denominator ← uint128_shl divisor shift;
    divmod_loop (Z.to_nat (shift + 1)) dividend denominator (uint128_of_signed 0).

Definition uint128_div (lhs rhs : uint128) : outcome uint128 := qr ← DivModImpl lhs rhs; Ret qr.1.
Definition uint128_rem (lhs rhs : uint128) : outcome uint128 := qr ← DivModImpl lhs rhs; Ret qr.2.

(** ** Printing *)

(** The flags of a stream that printing looks at. [Dec] stands for every base
    field other than [hex] and [oct]; without an adjust field text is right-adjusted. *)
Inductive basefield : Type := Dec | Hex | Oct.
Inductive adjustfield : Type := adjust_left | adjust_internal | adjust_right.
Record fmtflags : Type := { fbase : basefield; showbase : bool; uppercase : bool; adjust : adjustfield }.

Definition radix (b : basefield) : Z := match b with Dec => 10 | Hex => 16 | Oct => 8 end.

Definition uint_char (upper : bool) (d : Z) : Z := if d <? 10 then 48 + d else (if upper then 55 else 87) + d.

(** The digits of [n], the least significant first; none for 0. *)
Fixpoint num_digits (fuel : nat) (b n : Z) : list Z :=
  match fuel with
  | O => []
  | S fuel' => if n =? 0 then [] else n mod b :: num_digits fuel' b (n / b)
  end.

(** The digits of a number below 2^128 are at most 128. *)
Definition print_digits (b : basefield) (upper : bool) (n : Z) : list Z :=
  if n =? 0 then [48] else uint_char upper <$> rev (num_digits 128 (radix b) n).

(** [showbase] puts 0x before a hexadecimal number other than 0, and a 0 before an
    octal one. *)
Definition base_prefix (f : fmtflags) (n : Z) : list Z :=
  if showbase f && negb (n =? 0) then
    match fbase f with Dec => [] | Hex => [48; if uppercase f then 88 else 120] | Oct => [48] end
  else [].

Definition print_uint (f : fmtflags) (n : Z) : list Z := base_prefix f n ++ print_digits (fbase f) (uppercase f) n.

(** [os << std::setw(width) << n] with the fill character, on a stream that adjusts right. *)
Definition put_uint64 (f : fmtflags) (fill : Z) (width : nat) (n : Z) : list Z :=
  let s := print_uint f n in replicate (width - length s) fill ++ s.

Definition noshowbase (f : fmtflags) : fmtflags :=
  {| fbase := fbase f; showbase := false; uppercase := uppercase f; adjust := adjust f |}.

(** The largest power of the base below 2^64 (16^15, 8^21 or 10^19) and its exponent. *)
Definition chunk (b : basefield) : uint128 * nat :=
  match b with
  | Hex => (uint128_of_signed 0x1000000000000000, 15%nat)
  | Oct => (uint128_of_unsigned 0x8000000000000000, 21%nat)
  | Dec => (uint128_of_unsigned 10000000000000000000, 19%nat)
  end.

Definition Uint128ToFormattedString (v : uint128) (flags : fmtflags) : outcome (list Z) :=
  let '(div, div_base_log) := chunk (fbase flags) in
  '(high, low) ← DivModImpl v div;
  '(high, mid) ← DivModImpl high div;
  let inner := noshowbase flags in
  Ret (if negb (Uint128Low64 high =? 0) then
         put_uint64 flags 32 0 (Uint128Low64 high)
         ++ put_uint64 inner 48 div_base_log (Uint128Low64 mid)
         ++ put_uint64 inner 48 div_base_log (Uint128Low64 low)
       else if negb (Uint128Low64 mid =? 0) then
         put_uint64 flags 32 0 (Uint128Low64 mid)
         ++ put_uint64 inner 48 div_base_log (Uint128Low64 low)
       else put_uint64 flags 32 0 (Uint128Low64 low)).

(** [os << v] on a stream with the flags, a width and a fill character. *)
Definition uint128_put (flags : fmtflags) (width : nat) (fill : Z) (v : uint128) : outcome (list Z) :=
  rep ← Uint128ToFormattedString v flags;
  let pad := replicate (width - length rep) fill in
  Ret (if (length rep <? width)%nat then
         match adjust flags with
         | adjust_left => rep ++ pad
         | adjust_internal =>
             if showbase flags && match fbase flags with Hex => true | _ => false end
                && uint128_ne v (uint128_of_signed 0)
             then take 2 rep ++ pad ++ drop 2 rep
             else pad ++ rep
         | adjust_right => pad ++ rep
         end
       else rep).

#[global] Arguments not64 : simpl never.
#[global] Arguments shl64 : simpl never.
#[global] Arguments shr64 : simpl never.

(** ** Words *)

(** The equality of two numbers modulo a power of two, with the multiple named. *)
Lemma uwrap_shift w a b k : a = b + k * 2 ^ w -> uwrap w a = uwrap w b.
Proof.
  intros ->. unfold uwrap. destruct (Z.eq_dec (2 ^ w) 0) as [->|H]; [by rewrite Z.mul_0_r, Z.add_0_r|].
  by rewrite Z.mod_add.
Qed.

Lemma uwrap_quot w z : 0 <= w -> exists k, uwrap w z = z + k * 2 ^ w.
Proof.
  intros Hw. exists (- (z / 2 ^ w)). unfold uwrap. rewrite (Z.mod_eq z (2 ^ w)) by (apply Z.pow_nonzero; lia). ring.
Qed.

Lemma word_range z : is_word (u64 z).
Proof. apply (uwrap_range 64). lia. Qed.

Lemma word_small z : is_word z -> u64 z = z.
Proof. apply uwrap_small. Qed.

Lemma uval_range x : uint128_ok x -> 0 <= uval x < 2 ^ 128.
Proof. unfold uint128_ok, is_word, uval. lia. Qed.

Lemma uval_inj x y : uint128_ok x -> uint128_ok y -> uval x = uval y -> x = y.
Proof. destruct x, y. unfold uint128_ok, is_word, uval. cbn. intros ?? E. f_equal; lia. Qed.

(** What a pair of a wrapped and an exact word stands for. *)
Lemma uval_wrap h l : is_word l -> uval (MakeUint128 (u64 h) l) = u128 (h * 2 ^ 64 + l).
Proof.
  intros Hl. destruct (uwrap_quot 64 h ltac:(lia)) as [k E]. pose proof (word_range h) as Hh.
  rewrite <- (uwrap_small 128 (uval _)).
  - apply (uwrap_shift 128 _ _ k). unfold uval. cbn [Uint128High64 Uint128Low64]. rewrite E. ring.
  - apply uval_range. by split.
Qed.

Lemma not64_sub z : is_word z -> not64 z = UINT64_MAX - z.
Proof. intros Hz. unfold not64. rewrite (uwrap_shift 64 _ (UINT64_MAX - z) (-1)); [apply uwrap_small|]; unfold is_word, UINT64_MAX, Z.lnot in *; lia. Qed.

Lemma not64_word z : is_word (not64 z).
Proof. apply word_range. Qed.

#[export] Hint Resolve word_range not64_word : polka.

Ltac words := unfold uint128_ok, is_word, UINT64_MAX in *; cbn [Uint128High64 Uint128Low64] in *.

(** ** Comparisons and conversions *)

Lemma uint128_compare x y : uint128_ok x -> uint128_ok y ->
  uint128_eq x y = (uval x =? uval y) /\ uint128_ne x y = negb (uval x =? uval y)
  /\ uint128_lt x y = (uval x <? uval y) /\ uint128_gt x y = (uval y <? uval x)
  /\ uint128_le x y = (uval x <=? uval y) /\ uint128_ge x y = (uval y <=? uval x).
Proof.
  destruct x as [h l], y as [h' l']. words.
  unfold uint128_ne, uint128_eq, uint128_lt, uint128_gt, uint128_le, uint128_ge, uval.
  cbn [Uint128High64 Uint128Low64].
  repeat split; try (destruct (Z.eqb_spec h h')); lia.
Qed.

Lemma uint128_of_signed_spec v : - 2 ^ 63 <= v < 2 ^ 63 ->
  uint128_ok (uint128_of_signed v) /\ uval (uint128_of_signed v) = u128 v.
Proof.
  intros Hv. unfold uint128_of_signed. pose proof (word_range v) as Hw.
  split; [split; [destruct (v <? 0); words; lia|done]|].
  unfold uval. cbn [Uint128High64 Uint128Low64 uint128_of_signed]. destruct (Z.ltb_spec v 0).
  - rewrite (uwrap_shift 64 v (v + 2 ^ 64) (-1)), (uwrap_shift 128 v (v + 2 ^ 128) (-1)) by lia.
    rewrite !uwrap_small by lia. unfold UINT64_MAX. lia.
  - rewrite !uwrap_small by lia. lia.
Qed.

Lemma uint128_convert x w : uint128_ok x -> 0 < w <= 64 ->
  uint128_to_bool x = negb (uval x =? 0) /\ uint128_to_unsigned w x = uwrap w (uval x)
  /\ uint128_to_signed w x = swrap w (uval x).
Proof.
  intros Hx Hw. unfold uint128_to_bool, uint128_to_unsigned, uint128_to_signed, swrap.
  assert (2 ^ 64 = 2 ^ (64 - w) * 2 ^ w) as E by (rewrite <- Z.pow_add_r by lia; f_equal; lia).
  assert (uval x = Uint128Low64 x + (Uint128High64 x * 2 ^ (64 - w)) * 2 ^ w) as Ev by (unfold uval; rewrite E; ring).
  split; [words; unfold uval; lia|]. split.
  - symmetry. by apply (uwrap_shift w _ _ _ Ev).
  - f_equal. symmetry. apply (uwrap_shift w _ _ (Uint128High64 x * 2 ^ (64 - w))). rewrite Ev. ring.
Qed.

(** ** Arithmetic modulo 2^128 *)

Lemma uint128_add_spec x y : uint128_ok x -> uint128_ok y ->
  uint128_ok (uint128_add x y) /\ uval (uint128_add x y) = u128 (uval x + uval y).
Proof.
  destruct x as [h l], y as [h' l']. intros Hx Hy. unfold uint128_add. cbn [Uint128High64 Uint128Low64].
  assert (u64 (l + l') = if l + l' <? 2 ^ 64 then l + l' else l + l' - 2 ^ 64) as E.
  { words. destruct (Z.ltb_spec (l + l') (2 ^ 64)); [apply uwrap_small; lia|].
    rewrite (uwrap_shift 64 _ (l + l' - 2 ^ 64) 1) by lia. apply uwrap_small. lia. }
  destruct (Z.ltb_spec (u64 (l + l')) l) as [Hc|Hc]; (split; [split; cbn; auto with polka|]).
  - rewrite uval_wrap by auto with polka. destruct (uwrap_quot 64 (h + h') ltac:(lia)) as [k Ek].
    apply (uwrap_shift 128 _ _ k). rewrite Ek. rewrite E in Hc |- *. words. unfold uval. cbn [Uint128High64 Uint128Low64].
    destruct (Z.ltb_spec (l + l') (2 ^ 64)); [lia|ring].
  - rewrite uval_wrap by auto with polka. apply (uwrap_shift 128 _ _ 0). rewrite E in Hc |- *.
    words. unfold uval. cbn [Uint128High64 Uint128Low64]. destruct (Z.ltb_spec (l + l') (2 ^ 64)); lia.
Qed.

Lemma uint128_sub_spec x y : uint128_ok x -> uint128_ok y ->
  uint128_ok (uint128_sub x y) /\ uval (uint128_sub x y) = u128 (uval x - uval y).
Proof.
  destruct x as [h l], y as [h' l']. intros Hx Hy. unfold uint128_sub. cbn [Uint128High64 Uint128Low64].
  destruct (Z.ltb_spec l l') as [Hc|Hc]; (split; [split; cbn; auto with polka|]);
    rewrite uval_wrap by auto with polka; words; unfold uval; cbn [Uint128High64 Uint128Low64].
  - destruct (uwrap_quot 64 (h - h') ltac:(lia)) as [k Ek].
    rewrite (uwrap_shift 64 (l - l') (l - l' + 2 ^ 64) (-1)), (uwrap_small 64 (l - l' + 2 ^ 64)) by lia.
    apply (uwrap_shift 128 _ _ k). rewrite Ek. ring.
  - rewrite (uwrap_small 64 (l - l')) by lia. apply (uwrap_shift 128 _ _ 0). lia.
Qed.

Lemma uint128_neg_spec x : uint128_ok x -> uint128_ok (uint128_neg x) /\ uval (uint128_neg x) = u128 (- uval x).
Proof.
  destruct x as [h l]. intros Hx. unfold uint128_neg. cbn [Uint128High64 Uint128Low64].
  split; [split; cbn; [destruct (_ =? 0)|]; auto with polka|].
  rewrite !not64_sub by apply Hx. words.
  destruct (Z.eqb_spec (u64 (18446744073709551615 - l + 1)) 0) as [E|E].
  - rewrite uval_wrap, E by (rewrite E; words; lia). assert (l = 0) as ->.
    { destruct (Z.eq_dec l 0) as [|Hl]; [done|]. rewrite uwrap_small in E; lia. }
    apply (uwrap_shift 128 _ _ 1). unfold uval. cbn [Uint128High64 Uint128Low64]. lia.
  - rewrite <- (uwrap_small 64 (18446744073709551615 - h)) by lia. rewrite uval_wrap by auto with polka.
    assert (l <> 0) by (intros ->; apply E; done). rewrite (uwrap_small 64) by lia.
    apply (uwrap_shift 128 _ _ 1). unfold uval. cbn [Uint128High64 Uint128Low64]. lia.
Qed.

Lemma uint128_not_spec x : uint128_ok x -> uint128_ok (uint128_not x) /\ uval (uint128_not x) = u128 (Z.lnot (uval x)).
Proof.
  destruct x as [h l]. intros Hx. split; [split; cbn; auto with polka|].
  unfold uint128_not, uval. cbn [Uint128High64 Uint128Low64]. rewrite !not64_sub by apply Hx.
  rewrite (uwrap_shift 128 _ (2 ^ 128 - 1 - (h * 2 ^ 64 + l)) (-1)); [rewrite uwrap_small|]; unfold Z.lnot in *; words; lia.
Qed.

Lemma u64_mul_quot x y : exists k, u64 (x * y) = x * y + k * 2 ^ 64.
Proof. apply uwrap_quot. lia. Qed.

(** ** Bits *)

Lemma testbit_uwrap w z i : 0 <= w -> Z.testbit (uwrap w z) i = (i <? w) && Z.testbit z i.
Proof.
  intros Hw. unfold uwrap. destruct (Z.ltb_spec i w); [by apply Z.mod_pow2_bits_low|].
  by apply Z.mod_pow2_bits_high.
Qed.

Lemma testbit_word z i : is_word z -> 64 <= i -> Z.testbit z i = false.
Proof. apply testbit_high. Qed.

(** The bits of a pair: those of the lower word, then those of the higher. *)
Lemma testbit_uval x i : uint128_ok x ->
  Z.testbit (uval x) i = if i <? 64 then Z.testbit (Uint128Low64 x) i else Z.testbit (Uint128High64 x) (i - 64).
Proof.
  intros [Hh Hl]. unfold uval. rewrite <- lor_disjoint by (unfold is_word in *; lia). rewrite Z.lor_spec.
  destruct (Z.ltb_spec i 64).
  - by rewrite Z.mul_pow2_bits_low.
  - by rewrite Z.mul_pow2_bits, (testbit_word (Uint128Low64 x)), orb_false_r by done.
Qed.

(** A word from its bits. *)
Lemma word_bits z : 0 <= z -> (forall i, 64 <= i -> Z.testbit z i = false) -> is_word z.
Proof.
  intros Hz Hb. assert (z = u64 z) as -> by (apply Z.bits_inj'; intros i Hi; rewrite testbit_uwrap by lia;
    destruct (Z.ltb_spec i 64); [done|by rewrite Hb]). apply word_range.
Qed.

Lemma lor_word a b : is_word a -> is_word b -> is_word (Z.lor a b).
Proof.
  intros Ha Hb. apply word_bits; [unfold is_word in *; apply Z.lor_nonneg; lia|].
  intros i Hi. by rewrite Z.lor_spec, !testbit_word.
Qed.

Lemma land_word a b : is_word a -> is_word b -> is_word (Z.land a b).
Proof.
  intros Ha Hb. apply word_bits; [unfold is_word in *; apply Z.land_nonneg; lia|].
  intros i Hi. by rewrite Z.land_spec, !testbit_word.
Qed.

Lemma lxor_word a b : is_word a -> is_word b -> is_word (Z.lxor a b).
Proof. apply lxor_range. lia. Qed.

Lemma shiftr_word a n : 0 <= n -> is_word a -> is_word (Z.shiftr a n).
Proof. apply shiftr_range. Qed.

#[export] Hint Resolve lor_word land_word lxor_word shiftr_word : polka.

(** Equality of numbers, bit by bit: [bit_cases] compares the index with the widths
    and drops the bits outside a word. *)
Ltac bitwise :=
  apply Z.bits_inj'; intros i Hi;
  repeat first [ rewrite testbit_uval by (split; cbn; auto with polka) | rewrite testbit_uwrap by lia
    | progress cbn [Uint128High64 Uint128Low64] | rewrite Z.lor_spec | rewrite Z.land_spec | rewrite Z.lxor_spec
    | rewrite Z.shiftl_spec by lia | rewrite Z.shiftr_spec by lia ].

Ltac bit_cases :=
  repeat first
    [ match goal with |- context [?a <? ?b] => destruct (Z.ltb_spec a b); try lia end
    | rewrite testbit_uval by (split; cbn; auto with polka) | progress cbn [Uint128High64 Uint128Low64]
    | rewrite Z.lor_spec | rewrite Z.shiftl_spec by lia | rewrite Z.shiftr_spec by lia ];
  repeat match goal with
         | |- context [Z.testbit ?z ?i] =>
             first [rewrite (Z.testbit_neg_r z i) by lia | rewrite (testbit_word z i) by (done || lia)]
         end;
  rewrite ?andb_true_l, ?andb_false_l, ?orb_false_r, ?orb_false_l, ?Z.testbit_0_l; f_equal; lia.

Lemma uint128_bits_spec x y : uint128_ok x -> uint128_ok y ->
  (uint128_ok (uint128_or x y) /\ uval (uint128_or x y) = Z.lor (uval x) (uval y))
  /\ (uint128_ok (uint128_and x y) /\ uval (uint128_and x y) = Z.land (uval x) (uval y))
  /\ (uint128_ok (uint128_xor x y) /\ uval (uint128_xor x y) = Z.lxor (uval x) (uval y)).
Proof.
  destruct x as [h l], y as [h' l']. intros [Hh Hl] [Hh' Hl']. cbn in Hh, Hl, Hh', Hl'.
  unfold uint128_or, uint128_and, uint128_xor. cbn [Uint128High64 Uint128Low64].
  split; [|split]; (split; [split; cbn; auto with polka|bitwise; by destruct (i <? 64)]).
Qed.

Lemma shl64_ok x n : 0 <= n < 64 -> shl64 x n = Ret (u64 (Z.shiftl x n)).
Proof. intros Hn. unfold shl64. by rewrite (proj2 (andb_true_iff _ _)) by lia. Qed.

Lemma shr64_ok x n : 0 <= n < 64 -> shr64 x n = Ret (Z.shiftr x n).
Proof. intros Hn. unfold shr64. by rewrite (proj2 (andb_true_iff _ _)) by lia. Qed.

Lemma zero_word : is_word 0.
Proof. done. Qed.

#[export] Hint Resolve zero_word : polka.

Lemma uint128_shl_spec x n : uint128_ok x -> 0 <= n < 128 ->
  exists r, uint128_shl x n = Ret r /\ uint128_ok r /\ uval r = u128 (uval x * 2 ^ n).
Proof.
  destruct x as [h l]. intros [Hh Hl] Hn. cbn in Hh, Hl. rewrite <- Z.shiftl_mul_pow2 by lia.
  unfold uint128_shl. cbn [Uint128High64 Uint128Low64].
  destruct (Z.ltb_spec n 64) as [H64|H64]; [destruct (Z.eqb_spec n 0) as [->|H0]; cbn [negb]|].
  - eexists. split; [done|]. split; [done|]. rewrite Z.shiftl_0_r, uwrap_small; [done|]. by apply uval_range.
  - rewrite !shl64_ok, shr64_ok by lia. ostep. eexists. split; [done|].
    assert (is_word (Z.shiftr l (64 - n))) by (apply shiftr_word; [lia|done]).
    split; [split; cbn; auto with polka|]. bitwise. bit_cases.
  - rewrite shl64_ok by lia. ostep. eexists. split; [done|].
    split; [split; cbn; auto with polka|]. bitwise. bit_cases.
Qed.

Lemma uint128_shr_spec x n : uint128_ok x -> 0 <= n < 128 ->
  exists r, uint128_shr x n = Ret r /\ uint128_ok r /\ uval r = uval x / 2 ^ n.
Proof.
  destruct x as [h l]. intros [Hh Hl] Hn. cbn in Hh, Hl. rewrite <- Z.shiftr_div_pow2 by lia.
  unfold uint128_shr. cbn [Uint128High64 Uint128Low64].
  destruct (Z.ltb_spec n 64) as [H64|H64]; [destruct (Z.eqb_spec n 0) as [->|H0]; cbn [negb]|].
  - eexists. split; [done|]. split; [done|]. by rewrite Z.shiftr_0_r.
  - rewrite shl64_ok, !shr64_ok by lia. ostep. eexists. split; [done|].
    assert (is_word (Z.shiftr l n)) by (apply shiftr_word; [lia|done]).
    assert (is_word (Z.shiftr h n)) by (apply shiftr_word; [lia|done]).
    split; [split; cbn; auto with polka|]. bitwise. bit_cases.
  - rewrite shr64_ok by lia. ostep. eexists. split; [done|].
    assert (is_word (Z.shiftr h (n - 64))) by (apply shiftr_word; [lia|done]).
    split; [split; cbn; auto with polka|]. bitwise. bit_cases.
Qed.

(** Shifts by a negative amount or by 128 and more are undefined. *)
Lemma uint128_shift_undefined x n : n < 0 \/ 128 <= n -> uint128_shl x n = UB /\ uint128_shr x n = UB.
Proof.
  intros Hn. unfold uint128_shl, uint128_shr.
  destruct (Z.ltb_spec n 64); [rewrite (proj2 (Z.eqb_neq n 0)) by lia; cbn [negb]|];
    unfold shl64, shr64; rewrite !(proj2 (andb_false_iff _ _)) by lia; done.
Qed.

(** ** Multiplication *)

Lemma uint128_of_unsigned_spec v : is_word v -> uint128_ok (uint128_of_unsigned v) /\ uval (uint128_of_unsigned v) = v.
Proof. intros Hv. split; [by split|done]. Qed.

Lemma u128_mod z : u128 z = z mod 2 ^ 128.
Proof. done. Qed.

Lemma u128_add_l a b : u128 (u128 a + b) = u128 (a + b).
Proof. unfold uwrap. by rewrite Z.add_mod_idemp_l. Qed.
Lemma u128_add_r a b : u128 (a + u128 b) = u128 (a + b).
Proof. unfold uwrap. by rewrite Z.add_mod_idemp_r. Qed.
Lemma u128_sum a b c : u128 (u128 (u128 a + u128 b) + u128 c) = u128 (a + b + c).
Proof. by rewrite u128_add_l, u128_add_r, <- Z.add_assoc, u128_add_l, Z.add_assoc, (Z.add_comm a), <- Z.add_assoc, u128_add_l, Z.add_assoc, (Z.add_comm b). Qed.

Lemma uint128_mul_spec x y : uint128_ok x -> uint128_ok y ->
  exists r, uint128_mul x y = Ret r /\ uint128_ok r /\ uval r = u128 (uval x * uval y).
Proof.
  destruct x as [h l], y as [h' l']. intros [Hh Hl] [Hh' Hl']. unfold uint128_mul. cbn [Uint128High64 Uint128Low64] in *.
  change 0xffffffff with (Z.ones 32). rewrite !Z.land_ones, !Z.shiftr_div_pow2 by lia.
  pose proof (Z.mod_pos_bound l (2 ^ 32) ltac:(lia)) as Hl0. pose proof (Z.mod_pos_bound l' (2 ^ 32) ltac:(lia)) as Hl0'.
  pose proof (Z.div_mod l (2 ^ 32) ltac:(lia)) as El. pose proof (Z.div_mod l' (2 ^ 32) ltac:(lia)) as El'.
  set (a0 := l mod 2 ^ 32) in *. set (b0 := l' mod 2 ^ 32) in *. set (a1 := l / 2 ^ 32) in *. set (b1 := l' / 2 ^ 32) in *.
  assert (0 <= a1 < 2 ^ 32 /\ 0 <= b1 < 2 ^ 32) as [Ha1 Hb1] by (unfold is_word in *; lia).
  assert (forall u v, 0 <= u < 2 ^ 32 -> 0 <= v < 2 ^ 32 -> is_word (u * v)) as Hw by (unfold is_word; intros; nia).
  rewrite (word_small (a1 * b1)), (word_small (a0 * b0)), (word_small (a1 * b0)), (word_small (a0 * b1)) by by apply Hw.
  destruct (uint128_shl_spec (uint128_of_unsigned (a1 * b0)) 32) as (p & -> & Hp & Ep); [by apply uint128_of_unsigned_spec, Hw|done|].
  destruct (uint128_shl_spec (uint128_of_unsigned (a0 * b1)) 32) as (q & -> & Hq & Eq); [by apply uint128_of_unsigned_spec, Hw|done|].
  change (uval (uint128_of_unsigned ?v)) with v in Ep, Eq. ostep. eexists. split; [done|].
  set (H3 := u64 _ + _). assert (uint128_ok (MakeUint128 (u64 H3) (a0 * b0))) as Hr by (split; cbn; auto with polka).
  destruct (uint128_add_spec _ _ Hr Hp) as [Hs Es]. destruct (uint128_add_spec _ _ Hs Hq) as [Ht Et].
  split; [done|]. rewrite Et, Es, Ep, Eq, uval_wrap, u128_sum by auto with polka.
  destruct (u64_mul_quot h l') as [k1 E1], (u64_mul_quot l h') as [k2 E2].
  destruct (uwrap_quot 64 (u64 (h * l') + u64 (l * h')) ltac:(lia)) as [k3 E3].
  apply (uwrap_shift 128 _ _ (k1 + k2 + k3 - h * h')). unfold H3, uval. cbn [Uint128High64 Uint128Low64].
  rewrite E3, E1, E2, El, El'. ring.
Qed.

(** ** The position of the highest bit *)

Lemma log2_shift n sh : 0 <= sh -> 2 ^ sh <= n -> Z.log2 n = sh + Z.log2 (Z.shiftr n sh).
Proof.
  intros Hs Hn. assert (0 < n) by (pose proof (Z.pow_pos_nonneg 2 sh); lia).
  rewrite Z.log2_shiftr by done. assert (sh <= Z.log2 n) by (by apply Z.log2_le_pow2). lia.
Qed.

(** A step halves the width and keeps the sum of the position and the logarithm. *)
Lemma STEP_spec n pos sh : 0 <= sh -> 0 < n < 2 ^ (2 * sh) -> Z.lor pos sh = pos + sh ->
  let '(n', pos') := STEP (n, pos) sh in
  0 < n' < 2 ^ sh /\ pos' + Z.log2 n' = pos + Z.log2 n /\ (pos' = pos \/ pos' = pos + sh).
Proof.
  intros Hs Hn Hp. unfold STEP. replace (2 * sh) with (sh + sh) in Hn by lia. rewrite Z.pow_add_r in Hn by done.
  pose proof (Z.pow_pos_nonneg 2 sh ltac:(lia) Hs).
  destruct (Z.leb_spec (2 ^ sh) n) as [H'|H']; [|auto with lia].
  rewrite Hp, (log2_shift n sh) by done. rewrite Z.shiftr_div_pow2 by done.
  assert (1 <= n / 2 ^ sh) by (apply Z.div_le_lower_bound; lia).
  assert (n / 2 ^ sh < 2 ^ sh) by (apply Z.div_lt_upper_bound; lia).
  split; [lia|]. split; [lia|auto].
Qed.

(** The table in the last line of [Fls64]. *)
Lemma fls_table n : 0 < n < 16 -> Z.land (Z.shiftr 0x3333333322221100 (Z.shiftl n 2)) 0x3 = Z.log2 n.
Proof.
  intros Hn. assert (forallb (fun n => Z.land (Z.shiftr 0x3333333322221100 (Z.shiftl n 2)) 0x3 =? Z.log2 n) (seqZ 1 15) = true)
    as H by (vm_compute; reflexivity).
  rewrite forallb_forall in H. apply Z.eqb_eq, H, list_elem_of_In, elem_of_seqZ. lia.
Qed.

Lemma Fls64_log2 n : 0 < n < 2 ^ 64 -> Fls64 n = Ret (Z.log2 n).
Proof.
  intros Hn. unfold Fls64. rewrite assume_true by lia. ostep.
  pose proof (STEP_spec n 0 0x20 ltac:(done) ltac:(done) ltac:(done)) as H1.
  destruct (STEP (n, 0) 0x20) as [n1 p1]. destruct H1 as (Hn1 & E1 & Hp1). rewrite (uwrap_small 32) by (split; [lia|apply Hn1]).
  pose proof (STEP_spec n1 p1 0x10 ltac:(done) ltac:(done) ltac:(by destruct Hp1 as [-> | ->])) as H2.
  destruct (STEP (n1, p1) 0x10) as [n2 p2]. destruct H2 as (Hn2 & E2 & Hp2).
  pose proof (STEP_spec n2 p2 0x08 ltac:(done) ltac:(done) ltac:(by destruct Hp1 as [-> | ->], Hp2 as [-> | ->])) as H3.
  destruct (STEP (n2, p2) 0x08) as [n3 p3]. destruct H3 as (Hn3 & E3 & Hp3).
  pose proof (STEP_spec n3 p3 0x04 ltac:(done) ltac:(done)
    ltac:(by destruct Hp1 as [-> | ->], Hp2 as [-> | ->], Hp3 as [-> | ->])) as H4.
  destruct (STEP (n3, p3) 0x04) as [n4 p4]. destruct H4 as (Hn4 & E4 & Hp4).
  rewrite fls_table by done. f_equal. lia.
Qed.

Lemma Fls128_log2 x : uint128_ok x -> 0 < uval x -> Fls128 x = Ret (Z.log2 (uval x)).
Proof.
  destruct x as [h l]. intros [Hh Hl] Hx. cbn in Hh, Hl. unfold Fls128, uval, is_word in *. cbn [Uint128High64 Uint128Low64] in *.
  destruct (Z.eqb_spec h 0) as [->|H0]; cbn [negb]; [by rewrite Fls64_log2 by lia|].
  rewrite Fls64_log2 by lia. ostep. f_equal. rewrite (log2_shift (h * 2 ^ 64 + l) 64), Z.shiftr_div_pow2 by lia.
  rewrite Z.div_add_l, (Z.div_small l) by lia. rewrite Z.add_0_r. lia.
Qed.

(** ** Division *)

(** What the loop keeps, with [k] rounds left: [n = q * 2^k * d + r], the
    denominator is [d * 2^(k - 1)], and the remainder is less than [d * 2^k]. *)
Lemma divmod_loop_spec k n d dividend denominator quotient :
  uint128_ok dividend -> uint128_ok denominator -> uint128_ok quotient ->
  0 < d -> n < 2 ^ 128 -> n = uval quotient * 2 ^ Z.of_nat k * d + uval dividend ->
  uval dividend < d * 2 ^ Z.of_nat k -> (forall k', k = S k' -> uval denominator = d * 2 ^ Z.of_nat k') ->
  exists q r, divmod_loop k dividend denominator quotient = Ret (q, r)
    /\ uint128_ok q /\ uint128_ok r /\ n = uval q * d + uval r /\ uval r < d.
Proof.
  intros Hr Hm Hq Hd Hn. revert dividend denominator quotient Hr Hm Hq.
  induction k as [|k IH]; intros dividend denominator quotient Hr Hm Hq En Hlt Hden; cbn [divmod_loop].
  { exists quotient, dividend. rewrite Z.mul_1_r in Hlt, En. auto. }
  specialize (Hden k eq_refl). pose proof (uval_range _ Hq) as Rq. pose proof (uval_range _ Hr) as Rr.
  rewrite Nat2Z.inj_succ, Z.pow_succ_r in En, Hlt by lia. pose proof (Z.pow_pos_nonneg 2 (Z.of_nat k) ltac:(lia) ltac:(lia)).
  assert (2 * uval quotient < 2 ^ 128) as Hsmall by nia.
  destruct (uint128_shl_spec quotient 1 Hq ltac:(lia)) as (q & -> & Hq' & Eq).
  rewrite (uwrap_small 128) in Eq by lia.
  destruct (uint128_shr_spec denominator 1 Hm ltac:(lia)) as (m & -> & Hm' & Em). ostep.
  assert (forall k', k = S k' -> uval m = d * 2 ^ Z.of_nat k') as Hden'.
  { intros k' ->. rewrite Em, Hden, Nat2Z.inj_succ, Z.pow_succ_r by lia. rewrite Z.mul_assoc, (Z.mul_comm d), <- Z.mul_assoc, Z.mul_comm. by apply Z.div_mul. }
  destruct (uint128_compare dividend denominator Hr Hm) as (_ & _ & _ & _ & _ & ->).
  destruct (Z.leb_spec (uval denominator) (uval dividend)) as [Hge|Hge].
  - destruct (uint128_sub_spec dividend denominator Hr Hm) as [Hs Es]. rewrite uwrap_small in Es by (pose proof (uval_range _ Hm); lia).
    destruct (uint128_of_signed_spec 1 ltac:(lia)) as [H1 E1]. destruct (proj1 (uint128_bits_spec q _ Hq' H1)) as [Ho Eo].
    rewrite E1, (uwrap_small 128 1) in Eo by lia. rewrite Eq, lor_disjoint in Eo by lia.
    apply IH; try done; rewrite ?Eo, ?Es; nia.
  - apply IH; try done; rewrite ?Eq; nia.
Qed.

Lemma DivModImpl_spec x y : uint128_ok x -> uint128_ok y -> 0 < uval y ->
  exists q r, DivModImpl x y = Ret (q, r) /\ uint128_ok q /\ uint128_ok r
    /\ uval q = uval x / uval y /\ uval r = uval x mod uval y.
Proof.
  intros Hx Hy Hp. unfold DivModImpl. pose proof (uval_range x Hx) as Rx. pose proof (uval_range y Hy) as Ry.
  destruct (uint128_of_signed_spec 0 ltac:(lia)) as [H0 E0]. destruct (uint128_of_signed_spec 1 ltac:(lia)) as [H1 E1].
  rewrite uwrap_small in E0, E1 by lia.
  destruct (uint128_compare y (uint128_of_signed 0) Hy H0) as (_ & -> & _). rewrite E0, assume_true by lia. ostep.
  destruct (uint128_compare y x Hy Hx) as (-> & _ & _ & -> & _).
  destruct (Z.ltb_spec (uval x) (uval y)) as [Hlt|Hge].
  { eexists _, _. split; [done|]. rewrite E0, Z.div_small, Z.mod_small by lia. auto. }
  destruct (Z.eqb_spec (uval y) (uval x)) as [E|Hne].
  { eexists _, _. split; [done|]. rewrite E1, E0, E, Z.div_same, Z.mod_same by lia. auto. }
  rewrite !Fls128_log2 by (done || lia). ostep. set (s := Z.log2 (uval x) - Z.log2 (uval y)).
  assert (0 <= s) as Hs by (pose proof (Z.log2_le_mono (uval y) (uval x)); lia).
  assert (Z.log2 (uval x) < 128) by (apply Z.log2_lt_pow2; lia). pose proof (Z.log2_nonneg (uval y)).
  destruct (Z.log2_spec (uval x) ltac:(lia)) as [Lx Ux]. destruct (Z.log2_spec (uval y) Hp) as [Ly Uy].
  assert (2 ^ (Z.log2 (uval x)) = 2 ^ Z.log2 (uval y) * 2 ^ s) as Ep by (rewrite <- Z.pow_add_r by lia; f_equal; lia).
  rewrite Z.pow_succ_r in Ux, Uy by lia. pose proof (Z.pow_pos_nonneg 2 s ltac:(lia) Hs).
  assert (2 ^ Z.log2 (uval x) <= 2 ^ 127) by (apply Z.pow_le_mono_r; lia).
  destruct (uint128_shl_spec y s Hy ltac:(lia)) as (m & -> & Hm & Em). rewrite uwrap_small in Em by nia. ostep.
  replace (Z.to_nat (s + 1)) with (S (Z.to_nat s)) by lia.
  destruct (divmod_loop_spec (S (Z.to_nat s)) (uval x) (uval y) x m (uint128_of_signed 0)) as (q & r & -> & Hq & Hr & Ex & Hlt);
    try done; try lia.
  - rewrite Nat2Z.inj_succ, Z2Nat.id, Z.pow_succ_r by lia. nia.
  - intros k [= <-]. by rewrite Z2Nat.id.
  - pose proof (uval_range r Hr). exists q, r. split; [done|]. split; [done|]. split; [done|].
    split; [apply (Z.div_unique _ _ _ (uval r))|apply (Z.mod_unique _ _ (uval q))]; lia.
Qed.

(** ** Printing *)

Section printing.
Context (b : Z) (Hb : 1 < b).

Lemma num_digits_spec fuel n : 0 <= n < b ^ Z.of_nat fuel ->
  canonical b (num_digits fuel b n) /\ of_digits b (num_digits fuel b n) = n.
Proof using Hb.
  revert n. induction fuel as [|fuel IH]; intros n Hn; cbn [num_digits].
  { cbn in Hn. split; [by split; [apply List.Forall_nil|]|cbn; lia]. }
  destruct (Z.eqb_spec n 0) as [->|H0]; [split; [by split; [apply List.Forall_nil|]|done]|].
  rewrite Nat2Z.inj_succ, Z.pow_succ_r in Hn by lia.
  destruct (IH (n / b)) as [[Hr Hl] Hv].
  { split; [apply Z.div_pos; lia|]. apply Z.div_lt_upper_bound; lia. }
  split; [|cbn [of_digits]; rewrite Hv; pose proof (Z.div_mod n b ltac:(lia)); lia].
  split; [apply List.Forall_cons; [apply Z.mod_pos_bound; lia|done]|].
  destruct (num_digits fuel b (n / b)) as [|d ds] eqn:E; [|done]. cbn.
  cbn in Hv. pose proof (Z.div_mod n b ltac:(lia)). lia.
Qed.

(** The low [k] digits and the others. *)
Lemma num_digits_split fuel fuel' k m l : 0 < m < b ^ Z.of_nat fuel' -> 0 <= l < b ^ Z.of_nat k ->
  m * b ^ Z.of_nat k + l < b ^ Z.of_nat fuel ->
  num_digits fuel b (m * b ^ Z.of_nat k + l) = to_digits b k l ++ num_digits fuel' b m.
Proof using Hb.
  intros Hm Hl Hf. destruct (num_digits_spec fuel (m * b ^ Z.of_nat k + l)) as [Hc Hv]; [nia|].
  destruct (num_digits_spec fuel' m) as [[Hr Hlast] Hv']; [lia|].
  apply (canonical_inj b Hb); [done| |].
  - split; [apply Forall_app; split; [by apply to_digits_range|done]|].
    rewrite last_app. destruct (num_digits fuel' b m) as [|d ds] eqn:E; [cbn in Hv'; lia|].
    destruct (last (d :: ds)) eqn:El; [done|by apply last_None in El].
  - by rewrite Hv, of_digits_app, length_to_digits, of_to_digits_small, Hv' by done; lia.
Qed.

(** Filling with zeros. *)
Lemma num_digits_fill fuel k n : 0 <= n < b ^ Z.of_nat k -> (k <= fuel)%nat ->
  (length (num_digits fuel b n) <= k)%nat
  /\ num_digits fuel b n ++ replicate (k - length (num_digits fuel b n)) 0 = to_digits b k n.
Proof using Hb.
  intros Hn Hk. assert (b ^ Z.of_nat k <= b ^ Z.of_nat fuel) by (apply Z.pow_le_mono_r; lia).
  destruct (num_digits_spec fuel n) as [[Hr Hl] Hv]; [lia|].
  assert (length (num_digits fuel b n) <= k)%nat as Hlen.
  { destruct (num_digits fuel b n) as [|d ds] eqn:E; [cbn; lia|].
    pose proof (canonical_lower b Hb (d :: ds) (conj Hr Hl) ltac:(done)) as H'. rewrite Hv in H'.
    assert (b ^ (Z.of_nat (length (d :: ds)) - 1) < b ^ Z.of_nat k) as Hp by lia.
    apply Z.pow_lt_mono_r_iff in Hp; lia. }
  split; [done|]. apply (of_digits_inj b Hb).
  - apply Forall_app. split; [done|]. apply Forall_replicate. lia.
  - by apply to_digits_range.
  - rewrite length_app, length_replicate, length_to_digits. lia.
  - rewrite of_digits_app, Hv, of_digits_zeros, of_to_digits_small by done. lia.
Qed.
End printing.

Lemma rev_replicate_id {A} n (x : A) : rev (replicate n x) = replicate n x.
Proof. induction n as [|n IH]; [done|]. cbn. by rewrite IH, <- replicate_cons_app. Qed.

Lemma radix_gt b : 1 < radix b.
Proof. by destruct b. Qed.

(** A chunk in its field. *)
Lemma put_uint64_fill f k n : 0 <= n < radix (fbase f) ^ Z.of_nat k -> (1 <= k <= 128)%nat ->
  put_uint64 (noshowbase f) 48 k n = uint_char (uppercase f) <$> rev (to_digits (radix (fbase f)) k n).
Proof.
  intros Hn Hk. unfold put_uint64, print_uint, base_prefix, print_digits. cbn [showbase noshowbase fbase uppercase andb app].
  destruct (num_digits_fill _ (radix_gt (fbase f)) 128 k n Hn ltac:(lia)) as [Hlen <-].
  rewrite rev_app_distr, fmap_app, rev_replicate_id, fmap_replicate. change (uint_char (uppercase f) 0) with 48.
  destruct (Z.eqb_spec n 0) as [->|H0].
  - change (num_digits 128 (radix (fbase f)) 0) with (@nil Z). cbn [length rev fmap list_fmap]. rewrite app_nil_r.
    change [48] with (replicate 1 48). rewrite <- replicate_add. f_equal. lia.
  - by rewrite length_fmap, length_rev.
Qed.

(** A number in chunks of [k] digits. *)
Lemma print_uint_chunks f k m l : 0 < m -> 0 <= l < radix (fbase f) ^ Z.of_nat k ->
  m * radix (fbase f) ^ Z.of_nat k + l < 2 ^ 128 ->
  print_uint f (m * radix (fbase f) ^ Z.of_nat k + l)
  = print_uint f m ++ (uint_char (uppercase f) <$> rev (to_digits (radix (fbase f)) k l)).
Proof.
  intros Hm Hl Hs. pose proof (radix_gt (fbase f)) as Hb. pose proof (Z.pow_pos_nonneg (radix (fbase f)) (Z.of_nat k) ltac:(lia) ltac:(lia)).
  assert (2 ^ 128 <= radix (fbase f) ^ Z.of_nat 128) as H128 by (destruct (fbase f); vm_compute; discriminate).
  unfold print_uint, base_prefix, print_digits. rewrite !(proj2 (Z.eqb_neq _ 0)) by nia.
  rewrite (num_digits_split _ Hb 128 128) by nia. by rewrite rev_app_distr, fmap_app, app_assoc.
Qed.

Lemma chunk_spec b : let '(d, k) := chunk b in uint128_ok d /\ uval d = radix b ^ Z.of_nat k
  /\ (1 <= k <= 128)%nat /\ radix b ^ Z.of_nat k < 2 ^ 64 /\ 2 ^ 128 <= (radix b ^ Z.of_nat k) * (radix b ^ Z.of_nat k * 2 ^ 64).
Proof. destruct b; (split; [by vm_compute|]; split; [done|]; split; [lia|]; by vm_compute). Qed.

Lemma low_word x : uint128_ok x -> uval x < 2 ^ 64 -> Uint128Low64 x = uval x.
Proof. unfold uint128_ok, is_word, uval. nia. Qed.

Lemma Uint128ToFormattedString_spec v f : uint128_ok v -> Uint128ToFormattedString v f = Ret (print_uint f (uval v)).
Proof.
  intros Hv. unfold Uint128ToFormattedString. pose proof (chunk_spec (fbase f)) as Hc.
  destruct (chunk (fbase f)) as [d k]. destruct Hc as (Hd & Ed & Hk & H64 & H128). set (B := radix (fbase f) ^ Z.of_nat k) in *.
  pose proof (uval_range v Hv). assert (0 < B) by (apply Z.pow_pos_nonneg; pose proof (radix_gt (fbase f)); lia).
  destruct (DivModImpl_spec v d Hv Hd ltac:(lia)) as (h1 & low & -> & Hh1 & Hlow & Eh1 & Elow). ostep.
  destruct (DivModImpl_spec h1 d Hh1 Hd ltac:(lia)) as (h & mid & -> & Hh & Hmid & Eh & Emid). ostep.
  rewrite Ed in *. pose proof (Z.mod_pos_bound (uval v) B ltac:(lia)). pose proof (Z.mod_pos_bound (uval h1) B ltac:(lia)).
  assert (uval h < 2 ^ 64) by (rewrite Eh, Eh1, Z.div_div by lia; apply Z.div_lt_upper_bound; lia).
  rewrite !low_word by (done || lia).
  assert (uval v = uval h1 * B + uval low) as Ev by (pose proof (Z.div_mod (uval v) B); lia).
  assert (uval h1 = uval h * B + uval mid) as Ev1 by (pose proof (Z.div_mod (uval h1) B); lia).
  pose proof (uval_range h Hh). pose proof (uval_range h1 Hh1). f_equal.
  rewrite !put_uint64_fill by lia. unfold put_uint64. cbn [Nat.sub replicate app].
  destruct (Z.eqb_spec (uval h) 0) as [E0|E0]; cbn [negb]; [destruct (Z.eqb_spec (uval mid) 0) as [E1|E1]; cbn [negb]|].
  - by rewrite Ev, Ev1, E0, E1.
  - rewrite Ev. unfold B. rewrite print_uint_chunks by lia. by rewrite Ev1, E0.
  - rewrite Ev. unfold B. rewrite print_uint_chunks by lia. rewrite Ev1. unfold B. rewrite print_uint_chunks by lia. by rewrite app_assoc.
Qed.

(** ** The type is the integers modulo 2^128 *)

(** Shifts are exact or undefined: by 0 to 127 bits they multiply by a power of two
    modulo 2^128 and divide by it; by any other amount they are undefined. *)
Lemma uint128_shifts x n : uint128_ok x ->
  if (0 <=? n) && (n <? 128) then
    exists l r, uint128_shl x n = Ret l /\ uint128_shr x n = Ret r /\ uint128_ok l /\ uint128_ok r
      /\ uval l = (uval x * 2 ^ n) mod 2 ^ 128 /\ uval r = uval x / 2 ^ n
  else uint128_shl x n = UB /\ uint128_shr x n = UB.
Proof.
  intros Hx. destruct ((0 <=? n) && (n <? 128)) eqn:E; [|apply uint128_shift_undefined; lia].
  destruct (uint128_shl_spec x n Hx ltac:(lia)) as (l & El & Hl & Vl).
  destruct (uint128_shr_spec x n Hx ltac:(lia)) as (r & Er & Hr & Vr). exists l, r. auto 10.
Qed.

(** The shift-subtract division terminates and is division: for every divisor but
    0, quotient and remainder are those of the integers; by 0 it is undefined. *)
Lemma uint128_division x y : uint128_ok x -> uint128_ok y ->
  if uval y =? 0 then uint128_div x y = UB /\ uint128_rem x y = UB
  else exists q r, uint128_div x y = Ret q /\ uint128_rem x y = Ret r /\ uint128_ok q /\ uint128_ok r
    /\ uval q = uval x / uval y /\ uval r = uval x mod uval y.
Proof.
  intros Hx Hy. pose proof (uval_range y Hy). destruct (Z.eqb_spec (uval y) 0) as [E|E].
  - assert (y = uint128_of_signed 0) as -> by (apply uval_inj; [done|by vm_compute|done]). done.
  - destruct (DivModImpl_spec x y Hx Hy ltac:(lia)) as (q & r & Ed & Hq & Hr & Eq & Er).
    unfold uint128_div, uint128_rem. rewrite Ed. ostep. exists q, r. auto 10.
Qed.

(** The pair of words [r] stands for [v] modulo 2^128. *)
Definition stands (r : uint128) (v : Z) : Prop := uint128_ok r /\ uval r = v mod 2 ^ 128.

Lemma stands_small r v : uint128_ok r -> uval r = v -> stands r v.
Proof. intros Hr <-. split; [done|]. by rewrite Z.mod_small by (by apply uval_range). Qed.

(** The constructors, the operators of one operand and those that step by one. *)
Lemma uint128_unary x : uint128_ok x ->
  (forall h l, is_word h -> is_word l -> stands (MakeUint128 h l) (h * 2 ^ 64 + l))
  /\ (forall v, - 2 ^ 63 <= v < 2 ^ 63 -> stands (uint128_of_signed v) v)
  /\ (forall v, is_word v -> stands (uint128_of_unsigned v) v)
  /\ stands (uint128_neg x) (- uval x) /\ stands (uint128_not x) (Z.lnot (uval x))
  /\ stands (uint128_inc x) (uval x + 1) /\ stands (uint128_dec x) (uval x - 1).
Proof.
  intros Hx. assert (uint128_ok (uint128_of_signed 1)) as H1 by (by apply uint128_of_signed_spec).
  split; [intros h l Hh Hl; by apply stands_small|].
  split; [intros v Hv; by apply uint128_of_signed_spec|].
  split; [intros v Hv; apply stands_small; by apply uint128_of_unsigned_spec|].
  split; [by apply uint128_neg_spec|]. split; [by apply uint128_not_spec|].
  split; [exact (uint128_add_spec x _ Hx H1)|exact (uint128_sub_spec x _ Hx H1)].
Qed.

(** C25: a [uint128] behaves as an integer modulo 2^128. For all operands the
    constructors, addition, subtraction, multiplication, [++] and [--], negation and
    the bitwise operators give pairs of 64-bit words that stand for the result on
    integers modulo 2^128; division and remainder are those of the integers, and
    undefined by 0; shifts by 0 to 127 bits multiply by a power of two and divide by
    it, and any other amount is undefined; the six comparisons compare the integers;
    the conversions to [bool] and to the integer types of up to 64 bits are those of
    the integer; and two operands with the same value are the same pair. *)
Theorem uint128_refines_integers x y : uint128_ok x -> uint128_ok y ->
  (forall h l, is_word h -> is_word l -> stands (MakeUint128 h l) (h * 2 ^ 64 + l))
  /\ (forall v, - 2 ^ 63 <= v < 2 ^ 63 -> stands (uint128_of_signed v) v)
  /\ (forall v, is_word v -> stands (uint128_of_unsigned v) v)
  /\ stands (uint128_add x y) (uval x + uval y) /\ stands (uint128_sub x y) (uval x - uval y)
  /\ (exists r, uint128_mul x y = Ret r /\ stands r (uval x * uval y))
  /\ (if uval y =? 0 then uint128_div x y = UB /\ uint128_rem x y = UB
      else exists q r, uint128_div x y = Ret q /\ uint128_rem x y = Ret r /\ stands q (uval x / uval y) /\ stands r (uval x mod uval y))
  /\ stands (uint128_inc x) (uval x + 1) /\ stands (uint128_dec x) (uval x - 1) /\ stands (uint128_neg x) (- uval x)
  /\ stands (uint128_not x) (Z.lnot (uval x)) /\ stands (uint128_or x y) (Z.lor (uval x) (uval y))
  /\ stands (uint128_and x y) (Z.land (uval x) (uval y)) /\ stands (uint128_xor x y) (Z.lxor (uval x) (uval y))
  /\ (forall n, if (0 <=? n) && (n <? 128)
       then exists l r, uint128_shl x n = Ret l /\ uint128_shr x n = Ret r /\ stands l (uval x * 2 ^ n) /\ stands r (uval x / 2 ^ n)
       else uint128_shl x n = UB /\ uint128_shr x n = UB)
  /\ (uint128_eq x y = (uval x =? uval y) /\ uint128_ne x y = negb (uval x =? uval y)
      /\ uint128_lt x y = (uval x <? uval y) /\ uint128_gt x y = (uval y <? uval x)
      /\ uint128_le x y = (uval x <=? uval y) /\ uint128_ge x y = (uval y <=? uval x))
  /\ (uint128_to_bool x = negb (uval x =? 0) /\ uint128_is_zero x = (uval x =? 0))
  /\ (forall w, 0 < w <= 64 -> uint128_to_unsigned w x = uwrap w (uval x) /\ uint128_to_signed w x = swrap w (uval x))
  /\ (uval x = uval y -> x = y).
Proof.
  intros Hx Hy. destruct (uint128_bits_spec x y Hx Hy) as ([Hok Ho] & [Hak Ha] & [Hxk Hxo]).
  destruct (uint128_unary x Hx) as (Hm & Hs & Hu & Hn & Hno & Hi & Hd).
  destruct (uint128_convert x 64 Hx ltac:(lia)) as (Hb & _).
  assert (if uval y =? 0 then uint128_div x y = UB /\ uint128_rem x y = UB
          else exists q r, uint128_div x y = Ret q /\ uint128_rem x y = Ret r
            /\ stands q (uval x / uval y) /\ stands r (uval x mod uval y)) as Hdiv.
  { pose proof (uint128_division x y Hx Hy) as H. destruct (uval y =? 0); [done|].
    destruct H as (q & r & ? & ? & ? & ? & ? & ?). exists q, r. split_and!; auto using stands_small. }
  assert (forall n, if (0 <=? n) && (n <? 128)
       then exists l r, uint128_shl x n = Ret l /\ uint128_shr x n = Ret r /\ stands l (uval x * 2 ^ n) /\ stands r (uval x / 2 ^ n)
       else uint128_shl x n = UB /\ uint128_shr x n = UB) as Hsh.
  { intros n. pose proof (uint128_shifts x n Hx) as H. destruct (_ && _); [|done].
    destruct H as (l & r & ? & ? & ? & ? & ? & ?). exists l, r. split_and!; first [done|by apply stands_small]. }
  assert (uint128_is_zero x = (uval x =? 0)) as Hz by (unfold uint128_is_zero; unfold uval; words; lia).
  repeat (split; [first [done|by apply stands_small|by apply uint128_add_spec|by apply uint128_sub_spec
                        |by apply uint128_mul_spec|by apply uint128_compare]|]).
  split; [intros w Hw; by apply uint128_convert|by apply uval_inj].
Qed.

(** Printing in chunks of 64 bits gives the number: in every base the text is that
    of the whole number, with one prefix and no zeros lost or added, and it is
    padded to the width of the stream. *)
Theorem uint128_printed x f width fill : uint128_ok x ->
  exists s, uint128_put f width fill x = Ret s
    /\ length s = Nat.max width (length (print_uint f (uval x)))
    /\ ((width <= length (print_uint f (uval x)))%nat -> s = print_uint f (uval x))
    /\ (adjust f = adjust_right -> s = replicate (width - length (print_uint f (uval x))) fill ++ print_uint f (uval x)).
Proof.
  intros Hx. unfold uint128_put. rewrite Uint128ToFormattedString_spec by done. ostep.
  set (t := print_uint f (uval x)). eexists. split; [done|].
  destruct (Nat.ltb_spec (length t) width) as [Hw|Hw].
  - split; [|split; [lia|intros ->; done]].
    destruct (adjust f); [|destruct (_ && _ && _)|]; rewrite ?length_app, ?length_replicate, ?length_take, ?length_drop; lia.
  - split; [lia|]. split; [done|]. intros _. by rewrite (proj2 (Nat.sub_0_le _ _)).
Qed.

Definition sample128 : uint128 := MakeUint128 5 UINT64_MAX.

Lemma sample128_ok : uint128_ok sample128.
Proof. split; split; vm_compute; congruence. Qed.

Lemma uint128_refines_integers_witness :
  uval (uint128_add sample128 sample128) = (5 * 2 ^ 64 + UINT64_MAX + 5 * 2 ^ 64 + UINT64_MAX) mod 2 ^ 128
  /\ uint128_ge sample128 sample128 = true.
Proof.
  destruct (uint128_refines_integers sample128 sample128 sample128_ok sample128_ok)
    as (_ & _ & _ & [_ Ha] & _ & _ & _ & _ & _ & _ & _ & _ & _ & _ & _ & (_ & _ & _ & _ & _ & Hg) & _).
  split; [exact Ha|exact Hg].
Defined.

Definition plain_flags : fmtflags := {| fbase := Dec; showbase := false; uppercase := false; adjust := adjust_right |}.

Example print_max : uint128_put plain_flags 0 32 Uint128Max = Ret (str "340282366920938463463374607431768211455").
Proof. vm_compute. reflexivity. Qed.

Lemma uint128_printed_witness : exists s, uint128_put plain_flags 50 42 sample128 = Ret s
  /\ length s = Nat.max 50 (length (print_uint plain_flags (uval sample128)))
  /\ ((50 <= length (print_uint plain_flags (uval sample128)))%nat -> s = print_uint plain_flags (uval sample128))
  /\ (adjust plain_flags = adjust_right ->
      s = replicate (50 - length (print_uint plain_flags (uval sample128))) 42 ++ print_uint plain_flags (uval sample128)).
Proof. exact (uint128_printed sample128 plain_flags 50 42 sample128_ok). Defined.
