(* ===== verification/Words.v ===== *)
(** The code that computes with [uint128], on the type as it is: [encodeCompactInteger]
    of [src/scale.cpp], [atoi128] and [fromHex<uint128>] of [src/utils/converters.cpp],
    over any implementation of the operators that they use.

    [Uint128Ops] lists these operators and [Uint128Laws] what they promise. The pairs
    of words of [Int128] keep the promises; so the models on integers, [Scale] and
    [Converters], which all other files use, are what the code computes. *)
From S2P Require Import Prelude Scale Converters Int128.

(** ** The interface *)

(** [u_of_int] converts an [int] or a byte, [u_to_u8] is the cast to [uint8_t]. *)
Class Uint128Ops (A : Type) := {
  u_of_int : Z -> A;
  u_to_bool : A -> bool;
  u_to_u8 : A -> Z;
  u_le : A -> A -> bool;
  u_and : A -> A -> A;
  u_or : A -> A -> A;
  u_shl : A -> Z -> outcome A;
  u_shr : A -> Z -> outcome A;
  u_mul : A -> A -> outcome A;
}.

(** A result stands for a number when it is one of its representations. *)
Definition stands {A B} (R : A -> B -> Prop) (o : outcome A) (o' : outcome B) : Prop :=
  match o, o' with
  | Ret a, Ret b => R a b
  | Throw e, Throw e' => e = e'
  | UB, UB => True
  | _, _ => False
  end.

(** [represents x n]: [x] is the representation of the number [n]. *)
Class Uint128Laws (A : Type) `{Uint128Ops A} := {
  represents : A -> Z -> Prop;
  represents_range x n : represents x n -> 0 <= n < 2 ^ 128;
  of_int_ok z : - 2 ^ 31 <= z < 2 ^ 31 -> represents (u_of_int z) (u128 z);
  to_bool_ok x n : represents x n -> u_to_bool x = negb (n =? 0);
  to_u8_ok x n : represents x n -> u_to_u8 x = u8 n;
  le_ok x n y m : represents x n -> represents y m -> u_le x y = (n <=? m);
  and_ok x n y m : represents x n -> represents y m -> represents (u_and x y) (Z.land n m);
  or_ok x n y m : represents x n -> represents y m -> represents (u_or x y) (Z.lor n m);
  shl_ok128 x n k : represents x n -> 0 <= k ->
    stands represents (u_shl x k) (if 128 <=? k then UB else Ret (u128 (n * 2 ^ k)));
  shr_ok128 x n k : represents x n -> 0 <= k < 128 -> stands represents (u_shr x k) (Ret (n / 2 ^ k));
  mul_ok x n y m : represents x n -> represents y m -> stands represents (u_mul x y) (Ret (u128 (n * m)));
}.

(** ** The code *)

Section code.
Context {A : Type} `{U : Uint128Ops A}.

Fixpoint encode_four_w (n : nat) (i : nat) (v : A) (bytes : list Z) : outcome (list Z) :=
  match n with
  | O => Ret bytes
  | S n' =>
      bytes' ← store bytes i (u_to_u8 (u_and v (u_of_int 0xFF)));
      v' ← u_shr v 8;
      encode_four_w n' (S i) v' bytes'
  end.

Fixpoint encode_big_w (fuel : nat) (byteNum : nat) (v : A) (bytes : list Z) : outcome (nat * list Z) :=
  if u_to_bool v then
    match fuel with
    | O => UB
    | S fuel' =>
        bytes' ← store bytes byteNum (u_to_u8 (u_and v (u_of_int 0xFF)));
        v' ← u_shr v 8;
        encode_big_w fuel' (S byteNum) v' bytes'
    end
  else Ret (byteNum, bytes).

(** [(n & 0x3F) << 2 | mode] *)
Definition low_byte_w (n : A) (mode : Z) : outcome Z :=
  s ← u_shl (u_and n (u_of_int 0x3F)) 2;
  Ret (u_to_u8 (u_or s (u_of_int mode))).

Definition encodeCompactInteger_w (n : A) : outcome CompactIntegerLEBytes :=
  let zero := replicate 8 0 in
  if u_le n (u_of_int 63) then
    s ← u_shl n 2;
    bytes ← store zero 0 (u_to_u8 s);
    Ret {| ci_length := 1; ci_bytes := bytes |}
  else if u_le n (u_of_int 0x3FFF) then
    b ← low_byte_w n 1;
    b0 ← store zero 0 b;
    s ← u_shr (u_and n (u_of_int 0xFC0)) 6;
    bytes ← store b0 1 (u_to_u8 s);
    Ret {| ci_length := 2; ci_bytes := bytes |}
  else if u_le n (u_of_int 0x3FFFFFFF) then
    b ← low_byte_w n 2;
    b0 ← store zero 0 b;
    n' ← u_shr n 6;
    bytes ← encode_four_w 3 1 n' b0;
    Ret {| ci_length := 4; ci_bytes := bytes |}
  else
    '(byteNum, bytes) ← encode_big_w 16 1 n zero;
    bytes' ← store bytes 0 (u8 (Z.lor (Z.shiftl (Z.of_nat byteNum - 5) 2) 3));
    Ret {| ci_length := Z.of_nat byteNum; ci_bytes := bytes' |}.

Fixpoint atoi_loop_w (fuel : nat) (scratch : list Z) (result mask : A) : outcome A :=
  match scratch with
  | [] => Ret result
  | _ =>
      match fuel with
      | O => UB
      | S fuel' =>
          let result' := if Z.testbit (default 0 (last scratch)) 0 then u_or result mask else result in
          mask' ← u_shl mask 1;
          atoi_loop_w fuel' (atoi_correct (atoi_scan (atoi_halve false scratch))) result' mask'
      end
  end.

Definition atoi128_w (s : list Z) : outcome A :=
  let s1 := atoi_skip s in
  let '(sign, s2) := match s1 with
    | c :: s' => if c =? 45 then (-1, s') else (1, s1)
    | [] => (1, s1)
    end in
  let digits := atoi_digits s2 in
  assume (length digits <=? 255)%nat;;
  result ← atoi_loop_w (4 * length digits + 1) digits (u_of_int 0) (u_of_int 1);
  u_mul result (u_of_int sign).

Fixpoint fromHex_loop_w (bigEndianBytes : bool) (rest : list Z) (byteOffset : Z) (result : A) : outcome A :=
  let round byte rest' :=
    if bigEndianBytes then
      r ← u_shl result 8;
      rest' (u_or r (u_of_int byte)) byteOffset
    else
      w ← u_shl (u_of_int byte) byteOffset;
      rest' (u_or w result) (byteOffset + 8) in
  match rest with
  | [] => Ret result
  | [d1] => round (fromHexByte d1 0) (fun r _ => Ret r)
  | d1 :: d2 :: rest' =>
      round (fromHexByte d1 d2) (fun r o => fromHex_loop_w bigEndianBytes rest' o r)
  end.

Definition fromHex_w (hexStr : list Z) (bigEndianBytes : bool) : outcome A :=
  fromHex_loop_w bigEndianBytes (if has_0x hexStr then drop 2 hexStr else hexStr) 0 (u_of_int 0).
End code.

(** ** The code computes on the numbers *)

Lemma stands_bind {A B A' B'} (R : A -> B -> Prop) (S : A' -> B' -> Prop) o o' f f' :
  stands R o o' -> (forall a b, R a b -> stands S (f a) (f' b)) -> stands S (o ≫= f) (o' ≫= f').
Proof. intros Ho Hf. destruct o, o'; cbn in Ho; try done. by apply Hf. Qed.

(** A computation with the same numbers as before, whose results are equal. *)
Lemma stands_bind_same {A B C} (R : A -> B -> Prop) (o : outcome A) b (f : A -> outcome C) (r : outcome C) :
  stands R o (Ret b) -> (forall a, R a b -> f a = r) -> o ≫= f = r.
Proof. intros Ho Hf. destruct o; try done. ostep. by apply Hf. Qed.

Section refinement.
Context {A : Type} `{O : Uint128Ops A} `{L : !Uint128Laws A}.

Lemma represents_int z : 0 <= z < 2 ^ 31 -> represents (u_of_int z) z.
Proof. intros Hz. rewrite <- (uwrap_small 128 z) at 2 by lia. apply of_int_ok. lia. Qed.

Lemma shr_small x n k : represents x n -> 0 <= k < 128 -> stands represents (u_shr x k) (Ret (Z.shiftr n k)).
Proof. intros. rewrite Z.shiftr_div_pow2 by lia. by apply shr_ok128. Qed.

Lemma shl_small x n k : represents x n -> 0 <= k < 128 -> stands represents (u_shl x k) (Ret (u128 (n * 2 ^ k))).
Proof.
  intros Hx Hk. pose proof (shl_ok128 x n k Hx ltac:(lia)) as H. by rewrite (proj2 (Z.leb_gt 128 k)) in H by lia.
Qed.

Lemma encode_four_refines n i v x bytes : represents x v -> encode_four_w n i x bytes = encode_four n i v bytes.
Proof.
  revert i v x bytes. induction n as [|n IH]; intros i v x bytes Hx; [done|]. cbn [encode_four_w encode_four].
  rewrite (to_u8_ok _ (Z.land v 255)) by (apply and_ok; [done|by apply represents_int]). apply bind_ext_outcome. intros bytes'.
  apply (stands_bind_same represents _ (Z.shiftr v 8)); [by apply shr_small|]. intros v' Hv. by apply IH.
Qed.

Lemma encode_big_refines fuel k v x bytes : represents x v -> encode_big_w fuel k x bytes = encode_big fuel k v bytes.
Proof.
  revert k v x bytes. induction fuel as [|fuel IH]; intros k v x bytes Hx; cbn [encode_big_w encode_big];
    rewrite (to_bool_ok x v) by done; destruct (v =? 0); cbn [negb]; try done.
  rewrite (to_u8_ok _ (Z.land v 255)) by (apply and_ok; [done|by apply represents_int]). apply bind_ext_outcome. intros bytes'.
  apply (stands_bind_same represents _ (Z.shiftr v 8)); [by apply shr_small|]. intros v' Hv. by apply IH.
Qed.

Lemma low_byte_refines n v mode : represents n v -> 0 <= mode < 2 ^ 31 ->
  low_byte_w n mode = Ret (u8 (Z.lor (u128 (Z.shiftl (Z.land v 0x3F) 2)) mode)).
Proof.
  intros Hn Hm. unfold low_byte_w. rewrite Z.shiftl_mul_pow2 by lia. eapply (stands_bind_same represents).
  - apply shl_small; [|lia]. apply and_ok; [done|by apply represents_int].
  - intros s Hs. f_equal. apply to_u8_ok, or_ok; [done|by apply represents_int].
Qed.

Lemma encodeCompactInteger_refines n v : represents n v -> encodeCompactInteger_w n = encodeCompactInteger v.
Proof.
  intros Hn. unfold encodeCompactInteger_w, encodeCompactInteger.
  assert (forall z, 0 <= z < 2 ^ 31 -> u_le n (u_of_int z) = (v <=? z)) as Hle by (intros z Hz; by apply le_ok, represents_int).
  rewrite !Hle by done. case_match; [|case_match; [|case_match]].
  - rewrite Z.shiftl_mul_pow2 by lia. eapply (stands_bind_same represents); [by apply shl_small|]. intros s Hs. by rewrite (to_u8_ok s _ Hs).
  - rewrite (low_byte_refines n v) by done. ostep. apply bind_ext_outcome. intros b0.
    eapply (stands_bind_same represents); [apply shr_small; [apply and_ok; [done|by apply represents_int]|done]|].
    intros s Hs. by rewrite (to_u8_ok s _ Hs).
  - rewrite (low_byte_refines n v) by done. ostep. apply bind_ext_outcome. intros b0.
    eapply (stands_bind_same represents); [by apply shr_small|]. intros s Hs. by rewrite (encode_four_refines _ _ _ s _ Hs).
  - by rewrite (encode_big_refines _ _ v).
Qed.

Lemma atoi_loop_refines fuel scratch r m result mask : represents result r -> represents mask m ->
  stands represents (atoi_loop_w fuel scratch result mask) (atoi_loop fuel scratch r m).
Proof.
  revert scratch r m result mask. induction fuel as [|fuel IH]; intros [|d ds] r m result mask Hr Hm; try done.
  cbn [atoi_loop_w atoi_loop]. pose proof (shl_small mask m 1 Hm ltac:(lia)) as Hs. rewrite Z.pow_1_r in Hs.
  destruct (u_shl mask 1) as [mask'| |]; try done. ostep. apply IH; [|done]. destruct (Z.testbit _ 0); [by apply or_ok|done].
Qed.

Lemma u128_mul_r a b : u128 (a * u128 b) = u128 (a * b).
Proof. unfold uwrap. by rewrite Z.mul_mod_idemp_r. Qed.

Lemma atoi128_refines s : stands represents (atoi128_w s) (atoi128 s).
Proof.
  unfold atoi128_w, atoi128.
  assert (forall sign ds, -1 <= sign <= 1 -> stands represents
    (assume (length ds <=? 255)%nat;; result ← atoi_loop_w (4 * length ds + 1) ds (u_of_int 0) (u_of_int 1); u_mul result (u_of_int sign))
    (assume (length ds <=? 255)%nat;; result ← atoi_loop (4 * length ds + 1) ds 0 1; Ret (u128 (result * sign)))) as H.
  { intros sign ds Hsign. destruct (_ <=? _)%nat; [|done]. unfold assume. ostep. eapply stands_bind; [apply atoi_loop_refines; by apply represents_int|].
    intros a b Hab. rewrite <- u128_mul_r. apply mul_ok; [done|]. apply of_int_ok. lia. }
  destruct (atoi_skip s) as [|c s']; [by apply H|]. destruct (c =? 45); by apply H.
Qed.

Lemma fromHexByte_range a b : 0 <= fromHexByte a b < 2 ^ 31.
Proof. unfold fromHexByte, uwrap. pose proof (Z.mod_pos_bound (Z.lor (Z.shiftl (fromHexDigit a) 4) (fromHexDigit b)) (2 ^ 8) ltac:(lia)). lia. Qed.

Lemma fromHex_loop_refines be rest o r result : 0 <= o -> represents result r ->
  stands represents (fromHex_loop_w be rest o result) (fromHex_loop UInt128 be rest o r).
Proof.
  revert o r result. induction rest as [rest IH] using (induction_ltof1 _ (@length Z)). intros o r result Ho Hr.
  assert (forall byte (f : A -> Z -> outcome A) (f' : Z -> Z -> outcome Z), 0 <= byte < 2 ^ 31 ->
    (forall x n o, 0 <= o -> represents x n -> stands represents (f x o) (f' n o)) ->
    stands represents
      (if be then r ← u_shl result 8; f (u_or r (u_of_int byte)) o else w ← u_shl (u_of_int byte) o; f (u_or w result) (o + 8))
      (if be then r ← Converters.shl UInt128 r 8; f' (Z.lor r byte) o else w ← Converters.shl UInt128 byte o; f' (Z.lor w r) (o + 8))) as Hround.
  { intros byte f f' Hb Hf. pose proof (represents_int byte Hb) as Hbyte. destruct be; eapply stands_bind.
    - apply (shl_ok128 result r 8 Hr). lia.
    - intros a b Hab. apply Hf; [done|by apply or_ok].
    - by apply (shl_ok128 (u_of_int byte) byte o Hbyte).
    - intros a b Hab. apply Hf; [lia|by apply or_ok]. }
  destruct rest as [|d1 [|d2 rest]]; cbn [fromHex_loop_w fromHex_loop]; [done| |].
  { apply (Hround _ (fun r _ => Ret r) (fun r _ => Ret r)); [apply fromHexByte_range|done]. }
  apply (Hround _ (fun r o => fromHex_loop_w be rest o r) (fun r o => fromHex_loop UInt128 be rest o r)); [apply fromHexByte_range|].
  intros x n o' Ho' Hx. apply IH; [unfold ltof; cbn; lia|done..].
Qed.

Lemma fromHex_refines hexStr be : stands represents (fromHex_w hexStr be) (fromHex UInt128 hexStr be).
Proof. apply fromHex_loop_refines; [done|by apply represents_int]. Qed.
End refinement.

(** ** The words keep the promises *)

#[export] Instance word_ops : Uint128Ops uint128 := {|
  u_of_int := uint128_of_signed;
  u_to_bool := uint128_to_bool;
  u_to_u8 := uint128_to_unsigned 8;
  u_le := uint128_le;
  u_and := uint128_and;
  u_or := uint128_or;
  u_shl := uint128_shl;
  u_shr := uint128_shr;
  u_mul := uint128_mul;
|}.

(** A pair of words represents the number that it stands for. *)
Definition word_represents (x : uint128) (n : Z) : Prop := uint128_ok x /\ uval x = n.

#[export] Instance word_laws : Uint128Laws uint128.
Proof.
  refine {| represents := word_represents |}; cbn [word_ops u_of_int u_to_bool u_to_u8 u_le u_and u_or u_shl u_shr u_mul].
  - intros x n [Hx <-]. by apply uval_range.
  - intros z Hz. apply uint128_of_signed_spec. lia.
  - intros x n [Hx <-]. by apply (uint128_convert x 8).
  - intros x n [Hx <-]. by apply (uint128_convert x 8).
  - intros x n y m [Hx <-] [Hy <-]. by apply uint128_compare.
  - intros x n y m [Hx <-] [Hy <-]. by apply uint128_bits_spec.
  - intros x n y m [Hx <-] [Hy <-]. by apply uint128_bits_spec.
  - intros x n k [Hx <-] Hk. destruct (Z.leb_spec 128 k).
    + by rewrite (proj1 (uint128_shift_undefined x k ltac:(by right))).
    + by destruct (uint128_shl_spec x k Hx ltac:(lia)) as (r & -> & Hr & Er).
  - intros x n k [Hx <-] Hk. by destruct (uint128_shr_spec x k Hx Hk) as (r & -> & Hr & Er).
  - intros x n y m [Hx <-] [Hy <-]. by destruct (uint128_mul_spec x y Hx Hy) as (r & -> & Hr & Er).
Defined.

(** C26: the code that computes with [uint128] gives on pairs of words what it gives on
    integers: [encodeCompactInteger] fills the same bytes, [atoi128] and [fromHex]
    return a pair of words for the same number, for every text, and each of them
    throws, or is undefined, exactly when the computation on integers is. *)
Theorem words_refine_integers n s bigEndianBytes : uint128_ok n ->
  encodeCompactInteger_w n = encodeCompactInteger (uval n)
  /\ stands word_represents (atoi128_w s) (atoi128 s)
  /\ stands word_represents (fromHex_w s bigEndianBytes) (fromHex UInt128 s bigEndianBytes).
Proof.
  intros Hn. split; [by apply (encodeCompactInteger_refines (A := uint128))|].
  split; [exact (atoi128_refines (L := word_laws) s)|exact (fromHex_refines (L := word_laws) s bigEndianBytes)].
Qed.

Lemma words_refine_integers_witness :
  encodeCompactInteger_w (MakeUint128 0 100000) = Ret {| ci_length := 4; ci_bytes := [0x82; 0x1a; 0x06; 0; 0; 0; 0; 0] |}
  /\ stands word_represents (atoi128_w (str "-340282366920938463463374607431768211455")) (Ret 1).
Proof.
  destruct (words_refine_integers (MakeUint128 0 100000) (str "-340282366920938463463374607431768211455") true) as (E & Ea & _); [by vm_compute|].
  split; [rewrite E; vm_compute; reflexivity|exact Ea].
Defined.
