(* ===== verification/Float128.v ===== *)
(** Conversions between [uint128] and floating-point numbers:
    [src/libs/int128/int128.cpp] and [src/libs/int128/int128.h].

    A finite floating-point number is a multiple of the least positive one, 2^-scale;
    it is modelled by the factor. The formats are a parameter: how an inexact result
    is rounded is left open. The variant for one compiler's [long double] is left
    out. *)
From S2P Require Import Prelude Int128.

(** ** Floating-point formats *)

(** [k] stands for [k] times 2^-scale: it has at most [precision] significant bits. *)
Definition significant (precision k : Z) : Prop := exists m e, k = m * 2 ^ e /\ 0 <= e /\ Z.abs m < 2 ^ precision.

(** What the code uses of a format: an exact result that the format has is not rounded.
    [round] is given the exact result of an operation and [ldexp] scales by a power
    of two. *)
Class FloatFormat := {
  precision : Z;
  scale : Z;
  round : Z -> Z;
  ldexp : Z -> Z -> Z;
  precision_scale : 0 < precision <= scale;
  round_exact k : significant precision k -> round k = k;
  ldexp_exact k n r : significant precision r -> k * 2 ^ Z.max 0 n = r * 2 ^ Z.max 0 (- n) -> ldexp k n = r;
}.

Section conversions.
Context `{F : FloatFormat}.

(** ** The code *)

(** [static_cast<T>(n)] *)
Definition float_of_uint64 (n : Z) : Z := round (n * 2 ^ scale).

(** [static_cast<uint64_t>(v)]: the fraction is dropped; undefined out of range. *)
Definition uint64_of_float (v : Z) : outcome Z :=
  let n := Z.quot v (2 ^ scale) in
  if (0 <=? n) && (n <? 2 ^ 64) then Ret n else UB.

Definition MakeUint128FromFloat (v : Z) : outcome uint128 :=
  assume ((- 2 ^ scale <? v) && (v <? 2 ^ 128 * 2 ^ scale));;
  if ldexp (float_of_uint64 1) 64 <=? v then
    hi ← uint64_of_float (ldexp v (-64));
    lo ← uint64_of_float (round (v - ldexp (float_of_uint64 hi) 64));
    Ret (MakeUint128 hi lo)
  else
    lo ← uint64_of_float v;
    Ret (MakeUint128 0 lo).

(** [operator float] and the others. *)
Definition uint128_to_float (x : uint128) : Z :=
  round (float_of_uint64 (Uint128Low64 x) + ldexp (float_of_uint64 (Uint128High64 x)) 64).

(** ** Exact results *)

Lemma significant_small k : Z.abs k < 2 ^ precision -> significant precision k.
Proof. intros H. exists k, 0. split; [ring|done]. Qed.

Lemma significant_shift k n : 0 <= n -> significant precision k -> significant precision (k * 2 ^ n).
Proof.
  intros Hn (m & e & -> & He & Hm). exists m, (e + n). rewrite Z.pow_add_r by lia. split; [ring|]. split; [lia|done].
Qed.

(** The integer part of a number, and its part below a power of two. *)
Lemma significant_parts k n : 0 <= k -> 0 <= n -> significant precision k ->
  significant precision (k / 2 ^ n) /\ significant precision (k mod 2 ^ n).
Proof.
  intros Hk Hn (m & e & -> & He & Hm). pose proof (Z.pow_pos_nonneg 2 e ltac:(lia) He). assert (0 <= m) as Hm0 by nia.
  destruct (Z.le_gt_cases n e) as [Hle|Hgt].
  - replace e with (e - n + n) by lia. rewrite Z.pow_add_r, Z.mul_assoc, Z.div_mul, Z.mod_mul by lia.
    split; [exists m, (e - n); split_and!; (done || lia)|]. apply significant_small. pose proof precision_scale. cbn. lia.
  - replace n with (n - e + e) by lia. rewrite Z.pow_add_r, Z.div_mul_cancel_r, Z.mul_mod_distr_r by lia.
    pose proof (Z.pow_pos_nonneg 2 (n - e) ltac:(lia) ltac:(lia)). split.
    + apply significant_small. pose proof (Z.div_le_upper_bound m (2 ^ (n - e)) m ltac:(lia) ltac:(nia)).
      pose proof (Z.div_pos m (2 ^ (n - e)) ltac:(lia) ltac:(lia)). lia.
    + exists (m mod 2 ^ (n - e)), e. split; [done|]. split; [done|]. pose proof (Z.mod_pos_bound m (2 ^ (n - e)) ltac:(lia)).
      pose proof (Z.mod_le m (2 ^ (n - e)) ltac:(lia) ltac:(lia)). lia.
Qed.

(** Large numbers are multiples of 2^64. *)
Lemma significant_multiple k : significant precision k -> 2 ^ 64 * 2 ^ scale <= k -> k = (k / 2 ^ 64) * 2 ^ 64.
Proof.
  intros (m & e & -> & He & Hm) Hk. pose proof precision_scale.
  assert (64 <= e) as H64.
  { destruct (Z.le_gt_cases 64 e) as [|Hlt]; [done|]. exfalso. rewrite <- Z.pow_add_r in Hk by lia.
    assert (2 ^ (64 + scale) < 2 ^ (precision + e)).
    { eapply Z.le_lt_trans; [exact Hk|]. rewrite Z.pow_add_r by lia. pose proof (Z.pow_pos_nonneg 2 e ltac:(lia) He).
      apply Z.mul_lt_mono_pos_r; lia. }
    assert (0 <= precision + e) as Hpe by lia. pose proof (Z.pow_lt_mono_r_iff 2 (64 + scale) (precision + e) ltac:(lia) Hpe). lia. }
  replace e with (e - 64 + 64) by lia. rewrite (Z.pow_add_r 2 (e - 64) 64), Z.mul_assoc, Z.div_mul by lia. done.
Qed.

Lemma float_of_uint64_exact n : significant precision n -> float_of_uint64 n = n * 2 ^ scale.
Proof. intros Hn. apply round_exact, significant_shift; [pose proof precision_scale; lia|done]. Qed.

Lemma ldexp_up k n : 0 <= n -> significant precision k -> ldexp k n = k * 2 ^ n.
Proof.
  intros Hn Hk. apply ldexp_exact; [by apply significant_shift|]. rewrite Z.max_r, Z.max_l by lia. by rewrite Z.pow_0_r, Z.mul_1_r.
Qed.

(** ** Conversion drops the fraction *)

Lemma uint64_of_float_ok v : 0 <= v < 2 ^ 64 * 2 ^ scale -> uint64_of_float v = Ret (v / 2 ^ scale).
Proof.
  intros Hv. pose proof precision_scale. assert (0 < 2 ^ scale) as Hs by (apply Z.pow_pos_nonneg; lia).
  unfold uint64_of_float. rewrite Z.quot_div_nonneg by lia.
  pose proof (Z.div_pos v (2 ^ scale) ltac:(lia) Hs). pose proof (Z.div_lt_upper_bound v (2 ^ scale) (2 ^ 64) Hs ltac:(lia)).
  by rewrite (proj2 (andb_true_iff _ _)) by lia.
Qed.

Lemma words_of_quotient v : 0 <= v < 2 ^ 128 * 2 ^ scale ->
  let n := v / 2 ^ scale in
  uint128_ok (MakeUint128 (n / 2 ^ 64) (n mod 2 ^ 64)) /\ uval (MakeUint128 (n / 2 ^ 64) (n mod 2 ^ 64)) = n.
Proof.
  intros Hv n. pose proof precision_scale. assert (0 < 2 ^ scale) as Hs by (apply Z.pow_pos_nonneg; lia).
  assert (0 <= n < 2 ^ 128) as Hn by (subst n; split; [apply Z.div_pos; lia|apply Z.div_lt_upper_bound; lia]).
  unfold uint128_ok, is_word, uval. cbn [Uint128High64 Uint128Low64]. pose proof (Z.mod_pos_bound n (2 ^ 64) ltac:(lia)).
  pose proof (Z.div_mod n (2 ^ 64) ltac:(lia)). pose proof (Z.div_pos n (2 ^ 64) ltac:(lia) ltac:(lia)).
  pose proof (Z.div_lt_upper_bound n (2 ^ 64) (2 ^ 64) ltac:(lia) ltac:(lia)). lia.
Qed.

Lemma MakeUint128FromFloat_ok v : significant precision v -> 0 <= v < 2 ^ 128 * 2 ^ scale ->
  MakeUint128FromFloat v = Ret (MakeUint128 (v / 2 ^ scale / 2 ^ 64) ((v / 2 ^ scale) mod 2 ^ 64)).
Proof.
  intros Hs Hv. pose proof precision_scale. assert (0 < 2 ^ scale) as Hp by (apply Z.pow_pos_nonneg; lia).
  assert (0 <= v) as Hv0 by lia. assert (0 <= scale) as Hs0 by lia. assert (0 <= scale + 64) as Hs1 by lia.
  assert (significant precision 1) as H1 by (apply significant_small; cbn; pose proof (Z.pow_gt_1 2 precision ltac:(lia)); lia).
  unfold MakeUint128FromFloat. rewrite (proj2 (andb_true_iff _ _)) by lia. unfold assume. ostep.
  rewrite float_of_uint64_exact, ldexp_up by (done || apply significant_shift; (done || lia)). rewrite Z.mul_1_l, (Z.mul_comm (2 ^ scale)).
  destruct (Z.leb_spec (2 ^ 64 * 2 ^ scale) v) as [Hl|Hl].
  - destruct (significant_parts v 64 ltac:(lia) ltac:(lia) Hs) as [Hd _].
    rewrite (ldexp_exact v (-64) (v / 2 ^ 64)) by (done || (change (Z.max 0 (-64)) with 0; change (Z.max 0 (- -64)) with 64; rewrite Z.pow_0_r, Z.mul_1_r; by apply significant_multiple)).
    rewrite uint64_of_float_ok by (split; [apply Z.div_pos; lia|apply Z.div_lt_upper_bound; lia]). ostep.
    rewrite Z.div_div, (Z.mul_comm (2 ^ 64)), <- Z.div_div by lia. set (n := v / 2 ^ scale).
    destruct (significant_parts v scale Hv0 Hs0 Hs) as [Hn _]. fold n in Hn.
    assert (0 <= n) as Hn0 by (apply Z.div_pos; lia).
    destruct (significant_parts n 64 ltac:(lia) ltac:(lia) Hn) as [Hh _].
    rewrite float_of_uint64_exact, ldexp_up by (done || apply significant_shift; (done || lia)).
    assert (v - n / 2 ^ 64 * 2 ^ scale * 2 ^ 64 = v mod 2 ^ (scale + 64)) as ->.
    { unfold n. rewrite Z.div_div, <- Z.pow_add_r by lia. rewrite Z.mod_eq by lia. rewrite <- Z.mul_assoc, <- Z.pow_add_r by lia. ring. }
    destruct (significant_parts v (scale + 64) Hv0 Hs1 Hs) as [_ Hm]. rewrite round_exact by done.
    rewrite uint64_of_float_ok.
    + ostep. do 2 f_equal. rewrite Z.pow_add_r by lia. rewrite Z.rem_mul_r by lia. rewrite (Z.mul_comm (2 ^ scale)), Z.div_add by lia.
      rewrite (Z.div_small (v mod 2 ^ scale)) by (by apply Z.mod_pos_bound). by rewrite Z.add_0_l.
    + rewrite <- Z.pow_add_r, (Z.add_comm 64) by lia. apply Z.mod_pos_bound. lia.
  - rewrite uint64_of_float_ok by lia. ostep. assert (v / 2 ^ scale < 2 ^ 64) by (apply Z.div_lt_upper_bound; lia).
    pose proof (Z.div_pos v (2 ^ scale) ltac:(lia) Hp). by rewrite (Z.div_small (v / 2 ^ scale) (2 ^ 64)), Z.mod_small by lia.
Qed.

(** Conversion from a floating-point number of any format drops the fraction, exactly,
    for every number between -1 and 2^128; and converting the result back loses
    nothing more. *)
Theorem float_conversions v : significant precision v -> - 2 ^ scale < v < 2 ^ 128 * 2 ^ scale ->
  exists x, MakeUint128FromFloat v = Ret x /\ uint128_ok x /\ uval x = Z.quot v (2 ^ scale)
    /\ uint128_to_float x = Z.quot v (2 ^ scale) * 2 ^ scale.
Proof.
  intros Hs Hv. pose proof precision_scale. assert (0 < 2 ^ scale) as Hp by (apply Z.pow_pos_nonneg; lia).
  assert (0 <= scale) as Hs0 by lia. destruct (Z.le_gt_cases 0 v) as [Hv0|Hv0].
  - rewrite Z.quot_div_nonneg by lia. eexists. split; [apply MakeUint128FromFloat_ok; (done || lia)|].
    destruct (words_of_quotient v ltac:(lia)) as [Hok Hu]. split; [done|]. split; [done|].
    unfold uint128_to_float. cbn [Uint128High64 Uint128Low64]. destruct (significant_parts v scale Hv0 Hs0 Hs) as [Hn _].
    set (n := v / 2 ^ scale) in *. assert (0 <= n) as Hn0 by (apply Z.div_pos; lia).
    destruct (significant_parts n 64 Hn0 ltac:(lia) Hn) as [Hh Hl].
    rewrite (float_of_uint64_exact (n / 2 ^ 64)), ldexp_up, float_of_uint64_exact by (done || apply significant_shift; done).
    assert (n mod 2 ^ 64 * 2 ^ scale + n / 2 ^ 64 * 2 ^ scale * 2 ^ 64 = n * 2 ^ scale) as ->.
    { rewrite (Z.div_mod n (2 ^ 64)) at 3 by lia. ring. }
    apply round_exact, significant_shift; done.
  - assert (Z.quot v (2 ^ scale) = 0) as ->
      by (rewrite <- (Z.opp_involutive v), Z.quot_opp_l, Z.quot_small by lia; done).
    exists (MakeUint128 0 0). split.
    + unfold MakeUint128FromFloat. rewrite (proj2 (andb_true_iff _ _)) by lia. unfold assume. ostep.
      assert (significant precision 1) as H1 by (apply significant_small; cbn; pose proof (Z.pow_gt_1 2 precision ltac:(lia)); lia).
      rewrite float_of_uint64_exact, ldexp_up by (done || apply significant_shift; done). rewrite (proj2 (Z.leb_gt _ _)) by lia.
      unfold uint64_of_float.
      by rewrite <- (Z.opp_involutive v), Z.quot_opp_l, Z.quot_small by lia.
    + split; [by split|]. split; [done|]. unfold uint128_to_float, float_of_uint64. cbn [Uint128High64 Uint128Low64].
      assert (significant precision 0) as H0 by (apply significant_small; cbn; apply Z.pow_pos_nonneg; lia).
      rewrite Z.mul_0_l, !(round_exact 0), (ldexp_up 0) by done. by apply round_exact.
Qed.
End conversions.

(** ** An example: the format of [double], rounding towards zero *)

Definition round53 (k : Z) : Z := let e := Z.max 0 (Z.log2 (Z.abs k) + 1 - 53) in Z.quot k (2 ^ e) * 2 ^ e.
Definition ldexp53 (k n : Z) : Z := round53 (if 0 <=? n then k * 2 ^ n else Z.quot k (2 ^ (- n))).

Lemma round53_exact k : significant 53 k -> round53 k = k.
Proof.
  intros (m & e & -> & He & Hm). unfold round53. destruct (Z.eq_dec m 0) as [->|H0]; [done|].
  pose proof (Z.pow_pos_nonneg 2 e ltac:(lia) He) as Hp.
  assert (Z.log2 (Z.abs (m * 2 ^ e)) = Z.log2 (Z.abs m) + e) as El.
  { rewrite Z.abs_mul, (Z.abs_eq (2 ^ e)), Z.log2_mul_pow2 by lia. lia. }
  assert (Z.log2 (Z.abs m) < 53) by (apply Z.log2_lt_pow2; lia). rewrite El. set (e0 := Z.max 0 _).
  assert (0 <= e0 <= e) as He0 by (unfold e0; lia). replace e with (e - e0 + e0) by lia.
  rewrite Z.pow_add_r, Z.mul_assoc, Z.quot_mul by first [lia|apply Z.pow_nonzero; lia]. done.
Qed.

#[local] Program Instance double_format : FloatFormat :=
  {| precision := 53; scale := 1074; round := round53; ldexp := ldexp53 |}.
Next Obligation. done. Qed.
Next Obligation. apply round53_exact. Qed.
Next Obligation.
  intros k n r Hr E. unfold ldexp53. destruct (Z.leb_spec 0 n).
  - rewrite Z.max_r, Z.max_l, Z.pow_0_r, Z.mul_1_r in E by lia. rewrite E. by apply round53_exact.
  - rewrite Z.max_l, Z.max_r, Z.pow_0_r, Z.mul_1_r in E by lia. rewrite E, Z.quot_mul by (apply Z.pow_nonzero; lia). by apply round53_exact.
Qed.

(** 2^100 + 2^60 as a [double]. *)
Lemma float_conversions_witness :
  exists x, MakeUint128FromFloat ((2 ^ 100 + 2 ^ 60) * 2 ^ 1074) = Ret x /\ uval x = 2 ^ 100 + 2 ^ 60
    /\ uint128_to_float x = (2 ^ 100 + 2 ^ 60) * 2 ^ 1074.
Proof.
  destruct (float_conversions (F := double_format) ((2 ^ 100 + 2 ^ 60) * 2 ^ 1074)) as (x & E & _ & Eu & Ef).
  - exists (2 ^ 40 + 1), 1134. vm_compute. repeat split; discriminate.
  - vm_compute. done.
  - exists x. split; [exact E|]. rewrite Eu, Ef. vm_compute. split; reflexivity.
Defined.
