(* ===== verification/MapQueue.v ===== *)
(** The response queue: [Semaphore] and [ConcurrentMapQueue] of
    [src/utils/concurrentmapqueue.h].

    Threads run one action at a time, in any order. An action of a semaphore is a
    stretch of code under its mutex; an action of the queue is an access to one of
    its maps or queues, or an operation of a semaphore. Most accesses to the maps and
    the queues are not under a lock in the code. [accesses] says which ones an action
    makes, [races] when those of two threads are a data race, and [may_end] that an
    action in a data race may have undefined behaviour. What the theorems say of the
    contents of the queue holds of the executions in which the accesses are atomic,
    among which are all those without a data race. Counts do not reach the bounds
    of [int]. *)
From stdpp Require Import gmap relations functions sorting.
From S2P Require Import Prelude.

(** ** Semaphores *)

(** [_count], the threads asleep on [_cv], and those woken that have not taken the
    mutex yet. *)
Record semaphore : Type := { sem_count : Z; sleeping : gset nat; awake : gset nat }.

Definition new_semaphore (n : Z) : semaphore := {| sem_count := n; sleeping := ∅; awake := ∅ |}.

(** What the other threads see of an action. *)
Inductive sem_label : Type := Acquired (t : nat) | Slept (t : nat) | Notified | Unblocked | Woken (t : nat).

(** The loop [while (_count == 0) _cv.wait(lock)], entered by a new thread or resumed
    by a woken one; [notify_one], which may find nobody asleep; [unblockAll]; and
    wake-ups that nobody asked for. *)
Inductive sem_step : sem_label -> semaphore -> semaphore -> Prop :=
| wait_enter_acquire t s : t ∉ sleeping s -> t ∉ awake s -> sem_count s <> 0 ->
    sem_step (Acquired t) s {| sem_count := sem_count s - 1; sleeping := sleeping s; awake := awake s |}
| wait_enter_sleep t s : t ∉ sleeping s -> t ∉ awake s -> sem_count s = 0 ->
    sem_step (Slept t) s {| sem_count := sem_count s; sleeping := {[t]} ∪ sleeping s; awake := awake s |}
| wait_resume_acquire t s : t ∈ awake s -> sem_count s <> 0 ->
    sem_step (Acquired t) s {| sem_count := sem_count s - 1; sleeping := sleeping s; awake := awake s ∖ {[t]} |}
| wait_resume_sleep t s : t ∈ awake s -> sem_count s = 0 ->
    sem_step (Slept t) s {| sem_count := sem_count s; sleeping := {[t]} ∪ sleeping s; awake := awake s ∖ {[t]} |}
| notify_nobody s : sleeping s = ∅ ->
    sem_step Notified s {| sem_count := sem_count s + 1; sleeping := sleeping s; awake := awake s |}
| notify_somebody t s : t ∈ sleeping s ->
    sem_step Notified s
      {| sem_count := sem_count s + 1; sleeping := sleeping s ∖ {[t]}; awake := {[t]} ∪ awake s |}
| unblock_all s :
    sem_step Unblocked s {| sem_count := 1; sleeping := ∅; awake := sleeping s ∪ awake s |}
| spurious t s : t ∈ sleeping s ->
    sem_step (Woken t) s {| sem_count := sem_count s; sleeping := sleeping s ∖ {[t]}; awake := {[t]} ∪ awake s |}.

(** What a semaphore promises: a counter that [wait] takes from when it is not 0. *)
Inductive sem_spec : sem_label -> Z -> Z -> Prop :=
| spec_acquire t n : n <> 0 -> sem_spec (Acquired t) n (n - 1)
| spec_sleep t : sem_spec (Slept t) 0 0
| spec_notify n : sem_spec Notified n (n + 1)
| spec_unblock n : sem_spec Unblocked n 1
| spec_woken t n : sem_spec (Woken t) n n.

Definition sem_reachable (n : Z) : semaphore -> Prop := rtc (fun s s' => exists l, sem_step l s s') (new_semaphore n).

(** While somebody sleeps, enough threads are awake to take what there is. *)
Definition sem_inv (s : semaphore) : Prop :=
  sleeping s ## awake s /\ 0 <= sem_count s /\ (sleeping s <> ∅ -> sem_count s <= Z.of_nat (size (awake s))).

Lemma sem_step_spec l s s' : sem_step l s s' -> sem_spec l (sem_count s) (sem_count s').
Proof. destruct 1; cbn; repeat match goal with H : sem_count _ = 0 |- _ => rewrite H end; by constructor. Qed.

Lemma size_add (t : nat) (X : gset nat) : t ∉ X -> size ({[t]} ∪ X) = S (size X).
Proof. intros Ht. rewrite size_union by set_solver. by rewrite size_singleton. Qed.

Lemma size_remove (t : nat) (X : gset nat) : t ∈ X -> S (size (X ∖ {[t]})) = size X.
Proof. intros Ht. rewrite <- (size_add t) by set_solver. f_equal. apply leibniz_equiv. rewrite <- union_difference_singleton; done. Qed.

Lemma sem_step_inv l s s' : sem_step l s s' -> sem_inv s -> sem_inv s'.
Proof.
  intros Hs (Hd & Hc & Hl). destruct Hs; (split; [cbn; set_solver|]); (split; [cbn; lia|]); cbn; intros Hne.
  - specialize (Hl Hne). lia.
  - lia.
  - specialize (Hl Hne). pose proof (size_remove t (awake s) ltac:(done)). lia.
  - lia.
  - done.
  - rewrite size_add by set_solver. assert (sleeping s <> ∅) as Hs by set_solver. specialize (Hl Hs). lia.
  - done.
  - rewrite size_add by set_solver. assert (sleeping s <> ∅) as Hs by set_solver. specialize (Hl Hs). lia.
Qed.

(** C27: a semaphore neither lets too many threads through nor loses a wake-up. Every
    action of the code is an action of a counter that [wait] decrements when it is
    not 0; and in every reachable state in which the counter is not 0 and a thread
    is in [wait], some thread in [wait] is awake and acquires the semaphore with
    its next action. *)
Theorem semaphore_refines_counter n s : 0 <= n -> sem_reachable n s ->
  (forall l s', sem_step l s s' -> sem_spec l (sem_count s) (sem_count s'))
  /\ (sem_count s <> 0 -> sleeping s ∪ awake s <> ∅ -> exists t s', t ∈ awake s /\ sem_step (Acquired t) s s').
Proof.
  intros Hn Hr. assert (sem_inv s) as (Hd & Hc & Hl).
  { revert s Hr. apply rtc_ind_r; [by split; [set_solver|]|]. intros a b _ [l Hs] IH. by eapply sem_step_inv. }
  split; [intros l s'; apply sem_step_spec|]. intros H0 Hne.
  assert (exists t, t ∈ awake s) as [t Ht].
  { apply set_choose_L. intros Ha. rewrite Ha, size_empty in Hl. assert (sleeping s <> ∅) as Hs by set_solver. specialize (Hl Hs). lia. }
  exists t. eexists. split; [done|]. by apply wait_resume_acquire.
Qed.

Lemma semaphore_refines_counter_witness :
  let s := {| sem_count := 1; sleeping := ∅; awake := {[7%nat]} |} in
  sem_reachable 0 s /\ exists t s', t ∈ awake s /\ sem_step (Acquired t) s s'.
Proof.
  intros s. assert (sem_reachable 0 s) as Hr.
  { apply (rtc_l _ _ {| sem_count := 0; sleeping := {[7%nat]} ∪ ∅; awake := ∅ |});
      [exists (Slept 7); apply (wait_enter_sleep 7 (new_semaphore 0)); [set_solver|set_solver|done]|].
    apply rtc_once. exists Notified.
    pose proof (notify_somebody 7 {| sem_count := 0; sleeping := {[7%nat]} ∪ ∅; awake := ∅ |} ltac:(set_solver)) as H.
    cbn in H. exact H. }
  split; [exact Hr|]. apply (proj2 (semaphore_refines_counter 0 s ltac:(lia) Hr)); [done|set_solver].
Defined.

(** ** The queue *)

Section queue.
Context {T : Type}.

(** A semaphore is allocated per key, generation and direction; [None] in [sems]
    means that it is not there (any more). *)
Abbreviation sem_addr := (Z * nat * bool)%type.

(** Where a thread is in [put], [get] or [eraseKey]. *)
Inductive pc : Type :=
| Idle
| PutAdd (key : Z) (value : T)
| PutLook (key : Z) (value : T)
| PutWait (key : Z) (value : T) (sem : sem_addr)
| PutWrite (key : Z) (value : T)
| PutNotify (key : Z)
| GetAdd (key : Z)
| GetLook (key : Z)
| GetWait (key : Z) (sem : sem_addr)
| GetRead (key : Z)
| GetNotify (key : Z) (value : T)
| EraseUnblock (key : Z)
| EraseR (key : Z) (semR semW : sem_addr)
| EraseW (key : Z) (semR semW : sem_addr)
| DeleteR (semR semW : sem_addr)
| DeleteW (semW : sem_addr).

(** The members of the object, the semaphores, and where each thread is. The last
    three fields record what happened: the values written and read per key, and the
    results of [get] in the order in which they returned. *)
Record ConcurrentMapQueue : Type := {
  collection : gmap Z (list T);
  semR : Z -> option nat;
  semW : Z -> option nat;
  max_size : Z;
  sems : sem_addr -> option Z;
  generation : nat;
  threads : list pc;
  written : Z -> list T;
  taken : Z -> list T;
  results : list (nat * Z * option T);
}.

(** The constructor; no thread is in a call. *)
Definition newConcurrentMapQueue (size : Z) (nthreads : nat) : ConcurrentMapQueue := {|
  collection := ∅; semR := fun _ => None; semW := fun _ => None; max_size := size;
  sems := fun _ => None; generation := 0; threads := replicate nthreads Idle;
  written := fun _ => []; taken := fun _ => []; results := [] |}.

Definition set_pc (t : nat) (p : pc) (q : ConcurrentMapQueue) : ConcurrentMapQueue := {|
  collection := collection q; semR := semR q; semW := semW q; max_size := max_size q; sems := sems q;
  generation := generation q; threads := <[t := p]> (threads q); written := written q; taken := taken q;
  results := results q |}.

Definition set_sem (a : sem_addr) (n : option Z) (q : ConcurrentMapQueue) : ConcurrentMapQueue := {|
  collection := collection q; semR := semR q; semW := semW q; max_size := max_size q; sems := <[a := n]> (sems q);
  generation := generation q; threads := threads q; written := written q; taken := taken q; results := results q |}.

Definition addKey (key : Z) (q : ConcurrentMapQueue) : ConcurrentMapQueue :=
  match semR q key with
  | Some _ => q
  | None => {|
      collection := collection q; semR := <[key := Some (generation q)]> (semR q);
      semW := <[key := Some (generation q)]> (semW q); max_size := max_size q;
      sems := <[(key, generation q, false) := Some 0]> (<[(key, generation q, true) := Some (max_size q - 1)]> (sems q));
      generation := S (generation q); threads := threads q; written := written q; taken := taken q;
      results := results q |}
  end.

(** [_collection[key]], which the operator inserts when it is missing. *)
Definition queue_at (q : ConcurrentMapQueue) (key : Z) : list T := default [] (collection q !! key).

(** [_collection[key].push(value)] *)
Definition write (key : Z) (value : T) (q : ConcurrentMapQueue) : ConcurrentMapQueue := {|
  collection := <[key := queue_at q key ++ [value]]> (collection q); semR := semR q; semW := semW q;
  max_size := max_size q; sems := sems q; generation := generation q; threads := threads q;
  written := <[key := written q key ++ [value]]> (written q); taken := taken q; results := results q |}.

(** The front if there is one, and the object afterwards. *)
Definition read (key : Z) (q : ConcurrentMapQueue) : option T * ConcurrentMapQueue :=
  let o := head (queue_at q key) in
  (o, {|
      collection := <[key := tail (queue_at q key)]> (collection q); semR := semR q; semW := semW q;
      max_size := max_size q; sems := sems q; generation := generation q; threads := threads q; written := written q;
      taken := <[key := taken q key ++ option_list o]> (taken q); results := results q |}).

(** The keys of [_collection], in the order of the map. *)
Definition getKeys (q : ConcurrentMapQueue) : list Z := merge_sort Z.le (elements (dom (collection q))).

(** [get] returns. *)
Definition log_result (r : nat * Z * option T) (q : ConcurrentMapQueue) : ConcurrentMapQueue := {|
  collection := collection q; semR := semR q; semW := semW q; max_size := max_size q; sems := sems q;
  generation := generation q; threads := threads q; written := written q; taken := taken q;
  results := results q ++ [r] |}.

Definition return_get (t : nat) (key : Z) (o : option T) (q : ConcurrentMapQueue) : ConcurrentMapQueue :=
  set_pc t Idle (log_result (t, key, o) q).

(** [_semR[key]] and [_semW[key]] (the last component tells them apart); the null
    pointer that the operator inserts for a missing key is followed at once. *)
Definition sem_of (w : bool) (key : Z) (q : ConcurrentMapQueue) : outcome sem_addr :=
  match (if w then semW q key else semR q key) with Some g => Ret (key, g, w) | None => UB end.

Definition sem_notify (a : sem_addr) (q : ConcurrentMapQueue) : outcome ConcurrentMapQueue :=
  match sems q a with Some n => Ret (set_sem a (Some (n + 1)) q) | None => UB end.

Definition sem_unblockAll (a : sem_addr) (q : ConcurrentMapQueue) : outcome ConcurrentMapQueue :=
  match sems q a with Some _ => Ret (set_sem a (Some 1) q) | None => UB end.

Definition sem_delete (a : sem_addr) (q : ConcurrentMapQueue) : outcome ConcurrentMapQueue :=
  match sems q a with Some _ => Ret (set_sem a None q) | None => UB end.

(** [wait]: [None] while the thread has to wait. *)
Definition sem_wait (a : sem_addr) (q : ConcurrentMapQueue) : option (outcome ConcurrentMapQueue) :=
  match sems q a with
  | Some n => if n =? 0 then None else Some (Ret (set_sem a (Some (n - 1)) q))
  | None => Some UB
  end.

Definition erase_semR (key : Z) (q : ConcurrentMapQueue) : ConcurrentMapQueue := {|
  collection := collection q; semR := <[key := None]> (semR q); semW := semW q; max_size := max_size q; sems := sems q;
  generation := generation q; threads := threads q; written := written q; taken := taken q; results := results q |}.

Definition erase_semW (key : Z) (q : ConcurrentMapQueue) : ConcurrentMapQueue := {|
  collection := collection q; semR := semR q; semW := <[key := None]> (semW q); max_size := max_size q; sems := sems q;
  generation := generation q; threads := threads q; written := written q; taken := taken q; results := results q |}.

(** The next action of a thread: [None] when it is in no call or waits. *)
Definition advance (t : nat) (q : ConcurrentMapQueue) : option (outcome ConcurrentMapQueue) :=
  match threads q !! t with
  | None | Some Idle => None
  | Some (PutAdd key value) => Some (Ret (set_pc t (PutLook key value) (addKey key q)))
  | Some (PutLook key value) => Some (a ← sem_of true key q; Ret (set_pc t (PutWait key value a) q))
  | Some (PutWait key value a) => (fun o => q' ← o; Ret (set_pc t (PutWrite key value) q')) <$> sem_wait a q
  | Some (PutWrite key value) => Some (Ret (set_pc t (PutNotify key) (write key value q)))
  | Some (PutNotify key) => Some (a ← sem_of false key q; q' ← sem_notify a q; Ret (set_pc t Idle q'))
  | Some (GetAdd key) => Some (Ret (set_pc t (GetLook key) (addKey key q)))
  | Some (GetLook key) => Some (a ← sem_of false key q; Ret (set_pc t (GetWait key a) q))
  | Some (GetWait key a) => (fun o => q' ← o; Ret (set_pc t (GetRead key) q')) <$> sem_wait a q
  | Some (GetRead key) =>
      Some (Ret (match read key q with
                 | (Some v, q') => set_pc t (GetNotify key v) q'
                 | (None, q') => return_get t key None q'
                 end))
  | Some (GetNotify key v) => Some (a ← sem_of true key q; q' ← sem_notify a q; Ret (return_get t key (Some v) q'))
  | Some (EraseUnblock key) =>
      Some (r ← sem_of false key q; w ← sem_of true key q; q' ← sem_unblockAll r q; Ret (set_pc t (EraseR key r w) q'))
  | Some (EraseR key r w) => Some (Ret (set_pc t (EraseW key r w) (erase_semR key q)))
  | Some (EraseW key r w) => Some (Ret (set_pc t (DeleteR r w) (erase_semW key q)))
  | Some (DeleteR r w) => Some (q' ← sem_delete r q; Ret (set_pc t (DeleteW w) q'))
  | Some (DeleteW w) => Some (q' ← sem_delete w q; Ret (set_pc t Idle q'))
  end.

(** A thread calls [put], [get] or [eraseKey]. *)
Definition call (t : nat) (p : pc) (q : ConcurrentMapQueue) : option ConcurrentMapQueue :=
  match threads q !! t with Some Idle => Some (set_pc t p q) | _ => None end.

Definition put (key : Z) (value : T) : pc := PutAdd key value.
Definition get (key : Z) : pc := GetAdd key.
Definition eraseKey (key : Z) : pc := EraseUnblock key.

(** Executions in which no key is erased, and all executions. *)
Inductive use_step (q : ConcurrentMapQueue) : ConcurrentMapQueue -> Prop :=
| use_put t key value q' : call t (put key value) q = Some q' -> use_step q q'
| use_get t key q' : call t (get key) q = Some q' -> use_step q q'
| use_advance t q' : advance t q = Some (Ret q') -> use_step q q'.

Inductive queue_step (q : ConcurrentMapQueue) : ConcurrentMapQueue -> Prop :=
| step_use q' : use_step q q' -> queue_step q q'
| step_erase t key q' : call t (eraseKey key) q = Some q' -> queue_step q q'.

Definition used (size : Z) (nthreads : nat) : ConcurrentMapQueue -> Prop :=
  rtc use_step (newConcurrentMapQueue size nthreads).
Definition reachable_queue (size : Z) (nthreads : nat) : ConcurrentMapQueue -> Prop :=
  rtc queue_step (newConcurrentMapQueue size nthreads).

(** *** Data races

    The three maps, with the queues in the first. *)
Inductive shared_map : Type := Collection | SemR | SemW.

(** What the next action of a thread reads and writes of them. [addKey] holds
    [_keyMtx], counts the key, and inserts it into both maps of semaphores when it
    is missing; all else goes through [operator[]] and holds nothing. *)
Definition accesses (q : ConcurrentMapQueue) (p : pc) : list (access shared_map) :=
  match p with
  | PutAdd key _ | GetAdd key =>
      match semR q key with
      | Some _ => [Access SemR false true]
      | None => [Access SemR true true; Access SemW true true]
      end
  | PutLook _ _ | GetNotify _ _ | EraseW _ _ _ => [Access SemW true false]
  | GetLook _ | PutNotify _ | EraseR _ _ _ => [Access SemR true false]
  | EraseUnblock _ => [Access SemR true false; Access SemW true false]
  | PutWrite _ _ | GetRead _ => [Access Collection true false]
  | Idle | PutWait _ _ _ | GetWait _ _ | DeleteR _ _ | DeleteW _ => []
  end.
End queue.
Arguments pc : clear implicits.
Arguments ConcurrentMapQueue : clear implicits.

#[export] Instance shared_map_eq_dec : EqDecision shared_map.
Proof. solve_decision. Defined.

Section data_races.
Context {T : Type}.
Implicit Types (q : ConcurrentMapQueue T).

Definition races q (t t' : nat) : Prop :=
  t <> t' /\ exists p p', threads q !! t = Some p /\ threads q !! t' = Some p'
  /\ conflicting (accesses q p) (accesses q p') = true.

(** How the next action of a thread may end. *)
Inductive may_end q (t : nat) : outcome (ConcurrentMapQueue T) -> Prop :=
| ends_itself o : advance t q = Some o -> may_end q t o
| ends_in_race t' : races q t t' -> may_end q t UB.

(** Executions in which no key is erased and no state has a data race. *)
Definition race_free q : Prop := forall t t', ~ races q t t'.
Definition used_safely (size : Z) (nthreads : nat) : ConcurrentMapQueue T -> Prop :=
  rtc (fun q q' => race_free q /\ use_step q q') (newConcurrentMapQueue size nthreads).

Lemma used_safely_used size n q : used_safely size n q -> used size n q.
Proof. intros Hr. apply (rtc_subrel (fun q q' => race_free q /\ use_step q q') _ _ _ ltac:(by intros ? ? [_ ?]) Hr). Qed.

(** Not touching the maps: in no call, or waiting for a semaphore. *)
Definition quiet (p : pc T) : bool := match p with Idle | PutWait _ _ _ | GetWait _ _ => true | _ => false end.

Lemma race_free_alone q t :
  (forall t' p, t' <> t -> threads q !! t' = Some p -> quiet p = true) -> race_free q.
Proof.
  intros Hq t1 t2 (Hne & p1 & p2 & H1 & H2 & Hc). assert (t1 <> t \/ t2 <> t) as [Hn|Hn] by lia.
  - specialize (Hq t1 p1 Hn H1). by destruct p1.
  - specialize (Hq t2 p2 Hn H2). rewrite conflicting_sym in Hc. by destruct p2.
Qed.
End data_races.

(** ** The invariant while keys are in use *)

Section invariant.
Context {T : Type} (size : Z) (Hsize : 1 <= size).
Implicit Types (q : ConcurrentMapQueue T) (p : pc T).

(** The threads whose next action takes an element that a semaphore has granted, or
    announces one that has been written; and the same for room. *)
Definition reading (k : Z) p : Z :=
  match p with GetRead k' | PutNotify k' => if k =? k' then 1 else 0 | _ => 0 end.
Definition writing (k : Z) p : Z :=
  match p with PutWrite k' _ | GetNotify k' _ => if k =? k' then 1 else 0 | _ => 0 end.

Fixpoint tally (f : pc T -> Z) (l : list (pc T)) : Z :=
  match l with [] => 0 | p :: l' => f p + tally f l' end.

Lemma tally_set f l t p p' : l !! t = Some p -> tally f (<[t := p']> l) = tally f l - f p + f p'.
Proof.
  revert t. induction l as [|a l IH]; intros [|t] H; [done|done|injection H as <-; cbn; lia|].
  change (f a + tally f (<[t := p']> l) = f a + tally f l - f p + f p'). rewrite (IH t H). lia.
Qed.

Lemma tally_nonneg f l : (forall p, 0 <= f p) -> 0 <= tally f l.
Proof. intros Hf. induction l as [|a l IH]; cbn; [|specialize (Hf a)]; lia. Qed.

Lemma tally_in f l t p : (forall p, 0 <= f p) -> l !! t = Some p -> f p <= tally f l.
Proof.
  intros Hf. pose proof (fun l => tally_nonneg f l Hf) as Hl. revert t. induction l as [|a l IH]; intros [|t] H; cbn in *; try done.
  - injection H as <-. specialize (Hl l). lia.
  - specialize (IH t H). specialize (Hf a). lia.
Qed.

Lemma tally_zero f l : (forall p, p ∈ l -> f p = 0) -> tally f l = 0.
Proof. induction l as [|a l IH]; intros H; cbn; [done|]. rewrite (H a) by (by left). rewrite IH; [done|]. intros p Hp. apply H. by right. Qed.

Lemma reading_nonneg k p : 0 <= reading k p.
Proof. destruct p; cbn; try destruct (_ =? _); lia. Qed.
Lemma writing_nonneg k p : 0 <= writing k p.
Proof. destruct p; cbn; try destruct (_ =? _); lia. Qed.

(** A thread that has added a key finds its semaphores. *)
Definition pc_ok q p : Prop :=
  match p with
  | Idle | PutAdd _ _ | GetAdd _ => True
  | PutLook k _ | PutWrite k _ | PutNotify k | GetLook k | GetRead k | GetNotify k _ => is_Some (semR q k)
  | PutWait k _ a => exists g, semR q k = Some g /\ a = (k, g, true)
  | GetWait k a => exists g, semR q k = Some g /\ a = (k, g, false)
  | _ => False
  end.

Definition queue_len q (k : Z) : Z := Z.of_nat (length (queue_at q k)).

Definition counts q k (r w : Z) : Prop :=
  0 <= r /\ 0 <= w /\ r + tally (reading k) (threads q) = queue_len q k
  /\ w + tally (writing k) (threads q) + queue_len q k = max_size q - 1.

Definition key_ok q k : Prop :=
  match semR q k with
  | None => queue_at q k = [] /\ tally (reading k) (threads q) = 0 /\ tally (writing k) (threads q) = 0
  | Some g => exists r w, sems q (k, g, false) = Some r /\ sems q (k, g, true) = Some w /\ counts q k r w
  end.

Record queue_inv q : Prop := {
  inv_max : max_size q = size;
  inv_sems : forall k, semW q k = semR q k;
  inv_key : forall k, key_ok q k;
  inv_pc : forall t p, threads q !! t = Some p -> pc_ok q p;
  inv_fifo : forall k, taken q k ++ queue_at q k = written q k;
  inv_results : forall t k o, (t, k, o) ∈ results q -> is_Some o;
}.

Lemma new_inv n : queue_inv (newConcurrentMapQueue size n).
Proof.
  assert (forall t p, replicate n Idle !! t = Some p -> p = Idle (T := T)) as Hp.
  { intros t p H. by apply lookup_replicate_1 in H as [-> _]. }
  split; cbn; try done.
  - intros k. unfold key_ok. cbn. split; [done|].
    split; apply tally_zero; intros p [t Ht]%list_elem_of_lookup; by rewrite (Hp t p).
  - intros t p H. by rewrite (Hp t p).
  - by intros t k o H%elem_of_nil.
Qed.

(** An action of one thread on one key. *)
Lemma action_inv q q' t p p' key g :
  queue_inv q -> threads q !! t = Some p -> threads q' = <[t := p']> (threads q) ->
  semR q' = semR q -> semW q' = semW q -> max_size q' = max_size q -> semR q key = Some g ->
  (forall k, k <> key -> reading k p' = reading k p /\ writing k p' = writing k p /\ queue_at q' k = queue_at q k) ->
  (forall k g b, k <> key -> sems q' (k, g, b) = sems q (k, g, b)) ->
  (forall r w, sems q (key, g, false) = Some r -> sems q (key, g, true) = Some w -> counts q key r w ->
     exists r' w', sems q' (key, g, false) = Some r' /\ sems q' (key, g, true) = Some w' /\ 0 <= r' /\ 0 <= w'
       /\ r' + reading key p' - queue_len q' key = r + reading key p - queue_len q key
       /\ w' + writing key p' + queue_len q' key = w + writing key p + queue_len q key) ->
  pc_ok q p' -> (forall k, taken q' k ++ queue_at q' k = written q' k) ->
  (forall t k o, (t, k, o) ∈ results q' -> is_Some o) -> queue_inv q'.
Proof.
  intros I Ht Hts HR HW Hm Hg Hother Hsems Hkey Hp Hf Hres.
  split; [by rewrite Hm; apply (inv_max q I)|intros k; rewrite HR, HW; apply (inv_sems q I)| | |done|done].
  - intros k. pose proof (inv_key q I k) as Hk. unfold key_ok in *. rewrite HR, Hts, !(tally_set _ _ t p p') by done.
    destruct (decide (k = key)) as [->|Hne].
    + rewrite Hg in *. destruct Hk as (r & w & Er & Ew & Hc). destruct (Hkey r w Er Ew Hc) as (r' & w' & Er' & Ew' & Hr' & Hw' & E1 & E2).
      destruct Hc as (_ & _ & C1 & C2). exists r', w'. split; [done|]. split; [done|]. unfold counts.
      rewrite Hts, Hm, !(tally_set _ _ t p p') by done. lia.
    + destruct (Hother k Hne) as (E1 & E2 & E3). rewrite E1, E2, E3.
      destruct (semR q k) as [g'|]; [|split; [apply Hk|lia]].
      destruct Hk as (r & w & Er & Ew & Hc). exists r, w. rewrite !Hsems by done. split; [done|]. split; [done|].
      unfold counts, queue_len in *. rewrite Hts, Hm, E3, !(tally_set _ _ t p p') by done. lia.
  - intros t' p''. rewrite Hts. intros [[<- [-> _]]|[_ H]]%list_lookup_insert_Some.
    + unfold pc_ok in *. by rewrite HR.
    + apply (inv_pc q I) in H. unfold pc_ok in *. by rewrite HR.
Qed.

(** Moving a thread without touching anything. *)
Lemma move_inv q t p p' : queue_inv q -> threads q !! t = Some p ->
  (forall k, reading k p' = reading k p /\ writing k p' = writing k p) -> pc_ok q p' -> queue_inv (set_pc t p' q).
Proof.
  intros I Ht Hsame Hp. split; [apply (inv_max q I)|apply (inv_sems q I)| | |apply (inv_fifo q I)|apply (inv_results q I)].
  - intros k. pose proof (inv_key q I k) as Hk. destruct (Hsame k) as [E1 E2].
    unfold key_ok, counts, queue_len, queue_at in *. cbn. rewrite !(tally_set _ _ t p p') by done. rewrite E1, E2.
    destruct (semR q k); [|split; [apply Hk|lia]]. destruct Hk as (r & w & Er & Ew & ?). exists r, w.
    repeat (split; [done|]). lia.
  - intros t' p''. cbn. intros [[<- [-> _]]|[_ H]]%list_lookup_insert_Some; [done|]. by apply (inv_pc q I) in H.
Qed.

Lemma addKey_some key q : is_Some (semR (addKey key q) key).
Proof. unfold addKey. destruct (semR q key) eqn:E; [by rewrite E|]. cbn. rewrite fn_lookup_insert. by eexists. Qed.

Lemma addKey_keeps key q k : is_Some (semR q k) -> semR (addKey key q) k = semR q k.
Proof.
  intros [g Hg]. unfold addKey. destruct (semR q key) eqn:E; [done|]. cbn. rewrite fn_lookup_insert_ne; [done|].
  intros ->. by rewrite Hg in E.
Qed.

Lemma addKey_inv key q : queue_inv q -> queue_inv (addKey key q).
Proof.
  intros I. assert (forall p, pc_ok q p -> pc_ok (addKey key q) p) as Hpc.
  { intros p Hp. destruct p; cbn in *; try done; try (by rewrite addKey_keeps);
      destruct Hp as (g & Hg & ->); exists g; (split; [rewrite addKey_keeps; [done|by rewrite Hg]|done]). }
  assert (forall t p, threads (addKey key q) !! t = Some p -> pc_ok (addKey key q) p) as Hpc'.
  { intros t p H. apply Hpc. apply (inv_pc q I t). unfold addKey in H. by destruct (semR q key). }
  pose proof (inv_key q I) as Hk. pose proof (inv_sems q I) as Hs. pose proof (inv_max q I) as Hm. clear Hpc. unfold addKey in *.
  destruct (semR q key) eqn:E; [done|]. cbn in *.
  split; cbn; [done| | |done|apply (inv_fifo q I)|apply (inv_results q I)].
  - intros k. destruct (decide (k = key)) as [->|Hne]; [by rewrite !fn_lookup_insert|by rewrite !fn_lookup_insert_ne].
  - intros k. specialize (Hk k). unfold key_ok, counts, queue_len, queue_at in *. cbn.
    destruct (decide (k = key)) as [->|Hne].
    + rewrite E in Hk. destruct Hk as (Hq & H1 & H2). rewrite fn_lookup_insert, Hq, H1, H2. cbn.
      exists 0, (max_size q - 1). rewrite fn_lookup_insert, fn_lookup_insert_ne, fn_lookup_insert by congruence.
      repeat (split; [done|]). lia.
    + rewrite fn_lookup_insert_ne by done. destruct (semR q k); [|done].
      destruct Hk as (r & w & Er & Ew & Hc). exists r, w. rewrite !fn_lookup_insert_ne by congruence. done.
Qed.

Lemma queue_at_insert q k v l k' : collection q = <[k := l]> v -> queue_at q k' = if decide (k = k') then l else default [] (v !! k').
Proof.
  intros E. unfold queue_at. rewrite E. destruct (decide (k = k')) as [->|H]; [by rewrite lookup_insert_eq|by rewrite lookup_insert_ne].
Qed.

(** What a thread that has added its key finds. *)
Lemma key_found q k : queue_inv q -> is_Some (semR q k) ->
  exists g r w, semR q k = Some g /\ sem_of false k q = Ret (k, g, false) /\ sem_of true k q = Ret (k, g, true)
  /\ sems q (k, g, false) = Some r /\ sems q (k, g, true) = Some w /\ counts q k r w.
Proof.
  intros I [g Hg]. pose proof (inv_key q I k) as Hk. unfold key_ok in Hk. rewrite Hg in Hk.
  destruct Hk as (r & w & Er & Ew & Hc). exists g, r, w. unfold sem_of. by rewrite (inv_sems q I), Hg.
Qed.

(** An operation of one semaphore: what a thread takes from it, or gives to it, it has
    taken or given in the tally. *)
Lemma sem_action_inv q t p p' k g (b : bool) n n' :
  queue_inv q -> threads q !! t = Some p -> semR q k = Some g -> sems q (k, g, b) = Some n -> 0 <= n' ->
  (forall k', k' <> k -> reading k' p' = reading k' p /\ writing k' p' = writing k' p) ->
  (if b then n' + writing k p' = n + writing k p /\ reading k p' = reading k p
   else n' + reading k p' = n + reading k p /\ writing k p' = writing k p) ->
  pc_ok q p' -> queue_inv (set_pc t p' (set_sem (k, g, b) (Some n') q)).
Proof.
  intros I Ht Hg Hn Hn' Hother Hkey Hp.
  apply (action_inv q _ t p p' k g); try done; [| | |apply (inv_fifo q I)|apply (inv_results q I)].
  - intros k' Hk. by destruct (Hother k' Hk).
  - intros k' g' b' Hk. cbn. by rewrite fn_lookup_insert_ne by congruence.
  - intros r w Er Ew (? & ? & ? & ?). unfold queue_len, queue_at. cbn. destruct b.
    + exists r, n'. rewrite fn_lookup_insert, fn_lookup_insert_ne by congruence. assert (w = n) as -> by congruence.
      repeat (split; [done|]). lia.
    + exists n', w. rewrite fn_lookup_insert, fn_lookup_insert_ne by congruence. assert (r = n) as -> by congruence.
      repeat (split; [done|]). lia.
Qed.

Lemma log_inv q r v : r.2 = Some v -> queue_inv q -> queue_inv (log_result r q).
Proof.
  intros Hr I. destruct I as [H0 H1 H2 H3 H4 H5]. split; try done. cbn.
  intros t k o [Hin|Hin]%elem_of_app; [by apply (H5 t k)|].
  apply list_elem_of_singleton in Hin as <-. cbn in Hr. rewrite Hr. by eexists.
Qed.

Lemma queue_at_set q' (q : gmap Z (list T)) k l k' : collection q' = <[k := l]> q ->
  queue_at q' k' = if decide (k = k') then l else default [] (q !! k').
Proof.
  intros E. unfold queue_at. rewrite E. destruct (decide (k = k')) as [->|H]; [by rewrite lookup_insert_eq|by rewrite lookup_insert_ne].
Qed.

Lemma write_inv q t k v : queue_inv q -> threads q !! t = Some (PutWrite k v) -> is_Some (semR q k) ->
  queue_inv (set_pc t (PutNotify k) (write k v q)).
Proof.
  intros I Ht Hk. destruct (key_found q k I Hk) as (g & _ & _ & Hg & _).
  set (q' := set_pc t (PutNotify k) (write k v q)).
  assert (forall k', queue_at q' k' = if decide (k = k') then queue_at q k ++ [v] else queue_at q k') as Hq
    by (intros k'; by rewrite (queue_at_set q' (collection q) k (queue_at q k ++ [v])) by done).
  apply (action_inv q q' t (PutWrite k v) (PutNotify k) k g); try done; [| | |apply (inv_results q I)].
  - intros k' Hne. rewrite Hq, decide_False by done. cbn. by rewrite (proj2 (Z.eqb_neq k' k)).
  - intros r w Er Ew (? & ? & ? & ?). exists r, w. unfold queue_len. rewrite Hq, decide_True, length_app by done. cbn. rewrite Z.eqb_refl.
    repeat (split; [done|]). lia.
  - intros k'. rewrite Hq. cbn. pose proof (inv_fifo q I k') as Hf. destruct (decide (k = k')) as [->|Hne].
    + by rewrite fn_lookup_insert, <- Hf, app_assoc.
    + by rewrite fn_lookup_insert_ne.
Qed.

Lemma read_inv q t k : queue_inv q -> threads q !! t = Some (GetRead k) -> is_Some (semR q k) ->
  exists v q', read k q = (Some v, q') /\ queue_inv (set_pc t (GetNotify k v) q').
Proof.
  intros I Ht Hk. destruct (key_found q k I Hk) as (g & r0 & w0 & Hg & _ & _ & _ & _ & (Hr0 & _ & Hc & _)).
  pose proof (tally_in (reading k) (threads q) t _ (reading_nonneg k) Ht) as H1. cbn in H1. rewrite Z.eqb_refl in H1.
  unfold read, queue_len in *. destruct (queue_at q k) as [|v l] eqn:Eq; [cbn in Hc; lia|]. cbn [head tail].
  eexists v, _. split; [done|]. match goal with |- queue_inv ?x => set (q' := x) end.
  assert (forall k', queue_at q' k' = if decide (k = k') then l else queue_at q k') as Hq
    by (intros k'; by rewrite (queue_at_set q' (collection q) k l) by done).
  apply (action_inv q q' t (GetRead k) (GetNotify k v) k g); try done; [| | |apply (inv_results q I)].
  - intros k' Hne. rewrite Hq, decide_False by done. cbn. by rewrite (proj2 (Z.eqb_neq k' k)).
  - intros r w Er Ew (? & ? & ? & ?). exists r, w. unfold queue_len. rewrite Hq, Eq, decide_True by done. cbn. rewrite Z.eqb_refl.
    repeat (split; [done|]). lia.
  - intros k'. rewrite Hq. cbn. pose proof (inv_fifo q I k') as Hf. destruct (decide (k = k')) as [->|Hne].
    + by rewrite fn_lookup_insert, <- Hf, Eq, <- app_assoc.
    + by rewrite fn_lookup_insert_ne.
Qed.

Ltac other_keys := intros k' Hk'; cbn; rewrite ?(proj2 (Z.eqb_neq _ _)) by done; done.

(** In every action there is no undefined behaviour, and the invariant holds after it. *)
Lemma advance_inv t q o : queue_inv q -> advance t q = Some o -> exists q', o = Ret q' /\ queue_inv q'.
Proof.
  intros I E. unfold advance in E. destruct (threads q !! t) as [p|] eqn:Ht; [|done].
  pose proof (inv_pc q I t p Ht) as Hp. destruct p; cbn in Hp; try done; try destruct Hp as (g0 & Hg0 & ->);
    try (destruct (key_found q key I ltac:(done || by eexists)) as (g & r & w & Hg & Fr & Fw & Er & Ew & Hc); pose proof Hc as (Hr & Hw & _));
    try (rewrite Hg0 in Hg; injection Hg as ->; rename Hg0 into Hg);
    unfold sem_wait, sem_notify in E; rewrite ?Fr, ?Fw, ?Er, ?Ew in E; cbn [mbind outcome_bind] in E; rewrite ?Er, ?Ew in E.
  - injection E as <-. eexists. split; [done|]. apply (move_inv _ t (PutAdd key value)); [by apply addKey_inv| |done|apply addKey_some].
    unfold addKey. by destruct (semR q key).
  - injection E as <-. eexists. split; [done|]. apply (move_inv _ t (PutLook key value)); try done. by exists g.
  - destruct (Z.eqb_spec w 0); [done|]. injection E as <-. eexists. split; [done|].
    apply (sem_action_inv q t _ _ key g true w (w - 1) I Ht Hg Ew); [lia|other_keys| |by exists g].
    cbn. rewrite Z.eqb_refl. lia.
  - injection E as <-. eexists. split; [done|]. by apply write_inv.
  - injection E as <-. eexists. split; [done|].
    apply (sem_action_inv q t _ _ key g false r (r + 1) I Ht Hg Er); [lia|other_keys| |done].
    cbn. rewrite Z.eqb_refl. lia.
  - injection E as <-. eexists. split; [done|]. apply (move_inv _ t (GetAdd key)); [by apply addKey_inv| |done|apply addKey_some].
    unfold addKey. by destruct (semR q key).
  - injection E as <-. eexists. split; [done|]. apply (move_inv _ t (GetLook key)); try done. by exists g.
  - destruct (Z.eqb_spec r 0); [done|]. injection E as <-. eexists. split; [done|].
    apply (sem_action_inv q t _ _ key g false r (r - 1) I Ht Hg Er); [lia|other_keys| |by exists g].
    cbn. rewrite Z.eqb_refl. lia.
  - destruct (read_inv q t key I Ht Hp) as (v & q' & Erd & I'). rewrite Erd in E. injection E as <-. by eexists.
  - injection E as <-. eexists. split; [done|]. apply (log_inv (set_pc t Idle (set_sem (key, g, true) (Some (w + 1)) q)) (t, key, Some value) value); [done|].
    apply (sem_action_inv q t _ _ key g true w (w + 1) I Ht Hg Ew); [lia|other_keys| |done].
    cbn. rewrite Z.eqb_refl. lia.
Qed.

Lemma use_step_inv q q' : queue_inv q -> use_step q q' -> queue_inv q'.
Proof.
  assert (forall t p q', queue_inv q -> call t p q = Some q' -> (forall k, reading k p = 0 /\ writing k p = 0) -> pc_ok q p -> queue_inv q') as Hcall.
  { intros t p q'' I E Hp Hok. unfold call in E. destruct (threads q !! t) as [[]|] eqn:Ht; try done. injection E as <-.
    by apply (move_inv q t Idle). }
  intros I [t k v q'' E|t k q'' E|t q'' E].
  - by apply (Hcall t (put k v)).
  - by apply (Hcall t (get k)).
  - destruct (advance_inv t q _ I E) as (? & [= ->] & I'). done.
Qed.

Lemma used_inv n q : used size n q -> queue_inv q.
Proof. intros Hr. revert q Hr. apply rtc_ind_r; [apply new_inv|]. intros a b _ Hs IH. by apply (use_step_inv a). Qed.

(** There is a bound on what waits. *)
Lemma queue_bound q : queue_inv q -> forall k, Z.of_nat (length (queue_at q k)) <= size - 1.
Proof.
  intros I k. pose proof (inv_key q I k) as Hk. pose proof (inv_max q I) as Hm. unfold key_ok in Hk. destruct (semR q k).
  - destruct Hk as (r & w & _ & _ & _ & Hw & _ & E). unfold queue_len in E.
    pose proof (tally_nonneg (writing k) (threads q) (writing_nonneg k)). lia.
  - destruct Hk as [-> _]. cbn. lia.
Qed.
End invariant.

(** ** What users of the queue rely on *)

Section guarantees.
Context {T : Type}.
Implicit Types (q : ConcurrentMapQueue T).


Lemma queue_at_rest size q : 1 <= size -> queue_inv size q -> (forall t, advance t q = None) ->
  forall t p, threads q !! t = Some p ->
  p = Idle \/ (exists k a, p = GetWait k a /\ queue_at q k = [])
  \/ (exists k v a, p = PutWait k v a /\ Z.of_nat (length (queue_at q k)) = size - 1).
Proof.
  intros Hs I Hstuck t p Ht.
  assert (forall t p, threads q !! t = Some p -> forall k, reading k p = 0 /\ writing k p = 0) as Hz.
  { intros t' p' Ht' k. specialize (Hstuck t'). unfold advance in Hstuck. rewrite Ht' in Hstuck. by destruct p'. }
  assert (forall k, tally (reading k) (threads q) = 0 /\ tally (writing k) (threads q) = 0) as Htally.
  { intros k. split; apply tally_zero; intros p' [t' Ht']%list_elem_of_lookup; by apply (Hz t'). }
  pose proof (inv_pc size q I t p Ht) as Hp. specialize (Hstuck t). unfold advance in Hstuck. rewrite Ht in Hstuck.
  destruct p; try done; [by left|right; right|right; left]; destruct Hp as (g & Hg & ->);
    destruct (key_found size q key I ltac:(by eexists)) as (g' & r & w & Eg & _ & _ & Er & Ew & (Hr0 & Hw0 & C1 & C2));
    rewrite Hg in Eg; injection Eg as <-; destruct (Htally key) as [T1 T2]; pose proof (inv_max size q I);
    unfold sem_wait, queue_len in *.
  - rewrite Ew in Hstuck. destruct (Z.eqb_spec w 0); [|done]. exists key, value, (key, g, true). split; [done|]. lia.
  - rewrite Er in Hstuck. destruct (Z.eqb_spec r 0); [|done]. exists key, (key, g, false). split; [done|].
    destruct (queue_at q key); [done|]. cbn in C1. lia.
Qed.

(** The queue does not deadlock by itself. When no thread can move, every thread
    is in no call, or in a [get] on a key whose queue is empty, or in a [put] on a
    key whose queue is full. *)
Theorem queue_progress size n q : 1 <= size -> used size n q -> (forall t, advance t q = None) ->
  forall t p, threads q !! t = Some p ->
  p = Idle \/ (exists k a, p = GetWait k a /\ queue_at q k = [])
  \/ (exists k v a, p = PutWait k v a /\ Z.of_nat (length (queue_at q k)) = size - 1).
Proof. intros Hs Hr. apply queue_at_rest; [done|]. by apply (used_inv size Hs n). Qed.

(** Running [eraseKey] without interruption. *)
Lemma run_step q t q' : advance t q = Some (Ret q') -> queue_step q q'.
Proof. intros E. apply step_use. by apply (use_advance q t). Qed.

Lemma thread_set t p q : (t < length (threads q))%nat -> threads (set_pc t p q) !! t = Some p.
Proof. intros. cbn. by rewrite list_lookup_insert_eq. Qed.

Lemma erase_runs size q t k : queue_inv size q -> threads q !! t = Some Idle -> is_Some (semR q k) ->
  exists g q', semR q k = Some g /\ rtc queue_step q q' /\ threads q' = <[t := Idle]> (threads q)
  /\ semR q' k = None /\ semW q' k = None /\ sems q' (k, g, false) = None /\ sems q' (k, g, true) = None
  /\ collection q' = collection q.
Proof.
  intros I Ht Hk. destruct (key_found size q k I Hk) as (g & r & w & Hg & Fr & Fw & Er & Ew & _). exists g.
  assert (t < length (threads q))%nat as Hl by (by apply lookup_lt_Some in Ht).
  eexists. split; [done|]. split.
  { eapply rtc_l; [apply (step_erase _ t k); unfold call; by rewrite Ht|].
    eapply rtc_l; [apply (run_step _ t); unfold advance; rewrite thread_set by done; unfold eraseKey; cbn iota beta;
      change (sem_of ?b k (set_pc t ?p q)) with (sem_of b k q); rewrite Fr, Fw; cbn [mbind outcome_bind];
      unfold sem_unblockAll; cbn [sems set_pc]; rewrite Er; cbn [mbind outcome_bind]; reflexivity|].
    eapply rtc_l; [apply (run_step _ t); unfold advance; rewrite thread_set by (cbn; by rewrite length_insert); reflexivity|].
    eapply rtc_l; [apply (run_step _ t); unfold advance; rewrite thread_set by (cbn; by rewrite !length_insert); reflexivity|].
    eapply rtc_l; [apply (run_step _ t); unfold advance; rewrite thread_set by (cbn; by rewrite !length_insert);
      unfold sem_delete; cbn [sems set_pc set_sem erase_semR erase_semW]; rewrite fn_lookup_insert; cbn [mbind outcome_bind]; reflexivity|].
    eapply rtc_l; [apply (run_step _ t); unfold advance; rewrite thread_set by (cbn; by rewrite !length_insert);
      unfold sem_delete; cbn [sems set_pc set_sem erase_semR erase_semW]; rewrite !fn_lookup_insert_ne, Ew by congruence;
      cbn [mbind outcome_bind]; reflexivity|].
    apply rtc_refl. }
  cbn. rewrite !list_insert_insert_eq, !fn_lookup_insert. repeat (split; [done|]).
  rewrite fn_lookup_insert_ne, fn_lookup_insert by congruence. done.
Qed.

(** C40: erasing a key is not safe while a consumer is in [get] on it, which is what
    it is for. From every state of a queue in use in which a thread waits in [get] and
    another is free to erase the key, the erasing thread can run to its end before
    the consumer wakes: the consumer then wakes in a deleted semaphore, and the
    messages of the key are still in the queue. *)
Theorem eraseKey_unsafe size n q t c k a : 1 <= size -> used size n q ->
  threads q !! t = Some Idle -> threads q !! c = Some (GetWait k a) ->
  exists q', rtc queue_step q q' /\ threads q' !! t = Some Idle /\ semR q' k = None
  /\ queue_at q' k = queue_at q k /\ advance c q' = Some UB.
Proof.
  intros Hs Hr Ht Hc. pose proof (used_inv size Hs n q Hr) as I.
  pose proof (inv_pc size q I c _ Hc) as (g & Hg & ->).
  destruct (erase_runs size q t k I Ht ltac:(by eexists)) as (g' & q' & Hg' & Hrun & Hth & H1 & _ & H2 & _ & H3).
  rewrite Hg in Hg'. injection Hg' as <-. exists q'. split; [done|].
  assert (t <> c) as Hne by (intros ->; congruence).
  assert (t < length (threads q))%nat as Hl by (by apply lookup_lt_Some in Ht).
  rewrite Hth, list_lookup_insert_eq by done. split; [done|]. split; [done|].
  split; [unfold queue_at; by rewrite H3|].
  unfold advance. rewrite Hth, list_lookup_insert_ne, Hc by done. unfold sem_wait. by rewrite H2.
Qed.
End guarantees.

(** ** One consumer per key *)

Section consumer.
Context {T : Type}.
Implicit Types (q : ConcurrentMapQueue T) (p : pc T).

(** In a [get] on the key. *)
Definition getting (k : Z) p : Prop :=
  match p with GetAdd k' | GetLook k' | GetWait k' _ | GetRead k' | GetNotify k' _ => k' = k | _ => False end.

(** Executions in which only the thread [c] calls [get] on the key [k]. *)
Inductive consumer_step (k : Z) (c : nat) q : ConcurrentMapQueue T -> Prop :=
| consumer_put t k' v q' : call t (put k' v) q = Some q' -> consumer_step k c q q'
| consumer_get t k' q' : (k' = k -> t = c) -> call t (get k') q = Some q' -> consumer_step k c q q'
| consumer_advance t q' : advance t q = Some (Ret q') -> consumer_step k c q q'.

(** The values that [get] has returned, and the one it is about to return. *)
Definition returned (k : Z) (rs : list (nat * Z * option T)) : list T :=
  omap (fun r => if r.1.2 =? k then r.2 else None) rs.
Definition in_flight (k : Z) (o : option (pc T)) : list T :=
  match o with Some (GetNotify k' v) => if k' =? k then [v] else [] | _ => [] end.

Definition consumer_inv (k : Z) (c : nat) q : Prop :=
  (forall t p, threads q !! t = Some p -> getting k p -> t = c)
  /\ taken q k = returned k (results q) ++ in_flight k (threads q !! c).

(** What an action does to the record of takes and results. *)
Lemma advance_effect size t q q' k : queue_inv size q -> advance t q = Some (Ret q') ->
  exists p p', threads q !! t = Some p /\ threads q' = <[t := p']> (threads q) /\ (getting k p' -> getting k p)
  /\ ((taken q' k = taken q k /\ results q' = results q /\ in_flight k (Some p) = [] /\ in_flight k (Some p') = [])
      \/ (exists v, taken q' k = taken q k ++ [v] /\ results q' = results q /\ getting k p
           /\ in_flight k (Some p) = [] /\ in_flight k (Some p') = [v])
      \/ (taken q' k = taken q k /\ returned k (results q') = returned k (results q) ++ in_flight k (Some p)
           /\ in_flight k (Some p') = [] /\ (in_flight k (Some p) <> [] -> getting k p))).
Proof.
  intros I E. unfold advance in E. destruct (threads q !! t) as [p|] eqn:Ht; [|done]. exists p.
  pose proof (inv_pc size q I t p Ht) as Hp.
  destruct p; cbn in Hp; try done; try destruct Hp as (g0 & Hg0 & ->);
    try (destruct (key_found size q key I ltac:(done || by eexists)) as (g & r & w & Hg & Fr & Fw & Er & Ew & Hc));
    try (rewrite Hg0 in Hg; injection Hg as ->);
    unfold sem_wait, sem_notify in E; rewrite ?Fr, ?Fw, ?Er, ?Ew in E; cbn [mbind outcome_bind] in E; rewrite ?Er, ?Ew in E.
  1-8: repeat (destruct (Z.eqb _ 0); [done|]); injection E as <-; eexists; split; [done|];
    (split; [unfold addKey; try destruct (semR q key); reflexivity|]); cbn [getting];
    (split; [tauto|left; unfold addKey; try destruct (semR q key); done]).
  - destruct (read_inv size q t key I Ht Hp) as (v & q'' & Erd & _). rewrite Erd in E. injection E as <-.
    unfold read in Erd. destruct (queue_at q key) as [|v' l]; [done|]. injection Erd as -> <-.
    eexists. split; [done|]. split; [reflexivity|]. cbn [getting]. split; [tauto|]. cbn. destruct (Z.eqb_spec key k) as [->|Hne].
    + right; left. exists v. by rewrite fn_lookup_insert.
    + left. by rewrite fn_lookup_insert_ne.
  - injection E as <-. eexists. split; [done|]. split; [reflexivity|]. split; [done|]. right; right. cbn.
    unfold returned. rewrite omap_app. cbn. by destruct (Z.eqb_spec key k).
Qed.

Lemma consumer_step_inv size k c q q' :
  1 <= size -> queue_inv size q -> consumer_inv k c q -> consumer_step k c q q' -> consumer_inv k c q'.
Proof.
  intros Hs I [Hc Hf].
  assert (forall t p q', call t p q = Some q' -> (getting k p -> t = c) -> in_flight k (Some p) = [] -> consumer_inv k c q') as Hcall.
  { clear q'. intros t p q' E Hg Hin. unfold call in E. destruct (threads q !! t) as [[]|] eqn:Ht; try done. injection E as <-.
    assert (t < length (threads q))%nat by (by apply lookup_lt_Some in Ht). split; cbn.
    - intros t' p' [[<- [-> _]]|[_ H']]%list_lookup_insert_Some ?; [by apply Hg|by apply (Hc t' p')].
    - rewrite Hf. f_equal. destruct (decide (t = c)) as [->|Hne]; [|by rewrite list_lookup_insert_ne].
      by rewrite list_lookup_insert_eq, Ht. }
  intros [t k' v q'' E|t k' q'' Hk E|t q'' E].
  - by apply (Hcall t (put k' v) q'').
  - by apply (Hcall t (get k') q'').
  - destruct (advance_effect size t q _ k I E) as (p & p' & Ht & Hth & Hg & Heff).
    assert (t < length (threads q))%nat by (by apply lookup_lt_Some in Ht).
    assert (in_flight k (threads q'' !! c) = if decide (t = c) then in_flight k (Some p') else in_flight k (threads q !! c)) as Hin.
    { rewrite Hth. destruct (decide (t = c)) as [->|Hne]; [by rewrite list_lookup_insert_eq|by rewrite list_lookup_insert_ne]. }
    split.
    + intros t' p''. rewrite Hth. intros [[<- [-> _]]|[_ H']]%list_lookup_insert_Some Hgt; [by apply (Hc t p), Hg|by apply (Hc t' p'')].
    + rewrite Hin.
      assert (getting k p -> t = c) as Hown by (intros; by apply (Hc t p)).
      destruct (decide (t = c)) as [<-|Hne]; [rewrite Ht in Hf|].
      * destruct Heff as [(-> & -> & E1 & ->)|[(v & -> & -> & _ & E1 & ->)|(-> & -> & -> & _)]]; rewrite Hf, ?E1, ?app_nil_r; done.
      * destruct Heff as [(-> & -> & _)|[(v & _ & _ & G & _)|(-> & -> & _ & G)]]; [done|by destruct Hne; apply Hown|].
        rewrite Hf. destruct (in_flight k (Some p)) eqn:Ei; [by rewrite app_nil_r|]. destruct Hne. by apply Hown, G.
Qed.

(** A single consumer gets the messages of its key in order. In every execution in
    which only one thread calls [get] on the key, what its calls have returned, what
    the call in progress has taken, and what is in the queue are together, in this
    order, exactly what was written: nothing is lost, repeated or reordered. *)
Theorem single_consumer_order size n k c q :
  1 <= size -> rtc (consumer_step k c) (newConcurrentMapQueue size n) q ->
  returned k (results q) ++ in_flight k (threads q !! c) ++ queue_at q k = written q k.
Proof.
  intros Hs Hr. assert (queue_inv size q /\ consumer_inv k c q) as [I [_ Hf]].
  { revert q Hr. apply rtc_ind_r.
    - split; [by apply new_inv|]. split; cbn.
      + intros t p H. by apply lookup_replicate_1 in H as [-> _].
      + by destruct (replicate n Idle !! c) eqn:E; [apply lookup_replicate_1 in E as [-> _]|].
    - intros a b _ Hst [I Hc]. split; [|by apply (consumer_step_inv size k c a)].
      apply (use_step_inv size Hs a); [done|]. destruct Hst; [by eapply use_put|by eapply use_get|by eapply use_advance]. }
  by rewrite app_assoc, <- Hf, (inv_fifo size q I k).
Qed.
End consumer.

(** ** Executions by a schedule *)

Section schedule.
Context {T : Type}.
Implicit Types (q : ConcurrentMapQueue T).

Inductive action : Type := CallPut (t : nat) (key : Z) (value : T) | CallGet (t : nat) (key : Z) | Run (t : nat).

Definition act (a : action) q : option (ConcurrentMapQueue T) :=
  match a with
  | CallPut t key value => call t (put key value) q
  | CallGet t key => call t (get key) q
  | Run t => match advance t q with Some (Ret q') => Some q' | _ => None end
  end.

(** The state after the actions, as far as they are possible. *)
Fixpoint follow (l : list action) q : bool * ConcurrentMapQueue T :=
  match l with
  | [] => (true, q)
  | a :: l' => match act a q with Some q' => follow l' q' | None => (false, q) end
  end.

Lemma act_use a q q' : act a q = Some q' -> use_step q q'.
Proof.
  destruct a as [t k v|t k|t]; cbn; intros E; [by eapply use_put|by eapply use_get|].
  destruct (advance t q) as [[]|] eqn:E'; try done. injection E as ->. by eapply use_advance.
Qed.

Lemma follow_use l q : (follow l q).1 = true -> rtc use_step q (follow l q).2.
Proof.
  revert q. induction l as [|a l IH]; intros q H; cbn in *; [done|]. destruct (act a q) as [q'|] eqn:E; [|done].
  eapply rtc_l; [by eapply act_use|]. by apply IH.
Qed.

Definition get_by (k : Z) (c : nat) (a : action) : bool :=
  match a with CallGet t k' => negb (k' =? k) || Nat.eqb t c | _ => true end.

Lemma follow_consumer k c l q : forallb (get_by k c) l = true -> (follow l q).1 = true ->
  rtc (consumer_step k c) q (follow l q).2.
Proof.
  revert q. induction l as [|a l IH]; intros q Hb H; cbn in *; [done|]. apply andb_prop in Hb as [Hg Hb].
  destruct (act a q) as [q'|] eqn:E; [|done]. eapply rtc_l; [|by apply IH]. destruct a as [t k' v|t k'|t]; cbn in E, Hg.
  - by eapply consumer_put.
  - eapply consumer_get; [|done]. intros ->. rewrite Z.eqb_refl in Hg. by apply Nat.eqb_eq.
  - destruct (advance t q) as [[]|] eqn:E'; try done. injection E as ->. by eapply consumer_advance.
Qed.
End schedule.
Arguments action : clear implicits.

(** Thread 0 has put a message for key 5, thread 1 is about to take it, and thread 2
    waits for one of key 6. *)
Definition sample_actions : list (action Z) :=
  [CallPut 0 5 42; Run 0; Run 0; Run 0; CallGet 1 5; Run 1; Run 1; Run 0; Run 0; Run 1; CallGet 2 6; Run 2; Run 2].
Definition sample_queue : ConcurrentMapQueue Z := (follow sample_actions (newConcurrentMapQueue 128 4)).2.

Lemma sample_used : used 128 4 sample_queue.
Proof. apply (follow_use sample_actions). vm_compute. reflexivity. Qed.


(** All that is left to thread 2 is to wait. *)
Definition idle_queue : ConcurrentMapQueue Z := (follow (sample_actions ++ [Run 1; Run 1]) (newConcurrentMapQueue 128 4)).2.

Lemma queue_progress_witness :
  let p : pc Z := GetWait 6 (6, 1%nat, false) in
  p = Idle \/ (exists k a, p = GetWait k a /\ queue_at idle_queue k = [])
  \/ (exists k v a, p = PutWait k v a /\ Z.of_nat (length (queue_at idle_queue k)) = 128 - 1).
Proof.
  intros p. apply (queue_progress 128 4 idle_queue ltac:(lia)) with (t := 2%nat).
  - apply (follow_use (sample_actions ++ [Run 1; Run 1])). vm_compute. reflexivity.
  - intros t. do 4 (destruct t as [|t]; [vm_compute; reflexivity|]). reflexivity.
  - vm_compute. reflexivity.
Defined.

Lemma eraseKey_unsafe_witness :
  exists q', rtc queue_step sample_queue q' /\ threads q' !! 3%nat = Some Idle /\ semR q' 6 = None
  /\ queue_at q' 6 = queue_at sample_queue 6 /\ advance 2 q' = Some UB.
Proof.
  apply (eraseKey_unsafe 128 4 sample_queue 3 2 6 (6, 1%nat, false) ltac:(lia) sample_used); vm_compute; reflexivity.
Defined.

Lemma single_consumer_order_witness :
  returned 5 (results idle_queue) ++ in_flight 5 (threads idle_queue !! 1%nat) ++ queue_at idle_queue 5 = written idle_queue 5
  /\ returned 5 (results idle_queue) = [42].
Proof.
  split; [|vm_compute; reflexivity].
  apply (single_consumer_order 128 4 5 1 idle_queue ltac:(lia)).
  apply (follow_consumer 5 1 (sample_actions ++ [Run 1; Run 1])); vm_compute; reflexivity.
Defined.

(** Two threads are enough for a data race: while one [get] takes the second message, a
    [put] adds the third, and both access the queue without a lock. *)
Definition racing_actions : list (action Z) :=
  [CallPut 0 5 1; Run 0; Run 0; Run 0; Run 0; Run 0; CallGet 1 5; Run 1; Run 1; Run 1; CallPut 0 5 2; Run 0; Run 0; Run 0].

Example queue_accesses_race : exists q, used 128 2 q /\ races (T := Z) q 0 1 /\ may_end q 0 UB.
Proof.
  set (q := (follow racing_actions (newConcurrentMapQueue 128 2)).2).
  assert (races (T := Z) q 0 1) as Hr.
  { split; [done|]. exists (PutWrite 5 2), (GetRead 5). split; [vm_compute; reflexivity|]. split; vm_compute; reflexivity. }
  exists q. split; [apply follow_use; vm_compute; reflexivity|]. split; [done|]. by apply (ends_in_race _ _ 1%nat).
Qed.
