(* ===== verification/Logger.v ===== *)
(** The logger: [EasyLogger] of [src/elog.cpp], which every component writes to.

    The library below it ([easylogging++]) is a parameter: it writes a message in
    some number of pieces. Several threads log at the same time; the mutex of the
    logger keeps the pieces of a message together. *)
From stdpp Require Import relations.
From S2P Require Import Prelude.

Inductive log_level : Type := INFO | ERROR | WARNING.

(** The pieces of [LOG(level) << text]. *)
Class LogLibrary := pieces : log_level -> list Z -> list (list Z).

(** ** What is written *)

Definition MAX_LOG_MSG_LENGTH : nat := 500.

Definition info_text (message : list Z) : list Z :=
  if (length message <=? MAX_LOG_MSG_LENGTH)%nat then message
  else take MAX_LOG_MSG_LENGTH message ++ str "...".

(** [info] cuts its message; [error] and [warning] do not. *)
Definition log_text (level : log_level) (message : list Z) : list Z :=
  match level with INFO => info_text message | ERROR | WARNING => message end.

Lemma info_text_bounded message : (length (info_text message) <= MAX_LOG_MSG_LENGTH + 3)%nat.
Proof.
  unfold info_text. destruct (Nat.leb_spec (length message) MAX_LOG_MSG_LENGTH); [lia|].
  rewrite length_app, length_take. change (length (str "...")) with 3%nat. lia.
Qed.

Section logger.
Context `{Lib : LogLibrary}.

(** ** Threads that log *)

(** A thread is in no call, waits for [_mtx], or holds it and has pieces left to write. *)
Inductive log_pc : Type :=
| LogIdle
| LogWaiting (level : log_level) (message : list Z)
| LogWriting (level : log_level) (message : list Z) (todo : list (list Z)).

(** [logged] records the calls that have ended. *)
Record EasyLogger : Type := {
  log_mtx : option nat;
  log_threads : list log_pc;
  log_output : list (list Z);
  logged : list (log_level * list Z);
}.

Definition new_logger (threads : nat) : EasyLogger := {|
  log_mtx := None; log_threads := replicate threads LogIdle; log_output := []; logged := [] |}.

Definition set_thread (t : nat) (pc : log_pc) (s : EasyLogger) : EasyLogger := {|
  log_mtx := log_mtx s; log_threads := <[t := pc]> (log_threads s); log_output := log_output s; logged := logged s |}.

(** [_mtx.lock()]; a piece of the output; [_mtx.unlock()]. *)
Inductive log_move : EasyLogger -> EasyLogger -> Prop :=
| log_lock t level message s :
    log_threads s !! t = Some (LogWaiting level message) -> log_mtx s = None ->
    log_move s {| log_mtx := Some t;
                  log_threads := <[t := LogWriting level message (pieces level (log_text level message))]> (log_threads s);
                  log_output := log_output s; logged := logged s |}
| log_write t level message piece todo s :
    log_threads s !! t = Some (LogWriting level message (piece :: todo)) ->
    log_move s {| log_mtx := log_mtx s; log_threads := <[t := LogWriting level message todo]> (log_threads s);
                  log_output := log_output s ++ [piece]; logged := logged s |}
| log_unlock t level message s :
    log_threads s !! t = Some (LogWriting level message []) ->
    log_move s {| log_mtx := None; log_threads := <[t := LogIdle]> (log_threads s);
                  log_output := log_output s; logged := logged s ++ [(level, message)] |}.

Inductive log_step : EasyLogger -> EasyLogger -> Prop :=
| log_call t level message s : log_threads s !! t = Some LogIdle -> log_step s (set_thread t (LogWaiting level message) s)
| log_go s s' : log_move s s' -> log_step s s'.

(** ** Messages stay together *)

Definition line (m : log_level * list Z) : list (list Z) := pieces m.1 (log_text m.1 m.2).

(** Only the thread that holds the mutex writes; what it has written of its message is
    at the end of the output. *)
Definition log_inv (s : EasyLogger) : Prop :=
  (forall t level message todo, log_threads s !! t = Some (LogWriting level message todo) -> log_mtx s = Some t)
  /\ match log_mtx s with
     | None => log_output s = mjoin (line <$> logged s)
     | Some t => exists level message written todo, log_threads s !! t = Some (LogWriting level message todo)
         /\ line (level, message) = written ++ todo /\ log_output s = mjoin (line <$> logged s) ++ written
     end.

Lemma new_logger_inv n : log_inv (new_logger n).
Proof. split; [|done]. intros t level message todo H. by apply lookup_replicate in H as [? _]. Qed.

Lemma log_move_inv s s' : log_move s s' -> log_inv s -> log_inv s'.
Proof.
  intros Hm [Hh Ho]. destruct Hm as [t level message s Ht Hf|t level message piece todo s Ht|t level message s Ht];
    (assert (t < length (log_threads s))%nat as Hlt by by apply lookup_lt_Some in Ht).
  - rewrite Hf in Ho. split; cbn.
    + intros t' l m todo H. destruct (decide (t = t')) as [->|Hne]; [done|].
      rewrite list_lookup_insert_ne in H by done. apply Hh in H. congruence.
    + exists level, message, [], (pieces level (log_text level message)). rewrite list_lookup_insert_eq, app_nil_r by done. done.
  - pose proof (Hh _ _ _ _ Ht) as Hf. rewrite Hf in Ho. destruct Ho as (l & m & written & todo' & Ht' & El & Eo).
    rewrite Ht in Ht'. injection Ht' as <- <- <-. split; cbn; rewrite Hf.
    + intros t' l m todo'' H. destruct (decide (t = t')) as [->|Hne]; [done|].
      rewrite list_lookup_insert_ne in H by done. apply Hh in H. congruence.
    + exists level, message, (written ++ [piece]), todo. rewrite list_lookup_insert_eq by done. split; [done|].
      rewrite Eo, <- !app_assoc. by rewrite El.
  - pose proof (Hh _ _ _ _ Ht) as Hf. rewrite Hf in Ho. destruct Ho as (l & m & written & todo' & Ht' & El & Eo).
    rewrite Ht in Ht'. injection Ht' as <- <- <-. split; cbn.
    + intros t' l m todo'' H. destruct (decide (t = t')) as [->|Hne]; [by rewrite list_lookup_insert_eq in H|].
      rewrite list_lookup_insert_ne in H by done. apply Hh in H. congruence.
    + rewrite Eo, fmap_app, join_app. cbn. rewrite El. by rewrite !app_nil_r.
Qed.

Lemma log_step_inv s s' : log_step s s' -> log_inv s -> log_inv s'.
Proof.
  intros Hs Hi. destruct Hs as [t level message s Ht|s s' Hm]; [|by apply (log_move_inv s)].
  destruct Hi as [Hh Ho]. assert (forall t' pc, log_threads s !! t' = Some pc -> pc <> LogIdle -> log_threads (set_thread t (LogWaiting level message) s) !! t' = Some pc) as Hk.
  { intros t' pc H Hne. cbn. rewrite list_lookup_insert_ne; [done|]. intros <-. congruence. }
  split; cbn [log_mtx set_thread log_output logged].
  - intros t' l m todo H. cbn in H. apply list_lookup_insert_Some in H as [(_ & [=] & _)|[_ H]]. by apply (Hh _ _ _ _ H).
  - destruct (log_mtx s) as [h|]; [|done]. destruct Ho as (l & m & written & todo & H & E). exists l, m, written, todo. split; [by apply Hk|done].
Qed.

Lemma logger_inv n s : rtc log_step (new_logger n) s -> log_inv s.
Proof.
  intros Hr. assert (forall s1 s2, rtc log_step s1 s2 -> log_inv s1 -> log_inv s2) as H; [|by apply (H _ _ Hr), new_logger_inv].
  induction 1 as [|s1 s2 s3 Hs _ IH]; [done|]. intros Hi. by apply IH, (log_step_inv s1).
Qed.

(** Messages of different threads are not mixed, and logging never blocks. In every
    state that any number of logging threads lead to, the output is the lines of the
    calls that have ended, in the order in which they ended, and, while a thread
    holds the mutex, the beginning of its line; and whenever a thread is in a call
    some thread can move. *)
Theorem lines_are_whole n s : rtc log_step (new_logger n) s ->
  (exists part, log_output s = mjoin (line <$> logged s) ++ part
     /\ match log_mtx s with
        | None => part = []
        | Some t => exists level message todo, log_threads s !! t = Some (LogWriting level message todo) /\ line (level, message) = part ++ todo
        end)
  /\ (forall t pc, log_threads s !! t = Some pc -> pc <> LogIdle -> exists s', log_move s s').
Proof.
  intros Hr. apply logger_inv in Hr as [Hh Ho]. split.
  - destruct (log_mtx s) as [t|].
    + destruct Ho as (level & message & written & todo & Ht & El & Eo). exists written. split; [done|]. by exists level, message, todo.
    + exists []. by rewrite app_nil_r.
  - intros t pc Ht Hne. destruct (log_mtx s) as [h|] eqn:Hm.
    + destruct Ho as (level & message & written & [|piece todo] & H & _); eexists; [by eapply log_unlock|by eapply log_write].
    + destruct pc as [|level message|level message todo]; [done|by eexists; eapply log_lock|]. apply Hh in Ht. congruence.
Qed.
End logger.

(** ** An example *)

(** A library that writes the level and the text apart. *)
#[local] Instance two_pieces : LogLibrary := fun level text =>
  [match level with INFO => str "INFO " | ERROR => str "ERROR " | WARNING => str "WARNING " end; text].

Definition after_one : EasyLogger := {|
  log_mtx := None; log_threads := [LogIdle; LogWaiting ERROR (str "no answer")]; log_output := [str "INFO "; str "hello"]; logged := [(INFO, str "hello")] |}.

Lemma after_one_reachable : rtc log_step (new_logger 2) after_one.
Proof.
  eapply rtc_l; [by apply (log_call 0 INFO (str "hello"))|].
  eapply rtc_l; [by apply (log_call 1 ERROR (str "no answer"))|].
  eapply rtc_l; [by apply log_go, (log_lock 0 INFO (str "hello"))|].
  do 2 (eapply rtc_l; [by eapply log_go, (log_write 0)|]).
  eapply rtc_l; [by eapply log_go, (log_unlock 0)|]. apply rtc_refl.
Qed.

Lemma lines_are_whole_witness :
  (exists part, log_output after_one = mjoin (line <$> logged after_one) ++ part /\ part = []) /\ exists s', log_move after_one s'.
Proof.
  destruct (lines_are_whole 2 after_one after_one_reachable) as [H Hm]. split; [exact H|].
  by apply (Hm 1%nat (LogWaiting ERROR (str "no answer"))).
Defined.
