(* ===== verification/JsonRpc.v ===== *)
(** The JSON-RPC client: [CJsonRpc] of [src/jsonrpc.cpp] and [src/jsonrpc.h].

    Threads of the application are in [request], one call each; one thread of the
    WebSocket client is in [handleMessage]. They run one action at a time, in any
    order: an action is a stretch of code under [_queryMtx], an operation of a
    condition variable, or an access to [_queries] without a lock. A wait on a
    condition variable may end by itself (time-out, or spuriously) at any moment.
    Updates are put into their queue without a wait; [Delivery] has the queue and its
    bound. Ids in messages are null or fit an [int]. Logging is left out.

    The last lines of [request] and the test in [handleMessage] access [_queries]
    without the lock: [data_race] says when that is undefined behaviour. *)
From stdpp Require Import gmap relations.
From S2P Require Import Prelude Json.

(** [j["key"]] *)
Definition member `{Doubles} (j : Json) (key : String.string) : Json := at_key j (str key).

Section rpc.
Context `{D : Doubles} (jsonrpcVersion : list Z).

(** ** Messages *)

Definition INT_MAX : Z := 2147483647.

(** [++_lastId] on an [unsigned int], and its value as an [int] *)
Definition getNextId (lastId : Z) : Z := u32 (lastId + 1).
Definition query_id (lastId : Z) : Z := i32 lastId.

(** The object that [request] sends. *)
Definition request_json (id : Z) (jsonMap : Json) : Json :=
  JObject [(str "id", JInt id); (str "jsonrpc", JString jsonrpcVersion);
           (str "method", member jsonMap "method"); (str "params", member jsonMap "params")].

(** [Json::parse(payload, err)]: null when the text is no JSON. *)
Definition parse_payload (payload : list Z) : Json := match parse STANDARD payload with POk j _ => j | _ => JNull end.

(** What [handleMessage] makes of a message, given the ids of the waiting requests. *)
Inductive routed : Type :=
| Ignored
| ToRequest (requestId : Z) (result : Json)
| ToSubscription (subscriptionId : Z) (json : Json)
| Unknown.

Definition route (waiting : Z -> bool) (payload : list Z) : outcome routed :=
  let json := parse_payload payload in
  requestId ← (if is_null (member json "id") then Ret 0 else int_value (member json "id"));
  subscriptionId ← (if is_null (member json "params") then Ret 0
                    else int_value (member (member json "params") "subscription"));
  Ret (if requestId =? INT_MAX then Ignored
       else if negb (requestId =? 0) && waiting requestId then ToRequest requestId (member json "result")
       else if negb (subscriptionId =? 0) then ToSubscription subscriptionId json
       else Unknown).

(** ** State *)

(** An element of [_queries]. Its [completionCV] is a local variable of the call of
    [request] by thread [owner]; [since] counts the answers stored before that call. *)
Record JsonRpcQuery : Type := { q_json : Json; q_owner : nat; q_since : nat }.

(** Where a thread is in [request]. [Returned] is the end of a call, before the
    thread goes on. *)
Inductive request_pc : Type :=
| Outside
| Registered (id : Z) (since : nat) (request : Json)
| Sent (id : Z) (since : nat)
| Waiting (id : Z) (since : nat)
| Woken (id : Z) (since : nat)
| Returned (id : Z) (since : nat) (result : outcome Json).

(** Where the receiving thread is in [handleMessage]. *)
Inductive receiver_pc : Type :=
| Listening
| Storing (id : Z) (result : Json)
| Notifying (owner : nat) (id : Z).

(** [answers] records the results stored, with the ids of their requests; [updates]
    the messages put into the queues of the subscriptions; [received] every message. *)
Record CJsonRpc : Type := {
  lastId : Z;
  queries : gmap Z JsonRpcQuery;
  connected : bool;
  sent : list (list Z);
  callers : list request_pc;
  receiver : receiver_pc;
  answers : list (Z * Json);
  updates : list (Z * Json);
  received : list (list Z);
}.

Definition newCJsonRpc (nthreads : nat) : CJsonRpc := {|
  lastId := 0; queries := ∅; connected := false; sent := []; callers := replicate nthreads Outside;
  receiver := Listening; answers := []; updates := []; received := [] |}.

Definition set_caller (t : nat) (p : request_pc) (s : CJsonRpc) : CJsonRpc := {|
  lastId := lastId s; queries := queries s; connected := connected s; sent := sent s; callers := <[t := p]> (callers s);
  receiver := receiver s; answers := answers s; updates := updates s; received := received s |}.
Definition set_receiver (r : receiver_pc) (s : CJsonRpc) : CJsonRpc := {|
  lastId := lastId s; queries := queries s; connected := connected s; sent := sent s; callers := callers s;
  receiver := r; answers := answers s; updates := updates s; received := received s |}.
Definition set_connected (b : bool) (s : CJsonRpc) : CJsonRpc := {|
  lastId := lastId s; queries := queries s; connected := b; sent := sent s; callers := callers s;
  receiver := receiver s; answers := answers s; updates := updates s; received := received s |}.

(** ** [request], action by action *)

(** The section under the lock. *)
Definition register (t : nat) (jsonMap : Json) (s : CJsonRpc) : CJsonRpc :=
  let n := getNextId (lastId s) in
  let id := query_id n in
  let since := length (answers s) in
  set_caller t (Registered id since (request_json id jsonMap))
    {| lastId := n; queries := <[id := {| q_json := JNull; q_owner := t; q_since := since |}]> (queries s);
       connected := connected s; sent := sent s; callers := callers s; receiver := receiver s; answers := answers s;
       updates := updates s; received := received s |}.

Definition send_text (text : list Z) (s : CJsonRpc) : CJsonRpc := {|
  lastId := lastId s; queries := queries s; connected := connected s; sent := sent s ++ [text]; callers := callers s;
  receiver := receiver s; answers := answers s; updates := updates s; received := received s |}.

Definition not_connected : exn := JsonRpcException (str "Not connected").

(** [_queries[id].json] is moved out and the element erased. *)
Definition take_result (t : nat) (id : Z) (since : nat) (s : CJsonRpc) : CJsonRpc :=
  let result := match queries s !! id with Some q => q_json q | None => JNull end in
  set_caller t (Returned id since (Ret result))
    {| lastId := lastId s; queries := delete id (queries s); connected := connected s; sent := sent s;
       callers := callers s; receiver := receiver s; answers := answers s; updates := updates s; received := received s |}.

(** ** [handleMessage], action by action *)

Definition is_waiting (s : CJsonRpc) (id : Z) : bool := bool_decide (is_Some (queries s !! id)).

Definition log_received (payload : list Z) (s : CJsonRpc) : CJsonRpc := {|
  lastId := lastId s; queries := queries s; connected := connected s; sent := sent s; callers := callers s;
  receiver := receiver s; answers := answers s; updates := updates s; received := received s ++ [payload] |}.

(** [_responseQueue->put(subscriptionId, json)] *)
Definition put_update (id : Z) (json : Json) (s : CJsonRpc) : CJsonRpc := {|
  lastId := lastId s; queries := queries s; connected := connected s; sent := sent s; callers := callers s;
  receiver := receiver s; answers := answers s; updates := updates s ++ [(id, json)]; received := received s |}.

Definition receive (payload : list Z) (s : CJsonRpc) : outcome CJsonRpc :=
  r ← route (is_waiting s) payload;
  let s := log_received payload s in
  Ret (match r with
       | ToRequest id result => set_receiver (Storing id result) s
       | ToSubscription id json => put_update id json s
       | Ignored | Unknown => s
       end).

(** [_queries[requestId].json = json["result"]]: without an element the operator makes
    one whose condition variable is indeterminate, and that is notified next. *)
Definition store_answer (id : Z) (result : Json) (s : CJsonRpc) : outcome CJsonRpc :=
  match queries s !! id with
  | Some q => Ret
      {| lastId := lastId s;
         queries := <[id := {| q_json := result; q_owner := q_owner q; q_since := q_since q |}]> (queries s);
         connected := connected s; sent := sent s; callers := callers s; receiver := Notifying (q_owner q) id;
         answers := answers s ++ [(id, result)]; updates := updates s; received := received s |}
  | None => UB
  end.

(** [completionCV->notify_all()]: the variable is gone once the call has ended. *)
Definition notify (t : nat) (id : Z) (s : CJsonRpc) : outcome CJsonRpc :=
  match callers s !! t with
  | Some (Registered id' _ _ | Sent id' _ | Woken id' _) => if id =? id' then Ret (set_receiver Listening s) else UB
  | Some (Waiting id' since) =>
      if id =? id' then Ret (set_caller t (Woken id' since) (set_receiver Listening s)) else UB
  | _ => UB
  end.

(** ** Executions *)

(** The actions that an undisturbed connection and a patient caller need. *)
Inductive patient_step (s : CJsonRpc) : outcome CJsonRpc -> Prop :=
| do_register t jsonMap : callers s !! t = Some Outside -> patient_step s (Ret (register t jsonMap s))
| do_send t id since request : callers s !! t = Some (Registered id since request) -> connected s = true ->
    patient_step s (Ret (set_caller t (Sent id since) (send_text (dump request) s)))
| do_wait t id since : callers s !! t = Some (Sent id since) -> patient_step s (Ret (set_caller t (Waiting id since) s))
| do_take t id since : callers s !! t = Some (Woken id since) -> patient_step s (Ret (take_result t id since s))
| do_leave t id since o : callers s !! t = Some (Returned id since o) -> patient_step s (Ret (set_caller t Outside s))
| do_receive payload : receiver s = Listening ->
    (forall id result, route (is_waiting s) payload = Ret (ToRequest id result) -> id ∉ (answers s).*1) ->
    route (is_waiting s) payload <> UB -> patient_step s (receive payload s)
| do_store id result : receiver s = Storing id result -> patient_step s (store_answer id result s)
| do_notify t id : receiver s = Notifying t id -> patient_step s (notify t id s)
| do_connect : patient_step s (Ret (set_connected true s)).

(** All actions: connections are lost, sending fails or throws, waits end by
    themselves, and nodes send what they want. *)
Inductive rpc_step (s : CJsonRpc) : outcome CJsonRpc -> Prop :=
| step_patient o : patient_step s o -> rpc_step s o
| step_refused t id since request : callers s !! t = Some (Registered id since request) -> connected s = false ->
    rpc_step s (Ret (set_caller t (Returned id since (Throw not_connected)) s))
| step_send_throws t id since request e : callers s !! t = Some (Registered id since request) -> connected s = true ->
    rpc_step s (Ret (set_caller t (Returned id since (Throw e)) s))
| step_send_lost t id since request : callers s !! t = Some (Registered id since request) ->
    rpc_step s (Ret (set_caller t (Sent id since) s))
| step_wait_ends t id since : callers s !! t = Some (Waiting id since) ->
    rpc_step s (Ret (set_caller t (Woken id since) s))
| step_receive payload : receiver s = Listening -> rpc_step s (receive payload s)
| step_disconnect : rpc_step s (Ret (set_connected false s)).

(** Executions of fewer than 2^31 requests, so that no id is used twice. *)
Definition patient : CJsonRpc -> CJsonRpc -> Prop :=
  rtc (fun s s' => patient_step s (Ret s') /\ lastId s < INT_MAX).
Definition reaches : CJsonRpc -> CJsonRpc -> Prop :=
  rtc (fun s s' => rpc_step s (Ret s') /\ lastId s < INT_MAX).

(** ** Every execution *)

(** The id of a call in progress, and the number of answers at its start. *)
Definition live (p : request_pc) : option (Z * nat) :=
  match p with
  | Registered id n _ | Sent id n | Waiting id n | Woken id n => Some (id, n)
  | Outside | Returned _ _ _ => None
  end.

(** A result is null, or an answer with this id stored from [n] on. *)
Definition answered (s : CJsonRpc) (id : Z) (n : nat) (j : Json) : Prop :=
  j = JNull \/ exists i, (n <= i)%nat /\ answers s !! i = Some (id, j).

(** A message with this id and this result has come. *)
Definition came (s : CJsonRpc) (id : Z) (j : Json) : Prop :=
  exists payload, payload ∈ received s /\ int_value (member (parse_payload payload) "id") = Ret id
    /\ member (parse_payload payload) "result" = j.

Record rpc_inv (s : CJsonRpc) : Prop := {
  inv_lastId : 0 <= lastId s;
  inv_queries : forall id q, queries s !! id = Some q ->
    0 < id <= lastId s /\ (q_since q <= length (answers s))%nat /\ answered s id (q_since q) (q_json q);
  inv_live : forall t p id n, callers s !! t = Some p -> live p = Some (id, n) ->
    exists q, queries s !! id = Some q /\ q_owner q = t /\ q_since q = n;
  inv_returned : forall t id n j, callers s !! t = Some (Returned id n (Ret j)) -> answered s id n j;
  inv_storing : forall id j, receiver s = Storing id j -> came s id j;
  inv_answers : forall id j, (id, j) ∈ answers s -> came s id j;
}.

Lemma new_rpc_inv n : rpc_inv (newCJsonRpc n).
Proof.
  assert (forall t p, replicate n Outside !! t = Some p -> p = Outside) as Hp by (intros t p H; by apply lookup_replicate_1 in H as [-> _]).
  split; cbn; [done|done| | |done|by intros id j H%elem_of_nil].
  - intros t p id m H. by rewrite (Hp t p H).
  - intros t id m j H. by apply Hp in H.
Qed.

Lemma came_mono s s' id j : (forall p, p ∈ received s -> p ∈ received s') -> came s id j -> came s' id j.
Proof. intros H (p & Hp & ?). exists p. split; [by apply H|done]. Qed.

(** A step that changes one thread, not its call, and nothing that the invariant speaks of. *)
Lemma caller_inv s s' t p p' :
  rpc_inv s -> callers s !! t = Some p -> callers s' = <[t := p']> (callers s) -> lastId s' = lastId s ->
  queries s' = queries s -> answers s' = answers s -> received s' = received s ->
  (forall id j, receiver s' = Storing id j -> receiver s = Storing id j) ->
  (forall i, live p' = Some i -> live p = Some i) ->
  (forall id n j, p' = Returned id n (Ret j) -> answered s id n j) -> rpc_inv s'.
Proof.
  intros I Ht Hc Hl Hq Ha Hm Hv Hp Hr. unfold answered. split; unfold answered, came; rewrite ?Hm.
  - rewrite Hl. apply (inv_lastId s I).
  - intros id q. unfold answered. rewrite Hl, Hq, Ha. apply (inv_queries s I).
  - intros t' p'' id n. rewrite Hc, Hq. intros [[<- [<- _]]|[_ H]]%list_lookup_insert_Some Hlive.
    + apply (inv_live s I t p); [done|by apply Hp].
    + by apply (inv_live s I t' p'').
  - intros t' id n j. rewrite Hc. unfold answered. rewrite Ha. intros [[<- [-> _]]|[_ H]]%list_lookup_insert_Some.
    + by apply Hr.
    + by apply (inv_returned s I t').
  - intros id j H. by apply (inv_storing s I), Hv.
  - rewrite Ha. apply (inv_answers s I).
Qed.

Lemma same_inv s s' : rpc_inv s -> callers s' = callers s -> lastId s' = lastId s -> queries s' = queries s ->
  answers s' = answers s -> (forall p, p ∈ received s -> p ∈ received s') ->
  (forall id j, receiver s' = Storing id j -> receiver s = Storing id j \/ came s' id j) -> rpc_inv s'.
Proof.
  intros [H1 H2 H3 H4 H5 H6] Hc Hl Hq Ha Hm Hv. split; unfold answered; rewrite ?Hc, ?Hl, ?Hq, ?Ha; try done.
  - intros id j [H|H]%Hv; [|done]. by apply (came_mono s), H5.
  - intros id j H. by apply (came_mono s), H6.
Qed.

Lemma query_id_small n : 0 <= n < INT_MAX -> getNextId n = n + 1 /\ query_id (getNextId n) = n + 1.
Proof. unfold INT_MAX. intros Hn. unfold getNextId, query_id. rewrite uwrap_small, swrap_small by lia. done. Qed.

Lemma register_inv t jsonMap s : rpc_inv s -> lastId s < INT_MAX -> callers s !! t = Some Outside ->
  rpc_inv (register t jsonMap s).
Proof.
  intros I Hs Ht. pose proof (inv_lastId s I) as H0. destruct (query_id_small (lastId s) ltac:(lia)) as [E1 E2].
  unfold register. rewrite E2, E1. set (id := lastId s + 1).
  assert (queries s !! id = None) as Hid.
  { destruct (queries s !! id) as [q|] eqn:E; [|done]. apply (inv_queries s I) in E. lia. }
  split; cbn; [lia| | | |apply (inv_storing s I)|apply (inv_answers s I)].
  - intros id' q. destruct (decide (id = id')) as [<-|Hne].
    + rewrite lookup_insert_eq. intros [= <-]. cbn. split; [lia|]. split; [lia|]. by left.
    + rewrite lookup_insert_ne by done. intros E. destruct (inv_queries s I id' q E) as (Hr & Hn & Ha). split; [lia|]. done.
  - intros t' p id' n [[<- [<- _]]|[_ H]]%list_lookup_insert_Some Hlive.
    + injection Hlive as <- <-. rewrite lookup_insert_eq. by eexists.
    + destruct (inv_live s I t' p id' n H Hlive) as (q & Eq & ?). exists q. by rewrite lookup_insert_ne by congruence.
  - intros t' id' n j [[<- [? _]]|[_ H]]%list_lookup_insert_Some; [done|]. by apply (inv_returned s I t').
Qed.

Lemma take_inv t id n s : rpc_inv s -> callers s !! t = Some (Woken id n) -> rpc_inv (take_result t id n s).
Proof.
  intros I Ht. destruct (inv_live s I t _ id n Ht eq_refl) as (q & Eq & Eo & En). unfold take_result. rewrite Eq.
  split; cbn; [apply (inv_lastId s I)| | | |apply (inv_storing s I)|apply (inv_answers s I)].
  - intros id' q' [Hne E]%lookup_delete_Some. by apply (inv_queries s I).
  - intros t' p id' m [[<- [<- _]]|[Hne H]]%list_lookup_insert_Some Hlive; [done|].
    destruct (inv_live s I t' p id' m H Hlive) as (q' & Eq' & Eo' & En'). exists q'. rewrite lookup_delete_ne; [done|].
    intros <-. congruence.
  - intros t' id' m j [[<- [[= <- <- <-] _]]|[_ H]]%list_lookup_insert_Some; [|by apply (inv_returned s I t')].
    destruct (inv_queries s I id q Eq) as (_ & _ & Ha). by rewrite En in Ha.
Qed.

Lemma store_inv id result s s' : rpc_inv s -> receiver s = Storing id result -> store_answer id result s = Ret s' -> rpc_inv s'.
Proof.
  intros I Hv E. unfold store_answer in E. destruct (queries s !! id) as [q|] eqn:Eq; [|done]. injection E as <-.
  assert (forall id' n j, answered s id' n j -> answered {| lastId := lastId s; queries := queries s; connected := connected s;
    sent := sent s; callers := callers s; receiver := receiver s; answers := answers s ++ [(id, result)]; updates := updates s; received := received s |} id' n j) as Hmono.
  { intros id' n j [->|(i & Hi & E)]; [by left|]. right. exists i. split; [done|]. cbn. by apply lookup_app_l_Some. }
  split; cbn; [apply (inv_lastId s I)| | | |done|].
  4: { intros id' j [H|H]%elem_of_app; [by apply (inv_answers s I)|]. apply list_elem_of_singleton in H as [= -> ->]. by apply (inv_storing s I). }
  - intros id' q'. destruct (decide (id = id')) as [<-|Hne].
    + rewrite lookup_insert_eq. intros [= <-]. cbn. destruct (inv_queries s I id q Eq) as (Hr & Hn & _). split; [done|].
      rewrite length_app. split; [cbn; lia|]. right. exists (length (answers s)). split; [done|]. cbn. by rewrite list_lookup_middle.
    + rewrite lookup_insert_ne by done. intros E. destruct (inv_queries s I id' q' E) as (Hr & Hn & Ha). split; [done|].
      rewrite length_app. split; [lia|]. by apply Hmono.
  - intros t p id' n Ht Hlive. destruct (inv_live s I t p id' n Ht Hlive) as (q' & Eq' & Eo & En).
    destruct (decide (id = id')) as [<-|Hne]; [|exists q'; by rewrite lookup_insert_ne].
    rewrite lookup_insert_eq. eexists. split; [done|]. cbn. by assert (q = q') as -> by congruence.
  - intros t id' n j Ht. apply Hmono. by apply (inv_returned s I t).
Qed.

Lemma receive_inv payload s s' : rpc_inv s -> receive payload s = Ret s' -> rpc_inv s'.
Proof.
  intros I E. unfold receive in E. destruct (route _ _) as [r| |] eqn:Er; [|done|done]. injection E as <-.
  assert (forall p, p ∈ received s -> p ∈ received s ++ [payload]) as Hm by (intros p; rewrite elem_of_app; auto).
  destruct r as [|id result|id json|]; try (apply (same_inv s); cbn; auto; fail).
  apply (same_inv s); cbn; auto. intros id' j [= <- <-]. right. exists payload. cbn.
  split; [rewrite elem_of_app, list_elem_of_singleton; auto|]. unfold route in Er.
  apply bind_Ret_inv in Er as (i & Ei & Er). apply bind_Ret_inv in Er as (k & _ & Er).
  destruct (i =? INT_MAX); [done|]. destruct (Z.eqb_spec i 0) as [Hi|Hi]; cbn in Er; [by destruct (k =? 0)|].
  destruct (is_waiting s i); [|by destruct (k =? 0)]. injection Er as <- <-. split; [|done].
  destruct (is_null _); [by injection Ei as <-|done].
Qed.

Lemma patient_step_inv s s' : rpc_inv s -> lastId s < INT_MAX -> patient_step s (Ret s') -> rpc_inv s'.
Proof.
  intros I Hs Hst. inversion Hst; subst; clear Hst.
  - by apply register_inv.
  - by apply (caller_inv s _ t _ (Sent id since) I H0).
  - by apply (caller_inv s _ t _ (Waiting id since) I H0).
  - by apply take_inv.
  - by apply (caller_inv s _ t _ Outside I H0).
  - by apply (receive_inv payload s).
  - by apply (store_inv id result s).
  - unfold notify in H. destruct (callers s !! t) as [[]|] eqn:Ht; try done; destruct (_ =? _); try done; injection H as <-;
      try (apply (same_inv s); by auto). by apply (caller_inv s _ t _ (Woken id0 since) I Ht).
  - apply (same_inv s); by auto.
Qed.

Lemma rpc_step_inv s s' : rpc_inv s -> lastId s < INT_MAX -> rpc_step s (Ret s') -> rpc_inv s'.
Proof.
  intros I Hs Hst. inversion Hst; subst; clear Hst.
  - by apply (patient_step_inv s).
  - by apply (caller_inv s _ t _ (Returned id since (Throw not_connected)) I H0).
  - by apply (caller_inv s _ t _ (Returned id since (Throw e)) I H0).
  - by apply (caller_inv s _ t _ (Sent id since) I H0).
  - by apply (caller_inv s _ t _ (Woken id since) I H0).
  - by apply (receive_inv payload s).
  - apply (same_inv s); by auto.
Qed.

Lemma reaches_inv n s : reaches (newCJsonRpc n) s -> rpc_inv s.
Proof. intros Hr. revert s Hr. apply rtc_ind_r; [apply new_rpc_inv|]. intros a b _ [Hst Hl] IH. by apply (rpc_step_inv a). Qed.

(** C4: an answer goes to the request that asked for it. In every execution, whatever
    the node sends and whenever connections and waits end, calls in progress have
    different ids; and a call that returns a value returns null or the result of a
    message that came with its own id and was stored after the call began. *)
Theorem request_gets_its_answer n s : reaches (newCJsonRpc n) s ->
  (forall t t' p p' id m m', callers s !! t = Some p -> callers s !! t' = Some p' ->
     live p = Some (id, m) -> live p' = Some (id, m') -> t = t')
  /\ (forall t id since j, callers s !! t = Some (Returned id since (Ret j)) ->
       j = JNull \/ exists i, (since <= i)%nat /\ answers s !! i = Some (id, j) /\ came s id j).
Proof.
  intros Hr. pose proof (reaches_inv n s Hr) as I. split.
  - intros t t' p p' id m m' Ht Ht' Hl Hl'.
    destruct (inv_live s I t p id m Ht Hl) as (q & Eq & <- & _). destruct (inv_live s I t' p' id m' Ht' Hl') as (q' & Eq' & <- & _).
    congruence.
  - intros t id since j Ht. destruct (inv_returned s I t id since j Ht) as [|(i & Hi & E)]; [by left|right].
    exists i. split; [done|]. split; [done|]. apply (inv_answers s I). by apply list_elem_of_lookup_2 in E.
Qed.

(** ** Patient callers *)

(** A call that has been sent or is about to be, and has not been woken. *)
Definition pending (p : request_pc) : option (Z * nat) :=
  match p with Registered id n _ | Sent id n | Waiting id n => Some (id, n) | _ => None end.

Definition has_answer (s : CJsonRpc) (id : Z) (n : nat) (j : Json) : Prop :=
  exists i, (n <= i)%nat /\ answers s !! i = Some (id, j).

Record patient_inv (s : CJsonRpc) : Prop := {
  pinv_rpc : rpc_inv s;
  pinv_owner : forall id q, queries s !! id = Some q ->
    exists p n, callers s !! q_owner q = Some p /\ live p = Some (id, n);
  pinv_storing : forall id j, receiver s = Storing id j ->
    (id ∉ (answers s).*1) /\ is_Some (queries s !! id);
  pinv_notifying : forall t id, receiver s = Notifying t id ->
    exists p n q, callers s !! t = Some p /\ pending p = Some (id, n) /\ queries s !! id = Some q
      /\ has_answer s id n (q_json q);
  pinv_woken : forall t id n, callers s !! t = Some (Woken id n) ->
    exists q, queries s !! id = Some q /\ has_answer s id n (q_json q);
  pinv_returned : forall t id n o, callers s !! t = Some (Returned id n o) -> exists j, o = Ret j /\ has_answer s id n j;
}.

Lemma new_patient_inv n : patient_inv (newCJsonRpc n).
Proof.
  assert (forall t p, replicate n Outside !! t = Some p -> p = Outside) as Hp by (intros t p H; by apply lookup_replicate_1 in H as [-> _]).
  split; cbn; try done; [by apply new_rpc_inv| |]; intros t id m ?; [|intros H]; by apply Hp in H || (intros H; by apply Hp in H).
Qed.

Lemma pending_live p i : pending p = Some i -> live p = Some i.
Proof. by destruct p. Qed.

(** A pending call goes on. *)
Lemma patient_caller s s' t p p' i :
  patient_inv s -> rpc_inv s' -> callers s !! t = Some p -> callers s' = <[t := p']> (callers s) ->
  pending p = Some i -> pending p' = Some i -> queries s' = queries s -> answers s' = answers s ->
  receiver s' = receiver s -> patient_inv s'.
Proof.
  intros P I Ht Hc Hp Hp' Hq Ha Hr.
  assert (t < length (callers s))%nat as Hl by (by apply lookup_lt_Some in Ht).
  split; [done| | | | |]; unfold has_answer; rewrite ?Hq, ?Hr, ?Ha, ?Hc.
  - intros id q E. destruct (pinv_owner s P id q E) as (p1 & n & E1 & E2).
    destruct (decide (t = q_owner q)) as [->|Hne]; [|exists p1, n; by rewrite list_lookup_insert_ne].
    exists p', n. rewrite list_lookup_insert_eq by done. split; [done|].
    rewrite Ht in E1. injection E1 as <-. apply pending_live in Hp. rewrite (pending_live _ _ Hp'). congruence.
  - apply (pinv_storing s P).
  - intros t' id E. destruct (pinv_notifying s P t' id E) as (p1 & n & q & E1 & E2 & ?).
    destruct (decide (t = t')) as [->|Hne]; [|exists p1, n, q; by rewrite list_lookup_insert_ne].
    exists p', n, q. rewrite list_lookup_insert_eq by done. rewrite Ht in E1. injection E1 as <-. split; [done|].
    split; [congruence|done].
  - intros t' id n [[<- [-> _]]|[_ H]]%list_lookup_insert_Some; [done|by apply (pinv_woken s P t')].
  - intros t' id n o [[<- [-> _]]|[_ H]]%list_lookup_insert_Some; [done|by apply (pinv_returned s P t')].
Qed.

Lemma patient_register s t jsonMap : patient_inv s -> lastId s < INT_MAX -> callers s !! t = Some Outside ->
  patient_inv (register t jsonMap s).
Proof.
  intros P Hs Ht. pose proof (pinv_rpc s P) as I. pose proof (register_inv t jsonMap s I Hs Ht) as I'.
  pose proof (inv_lastId s I) as H0. destruct (query_id_small (lastId s) ltac:(lia)) as [E1 E2].
  assert (t < length (callers s))%nat as Hl by (by apply lookup_lt_Some in Ht).
  assert (queries s !! (lastId s + 1) = None) as Hid.
  { destruct (queries s !! (lastId s + 1)) as [q|] eqn:E; [|done]. apply (inv_queries s I) in E. lia. }
  revert I'. unfold register. rewrite E2, E1. set (id := lastId s + 1) in *. intros I'.
  split; [done|..]; cbn.
  - intros id' q. destruct (decide (id = id')) as [<-|Hne].
    + rewrite lookup_insert_eq. intros [= <-]. cbn. eexists _, _. by rewrite list_lookup_insert_eq.
    + rewrite lookup_insert_ne by done. intros E. destruct (pinv_owner s P id' q E) as (p1 & n & Ep & El).
      exists p1, n. rewrite list_lookup_insert_ne; [done|]. intros ->. by rewrite Ht in Ep; injection Ep as <-.
  - intros id' j E. destruct (pinv_storing s P id' j E) as [Ha [q Eq]]. split; [done|].
    exists q. rewrite lookup_insert_ne; [done|]. intros <-. congruence.
  - intros t' id' E. destruct (pinv_notifying s P t' id' E) as (p1 & n & q & Ep & El & Eq & ?).
    exists p1, n, q. rewrite list_lookup_insert_ne, lookup_insert_ne; [done|intros <-; congruence|].
    intros ->. rewrite Ht in Ep. by injection Ep as <-.
  - intros t' id' n [[<- [? _]]|[_ H]]%list_lookup_insert_Some; [done|].
    destruct (pinv_woken s P t' id' n H) as (q & Eq & ?). exists q. rewrite lookup_insert_ne; [done|intros <-; congruence].
  - intros t' id' n o [[<- [? _]]|[_ H]]%list_lookup_insert_Some; [done|by apply (pinv_returned s P t')].
Qed.

Lemma patient_take s t id n : patient_inv s -> callers s !! t = Some (Woken id n) -> patient_inv (take_result t id n s).
Proof.
  intros P Ht. pose proof (pinv_rpc s P) as I. pose proof (take_inv t id n s I Ht) as I'.
  destruct (pinv_woken s P t id n Ht) as (q & Eq & (i & Hi & Ea)).
  assert (q_owner q = t) as Ho by (destruct (inv_live s I t _ id n Ht eq_refl) as (q' & Eq' & Eo & _); congruence).
  assert (t < length (callers s))%nat as Hl by (by apply lookup_lt_Some in Ht).
  revert I'. unfold take_result. rewrite Eq. intros I'. split; [done|..]; cbn.
  - intros id' q' [Hne E]%lookup_delete_Some. destruct (pinv_owner s P id' q' E) as (p1 & m & Ep & El).
    exists p1, m. rewrite list_lookup_insert_ne; [done|]. intros ->. rewrite Ht in Ep. injection Ep as <-. cbn in El. congruence.
  - intros id' j E. destruct (pinv_storing s P id' j E) as [Hn [q' Eq']]. split; [done|]. exists q'.
    rewrite lookup_delete_ne; [done|]. intros <-. destruct Hn. apply list_elem_of_fmap. exists (id, q_json q).
    split; [done|]. by apply list_elem_of_lookup_2 in Ea.
  - intros t' id' E. destruct (pinv_notifying s P t' id' E) as (p1 & m & q' & Ep & El & Eq' & ?).
    exists p1, m, q'. assert (t <> t') as Hne by (intros ->; rewrite Ht in Ep; by injection Ep as <-).
    rewrite list_lookup_insert_ne by done. split; [done|]. split; [done|]. rewrite lookup_delete_ne; [done|].
    intros <-. apply Hne. rewrite <- Ho. destruct (inv_live s I t' p1 id m Ep (pending_live _ _ El)) as (q2 & Eq2 & <- & _). congruence.
  - intros t' id' m [[<- [? _]]|[Hne H]]%list_lookup_insert_Some; [done|].
    destruct (pinv_woken s P t' id' m H) as (q' & Eq' & ?). exists q'. rewrite lookup_delete_ne; [done|]. intros <-.
    apply Hne. rewrite <- Ho. destruct (inv_live s I t' _ id m H eq_refl) as (q2 & Eq2 & <- & _). congruence.
  - intros t' id' m o [[<- [[= <- <- <-] _]]|[_ H]]%list_lookup_insert_Some; [|by apply (pinv_returned s P t')].
    exists (q_json q). split; [done|]. by exists i.
Qed.

Lemma patient_leave s t id n o : patient_inv s -> rpc_inv (set_caller t Outside s) ->
  callers s !! t = Some (Returned id n o) -> patient_inv (set_caller t Outside s).
Proof.
  intros P I' Ht. split; [done|..]; cbn.
  - intros id' q E. destruct (pinv_owner s P id' q E) as (p1 & m & Ep & El). exists p1, m.
    rewrite list_lookup_insert_ne; [done|]. intros ->. rewrite Ht in Ep. by injection Ep as <-.
  - apply (pinv_storing s P).
  - intros t' id' E. destruct (pinv_notifying s P t' id' E) as (p1 & m & q' & Ep & El & ?). exists p1, m, q'.
    rewrite list_lookup_insert_ne; [done|]. intros ->. rewrite Ht in Ep. by injection Ep as <-.
  - intros t' id' m [[<- [? _]]|[_ H]]%list_lookup_insert_Some; [done|by apply (pinv_woken s P t')].
  - intros t' id' m o' [[<- [? _]]|[_ H]]%list_lookup_insert_Some; [done|by apply (pinv_returned s P t')].
Qed.

(** A call for which no answer is stored has not been woken. *)
Lemma unanswered_pending s id q : patient_inv s -> queries s !! id = Some q -> (id ∉ (answers s).*1) ->
  exists p n, callers s !! q_owner q = Some p /\ pending p = Some (id, n) /\ n = q_since q.
Proof.
  intros P Eq Hn. destruct (pinv_owner s P id q Eq) as (p & n & Ep & El). exists p, n. split; [done|].
  destruct (inv_live s (pinv_rpc s P) _ p id n Ep El) as (q' & Eq' & _ & <-). split; [|congruence].
  destruct p; try done. cbn in El. injection El as -> ->. destruct Hn.
  destruct (pinv_woken s P _ id _ Ep) as (q1 & _ & (i & _ & Ea)). apply list_elem_of_fmap. exists (id, q_json q1).
  split; [done|]. by apply list_elem_of_lookup_2 in Ea.
Qed.

Lemma route_no_throw waiting payload e : route waiting payload <> Throw e.
Proof.
  assert (forall (b : bool) j (f : Z -> outcome routed), (forall z, f z <> Throw e) ->
    (z ← (if b then Ret 0 else int_value j); f z) <> Throw e) as Hi.
  { intros [] [] f Hf; cbn; try apply Hf; try done. destruct (double_to_int _); cbn; [apply Hf|done]. }
  unfold route. apply Hi. intros i. apply Hi. done.
Qed.

Lemma patient_receive s payload o : patient_inv s -> receiver s = Listening ->
  (forall id result, route (is_waiting s) payload = Ret (ToRequest id result) -> id ∉ (answers s).*1) ->
  route (is_waiting s) payload <> UB -> receive payload s = o -> exists s', o = Ret s' /\ patient_inv s'.
Proof.
  intros P Hr Hnew Hub <-. unfold receive. destruct (route (is_waiting s) payload) as [r|e|] eqn:Er; [|exfalso|done].
  2: by apply route_no_throw in Er.
  eexists. split; [done|].
  assert (forall s', receive payload s = Ret s' -> rpc_inv s') as I' by (intros s' E; by apply (receive_inv payload s); [apply (pinv_rpc s P)|]).
  unfold receive in I'. rewrite Er in I'. specialize (I' _ eq_refl). revert I'.
  destruct P as [I H1 H2 H3 H4 H5]. destruct r as [|id result|id json|]; intros I'; split; try done; cbn; rewrite ?Hr; try done.
  intros id' j [= <- <-]. split; [by apply (Hnew id result)|].
  unfold route in Er. repeat (apply bind_Ret_inv in Er as (? & _ & Er)).
  repeat case_match; try discriminate. injection Er as <- <-.
  match goal with H : negb _ && is_waiting s _ = true |- _ => apply andb_prop in H as [_ H]; by apply bool_decide_eq_true in H end.
Qed.

Lemma patient_store s id result o : patient_inv s -> receiver s = Storing id result ->
  store_answer id result s = o -> exists s', o = Ret s' /\ patient_inv s'.
Proof.
  intros P Hr <-. pose proof (pinv_rpc s P) as I. destruct (pinv_storing s P id result Hr) as [Hn [q Eq]].
  destruct (unanswered_pending s id q P Eq Hn) as (p & n & Ep & El & En).
  pose proof (store_inv id result s) as I'. unfold store_answer in *. rewrite Eq in *. eexists. split; [done|].
  specialize (I' _ I Hr eq_refl). split; [done|..]; cbn.
  - intros id' q'. destruct (decide (id = id')) as [<-|Hne]; [|rewrite lookup_insert_ne by done; apply (pinv_owner s P)].
    rewrite lookup_insert_eq. intros [= <-]. cbn. apply (pinv_owner s P id q Eq).
  - done.
  - intros t id' [= <- <-]. exists p, n. eexists. split; [done|]. split; [done|]. rewrite lookup_insert_eq. split; [done|].
    exists (length (answers s)). cbn. split; [|by rewrite list_lookup_middle]. destruct (inv_queries s I id q Eq) as (_ & ? & _). lia.
  - intros t id' m Ht. destruct (pinv_woken s P t id' m Ht) as (q' & Eq' & (i & Hi & Ea)).
    assert (id <> id') as Hne.
    { intros <-. destruct Hn. apply list_elem_of_fmap. exists (id, q_json q'). split; [done|]. by apply list_elem_of_lookup_2 in Ea. }
    exists q'. rewrite lookup_insert_ne by done. split; [done|]. exists i. split; [done|]. by apply lookup_app_l_Some.
  - intros t id' m o Ht. destruct (pinv_returned s P t id' m o Ht) as (j & Ej & (i & Hi & Ea)). exists j. split; [done|].
    exists i. split; [done|]. by apply lookup_app_l_Some.
Qed.

Lemma patient_notify s t id o : patient_inv s -> receiver s = Notifying t id ->
  notify t id s = o -> exists s', o = Ret s' /\ patient_inv s'.
Proof.
  intros P Hr <-. pose proof (pinv_rpc s P) as I. destruct (pinv_notifying s P t id Hr) as (p & n & q & Ep & El & Eq & Ha).
  assert (patient_inv (set_receiver Listening s)) as P'.
  { destruct P as [_ H1 _ _ H4 H5]. split; try done. apply (same_inv s); by auto. }
  unfold notify. rewrite Ep. destruct p; cbn in El; try done; injection El as -> ->; rewrite Z.eqb_refl; eexists; (split; [done|]); [done|done|].
  split; [|..]; cbn.
  - by apply (caller_inv s _ t _ (Woken id n) I Ep).
  - intros id' q' E. destruct (pinv_owner s P id' q' E) as (p1 & m & Ep1 & El1).
    destruct (decide (t = q_owner q')) as [->|Hne]; [|exists p1, m; by rewrite list_lookup_insert_ne].
    exists (Woken id n), n. rewrite list_lookup_insert_eq by (by apply lookup_lt_Some in Ep). split; [done|].
    rewrite Ep in Ep1. injection Ep1 as <-. cbn in El1. by injection El1 as -> ->.
  - done.
  - done.
  - intros t' id' m [[<- [[= -> ->] _]]|[_ H]]%list_lookup_insert_Some; [by exists q|by apply (pinv_woken s P t')].
  - intros t' id' m o [[<- [? _]]|[_ H]]%list_lookup_insert_Some; [done|by apply (pinv_returned s P t')].
Qed.

Lemma patient_step_ok s o : patient_inv s -> lastId s < INT_MAX -> patient_step s o -> exists s', o = Ret s' /\ patient_inv s'.
Proof.
  intros P Hs Hst. pose proof (pinv_rpc s P) as I.
  assert (forall s', patient_step s (Ret s') -> rpc_inv s') as I' by (intros s'; by apply patient_step_inv).
  destruct Hst as [t j Ht|t id n r Ht Hc|t id n Ht|t id n Ht|t id n o Ht|pl Hr Hn Hu|id j Hr|t id Hr|].
  - eexists. split; [done|]. by apply patient_register.
  - eexists. split; [done|]. apply (patient_caller s _ t (Registered id n r) (Sent id n) (id, n) P); try done. apply I'. by eapply do_send.
  - eexists. split; [done|]. apply (patient_caller s _ t (Sent id n) (Waiting id n) (id, n) P); try done. apply I'. by eapply do_wait.
  - eexists. split; [done|]. by apply patient_take.
  - eexists. split; [done|]. apply (patient_leave s t id n o); try done. apply I'. by eapply do_leave.
  - by apply (patient_receive s pl).
  - by apply (patient_store s id j).
  - by apply (patient_notify s t id).
  - eexists. split; [done|]. destruct P as [_ H1 H2 H3 H4 H5]. split; try done. apply I'. apply do_connect.
Qed.

Lemma patient_reaches_inv n s : patient (newCJsonRpc n) s -> patient_inv s.
Proof.
  intros Hr. revert s Hr. apply rtc_ind_r; [apply new_patient_inv|]. intros a b _ [Hst Hl] IH.
  destruct (patient_step_ok a _ IH Hl Hst) as (? & [= ->] & ?). done.
Qed.

(** *** Data races on [_queries]

    What the next action of a caller reads and writes of it: a thread that is in no
    call may insert an element, under the lock; one whose wait is over looks its
    element up and erases it, without the lock. *)
Definition caller_accesses (p : request_pc) : list (access unit) :=
  match p with
  | Outside => [Access tt true true]
  | Woken _ _ => [Access tt true false]
  | _ => []
  end.

Definition request_id_of (payload : list Z) : outcome Z :=
  let id := member (parse_payload payload) "id" in if is_null id then Ret 0 else int_value id.

(** The receiving thread counts the id of a message without the lock, and stores an
    answer under it. *)
Definition message_accesses (payload : list Z) : list (access unit) :=
  match request_id_of payload with
  | Ret i => if (i =? INT_MAX) || (i =? 0) then [] else [Access tt false false]
  | _ => []
  end.

Definition receiver_access (comes : list Z -> Prop) (s : CJsonRpc) (a : access unit) : Prop :=
  match receiver s with
  | Listening => exists payload, comes payload /\ a ∈ message_accesses payload
  | Storing _ _ => a = Access tt true true
  | Notifying _ _ => False
  end.

(** Two threads whose next actions may be accesses that conflict, when the messages that
    may come next are those of [comes]. *)
Definition data_race (comes : list Z -> Prop) (s : CJsonRpc) : Prop :=
  (exists t t' p p', t <> t' /\ callers s !! t = Some p /\ callers s !! t' = Some p'
     /\ conflicting (caller_accesses p) (caller_accesses p') = true)
  \/ (exists t p a b, callers s !! t = Some p /\ a ∈ caller_accesses p /\ receiver_access comes s b /\ conflict a b = true).

(** How an action may end. *)
Inductive action_ends (comes : list Z -> Prop) (s : CJsonRpc) : outcome CJsonRpc -> Prop :=
| ends_itself o : patient_step s o -> action_ends comes s o
| ends_in_race : data_race comes s -> action_ends comes s UB.

(** A message with the id of a request is an answer to one that has been sent and not
    been answered. *)
Definition awaits (id : Z) (p : request_pc) : bool :=
  match p with Sent id' _ | Waiting id' _ => id =? id' | _ => false end.
Definition expected (s : CJsonRpc) (payload : list Z) : bool :=
  match request_id_of payload with
  | Ret id => (id =? 0) || (id =? INT_MAX) || (negb (bool_decide (id ∈ (answers s).*1)) && existsb (awaits id) (callers s))
  | _ => true
  end.

Definition orderly_step (s s' : CJsonRpc) : Prop :=
  patient_step s (Ret s') /\ lastId s < INT_MAX /\ forall payload, received s' = received s ++ [payload] -> expected s payload = true.
Definition orderly : CJsonRpc -> CJsonRpc -> Prop := rtc orderly_step.

Lemma orderly_patient s s' : orderly s s' -> patient s s'.
Proof. apply rtc_subrel. by intros a b (H & Hl & _). Qed.

(** With one caller, the receiver works for it while it is in its call, and has not woken
    it yet. *)
Definition one_caller (s : CJsonRpc) : Prop :=
  exists p, callers s = [p] /\
  match receiver s with
  | Listening => True
  | Storing id _ | Notifying _ id => awaits id p = true
  end.

Lemma alone {A} (p q : A) t : [p] !! t = Some q -> t = O /\ q = p.
Proof. destruct t as [|[|t]]; [by intros [= ->]|done..]. Qed.

Lemma one_caller_moves t p p' s s' : one_caller s -> callers s !! t = Some p -> callers s' = <[t := p']> (callers s) ->
  receiver s' = receiver s -> (forall id, awaits id p = true -> awaits id p' = true) -> one_caller s'.
Proof.
  intros (q & Hq & Hr) Ht Hc Hv Ha. rewrite Hq in *. apply alone in Ht as [-> ->].
  exists p'. split; [done|]. rewrite Hv. destruct (receiver s); auto.
Qed.

Lemma received_snoc {A} (l : list A) x : l <> l ++ [x].
Proof. intros H. apply (f_equal length) in H. rewrite length_app in H. cbn in H. lia. Qed.

Lemma one_caller_receive payload s s' : one_caller s -> receiver s = Listening -> expected s payload = true ->
  receive payload s = Ret s' -> one_caller s'.
Proof.
  intros (p & Hp & _) Hr He E. exists p. unfold receive in E. destruct (route (is_waiting s) payload) as [r| |] eqn:Er; try done.
  cbn in E. injection E as <-. destruct r as [|id j|id j|]; cbn; rewrite ?Hr; try done. split; [done|].
  unfold route in Er. unfold expected, request_id_of in He. cbv zeta in Er, He.
  apply bind_Ret_inv in Er as (i & Ei & Er). rewrite Ei in He. apply bind_Ret_inv in Er as (k & _ & Er).
  destruct (i =? INT_MAX); [done|]. destruct (i =? 0); cbn [negb andb] in Er; [by case_match|].
  destruct (is_waiting s i); [|by case_match]. injection Er as -> _. cbn [orb] in He. apply andb_prop in He as [_ He].
  rewrite Hp in He. cbn in He. by rewrite orb_false_r in He.
Qed.

Lemma one_caller_step s s' : one_caller s -> orderly_step s s' -> one_caller s'.
Proof.
  intros I (Hst & _ & He). inversion Hst as [t j Ht E|t id n r Ht Hc E|t id n Ht E|t id n Ht E|t id n o Ht E|pl Hr Hn Hu E|id j Hr E|t id Hr E|E].
  - by apply (one_caller_moves t Outside (Registered (query_id (getNextId (lastId s))) (length (answers s)) (request_json (query_id (getNextId (lastId s))) j)) s).
  - by apply (one_caller_moves t (Registered id n r) (Sent id n) s).
  - by apply (one_caller_moves t (Sent id n) (Waiting id n) s).
  - apply (one_caller_moves t (Woken id n) (Returned id n (Ret (match queries s !! id with Some q => q_json q | None => JNull end))) s); done.
  - by apply (one_caller_moves t (Returned id n o) Outside s).
  - apply (one_caller_receive pl s); [done|done|apply He|done]. unfold receive in E.
    destruct (route (is_waiting s) pl) as [[]| |]; try done; cbn in E; by injection E as <-.
  - destruct I as (p & Hp & Hv). rewrite Hr in Hv. exists p. unfold store_answer in E. destruct (queries s !! id); [|done].
    by injection E as <-.
  - destruct I as (p & Hp & Hv). rewrite Hr in Hv. unfold notify in E. rewrite Hp in E.
    destruct t as [|[|t]]; [cbn in E|done..]. destruct p; try done; case_match; try done; injection E as <-; eexists; split; cbn; by rewrite ?Hp.
  - by subst s'.
Qed.

(** The caller that the receiver works for makes no access; and none that has made its
    access meets a message with an id. *)
Lemma one_caller_no_race s : one_caller s -> ~ data_race (fun payload => expected s payload = true) s.
Proof.
  intros (p & Hp & Hr) [(t & t' & q & q' & Hne & H1 & H2 & _)|(t & q & a & b & Ht & Ha & Hb & Hc)].
  { rewrite Hp in H1, H2. apply alone in H1 as [-> _]. by apply alone in H2 as [-> _]. }
  rewrite Hp in Ht. apply alone in Ht as [-> ->]. unfold receiver_access in Hb.
  destruct (receiver s) as [|id j|? id].
  - destruct Hb as (payload & He & Hm). unfold message_accesses in Hm. unfold expected in He. destruct (request_id_of payload) as [i| |]; [|set_solver..].
    destruct (i =? INT_MAX), (i =? 0); cbn [orb] in *; try set_solver. apply andb_prop in He as [_ He]. rewrite Hp in He. cbn in He.
    rewrite orb_false_r in He. destruct p; try done; set_solver.
  - destruct p; try done; set_solver.
  - done.
Qed.

Lemma orderly_one_caller s : orderly (newCJsonRpc 1) s -> one_caller s.
Proof.
  intros Hr. revert s Hr. apply rtc_ind_r; [by exists Outside|]. intros a b _ Hs IH. by apply (one_caller_step a).
Qed.


(** ** Answers that come too early *)

(** The call waits, its answer is stored, and nobody is going to notify it. *)
Definition overslept (t : nat) (id : Z) (since : nat) (s : CJsonRpc) : Prop :=
  callers s !! t = Some (Waiting id since) /\ (id ∈ (answers s).*1) /\ receiver s <> Notifying t id.

Lemma overslept_step t id since s s' : patient_inv s -> lastId s < INT_MAX ->
  overslept t id since s -> patient_step s (Ret s') -> overslept t id since s'.
Proof.
  intros P Hl (Ht & Ha & Hr) Hst.
  assert (forall t' p p' s', callers s !! t' = Some p' -> p' <> Waiting id since -> callers s' = <[t' := p]> (callers s) ->
    answers s' = answers s -> receiver s' = receiver s -> overslept t id since s') as Hmove.
  { intros t' p p' s1 Ht' Hp Hc Ea Er. unfold overslept. rewrite Hc, Ea, Er. split; [|done].
    rewrite list_lookup_insert_ne; [done|]. intros ->. congruence. }
  remember (Ret s') as o eqn:Eo.
  destruct Hst as [t' j Ht'|t' id' m r Ht' Hc|t' id' m Ht'|t' id' m Ht'|t' id' m o Ht'|pl Hrv Hn Hu|id' j Hrv|t' id' Hrv|];
    try (injection Eo as <-).
  1-5: by eapply (Hmove t').
  - unfold receive in Eo. destruct (route _ _) as [r| |]; [|done|done]. injection Eo as <-. by destruct r.
  - unfold store_answer in Eo. destruct (queries s !! id') as [q|] eqn:Eq; [|done]. injection Eo as <-. split; [done|]. cbn.
    split; [rewrite fmap_app, elem_of_app; by left|].
    destruct (pinv_storing s P id' j Hrv) as [Hn _]. intros [= _ ->]. done.
  - unfold notify in Eo. destruct (decide (t' = t)) as [->|Hne].
    + rewrite Ht in Eo. destruct (Z.eqb_spec id' id) as [->|]; [by destruct Hr|done].
    + destruct (callers s !! t') as [[]|] eqn:E0; try done; destruct (_ =? _); try done; injection Eo as <-; try done.
      split; [|done]. cbn. by rewrite list_lookup_insert_ne.
  - done.
Qed.

(** C39: an answer that arrives before the call waits for it is not noticed. In every
    state of patient callers in which a call has sent its request but does not wait
    yet, the answer may be received, stored and notified first; the call then
    waits, and as long as only the actions of patient callers happen (its wait does
    not time out) it never returns, although its answer is there. *)
Theorem early_answer_overslept n s t id since payload result :
  patient (newCJsonRpc n) s -> lastId s < INT_MAX -> callers s !! t = Some (Sent id since) -> receiver s = Listening ->
  (id ∉ (answers s).*1) -> route (is_waiting s) payload = Ret (ToRequest id result) ->
  exists s', patient s s' /\ (exists q, queries s' !! id = Some q /\ q_json q = result)
    /\ forall s'', patient s' s'' -> callers s'' !! t = Some (Waiting id since).
Proof.
  intros Hr Hl Ht Hrv Hn Hroute. pose proof (patient_reaches_inv n s Hr) as P.
  destruct (inv_live s (pinv_rpc s P) t _ id since Ht eq_refl) as (q & Eq & Eo & _).
  assert (exists s', patient s s' /\ (exists q, queries s' !! id = Some q /\ q_json q = result) /\ overslept t id since s') as (s' & Hp & Hq & Ho).
  { eexists. split; [|split].
    - eapply rtc_l; [split; [|done]; replace (Ret _) with (receive payload s) by (unfold receive; rewrite Hroute; reflexivity);
        apply do_receive; [done|intros ?? E; congruence|congruence]|].
      eapply rtc_l; [split; [|done]; replace (Ret _) with (store_answer id result (set_receiver (Storing id result) (log_received payload s)))
        by (unfold store_answer; cbn; rewrite Eq; reflexivity); by apply do_store|].
      eapply rtc_l; [split; [|done]; match goal with |- patient_step ?x _ =>
          replace (Ret _) with (notify (q_owner q) id x) by (unfold notify; cbn; rewrite Eo, Ht, Z.eqb_refl; reflexivity) end; by apply do_notify|].
      eapply rtc_l; [split; [by apply (do_wait _ t)|done]|]. apply rtc_refl.
    - cbn. rewrite lookup_insert_eq. by eexists.
    - split; [cbn; by rewrite list_lookup_insert_eq by (by apply lookup_lt_Some in Ht)|]. split; [|done].
      cbn. rewrite fmap_app, elem_of_app. right. by left. }
  exists s'. split; [done|]. split; [done|]. intros s'' H''.
  assert (patient_inv s') as P' by (apply (patient_reaches_inv n); by etrans).
  assert (patient_inv s'' /\ overslept t id since s'') as [_ Ho'']; [|apply Ho''].
  revert s'' H''. apply rtc_ind_r; [done|]. intros a b _ [Hst Hla] [Pa Ha].
  destruct (patient_step_ok a _ Pa Hla Hst) as (? & [= ->] & Pb). split; [done|]. by apply (overslept_step t id since a).
Qed.

(** A request that throws leaves a trap. In every state in which a call is about to
    send - the connection is gone, and it throws "Not connected", or sending throws
    whatever exception - its element stays in the table, with the address of a
    variable of the call that has ended: when a message with its id comes later,
    notifying it is undefined. *)
Theorem refused_request_dangles n s t id since request payload result e :
  reaches (newCJsonRpc n) s -> lastId s < INT_MAX ->
  callers s !! t = Some (Registered id since request) -> connected s = true \/ e = not_connected -> receiver s = Listening ->
  route (is_waiting s) payload = Ret (ToRequest id result) ->
  exists s', reaches s s' /\ callers s' !! t = Some (Returned id since (Throw e))
    /\ is_Some (queries s' !! id) /\ exists s'', reaches s' s'' /\ rpc_step s'' UB.
Proof.
  intros Hr Hl Ht Hc Hrv Hroute. pose proof (reaches_inv n s Hr) as I.
  destruct (inv_live s I t _ id since Ht eq_refl) as (q & Eq & Eo & _).
  assert (t < length (callers s))%nat as Hlen by (by apply lookup_lt_Some in Ht).
  set (s1 := set_caller t (Returned id since (Throw e)) s).
  assert (rpc_step s (Ret s1)) as Hs1.
  { destruct (connected s) eqn:Ec; [by eapply step_send_throws|]. destruct Hc as [|Hc]; [done|].
    unfold s1. rewrite Hc. by eapply step_refused. }
  exists s1. split; [apply rtc_once; by split|].
  split; [cbn; by rewrite list_lookup_insert_eq|]. split; [by eexists|].
  eexists. split.
  - eapply rtc_l; [split; [|done]; replace (Ret _) with (receive payload s1)
      by (unfold receive; change (is_waiting s1) with (is_waiting s); rewrite Hroute; reflexivity); by apply step_receive|].
    eapply rtc_l; [split; [|done]; replace (Ret _) with (store_answer id result (set_receiver (Storing id result) (log_received payload s1)))
        by (unfold store_answer; cbn; rewrite Eq; reflexivity); by apply step_patient, do_store|].
    apply rtc_refl.
  - apply step_patient. match goal with |- patient_step ?x _ => replace UB with (notify (q_owner q) id x) end; [by apply do_notify|].
    unfold notify. cbn. by rewrite Eo, list_lookup_insert_eq.
Qed.

(** ** Executions by a schedule *)

Inductive rpc_action : Type :=
| Register (t : nat) (jsonMap : Json) | Proceed (t : nat) | Receive (payload : list Z) | Handle | Connect.

(** The state after an action of a patient execution, if it is possible. *)
Definition perform (a : rpc_action) (s : CJsonRpc) : option CJsonRpc :=
  match a with
  | Register t jsonMap => match callers s !! t with Some Outside => Some (register t jsonMap s) | _ => None end
  | Proceed t =>
      match callers s !! t with
      | Some (Registered id since request) =>
          if connected s then Some (set_caller t (Sent id since) (send_text (dump request) s)) else None
      | Some (Sent id since) => Some (set_caller t (Waiting id since) s)
      | Some (Woken id since) => Some (take_result t id since s)
      | Some (Returned _ _ _) => Some (set_caller t Outside s)
      | _ => None
      end
  | Receive payload =>
      match receiver s, route (is_waiting s) payload with
      | Listening, Ret (ToRequest id _) =>
          if decide (id ∈ (answers s).*1) then None else match receive payload s with Ret s' => Some s' | _ => None end
      | Listening, Ret _ => match receive payload s with Ret s' => Some s' | _ => None end
      | _, _ => None
      end
  | Handle =>
      match receiver s with
      | Listening => None
      | Storing id j => match store_answer id j s with Ret s' => Some s' | _ => None end
      | Notifying t id => match notify t id s with Ret s' => Some s' | _ => None end
      end
  | Connect => Some (set_connected true s)
  end.

Fixpoint perform_all (l : list rpc_action) (s : CJsonRpc) : bool * CJsonRpc :=
  match l with
  | [] => (true, s)
  | a :: l' =>
      match perform a s with
      | Some s' => if lastId s <? INT_MAX then perform_all l' s' else (false, s)
      | None => (false, s)
      end
  end.

Lemma perform_step a s s' : perform a s = Some s' -> patient_step s (Ret s').
Proof.
  intros E. destruct a as [t j|t|pl| |]; cbn in E.
  - destruct (callers s !! t) as [[]|] eqn:Ht; try done. injection E as <-. by apply do_register.
  - destruct (callers s !! t) as [[]|] eqn:Ht; try done.
    + destruct (connected s) eqn:Hc; [|done]. injection E as <-. by eapply do_send.
    + injection E as <-. by eapply do_wait.
    + injection E as <-. by eapply do_take.
    + injection E as <-. by eapply do_leave.
  - destruct (receiver s) eqn:Hr; try done. destruct (route (is_waiting s) pl) as [r| |] eqn:Hroute; try done.
    assert ((forall id result, route (is_waiting s) pl = Ret (ToRequest id result) -> id ∉ (answers s).*1) /\ receive pl s = Ret s') as [Hn <-].
    { rewrite Hroute. destruct r as [|id res|id j|]; try destruct (decide _); try done;
        (destruct (receive pl s); try done; injection E as ->; split; [|done]; intros ? ? [=]; by subst). }
    apply do_receive; [done|done|congruence].
  - destruct (receiver s) as [|id j|t id] eqn:Hr; [done| |].
    + pose proof (do_store s id j Hr) as H. destruct (store_answer id j s); try done. by injection E as <-.
    + pose proof (do_notify s t id Hr) as H. destruct (notify t id s); try done. by injection E as <-.
  - injection E as <-. apply do_connect.
Qed.

Lemma perform_patient l s : (perform_all l s).1 = true -> patient s (perform_all l s).2.
Proof.
  revert s. induction l as [|a l IH]; intros s H; cbn in *; [done|]. destruct (perform a s) as [s'|] eqn:E; [|done].
  destruct (Z.ltb_spec (lastId s) INT_MAX); [|done]. eapply rtc_l; [split; [by eapply perform_step|done]|]. by apply IH.
Qed.

(** Messages come as they are expected. *)
Fixpoint orderly_all (l : list rpc_action) (s : CJsonRpc) : bool :=
  match l with
  | [] => true
  | a :: l' =>
      match a with Receive payload => expected s payload | _ => true end
      && match perform a s with Some s' => orderly_all l' s' | None => false end
  end.

Lemma perform_received a s s' payload : perform a s = Some s' -> received s' = received s ++ [payload] -> a = Receive payload.
Proof.
  intros E H. destruct a as [t j|t|pl| |]; cbn in E.
  - destruct (callers s !! t) as [[]|]; try done. injection E as <-. by apply received_snoc in H.
  - destruct (callers s !! t) as [[]|]; try done; [destruct (connected s); [|done]|..]; injection E as <-; by apply received_snoc in H.
  - f_equal. assert (receive pl s = Ret s') as Er.
    { destruct (receiver s); try done. destruct (route _ pl) as [[]| |]; try done; [|destruct (decide _); [done|]|..]; destruct (receive pl s); try done; by injection E as ->. }
    unfold receive in Er. destruct (route _ pl) as [[]| |]; try done; cbn in Er; injection Er as <-; cbn in H;
      by apply app_inj_2 in H as [_ [= ->]].
  - destruct (receiver s) as [|id j|t id]; [done| |].
    + unfold store_answer in E. destruct (queries s !! id); [|done]. injection E as <-. by apply received_snoc in H.
    + unfold notify in E. destruct (callers s !! t) as [[]|]; try done; destruct (id =? _); try done; injection E as <-; by apply received_snoc in H.
  - injection E as <-. by apply received_snoc in H.
Qed.

Lemma perform_orderly l s : (perform_all l s).1 = true -> orderly_all l s = true -> orderly s (perform_all l s).2.
Proof.
  revert s. induction l as [|a l IH]; intros s H Ho; cbn in *; [done|]. apply andb_prop in Ho as [He Ho].
  destruct (perform a s) as [s'|] eqn:E; [|done]. destruct (Z.ltb_spec (lastId s) INT_MAX); [|done].
  eapply rtc_l; [|by apply IH]. split; [by eapply perform_step|]. split; [done|].
  intros payload Hp. by rewrite (perform_received a s s' payload E Hp) in He.
Qed.

Lemma patient_reaches s s' : patient s s' -> reaches s s'.
Proof. apply rtc_subrel. intros a b [H Hl]. split; [by apply step_patient|done]. Qed.
End rpc.

(** ** An example *)

Definition version_text : list Z := str "2.0".

(** A query, and the node's answer to the request with an id. *)
Definition health_query : Json (H := numeral_doubles) :=
  JObject [(str "method", JString (str "system_health")); (str "params", JArray [])].
Definition answer_text (id : Z) (result : Json (H := numeral_doubles)) : list Z :=
  dump (D := numeral_doubles) (JObject [(str "id", JInt id); (str "jsonrpc", JString version_text); (str "result", result)]).

(** Thread 0 has its answer, thread 1 has sent its request. *)
Definition sample_calls : list (rpc_action (D := numeral_doubles)) :=
  [Connect; Register 0 health_query; Register 1 health_query; Proceed 1; Proceed 0; Proceed 0;
   Receive (answer_text 1 (JInt 7)); Handle; Handle; Proceed 0].
Definition sample_client : CJsonRpc (D := numeral_doubles) :=
  (perform_all (D := numeral_doubles) version_text sample_calls (newCJsonRpc 2)).2.

Lemma sample_patient : patient (D := numeral_doubles) version_text (newCJsonRpc 2) sample_client.
Proof. apply (perform_patient version_text sample_calls). vm_compute. reflexivity. Qed.

Lemma request_gets_its_answer_witness :
  JInt (H := numeral_doubles) 7 = JNull
  \/ exists i, (0 <= i)%nat /\ answers sample_client !! i = Some (1, JInt 7) /\ came sample_client 1 (JInt 7).
Proof.
  refine (proj2 (request_gets_its_answer (D := numeral_doubles) version_text 2 sample_client
    (patient_reaches (D := numeral_doubles) version_text _ _ sample_patient)) 0%nat 1 0%nat (JInt 7) _). vm_compute. reflexivity.
Defined.

(** One caller, whose answer has come, and a message with no id that can be next. *)
Definition single_calls : list (rpc_action (D := numeral_doubles)) :=
  [Connect; Register 0 health_query; Proceed 0; Proceed 0; Receive (answer_text 1 (JInt 7)); Handle; Handle].
Definition single_client : CJsonRpc (D := numeral_doubles) :=
  (perform_all (D := numeral_doubles) version_text single_calls (newCJsonRpc 1)).2.

Lemma single_orderly : orderly (D := numeral_doubles) version_text (newCJsonRpc 1) single_client.
Proof. apply (perform_orderly version_text single_calls); vm_compute; reflexivity. Qed.


(** Two callers are enough for a data race: one takes its result and erases its element,
    without the lock, while the other inserts one. *)
Definition racing_client : CJsonRpc (D := numeral_doubles) :=
  (perform_all (D := numeral_doubles) version_text single_calls (newCJsonRpc 2)).2.

Example table_accesses_race :
  patient (D := numeral_doubles) version_text (newCJsonRpc 2) racing_client
  /\ data_race (fun _ => False) racing_client
  /\ action_ends (D := numeral_doubles) version_text (fun _ => False) racing_client UB.
Proof.
  assert (data_race (fun _ => False) racing_client) as Hr.
  { left. exists 0%nat, 1%nat, (Woken 1 0), Outside. split; [done|]. split; [vm_compute; reflexivity|]. split; vm_compute; reflexivity. }
  split; [apply (perform_patient version_text single_calls); vm_compute; reflexivity|]. split; [done|by apply ends_in_race].
Qed.

Lemma early_answer_overslept_witness :
  exists s', patient (D := numeral_doubles) version_text sample_client s'
    /\ (exists q, queries s' !! 2 = Some q /\ q_json q = JInt 8)
    /\ forall s'', patient (D := numeral_doubles) version_text s' s'' -> callers s'' !! 1%nat = Some (Waiting 2 0).
Proof.
  apply (early_answer_overslept (D := numeral_doubles) version_text 2 sample_client 1 2 0 (answer_text 2 (JInt 8)) (JInt 8) sample_patient);
    [vm_compute; reflexivity..| |vm_compute; reflexivity].
  apply (bool_decide_unpack _). vm_compute. exact I.
Defined.

Definition refused_client : CJsonRpc (D := numeral_doubles) :=
  (perform_all (D := numeral_doubles) version_text [Register 0 health_query] (newCJsonRpc 1)).2.

Lemma refused_request_dangles_witness :
  exists s', reaches (D := numeral_doubles) version_text refused_client s'
    /\ callers s' !! 0%nat = Some (Returned 1 0 (Throw not_connected))
    /\ is_Some (queries s' !! 1) /\ exists s'', reaches (D := numeral_doubles) version_text s' s''
    /\ rpc_step (D := numeral_doubles) version_text s'' UB.
Proof.
  apply (refused_request_dangles (D := numeral_doubles) version_text 1 refused_client 0 1 0
    (request_json (D := numeral_doubles) version_text 1 health_query) (answer_text 1 JNull) JNull not_connected);
    [|vm_compute; reflexivity|vm_compute; reflexivity|by right|vm_compute; reflexivity..].
  apply patient_reaches, (perform_patient version_text [Register 0 health_query]). vm_compute. reflexivity.
Defined.
