(* ===== verification/Client.v ===== *)
(** The JSON-RPC client for one caller: the operations of [CJsonRpc] of
    [src/jsonrpc.cpp] run to their end, over any WebSocket client of the interface
    [src/interfaces/iwsclient.h]. It implements the interface that [Api] uses.

    In these runs the receiving thread handles every message that comes while a
    request waits before the caller goes on. [request_is_execution] shows that
    they are executions of the threads of [JsonRpc]. *)
From stdpp Require Import gmap relations.
From S2P Require Import Prelude Converters Json JsonRpc Decode Lookup Metadata Api.

(** ** The WebSocket client: [src/interfaces/iwsclient.h] *)

(** [ws_wait] is what happens while the caller waits; the wait ends, unless the library
    goes wrong. [ws_take] gives the messages that the observer has got and not yet
    handled. *)
Class IWebSocketClient := {
  ws : Type;
  ws_connect : list Z -> call ws Z;
  ws_isConnected : ws -> bool;
  ws_disconnect : call ws unit;
  ws_send : list Z -> call ws Z;
  ws_wait : call ws unit;
  ws_take : ws -> list (list Z) * ws;
  ws_wait_ends w : exists w', ws_wait w = Some (Ret tt, w') \/ ws_wait w = Some (UB, w');
}.

Definition PAPI_NO_CONNECTION : Z := 1.

(** ** The queues of the subscriptions

    [q_pending] are the updates that have been put, in order of arrival. The queue of
    a key takes [RESPONSE_QUEUE_MAX_SIZE - 1] updates; [filled] counts, since the
    semaphores of the key were made, those put while it had no consumer. A key with a
    consumer always has room again ([Delivery]). [stuck] is the update for which
    [put] waits for room, with the messages that have come behind it. *)
Section queues.
Context `{D : Doubles}.

Record queues : Type := {
  q_pending : list (Z * Json);
  filled : gmap Z nat;
  stuck : option (Z * Json * list (list Z));
}.

Definition no_queues : queues := {| q_pending := []; filled := ∅; stuck := None |}.

Definition RESPONSE_QUEUE_MAX_SIZE : nat := 128.

Definition filled_at (q : queues) (key : Z) : nat := default 0%nat (filled q !! key).
Definition set_pending (l : list (Z * Json)) (q : queues) : queues := {| q_pending := l; filled := filled q; stuck := stuck q |}.
Definition set_stuck (o : option (Z * Json * list (list Z))) (q : queues) : queues := {|
  q_pending := q_pending q; filled := filled q; stuck := o |}.
Definition set_filled (f : gmap Z nat) (q : queues) : queues := {| q_pending := q_pending q; filled := f; stuck := stuck q |}.

(** [_responseQueue->put(key, value)]; [None] while it waits. *)
Definition put_response (consumed : Z -> bool) (u : Z * Json) (q : queues) : option queues :=
  let q' := set_pending (q_pending q ++ [u]) q in
  if consumed u.1 then Some q'
  else if (filled_at q u.1 <? RESPONSE_QUEUE_MAX_SIZE - 1)%nat then Some (set_filled (<[u.1 := S (filled_at q u.1)]> (filled q)) q')
  else None.
End queues.

Section client.
Context `{D : Doubles} `{W : IWebSocketClient} (jsonrpcVersion : list Z).

(** ** State *)

(** [c_queries] are the keys of [_queries], and [wsSubscribers] the ids of subscriptions
    that have a consumer. *)
Record client : Type := {
  c_lastId : Z;
  c_queries : gset Z;
  wsSubscribers : list Z;
  queue : queues;
  wsc : ws;
}.

Definition pending_updates (c : client) : list (Z * Json) := q_pending (queue c).
Definition consumed (c : client) (key : Z) : bool := bool_decide (key ∈ wsSubscribers c).

Definition set_wsc (w : ws) (c : client) : client := {|
  c_lastId := c_lastId c; c_queries := c_queries c; wsSubscribers := wsSubscribers c; queue := queue c; wsc := w |}.
Definition set_queue (q : queues) (c : client) : client := {|
  c_lastId := c_lastId c; c_queries := c_queries c; wsSubscribers := wsSubscribers c; queue := q; wsc := wsc c |}.
Definition set_subscribers (l : list Z) (c : client) : client := {|
  c_lastId := c_lastId c; c_queries := c_queries c; wsSubscribers := l; queue := queue c; wsc := wsc c |}.
Definition set_queries (q : gset Z) (c : client) : client := {|
  c_lastId := c_lastId c; c_queries := q; wsSubscribers := wsSubscribers c; queue := queue c; wsc := wsc c |}.
Definition set_updates (l : list (Z * Json)) (c : client) : client := set_queue (set_pending l (queue c)) c.

(** The calls of the client. *)
Definition C : Type -> Type := call client.
#[local] Instance C_ret : MRet C := call_ret client.
#[local] Instance C_bind : MBind C := call_bind client.

Definition this_client : C client := current.
Definition modify_client (f : client -> client) : C unit := changes f.
Definition on_ws {A} (m : call ws A) : C A := on_part wsc set_wsc m.
Definition result_of {A} (o : outcome A) : C A := ends o.

(** *** Messages *)

(** What the consumer thread passes on of a message: [message["params"]["result"]]. *)
Definition update_value (json : Json) : Json := member (member json "params") "result".

(** [handleMessage] for each message: the result of the waiting request so far, and
    the queues. The other keys of [_queries] are of calls that have ended with an
    exception. When [put] has to wait, the messages behind it wait too. *)
Fixpoint handle_messages (id : Z) (known : gset Z) (consumed : Z -> bool) (messages : list (list Z)) (result : Json)
    (q : queues) : outcome (Json * queues) :=
  match messages with
  | [] => Ret (result, q)
  | payload :: messages' =>
      r ← route (fun i => bool_decide (i ∈ known)) payload;
      match r with
      | ToRequest i j => if i =? id then handle_messages id known consumed messages' j q else UB
      | ToSubscription i json =>
          match put_response consumed (i, update_value json) q with
          | Some q' => handle_messages id known consumed messages' result q'
          | None => Ret (result, set_stuck (Some (i, update_value json, messages')) q)
          end
      | Ignored | Unknown => handle_messages id known consumed messages' result q
      end
  end.

(** A [put] that waits goes on first, if there is room now. *)
Definition receive_messages (id : Z) (known : gset Z) (consumed : Z -> bool) (messages : list (list Z)) (q : queues) :
    outcome (Json * queues) :=
  match stuck q with
  | None => handle_messages id known consumed messages JNull q
  | Some (u, behind) =>
      match put_response consumed u (set_stuck None q) with
      | Some q' => handle_messages id known consumed (behind ++ messages) JNull q'
      | None => Ret (JNull, set_stuck (Some (u, behind ++ messages)) q)
      end
  end.

(** The messages that have come are handled while request [id] waits; no request has
    the id 0. *)
Definition handle_arrived (id : Z) : C Json := fun c =>
  let '(messages, w) := ws_take (wsc c) in
  let c := set_wsc w c in
  match receive_messages id (c_queries c) (consumed c) messages (queue c) with
  | Ret (result, q) => Some (Ret result, set_queue q c)
  | Throw e => Some (Throw e, c)
  | UB => Some (UB, c)
  end.

(** ** Operations *)

Definition client_connect (node_url : list Z) : C Z :=
  err ← on_ws (ws_connect node_url);
  handle_arrived 0 ;;
  c ← this_client;
  mret (if (err =? 0) && ws_isConnected (wsc c) then PAPI_OK else PAPI_NO_CONNECTION).

Definition client_disconnect : C unit :=
  on_ws ws_disconnect ;;
  handle_arrived 0 ;;
  mret tt.

(** A new element of the table. *)
Definition client_register : C Z := fun c =>
  let n := getNextId (c_lastId c) in
  let id := query_id n in
  Some (Ret id, {| c_lastId := n; c_queries := {[id]} ∪ c_queries c; wsSubscribers := wsSubscribers c;
                   queue := queue c; wsc := wsc c |}).

Definition client_request (jsonMap : Json) (timeout_s : Z) : C Json :=
  id ← client_register;
  c ← this_client;
  if ws_isConnected (wsc c) then
    on_ws (ws_send (dump (request_json jsonrpcVersion id jsonMap))) ;;
    on_ws ws_wait ;;
    result ← handle_arrived id;
    modify_client (fun c => set_queries (c_queries c ∖ {[id]}) c) ;;
    mret result
  else result_of (Throw not_connected).

Definition client_subscribeWs (jsonMap : Json) : C Z :=
  response ← client_request jsonMap RESPONSE_TIMEOUT_S;
  subscriptionId ← result_of (int_value response);
  modify_client (fun c => set_subscribers (subscriptionId :: wsSubscribers c) c) ;;
  mret subscriptionId.

(** [eraseKey] follows null pointers for a key without semaphores, and deletes the
    semaphore on which a [put] waits. The consumer of a subscription makes those of
    its key. The updates in the queue stay there. *)
Definition client_eraseKey (key : Z) : C unit := fun c =>
  let made := consumed c key || bool_decide (is_Some (filled (queue c) !! key)) in
  let waiting := match stuck (queue c) with Some (u, _) => u.1 =? key | None => false end in
  if made && negb waiting then
    Some (Ret tt, set_queue (set_filled (delete key (filled (queue c))) (queue c))
      (set_subscribers (filter (fun i => i <> key) (wsSubscribers c)) c))
  else Some (UB, c).

Definition client_unsubscribeWs (subscriptionId : Z) (method : list Z) : C Z :=
  if subscriptionId =? 0 then mret 0
  else
    let unsubscribeQuery := JObject [(str "method", JString (cstr method)); (str "params", JArray [JInt subscriptionId])] in
    client_request unsubscribeQuery RESPONSE_TIMEOUT_S ;;
    client_eraseKey subscriptionId ;;
    mret 0.

(** Time passes between calls. *)
Definition client_idle : C unit :=
  on_ws ws_wait ;;
  handle_arrived 0 ;;
  mret tt.

(** The updates that have a consumer. Those of a subscription that has ended stay in
    its queue. *)
Definition client_inbox (c : client) : list (Z * Json) := filter (fun u => u.1 ∈ wsSubscribers c) (pending_updates c).
Definition client_set_inbox (l : list (Z * Json)) (c : client) : client :=
  set_updates (filter (fun u => ~ u.1 ∈ wsSubscribers c) (pending_updates c) ++ l) c.

#[export] Instance json_rpc_client : IJsonRpc := {|
  rpc := client;
  rpc_connect := client_connect;
  rpc_disconnect := client_disconnect;
  rpc_request := client_request;
  rpc_subscribeWs := client_subscribeWs;
  rpc_unsubscribeWs := client_unsubscribeWs;
  rpc_inbox := client_inbox;
  rpc_set_inbox := client_set_inbox;
|}.
End client.

(** ** Messages of the node *)

Section messages.
Context `{D : Doubles}.

(** The answer to a request, and an update of a subscription. *)
Definition answer_json (version : list Z) (id : Z) (result : Json) : Json :=
  JObject [(str "id", JInt id); (str "jsonrpc", JString version); (str "result", result)].
Definition update_json (version method : list Z) (subscription : Z) (result : Json) : Json :=
  JObject [(str "jsonrpc", JString version); (str "method", JString method);
           (str "params", JObject [(str "result", result); (str "subscription", JInt subscription)])].

Lemma parse_payload_dump j : json_ok 0 j = true -> parse_payload (dump j) = j.
Proof. intros H. unfold parse_payload. by rewrite parse_of_dump. Qed.

Lemma route_answer waiting version id result : json_ok 0 (answer_json version id result) = true ->
  id <> 0 -> id <> INT_MAX -> waiting id = true ->
  route waiting (dump (answer_json version id result)) = Ret (ToRequest id result).
Proof.
  intros Hok H0 Hm Hw. unfold route. rewrite parse_payload_dump by done.
  change (member (answer_json version id result) "id") with (JInt id).
  change (member (answer_json version id result) "params") with JNull.
  change (member (answer_json version id result) "result") with result. cbn [is_null int_value]. ostep.
  rewrite (proj2 (Z.eqb_neq id INT_MAX)), (proj2 (Z.eqb_neq id 0)), Hw by done. done.
Qed.

Lemma route_update waiting version method sid result : json_ok 0 (update_json version method sid result) = true -> sid <> 0 ->
  route waiting (dump (update_json version method sid result)) = Ret (ToSubscription sid (update_json version method sid result)).
Proof.
  intros Hok H0. unfold route. rewrite parse_payload_dump by done.
  change (member (update_json version method sid result) "id") with JNull.
  change (member (member (update_json version method sid result) "params") "subscription") with (JInt sid).
  change (is_null (member (update_json version method sid result) "params")) with false. cbn [is_null int_value]. ostep.
  rewrite (proj2 (Z.eqb_neq sid 0)) by done. done.
Qed.

Lemma route_ext waiting waiting' payload : (forall i, waiting i = waiting' i) -> route waiting payload = route waiting' payload.
Proof. intros H. unfold route. apply bind_ext_outcome. intros i. apply bind_ext_outcome. intros k. by rewrite H. Qed.
End messages.

(** ** Requests that are answered *)

Section answered.
Context `{D : Doubles} `{W : IWebSocketClient} (version : list Z).
Implicit Types (c : client).

(** Updates of subscriptions, as texts and as what their consumers get. *)
Definition update_text (u : list Z * Z * Json) : list Z := dump (update_json version u.1.1 u.1.2 u.2).
Definition update_ok (u : list Z * Z * Json) : Prop := json_ok 0 (update_json version u.1.1 u.1.2 u.2) = true /\ u.1.2 <> 0.
Definition update_of (u : list Z * Z * Json) : Z * Json := (u.1.2, u.2).

(** Putting several updates, if there is room for all. *)
Fixpoint put_all (consumed : Z -> bool) (us : list (Z * Json)) (q : queues) : option queues :=
  match us with
  | [] => Some q
  | u :: us' => q' ← put_response consumed u q; put_all consumed us' q'
  end.

Lemma put_response_spec consumed u q q' : put_response consumed u q = Some q' ->
  q_pending q' = q_pending q ++ [u] /\ stuck q' = stuck q.
Proof. unfold put_response. destruct (consumed _); [|destruct (_ <? _)%nat; [|done]]; by intros [= <-]. Qed.

Lemma put_all_spec consumed us q q' : put_all consumed us q = Some q' -> q_pending q' = q_pending q ++ us /\ stuck q' = stuck q.
Proof.
  revert q. induction us as [|u us IH]; intros q E; [injection E as <-; by rewrite app_nil_r|].
  cbn [put_all] in E. destruct (put_response consumed u q) as [q1|] eqn:E1; [|done].
  destruct (put_response_spec _ _ _ _ E1) as [P1 S1]. destruct (IH q1 E) as [P2 S2]. rewrite P2, P1, <- app_assoc. split; [done|congruence].
Qed.

Lemma put_all_app consumed us us' q : put_all consumed (us ++ us') q = (q' ← put_all consumed us q; put_all consumed us' q').
Proof. revert q. induction us as [|u us IH]; intros q; [done|]. cbn [app put_all]. destruct (put_response consumed u q) as [q1|]; [apply IH|done]. Qed.

(** There is always room for updates that have a consumer. *)
Lemma put_all_consumed consumed us q : Forall (fun u => consumed u.1 = true) us ->
  put_all consumed us q = Some (set_pending (q_pending q ++ us) q).
Proof.
  intros Hus. revert q. induction Hus as [|u us Hu _ IH]; intros q; [destruct q; cbn; by rewrite app_nil_r|].
  cbn [put_all]. unfold put_response. rewrite Hu. cbn [mbind option_bind]. rewrite IH. cbn. by rewrite <- app_assoc.
Qed.

(** How many of the updates are for a key. *)
Definition count_key (key : Z) (us : list (Z * Json)) : nat := length (filter (fun u => u.1 = key) us).

(** There is room when no key without a consumer gets more than its queue takes. *)
Lemma put_all_room consumed us q :
  (forall key, consumed key = false -> (filled_at q key + count_key key us <= RESPONSE_QUEUE_MAX_SIZE - 1)%nat) ->
  is_Some (put_all consumed us q).
Proof.
  revert q. induction us as [|u us IH]; intros q Hr; [by eexists|]. cbn [put_all]. unfold put_response at 1.
  assert (forall key, count_key key (u :: us) = ((if decide (u.1 = key) then 1 else 0) + count_key key us)%nat) as Hc.
  { intros key. unfold count_key. rewrite filter_cons. by destruct (decide (u.1 = key)). }
  destruct (consumed u.1) eqn:Eu.
  - cbn [mbind option_bind]. apply IH. intros key Hk. specialize (Hr key Hk). rewrite Hc in Hr. unfold filled_at in *. cbn [filled set_pending]. destruct (decide _) in Hr; lia.
  - pose proof (Hr _ Eu) as Hu. rewrite Hc, decide_True in Hu by done. rewrite (proj2 (Nat.ltb_lt _ _)) by lia.
    cbn [mbind option_bind]. apply IH. intros key Hk. specialize (Hr key Hk). rewrite Hc in Hr. unfold filled_at in *.
    cbn [filled set_filled set_pending]. destruct (decide (u.1 = key)) as [<-|Hne].
    + rewrite lookup_insert_eq. change (default 0%nat (Some ?x)) with x. lia.
    + rewrite lookup_insert_ne by done. lia.
Qed.

Lemma handle_updates id known consumed us rest result q q' : Forall update_ok us -> put_all consumed (update_of <$> us) q = Some q' ->
  handle_messages id known consumed ((update_text <$> us) ++ rest) result q = handle_messages id known consumed rest result q'.
Proof.
  intros Hus. revert q. induction Hus as [|[[m sid] v] us [Hok H0] _ IH]; intros q E; [by injection E as <-|].
  cbn [fst snd] in *. cbn [fmap list_fmap app handle_messages put_all] in *.
  change (update_text (m, sid, v)) with (dump (update_json version m sid v)). rewrite route_update by done. ostep.
  change (update_value (update_json version m sid v)) with v. change (update_of (m, sid, v)) with (sid, v) in E.
  destruct (put_response consumed (sid, v) q) as [q1|]; [|done]. by apply IH.
Qed.

(** The node answers the request: it is sent, and the messages that have come when the
    wait ends are updates, the answer, and more updates, for which there is room. *)
Definition exchange (text : list Z) (w : ws) (messages : list (list Z)) (w' : ws) : Prop :=
  exists e w1 w2, ws_send text w = Some (Ret e, w1) /\ ws_wait w1 = Some (Ret tt, w2) /\ ws_take w2 = (messages, w').

Definition node_answers (jsonMap : Json) (result : Json) (pre post : list (list Z * Z * Json)) (w : ws) c : Prop :=
  let id := c_lastId c + 1 in
  0 <= c_lastId c < INT_MAX - 1 /\ ws_isConnected (wsc c) = true /\ json_ok 0 (answer_json version id result) = true
  /\ Forall update_ok pre /\ Forall update_ok post
  /\ stuck (queue c) = None /\ is_Some (put_all (consumed c) (update_of <$> pre ++ post) (queue c))
  /\ exchange (dump (request_json version id jsonMap)) (wsc c)
       ((update_text <$> pre) ++ dump (answer_json version id result) :: (update_text <$> post)) w.

Definition after_request (pre post : list (list Z * Z * Json)) (w : ws) c : client := {|
  c_lastId := c_lastId c + 1; c_queries := c_queries c ∖ {[c_lastId c + 1]}; wsSubscribers := wsSubscribers c;
  queue := default (queue c) (put_all (consumed c) (update_of <$> pre ++ post) (queue c)); wsc := w |}.

Lemma after_request_pending jsonMap result pre post w c : node_answers jsonMap result pre post w c ->
  pending_updates (after_request pre post w c) = pending_updates c ++ (update_of <$> pre ++ post)
  /\ stuck (queue (after_request pre post w c)) = None.
Proof.
  intros (_ & _ & _ & _ & _ & Hs & [q Hq] & _). unfold pending_updates, after_request. cbn [queue]. rewrite Hq. cbn [default].
  destruct (put_all_spec _ _ _ _ Hq) as [Hp Hq']. split; [exact Hp|exact (eq_trans Hq' Hs)].
Qed.

Lemma client_request_answered jsonMap timeout_s result pre post w c :
  node_answers jsonMap result pre post w c ->
  client_request version jsonMap timeout_s c = Some (Ret result, after_request pre post w c).
Proof.
  intros (Hid & Hc & Hok & Hpre & Hpost & Hs & [q Hq] & (e & w1 & w2 & Es & Ew & Et)). unfold INT_MAX in Hid.
  destruct (query_id_small (c_lastId c) ltac:(unfold INT_MAX; lia)) as [E1 E2].
  unfold after_request. rewrite Hq. cbn [default]. rewrite fmap_app, put_all_app in Hq.
  destruct (put_all (consumed c) (update_of <$> pre) (queue c)) as [q1|] eqn:Hq1; [|done]. cbn [mbind option_bind] in Hq.
  unfold client_request, client_register, this_client, current, on_ws, on_part, modify_client, changes, mret, C_ret, call_ret, mbind, C_bind, call_bind.
  cbn -[request_json]. rewrite Hc, E2, E1. cbn [wsc]. rewrite Es. cbn [wsc set_wsc]. rewrite Ew. unfold handle_arrived. cbn [wsc set_wsc]. rewrite Et.
  unfold receive_messages. cbn [set_wsc c_queries queue]. rewrite Hs.
  change (consumed (set_wsc w _)) with (consumed c). rewrite (handle_updates _ _ _ pre _ _ _ q1) by done.
  cbn [handle_messages]. rewrite route_answer by (done || unfold INT_MAX; lia || (apply bool_decide_eq_true_2; set_solver)). ostep. rewrite Z.eqb_refl.
  rewrite <- (app_nil_r (update_text <$> post)), (handle_updates _ _ _ post _ _ _ q) by done. cbn [handle_messages].
  unfold set_queries, set_queue, set_wsc. cbn. do 3 f_equal. set_solver.
Qed.

(** The object over this client. *)
Context `{SW : StdWhat}.
#[local] Existing Instance json_rpc_client.

(** C23: a runtime version gets from the node to the application unchanged. For every
    well-formed runtime version that the node prints in its answer to
    [chain_getRuntimeVersion], [getRuntimeVersion] of the API object over the
    JSON-RPC client returns it, and the object is as before. *)
Theorem runtimeVersion_end_to_end rv params pre post w (st : state (J := json_rpc_client version)) :
  rv_ok rv -> node_answers (query "chain_getRuntimeVersion" (hash_param params)) (rv_json rv) pre post w (node st) ->
  getRuntimeVersion (J := json_rpc_client version) params st
  = Some (Ret rv, set_node (J := json_rpc_client version) (after_request pre post w (node st)) st).
Proof.
  intros Hrv Hn. unfold getRuntimeVersion, Api.get, request, on_node.
  unfold mbind, M_bind, call_bind. change (rpc_request (IJsonRpc := json_rpc_client version)) with (client_request version).
  unfold on_part. rewrite (client_request_answered _ _ _ _ _ _ _ Hn). unfold run, deserialize.
  by rewrite (createRuntimeVersion_ok rv Hrv).
Qed.
End answered.

(** ** Requests are executions of the threads *)

Section execution.
Context `{D : Doubles} `{W : IWebSocketClient} (version : list Z).
Implicit Types (s : CJsonRpc) (c : client).

(** What the consumer of a subscription gets of a queued message. *)
Definition value_of (u : Z * Json) : Z * Json := (u.1, update_value u.2).

(** Thread [t] waits for the answer to its request [id], which has been stored if
    [result] is not null; the other elements of the table belong to [known]. *)
Record waits (t : nat) (id : Z) (since : nat) (known : gset Z) (result : Json) s : Prop := {
  waits_lastId : lastId s < INT_MAX;
  waits_receiver : receiver s = Listening;
  waits_caller : callers s !! t = Some (Waiting id since) \/ callers s !! t = Some (Woken id since);
  waits_query : queries s !! id = Some {| q_json := result; q_owner := t; q_since := since |};
  waits_queries : forall i, is_Some (queries s !! i) <-> i ∈ known;
}.

Lemma waits_is_waiting t id since known result s i : waits t id since known result s ->
  is_waiting s i = bool_decide (i ∈ known).
Proof.
  intros Hw. unfold is_waiting. apply bool_decide_ext, (waits_queries _ _ _ _ _ _ Hw).
Qed.

Lemma reaches_step s s' : rpc_step version s (Ret s') -> lastId s < INT_MAX -> reaches version s s'.
Proof. intros. by apply rtc_once. Qed.

(** The answer is received, stored and notified. *)
Lemma answer_execution t id since known result j payload s :
  waits t id since known result s -> route (is_waiting s) payload = Ret (ToRequest id j) ->
  exists s', reaches version s s' /\ waits t id since known j s' /\ sent s' = sent s /\ updates s' = updates s
    /\ lastId s' = lastId s.
Proof.
  intros Hw Hr. pose proof Hw as [Hl Hv Hc Hq Hqs].
  set (s1 := set_receiver (Storing id j) (log_received payload s)).
  assert (rpc_step version s (Ret s1)) as H1
    by (replace (Ret s1) with (receive payload s) by (unfold receive; rewrite Hr; reflexivity); by apply step_receive).
  assert (exists s2, store_answer id j s1 = Ret s2 /\ receiver s2 = Notifying t id /\ callers s2 = callers s
    /\ queries s2 = <[id := {| q_json := j; q_owner := t; q_since := since |}]> (queries s)
    /\ sent s2 = sent s /\ updates s2 = updates s /\ lastId s2 = lastId s) as (s2 & E2 & R2 & C2 & Q2 & S2 & U2 & L2).
  { unfold store_answer, s1. cbn. rewrite Hq. eexists. split; [reflexivity|]. by split_and!. }
  assert (exists s3, notify t id s2 = Ret s3 /\ receiver s3 = Listening /\ callers s3 !! t = Some (Woken id since)
    /\ queries s3 = queries s2 /\ sent s3 = sent s2 /\ updates s3 = updates s2 /\ lastId s3 = lastId s2) as (s3 & E3 & R3 & C3 & Q3 & S3 & U3 & L3).
  { unfold notify. rewrite C2. destruct Hc as [Hc|Hc]; rewrite Hc, Z.eqb_refl; eexists; (split; [reflexivity|]); cbn; rewrite ?C2.
    - rewrite list_lookup_insert_eq by (by apply lookup_lt_Some in Hc). by split_and!.
    - by split_and!. }
  exists s3. split; [|split; [|by rewrite S3, U3, L3, S2, U2, L2]].
  - unfold reaches. etrans; [by apply reaches_step|]. etrans; [apply reaches_step; [|done]; rewrite <- E2; by apply step_patient, do_store|].
    apply reaches_step; [rewrite <- E3; by apply step_patient, do_notify|by rewrite L2].
  - split; [by rewrite L3, L2|done|by right|rewrite Q3, Q2; by apply lookup_insert_eq|].
    intros i. rewrite Q3, Q2, lookup_insert_is_Some', Hqs. split; [intros [<-|?]; [|done]|by right]. apply Hqs. by eexists.
Qed.

(** A message that is no answer is handled in one action. *)
Lemma other_execution t id since known result r payload s :
  waits t id since known result s -> route (is_waiting s) payload = Ret r -> (forall i j, r <> ToRequest i j) ->
  exists s', reaches version s s' /\ waits t id since known result s' /\ sent s' = sent s /\ lastId s' = lastId s
    /\ updates s' = updates s ++ (match r with ToSubscription i json => [(i, json)] | _ => [] end).
Proof.
  intros [Hl Hv Hc Hq Hqs] Hr Hn.
  assert (exists s', receive payload s = Ret s' /\ receiver s' = Listening /\ callers s' = callers s /\ queries s' = queries s
    /\ sent s' = sent s /\ lastId s' = lastId s
    /\ updates s' = updates s ++ (match r with ToSubscription i json => [(i, json)] | _ => [] end)) as (s' & E & R & C & Q & ? & L & ?).
  { unfold receive. rewrite Hr. destruct r; [|by edestruct Hn| |]; (eexists; split; [reflexivity|]); cbn; rewrite ?app_nil_r; by split_and!. }
  exists s'. split; [apply reaches_step; [rewrite <- E; by apply step_receive|done]|]. split; [|done]. by split; rewrite ?L, ?C, ?Q.
Qed.

(** [handle_messages] is an execution of the receiving thread. *)
Lemma messages_execution t id since known consumed messages result q result' q' s :
  waits t id since known result s -> handle_messages id known consumed messages result q = Ret (result', q') ->
  exists s' new, reaches version s s' /\ waits t id since known result' s' /\ sent s' = sent s /\ lastId s' = lastId s
    /\ updates s' = updates s ++ new /\ q_pending q' = q_pending q ++ (value_of <$> new).
Proof.
  revert result q s. induction messages as [|payload messages IH]; intros result q s Hw E.
  - injection E as <- <-. exists s, []. cbn [fmap list_fmap]. rewrite !app_nil_r. split_and!; [apply rtc_refl|done..].
  - cbn [handle_messages] in E. rewrite (route_ext _ (is_waiting s)) in E by (intros i; by rewrite (waits_is_waiting _ _ _ _ _ _ _ Hw)).
    destruct (route (is_waiting s) payload) as [r| |] eqn:Hr; [|done|done]. revert E. ostep. intros E.
    assert ((exists i j, r = ToRequest i j) \/ forall i j, r <> ToRequest i j) as [(i & j & ->)|Hn]
      by (destruct r; [right|left; by eexists _, _|right|right]; done).
    + destruct (Z.eqb_spec i id) as [->|]; [|done]. destruct (answer_execution _ _ _ _ _ _ _ _ Hw Hr) as (s1 & H1 & Hw1 & S1 & U1 & L1).
      destruct (IH _ _ _ Hw1 E) as (s' & new & H2 & Hw2 & S2 & L2 & U2 & P2). exists s', new.
      rewrite S2, L2, U2, S1, L1, U1. split; [unfold reaches; by etrans|]. by split_and!.
    + assert ((exists i json, r = ToSubscription i json /\ put_response consumed (i, update_value json) q = None /\ result' = result /\ q_pending q' = q_pending q)
        \/ exists q1, q_pending q1 = q_pending q ++ (value_of <$> (match r with ToSubscription i json => [(i, json)] | _ => [] end))
             /\ handle_messages id known consumed messages result q1 = Ret (result', q')) as [(i & json & -> & _ & -> & Hp)|(q1 & Hp & E')].
      { destruct r as [|i j|i j|]; try (right; exists q; by rewrite app_nil_r); [by destruct (Hn i j)|].
        destruct (put_response consumed (i, update_value j) q) as [q1|] eqn:Ep; [right; exists q1|left; exists i, j; by injection E as <- <-].
        by destruct (put_response_spec _ _ _ _ Ep) as [-> _]. }
      * exists s, []. cbn [fmap list_fmap]. rewrite !app_nil_r. split_and!; [apply rtc_refl|done..].
      * destruct (other_execution _ _ _ _ _ _ _ _ Hw Hr Hn) as (s1 & H1 & Hw1 & S1 & L1 & U1).
        destruct (IH _ _ _ Hw1 E') as (s' & new & H2 & Hw2 & S2 & L2 & U2 & P2). exists s'. eexists.
        rewrite S2, L2, U2, S1, L1, U1, P2, Hp, <- !app_assoc. split; [unfold reaches; by etrans|]. split; [done|]. split_and!; try done.
        by rewrite fmap_app.
Qed.

(** The wait ends, and the result is taken. *)
Lemma take_execution t id since known result s : waits t id since known result s ->
  exists s', reaches version s s' /\ callers s' !! t = Some (Returned id since (Ret result))
    /\ sent s' = sent s /\ updates s' = updates s /\ lastId s' = lastId s /\ receiver s' = Listening
    /\ forall i, is_Some (queries s' !! i) <-> i ∈ known ∖ {[id]}.
Proof.
  intros [Hl Hv Hc Hq Hqs].
  assert (exists s1, reaches version s s1 /\ callers s1 !! t = Some (Woken id since) /\ queries s1 = queries s
    /\ sent s1 = sent s /\ updates s1 = updates s /\ lastId s1 = lastId s /\ receiver s1 = Listening) as (s1 & H1 & C1 & Q1 & S1 & U1 & L1 & R1).
  { destruct Hc as [Hc|Hc]; [|exists s; split_and!; try done; apply rtc_refl].
    eexists. split; [apply reaches_step; [by eapply step_wait_ends|done]|]. cbn.
    rewrite list_lookup_insert_eq by (by apply lookup_lt_Some in Hc). by split_and!. }
  exists (take_result t id since s1). split; [unfold reaches; etrans; [exact H1|]; apply reaches_step; [by apply step_patient, do_take|by rewrite L1]|].
  unfold take_result. cbn. rewrite list_lookup_insert_eq by (by apply lookup_lt_Some in C1). rewrite Q1, Hq. split_and!; try done.
  intros i. rewrite lookup_delete_is_Some, Hqs. set_solver.
Qed.

(** The request is sent, and the caller waits. *)
Lemma send_execution t id since request known s :
  lastId s < INT_MAX -> receiver s = Listening -> callers s !! t = Some (Registered id since request) -> connected s = true ->
  queries s !! id = Some {| q_json := JNull; q_owner := t; q_since := since |} ->
  (forall i, is_Some (queries s !! i) <-> i ∈ known) ->
  exists s', reaches version s s' /\ waits t id since known JNull s' /\ sent s' = sent s ++ [dump request]
    /\ updates s' = updates s /\ lastId s' = lastId s.
Proof.
  intros Hl Hv Hc Hk Hq Hqs. pose proof (lookup_lt_Some _ _ _ Hc) as Hlen.
  set (s1 := set_caller t (Sent id since) (send_text (dump request) s)).
  assert (callers s1 !! t = Some (Sent id since)) as C1 by (cbn; by rewrite list_lookup_insert_eq).
  exists (set_caller t (Waiting id since) s1). split.
  - unfold reaches. etrans; [apply (reaches_step _ s1); [|done]; by eapply step_patient, do_send|].
    apply reaches_step; [by apply step_patient, do_wait|done].
  - split; [|done]. split; try done. left. cbn. by rewrite list_lookup_insert_eq by (by rewrite length_insert).
Qed.

(** Nothing in a message makes the receiving thread throw. *)
Lemma handle_messages_no_throw id known consumed messages result q e :
  handle_messages id known consumed messages result q <> Throw e.
Proof.
  revert result q. induction messages as [|payload messages IH]; intros result q; [done|]. cbn [handle_messages].
  destruct (route _ payload) as [r|e'|] eqn:Er; ostep; [|exfalso; by eapply route_no_throw|done].
  destruct r as [|i j|i j|]; try done; [by destruct (i =? id)|by destruct (put_response _ _ _)].
Qed.

(** The two states before a call of [request] by thread [t]: no other request is in
    progress. *)
Record idle (t : nat) c s : Prop := {
  idle_lastId : lastId s = c_lastId c;
  idle_connected : connected s = ws_isConnected (wsc c);
  idle_caller : callers s !! t = Some Outside;
  idle_receiver : receiver s = Listening;
  idle_queries : forall i, is_Some (queries s !! i) <-> i ∈ c_queries c;
}.

(** The id is not in the table, and all actions are those of [register] and [do_send]. *)
Lemma register_idle n t jsonMap c s : reaches version (newCJsonRpc n) s -> idle t c s -> c_lastId c < INT_MAX - 1 ->
  let id := c_lastId c + 1 in
  let s1 := register version t jsonMap s in
  reaches version s s1 /\ lastId s1 = id /\ lastId s1 < INT_MAX
  /\ callers s1 !! t = Some (Registered id (length (answers s)) (request_json version id jsonMap))
  /\ queries s1 = <[id := {| q_json := JNull; q_owner := t; q_since := length (answers s) |}]> (queries s)
  /\ connected s1 = connected s /\ receiver s1 = Listening /\ updates s1 = updates s /\ sent s1 = sent s
  /\ getNextId (c_lastId c) = id /\ query_id (getNextId (c_lastId c)) = id.
Proof.
  intros Hr [Hl Hc Ht Hv Hq] Hmax id s1. pose proof (reaches_inv version n s Hr) as I. pose proof (inv_lastId s I) as H0.
  destruct (query_id_small (c_lastId c) ltac:(lia)) as [E1 E2].
  assert (s1 = register version t jsonMap s) as E by done. unfold register in E. rewrite Hl, E2, E1 in E.
  split; [apply reaches_step; [by apply step_patient, do_register|rewrite Hl; lia]|]. rewrite E. cbn -[request_json].
  rewrite list_lookup_insert_eq by (by apply lookup_lt_Some in Ht). split_and!; try (done || lia || congruence).
Qed.

(** How the call goes on when its request is in the table. *)
Lemma client_request_eq jsonMap timeout_s c : c_lastId c < INT_MAX - 1 -> 0 <= c_lastId c ->
  client_request version jsonMap timeout_s c
  = (let id := c_lastId c + 1 in
     let c1 := {| c_lastId := id; c_queries := {[id]} ∪ c_queries c; wsSubscribers := wsSubscribers c;
                  queue := queue c; wsc := wsc c |} in
     if ws_isConnected (wsc c) then
       match ws_send (dump (request_json version id jsonMap)) (wsc c) with
       | Some (Ret _, w1) =>
           match ws_wait w1 with
           | Some (Ret _, w2) =>
               match handle_arrived id (set_wsc w2 c1) with
               | Some (Ret result, c2) => Some (Ret result, set_queries (c_queries c2 ∖ {[id]}) c2)
               | o => o
               end
           | Some (Throw e, w2) => Some (Throw e, set_wsc w2 c1)
           | Some (UB, w2) => Some (UB, set_wsc w2 c1)
           | None => None
           end
       | Some (Throw e, w1) => Some (Throw e, set_wsc w1 c1)
       | Some (UB, w1) => Some (UB, set_wsc w1 c1)
       | None => None
       end
     else Some (Throw not_connected, c1)).
Proof.
  intros Hmax H0. destruct (query_id_small (c_lastId c) ltac:(lia)) as [E1 E2].
  unfold client_request, client_register, this_client, current, on_ws, on_part, modify_client, changes, result_of, ends.
  unfold mret, C_ret, call_ret, mbind, C_bind, call_bind. rewrite E2, E1. cbn -[request_json handle_arrived].
  destruct (ws_isConnected _); [|done]. cbn [wsc]. destruct (ws_send _ _) as [[[e|e|] w1]|]; cbn -[handle_arrived]; try done.
  destruct (ws_wait w1) as [[[[]|e'|] w2]|]; cbn -[handle_arrived]; done.
Qed.

(** C11: a request run to its end is an execution of the threads. From every reachable
    state of the threads in which no call is in progress, when no [put] waits for room
    and [client_request] returns a result, the threads can reach a state in which the caller returns the
    same result, the same text has been sent, the same updates have been queued and
    the counter is the same; when it throws - without a connection, or because sending
    throws - the threads can throw the same; and the table then has the same keys. *)
Theorem request_is_execution n t jsonMap timeout_s c s o c' :
  reaches version (newCJsonRpc n) s -> idle t c s -> c_lastId c < INT_MAX - 1 -> stuck (queue c) = None ->
  client_request version jsonMap timeout_s c = Some (o, c') -> o <> UB ->
  exists s' new, reaches version s s'
    /\ callers s' !! t = Some (Returned (lastId s') (length (answers s)) o)
    /\ sent s' = sent s ++ (match o with Ret _ => [dump (request_json version (lastId s') jsonMap)] | _ => [] end)
    /\ updates s' = updates s ++ new /\ pending_updates c' = pending_updates c ++ (value_of <$> new)
    /\ lastId s' = c_lastId c' /\ receiver s' = Listening
    /\ forall i, is_Some (queries s' !! i) <-> i ∈ c_queries c'.
Proof.
  intros Hr Hi Hmax Hs E Ho. pose proof (inv_lastId s (reaches_inv version n s Hr)) as H0. rewrite (idle_lastId t c s Hi) in H0.
  destruct (register_idle n t jsonMap c s Hr Hi Hmax) as (H1 & L1 & M1 & C1 & Q1 & K1 & V1 & U1 & S1 & _).
  revert H1 L1 M1 C1 Q1 K1 V1 U1 S1. generalize (register version t jsonMap s). intros s1 H1 L1 M1 C1 Q1 K1 V1 U1 S1.
  pose proof (idle_queries t c s Hi) as Hqs. rewrite (idle_connected t c s Hi) in K1.
  assert (t < length (callers s1))%nat as Hlen by (by apply lookup_lt_Some in C1).
  rewrite client_request_eq in E by done. set (id := c_lastId c + 1) in *. cbv beta iota zeta in E.
  assert (forall i, is_Some (queries s1 !! i) <-> i ∈ {[id]} ∪ c_queries c) as Hqs1
    by (intros i; rewrite Q1, lookup_insert_is_Some', Hqs; set_solver).
  match goal with |- ?G => assert (forall ex w, rpc_step version s1 (Ret (set_caller t (Returned id (length (answers s)) (Throw ex)) s1)) -> o = Throw ex ->
    c' = set_wsc w {| c_lastId := id; c_queries := {[id]} ∪ c_queries c; wsSubscribers := wsSubscribers c;
                      queue := queue c; wsc := wsc c |} -> G) as Hthrow end.
  { intros ex w Hst -> ->. eexists. exists []. split; [unfold reaches; etrans; [exact H1|]; by apply reaches_step|].
    cbn [set_caller callers sent updates lastId receiver queries c_lastId c_queries fmap list_fmap set_wsc].
    rewrite list_lookup_insert_eq, !app_nil_r, L1 by done. by split_and!. }
  destruct (ws_isConnected (wsc c)).
  2: { injection E as <- <-. apply (Hthrow not_connected (wsc c)); [by eapply step_refused|done..]. }
  destruct (ws_send _ (wsc c)) as [[[e|ex|] w1]|]; [|injection E as <- <-; apply (Hthrow ex w1); [by eapply step_send_throws|done..]|by injection E as <- <-|done].
  destruct (ws_wait_ends w1) as [w2 [Ew|Ew]]; rewrite Ew in E; [|by injection E as <- <-].
  unfold handle_arrived in E. cbn [wsc set_wsc] in E. destruct (ws_take w2) as [messages w3]. cbn [c_queries queue set_wsc] in E.
  unfold receive_messages in E. rewrite Hs in E.
  destruct (handle_messages _ _ _ _ _ _) as [[result q']|ex|] eqn:Em; [|exfalso; by eapply handle_messages_no_throw|by injection E as <- <-].
  injection E as <- <-.
  assert (queries s1 !! id = Some {| q_json := JNull; q_owner := t; q_since := length (answers s) |}) as Hq1 by (rewrite Q1; apply lookup_insert_eq).
  destruct (send_execution _ _ _ _ _ _ M1 V1 C1 K1 Hq1 Hqs1) as (s2 & H2 & W2 & S2 & U2 & L2).
  destruct (messages_execution _ _ _ _ _ _ _ _ _ _ _ W2 Em) as (s3 & new & H3 & W3 & S3 & L3 & U3 & P3).
  destruct (take_execution _ _ _ _ _ _ W3) as (s4 & H4 & C4 & S4 & U4 & L4 & R4 & Q4).
  exists s4, new. rewrite S4, S3, S2, S1, U4, U3, U2, U1, L4, L3, L2, L1. split_and!; try done.
  unfold reaches. by repeat (etrans; [eassumption|]).
Qed.
End execution.

(** ** Updates that nobody takes *)

Section starvation.
Context `{D : Doubles} `{W : IWebSocketClient} (version : list Z).
Implicit Types (c : client).

(** The receiving thread waits for room in the queue of [key], which has no consumer. *)
Record starved (key : Z) c : Prop := {
  starved_key : key <> 0;
  starved_alone : key ∉ wsSubscribers c;
  starved_full : (RESPONSE_QUEUE_MAX_SIZE - 1 <= filled_at (queue c) key)%nat;
  starved_put : exists v behind, stuck (queue c) = Some (key, v, behind);
}.

(** Everything that the API object does with its client: whatever returns or throws. *)
Inductive client_step c : client -> Prop :=
| client_connects node_url o c' : client_connect node_url c = Some (o, c') -> o <> UB -> client_step c c'
| client_disconnects o c' : client_disconnect c = Some (o, c') -> o <> UB -> client_step c c'
| client_requests q timeout_s o c' : client_request version q timeout_s c = Some (o, c') -> o <> UB -> client_step c c'
| client_subscribes q o c' : client_subscribeWs version q c = Some (o, c') -> o <> UB -> client_step c c'
| client_unsubscribes key method o c' : client_unsubscribeWs version key method c = Some (o, c') -> o <> UB -> client_step c c'
| client_idles o c' : client_idle c = Some (o, c') -> o <> UB -> client_step c c'
| client_consumes l : client_step c (client_set_inbox l c).

Lemma starved_same key c c' : starved key c -> wsSubscribers c' = wsSubscribers c -> queue c' = queue c -> starved key c'.
Proof. intros [H1 H2 H3 H4] Es Eq. by split; rewrite ?Es, ?Eq. Qed.

(** Code that, started while [key] starves, leaves it so, queues no update, and returns
    only results in [Q]. *)
Definition starves {A} (key : Z) (m : call client A) (Q : A -> Prop) : Prop :=
  forall c o c', starved key c -> m c = Some (o, c') -> o <> UB ->
    starved key c' /\ pending_updates c' = pending_updates c /\ forall x, o = Ret x -> Q x.

Lemma starves_bind {A B} key (m : call client A) (f : A -> call client B) R Q :
  starves key m R -> (forall x, R x -> starves key (f x) Q) -> starves key (m ≫= f) Q.
Proof.
  intros Hm Hf c o c' Hs E Ho. unfold mbind, call_bind in E. destruct (m c) as [[[x|e|] c1]|] eqn:Em; [| |by injection E as <- <-|done].
  - destruct (Hm _ _ _ Hs Em) as (Hs1 & P1 & HR); [done|]. destruct (Hf x (HR x eq_refl) _ _ _ Hs1 E Ho) as (Hs2 & P2 & HQ).
    split; [done|]. split; [congruence|done].
  - injection E as <- <-. by destruct (Hm _ _ _ Hs Em) as (? & ? & _).
Qed.

Lemma starves_same {A} key (m : call client A) (Q : A -> Prop) :
  (forall c o c', m c = Some (o, c') -> wsSubscribers c' = wsSubscribers c /\ queue c' = queue c /\ forall x, o = Ret x -> Q x) -> starves key m Q.
Proof.
  intros Hm c o c' Hs E _. destruct (Hm c o c' E) as (E1 & E2 & HQ). split; [by apply (starved_same key c)|].
  split; [unfold pending_updates; by rewrite E2|done].
Qed.

Lemma starves_ret {A} key (x : A) (Q : A -> Prop) : Q x -> starves key (mret x) Q.
Proof. intros HQ. apply starves_same. intros c o c' [= <- <-]. split; [done|]. split; [done|]. by intros y [= <-]. Qed.

Lemma starves_on_ws {A} key (m : call ws A) : starves key (on_ws m) (fun _ => True).
Proof.
  apply starves_same. intros c o c' E. unfold on_ws, on_part in E. destruct (m (wsc c)) as [[o' w]|]; [|done]. by injection E as <- <-.
Qed.

(** The [put] goes on waiting, and the messages that come wait behind it. *)
Lemma starves_arrived key id : starves key (handle_arrived id) (fun j => j = JNull).
Proof.
  intros c o c' [H1 H2 H3 (v & behind & H4)] E _. unfold handle_arrived in E. destruct (ws_take (wsc c)) as [messages w].
  unfold receive_messages in E. cbn [queue set_wsc c_queries] in E. rewrite H4 in E.
  assert (put_response (consumed (set_wsc w c)) (key, v) (set_stuck None (queue c)) = None) as Ep.
  { unfold put_response, consumed. cbn [wsSubscribers set_wsc fst]. rewrite bool_decide_eq_false_2 by done.
    rewrite (proj2 (Nat.ltb_ge _ _)); [done|exact H3]. }
  rewrite Ep in E. injection E as <- <-. split; [split; try done; by eexists _, _|]. split; [done|]. by intros x [= <-].
Qed.

Lemma starves_request key q timeout_s : starves key (client_request version q timeout_s) (fun j => j = JNull).
Proof.
  unfold client_request. apply (starves_bind _ _ _ (fun _ => True)); [apply starves_same; by intros c o c' [= <- <-]|]. intros id _.
  apply (starves_bind _ _ _ (fun _ => True)); [apply starves_same; by intros c o c' [= <- <-]|]. intros c0 _.
  destruct (ws_isConnected _); [|apply starves_same; by intros c o c' [= <- <-]].
  apply (starves_bind _ _ _ (fun _ => True)); [apply starves_on_ws|]. intros _ _.
  apply (starves_bind _ _ _ (fun _ => True)); [apply starves_on_ws|]. intros _ _.
  eapply starves_bind; [apply starves_arrived|]. intros j ->.
  apply (starves_bind _ _ _ (fun _ => True)); [apply starves_same; by intros c o c' [= <- <-]|]. intros _ _. by apply starves_ret.
Qed.

(** A subscription gets the id 0, which no update has. *)
Lemma starves_subscribe key q : starves key (client_subscribeWs version q) (fun id => id = 0).
Proof.
  unfold client_subscribeWs. eapply starves_bind; [apply starves_request|]. intros j ->.
  apply (starves_bind _ _ _ (fun id => id = 0)); [apply starves_same; intros c o c' [= <- <-]; split; [done|]; split; [done|]; by intros x [= <-]|].
  intros id ->. apply (starves_bind _ _ _ (fun _ => True)); [|intros _ _; by apply starves_ret].
  intros c o c' [H1 H2 H3 H4] [= <- <-] _. split; [|done]. split; try done. cbn. by intros [?|?]%elem_of_cons.
Qed.

Lemma starves_unsubscribe key id method : starves key (client_unsubscribeWs version id method) (fun _ => True).
Proof.
  unfold client_unsubscribeWs. destruct (id =? 0); [by apply starves_ret|]. eapply starves_bind; [apply starves_request|]. intros j _.
  apply (starves_bind _ _ _ (fun _ => True)); [|intros _ _; by apply starves_ret].
  intros c o c' [H1 H2 H3 (v & behind & H4)] E Ho. unfold client_eraseKey in E. rewrite H4 in E. cbn [fst] in E.
  destruct (Z.eqb_spec key id) as [->|Hne]; [rewrite andb_false_r in E; by injection E as <- <-|]. rewrite andb_true_r in E.
  destruct (_ || _); [|by injection E as <- <-]. injection E as <- <-. split; [|done]. split; [done| | |by eexists _, _].
  - cbn. intros Hin. by apply list_elem_of_filter in Hin as [_ ?].
  - unfold filled_at in *. cbn. by rewrite lookup_delete_ne.
Qed.

Lemma starves_then_arrived {A B} key (m : call ws A) (f : A -> call client B) :
  (forall x, starves key (f x) (fun _ => True)) -> starves key (x ← on_ws m; handle_arrived 0;; f x) (fun _ => True).
Proof.
  intros Hf. apply (starves_bind _ _ _ (fun _ => True)); [apply starves_on_ws|]. intros x _.
  eapply starves_bind; [apply starves_arrived|]. intros _ _. apply Hf.
Qed.

Lemma starves_connect key node_url : starves key (client_connect node_url) (fun _ => True).
Proof.
  apply starves_then_arrived. intros err. apply (starves_bind _ _ _ (fun _ => True)); [apply starves_same; by intros c o c' [= <- <-]|].
  intros c _. by apply starves_ret.
Qed.

Lemma starves_quiet {A} key (m : call ws A) : starves key (on_ws m;; handle_arrived 0;; mret tt) (fun _ => True).
Proof. apply (starves_then_arrived key m (fun _ => mret tt)). intros _. by apply starves_ret. Qed.

Lemma starved_step key c c' : client_step c c' -> starved key c -> starved key c'.
Proof.
  intros Hc Hs. destruct Hc as [url o c' E Ho|o c' E Ho|q t o c' E Ho|q o c' E Ho|id method o c' E Ho|o c' E Ho|l].
  - by apply (starves_connect key url c o c').
  - by apply (starves_quiet key ws_disconnect c o c').
  - by apply (starves_request key q t c o c').
  - by apply (starves_subscribe key q c o c').
  - by apply (starves_unsubscribe key id method c o c').
  - by apply (starves_quiet key ws_wait c o c').
  - by destruct Hs.
Qed.

(** Updates of a key without a consumer fill its queue, and the next one waits. *)
Lemma handle_overflow id known consumed key us result q :
  consumed key = false -> stuck q = None -> Forall (update_ok version) us -> Forall (fun u => u.1.2 = key) us ->
  (RESPONSE_QUEUE_MAX_SIZE - 1 < filled_at q key + length us)%nat -> (filled_at q key <= RESPONSE_QUEUE_MAX_SIZE - 1)%nat ->
  exists q' v behind, handle_messages id known consumed (update_text version <$> us) result q = Ret (result, q')
    /\ stuck q' = Some (key, v, behind) /\ (RESPONSE_QUEUE_MAX_SIZE - 1 <= filled_at q' key)%nat.
Proof.
  intros Hk Hs Hus Hkey. revert q Hs. induction Hus as [|[[m sid] v] us [Hok H0] _ IH]; intros q Hs Hover Hroom; [cbn [length] in Hover; lia|].
  apply list.Forall_cons in Hkey as [Hsid Hkey]. cbn [fst snd] in *. subst sid. cbn [fmap list_fmap handle_messages length] in *.
  change (update_text version (m, key, v)) with (dump (update_json version m key v)). rewrite route_update by done. ostep.
  change (update_value (update_json version m key v)) with v. unfold put_response. cbn [fst]. rewrite Hk.
  destruct (Nat.ltb_spec (filled_at q key) (RESPONSE_QUEUE_MAX_SIZE - 1)) as [Hlt|Hge].
  - assert (filled_at (set_filled (<[key := S (filled_at q key)]> (filled q)) (set_pending (q_pending q ++ [(key, v)]) q)) key = S (filled_at q key)) as Ef
      by (unfold filled_at at 1; cbn [filled set_filled]; by rewrite lookup_insert_eq).
    apply (IH Hkey); [done|rewrite Ef; lia|rewrite Ef; lia].
  - eexists _, _, _. split; [reflexivity|]. split; [reflexivity|]. exact Hge.
Qed.

(** C37: a node that sends more updates than a queue takes, for an id that has no consumer,
    ends all service of the client. Once it has sent them - 128 for an id that was
    never subscribed to - the receiving thread waits in [put]; whatever the
    application and the node do after that, every request that returns returns null,
    and no update is queued for any subscription. *)
Theorem unread_updates_block key us w1 w c :
  key <> 0 -> key ∉ wsSubscribers c -> stuck (queue c) = None -> (filled_at (queue c) key <= RESPONSE_QUEUE_MAX_SIZE - 1)%nat ->
  Forall (update_ok version) us -> Forall (fun u => u.1.2 = key) us ->
  (RESPONSE_QUEUE_MAX_SIZE - 1 < filled_at (queue c) key + length us)%nat ->
  ws_wait (wsc c) = Some (Ret tt, w1) -> ws_take w1 = (update_text version <$> us, w) ->
  exists c1, client_idle c = Some (Ret tt, c1)
    /\ forall c2, rtc client_step c1 c2 ->
         (forall q timeout_s j c3, client_request version q timeout_s c2 = Some (Ret j, c3) -> j = JNull /\ pending_updates c3 = pending_updates c2)
         /\ (forall c3, client_idle c2 = Some (Ret tt, c3) -> pending_updates c3 = pending_updates c2).
Proof.
  intros H0 Hk Hs Hroom Hus Hkey Hover Ew Et.
  destruct (handle_overflow 0 (c_queries c) (consumed c) key us JNull (queue c)) as (q & v & behind & E & Sq & Fq); try done.
  { unfold consumed. by rewrite bool_decide_eq_false_2. }
  set (c1 := set_queue q (set_wsc w c)). assert (client_idle c = Some (Ret tt, c1)) as Ei.
  { unfold client_idle, on_ws, on_part, handle_arrived, receive_messages, mbind, C_bind, call_bind. rewrite Ew. cbn [wsc set_wsc]. rewrite Et.
    cbn [queue set_wsc c_queries]. rewrite Hs. change (consumed (set_wsc w _)) with (consumed c). by rewrite E. }
  exists c1. split; [exact Ei|]. assert (starved key c1) as Hs1 by (split; [done|done|exact Fq|by eexists _, _]).
  intros c2 Hr. assert (starved key c2) as Hs2.
  { clear Ei. revert Hs1 Hr. generalize c1. intros c0 Hs0 Hr. induction Hr as [|x y z Hxy _ IH]; [done|]. apply IH. by apply (starved_step key x). }
  split.
  - intros q' t j c3 E'. destruct (starves_request key q' t c2 _ _ Hs2 E') as (_ & P & HQ); [done|]. split; [by apply HQ|done].
  - intros c3 E'. by destruct (starves_quiet key ws_wait c2 _ _ Hs2 E') as (_ & P & _).
Qed.
End starvation.

(** ** An example *)

(** A connection, and the messages that come during each wait. *)
#[local] Instance scripted_node : IWebSocketClient := {|
  ws := bool * list (list (list Z));
  ws_connect _ w := Some (Ret 0, (true, w.2));
  ws_isConnected w := w.1;
  ws_disconnect w := Some (Ret tt, (false, w.2));
  ws_send _ w := Some (Ret 0, w);
  ws_wait w := Some (Ret tt, w);
  ws_take w := (default [] (head w.2), (w.1, tail w.2));
  ws_wait_ends w := ex_intro _ w (or_introl eq_refl);
|}.
#[local] Existing Instance numeral_doubles.
#[local] Instance no_what : StdWhat := fun _ => [].

Definition sample_update : list Z * Z * Json := (str "state_storage", 7, JInt 3).

Definition sample_script : list (list (list Z)) :=
  [[update_text version_text sample_update; dump (answer_json version_text 1 (rv_json sample_version))]].

Definition quiet : ws := (true, []).

Definition connected_client : client := {|
  c_lastId := 0; c_queries := ∅; wsSubscribers := []; queue := no_queues; wsc := (true, sample_script) |}.

Definition sample_state : state (J := json_rpc_client version_text) :=
  Build_state (J := json_rpc_client version_text) newCPolkaApi connected_client [] None.

Lemma runtimeVersion_end_to_end_witness :
  getRuntimeVersion (J := json_rpc_client version_text) None sample_state
  = Some (Ret sample_version,
          set_node (J := json_rpc_client version_text) (after_request [sample_update] [] quiet connected_client) sample_state).
Proof.
  apply (runtimeVersion_end_to_end version_text sample_version None [sample_update] [] quiet sample_state).
  - apply sample_version_ok.
  - split; [vm_compute; split; [discriminate|reflexivity]|]. split; [vm_compute; reflexivity|]. split; [vm_compute; reflexivity|].
    split; [apply List.Forall_cons; [split; [vm_compute; reflexivity|done]|constructor]|]. split; [constructor|]. split; [reflexivity|].
    split; [vm_compute; by eexists|]. eexists _, _, _. split; [reflexivity|split; [reflexivity|vm_compute; reflexivity]].
Defined.

(** The threads of the same client. *)
Definition connected_threads : CJsonRpc := set_connected true (newCJsonRpc 1).

Lemma request_is_execution_witness :
  exists s' new, reaches version_text connected_threads s'
    /\ callers s' !! 0%nat = Some (Returned (lastId s') 0 (Ret (rv_json sample_version)))
    /\ sent s' = [dump (request_json version_text (lastId s') (query "chain_getRuntimeVersion" []))]
    /\ updates s' = new /\ [(7, JInt 3)] = value_of <$> new
    /\ lastId s' = 1 /\ receiver s' = Listening /\ forall i, is_Some (queries s' !! i) <-> i ∈ (∅ : gset Z).
Proof.
  apply (request_is_execution version_text 1 0 (query "chain_getRuntimeVersion" []) 10 connected_client connected_threads
    (Ret (rv_json sample_version)) (after_request [sample_update] [] quiet connected_client)).
  - apply rtc_once. split; [apply step_patient, do_connect|reflexivity].
  - split; [reflexivity..|]. intros i. split; [intros [q Hq]; done|intros Hi; by apply elem_of_empty in Hi].
  - reflexivity.
  - reflexivity.
  - vm_compute. reflexivity.
  - discriminate.
Defined.

(** 128 updates of the id 7, which was never subscribed to. *)
Definition flood : list (list Z * Z * Json) := replicate 128 sample_update.
Definition flood_wire : ws := (true, [update_text version_text <$> flood]).
Definition flooded_client : client := {|
  c_lastId := 0; c_queries := ∅; wsSubscribers := [5]; queue := no_queues; wsc := flood_wire |}.

Lemma unread_updates_block_witness :
  exists c1, client_idle flooded_client = Some (Ret tt, c1)
    /\ forall c2, rtc (client_step version_text) c1 c2 -> forall q timeout_s j c3,
         client_request version_text q timeout_s c2 = Some (Ret j, c3) -> j = JNull /\ pending_updates c3 = pending_updates c2.
Proof.
  destruct (unread_updates_block version_text 7 flood flood_wire quiet flooded_client) as (c1 & E & H).
  - done.
  - intros Hin. by apply list_elem_of_singleton in Hin.
  - reflexivity.
  - vm_compute. lia.
  - apply Forall_replicate. split; [vm_compute; reflexivity|done].
  - by apply Forall_replicate.
  - vm_compute. lia.
  - reflexivity.
  - reflexivity.
  - exists c1. split; [exact E|]. intros c2 Hr. apply (H c2 Hr).
Defined.
