(* ===== verification/Delivery.v ===== *)
(** The way of an update through the JSON-RPC client of [src/jsonrpc.cpp]: the
    receiving thread of the WebSocket client runs [handleMessage] for each message and
    puts the updates of subscriptions into the response queue
    [src/utils/concurrentmapqueue.h]; a thread per subscription runs
    [updateConsumerThread], which gets them one by one and calls the handler.

    The threads are those of [MapQueue], interleaved in any way. No key is erased here;
    [MapQueue.eraseKey_unsafe] says what may happen then. That at rest the receiving
    thread never waits on a key with a consumer is why such keys always have room in
    [Client]. *)
From stdpp Require Import gmap relations functions.
From S2P Require Import Prelude Converters Json JsonRpc Client MapQueue.

Section delivery.
Context `{D : Doubles}.
Implicit Types (q : ConcurrentMapQueue Json) (p : pc Json).

(** ** State *)

(** [_responseQueue], the thread that consumes a key, the updates for which
    [handleMessage] has called [put], and the calls of [handleWsMessage]. Thread 0
    is the receiving thread. *)
Record delivery : Type := {
  responseQueue : ConcurrentMapQueue Json;
  consumer_thread : gmap Z nat;
  came : list (Z * Json);
  handled_updates : list (Z * Json);
}.

Definition newDelivery (nthreads : nat) : delivery := {|
  responseQueue := newConcurrentMapQueue (Z.of_nat RESPONSE_QUEUE_MAX_SIZE) nthreads;
  consumer_thread := ∅; came := []; handled_updates := [] |}.

Definition set_responseQueue q (st : delivery) : delivery := {|
  responseQueue := q; consumer_thread := consumer_thread st; came := came st; handled_updates := handled_updates st |}.

(** What a list says of one key. *)
Definition of_key {A} (k : Z) (l : list (Z * A)) : list A := omap (fun u => if u.1 =? k then Some u.2 else None) l.

(** What [get] has returned for a key and has not been handled yet. *)
Definition unhandled (st : delivery) (k : Z) : list Json :=
  drop (length (of_key k (handled_updates st))) (returned k (results (responseQueue st))).

(** ** Steps *)

(** A message comes while the requests [known] wait; [subscribeWs] starts the consumer
    thread of a key; a thread goes on in [put] or [get]; a consumer thread calls
    the handler, and [get] again. *)
Inductive move : Type :=
| Receive (known : gset Z) (payload : list Z)
| Subscribe (key : Z) (t : nat)
| Runs (t : nat)
| Handles (key : Z)
| Loops (key : Z).

Definition handleMessage (known : gset Z) (payload : list Z) (st : delivery) : option delivery :=
  match threads (responseQueue st) !! 0%nat, route (fun i => bool_decide (i ∈ known)) payload with
  | Some Idle, Ret (ToSubscription key json) =>
      q' ← MapQueue.call 0 (put key json) (responseQueue st);
      Some {| responseQueue := q'; consumer_thread := consumer_thread st; came := came st ++ [(key, json)];
              handled_updates := handled_updates st |}
  | Some Idle, Ret _ => Some st
  | _, _ => None
  end.

Definition start_consumer (key : Z) (t : nat) (st : delivery) : option delivery :=
  match threads (responseQueue st) !! t, consumer_thread st !! key with
  | Some Idle, None =>
      if bool_decide (t <> 0%nat /\ map_Forall (fun _ t' => t' <> t) (consumer_thread st))
      then Some {| responseQueue := responseQueue st; consumer_thread := <[key := t]> (consumer_thread st);
                   came := came st; handled_updates := handled_updates st |}
      else None
  | _, _ => None
  end.

(** The loop [while (_responseQueue->get(subscriptionId, &message))]: the handler gets
    [message["params"]["result"]]; then the thread calls [get], unless the last call
    returned [false]. *)
Definition call_handler (key : Z) (st : delivery) : option delivery :=
  match unhandled st key with
  | json :: _ => Some {| responseQueue := responseQueue st; consumer_thread := consumer_thread st; came := came st;
                         handled_updates := handled_updates st ++ [(key, update_value json)] |}
  | [] => None
  end.

Definition call_get (key : Z) (st : delivery) : option delivery :=
  match consumer_thread st !! key, unhandled st key with
  | Some t, [] =>
      if bool_decide (Forall (fun r => r.1.1 = t -> is_Some r.2) (results (responseQueue st)))
      then q' ← MapQueue.call t (get key) (responseQueue st); Some (set_responseQueue q' st)
      else None
  | _, _ => None
  end.

Definition deliver (m : move) (st : delivery) : option delivery :=
  match m with
  | Receive known payload => handleMessage known payload st
  | Subscribe key t => start_consumer key t st
  | Runs t => match advance t (responseQueue st) with Some (Ret q') => Some (set_responseQueue q' st) | _ => None end
  | Handles key => call_handler key st
  | Loops key => call_get key st
  end.

Definition delivery_step (st st' : delivery) : Prop := exists m, deliver m st = Some st'.
Definition reachable_delivery (nthreads : nat) : delivery -> Prop := rtc delivery_step (newDelivery nthreads).

(** Steps of the threads themselves, while nothing comes and nobody subscribes. *)
Definition internal (m : move) : bool := match m with Receive _ _ | Subscribe _ _ => false | _ => true end.
Definition internal_step (st st' : delivery) : Prop := exists m, internal m = true /\ deliver m st = Some st'.
Definition at_rest (st : delivery) : Prop := forall m, internal m = true -> deliver m st = None.

(** ** Where the updates of a key are *)

(** The value that the consumer of a key is taking out, and the one that the receiving
    thread is putting. *)
Definition being_taken (st : delivery) (k : Z) : list Json :=
  match consumer_thread st !! k with Some t => in_flight k (threads (responseQueue st) !! t) | None => [] end.
Definition being_put (k : Z) (o : option (pc Json)) : list Json :=
  match o with
  | Some (PutAdd k' v) | Some (PutLook k' v) | Some (PutWait k' v _) | Some (PutWrite k' v) => if k' =? k then [v] else []
  | _ => []
  end.

(** ** The actions of the queue *)

(** Actions that touch neither the queues nor the results. *)
Inductive quiet : pc Json -> pc Json -> Prop :=
| quiet_put_add k v : quiet (PutAdd k v) (PutLook k v)
| quiet_put_look k v a : quiet (PutLook k v) (PutWait k v a)
| quiet_put_wait k v a : quiet (PutWait k v a) (PutWrite k v)
| quiet_put_notify k : quiet (PutNotify k) Idle
| quiet_get_add k : quiet (GetAdd k) (GetLook k)
| quiet_get_look k a : quiet (GetLook k) (GetWait k a)
| quiet_get_wait k a : quiet (GetWait k a) (GetRead k).

Inductive effect (t : nat) q q' : pc Json -> pc Json -> Prop :=
| quiet_effect p p' : quiet p p' -> written q' = written q -> taken q' = taken q -> results q' = results q -> effect t q q' p p'
| write_effect k v : written q' = <[k := written q k ++ [v]]> (written q) -> taken q' = taken q -> results q' = results q ->
    effect t q q' (PutWrite k v) (PutNotify k)
| read_effect k v : written q' = written q -> taken q' = <[k := taken q k ++ [v]]> (taken q) -> results q' = results q ->
    effect t q q' (GetRead k) (GetNotify k v)
| return_effect k v : written q' = written q -> taken q' = taken q -> results q' = results q ++ [(t, k, Some v)] ->
    effect t q q' (GetNotify k v) Idle.

Lemma addKey_frame (k : Z) q : threads (addKey k q) = threads q /\ written (addKey k q) = written q
  /\ taken (addKey k q) = taken q /\ results (addKey k q) = results q.
Proof. unfold addKey. by destruct (semR q k). Qed.

Lemma advance_cases size t q q' : queue_inv size q -> advance t q = Some (Ret q') ->
  exists p p', threads q !! t = Some p /\ threads q' = <[t := p']> (threads q) /\ effect t q q' p p'.
Proof.
  intros I E. unfold advance in E. destruct (threads q !! t) as [p|] eqn:Ht; [|done]. exists p.
  pose proof (inv_pc size q I t p Ht) as Hp.
  destruct p; cbn in Hp; try done; try destruct Hp as (g0 & Hg0 & ->);
    try (destruct (key_found size q key I ltac:(done || by eexists)) as (g & r & w & Hg & Fr & Fw & Er & Ew & _));
    try (rewrite Hg0 in Hg; injection Hg as ->);
    try (destruct (addKey_frame key q) as (A1 & A2 & A3 & A4));
    unfold sem_wait, sem_notify in E; rewrite ?Fr, ?Fw, ?Er, ?Ew in E; cbn [mbind outcome_bind] in E; rewrite ?Er, ?Ew in E.
  9: { unfold read in E. destruct (head (queue_at q key)) as [v|] eqn:Eh.
       - injection E as <-. eexists. split; [done|]. split; [reflexivity|]. by apply read_effect.
       - exfalso. destruct (inv_pc size q I t _ Ht) as [g' Hg']. pose proof (inv_key size q I key) as Hk. unfold key_ok in Hk.
         rewrite Hg' in Hk. destruct Hk as (r' & w' & _ & _ & (Hr' & _ & Hc & _)).
         pose proof (tally_in (reading key) (threads q) t _ (reading_nonneg key) Ht) as H1. cbn in H1. rewrite Z.eqb_refl in H1.
         unfold queue_len in Hc. destruct (queue_at q key); [cbn in Hc; lia|done]. }
  9: { injection E as <-. eexists. split; [done|]. split; [reflexivity|]. by apply return_effect. }
  all: repeat (destruct (Z.eqb _ 0); [done|]); injection E as <-; eexists; split; [done|];
    (split; [cbn; rewrite ?A1; reflexivity|]); first [by apply write_effect|by apply quiet_effect; [constructor|cbn; rewrite ?A2, ?A3, ?A4..]].
Qed.

(** ** The invariant *)

Definition receiving p : Prop :=
  match p with Idle | PutAdd _ _ | PutLook _ _ | PutWait _ _ _ | PutWrite _ _ | PutNotify _ => True | _ => False end.

Definition queue_size : Z := Z.of_nat RESPONSE_QUEUE_MAX_SIZE.

(** What has been handled of the values that [get] has returned: all, or all but the
    last, and then the consumer thread is between two calls of [get]. *)
Definition handled_ok (st : delivery) (k : Z) : Prop :=
  exists l u, returned k (results (responseQueue st)) = l ++ u /\ of_key k (handled_updates st) = update_value <$> l
  /\ (u = [] \/ (exists v t, u = [v] /\ consumer_thread st !! k = Some t /\ threads (responseQueue st) !! t = Some Idle)).

Record delivery_inv (st : delivery) : Prop := {
  d_queue : queue_inv queue_size (responseQueue st);
  d_receiver : forall p, threads (responseQueue st) !! 0%nat = Some p -> receiving p;
  d_thread : forall t p, t <> 0%nat -> threads (responseQueue st) !! t = Some p ->
    p = Idle \/ exists k, consumer_thread st !! k = Some t /\ getting k p;
  d_consumer : forall k t, consumer_thread st !! k = Some t -> t <> 0%nat /\ is_Some (threads (responseQueue st) !! t)
    /\ forall k', consumer_thread st !! k' = Some t -> k' = k;
  d_taken : forall k, taken (responseQueue st) k = returned k (results (responseQueue st)) ++ being_taken st k;
  d_came : forall k, written (responseQueue st) k ++ being_put k (threads (responseQueue st) !! 0%nat) = of_key k (came st);
  d_handled : forall k, handled_ok st k;
}.

Lemma of_key_app {A} k (l l' : list (Z * A)) : of_key k (l ++ l') = of_key k l ++ of_key k l'.
Proof. apply omap_app. Qed.

Lemma new_delivery_inv n : delivery_inv (newDelivery n).
Proof.
  assert (forall t p, replicate n Idle !! t = Some p -> p = Idle (T := Json)) as Hp.
  { intros t p H. by apply lookup_replicate_1 in H as [-> _]. }
  split; cbn; try done.
  - apply new_inv.
  - intros p H. by rewrite (Hp _ _ H).
  - intros t p _ H. left. by apply (Hp t).
  - intros k. destruct (replicate n Idle !! 0%nat) as [p|] eqn:E; [|done]. by rewrite (Hp _ _ E).
  - intros k. exists [], []. by split; [|split; [|left]].
Qed.

(** A thread that is in no call enters one. *)
Lemma call_threads t p q q' : MapQueue.call t p q = Some q' -> threads q !! t = Some Idle /\ q' = set_pc t p q.
Proof. unfold MapQueue.call. destruct (threads q !! t) as [[]|]; by try intros [= <-]. Qed.

Lemma call_queue_inv t p q q' : queue_inv queue_size q -> MapQueue.call t p q = Some q' ->
  (forall k, reading k p = 0 /\ writing k p = 0) -> pc_ok q p -> queue_inv queue_size q'.
Proof. intros I [Ht ->]%call_threads Hp Hok. by apply (move_inv queue_size q t Idle). Qed.

Lemma set_threads_lookup q t p t' : is_Some (threads q !! t) ->
  (<[t := p]> (threads q)) !! t' = if decide (t = t') then Some p else threads q !! t'.
Proof.
  intros [p' Ht]. destruct (decide (t = t')) as [->|Hne]; [|by rewrite list_lookup_insert_ne].
  by rewrite list_lookup_insert_eq by (by apply lookup_lt_Some in Ht).
Qed.

Lemma message_inv known payload st st' : delivery_inv st -> handleMessage known payload st = Some st' -> delivery_inv st'.
Proof.
  intros I E. unfold handleMessage in E. destruct (threads (responseQueue st) !! 0%nat) as [p0|] eqn:H0; [|done].
  destruct p0; try done. destruct (route _ _) as [r| |]; try done. destruct r as [| |key json|]; try (by injection E as <-).
  destruct (MapQueue.call _ _ _) as [q'|] eqn:Eq; [|done]. injection E as <-. pose proof (call_threads _ _ _ _ Eq) as [_ ->].
  assert (is_Some (threads (responseQueue st) !! 0%nat)) as Hs by (by rewrite H0).
  split; cbn [responseQueue consumer_thread came handled_updates threads set_pc taken results written].
  - apply (call_queue_inv 0 (put key json) (responseQueue st)); [apply I|done| |done]. by intros k.
  - intros p. rewrite set_threads_lookup, decide_True by done. by intros [= <-].
  - intros t p Ht. rewrite set_threads_lookup, decide_False by done. by apply (d_thread st I).
  - intros k t Hk. destruct (d_consumer st I k t Hk) as (Ht & Hl & Hu). split; [done|]. rewrite set_threads_lookup by done.
    by rewrite decide_False.
  - intros k. rewrite (d_taken st I k). f_equal. unfold being_taken.
    cbn [responseQueue consumer_thread threads set_pc]. destruct (consumer_thread st !! k) as [t|] eqn:Hk; [|done].
    destruct (d_consumer st I k t Hk) as (Ht & _). by rewrite set_threads_lookup, decide_False by done.
  - intros k. rewrite set_threads_lookup, decide_True by done. rewrite of_key_app. cbn. rewrite <- (d_came st I k), H0. cbn [being_put].
    rewrite app_nil_r. by destruct (key =? k).
  - intros k. destruct (d_handled st I k) as (l & u & E1 & E2 & E3). exists l, u. split; [done|]. split; [done|].
    destruct E3 as [E3|(v & t & E3 & E4 & E5)]; [by left|]. right. exists v, t. split; [done|]. split; [done|].
    cbn. destruct (d_consumer st I k t E4) as (Ht & _). by rewrite set_threads_lookup, decide_False by done.
Qed.

Lemma subscribe_inv key t st st' : delivery_inv st -> start_consumer key t st = Some st' -> delivery_inv st'.
Proof.
  intros I E. unfold start_consumer in E. destruct (threads (responseQueue st) !! t) as [[]|] eqn:Ht; try done.
  destruct (consumer_thread st !! key) eqn:Hk; [done|]. destruct (bool_decide _) eqn:Hb; [|done]. injection E as <-.
  apply bool_decide_eq_true in Hb as [H0 Hfresh].
  assert (forall k t', consumer_thread st !! k = Some t' -> t' <> t) as Hf by (intros k t'; apply (Hfresh k t')).
  split; cbn; try apply I.
  - intros t' p Ht' Hp. destruct (d_thread st I t' p Ht' Hp) as [->|(k & Hk' & Hg)]; [by left|]. right. exists k. split; [|done].
    rewrite lookup_insert_ne; [done|]. intros ->. by rewrite Hk in Hk'.
  - intros k t' [[<- <-]|[Hne Hk']]%lookup_insert_Some.
    + split; [done|]. split; [by rewrite Ht|]. intros k' [[<- _]|[_ Hk']]%lookup_insert_Some; [done|]. by destruct (Hf _ _ Hk').
    + destruct (d_consumer st I k t' Hk') as (H1 & H2 & H3). split; [done|]. split; [done|].
      intros k' [[<- <-]|[_ Hk'']]%lookup_insert_Some; [by destruct (Hf _ _ Hk')|by apply H3].
  - intros k. rewrite (d_taken st I k). f_equal. unfold being_taken. cbn. destruct (decide (key = k)) as [<-|Hne].
    + by rewrite Hk, lookup_insert_eq, Ht.
    + by rewrite lookup_insert_ne.
  - intros k. destruct (d_handled st I k) as (l & u & E1 & E2 & E3). exists l, u. split; [done|]. split; [done|].
    destruct E3 as [E3|(v & t' & E3 & E4 & E5)]; [by left|]. right. exists v, t'. split; [done|]. split; [|done].
    cbn. rewrite lookup_insert_ne; [done|]. intros ->. by rewrite Hk in E4.
Qed.

(** What is left to handle, by the invariant. *)
Lemma unhandled_eq st k l u : returned k (results (responseQueue st)) = l ++ u ->
  of_key k (handled_updates st) = update_value <$> l -> unhandled st k = u.
Proof. intros E1 E2. unfold unhandled. rewrite E1, E2, length_fmap. by rewrite drop_app_length. Qed.

Lemma handler_inv key st st' : delivery_inv st -> call_handler key st = Some st' -> delivery_inv st'.
Proof.
  intros I E. unfold call_handler in E. destruct (unhandled st key) as [|json js] eqn:Eu; [done|]. injection E as <-.
  split; cbn; try apply I. intros k. destruct (d_handled st I k) as (l & u & E1 & E2 & E3). unfold handled_ok. cbn [responseQueue consumer_thread handled_updates]. rewrite of_key_app. cbn [of_key omap list_omap fst snd].
  destruct (Z.eqb_spec key k) as [<-|Hne]; [|rewrite app_nil_r; by exists l, u].
  pose proof (unhandled_eq st key l u E1 E2) as Hu. rewrite Eu in Hu. subst u.
  destruct E3 as [|(v & t & [= -> ->] & _)]; [done|]. exists (l ++ [v]), []. rewrite app_nil_r, fmap_app, E2. by split; [|split; [|left]].
Qed.

Lemma get_inv key st st' : delivery_inv st -> call_get key st = Some st' -> delivery_inv st'.
Proof.
  intros I E. unfold call_get in E. destruct (consumer_thread st !! key) as [t|] eqn:Hk; [|done].
  destruct (unhandled st key) eqn:Eu; [|done]. destruct (bool_decide _); [|done].
  destruct (MapQueue.call _ _ _) as [q'|] eqn:Eq; [|done]. injection E as <-. pose proof (call_threads _ _ _ _ Eq) as [Ht ->].
  assert (is_Some (threads (responseQueue st) !! t)) as Hs by (by rewrite Ht).
  destruct (d_consumer st I key t Hk) as (H0 & _ & Hone).
  split; cbn [set_responseQueue responseQueue consumer_thread came handled_updates threads set_pc taken results written].
  - apply (call_queue_inv t (get key) (responseQueue st)); [apply I|done| |done]. by intros k.
  - intros p. rewrite set_threads_lookup, decide_False by done. apply (d_receiver st I).
  - intros t' p Ht'. rewrite set_threads_lookup by done. destruct (decide (t = t')) as [<-|Hne]; [|by apply (d_thread st I)].
    intros [= <-]. right. by exists key.
  - intros k t' Hk'. destruct (d_consumer st I k t' Hk') as (H1 & H2 & H3). split; [done|]. split; [|done].
    rewrite set_threads_lookup by done. by destruct (decide _).
  - intros k. rewrite (d_taken st I k). f_equal. unfold being_taken. cbn [set_responseQueue responseQueue consumer_thread threads set_pc].
    destruct (consumer_thread st !! k) as [t'|] eqn:Hk'; [|done]. rewrite set_threads_lookup by done.
    destruct (decide (t = t')) as [<-|Hne]; [by rewrite Ht|done].
  - intros k. rewrite set_threads_lookup, decide_False by done. apply (d_came st I k).
  - intros k. destruct (d_handled st I k) as (l & u & E1 & E2 & E3). exists l, u. split; [done|]. split; [done|].
    destruct E3 as [E3|(v & t' & E3 & E4 & E5)]; [by left|].
    destruct (decide (k = key)) as [->|Hne].
    + rewrite (unhandled_eq st key l u E1 E2), E3 in Eu. done.
    + right. exists v, t'. split; [done|]. split; [done|]. cbn. rewrite set_threads_lookup by done.
      rewrite decide_False; [done|]. intros <-. by apply Hne, Hone.
Qed.

(** ** The actions of the threads *)

Lemma effect_receiving t q q' p p' : effect t q q' p p' -> receiving p -> receiving p'.
Proof. by intros [? ? [] | | | ]. Qed.

Lemma effect_getting t q q' p p' k : effect t q q' p p' -> getting k p -> p' = Idle \/ getting k p'.
Proof. intros [? ? [] | | | ]; cbn; try done; intros ->; by (left + right). Qed.

Lemma effect_not_idle t q q' p p' : effect t q q' p p' -> p <> Idle.
Proof. by intros [? ? [] | | | ]. Qed.

(** An action of the receiving thread. *)
Lemma effect_put q q' p p' k t : effect t q q' p p' -> receiving p ->
  taken q' = taken q /\ results q' = results q /\ written q' k ++ being_put k (Some p') = written q k ++ being_put k (Some p).
Proof.
  intros [p1 p2 Hq E1 E2 E3|k' v E1 E2 E3|k' v E1 E2 E3|k' v E1 E2 E3]; try done; intros _; rewrite E1, E2, E3; (split; [done|]; split; [done|]).
  - by destruct Hq.
  - cbn. destruct (Z.eqb_spec k' k) as [<-|Hne]; [by rewrite fn_lookup_insert, app_nil_r|by rewrite fn_lookup_insert_ne].
Qed.

(** An action of the consumer thread of a key. *)
Lemma effect_get q q' p p' key t : effect t q q' p p' -> getting key p ->
  written q' = written q
  /\ (forall k, k <> key -> taken q' k = taken q k /\ returned k (results q') = returned k (results q) /\ in_flight k (Some p) = [] /\ in_flight k (Some p') = [])
  /\ ((results q' = results q /\ p' <> Idle /\ exists vs, taken q' key = taken q key ++ vs /\ in_flight key (Some p) = [] /\ in_flight key (Some p') = vs)
      \/ (exists v, p' = Idle /\ taken q' key = taken q key /\ in_flight key (Some p) = [v] /\ returned key (results q') = returned key (results q) ++ [v])).
Proof.
  intros [p1 p2 Hq E1 E2 E3|k' v E1 E2 E3|k' v E1 E2 E3|k' v E1 E2 E3] Hg; rewrite E1, E2, E3; (split; [done|]).
  - split; [by destruct Hq|]. left. split; [done|]. split; [by destruct Hq|]. exists []. rewrite app_nil_r. by destruct Hq.
  - done.
  - cbn in Hg. subst k'. split.
    + intros k Hne. rewrite fn_lookup_insert_ne by done. cbn. by rewrite (proj2 (Z.eqb_neq key k)).
    + left. split; [done|]. split; [done|]. exists [v]. rewrite fn_lookup_insert. cbn. by rewrite Z.eqb_refl.
  - cbn in Hg. subst k'. split.
    + intros k Hne. unfold returned. rewrite omap_app. cbn. by rewrite (proj2 (Z.eqb_neq key k)), app_nil_r.
    + right. exists v. unfold returned. rewrite omap_app. cbn. by rewrite Z.eqb_refl.
Qed.

(** The receiving thread goes on in [put]. *)
Lemma receiver_runs_inv q' st : delivery_inv st -> advance 0 (responseQueue st) = Some (Ret q') -> delivery_inv (set_responseQueue q' st).
Proof.
  intros I E. destruct (advance_cases queue_size 0 _ q' (d_queue st I) E) as (p & p' & Ht & Hth & Heff).
  assert (is_Some (threads (responseQueue st) !! 0%nat)) as Hs by (by rewrite Ht).
  pose proof (d_receiver st I p Ht) as Hr.
  destruct (advance_inv queue_size ltac:(by vm_compute) 0 _ _ (d_queue st I) E) as (? & [= <-] & Iq).
  assert (forall t, t <> 0%nat -> threads q' !! t = threads (responseQueue st) !! t) as Ho
    by (intros t Hne; rewrite Hth, set_threads_lookup, decide_False by done; done).
  assert (threads q' !! 0%nat = Some p') as H0 by (by rewrite Hth, set_threads_lookup, decide_True).
  assert (forall k, taken q' k = taken (responseQueue st) k) as Etk by (intros k; by destruct (effect_put _ _ _ _ k _ Heff Hr) as (-> & _)).
  assert (results q' = results (responseQueue st)) as Ers by (by destruct (effect_put _ _ _ _ 0 _ Heff Hr) as (_ & -> & _)).
  assert (forall k t, consumer_thread st !! k = Some t -> threads q' !! t = threads (responseQueue st) !! t) as Hcs
    by (intros k t Hk; apply Ho; by destruct (d_consumer st I k t Hk)).
  split; unfold being_taken, handled_ok; cbn [set_responseQueue responseQueue consumer_thread came handled_updates]; try done.
  - intros p1. rewrite H0. intros [= <-]. by eapply effect_receiving.
  - intros t p1 Hne. rewrite Ho by done. by apply (d_thread st I).
  - intros k t Hk. rewrite (Hcs k t Hk). by apply (d_consumer st I).
  - intros k. rewrite Etk, Ers, (d_taken st I k). f_equal. unfold being_taken.
    destruct (consumer_thread st !! k) as [t|] eqn:Hk; [|done]. by rewrite (Hcs k t Hk).
  - intros k. rewrite H0. rewrite <- (d_came st I k), Ht. by destruct (effect_put _ _ _ _ k _ Heff Hr) as (_ & _ & ->).
  - intros k. rewrite Ers. destruct (d_handled st I k) as (l & u & E1 & E2 & [E3|(v & t & E3 & E4 & E5)]); exists l, u;
      (split; [done|]); (split; [done|]); [by left|right]. exists v, t. split; [done|]. split; [done|]. by rewrite (Hcs k t E4).
Qed.

(** A consumer thread goes on in [get]. *)
Lemma consumer_runs_inv key t q' st : delivery_inv st -> consumer_thread st !! key = Some t ->
  advance t (responseQueue st) = Some (Ret q') -> delivery_inv (set_responseQueue q' st).
Proof.
  intros I Hk E. destruct (advance_cases queue_size t _ q' (d_queue st I) E) as (p & p' & Ht & Hth & Heff).
  destruct (d_consumer st I key t Hk) as (Hn0 & Hs & Hone).
  assert (getting key p) as Hg.
  { destruct (d_thread st I t p Hn0 Ht) as [->|(k & Hk' & Hg)]; [by destruct (effect_not_idle _ _ _ _ _ Heff)|]. by rewrite <- (Hone k Hk'). }
  destruct (advance_inv queue_size ltac:(by vm_compute) t _ _ (d_queue st I) E) as (? & [= <-] & Iq).
  destruct (effect_get _ _ _ _ key _ Heff Hg) as (Ew & Eother & Ekey).
  assert (forall t', t' <> t -> threads q' !! t' = threads (responseQueue st) !! t') as Ho
    by (intros t' Hne; rewrite Hth, set_threads_lookup, decide_False by done; done).
  assert (threads q' !! t = Some p') as H1 by (by rewrite Hth, set_threads_lookup, decide_True).
  assert (forall k t', consumer_thread st !! k = Some t' -> k <> key -> threads q' !! t' = threads (responseQueue st) !! t') as Hcs
    by (intros k t' Hk' Hne; apply Ho; intros ->; by apply Hne, Hone).
  split; unfold being_taken, handled_ok; cbn [set_responseQueue responseQueue consumer_thread came handled_updates]; try done.
  - intros p1. rewrite Ho by done. apply (d_receiver st I).
  - intros t' p1 Hne. destruct (decide (t' = t)) as [->|Hne']; [|rewrite Ho by done; by apply (d_thread st I)].
    rewrite H1. intros [= <-]. destruct (effect_getting _ _ _ _ _ key Heff Hg) as [->|Hg']; [by left|right; by exists key].
  - intros k t' Hk'. destruct (d_consumer st I k t' Hk') as (A & B & C). split; [done|]. split; [|done].
    destruct (decide (t' = t)) as [->|Hne]; [by rewrite H1|by rewrite Ho].
  - intros k. pose proof (d_taken st I k) as Hd. unfold being_taken in Hd. destruct (decide (k = key)) as [->|Hne].
    + rewrite Hk in *. rewrite Ht in Hd. rewrite H1.
      destruct Ekey as [(-> & _ & vs & -> & E1 & ->)|(v & -> & -> & E1 & ->)]; rewrite Hd, E1; by rewrite ?app_nil_r.
    + destruct (Eother k Hne) as (-> & -> & _). rewrite Hd. f_equal.
      destruct (consumer_thread st !! k) as [t'|] eqn:Hk'; [|done]. by rewrite (Hcs k t').
  - intros k. rewrite Ew, Ho by done. apply (d_came st I k).
  - intros k. destruct (d_handled st I k) as (l & u & E1 & E2 & E3). destruct (decide (k = key)) as [->|Hne].
    + destruct E3 as [->|(v & t' & _ & Hk' & Hi)];
        [|rewrite Hk in Hk'; injection Hk' as <-; rewrite Ht in Hi; injection Hi as ->; by destruct (effect_not_idle _ _ _ _ _ Heff)].
      destruct Ekey as [(-> & _)|(v & -> & _ & _ & ->)]; [exists l, []; by split; [|split; [|left]]|].
      exists l, [v]. rewrite E1, app_nil_r. split; [done|]. split; [done|]. right. by exists v, t.
    + destruct (Eother k Hne) as (_ & -> & _). exists l, u. split; [done|]. split; [done|].
      destruct E3 as [E3|(v & t' & E3 & E4 & E5)]; [by left|right]. exists v, t'. split; [done|]. split; [done|]. by rewrite (Hcs k t').
Qed.

Lemma deliver_inv m st st' : delivery_inv st -> deliver m st = Some st' -> delivery_inv st'.
Proof.
  intros I E. destruct m as [known payload|key t|t|key|key]; cbn in E.
  - by eapply message_inv.
  - by eapply subscribe_inv.
  - destruct (advance t _) as [[q'| |]|] eqn:Ea; try done. injection E as <-.
    destruct (decide (t = 0%nat)) as [->|Hne]; [by apply receiver_runs_inv|].
    destruct (advance_cases queue_size t _ q' (d_queue st I) Ea) as (p & p' & Ht & _ & Heff).
    destruct (d_thread st I t p Hne Ht) as [->|(k & Hk & _)]; [by destruct (effect_not_idle _ _ _ _ _ Heff)|].
    by apply (consumer_runs_inv k t).
  - by eapply handler_inv.
  - by eapply get_inv.
Qed.

Lemma reachable_inv n st : reachable_delivery n st -> delivery_inv st.
Proof.
  intros Hr. revert st Hr. apply rtc_ind_r; [apply new_delivery_inv|]. intros a b _ [m Hm] IH. by eapply deliver_inv.
Qed.

(** ** Order *)

(** C19: the updates of a subscription are handled in the order in which they come,
    each once. Under every interleaving of the receiving thread and the consumer
    threads, and for every key: what its handler has been called with, then what
    [get] has returned, is taking out, what is in the queue, and what [put] is about
    to add, is exactly what has come. At most one update is between [get] and the
    handler, and at most 127 are in the queue. *)
Theorem updates_in_order n st k : reachable_delivery n st ->
  of_key k (handled_updates st)
  ++ (update_value <$> unhandled st k ++ being_taken st k ++ queue_at (responseQueue st) k
        ++ being_put k (threads (responseQueue st) !! 0%nat))
  = update_value <$> of_key k (came st)
  /\ (length (unhandled st k) <= 1)%nat /\ (length (queue_at (responseQueue st) k) <= RESPONSE_QUEUE_MAX_SIZE - 1)%nat.
Proof.
  intros Hr. pose proof (reachable_inv n st Hr) as I. destruct (d_handled st I k) as (l & u & E1 & E2 & E3).
  rewrite (unhandled_eq st k l u E1 E2). split; [|split].
  - rewrite E2, <- fmap_app. f_equal. rewrite <- (d_came st I k), <- (inv_fifo queue_size _ (d_queue st I) k), (d_taken st I k), E1.
    by rewrite <- !app_assoc.
  - destruct E3 as [->|(v & t & -> & _)]; cbn; lia.
  - pose proof (queue_bound queue_size ltac:(by vm_compute) _ (d_queue st I) k) as Hb. unfold queue_size in Hb.
    unfold RESPONSE_QUEUE_MAX_SIZE in *. lia.
Qed.

(** ** Every run comes to rest *)

Definition progress p : Z :=
  match p with
  | PutAdd _ _ => -5 | PutLook _ _ => -4 | PutWait _ _ _ => -3 | PutWrite _ _ => -2 | PutNotify _ => -1
  | GetAdd _ => 1 | GetLook _ => 2 | GetWait _ _ => 3 | GetRead _ => 4 | GetNotify _ _ => 5
  | _ => 0
  end.

Definition progress_of (st : delivery) : Z :=
  tally progress (threads (responseQueue st)) + 10 * Z.of_nat (length (results (responseQueue st)))
  + Z.of_nat (length (handled_updates st)).

Lemma progress_bounds l : - 5 * Z.of_nat (length l) <= tally progress l <= 5 * Z.of_nat (length l).
Proof. induction l as [|p l IH]; [done|]. cbn [tally length]. assert (-5 <= progress p <= 5) by (by destruct p). lia. Qed.

Lemma internal_effect st st' : delivery_inv st -> internal_step st st' ->
  progress_of st + 1 <= progress_of st' /\ came st' = came st /\ consumer_thread st' = consumer_thread st
  /\ length (threads (responseQueue st')) = length (threads (responseQueue st)).
Proof.
  intros I (m & Hm & E). destruct m as [| |t|key|key]; try done; cbn in E.
  - destruct (advance t _) as [[q'| |]|] eqn:Ea; try done. injection E as <-.
    destruct (advance_cases queue_size t _ q' (d_queue st I) Ea) as (p & p' & Ht & Hth & Heff).
    unfold progress_of. cbn [set_responseQueue responseQueue handled_updates came]. rewrite Hth, length_insert, (tally_set _ _ _ _ _ Ht).
    split; [|done]. destruct Heff as [? ? Hq ? ? Hrs|? ? ? ? Hrs|? ? ? ? Hrs|? ? ? ? Hrs]; rewrite Hrs, ?length_app; cbn [progress length]; [destruct Hq; cbn|..]; lia.
  - unfold call_handler in E. destruct (unhandled st key); [done|]. injection E as <-. unfold progress_of. cbn [responseQueue handled_updates].
    rewrite length_app. cbn [length]. split; [lia|done].
  - unfold call_get in E. destruct (consumer_thread st !! key) as [t|]; [|done]. destruct (unhandled st key); [|done].
    destruct (bool_decide _); [|done]. destruct (MapQueue.call _ _ _) as [q'|] eqn:Eq; [|done]. injection E as <-.
    apply call_threads in Eq as [Ht ->]. unfold progress_of. cbn [set_responseQueue responseQueue handled_updates came threads set_pc results].
    rewrite (tally_set _ _ _ _ _ Ht), length_insert. cbn [progress get]. split; [lia|done].
Qed.

Lemma of_key_cons {A} k k' (v : A) l : of_key k ((k', v) :: l) = (if k' =? k then [v] else []) ++ of_key k l.
Proof. unfold of_key. cbn. by destruct (k' =? k). Qed.

(** A list that has, of every key, no more than another is no longer. *)
Lemma of_key_length {A B} (l : list (Z * A)) (l' : list (Z * B)) :
  (forall k, (length (of_key k l) <= length (of_key k l'))%nat) -> (length l <= length l')%nat.
Proof.
  revert l'. induction l as [|[k v] l IH]; intros l' H; [cbn; lia|].
  assert (exists l1 w l2, l' = l1 ++ (k, w) :: l2) as (l1 & w & l2 & ->).
  { specialize (H k). cbn in H. rewrite Z.eqb_refl in H. clear IH. induction l' as [|[k' w] l' IH]; [cbn in H; lia|].
    destruct (Z.eqb_spec k' k) as [->|Hne]; [by exists [], w, l'|]. cbn in H. rewrite (proj2 (Z.eqb_neq k' k)) in H by done.
    destruct (IH H) as (l1 & w' & l2 & ->). by exists ((k', w) :: l1), w', l2. }
  rewrite length_app. cbn [length]. rewrite Nat.add_succ_r, <- length_app. apply le_n_S, IH. intros k'. specialize (H k').
  rewrite of_key_app, !of_key_cons, !length_app in *. destruct (k =? k'); cbn [length] in H; lia.
Qed.

Definition returned_updates (rs : list (nat * Z * option Json)) : list (Z * Json) :=
  omap (fun r => match r.2 with Some v => Some (r.1.2, v) | None => None end) rs.

Lemma returned_updates_of_key k rs : of_key k (returned_updates rs) = returned k rs.
Proof.
  unfold of_key, returned, returned_updates. induction rs as [|[[t k'] [v|]] rs IH]; [done| |].
  - cbn. destruct (k' =? k) eqn:E; [f_equal|]; exact IH.
  - cbn. destruct (k' =? k); exact IH.
Qed.

Lemma returned_updates_length rs : (forall t k o, (t, k, o) ∈ rs -> is_Some o) -> length (returned_updates rs) = length rs.
Proof.
  induction rs as [|[[t k] o] rs IH]; intros H; [done|]. destruct (H t k o ltac:(by left)) as [v ->]. cbn. f_equal. apply IH.
  intros t' k' o' Hin. apply (H t' k'). by right.
Qed.

Lemma results_bound st : delivery_inv st -> (length (results (responseQueue st)) <= length (came st))%nat
  /\ (length (handled_updates st) <= length (came st))%nat.
Proof.
  intros I. assert (forall k, (length (returned k (results (responseQueue st))) <= length (of_key k (came st)))%nat) as Hk.
  { intros k. rewrite <- (d_came st I k), <- (inv_fifo queue_size _ (d_queue st I) k), (d_taken st I k), !length_app. lia. }
  split.
  - rewrite <- (returned_updates_length (results (responseQueue st))) by apply (inv_results queue_size _ (d_queue st I)).
    apply of_key_length. intros k. by rewrite returned_updates_of_key.
  - apply of_key_length. intros k. destruct (d_handled st I k) as (l & u & E1 & E2 & _). specialize (Hk k).
    rewrite E1, length_app in Hk. rewrite E2, length_fmap. lia.
Qed.

(** The most that the progress can be. *)
Definition work (st : delivery) : Z :=
  11 * Z.of_nat (length (came st)) + 5 * Z.of_nat (length (threads (responseQueue st))).

Lemma progress_work st : delivery_inv st -> - 5 * Z.of_nat (length (threads (responseQueue st))) <= progress_of st <= work st.
Proof.
  intros I. destruct (results_bound st I) as [H1 H2]. pose proof (progress_bounds (threads (responseQueue st))).
  unfold progress_of, work. lia.
Qed.

Lemma internal_inv st st' : delivery_inv st -> internal_step st st' -> delivery_inv st' /\ work st' = work st.
Proof.
  intros I Hs. split; [destruct Hs as (m & _ & Hm); by eapply deliver_inv|].
  destruct (internal_effect st st' I Hs) as (_ & Hc & _ & Hl). unfold work. by rewrite Hc, Hl.
Qed.

Lemma internal_runs i st st' : delivery_inv st -> nsteps internal_step i st st' ->
  delivery_inv st' /\ progress_of st + Z.of_nat i <= progress_of st' /\ work st' = work st
  /\ came st' = came st /\ consumer_thread st' = consumer_thread st.
Proof.
  intros I Hr. induction Hr as [st|i st st1 st' Hs _ IH]; [split; [done|]; split; [lia|done]|].
  destruct (internal_inv st st1 I Hs) as [I1 Hw]. destruct (internal_effect st st1 I Hs) as (Hp & Hc & Ht & _).
  destruct (IH I1) as (I' & Hp' & Hw' & Hc' & Ht'). split; [done|]. split; [lia|]. by rewrite Hw', Hc', Ht'.
Qed.

(** The moves that the threads may have. *)
Definition moves_of (st : delivery) : list move :=
  let keys := (map_to_list (consumer_thread st)).*1 in
  (Runs <$> seq 0 (length (threads (responseQueue st)))) ++ (Handles <$> keys) ++ (Loops <$> keys).

Lemma key_listed st k t : consumer_thread st !! k = Some t -> k ∈ (map_to_list (consumer_thread st)).*1.
Proof. intros Hk. apply list_elem_of_fmap. exists (k, t). split; [done|]. by apply elem_of_map_to_list. Qed.

Lemma moves_complete m st st' : delivery_inv st -> internal m = true -> deliver m st = Some st' -> m ∈ moves_of st.
Proof.
  intros I Hm E. unfold moves_of. rewrite !elem_of_app. destruct m as [| |t|key|key]; try done; cbn in E.
  - left. apply list_elem_of_fmap. exists t. split; [done|]. apply elem_of_seq.
    unfold advance in E. destruct (threads (responseQueue st) !! t) eqn:Ht; [|done]. apply lookup_lt_Some in Ht. lia.
  - right; left. apply list_elem_of_fmap. exists key. split; [done|]. unfold call_handler in E.
    destruct (d_handled st I key) as (l & u & E1 & E2 & E3). rewrite (unhandled_eq st key l u E1 E2) in E.
    destruct E3 as [->|(v & t & _ & Hk & _)]; [done|]. by eapply key_listed.
  - right; right. apply list_elem_of_fmap. exists key. split; [done|]. unfold call_get in E.
    destruct (consumer_thread st !! key) eqn:Hk; [|done]. by eapply key_listed.
Qed.

Lemma rest_reached b st : delivery_inv st -> work st - progress_of st <= Z.of_nat b -> exists st', rtc internal_step st st' /\ at_rest st'.
Proof.
  revert st. induction b as [|b IH]; intros st I Hb;
    (destruct (decide (Exists (fun m => internal m = true /\ is_Some (deliver m st)) (moves_of st))) as [He|Hn]; [|exists st; split; [done|];
       intros m Hm; destruct (deliver m st) as [st'|] eqn:E; [|done]; destruct Hn; apply Exists_exists; exists m;
       split; [by apply (moves_complete m st st')|by rewrite E]]);
    apply Exists_exists in He as (m & _ & Hm & st1 & E); assert (internal_step st st1) as Hs by (by exists m);
    destruct (internal_inv st st1 I Hs) as [I1 Hw]; destruct (internal_effect st st1 I Hs) as (Hp & _); pose proof (progress_work st1 I1); [lia|].
  destruct (IH st1 I1 ltac:(lia)) as (st' & Hr & Hst'). exists st'. split; [|done]. by apply (rtc_l _ _ st1).
Qed.

(** ** What has been delivered at rest *)

Lemma rest_advance st : delivery_inv st -> at_rest st -> forall t, advance t (responseQueue st) = None.
Proof.
  intros I Hr t. destruct (advance t (responseQueue st)) as [o|] eqn:E; [|done].
  destruct (advance_inv queue_size ltac:(by vm_compute) t _ o (d_queue st I) E) as (q' & -> & _).
  specialize (Hr (Runs t) eq_refl). cbn in Hr. by rewrite E in Hr.
Qed.

(** At rest a consumer thread waits in [get] on an empty queue, and everything that
    [get] has returned has been handled. *)
Lemma rest_consumer st k t : delivery_inv st -> at_rest st -> consumer_thread st !! k = Some t ->
  unhandled st k = [] /\ being_taken st k = [] /\ queue_at (responseQueue st) k = [].
Proof.
  intros I Hr Hk. destruct (d_consumer st I k t Hk) as (H0 & [p Hp] & Hone).
  assert (unhandled st k = []) as Hu.
  { pose proof (Hr (Handles k) eq_refl) as Hh. cbn in Hh. unfold call_handler in Hh. by destruct (unhandled st k). }
  split; [done|]. unfold being_taken. rewrite Hk, Hp.
  destruct (queue_at_rest queue_size _ ltac:(by vm_compute) (d_queue st I) (rest_advance st I Hr) t p Hp)
    as [->|[(k' & a & -> & Hq)|(k' & v & a & -> & _)]].
  - exfalso. pose proof (Hr (Loops k) eq_refl) as Hl. cbn in Hl. unfold call_get in Hl. rewrite Hk, Hu in Hl.
    rewrite bool_decide_eq_true_2 in Hl; [unfold MapQueue.call in Hl; by rewrite Hp in Hl|].
    apply List.Forall_forall. intros [[t' k'] o] Hin _. apply (inv_results queue_size _ (d_queue st I) t' k'). by apply list_elem_of_In.
  - destruct (d_thread st I t _ H0 Hp) as [|(k'' & Hk'' & Hg)]; [done|]. cbn in Hg. subst. by rewrite (Hone _ Hk'') in Hq.
  - destruct (d_thread st I t _ H0 Hp) as [|(k'' & _ & Hg)]; done.
Qed.

Lemma rest_receiver st p : delivery_inv st -> at_rest st -> threads (responseQueue st) !! 0%nat = Some p ->
  p = Idle \/ (exists k v a, p = PutWait k v a /\ consumer_thread st !! k = None
    /\ length (queue_at (responseQueue st) k) = (RESPONSE_QUEUE_MAX_SIZE - 1)%nat).
Proof.
  intros I Hr Hp.
  destruct (queue_at_rest queue_size _ ltac:(by vm_compute) (d_queue st I) (rest_advance st I Hr) 0%nat p Hp)
    as [->|[(k & a & -> & _)|(k & v & a & -> & Hq)]]; [by left|by destruct (d_receiver st I _ Hp)|].
  right. exists k, v, a. split; [done|]. unfold queue_size, RESPONSE_QUEUE_MAX_SIZE in *.
  destruct (consumer_thread st !! k) as [t|] eqn:Hk; [|split; [done|lia]].
  destruct (rest_consumer st k t I Hr Hk) as (_ & _ & Hq'). by rewrite Hq' in Hq.
Qed.

(** C28: every update of a subscription with a consumer is handled. From every
    reachable state, as long as nothing more comes, the threads make at most
    [11 * n + 10 * threads] steps for [n] updates that have come, and they come to
    rest. When they do, the updates of every key that has a consumer have all been
    handled, in order, and the receiving thread is either free for the next message
    or waits in [put] on a key that has no consumer and 127 updates in its queue. *)
Theorem updates_are_delivered n st : reachable_delivery n st ->
  (forall i st', nsteps internal_step i st st' ->
     (i <= 11 * length (came st) + 10 * length (threads (responseQueue st)))%nat)
  /\ (exists st', rtc internal_step st st' /\ at_rest st')
  /\ (forall st', rtc internal_step st st' -> at_rest st' ->
       (forall k, is_Some (consumer_thread st !! k) -> of_key k (handled_updates st') = update_value <$> of_key k (came st))
       /\ (forall p, threads (responseQueue st') !! 0%nat = Some p ->
             p = Idle \/ exists k v a, p = PutWait k v a /\ consumer_thread st !! k = None
               /\ length (queue_at (responseQueue st') k) = (RESPONSE_QUEUE_MAX_SIZE - 1)%nat)).
Proof.
  intros Hr. pose proof (reachable_inv n st Hr) as I. split; [|split].
  - intros i st' Hi. destruct (internal_runs i st st' I Hi) as (I' & Hp & Hw & _).
    pose proof (progress_work st I). pose proof (progress_work st' I'). rewrite Hw in *. unfold work in *. lia.
  - apply (rest_reached (Z.to_nat (work st - progress_of st)) st I). lia.
  - intros st' [i Hi]%rtc_nsteps_1 Hrest. destruct (internal_runs i st st' I Hi) as (I' & _ & _ & <- & <-). split.
    + intros k [t Hk]. destruct (rest_consumer st' k t I' Hrest Hk) as (Hu & Ht & Hq).
      destruct (d_handled st' I' k) as (l & u & E1 & E2 & E3). rewrite (unhandled_eq st' k l u E1 E2) in Hu. subst u.
      rewrite E2, <- (d_came st' I' k), <- (inv_fifo queue_size _ (d_queue st' I') k), (d_taken st' I' k), Ht, Hq, E1, !app_nil_r.
      f_equal. destruct (threads (responseQueue st') !! 0%nat) as [p|] eqn:H0; [|by rewrite app_nil_r].
      destruct (rest_receiver st' p I' Hrest H0) as [->|(k' & v & a & -> & Hk' & _)]; cbn; [by rewrite app_nil_r|].
      destruct (Z.eqb_spec k' k) as [->|Hne]; [by rewrite Hk in Hk'|by rewrite app_nil_r].
    + intros p. by apply rest_receiver.
Qed.

(** ** A key without a consumer *)

(** The receiving thread waits for room in the full queue of a key that nobody reads. *)
Definition waits_for_nobody (k : Z) (v : Json) (a : Z * nat * bool) (st : delivery) : Prop :=
  threads (responseQueue st) !! 0%nat = Some (PutWait k v a) /\ consumer_thread st !! k = None
  /\ length (queue_at (responseQueue st) k) = (RESPONSE_QUEUE_MAX_SIZE - 1)%nat.

Lemma full_queue_waits k v a st : delivery_inv st -> waits_for_nobody k v a st -> advance 0 (responseQueue st) = None.
Proof.
  intros I (H0 & _ & Hq). pose proof (inv_pc queue_size _ (d_queue st I) 0%nat _ H0) as (g & Hg & ->).
  destruct (key_found queue_size _ k (d_queue st I) ltac:(by eexists)) as (g' & r & w & Hg' & _ & _ & _ & Ew & (_ & Hw & _ & C)).
  rewrite Hg in Hg'. injection Hg' as <-. unfold advance. rewrite H0. unfold sem_wait. rewrite Ew.
  assert (0 <= tally (writing k) (threads (responseQueue st))) as Ht by (apply tally_nonneg; intros; apply writing_nonneg).
  pose proof (inv_max queue_size _ (d_queue st I)) as Hm. unfold queue_len, queue_size, RESPONSE_QUEUE_MAX_SIZE in *.
  by rewrite (proj2 (Z.eqb_eq w 0)) by lia.
Qed.

Lemma waits_step k v a m st st' : delivery_inv st -> waits_for_nobody k v a st -> (forall t, m <> Subscribe k t) ->
  deliver m st = Some st' -> waits_for_nobody k v a st' /\ came st' = came st.
Proof.
  intros I Hw Hm E. pose proof (full_queue_waits k v a st I Hw) as Hstuck. pose proof (deliver_inv m st st' I E) as I'.
  destruct Hw as (H0 & Hk & Hq). assert (is_Some (threads (responseQueue st) !! 0%nat)) as Hs by (by rewrite H0).
  destruct m as [known payload|key t|t|key|key]; cbn in E.
  - unfold handleMessage in E. by rewrite H0 in E.
  - unfold start_consumer in E. destruct (threads _ !! t) as [[]|]; try done. destruct (consumer_thread st !! key); [done|].
    destruct (bool_decide _); [|done]. injection E as <-. split; [|done]. split; [done|]. split; [|done]. cbn.
    rewrite lookup_insert_ne; [done|]. intros ->. by destruct (Hm t).
  - destruct (advance t _) as [[q'| |]|] eqn:Ea; try done. injection E as <-. split; [|done].
    assert (t <> 0%nat) as Hne by (intros ->; congruence).
    destruct (advance_cases queue_size t _ q' (d_queue st I) Ea) as (p & p' & Ht & Hth & Heff).
    destruct (d_thread st I t p Hne Ht) as [->|(key & Hkey & Hg)]; [by destruct (effect_not_idle _ _ _ _ _ Heff)|].
    destruct (effect_get _ _ _ _ key _ Heff Hg) as (Ew & Eo & _). assert (k <> key) as Hkk by (intros ->; congruence).
    destruct (Eo k Hkk) as (Et & _). split; [cbn; rewrite Hth, set_threads_lookup by (by rewrite Ht); by rewrite decide_False|]. split; [done|].
    pose proof (inv_fifo queue_size _ (d_queue st I) k) as F. pose proof (inv_fifo queue_size _ (d_queue _ I') k) as F'.
    cbn in F'. rewrite Ew, Et, <- F in F'. apply app_inv_head in F'. cbn. by rewrite F'.
  - unfold call_handler in E. destruct (unhandled st key); [done|]. by injection E as <-.
  - unfold call_get in E. destruct (consumer_thread st !! key) as [t|] eqn:Hkey; [|done]. destruct (unhandled st key); [|done].
    destruct (bool_decide _); [|done]. destruct (MapQueue.call _ _ _) as [q'|] eqn:Eq; [|done]. injection E as <-.
    apply call_threads in Eq as [Ht ->]. split; [|done]. split; [|done]. cbn.
    destruct (d_consumer st I key t Hkey) as (Hne & _). rewrite set_threads_lookup by (by rewrite Ht). by rewrite decide_False.
Qed.

(** Updates that nobody reads stop the receiving thread. Once it waits for room in the
    queue of a key without a consumer, it waits in every execution in which the key
    gets none, whatever the other threads do, and no message is handled any more. *)
Theorem unread_key_blocks_receiver n k v a st st' : reachable_delivery n st -> waits_for_nobody k v a st ->
  rtc (fun x y => exists m, (forall t, m <> Subscribe k t) /\ deliver m x = Some y) st st' ->
  waits_for_nobody k v a st' /\ came st' = came st /\ forall known payload, deliver (Receive known payload) st' = None.
Proof.
  intros Hr Hw Hs. pose proof (reachable_inv n st Hr) as I.
  assert (waits_for_nobody k v a st' /\ came st' = came st) as [Hw' Hc].
  { clear Hr n. induction Hs as [|st st1 st' (m & Hm & E) _ IH]; [done|].
    destruct (waits_step k v a m st st1 I Hw Hm E) as [Hw1 <-]. apply IH; [done|by eapply deliver_inv]. }
  split; [done|]. split; [done|]. intros known payload. cbn. unfold handleMessage. by destruct Hw' as (-> & _).
Qed.
End delivery.

(** ** Examples *)

#[local] Existing Instance numeral_doubles.

Fixpoint deliver_all (ms : list move) (st : delivery) : option delivery :=
  match ms with [] => Some st | m :: ms' => st' ← deliver m st; deliver_all ms' st' end.

Lemma deliver_all_steps (allowed : move -> bool) ms st st' : forallb allowed ms = true -> deliver_all ms st = Some st' ->
  rtc (fun x y => exists m, allowed m = true /\ deliver m x = Some y) st st'.
Proof.
  revert st. induction ms as [|m ms IH]; intros st Ha E; cbn in *; [by injection E as ->|].
  apply andb_prop in Ha as [Hm Ha]. destruct (deliver m st) as [st1|] eqn:E1; [|done]. cbn in E.
  eapply rtc_l; [by exists m|]. by apply IH.
Qed.

(** The state after the moves, if all are possible. *)
Definition delivered_by (n : nat) (ms : list move) : delivery := default (newDelivery n) (deliver_all ms (newDelivery n)).
Definition possible (n : nat) (ms : list move) : bool := match deliver_all ms (newDelivery n) with Some _ => true | None => false end.

Lemma delivered_reachable n ms : possible n ms = true -> reachable_delivery n (delivered_by n ms).
Proof.
  unfold possible, delivered_by. destruct (deliver_all ms _) as [st|] eqn:E; [intros _; cbn|done]. eapply rtc_subrel; [|apply (deliver_all_steps (fun _ => true) ms); [by apply forallb_forall|done]].
  intros x y (m & _ & Hm). by exists m.
Qed.

(** The text of an update, and its five actions in [put]. *)
Definition sample_payload (sid value : Z) : list Z := update_text (str "2.0") (str "state_storage", sid, JInt value).
Definition put_moves (sid value : Z) : list move := Receive ∅ (sample_payload sid value) :: replicate 5 (Runs 0).

(** Two updates of subscription 7, before its consumer starts and while it runs, and
    one of subscription 8, that nobody reads. *)
Definition sample_moves : list move :=
  put_moves 7 1 ++ [Subscribe 7 1; Loops 7; Runs 1; Runs 1; Runs 1] ++ put_moves 8 5 ++ put_moves 7 2 ++ [Runs 1; Runs 1].
Definition sample_delivery : delivery := delivered_by 2 sample_moves.

Lemma sample_reachable : reachable_delivery 2 sample_delivery.
Proof. apply delivered_reachable. vm_compute. reflexivity. Qed.

Lemma updates_in_order_witness :
  of_key 7 (handled_updates sample_delivery) = [] /\ update_value <$> unhandled sample_delivery 7 = [JInt 1]
  /\ update_value <$> queue_at (responseQueue sample_delivery) 7 = [JInt 2]
  /\ update_value <$> of_key 7 (came sample_delivery) = [JInt 1; JInt 2].
Proof.
  pose proof (proj1 (updates_in_order 2 sample_delivery 7 sample_reachable)) as <-.
  repeat split; vm_compute; reflexivity.
Defined.

Lemma updates_are_delivered_witness :
  exists st, rtc internal_step sample_delivery st /\ of_key 7 (handled_updates st) = [JInt 1; JInt 2].
Proof.
  destruct (updates_are_delivered 2 sample_delivery sample_reachable) as (_ & (st & Hr & Hrest) & H).
  exists st. split; [exact Hr|]. rewrite (proj1 (H st Hr Hrest) 7) by (vm_compute; by eexists). vm_compute. reflexivity.
Defined.

(** 128 updates of subscription 8, that nobody reads. *)
Definition flood_moves : list move :=
  concat (replicate 127 (put_moves 8 5)) ++ [Receive ∅ (sample_payload 8 5); Runs 0; Runs 0].
Definition flooded_delivery : delivery := delivered_by 2 flood_moves.

Lemma unread_key_blocks_receiver_witness :
  let v := parse_payload (sample_payload 8 5) in
  waits_for_nobody 8 v (8, 0%nat, true) flooded_delivery
  /\ forall known payload, deliver (Receive known payload) flooded_delivery = None.
Proof.
  intros v. assert (waits_for_nobody 8 v (8, 0%nat, true) flooded_delivery) as Hw
    by (split; [vm_compute; reflexivity|]; split; vm_compute; reflexivity).
  split; [exact Hw|].
  apply (unread_key_blocks_receiver 2 8 v (8, 0%nat, true) flooded_delivery flooded_delivery); [|exact Hw|apply rtc_refl].
  apply delivered_reachable. vm_compute. reflexivity.
Defined.
