(* ===== verification/WsClient.v ===== *)
(** The WebSocket client: [CWebSocketClient] of [src/wsclient.cpp] and
    [src/wsclient.h], and [CConfig] of [src/config.cpp].

    The libraries are parameters: [OpenSSL] gives the parts of a certificate and
    [WebSocketPP] the two endpoints with the network behind them. The client's own
    logic is modelled: which certificates it accepts, how a connection is opened
    and closed, what its threads do. Logging is left out. *)
From stdpp Require Import relations.
From S2P Require Import Prelude Json JsonRpc Decode Lookup Metadata Api Client.

(** ** C strings: [strstr] and [strchr] give the position of the first occurrence *)

Fixpoint strstr (haystack needle : list Z) : option nat :=
  if decide (needle `prefix_of` haystack) then Some 0%nat
  else match haystack with [] => None | _ :: haystack' => S <$> strstr haystack' needle end.

Fixpoint strchr (s : list Z) (c : Z) : option nat :=
  match s with
  | [] => None
  | x :: s' => if x =? c then Some 0%nat else S <$> strchr s' c
  end.

(** [a] occurs somewhere in [b]. *)
Definition infix_of (a b : list Z) : Prop := exists l r, b = l ++ a ++ r.

Lemma strstr_some haystack needle : is_Some (strstr haystack needle) <-> infix_of needle haystack.
Proof.
  induction haystack as [|x h IH]; cbn; case_decide as Hp.
  - split; [intros _|by eexists]. destruct Hp as [k Hp]. by exists [], k.
  - split; [by intros [? ?]|]. intros (l & r & E). symmetry in E. apply app_nil in E as [-> [-> ->]%app_nil]. by destruct Hp.
  - split; [intros _|by eexists]. destruct Hp as [k Hp]. by exists [], k.
  - rewrite fmap_is_Some, IH. split.
    + intros (l & r & ->). by exists (x :: l), r.
    + intros ([|y l] & r & E); cbn in E; [by destruct Hp; exists r|]. injection E as -> ->. by exists l, r.
Qed.

#[export] Instance infix_of_dec a b : Decision (infix_of a b).
Proof. refine (cast_if (decide (is_Some (strstr b a)))); by rewrite <- strstr_some. Defined.

(** A first occurrence right after a text without the first character. *)
Lemma strstr_after x l rest s : (x ∉ s) -> strstr (s ++ x :: l ++ rest) (x :: l) = Some (length s).
Proof.
  induction s as [|y s IH]; cbn; intros Hx.
  - rewrite decide_True; [done|]. by exists rest.
  - apply not_elem_of_cons in Hx as [Hxy Hx]. rewrite decide_False; [by rewrite IH|]. by intros [k [=]].
Qed.

Lemma strstr_none x l s : (x ∉ s) -> strstr s (x :: l) = None.
Proof.
  intros Hx. apply eq_None_not_Some. rewrite strstr_some. intros (a & b & ->). apply Hx. rewrite elem_of_app. right. by left.
Qed.

Lemma strchr_found c s rest : (c ∉ s) -> strchr (s ++ c :: rest) c = Some (length s).
Proof.
  induction s as [|y s IH]; cbn; intros Hc; [by rewrite Z.eqb_refl|].
  apply not_elem_of_cons in Hc as [Hy Hc]. by rewrite (proj2 (Z.eqb_neq y c)), IH by done.
Qed.

Lemma strchr_none c s : (c ∉ s) -> strchr s c = None.
Proof.
  induction s as [|y s IH]; cbn; intros Hc; [done|]. apply not_elem_of_cons in Hc as [Hy Hc].
  by rewrite (proj2 (Z.eqb_neq y c)), IH by done.
Qed.

(** ** Host names: [CWebSocketClient::compare_host_name] *)

(** The part of the URL between the slashes. *)
Definition host_name (node_url : list Z) : outcome (list Z) :=
  hostname ← strcpy 1024 node_url;
  Ret (match strstr hostname (str "//") with
       | Some i =>
           let hostTrimmed := drop (i + 2) hostname in
           match strchr hostTrimmed 47 with Some j => take j hostTrimmed | None => hostTrimmed end
       | None => hostname
       end).

(** The name in the certificate without its wildcard. *)
Definition certificate_host (cert_hostname : list Z) : outcome (list Z) :=
  certHost ← strcpy 1024 cert_hostname;
  Ret (match strstr certHost (str "*.") with Some i => drop (i + 2) certHost | None => certHost end).

Definition compare_host_name (node_url cert_hostname : list Z) : outcome bool :=
  hostTrimmed ← host_name node_url;
  certHostTrimmed ← certificate_host cert_hostname;
  Ret (bool_decide (is_Some (strstr hostTrimmed certHostTrimmed))).

(** A URL as the client is given it. *)
Definition url (scheme host path : list Z) : list Z := scheme ++ str "//" ++ host ++ path.
Definition url_ok (scheme host path : list Z) : Prop :=
  (47 ∉ scheme) /\ (47 ∉ host) /\ (path = [] \/ head path = Some 47) /\ (0 ∉ url scheme host path)
  /\ (length (url scheme host path) < 1024)%nat.
Definition name_ok (name : list Z) : Prop := (length (cstr name) < 1024)%nat.

(** What a name stands for: the text after the first wildcard, if it has one. *)
Definition name_host (name : list Z) : list Z :=
  match strstr (cstr name) (str "*.") with Some i => drop (i + 2) (cstr name) | None => cstr name end.

Lemma cstr_id s : (0 ∉ s) -> cstr s = s.
Proof.
  induction s as [|c s IH]; [done|]. cbn. intros [H1 H2]%not_elem_of_cons.
  by rewrite (proj2 (Z.eqb_neq c 0)), IH by done.
Qed.

Lemma host_name_url scheme host path : url_ok scheme host path -> host_name (url scheme host path) = Ret host.
Proof.
  intros (Hs & Hh & Hp & H0 & Hl). unfold host_name, strcpy. rewrite cstr_id by done.
  rewrite (proj2 (Nat.ltb_lt _ _)) by done. ostep. unfold url.
  change (str "//") with [47; 47]. change ([47; 47] ++ host ++ path) with (47 :: [47] ++ host ++ path).
  rewrite strstr_after by done. rewrite drop_app_add'. 2: done. cbn [drop app]. rewrite drop_0.
  destruct Hp as [->|Hp].
  - rewrite app_nil_r, strchr_none by done. done.
  - destruct path as [|c path]; [done|]. injection Hp as ->. rewrite strchr_found by done. by rewrite take_app_length.
Qed.

Lemma compare_host_name_ok scheme host path name : url_ok scheme host path -> name_ok name ->
  compare_host_name (url scheme host path) name = Ret (bool_decide (infix_of (name_host name) host)).
Proof.
  intros Hu Hn. unfold compare_host_name. rewrite host_name_url by done. ostep.
  unfold certificate_host, strcpy. rewrite (proj2 (Nat.ltb_lt _ _)) by done. ostep.
  by rewrite (bool_decide_ext _ _ (strstr_some host _)).
Qed.

(** ** Certificates *)

(** What the client uses of OpenSSL and of the verification context. A text is the list
    of its bytes, which the library ends with a NUL that is not counted. *)
Class OpenSSL := {
  X509 : Type;
  GENERAL_NAME : Type;
  X509_NAME_ENTRY : Type;
  verify_context : Type;
  get_error_depth : verify_context -> Z;
  get_current_cert : verify_context -> X509;
  cert_error_string : verify_context -> list Z;
  subject_alt_names : X509 -> option (list GENERAL_NAME);
  is_GEN_DNS : GENERAL_NAME -> bool;
  dNSName : GENERAL_NAME -> list Z;
  common_name_index : X509 -> Z;
  get_entry : X509 -> Z -> option X509_NAME_ENTRY;
  entry_data : X509_NAME_ENTRY -> option (list Z);
}.

Section certificates.
Context `{O : OpenSSL} (node_url : list Z).

(** [ASN1_STRING_length(s) != strlen(ASN1_STRING_data(s))] *)
Definition embedded_nul (s : list Z) : bool := negb (length s =? length (cstr s))%nat.

(** The loop over the names. *)
Fixpoint san_loop (san_names : list GENERAL_NAME) : outcome bool :=
  match san_names with
  | [] => Ret false
  | current_name :: rest =>
      if is_GEN_DNS current_name then
        let dns_name := dNSName current_name in
        if embedded_nul dns_name then Ret false
        else
          matches ← compare_host_name node_url dns_name;
          if matches : bool then Ret true else san_loop rest
      else san_loop rest
  end.

Definition verify_subject_alternative_name (cert : X509) : outcome bool :=
  match subject_alt_names cert with
  | None => Ret false
  | Some san_names => san_loop san_names
  end.

Definition verify_common_name (cert : X509) : outcome bool :=
  let common_name_loc := common_name_index cert in
  if common_name_loc <? 0 then Ret false
  else match get_entry cert common_name_loc with
       | None => Ret false
       | Some common_name_entry =>
           match entry_data common_name_entry with
           | None => Ret false
           | Some common_name => if embedded_nul common_name then Ret false else compare_host_name node_url common_name
           end
       end.

Definition verify_certificate (preverified : bool) (ctx : verify_context) : outcome bool :=
  let depth := get_error_depth ctx in
  if (depth =? 0) && preverified then
    let cert := get_current_cert ctx in
    san ← verify_subject_alternative_name cert;
    if san : bool then Ret true
    else cn ← verify_common_name cert; Ret (if cn : bool then true else false)
  else if negb preverified then Throw (websocketpp_exception (cert_error_string ctx))
  else Ret preverified.

(** The names that a certificate presents: the DNS names before the first one with a
    NUL, and the common name unless it has one. *)
Fixpoint dns_names (l : list GENERAL_NAME) : list (list Z) :=
  match l with
  | [] => []
  | n :: l' =>
      if is_GEN_DNS n then if embedded_nul (dNSName n) then [] else dNSName n :: dns_names l' else dns_names l'
  end.

Definition common_names (cert : X509) : list (list Z) :=
  if common_name_index cert <? 0 then []
  else match e ← get_entry cert (common_name_index cert); entry_data e with
       | Some s => if embedded_nul s then [] else [s]
       | None => []
       end.

Definition presented (cert : X509) : list (list Z) :=
  match subject_alt_names cert with Some l => dns_names l | None => [] end ++ common_names cert.
End certificates.

Section accepted.
Context `{O : OpenSSL} (scheme host path : list Z).
Hypothesis Hurl : url_ok scheme host path.

(** One of the names, without its wildcard, is a part of the host name. *)
Definition names_host (names : list (list Z)) : bool :=
  existsb (fun name => bool_decide (infix_of (name_host name) host)) names.

Lemma san_loop_ok l : Forall name_ok (dns_names l) ->
  san_loop (url scheme host path) l = Ret (names_host (dns_names l)).
Proof.
  induction l as [|n l IH]; [done|]. cbn [san_loop dns_names]. destruct (is_GEN_DNS n); [|apply IH].
  destruct (embedded_nul (dNSName n)); [done|]. intros [Hn Hl]%Forall_cons.
  rewrite compare_host_name_ok by done. ostep. unfold names_host. cbn [existsb].
  destruct (bool_decide _); [done|]. by apply IH.
Qed.

Lemma verify_common_name_ok cert : Forall name_ok (common_names cert) ->
  verify_common_name (url scheme host path) cert = Ret (names_host (common_names cert)).
Proof.
  unfold verify_common_name, common_names. destruct (_ <? 0); [done|]. destruct (get_entry _ _) as [e|]; [|done].
  cbn [mbind option_bind]. destruct (entry_data e) as [s|]; [|done]. destruct (embedded_nul s); [done|].
  intros [Hs _]%Forall_cons. rewrite compare_host_name_ok by done. unfold names_host. cbn [existsb]. by rewrite orb_false_r.
Qed.

(** C24: what the client checks of a certificate. A certificate that the library has
    not verified is refused with its error text; one above the end of the chain is
    accepted as it is; and the node's own certificate is accepted exactly when one
    of the names it presents, without its wildcard, is a part of the host name of
    the URL - any part: a certificate for another, shorter name is accepted too. *)
Theorem verify_certificate_spec preverified ctx :
  Forall name_ok (presented (get_current_cert ctx)) ->
  verify_certificate (url scheme host path) preverified ctx
  = if preverified then Ret (negb (get_error_depth ctx =? 0) || names_host (presented (get_current_cert ctx)))
    else Throw (websocketpp_exception (cert_error_string ctx)).
Proof.
  intros [Hsan Hcn]%Forall_app. unfold verify_certificate. destruct preverified; [|by rewrite andb_false_r].
  destruct (_ =? 0); [|done]. cbn [andb negb orb]. unfold verify_subject_alternative_name, presented, names_host. rewrite existsb_app.
  destruct (subject_alt_names _) as [l|].
  - rewrite san_loop_ok by done. ostep. unfold names_host. destruct (existsb _ (dns_names l)); [done|].
    rewrite verify_common_name_ok by done. ostep. unfold names_host. by destruct (existsb _ _).
  - ostep. rewrite verify_common_name_ok by done. ostep. unfold names_host. cbn [existsb orb]. by destruct (existsb _ _).
Qed.
End accepted.

(** *** The TLS context *)

(** What [on_tls_init] sets in a new context; each call of the library may throw. *)
Inductive tls_call := SetOptions | SetVerifyMode | SetVerifyCallback | LoadVerifyFile.
#[export] Instance tls_call_eq_dec : EqDecision tls_call.
Proof. solve_decision. Defined.

(** An exception ends the [try]; the context is returned as it is then. *)
Fixpoint tls_calls (throws : tls_call -> bool) (calls ctx : list tls_call) : list tls_call :=
  match calls with
  | [] => ctx
  | k :: calls' => if throws k then ctx else tls_calls throws calls' (ctx ++ [k])
  end.

Definition on_tls_init (throws : tls_call -> bool) : list tls_call :=
  tls_calls throws [SetOptions; SetVerifyMode; SetVerifyCallback; LoadVerifyFile] [].

(** A missing root certificate does not turn the checks off: the host name is checked
    unless one of the first three calls throws. *)
Lemma on_tls_init_checks throws :
  SetVerifyCallback ∈ on_tls_init throws <->
  throws SetOptions = false /\ throws SetVerifyMode = false /\ throws SetVerifyCallback = false.
Proof.
  unfold on_tls_init. cbn. destruct (throws SetOptions), (throws SetVerifyMode), (throws SetVerifyCallback), (throws LoadVerifyFile);
    cbn; rewrite ?elem_of_cons, ?elem_of_nil; intuition discriminate.
Qed.

(** ** Configuration: [CConstants] and [CConfig::getNodeUrl] *)

Definition parity_node_url : list Z := str "wss://alex.unfrastructure.io/public/ws".
Definition health_check_delay_time : Z := 15000000.
Definition HEALTH_WAKEUP_MKS : Z := 100000.
Definition PAPI_CANT_CONNECT : Z := 2.
Definition PAPI_NOT_CONNECTED : Z := 3.

(** [jsonConf] is the text of the configuration file, empty if it cannot be read. *)
Definition getNodeUrl `{Doubles} (jsonConf : list Z) : list Z :=
  let conf := parse_payload jsonConf in
  let nodeUrl := string_value (member conf "nodeUrl") in
  if (0 <? length nodeUrl)%nat then nodeUrl else parity_node_url.

(** ** Connections *)

(** What the thread of the library does: it calls [on_open] or [on_message], or [run]
    throws. *)
Inductive io_event : Type :=
| Opened
| Message (is_text : bool) (payload : list Z)
| RunThrew (e : exn).

(** What the client uses of websocketpp. [pp_setup] stands for the calls that prepare
    an endpoint up to [connect]; its result is whether [get_connection] gave an error
    code. [pp_wait] gives what the thread does until the wait for the connection
    ends, [pp_deliver] what it does while a request waits for its answer, [pp_join]
    what it does until [run] is done, if it ever is. *)
Class WebSocketPP := {
  endpoint : Type;
  pp_setup : bool -> list Z -> endpoint -> outcome bool * endpoint;
  pp_wait : endpoint -> list io_event * endpoint;
  pp_deliver : endpoint -> list io_event * endpoint;
  pp_join : endpoint -> option (list io_event * endpoint);
  pp_send : bool -> list Z -> endpoint -> outcome unit * endpoint;
  pp_close : bool -> endpoint -> outcome unit * endpoint;
}.

(** A pointer to a [std::thread], which can be joined once. *)
Inductive thread_ptr : Type := NullThread | Running | Joined.

Section wsclient.
Context `{D : Doubles} `{P : WebSocketPP}.

(** [sendMtx] is the thread that holds [_sendMtx]. [wire] records the texts sent and
    [delivered] the calls of observers. *)
Record CWebSocketClient : Type := {
  w_tls : bool;
  w_node_url : list Z;
  w_connected : bool;
  connectedThread : thread_ptr;
  healthThread : thread_ptr;
  sendMtx : option nat;
  observers : list nat;
  wire : list (list Z);
  delivered : list (nat * list Z);
  net : endpoint;
}.

Definition newCWebSocketClient (e : endpoint) : CWebSocketClient := {|
  w_tls := false; w_node_url := []; w_connected := false; connectedThread := NullThread; healthThread := NullThread;
  sendMtx := None; observers := []; wire := []; delivered := []; net := e |}.

Definition set_target (tls : bool) (uri : list Z) (c : CWebSocketClient) : CWebSocketClient := {|
  w_tls := tls; w_node_url := uri; w_connected := w_connected c; connectedThread := connectedThread c;
  healthThread := healthThread c; sendMtx := sendMtx c; observers := observers c; wire := wire c; delivered := delivered c; net := net c |}.
Definition set_open (b : bool) (c : CWebSocketClient) : CWebSocketClient := {|
  w_tls := w_tls c; w_node_url := w_node_url c; w_connected := b; connectedThread := connectedThread c;
  healthThread := healthThread c; sendMtx := sendMtx c; observers := observers c; wire := wire c; delivered := delivered c; net := net c |}.
Definition set_connectedThread (p : thread_ptr) (c : CWebSocketClient) : CWebSocketClient := {|
  w_tls := w_tls c; w_node_url := w_node_url c; w_connected := w_connected c; connectedThread := p;
  healthThread := healthThread c; sendMtx := sendMtx c; observers := observers c; wire := wire c; delivered := delivered c; net := net c |}.
Definition set_healthThread (p : thread_ptr) (c : CWebSocketClient) : CWebSocketClient := {|
  w_tls := w_tls c; w_node_url := w_node_url c; w_connected := w_connected c; connectedThread := connectedThread c;
  healthThread := p; sendMtx := sendMtx c; observers := observers c; wire := wire c; delivered := delivered c; net := net c |}.
Definition set_net (e : endpoint) (c : CWebSocketClient) : CWebSocketClient := {|
  w_tls := w_tls c; w_node_url := w_node_url c; w_connected := w_connected c; connectedThread := connectedThread c;
  healthThread := healthThread c; sendMtx := sendMtx c; observers := observers c; wire := wire c; delivered := delivered c; net := e |}.
Definition set_sendMtx (o : option nat) (c : CWebSocketClient) : CWebSocketClient := {|
  w_tls := w_tls c; w_node_url := w_node_url c; w_connected := w_connected c; connectedThread := connectedThread c;
  healthThread := healthThread c; sendMtx := o; observers := observers c; wire := wire c; delivered := delivered c; net := net c |}.
Definition log_sent (msg : list Z) (c : CWebSocketClient) : CWebSocketClient := {|
  w_tls := w_tls c; w_node_url := w_node_url c; w_connected := w_connected c; connectedThread := connectedThread c;
  healthThread := healthThread c; sendMtx := sendMtx c; observers := observers c; wire := wire c ++ [msg]; delivered := delivered c; net := net c |}.

Definition registerMessageObserver (handler : nat) (c : CWebSocketClient) : CWebSocketClient := {|
  w_tls := w_tls c; w_node_url := w_node_url c; w_connected := w_connected c; connectedThread := connectedThread c;
  healthThread := healthThread c; sendMtx := sendMtx c; observers := observers c ++ [handler]; wire := wire c;
  delivered := delivered c; net := net c |}.

(** Every observer gets a text message. *)
Definition on_message (is_text : bool) (payload : list Z) (c : CWebSocketClient) : CWebSocketClient :=
  if is_text then
    {| w_tls := w_tls c; w_node_url := w_node_url c; w_connected := w_connected c; connectedThread := connectedThread c;
       healthThread := healthThread c; sendMtx := sendMtx c; observers := observers c; wire := wire c;
       delivered := delivered c ++ ((fun o => (o, payload)) <$> observers c); net := net c |}
  else c.

Definition on_open (c : CWebSocketClient) : CWebSocketClient := set_open true c.

(** The calls of the client. *)
Definition W : Type -> Type := call CWebSocketClient.
#[local] Instance W_ret : MRet W := call_ret CWebSocketClient.
#[local] Instance W_bind : MBind W := call_bind CWebSocketClient.

Definition get_client : W CWebSocketClient := current.
Definition update (f : CWebSocketClient -> CWebSocketClient) : W unit := changes f.

(** A call of the library on the endpoint. *)
Definition library {A} (f : endpoint -> outcome A * endpoint) : W A := fun c =>
  let '(o, e) := f (net c) in Some (o, set_net e c).

(** [runWsMessages]: an exception of the library ends the thread, any other one the
    program. *)
Definition io_step (ev : io_event) : W unit :=
  match ev with
  | Opened => update on_open
  | Message is_text payload => update (on_message is_text payload)
  | RunThrew (websocketpp_exception _) => update (set_open false)
  | RunThrew _ => ends UB
  end.

Fixpoint io_steps (l : list io_event) : W unit :=
  match l with
  | [] => mret tt
  | ev :: l' => io_step ev ;; io_steps l'
  end.

Definition isConnected (c : CWebSocketClient) : bool := w_connected c.

(** [thread::join] *)
Definition join (p : thread_ptr) (wait : W unit) : W thread_ptr :=
  match p with
  | NullThread => ends UB
  | Joined => ends (Throw system_error)
  | Running => wait ;; mret Joined
  end.

(** The thread of the library ends when [run] is done. *)
Definition run_done : W unit := fun c =>
  match pp_join (net c) with
  | Some (events, e) => io_steps events (set_net e c)
  | None => None
  end.

Definition join_connectedThread : W unit :=
  c ← get_client;
  p ← join (connectedThread c) run_done;
  update (set_connectedThread p).

(** The health thread ends when it sees that the client is not connected. *)
Definition health_done : W unit :=
  c ← get_client;
  if w_connected c then never else mret tt.

Definition join_healthThread : W unit :=
  c ← get_client;
  match healthThread c with
  | NullThread => mret tt
  | p => p' ← join p health_done; update (set_healthThread p')
  end.

(** The part of [connect] after the endpoint is prepared. *)
Definition await_connection : W Z :=
  update (set_connectedThread Running) ;;
  events ← library (fun e => let '(events, e') := pp_wait e in (Ret events, e'));
  io_steps events ;;
  c ← get_client;
  if w_connected c then
    update (set_healthThread Running) ;;
    mret PAPI_OK
  else
    join_connectedThread ;;
    update (set_connectedThread NullThread) ;;
    mret PAPI_CANT_CONNECT.

(** [connect_tls] or [connect_no_tls], and what [connect] catches of them. *)
Definition prepare (tls : bool) (uri : list Z) : W Z := fun c =>
  match library (pp_setup tls uri) (set_target tls uri c) with
  | Some (Ret ec, c') => Some (Ret (if ec : bool then PAPI_CANT_CONNECT else PAPI_OK), c')
  | Some (Throw (websocketpp_exception _), c') => Some (Ret PAPI_CANT_CONNECT, c')
  | Some (Throw ex, c') => Some (Throw ex, c')
  | Some (UB, c') => Some (UB, c')
  | None => None
  end.

Definition connect_to (tls : bool) (uri : list Z) : W Z :=
  err ← prepare tls uri;
  if negb (err =? PAPI_OK) then mret err else await_connection.

Definition ws_uri (jsonConf node_url : list Z) : list Z :=
  if decide (node_url = []) then getNodeUrl jsonConf else node_url.

Definition connect (jsonConf node_url : list Z) : W Z :=
  let uri := ws_uri jsonConf node_url in
  if decide (take 4 uri = str "wss:") then connect_to true uri
  else if decide (take 3 uri = str "ws:") then connect_to false uri
  else c ← get_client; update (set_target (w_tls c) uri) ;; mret PAPI_CANT_CONNECT.

Definition disconnect : W unit :=
  c ← get_client;
  library (pp_close (w_tls c)) ;;
  update (set_open false) ;;
  join_connectedThread ;;
  join_healthThread.

(** [_sendMtx.lock()] by thread [t]: a mutex may not be locked twice by one thread;
    another thread waits for it. *)
Definition lock_send (t : nat) : W unit :=
  c ← get_client;
  match sendMtx c with
  | None => update (set_sendMtx (Some t))
  | Some t' => if decide (t = t') then ends UB else never
  end.

Definition send (t : nat) (msg : list Z) : W Z :=
  c ← get_client;
  if w_connected c then
    lock_send t ;;
    library (pp_send (w_tls c) msg) ;;
    update (log_sent msg) ;;
    update (set_sendMtx None) ;;
    mret PAPI_OK
  else mret PAPI_NOT_CONNECTED.

(** ** The health thread *)

Definition health_request : Json :=
  JObject [(str "id", JInt INT_MAX); (str "jsonrpc", JString (str "2.0")); (str "method", JString (str "system_health"));
           (str "params", JArray [])].

(** What follows a sleep: [None] at the end of the loop. The counter is a [long]. *)
Definition health_wakeup (t : nat) (period_counter : Z) : W (option Z) :=
  period_counter ← ends (chk64 (period_counter + HEALTH_WAKEUP_MKS));
  c ← get_client;
  if negb (isConnected c) then mret None
  else match connectedThread c with
       | NullThread => mret None
       | _ =>
           if health_check_delay_time <=? period_counter then send t (dump health_request) ;; mret (Some 0)
           else mret (Some period_counter)
       end.

(** The loop, with what the rest of the program does during each sleep. *)
Fixpoint health (t : nat) (sleeps : list (CWebSocketClient -> CWebSocketClient)) (period_counter : Z) : W (option Z) :=
  match sleeps with
  | [] => mret (Some period_counter)
  | f :: sleeps' =>
      update f ;;
      r ← health_wakeup t period_counter;
      match r with
      | Some n => health t sleeps' n
      | None => mret None
      end
  end.

(** ** Connecting *)

(** Whether the connection is open after some events. *)
Fixpoint opened (l : list io_event) (b : bool) : bool :=
  match l with
  | [] => b
  | Opened :: l' => opened l' true
  | Message _ _ :: l' => opened l' b
  | RunThrew _ :: l' => opened l' false
  end.

(** The library throws exceptions of its own only. *)
Definition event_ok (ev : io_event) : Prop :=
  match ev with RunThrew (websocketpp_exception _) | Opened | Message _ _ => True | RunThrew _ => False end.
Record library_ok : Prop := {
  setup_throws : forall tls uri e ex e', pp_setup tls uri e = (Throw ex, e') -> exists msg, ex = websocketpp_exception msg;
  setup_defined : forall tls uri e e', pp_setup tls uri e <> (UB, e');
  wait_throws : forall e, Forall event_ok (pp_wait e).1;
  deliver_throws : forall e, Forall event_ok (pp_deliver e).1;
  join_throws : forall e r, pp_join e = Some r -> Forall event_ok r.1;
}.

(** What events leave as it is. *)
Definition same_but_events (c c' : CWebSocketClient) : Prop :=
  w_tls c' = w_tls c /\ w_node_url c' = w_node_url c /\ connectedThread c' = connectedThread c
  /\ healthThread c' = healthThread c /\ sendMtx c' = sendMtx c /\ observers c' = observers c /\ wire c' = wire c
  /\ net c' = net c.

Lemma io_steps_ok l c : Forall event_ok l ->
  exists c', io_steps l c = Some (Ret tt, c') /\ w_connected c' = opened l (w_connected c) /\ same_but_events c c'.
Proof.
  intros Hl. revert c. induction Hl as [|ev l Hev _ IH]; intros c; [by exists c|].
  assert (exists c1, io_step ev c = Some (Ret tt, c1) /\ opened (ev :: l) (w_connected c) = opened l (w_connected c1)
    /\ same_but_events c c1) as (c1 & E1 & E2 & S1).
  { destruct ev as [|[] payload|[]]; try done; eexists; (split; [reflexivity|]); by split. }
  destruct (IH c1) as (c' & E & Ec & S). exists c'. cbn [io_steps]. unfold mbind, W_bind, call_bind. rewrite E1, E, Ec, <- E2.
  split; [done|]. split; [done|]. unfold same_but_events in *. by destruct_and!; split_and!; etrans.
Qed.

(** Waiting for the thread of the library, when it runs. *)
Lemma join_running c o c' : library_ok -> connectedThread c = Running -> join_connectedThread c = Some (o, c') ->
  exists events e, pp_join (net c) = Some (events, e) /\ o = Ret tt /\ connectedThread c' = Joined
    /\ w_connected c' = opened events (w_connected c) /\ healthThread c' = healthThread c /\ w_node_url c' = w_node_url c.
Proof.
  intros L Hc E. unfold join_connectedThread, get_client, current, mbind, W_bind, call_bind in E. rewrite Hc in E.
  unfold join, run_done, update, changes, mbind, W_bind, call_bind in E. destruct (pp_join (net c)) as [[events e]|] eqn:Ej; [|done].
  destruct (io_steps_ok events (set_net e c) (join_throws L _ _ Ej)) as (c2 & E2 & C2 & S2). rewrite E2 in E.
  injection E as <- <-. destruct S2 as (_ & U2 & _ & H2 & _). exists events, e. by split_and!.
Qed.

(** The connection is asked for, and opens in time. *)
Definition asked (tls : bool) (uri : list Z) (e e' : endpoint) : Prop := pp_setup tls uri e = (Ret false, e').
Definition in_time (e : endpoint) : bool := opened (pp_wait e).1 false.
(** It opens after the wait. *)
Definition late (e : endpoint) : Prop :=
  in_time e = false /\ exists events e', pp_join (pp_wait e).2 = Some (events, e') /\ opened events false = true.

Lemma await_connection_spec c o c' : library_ok -> w_connected c = false -> await_connection c = Some (o, c') ->
  w_node_url c' = w_node_url c /\
  ((in_time (net c) = true /\ o = Ret PAPI_OK /\ w_connected c' = true /\ connectedThread c' = Running /\ healthThread c' = Running)
  \/ (in_time (net c) = false /\ o = Ret PAPI_CANT_CONNECT /\ connectedThread c' = NullThread /\ healthThread c' = healthThread c
      /\ (w_connected c' = true <-> late (net c)))).
Proof.
  intros L Hc E. unfold await_connection, library, mret, W_ret, mbind, W_bind, call_bind in E. cbn -[io_steps join_connectedThread] in E.
  pose proof (wait_throws L (net c)) as Hw. unfold late, in_time. destruct (pp_wait (net c)) as [events e] eqn:Ew. cbn [fst snd] in *.
  match type of E with context [io_steps events ?x] => destruct (io_steps_ok events x Hw) as (c1 & E1 & C1 & S1) end.
  cbn in C1. rewrite Hc in C1. rewrite E1 in E. cbn -[join_connectedThread] in E. rewrite C1 in E.
  unfold same_but_events in S1. cbn in S1. destruct S1 as (_ & U1 & T1 & H1 & _ & _ & _ & N1).
  destruct (opened events false); cbn -[join_connectedThread] in E.
  - injection E as <- <-. cbn. rewrite C1, T1, U1. split; [done|]. by left.
  - destruct (join_connectedThread c1) as [[o2 c2]|] eqn:Ej; [|done].
    destruct (join_running c1 o2 c2 L T1 Ej) as (events' & e' & Hj & -> & _ & C2 & H2 & U2). rewrite N1 in Hj. rewrite C1 in C2.
    injection E as <- <-. cbn. rewrite H2, H1, C2, Hj, U2, U1. split; [done|]. right. split_and!; try done.
    split; [intros Ho; split; [done|]; by exists events', e'|]. by intros [_ (? & ? & [= <- <-] & ?)].
Qed.

(** The scheme of a URL, if it has one of the two. *)
Definition scheme_of (uri : list Z) : option bool :=
  if decide (take 4 uri = str "wss:") then Some true else if decide (take 3 uri = str "ws:") then Some false else None.

Lemma connect_to_spec tls uri c o c' : library_ok -> w_connected c = false -> connect_to tls uri c = Some (o, c') ->
  let accepted e := exists tls', Some tls = Some tls' /\ asked tls' uri (net c) e in
  w_node_url c' = uri
  /\ ((o = Ret PAPI_OK /\ (exists e, accepted e /\ in_time e = true)
       /\ w_connected c' = true /\ connectedThread c' = Running /\ healthThread c' = Running)
      \/ (o = Ret PAPI_CANT_CONNECT /\ ~ (exists e, accepted e /\ in_time e = true)
          /\ healthThread c' = healthThread c /\ (w_connected c' = true <-> exists e, accepted e /\ late e))).
Proof.
  intros L Hc E accepted. unfold connect_to, prepare, library, mbind, W_bind, call_bind in E. cbn -[await_connection] in E.
  assert (forall e, accepted e <-> pp_setup tls uri (net c) = (Ret false, e)) as Ha
    by (intros e; split; [by intros (? & [= <-] & ?)|intros H; by exists tls]).
  assert (forall e', (forall e, pp_setup tls uri (net c) <> (Ret false, e)) -> w_connected (set_net e' (set_target tls uri c)) = true <-> exists e, accepted e /\ late e) as Hno.
  { intros e' Hne. cbn. rewrite Hc. split; [done|]. intros (e & He%Ha & _). by apply Hne in He. }
  destruct (pp_setup tls uri (net c)) as [[[]|ex|] e1] eqn:Es.
  - injection E as <- <-. split; [done|]. right. split; [done|]. split; [by intros (? & [=]%Ha & _)|]. split; [done|]. by apply Hno.
  - change (await_connection (set_net e1 (set_target tls uri c)) = Some (o, c')) in E.
    destruct (await_connection_spec (set_net e1 (set_target tls uri c)) _ _ L Hc E) as [Hu [(Hi & -> & H1 & H2 & H3)|(Hi & -> & H1 & H2 & H3)]]; (split; [done|]).
    + left. split; [done|]. split; [|done]. exists e1. split; [by apply Ha|done].
    + right. split; [done|]. split; [intros (e & [= <-]%Ha & Hi'); cbn in Hi; congruence|]. split; [done|]. rewrite H3. cbn.
      split; [intros Hl; exists e1; split; [by apply Ha|done]|]. by intros (e & [= <-]%Ha & Hl).
  - destruct (setup_throws L _ _ _ _ _ Es) as [msg ->]. injection E as <- <-. split; [done|]. right. split; [done|].
    split; [by intros (? & [=]%Ha & _)|]. split; [done|]. by apply Hno.
  - by apply (setup_defined L) in Es.
Qed.

(** C29: what [connect] promises. From a client that is not connected, with a library
    that throws its own exceptions only, [connect] throws nothing; it reports
    success exactly when the URL (or the configured one) has a known scheme, the
    library accepts it and the connection opens before the wait ends; then the
    client is connected and both threads run. Otherwise it reports
    [PAPI_CANT_CONNECT] and starts no health thread; it may then still be left
    marked as connected, exactly if the connection opened after the wait. *)
Theorem connect_spec jsonConf node_url c o c' : library_ok -> w_connected c = false ->
  connect jsonConf node_url c = Some (o, c') ->
  let uri := ws_uri jsonConf node_url in
  let accepted e := exists tls, scheme_of uri = Some tls /\ asked tls uri (net c) e in
  w_node_url c' = uri
  /\ ((o = Ret PAPI_OK /\ (exists e, accepted e /\ in_time e = true)
       /\ w_connected c' = true /\ connectedThread c' = Running /\ healthThread c' = Running)
      \/ (o = Ret PAPI_CANT_CONNECT /\ ~ (exists e, accepted e /\ in_time e = true)
          /\ healthThread c' = healthThread c /\ (w_connected c' = true <-> exists e, accepted e /\ late e))).
Proof.
  intros L Hc E uri accepted. unfold connect in E. fold uri in E. unfold accepted, scheme_of.
  case_decide; [|case_decide]; [by apply (connect_to_spec true uri c o c' L Hc E)|by apply (connect_to_spec false uri c o c' L Hc E)|].
  injection E as <- <-. split; [done|]. right. split; [done|]. split; [by intros (? & (? & [=] & _) & _)|]. split; [done|].
  cbn. rewrite Hc. split; [done|]. by intros (? & (? & [=] & _) & _).
Qed.

(** ** Disconnecting *)

(** A connection can be closed once. When [disconnect] returns on a connected
    client whose threads run, the client is not connected, unless it was opened
    again, and both threads have been joined; a second [disconnect] that the library
    accepts throws, and [disconnect] without a connection thread, as on a new client or
    after a failed [connect], is undefined. *)
Theorem disconnect_once c : library_ok -> connectedThread c = Running -> healthThread c = Running ->
  (forall c', disconnect c = Some (Ret tt, c') ->
     w_connected c' = false /\ connectedThread c' = Joined /\ healthThread c' = Joined
     /\ (forall o c'', disconnect c' = Some (o, c'') -> (pp_close (w_tls c') (net c')).1 = Ret tt -> o = Throw system_error))
  /\ (forall c' o c'', connectedThread c' = NullThread -> disconnect c' = Some (o, c'') -> (pp_close (w_tls c') (net c')).1 = Ret tt -> o = UB).
Proof.
  intros L Ht Hh. split; [|intros c' o c'' Hn E Hc].
  - intros c' E. unfold disconnect, get_client, current, library, update, changes, mbind, W_bind, call_bind in E.
    destruct (pp_close (w_tls c) (net c)) as [[[]|ex|] e]; try done.
    destruct (join_connectedThread _) as [[o1 c1]|] eqn:Ej; [|done].
    destruct (join_running (set_open false (set_net e c)) _ _ L Ht Ej) as (events & e' & _ & -> & J1 & C1 & H1 & _). cbn in H1. rewrite Hh in H1.
    unfold join_healthThread, get_client, current, health_done, never, mbind, W_bind, call_bind in E. rewrite H1 in E. cbn in E.
    unfold mbind, W_bind, call_bind in E. destruct (w_connected c1) eqn:Ec; [done|]. cbn in E. injection E as <-. cbn. split_and!; try done.
    intros o c'' E Hc. unfold disconnect, get_client, current, library, update, changes, mbind, W_bind, call_bind in E.
    destruct (pp_close _ _) as [o1 e1]. cbn in Hc. subst o1. unfold join_connectedThread, get_client, current, mbind, W_bind, call_bind in E.
    cbn in E. rewrite J1 in E. cbn in E. by injection E as <- <-.
  - unfold disconnect, get_client, current, library, update, changes, mbind, W_bind, call_bind in E. destruct (pp_close _ _) as [o1 e1]. cbn in Hc. subst o1.
    unfold join_connectedThread, get_client, current, mbind, W_bind, call_bind in E. cbn in E. rewrite Hn in E. cbn in E. by injection E as <- <-.
Qed.

(** ** What calls leave as it is *)

(** The changes of a client that are not those of [send] and [registerMessageObserver]. *)
Inductive frame_update : (CWebSocketClient -> CWebSocketClient) -> Prop :=
| frame_target tls uri : frame_update (set_target tls uri)
| frame_open b : frame_update (set_open b)
| frame_connectedThread p : frame_update (set_connectedThread p)
| frame_healthThread p : frame_update (set_healthThread p)
| frame_net e : frame_update (set_net e)
| frame_message is_text payload : frame_update (on_message is_text payload).

Section stable.
Variable Q : CWebSocketClient -> Prop.
Hypothesis HQ : forall f c, frame_update f -> Q c -> Q (f c).

(** [Q] holds after a call if it held before. *)
Definition stable {A} (m : W A) : Prop := forall c o c', Q c -> m c = Some (o, c') -> Q c'.

Lemma stable_bind {A B} (m : W A) (f : A -> W B) : stable m -> (forall a, stable (f a)) -> stable (m ≫= f).
Proof.
  intros Hm Hf c o c' Hc E. unfold mbind, W_bind, call_bind in E. destruct (m c) as [[[a|e|] c1]|] eqn:Em; [|by injection E as <- <-; eapply Hm..|done].
  eapply Hf; [by eapply Hm|done].
Qed.

Lemma stable_ret {A} (a : A) : stable (mret a).
Proof. by intros c o c' Hc [= <- <-]. Qed.
Lemma stable_get : stable get_client.
Proof. by intros c o c' Hc [= <- <-]. Qed.
Lemma stable_ends {A} (o : outcome A) : stable (ends o : W A).
Proof. by intros c o' c' Hc [= <- <-]. Qed.
Lemma stable_never {A} : stable (never : W A).
Proof. by intros c o c' Hc E. Qed.
Lemma stable_update f : (forall c, Q c -> Q (f c)) -> stable (update f).
Proof. intros Hf c o c' Hc [= <- <-]. by apply Hf. Qed.
Lemma stable_frame f : frame_update f -> stable (update f).
Proof. intros Hf. apply stable_update. intros c. by apply HQ. Qed.
Lemma stable_library {A} (f : endpoint -> outcome A * endpoint) : stable (library f).
Proof.
  intros c o c' Hc E. unfold library in E. destruct (f (net c)) as [o1 e1]. injection E as <- <-.
  apply HQ; [constructor|done].
Qed.

Ltac stable :=
  repeat first
    [ apply stable_ret | apply stable_get | apply stable_ends | apply stable_never | apply stable_library
    | apply stable_frame; constructor | apply stable_bind; [|intros ?] | case_match ].

Lemma stable_io_steps l : stable (io_steps l).
Proof.
  induction l as [|[|is_text payload|e] l IH]; cbn [io_steps io_step]; unfold on_open; [stable|..];
    (apply stable_bind; [|intros _; exact IH]); stable.
Qed.

Lemma stable_io ev : stable (io_step ev).
Proof. destruct ev as [|is_text payload|e]; cbn [io_step]; unfold on_open; stable. Qed.

Lemma stable_run_done : stable run_done.
Proof.
  intros c o c' Hc E. unfold run_done in E. destruct (pp_join (net c)) as [[events e]|]; [|done].
  eapply stable_io_steps in E; [done|]. apply HQ; [constructor|done].
Qed.

Lemma stable_join p : stable (join p run_done).
Proof. destruct p; cbn [join]; [stable| |stable]. apply stable_bind; [apply stable_run_done|intros ?; stable]. Qed.

Lemma stable_disconnect : stable disconnect.
Proof.
  unfold disconnect, join_connectedThread, join_healthThread.
  stable; first [apply stable_join|cbn [join]; unfold health_done; stable].
Qed.

Lemma stable_prepare tls uri : stable (prepare tls uri).
Proof.
  intros c o c' Hc E. unfold prepare, library in E. destruct (pp_setup tls uri _) as [o1 e1].
  destruct o1 as [ec|[]|]; injection E as <- <-; (apply HQ; [constructor|]; apply HQ; [constructor|done]).
Qed.

Lemma stable_connect jsonConf node_url : stable (connect jsonConf node_url).
Proof.
  unfold connect, connect_to, await_connection, join_connectedThread.
  stable; first [apply stable_prepare|apply stable_io_steps|apply stable_join].
Qed.
End stable.

(** ** The lock of [send] *)

(** Calls leave the lock to the thread that has it. *)
Lemma frame_sendMtx t f c : frame_update f -> sendMtx c = Some t -> sendMtx (f c) = Some t.
Proof. intros []; try done. by destruct is_text. Qed.

Lemma send_locked t t' msg c : sendMtx c = Some t -> w_connected c = true ->
  send t' msg c = if decide (t' = t) then Some (UB, c) else None.
Proof.
  intros Hl Hc. unfold send, lock_send, get_client, current, mbind, W_bind, call_bind. rewrite Hc. cbn. rewrite Hl. by case_decide.
Qed.

Lemma send_keeps_lock t t' msg : stable (fun c => sendMtx c = Some t) (send t' msg).
Proof.
  intros c o c' Hc E. destruct (w_connected c) eqn:Ec.
  - rewrite (send_locked t) in E by done. case_decide; [by injection E as <- <-|done].
  - unfold send, get_client, current, mbind, W_bind, call_bind in E. rewrite Ec in E. by injection E as <- <-.
Qed.

(** Anything that may happen to the client. *)
Inductive client_step (c : CWebSocketClient) : CWebSocketClient -> Prop :=
| step_connect jsonConf node_url o c' : connect jsonConf node_url c = Some (o, c') -> client_step c c'
| step_disconnect o c' : disconnect c = Some (o, c') -> client_step c c'
| step_send t msg o c' : send t msg c = Some (o, c') -> client_step c c'
| step_register handler : client_step c (registerMessageObserver handler c)
| step_io ev o c' : io_step ev c = Some (o, c') -> client_step c c'.

Lemma client_step_keeps t c c' : client_step c c' -> sendMtx c = Some t -> sendMtx c' = Some t.
Proof.
  intros Hs Hc. destruct Hs as [j u o c' E|o c' E|t' m o c' E|h|ev o c' E]; [| | |done|].
  - by eapply (stable_connect _ (frame_sendMtx t)).
  - by eapply (stable_disconnect _ (frame_sendMtx t)).
  - by eapply send_keeps_lock.
  - by eapply (stable_io _ (frame_sendMtx t)).
Qed.

(** ** Observers *)

Lemma frame_observers l f c : frame_update f -> observers c = l -> observers (f c) = l.
Proof. intros []; try done. by destruct is_text. Qed.

Lemma send_keeps_observers l t msg : stable (fun c => observers c = l) (send t msg).
Proof.
  intros c o c' Hc E. unfold send, lock_send, get_client, current, update, changes, library, mbind, W_bind, call_bind in E.
  destruct (w_connected c); [|by injection E as <- <-].
  destruct (sendMtx c); cbn in E; [case_decide; cbn in E; [by injection E as <- <-|done]|].
  destruct (pp_send _ _ _) as [[[]|ex|] e]; cbn in E; by injection E as <- <-.
Qed.

(** An exception of the library in [send] blocks sending for good. The lock is not
    released: whatever happens afterwards - receiving, disconnecting, connecting again -
    as soon as the client is connected, every call of [send] by another thread waits
    for ever, and by the same thread it locks a mutex that the thread has already. *)
Theorem send_exception_blocks t msg c e c' : w_connected c = true -> sendMtx c = None ->
  send t msg c = Some (Throw e, c') ->
  forall c'', rtc client_step c' c'' -> w_connected c'' = true ->
  forall t' msg', send t' msg' c'' = if decide (t' = t) then Some (UB, c'') else None.
Proof.
  intros Hc Hl E c'' Hs Hc'' t' msg'.
  assert (sendMtx c' = Some t) as Hl'.
  { unfold send, lock_send, get_client, current, update, changes, library, mbind, W_bind, call_bind in E. rewrite Hc, Hl in E. cbn in E.
    destruct (pp_send _ _ _) as [[[]|ex|] e1]; [done| |done]. by injection E as <- <-. }
  apply send_locked; [|done]. clear E Hc''. induction Hs as [|c1 c2 c3 H12 _ IH]; [done|]. by apply IH, (client_step_keeps t c1).
Qed.

(** ** Health messages *)

(** The health thread can send. *)
Definition healthy (c : CWebSocketClient) : Prop :=
  w_connected c = true /\ connectedThread c <> NullThread /\ sendMtx c = None.

Definition health_sent (c : CWebSocketClient) : Z :=
  Z.of_nat (length (filter (fun msg => msg = dump health_request) (wire c))).

Lemma send_healthy t msg c : (forall tls msg e, (pp_send tls msg e).1 = Ret tt) -> healthy c ->
  exists c', send t msg c = Some (Ret PAPI_OK, c') /\ healthy c' /\ wire c' = wire c ++ [msg].
Proof.
  intros Hs (Hc & Ht & Hl). unfold send, lock_send, get_client, current, update, changes, library, mbind, W_bind, call_bind. rewrite Hc, Hl. cbn.
  specialize (Hs (w_tls c) msg (net c)). destruct (pp_send _ _ _) as [o e]. cbn in Hs. subst o. eexists. split; [reflexivity|].
  by split_and!.
Qed.

(** One round of the loop, [k] wake-ups after a message. *)
Lemma health_wakeup_ok t k c : (forall tls msg e, (pp_send tls msg e).1 = Ret tt) -> 0 <= k < 150 -> healthy c ->
  exists c', health_wakeup t (k * HEALTH_WAKEUP_MKS) c = Some (Ret (Some ((if k =? 149 then 0 else k + 1) * HEALTH_WAKEUP_MKS)), c')
    /\ healthy c' /\ health_sent c' = health_sent c + (if k =? 149 then 1 else 0).
Proof.
  intros Hs Hk Hh. pose proof Hh as (Hc & Ht & _). unfold health_wakeup, isConnected, get_client, current, ends, mbind, W_bind, call_bind.
  unfold chk64, in_signed. rewrite (proj2 (andb_true_iff _ _)) by (unfold HEALTH_WAKEUP_MKS; split; [apply Z.leb_le|apply Z.ltb_lt]; lia).
  rewrite Hc. cbn [negb].
  assert ((health_check_delay_time <=? k * HEALTH_WAKEUP_MKS + HEALTH_WAKEUP_MKS) = (k =? 149)) as ->.
  { unfold health_check_delay_time, HEALTH_WAKEUP_MKS. destruct (Z.eqb_spec k 149), (Z.leb_spec 15000000 (k * 100000 + 100000)); lia. }
  destruct (connectedThread c); [done|..]; (destruct (Z.eqb_spec k 149) as [->|Hne];
    [destruct (send_healthy t (dump health_request) c Hs Hh) as (c' & E & Hh' & Hw); rewrite E; exists c'; split; [done|]; split; [done|];
     unfold health_sent; rewrite Hw, filter_app, length_app, filter_cons_True, filter_nil by done; cbn [length]; lia
    |exists c; split; [unfold mret, W_ret, call_ret; do 4 f_equal; unfold HEALTH_WAKEUP_MKS; lia|]; split; [done|lia]]).
Qed.

(** The health thread sends its message every 15 seconds. While the connection is up
    and the rest of the program leaves it so and sends no such message itself, [n]
    wake-ups send one message per 150 and the counter goes on from their remainder;
    the answers of the node, whatever they contain, are given to no request. *)
Theorem health_period t sleeps k c : (forall tls msg e, (pp_send tls msg e).1 = Ret tt) ->
  (forall f c, f ∈ sleeps -> healthy c -> healthy (f c) /\ health_sent (f c) = health_sent c) ->
  0 <= k < 150 -> healthy c ->
  let n := Z.of_nat (length sleeps) in
  (exists c', health t sleeps (k * HEALTH_WAKEUP_MKS) c = Some (Ret (Some ((k + n) mod 150 * HEALTH_WAKEUP_MKS)), c')
    /\ healthy c' /\ health_sent c' = health_sent c + (k + n) / 150)
  /\ forall waiting version result, json_ok 0 (answer_json version INT_MAX result) = true ->
      route waiting (dump (answer_json version INT_MAX result)) = Ret Ignored.
Proof.
  intros Hs Hf Hk Hh n. split.
  - subst n. revert k c Hk Hh. induction sleeps as [|f l IH]; intros k c Hk Hh.
    + exists c. cbn. rewrite Z.add_0_r, Z.mod_small, Z.div_small by lia. split; [done|]. split; [done|lia].
    + destruct (Hf f c) as [Hh1 E1]; [by left|done|]. cbn [health]. unfold update, changes, mbind, W_bind, call_bind.
      destruct (health_wakeup_ok t k (f c) Hs Hk Hh1) as (c2 & -> & Hh2 & E2).
      destruct (IH ltac:(intros; apply Hf; [by right|done]) (if k =? 149 then 0 else k + 1) c2) as (c' & E & Hh' & E3); [destruct (Z.eqb_spec k 149); lia|done|].
      rewrite E. exists c'. cbn [length]. rewrite E3, E2, E1, Nat2Z.inj_succ.
      set (m := Z.of_nat (length l)). destruct (Z.eqb_spec k 149) as [->|].
      * replace (149 + Z.succ m) with (0 + m + 1 * 150) by lia. rewrite Z.mod_add, Z.div_add by done. split; [done|]. split; [done|lia].
      * replace (k + Z.succ m) with (k + 1 + m) by lia. split; [done|]. split; [done|lia].
  - intros waiting version result Hok. unfold route. rewrite parse_payload_dump by done. by destruct (is_null _) eqn:E.
Qed.
End wsclient.

(** ** Examples *)

(** A certificate with alternative names and a common name. *)
#[local] Instance plain_openssl : OpenSSL := {|
  X509 := list (list Z) * list Z;
  GENERAL_NAME := list Z;
  X509_NAME_ENTRY := list Z;
  verify_context := Z * (list (list Z) * list Z);
  get_error_depth := fst;
  get_current_cert := snd;
  cert_error_string _ := str "ok";
  subject_alt_names cert := Some cert.1;
  is_GEN_DNS _ := true;
  dNSName n := n;
  common_name_index _ := 0;
  get_entry cert _ := Some cert.2;
  entry_data := Some;
|}.

Lemma sample_url_ok : url_ok (str "wss:") (str "kusama-rpc.polkadot.io") (str "/ws").
Proof.
  repeat split; [apply (bool_decide_unpack _); vm_compute; exact I..|by right|apply (bool_decide_unpack _); vm_compute; exact I|].
  vm_compute. lia.
Qed.

(** The certificate of another domain, which is accepted. *)
Lemma verify_certificate_spec_witness :
  verify_certificate (url (str "wss:") (str "kusama-rpc.polkadot.io") (str "/ws")) true (0, ([str "www.example.org"], str "*.dot.io")) = Ret true.
Proof.
  etrans; [apply (verify_certificate_spec _ _ _ sample_url_ok)|vm_compute; reflexivity].
  vm_compute. repeat constructor.
Defined.

(** A node that opens every connection. Sending fails on an endpoint that is closed. *)
#[local] Instance open_pp : WebSocketPP := {|
  endpoint := bool;
  pp_setup _ _ e := (Ret false, e);
  pp_wait e := ([Opened], e);
  pp_deliver e := ([], e);
  pp_join e := Some ([], e);
  pp_send _ _ e := (if e : bool then Ret tt else Throw (websocketpp_exception (str "invalid state")), e);
  pp_close _ e := (Ret tt, e);
|}.
#[local] Existing Instance numeral_doubles.

Lemma open_library_ok : library_ok.
Proof. split; [done|done|by intros e; constructor|by intros e; constructor|by intros e r [= <-]; constructor]. Qed.

Definition opened_client (alive : bool) : CWebSocketClient := {|
  w_tls := true; w_node_url := parity_node_url; w_connected := true; connectedThread := Running; healthThread := Running;
  sendMtx := None; observers := []; wire := []; delivered := []; net := alive |}.

Definition new_client : CWebSocketClient := newCWebSocketClient true.

Lemma connect_spec_witness :
  connect [] [] new_client = Some (Ret PAPI_OK, opened_client true)
  /\ w_node_url (opened_client true) = ws_uri [] [].
Proof.
  assert (connect [] [] new_client = Some (Ret PAPI_OK, opened_client true)) as E by (vm_compute; reflexivity).
  split; [exact E|]. apply (connect_spec (P := open_pp) [] [] new_client _ _ open_library_ok eq_refl E).
Defined.

Definition closed_client : CWebSocketClient := {|
  w_tls := true; w_node_url := parity_node_url; w_connected := false; connectedThread := Joined; healthThread := Joined;
  sendMtx := None; observers := []; wire := []; delivered := []; net := true |}.

Lemma disconnect_once_witness :
  disconnect (opened_client true) = Some (Ret tt, closed_client) /\ connectedThread closed_client = Joined.
Proof.
  assert (disconnect (opened_client true) = Some (Ret tt, closed_client)) as E by (vm_compute; reflexivity).
  split; [exact E|]. apply (proj1 (disconnect_once (P := open_pp) (opened_client true) open_library_ok eq_refl eq_refl) _ E).
Defined.

Definition stuck_client : CWebSocketClient := {|
  w_tls := true; w_node_url := parity_node_url; w_connected := true; connectedThread := Running; healthThread := Running;
  sendMtx := Some 1%nat; observers := []; wire := []; delivered := []; net := false |}.

Lemma send_exception_blocks_witness : send 2 (str "x") stuck_client = None.
Proof.
  apply (send_exception_blocks (P := open_pp) 1 (str "x") (opened_client false) (websocketpp_exception (str "invalid state")) stuck_client
    eq_refl eq_refl ltac:(vm_compute; reflexivity) stuck_client (rtc_refl _ _) eq_refl 2%nat).
Defined.

(** A library whose sending never fails. *)
Definition sending_pp : WebSocketPP := {|
  endpoint := unit; pp_setup _ _ e := (Ret false, e); pp_wait e := ([Opened], e); pp_deliver e := ([], e); pp_join e := Some ([], e);
  pp_send _ _ e := (Ret tt, e); pp_close _ e := (Ret tt, e) |}.

Definition sending_client : CWebSocketClient (P := sending_pp) :=
  @Build_CWebSocketClient sending_pp true parity_node_url true Running Running None [] [] [] tt.

Lemma health_period_witness :
  exists c', health (P := sending_pp) 1 (replicate 300 id) 0 sending_client = Some (Ret (Some 0), c')
    /\ healthy (P := sending_pp) c' /\ health_sent (P := sending_pp) c' = 2.
Proof.
  apply (health_period (P := sending_pp) 1 (replicate 300 id) 0 sending_client).
  - done.
  - intros f c Hf Hh. apply elem_of_replicate in Hf as [-> _]. done.
  - lia.
  - done.
Defined.
