(* ===== verification/Transfer.v ===== *)
(** A transfer from the application to the text on the connection, and its progress
    back: [CPolkaApi::signAndSendTransfer] of [src/application.cpp] over the JSON-RPC
    client of [Client]. *)
From stdpp Require Import functions.
From S2P Require Import Prelude Scale Converters Address Json Extrinsic JsonRpc Decode Lookup Metadata Api ApiInvariant ApiBehaviour Client.

Section subscribe.
Context `{D : Doubles} `{W : IWebSocketClient} (version : list Z).
#[local] Instance rpc_client : IJsonRpc := json_rpc_client version.
Context `{SW : StdWhat}.

(** A subscription that the node confirms. *)
Lemma subscribeWs_answered q sid pre post w (st : state) : node_answers version q (JInt sid) pre post w (node st) ->
  subscribeWs q st = Some (Ret sid, set_node (set_subscribers (sid :: wsSubscribers (node st)) (after_request pre post w (node st))) st).
Proof.
  intros Hn. unfold subscribeWs, on_node, on_part. cbn [rpc_subscribeWs rpc_client json_rpc_client]. unfold client_subscribeWs.
  unfold mbind, C_bind, call_bind.
  by rewrite (client_request_answered _ _ _ _ _ _ _ _ Hn).
Qed.

(** The updates that the node sends with the confirmation wait for the consumer. *)
Lemma confirmed_inbox q result sid pre post w (c : client) u : node_answers version q result pre post w c -> u ∈ pre ++ post -> u.1.2 = sid ->
  update_of u ∈ client_inbox (set_subscribers (sid :: wsSubscribers c) (after_request pre post w c)).
Proof.
  intros Hn Hu <-. destruct (after_request_pending _ _ _ _ _ _ _ Hn) as [Hp _]. unfold client_inbox. apply list_elem_of_filter. split; [by left|].
  change (pending_updates (set_subscribers _ ?c')) with (pending_updates c'). rewrite Hp, elem_of_app. right. by apply list_elem_of_fmap_2.
Qed.

(** The text that is submitted: a framed transfer, signed by the sender. *)
Definition transfer_request (sign : list Z -> list Z -> list Z -> list Z) (pk sk genesis : list Z) (nonce : Z) (m : TransferMethod) : Json :=
  query "author_submitAndWatchExtrinsic"
    [JString (48 :: 120 :: hex_bytes (framed (signature_part (signed sign pk sk genesis nonce (transfer_call m)) ++ transfer_call m)))].

(** C1: a transfer from the application to the connection and back. When the nonce of the
    sender is known, the private key has the 64 bytes that the library reads, and the
    node confirms exactly the request for the framed transfer, signed by the sender
    over nonce, call, era and genesis hash, with the id of a subscription, among
    updates for which the queues have room, [signAndSendTransfer] returns; the updates
    of the transfer that came with the confirmation wait to be handled; and from then
    on, if no other subscription has the id, an update that says so calls the
    application's callback with "ready", or with "finalized", which ends the
    subscription. *)
Theorem transfer_end_to_end sign sender priv recipient amt c (st st1 : state) nonce mi ci genesis pk rk sk sid pre post w :
  (forall pk sk msg, length pk = SR25519_PUBLIC_SIZE -> length sk = SR25519_SECRET_SIZE ->
     length (sign pk sk msg) = SR25519_SIGNATURE_SIZE) ->
  getAccountNonce sender st = Some (Ret nonce, st1) -> compact_safe nonce = true -> compact_safe amt = true ->
  BalanceModuleIndex (protocolPrm (polka st1)) = Some mi -> is_byte mi ->
  TransferMethodIndex (protocolPrm (polka st1)) = Some ci -> is_byte ci ->
  GenesisBlockHash (protocolPrm (polka st1)) = Some genesis -> length genesis = 32%nat ->
  getPublicKeyFromAddr_string sender = Ret {| pk_bytes := pk |} -> length pk = 32%nat ->
  getPublicKeyFromAddr_string recipient = Ret {| pk_bytes := rk |} -> length rk = 32%nat ->
  fromHexVec priv true = Ret sk -> length sk = SR25519_SECRET_SIZE ->
  node_answers version (transfer_request sign pk sk genesis nonce {| tm_moduleIndex := mi; tm_methodIndex := ci; receiverPublicKey := rk; amount := amt |})
    (JInt sid) pre post w (node st1) ->
  exists st2, signAndSendTransfer sign sender priv recipient amt (User c) st = Some (Ret tt, st2) /\ calls st2 = calls st1
    /\ (forall u, u ∈ pre ++ post -> u.1.2 = sid -> update_of u ∈ rpc_inbox (node st2))
    /\ (fresh_id sid (polka st1) -> forall message,
         (contains (str "ready") (dump message) = true ->
            handleWsMessage sid message st2 = Some (Ret tt, add_call c (TransferStatus (str "ready")) st2))
         /\ (contains (str "ready") (dump message) = false -> contains (str "finalized") (dump message) = true ->
            exists st3, handleWsMessage sid message st2 = Some (Ret tt, st3)
              /\ calls st3 = calls st2 ++ [(c, TransferStatus (str "finalized"))] /\ slots (polka st3) TransferSlot = cleared)).
Proof.
  intros Hs En Hn Ha Emi Hmi Eci Hci Eg Hg Epk Hpk Erk Hrk Esk Hsk Hans.
  destruct (set_subscriber_eq TransferSlot (User c) st1) as (sa & Ea & Na & Ca & Ta & Sa & Oa).
  assert (node_answers version (transfer_request sign pk sk genesis nonce {| tm_moduleIndex := mi; tm_methodIndex := ci; receiverPublicKey := rk; amount := amt |})
    (JInt sid) pre post w (node sa)) as Hans' by (by rewrite Na).
  pose proof (subscribeWs_answered _ _ _ _ _ _ Hans') as Eb. set (sb := set_node _ sa) in Eb.
  destruct (set_slot_id_eq TransferSlot sid sb) as (sc & Ec & Nc & Cc & Tc & Sc & Oc).
  exists sc. split; [|split; [by rewrite Cc|split]].
  - unfold signAndSendTransfer, mbind, M_bind, call_bind. rewrite En. unfold this. rewrite Emi, Eci, Eg. cbn [run written].
    rewrite (transfer_text_ok sign Hs nonce mi ci sender recipient priv amt genesis pk rk sk) by done.
    cbv beta iota zeta. rewrite Ea. unfold transfer_request in Eb. rewrite Eb. exact Ec.
  - intros u Hu Hsid. rewrite Nc. by eapply (confirmed_inbox _ _ sid pre post w (node sa)).
  - intros Hf message. assert (fresh_id sid (polka sc)) as Hfc.
    { apply (fresh_id_same st1 sc); [done|rewrite Tc; cbn; by rewrite Ta|]. intros s Hne. rewrite (Oc s) by done. cbn. by apply Oa. }
    destruct (transfer_update sid c message sc Hfc) as [Hready Hend]; [rewrite Sc; cbn; by rewrite Sa|]. split; [done|].
    intros Hr Hz. eexists. split; [by apply Hend|]. split; [done|]. cbn. by rewrite fn_lookup_insert.
Qed.
End subscribe.

(** ** An example *)

#[local] Existing Instance numeral_doubles.
#[local] Existing Instance scripted_node.
#[local] Instance no_what : StdWhat := fun _ => [].
#[local] Existing Instance rpc_client.

(** The node confirms the nonce subscription with its first update, ends it, and
    confirms the transfer. *)
Definition transfer_script : list (list (list Z)) :=
  [[dump (answer_json version_text 1 (JInt 7));
    update_text version_text (str "state_storage", 7, change_json [JString (str "0x2a00000000000000")])];
   [dump (answer_json version_text 2 (JBool true))];
   [dump (answer_json version_text 3 (JInt 9));
    update_text version_text (str "author_extrinsicUpdate", 9, JString (str "ready"))]].

Definition transfer_client : client := {|
  c_lastId := 0; c_queries := ∅; wsSubscribers := []; queue := no_queues; wsc := (true, transfer_script) |}.

Definition ready_api : CPolkaApi :=
  set_slot ExtrinsicSlot {| subscriber := None; subscriptionId := Some 0 |} (polka (J := scripted_client) connected).

Definition ready_state : state (J := rpc_client version_text) :=
  Build_state (J := rpc_client version_text) ready_api transfer_client [] None.

Definition nonce_answer : option (outcome Z * state (J := rpc_client version_text)) :=
  getAccountNonce (J := rpc_client version_text) test_addr ready_state.
Definition nonce_known : state (J := rpc_client version_text) := default ready_state (snd <$> nonce_answer).

Lemma nonce_known_eq : getAccountNonce (J := rpc_client version_text) test_addr ready_state = Some (Ret 42, nonce_known).
Proof.
  assert (fst <$> getAccountNonce (J := rpc_client version_text) test_addr ready_state = Some (Ret 42)) as H by (vm_compute; reflexivity).
  unfold nonce_known, nonce_answer. destruct (getAccountNonce _ _) as [[o st]|]; [|done]. by injection H as ->.
Qed.

Lemma transfer_end_to_end_witness :
  exists st2, signAndSendTransfer (J := rpc_client version_text) sign64 test_addr test_private_key test_addr 5 (User 4) ready_state
    = Some (Ret tt, st2)
  /\ handleWsMessage (J := rpc_client version_text) 9 (JString (str "ready")) st2
    = Some (Ret tt, add_call (J := rpc_client version_text) 4 (TransferStatus (str "ready")) st2).
Proof.
  destruct (transfer_end_to_end version_text sign64 test_addr test_private_key test_addr 5 4 ready_state nonce_known 42 0 0
    (replicate 32 9) test_key test_key test_secret 9 [] [(str "author_extrinsicUpdate", 9, JString (str "ready"))] (true, []))
    as (st2 & E & _ & _ & Hu);
    [intros; apply length_replicate|apply nonce_known_eq|vm_compute; reflexivity|vm_compute; reflexivity
    |vm_compute; reflexivity|unfold is_byte; lia|vm_compute; reflexivity|unfold is_byte; lia|vm_compute; reflexivity|reflexivity
    |vm_compute; reflexivity|reflexivity|vm_compute; reflexivity|reflexivity|vm_compute; reflexivity|reflexivity| |].
  - split; [vm_compute; split; [discriminate|reflexivity]|]. split; [vm_compute; reflexivity|]. split; [vm_compute; reflexivity|].
    split; [constructor|]. split; [apply List.Forall_cons; [split; [vm_compute; reflexivity|done]|constructor]|].
    split; [vm_compute; reflexivity|]. split; [vm_compute; by eexists|].
    eexists _, _, _. split; [reflexivity|split; [reflexivity|vm_compute; reflexivity]].
  - exists st2. split; [exact E|]. refine (proj1 (Hu _ (JString (str "ready"))) _); [|vm_compute; reflexivity].
    split; [|split; vm_compute; reflexivity].
    intros s Hs. exists 0. split; [|done]. apply elem_of_cons in Hs as [->|[->|[]%elem_of_nil]%elem_of_cons]; vm_compute; reflexivity.
Defined.
