(* ===== verification/Application.v ===== *)
(** The interface of the API object: [src/interfaces/iapplication.h], what it promises of
    its operations, and [CPolkaApi] as its implementation.

    A callback is a number that stands for a function of the application; buffers
    that the caller passes are results. *)
From stdpp Require Import relations.
From S2P Require Import Prelude Json Extrinsic Decode Lookup Metadata Api ApiInvariant ApiBehaviour.

(** ** The interface *)

Class IApplication (M : Type -> Type) := {
  app_connect : text -> M Z;
  app_disconnect : M unit;
  app_getSystemInfo : M SystemInfo;
  app_getBlockHash : option Z -> M BlockHash;
  app_getMetadata : option text -> M Metadata;
  app_getRuntimeVersion : option text -> M RuntimeVersion;
  app_getBlock : option text -> M SignedBlock;
  app_getBlockHeader : option text -> M BlockHeader;
  app_getNetworkState : M NetworkState;
  app_getFinalizedHead : M FinalHead;
  app_getSystemHealth : M SystemHealth;
  app_getSystemPeers : M PeersInfo;
  app_getAccountNonce : text -> M Z;
  app_getKeys : text -> text -> text -> M text;
  app_getStorage : text -> text -> text -> M text;
  app_getStorageHash : text -> text -> text -> M text;
  app_getStorageSize : text -> text -> text -> M Z;
  app_getChildKeys : text -> text -> M text;
  app_getChildStorage : text -> text -> M text;
  app_getChildStorageHash : text -> text -> M text;
  app_getChildStorageSize : text -> text -> M Z;
  app_stateCall : text -> text -> text -> M text;
  app_queryStorage : text -> text -> text -> Z -> M (list StorageItem);
  app_signAndSendTransfer : text -> text -> text -> Z -> nat -> M unit;
  app_pendingExtrinsics : list Z -> Z -> M (Z * list GenericExtrinsic)%type;
  app_submitAndSubcribeExtrinsic : text -> text -> text -> text -> text -> nat -> M unit;
  app_submitExtrinsic : text -> text -> text -> text -> text -> M text;
  app_removeExtrinsic : text -> M bool;
  app_subscribeBlockNumber : nat -> M Z;
  app_unsubscribeBlockNumber : M Z;
  app_subscribeFinalizedBlock : nat -> M Z;
  app_unsubscribeFinalizedBlock : M Z;
  app_subscribeRuntimeVersion : nat -> M Z;
  app_unsubscribeRuntimeVersion : M Z;
  app_subscribeStorage : text -> nat -> M Z;
  app_unsubscribeStorage : text -> M Z;
  app_subscribeBalance : text -> nat -> M Z;
  app_unsubscribeBalance : text -> M Z;
  app_subscribeEraAndSession : nat -> M Z;
  app_unsubscribeEraAndSession : M Z;
  app_subscribeAccountNonce : text -> nat -> M Z;
  app_unsubscribeAccountNonce : text -> M Z;
}.

Section interface.
Context {M : Type -> Type} `{A : !IApplication M}.

(** The operations that ask the node, and those that start or end a subscription. *)
Inductive app_query : forall T, M T -> Prop :=
| q_getSystemInfo : app_query _ app_getSystemInfo
| q_getBlockHash p : app_query _ (app_getBlockHash p)
| q_getMetadata p : app_query _ (app_getMetadata p)
| q_getRuntimeVersion p : app_query _ (app_getRuntimeVersion p)
| q_getBlock p : app_query _ (app_getBlock p)
| q_getBlockHeader p : app_query _ (app_getBlockHeader p)
| q_getNetworkState : app_query _ app_getNetworkState
| q_getFinalizedHead : app_query _ app_getFinalizedHead
| q_getSystemHealth : app_query _ app_getSystemHealth
| q_getSystemPeers : app_query _ app_getSystemPeers
| q_getKeys p m v : app_query _ (app_getKeys p m v)
| q_getStorage p m v : app_query _ (app_getStorage p m v)
| q_getStorageHash p m v : app_query _ (app_getStorageHash p m v)
| q_getStorageSize p m v : app_query _ (app_getStorageSize p m v)
| q_getChildKeys c k : app_query _ (app_getChildKeys c k)
| q_getChildStorage c k : app_query _ (app_getChildStorage c k)
| q_getChildStorageHash c k : app_query _ (app_getChildStorageHash c k)
| q_getChildStorageSize c k : app_query _ (app_getChildStorageSize c k)
| q_stateCall n d h : app_query _ (app_stateCall n d h)
| q_queryStorage k a b n : app_query _ (app_queryStorage k a b n)
| q_pendingExtrinsics slack n : app_query _ (app_pendingExtrinsics slack n)
| q_removeExtrinsic h : app_query _ (app_removeExtrinsic h).

Inductive app_subscription : M Z -> Prop :=
| s_subscribeBlockNumber c : app_subscription (app_subscribeBlockNumber c)
| s_unsubscribeBlockNumber : app_subscription app_unsubscribeBlockNumber
| s_subscribeFinalizedBlock c : app_subscription (app_subscribeFinalizedBlock c)
| s_unsubscribeFinalizedBlock : app_subscription app_unsubscribeFinalizedBlock
| s_subscribeRuntimeVersion c : app_subscription (app_subscribeRuntimeVersion c)
| s_unsubscribeRuntimeVersion : app_subscription app_unsubscribeRuntimeVersion
| s_subscribeStorage k c : app_subscription (app_subscribeStorage k c)
| s_unsubscribeStorage k : app_subscription (app_unsubscribeStorage k)
| s_subscribeBalance a c : app_subscription (app_subscribeBalance a c)
| s_unsubscribeBalance a : app_subscription (app_unsubscribeBalance a)
| s_subscribeEraAndSession c : app_subscription (app_subscribeEraAndSession c)
| s_unsubscribeEraAndSession : app_subscription app_unsubscribeEraAndSession
| s_subscribeAccountNonce a c : app_subscription (app_subscribeAccountNonce a c)
| s_unsubscribeAccountNonce a : app_subscription (app_unsubscribeAccountNonce a).
End interface.

(** ** What it promises

    [exec] runs an operation and [view] is what the application can tell of an object
    apart from asking the node: its subscriptions and parameters and the calls of
    callbacks so far. *)
Class ApplicationLaws (M : Type -> Type) `{A : !IApplication M} (obj V : Type)
    (exec : forall T, M T -> obj -> option (outcome T * obj)) (view : obj -> V) := {
  law_query : forall T (m : M T) s o s', app_query T m -> exec T m s = Some (o, s') -> view s' = view s;
  law_subscription : forall m s r s', app_subscription m -> exec Z m s = Some (Ret r, s') -> r = PAPI_OK;
}.

Section client.
Context {M : Type -> Type} `{A : !IApplication M} {obj V : Type}.
Context {exec : forall T, M T -> obj -> option (outcome T * obj)} {view : obj -> V} `{L : !ApplicationLaws M obj V exec view}.

(** A client that only asks. *)
Definition asks (s s' : obj) : Prop := exists T (m : M T) o, app_query T m /\ exec T m s = Some (o, s').

Lemma asking_keeps_view s s' : rtc asks s s' -> view s' = view s.
Proof. induction 1 as [s|s1 s2 s3 (T & m & o & Hq & E) _ IH]; [done|]. rewrite IH. by apply (law_query T m s1 o s2). Qed.
End client.

(** ** The implementation *)

Section polka.
Context `{D : Doubles} `{J : !IJsonRpc} `{W : StdWhat}.
Context (sr25519_sign : list Z -> list Z -> list Z -> list Z).

#[export] Instance polka_application : IApplication Api.M := {|
  app_connect := connect;
  app_disconnect := disconnect;
  app_getSystemInfo := getSystemInfo;
  app_getBlockHash := getBlockHash;
  app_getMetadata := getMetadata;
  app_getRuntimeVersion := getRuntimeVersion;
  app_getBlock := getBlock;
  app_getBlockHeader := getBlockHeader;
  app_getNetworkState := getNetworkState;
  app_getFinalizedHead := getFinalizedHead;
  app_getSystemHealth := getSystemHealth;
  app_getSystemPeers := getSystemPeers;
  app_getAccountNonce := getAccountNonce;
  app_getKeys := getKeys;
  app_getStorage := getStorage;
  app_getStorageHash := getStorageHash;
  app_getStorageSize := getStorageSize;
  app_getChildKeys := getChildKeys;
  app_getChildStorage := getChildStorage;
  app_getChildStorageHash := getChildStorageHash;
  app_getChildStorageSize := getChildStorageSize;
  app_stateCall := stateCall;
  app_queryStorage := queryStorage;
  app_signAndSendTransfer s k r n c := signAndSendTransfer sr25519_sign s k r n (User c);
  app_pendingExtrinsics := pendingExtrinsics;
  app_submitAndSubcribeExtrinsic e m f s k c := submitAndSubcribeExtrinsic sr25519_sign e m f s k (User c);
  app_submitExtrinsic := submitExtrinsic sr25519_sign;
  app_removeExtrinsic := removeExtrinsic;
  app_subscribeBlockNumber c := subscribeBlockNumber (User c);
  app_unsubscribeBlockNumber := unsubscribeBlockNumber;
  app_subscribeFinalizedBlock c := subscribeFinalizedBlock (User c);
  app_unsubscribeFinalizedBlock := unsubscribeFinalizedBlock;
  app_subscribeRuntimeVersion c := subscribeRuntimeVersion (User c);
  app_unsubscribeRuntimeVersion := unsubscribeRuntimeVersion;
  app_subscribeStorage k c := subscribeStorage k (User c);
  app_unsubscribeStorage := unsubscribeStorage;
  app_subscribeBalance a c := subscribeBalance a (User c);
  app_unsubscribeBalance := unsubscribeBalance;
  app_subscribeEraAndSession c := subscribeEraAndSession (User c);
  app_unsubscribeEraAndSession := unsubscribeEraAndSession;
  app_subscribeAccountNonce a c := subscribeAccountNonce a (User c);
  app_unsubscribeAccountNonce := unsubscribeAccountNonce;
|}.

(** Programs that change nothing but the client below the object. *)
Definition reads {T} (m : Api.M T) : Prop :=
  forall st o st', m st = Some (o, st') -> polka st' = polka st /\ calls st' = calls st /\ nonceDone st' = nonceDone st.

Lemma reads_ret {T} (a : T) : reads (mret a).
Proof. by intros st o st' [= <- <-]. Qed.
Lemma reads_run {T} (o : outcome T) : reads (run o).
Proof. by intros st o' st' [= <- <-]. Qed.
Lemma reads_this : reads this.
Proof. by intros st o st' [= <- <-]. Qed.
Lemma reads_on_node {T} (m : call rpc T) : reads (on_node m).
Proof.
  intros st o st' E. unfold on_node, on_part in E. destruct (m (node st)) as [[o1 n]|]; [|done]. by injection E as <- <-.
Qed.
Lemma reads_bind {S T} (m : Api.M S) (f : S -> Api.M T) : reads m -> (forall a, reads (f a)) -> reads (m ≫= f).
Proof.
  intros Hm Hf st o st' E. unfold mbind, M_bind, call_bind in E. destruct (m st) as [[[a|e|] st1]|] eqn:Em; [|by injection E as <- <-; apply (Hm _ _ _ Em)..|done].
  destruct (Hm _ _ _ Em) as (<- & <- & <-). by apply (Hf a st1 o st').
Qed.

(** Programs that return [PAPI_OK] if they return. *)
Definition returns_ok (m : Api.M Z) : Prop := forall st r st', m st = Some (Ret r, st') -> r = PAPI_OK.

Lemma returns_ok_ret : returns_ok (mret PAPI_OK).
Proof. by intros st r st' [= <- _]. Qed.
Lemma returns_ok_bind {S} (m : Api.M S) (f : S -> Api.M Z) : (forall a, returns_ok (f a)) -> returns_ok (m ≫= f).
Proof.
  intros Hf st r st' E. unfold mbind, M_bind, call_bind in E. destruct (m st) as [[[a|e|] st1]|]; try done. by apply (Hf a st1 r st').
Qed.
End polka.

Ltac reads :=
  repeat first
    [ apply reads_ret | apply reads_run | apply reads_this | apply reads_on_node
    | apply reads_bind; [|intros ?] | case_match ].

Ltac returns_ok :=
  repeat first [ apply returns_ok_ret | apply returns_ok_bind; intros ? | case_match ].

Section laws.
Context `{D : Doubles} `{J : !IJsonRpc} `{W : StdWhat}.
Context (sr25519_sign : list Z -> list Z -> list Z -> list Z).
#[local] Instance polka_app : IApplication Api.M := polka_application sr25519_sign.

Lemma query_reads T (m : Api.M T) : app_query T m -> reads m.
Proof.
  destruct 1; cbn;
    unfold getSystemInfo, getBlockHash, getMetadata, getRuntimeVersion, getBlock, getBlockHeader, getNetworkState,
      getFinalizedHead, getSystemHealth, getSystemPeers, getStorage, getStorageHash, getStorageSize, getChildKeys,
      getChildStorage, getChildStorageHash, getChildStorageSize, stateCall, queryStorage, pendingExtrinsics, removeExtrinsic,
      ask_at_head, key_param, child_params, getKeys, the_metadata, get, request; reads.
Qed.

Lemma subscription_ok (m : Api.M Z) : app_subscription m -> returns_ok m.
Proof.
  destruct 1; cbn;
    unfold subscribeBlockNumber, unsubscribeBlockNumber, subscribeFinalizedBlock, unsubscribeFinalizedBlock,
      subscribeRuntimeVersion, unsubscribeRuntimeVersion, subscribeStorage, unsubscribeStorage, subscribeBalance,
      unsubscribeBalance, subscribeEraAndSession, unsubscribeEraAndSession, subscribeAccountNonce, unsubscribeAccountNonce,
      subscribe_slot, unsubscribe_slot, subscribe_keyed, unsubscribe_keyed; returns_ok.
Qed.

#[export] Instance polka_laws :
  ApplicationLaws Api.M state (CPolkaApi * list (nat * update)) (fun T m st => m st) (fun st => (polka st, calls st)).
Proof.
  split.
  - intros T m s o s' Hq E. destruct (query_reads T m Hq s o s' E) as (-> & -> & _). done.
  - intros m s r s' Hm E. by apply (subscription_ok m Hm s r s').
Qed.

(** Asking the node changes nothing. Whatever sequence of requests an application makes
    through the interface, and whether they return, throw or are undefined, the
    subscriptions, callbacks and parameters of the object are as before, and no
    callback has been called; and every operation on a subscription that returns
    reports success. *)
Theorem polka_keeps_promises st st' :
  (rtc (asks (exec := fun T (m : Api.M T) st => m st)) st st' -> polka st' = polka st /\ calls st' = calls st)
  /\ (forall m r, app_subscription m -> m st = Some (Ret r, st') -> r = PAPI_OK).
Proof.
  split.
  - intros Hr. pose proof (asking_keeps_view st st' Hr) as E. by injection E.
  - intros m r Hm E. by apply (law_subscription m st r st').
Qed.
End laws.

(** ** An example *)

#[local] Existing Instance numeral_doubles.
#[local] Existing Instance scripted_client.
#[local] Instance no_what : StdWhat := fun _ => [].

(** A request on the connected object of [ApiBehaviour]. *)
Definition asked_version : state := after (getKeys [] (str "Balances") (str "FreeBalance")) connected.

Lemma polka_keeps_promises_witness : polka asked_version = polka connected /\ calls asked_version = calls connected.
Proof.
  apply (proj1 (polka_keeps_promises no_sign connected asked_version)). apply rtc_once.
  unfold asks, asked_version, after. destruct (getKeys [] (str "Balances") (str "FreeBalance") connected) as [[o st]|] eqn:E.
  - exists text, (getKeys [] (str "Balances") (str "FreeBalance")), o. split; [apply (q_getKeys (A := polka_app no_sign))|exact E].
  - vm_compute in E. discriminate.
Defined.
