(* ===== verification/Factory.v ===== *)
(** The objects of the program and their lifetimes: [polkadot::api] of
    [src/polkacpp.cpp], [CWebSocketClient::getInstance] and the destructors.

    Objects live in a store and refer to each other by pointers: [polkadot::api]
    owns the logger, the JSON-RPC client and the API object, and the WebSocket
    client is a singleton that keeps pointers to its observers. A pointer to an
    object that was deleted stays where it is; using it is undefined. Deleting a
    [std::thread] that is not joined ends the program. Addresses are not used twice.

    Every subscription has a detached thread, [CJsonRpc::updateConsumerThread], which
    nobody joins. While it waits for a message it sleeps on a semaphore, which is never
    deleted; else it uses the JSON-RPC client, which owns the queue, and the API object. *)
From stdpp Require Import relations.
From S2P Require Import Prelude Json JsonRpc Api Client WsClient.

Section factory.
Context `{D : Doubles} `{P : WebSocketPP}.

(** ** Objects and the store *)

Inductive object : Type :=
| EasyLogger
| WsClientObject (logger : nat) (client : CWebSocketClient)
| JsonRpcObject (wsc logger : nat)
| PolkaApiObject (logger jsonRpc : nat)
| ApiObject (logger jsonRpc app : nat).

(** A detached thread in [updateConsumerThread], with [this] and the observer: asleep in
    [get], at work, or on its way out, which [eraseKey] sends it. *)
Inductive consumer_state : Type := Asleep | AtWork | Leaving.
Record consumer : Type := { c_jsonRpc : nat; c_observer : nat; c_state : consumer_state }.

Definition set_state (s : consumer_state) (c : consumer) : consumer :=
  {| c_jsonRpc := c_jsonRpc c; c_observer := c_observer c; c_state := s |}.
Definition is_active (c : consumer) : bool := match c_state c with Asleep => false | AtWork | Leaving => true end.

(** [ws_instance] and [api_instance] are the two static members, null at first.
    [e0] is the endpoint of a new client. *)
Record world : Type := {
  store_of : gmap nat object;
  next_address : nat;
  ws_instance : option nat;
  api_instance : option nat;
  consumers_of : list consumer;
}.

Definition program_start : world :=
  {| store_of := ∅; next_address := 0; ws_instance := None; api_instance := None; consumers_of := [] |}.

(** A program returns, has undefined behaviour or ends in [std::terminate]. *)
Inductive result (A : Type) : Type :=
| Done (a : A) (w : world)
| Undefined
| Terminated.
#[global] Arguments Done {A} a w.
#[global] Arguments Undefined {A}.
#[global] Arguments Terminated {A}.

Definition L (A : Type) : Type := world -> result A.

#[local] Instance L_ret : MRet L := fun A a w => Done a w.
#[local] Instance L_bind : MBind L := fun A B f m w =>
  match m w with
  | Done a w' => f a w'
  | Undefined => Undefined
  | Terminated => Terminated
  end.

Definition set_store (f : gmap nat object -> gmap nat object) : L unit := fun w =>
  Done tt {| store_of := f (store_of w); next_address := next_address w; ws_instance := ws_instance w; api_instance := api_instance w;
    consumers_of := consumers_of w |}.

Definition set_ws_instance (p : nat) : L unit := fun w =>
  Done tt {| store_of := store_of w; next_address := next_address w; ws_instance := Some p; api_instance := api_instance w;
    consumers_of := consumers_of w |}.

Definition set_api_instance (p : nat) : L unit := fun w =>
  Done tt {| store_of := store_of w; next_address := next_address w; ws_instance := ws_instance w; api_instance := Some p;
    consumers_of := consumers_of w |}.

Definition set_consumers (f : list consumer -> list consumer) : L unit := fun w =>
  Done tt {| store_of := store_of w; next_address := next_address w; ws_instance := ws_instance w; api_instance := api_instance w;
    consumers_of := f (consumers_of w) |}.

(** [new] *)
Definition new (o : object) : L nat := fun w =>
  Done (next_address w) {| store_of := <[next_address w := o]> (store_of w); next_address := S (next_address w);
    ws_instance := ws_instance w; api_instance := api_instance w; consumers_of := consumers_of w |}.

Definition undefined {A} : L A := fun _ => Undefined.

(** What a pointer refers to. *)
Definition deref (p : nat) : L object := fun w =>
  match store_of w !! p with Some o => Done o w | None => Undefined end.

(** The client that a pointer refers to. *)
Definition deref_client (p : nat) : L (nat * CWebSocketClient) :=
  o ← deref p;
  match o with WsClientObject logger c => mret (logger, c) : L (nat * CWebSocketClient) | _ => undefined end.

(** ** Construction *)

(** [CWebSocketClient::getInstance]; [e0] is the endpoint of a new client. *)
Definition ws_getInstance (e0 : endpoint) (logger : nat) : L nat := fun w =>
  match ws_instance w with
  | Some p => Done p w
  | None => (p ← new (WsClientObject logger (newCWebSocketClient e0)); set_ws_instance p ;; mret p : L nat) w
  end.

(** The constructor of [CJsonRpc] registers the new object at the client. *)
Definition new_CJsonRpc (wsc logger : nat) : L nat :=
  p ← new (JsonRpcObject wsc logger);
  '(wsLogger, c) ← deref_client wsc;
  set_store (<[wsc := WsClientObject wsLogger (registerMessageObserver p c)]>) ;;
  mret p.

(** [impl::impl()] *)
Definition new_impl (e0 : endpoint) : L nat :=
  logger ← new EasyLogger;
  wsc ← ws_getInstance e0 logger;
  jsonRpc ← new_CJsonRpc wsc logger;
  app ← new (PolkaApiObject logger jsonRpc);
  new (ApiObject logger jsonRpc app).

(** [polkadot::api::getInstance] *)
Definition api_getInstance (e0 : endpoint) : L nat := fun w =>
  match api_instance w with
  | Some p => Done p w
  | None => (p ← new_impl e0; set_api_instance p ;; mret p : L nat) w
  end.

(** [polkadot::api::app] *)
Definition api_app (p : nat) : L nat :=
  o ← deref p;
  match o with ApiObject _ _ app => mret app | _ => undefined end.

(** ** Use: the client changes, and messages reach the observers *)

(** A call on the client that returned with the state [c]. *)
Definition set_client (c : CWebSocketClient) : L unit := fun w =>
  match ws_instance w with
  | Some p => ('(logger, _) ← deref_client p; set_store (<[p := WsClientObject logger c]>)) w
  | None => Undefined
  end.

(** [on_message] calls every observer. *)
Fixpoint notify_observers (l : list nat) : L unit :=
  match l with
  | [] => mret tt
  | o :: l' => deref o ;; notify_observers l'
  end.

(** A text message, which the thread of the library can bring while it runs. *)
Definition message_arrives : L unit := fun w =>
  match ws_instance w with
  | Some p =>
      ('(_, c) ← deref_client p;
       match connectedThread c with Running => notify_observers (observers c) | _ => mret tt end : L unit) w
  | None => Done tt w
  end.

(** *** The threads of subscriptions *)

(** The end of [subscribeWs], called by the API object [app], which is the observer. *)
Definition start_consumer (app : nat) : L unit :=
  o ← deref app;
  match o with
  | PolkaApiObject _ jsonRpc =>
      set_consumers (fun l => l ++ [{| c_jsonRpc := jsonRpc; c_observer := app; c_state := AtWork |}])
  | _ => undefined
  end.

(** What a consumer uses when it goes on: the queue and the table of observers in the
    JSON-RPC client, and the observer to which it hands a message. *)
Definition consumer_acts (c : consumer) : L unit :=
  match c_state c with
  | Asleep => mret tt
  | AtWork => deref (c_jsonRpc c) ;; deref (c_observer c) ;; mret tt
  | Leaving => deref (c_jsonRpc c) ;; mret tt
  end.

Fixpoint consumers_act (l : list consumer) : L unit :=
  match l with
  | [] => mret tt
  | c :: l' => consumer_acts c ;; consumers_act l'
  end.

(** An update for the consumer [i] arrives and is put into its queue. *)
Definition update_arrives (i : nat) : L unit :=
  message_arrives ;; set_consumers (alter (set_state AtWork) i).

(** The end of [unsubscribeWs]: [eraseKey] wakes the consumer [i], whose loop ends. *)
Definition end_consumer (i : nat) : L unit := set_consumers (alter (set_state Leaving) i).

(** ** Destruction *)

(** [delete] of a pointer to a [std::thread] *)
Definition delete_thread (p : thread_ptr) : L unit :=
  match p with Running => fun _ => Terminated | NullThread | Joined => mret tt end.

(** [delete p]; the destructor of the WebSocket client deletes its threads. *)
Definition delete (p : nat) : L unit :=
  o ← deref p;
  match o with
  | WsClientObject _ c => delete_thread (connectedThread c) ;; delete_thread (healthThread c)
  | _ => mret tt
  end ;;
  set_store (base.delete p).

(** [impl::~impl()]; [arrives] says whether a message comes, and [acts] whether the
    consumers that are not asleep go on, after the JSON-RPC client is deleted. *)
Definition delete_impl (e0 : endpoint) (arrives acts : bool) (p : nat) : L unit :=
  o ← deref p;
  match o with
  | ApiObject logger jsonRpc app =>
      delete app ;;
      delete jsonRpc ;;
      (if acts then fun w => consumers_act (consumers_of w) w else mret tt) ;;
      (if arrives then message_arrives else mret tt) ;;
      delete logger ;;
      wsc ← ws_getInstance e0 logger;
      delete wsc ;;
      set_store (base.delete p)
  | _ => undefined
  end.

(** The end of the program destroys the instance, if there is one. *)
Definition program_end (e0 : endpoint) (arrives acts : bool) : L unit := fun w =>
  match api_instance w with
  | Some p => delete_impl e0 arrives acts p w
  | None => Done tt w
  end.

(** ** The running program *)

(** A call of the application or of a thread on the WebSocket client; the application
    cannot register observers. *)
Inductive client_call (c c' : CWebSocketClient) : Prop :=
| call_connect jsonConf node_url o : connect jsonConf node_url c = Some (o, c') -> client_call c c'
| call_disconnect o : disconnect c = Some (o, c') -> client_call c c'
| call_send t msg o : send t msg c = Some (o, c') -> client_call c c'
| call_io ev o : io_step ev c = Some (o, c') -> client_call c c'.

Lemma client_call_observers l c c' : client_call c c' -> observers c = l -> observers c' = l.
Proof.
  intros [j u o E|o E|t m o E|ev o E] Hc.
  - by eapply (stable_connect _ (frame_observers l)).
  - by eapply (stable_disconnect _ (frame_observers l)).
  - by eapply send_keeps_observers.
  - by eapply (stable_io _ (frame_observers l)).
Qed.

(** Once [getInstance] has returned: the objects, the client [c] among them, and the
    threads of subscriptions. *)
Definition running (c : CWebSocketClient) (l : list consumer) : world := {|
  store_of := <[4%nat := ApiObject 0 2 3]> (<[3%nat := PolkaApiObject 0 2]> (<[2%nat := JsonRpcObject 1 0]>
    (<[1%nat := WsClientObject 0 c]> (<[0%nat := EasyLogger]> ∅))));
  next_address := 5; ws_instance := Some 1%nat; api_instance := Some 4%nat; consumers_of := l |}.

(** What a program does with the library. *)
Inductive use_step (e0 : endpoint) (w : world) : world -> Prop :=
| use_getInstance p w' : api_getInstance e0 w = Done p w' -> use_step e0 w w'
| use_app p q w' : api_instance w = Some p -> api_app p w = Done q w' -> use_step e0 w w'
| use_client p lg c c' w' :
    ws_instance w = Some p -> store_of w !! p = Some (WsClientObject lg c) -> client_call c c' ->
    set_client c' w = Done tt w' -> use_step e0 w w'
| use_message w' : message_arrives w = Done tt w' -> use_step e0 w w'
| use_subscribe p q w1 w' :
    api_instance w = Some p -> api_app p w = Done q w1 -> start_consumer q w1 = Done tt w' -> use_step e0 w w'
| use_unsubscribe i w' : end_consumer i w = Done tt w' -> use_step e0 w w'
| use_update i w' : update_arrives i w = Done tt w' -> use_step e0 w w'
| use_consumer i c st w1 w' :
    consumers_of w !! i = Some c -> c_state c = AtWork -> st <> Leaving -> consumer_acts c w = Done tt w1 ->
    set_consumers (alter (set_state st) i) w1 = Done tt w' -> use_step e0 w w'
| use_consumer_ends i c w1 w' :
    consumers_of w !! i = Some c -> c_state c = Leaving -> consumer_acts c w = Done tt w1 ->
    set_consumers (base.delete i) w1 = Done tt w' -> use_step e0 w w'.

Lemma getInstance_first e0 :
  api_getInstance e0 program_start = Done 4%nat (running (registerMessageObserver 2 (newCWebSocketClient e0)) []).
Proof. reflexivity. Qed.

Lemma getInstance_again e0 c l : api_getInstance e0 (running c l) = Done 4%nat (running c l).
Proof. done. Qed.

Lemma app_running c l : api_app 4 (running c l) = Done 3%nat (running c l).
Proof. done. Qed.

Lemma set_client_running c c' l : set_client c' (running c l) = Done tt (running c' l).
Proof. reflexivity. Qed.

Lemma message_running c l : observers c = [2%nat] -> message_arrives (running c l) = Done tt (running c l).
Proof.
  intros Ho.
  change (message_arrives (running c l)) with
    (match connectedThread c with Running => notify_observers (observers c) | _ => mret tt end (running c l)).
  rewrite Ho. by destruct (connectedThread c).
Qed.

(** Consumers that point to the JSON-RPC client and the API object. *)
Definition at_home (c : consumer) : Prop := c_jsonRpc c = 2%nat /\ c_observer c = 3%nat.

(** The states of the program after the first [getInstance]. *)
Definition is_running (w : world) : Prop := exists c l, w = running c l /\ observers c = [2%nat] /\ Forall at_home l.

Lemma acts_running c l k : at_home k -> consumer_acts k (running c l) = Done tt (running c l).
Proof. destruct k as [r o s]. intros [Hr Ho]. cbn in Hr, Ho. subst. by destruct s. Qed.

Lemma at_home_state l i s : Forall at_home l -> Forall at_home (alter (set_state s) i l).
Proof. intros Hl. apply Forall_alter; [done|]. by intros k _ Hk. Qed.

Lemma running_step e0 w w' : is_running w -> use_step e0 w w' -> is_running w'.
Proof.
  intros (c & l & -> & Ho & Hl) Hs.
  inversion Hs as [p w1 E|p q w1 Ep E|p lg c1 c2 w1 Ep Ec Hc E|w1 E|p q w1 w2 Ep Ea E|i w1 E|i w1 E|i k s w1 w2 Ek Es Hne Ea E|i k w1 w2 Ek Es Ea E]; subst.
  - rewrite getInstance_again in E. injection E as <- <-. by exists c, l.
  - injection Ep as <-. rewrite app_running in E. injection E as <- <-. by exists c, l.
  - injection Ep as <-. injection Ec as <- <-. rewrite set_client_running in E. injection E as <-.
    exists c2, l. split; [done|]. split; [|done]. by apply (client_call_observers _ c).
  - rewrite message_running in E by done. injection E as <-. by exists c, l.
  - injection Ep as <-. rewrite app_running in Ea. injection Ea as <- <-. injection E as <-.
    eexists c, _. split; [reflexivity|]. split; [done|]. apply Forall_app. split; [done|]. by apply Forall_singleton.
  - injection E as <-. eexists c, _. split; [reflexivity|]. split; [done|]. by apply at_home_state.
  - unfold update_arrives, mbind, L_bind in E. rewrite message_running in E by done. injection E as <-.
    eexists c, _. split; [reflexivity|]. split; [done|]. by apply at_home_state.
  - rewrite acts_running in Ea by (by apply (Forall_lookup_1 _ _ _ _ Hl Ek)). injection Ea as <-. injection E as <-.
    eexists c, _. split; [reflexivity|]. split; [done|]. by apply at_home_state.
  - rewrite acts_running in Ea by (by apply (Forall_lookup_1 _ _ _ _ Hl Ek)). injection Ea as <-. injection E as <-.
    eexists c, _. split; [reflexivity|]. split; [done|]. by apply Forall_delete.
Qed.

Lemma start_step e0 w : use_step e0 program_start w -> w = program_start \/ is_running w.
Proof.
  intros Hs.
  inversion Hs as [p w1 E|p q w1 Ep E|p lg c1 c2 w1 Ep Ec Hc E|w1 E|p q w1 w2 Ep Ea E|i w1 E|i w1 E|i k s w1 w2 Ek Es Hne Ea E|i k w1 w2 Ek Es Ea E];
    subst; try done.
  - rewrite getInstance_first in E. injection E as <- <-. right. eexists _, _. split; [reflexivity|]. by split.
  - injection E as <-. by left.
  - injection E as <-. by left.
  - injection E as <-. by left.
Qed.

Lemma reachable_running e0 w : rtc (use_step e0) program_start w -> w = program_start \/ is_running w.
Proof.
  intros H. apply (rtc_ind_r (R := use_step e0) (fun w => w = program_start \/ is_running w) program_start); [by left| |exact H].
  intros w1 w2 _ Hs [->|Hr]; [by eapply start_step|right; by eapply running_step].
Qed.

(** ** The end of the program *)

Definition threads_done (c : CWebSocketClient) : bool :=
  match connectedThread c, healthThread c with Running, _ | _, Running => false | _, _ => true end.

(** Everything is deleted; the pointer to the WebSocket client and the detached threads
    stay. *)
Definition torn_down (l : list consumer) : world := {|
  store_of := ∅; next_address := 5; ws_instance := Some 1%nat; api_instance := Some 4%nat; consumers_of := l |}.

(** Without the JSON-RPC client a consumer cannot go on. *)
Lemma consumers_lost w l : store_of w !! 2%nat = None -> Forall at_home l ->
  consumers_act l w = if existsb is_active l then Undefined else Done tt w.
Proof.
  intros Hw. induction 1 as [|[r o s] l [Hr Ho] _ IH]; [done|]. cbn in Hr, Ho. subst. cbn [consumers_act existsb].
  unfold mbind, L_bind, mret, L_ret, consumer_acts, is_active. cbn [c_state c_jsonRpc c_observer].
  destruct s; [exact IH|unfold mbind, L_bind, deref; by rewrite Hw..].
Qed.

Lemma program_end_running e0 arrives acts c l :
  observers c = [2%nat] -> Forall at_home l ->
  program_end e0 arrives acts (running c l) =
  if acts && existsb is_active l then Undefined else
  match connectedThread c with
  | Running => if arrives then Undefined else Terminated
  | _ => if threads_done c then Done tt (torn_down l) else Terminated
  end.
Proof.
  intros Ho Hl.
  set (w := {| store_of := base.delete 2%nat (base.delete 3%nat (store_of (running c l))); next_address := 5;
               ws_instance := Some 1%nat; api_instance := Some 4%nat; consumers_of := l |}).
  set (k := ((if arrives then message_arrives else mret tt) ;; delete 0 ;; wsc ← ws_getInstance e0 0; delete wsc ;;
             set_store (base.delete 4%nat)) : L unit).
  assert (program_end e0 arrives true (running c l)
    = match consumers_act l w with Done _ w' => k w' | Undefined => Undefined | Terminated => Terminated end) as E1 by reflexivity.
  assert (program_end e0 arrives false (running c l) = k w) as E2 by reflexivity.
  assert (program_end e0 arrives false (running c l) =
    match connectedThread c with
    | Running => if arrives then Undefined else Terminated
    | _ => if threads_done c then Done tt (torn_down l) else Terminated
    end) as E3.
  { clear w k E1 E2. destruct c as [tls u conn ct ht mtx obs wr dl n]. cbn in Ho. subst obs. destruct arrives, ct, ht; reflexivity. }
  destruct acts; cbn [andb]; [|done]. rewrite E1, consumers_lost by done. destruct (existsb is_active l); [done|]. by rewrite <- E2.
Qed.

(** C38: the library has one API object, and how a program ends. In every state that
    calls of the library, messages and the threads of subscriptions lead to, either
    [getInstance] was never called and the program ends, or [getInstance] and [app]
    return the same two pointers again and change nothing. Then the end of the program
    deletes every object and uses no deleted one exactly if both threads of the
    WebSocket client are joined or were never started, and no detached thread of a
    subscription that is not asleep goes on meanwhile. Such a thread uses the deleted
    JSON-RPC client; and with a running thread of the WebSocket client the program ends
    in [std::terminate], or, if a message comes in between, that thread calls the
    deleted JSON-RPC client. *)
Theorem program_ends e0 w arrives acts :
  rtc (use_step e0) program_start w ->
  (w = program_start /\ program_end e0 arrives acts w = Done tt w)
  \/ exists c l, w = running c l
      /\ api_getInstance e0 w = Done 4%nat w /\ api_app 4 w = Done 3%nat w
      /\ program_end e0 arrives acts w =
           if acts && existsb is_active l then Undefined else
           match connectedThread c with
           | Running => if arrives then Undefined else Terminated
           | _ => if threads_done c then Done tt (torn_down l) else Terminated
           end.
Proof.
  intros [->|(c & l & -> & Ho & Hl)]%reachable_running; [by left|right]. exists c, l.
  split; [done|]. split; [done|]. split; [done|]. by apply program_end_running.
Qed.

Lemma connect_starts_threads jsonConf node_url c c' :
  library_ok -> w_connected c = false -> connect jsonConf node_url c = Some (Ret PAPI_OK, c') ->
  connectedThread c' = Running /\ healthThread c' = Running.
Proof.
  intros L Hc E. unfold connect in E. repeat case_decide; [..|done];
    destruct (connect_to_spec _ _ _ _ _ L Hc E) as [_ [(_ & _ & _ & H1 & H2)|([=] & _)]]; done.
Qed.

(** A program that connects has to disconnect before it ends, and its subscriptions have
    to be at rest. After [connect] has reported success, the end of the program ends in
    [std::terminate], or is undefined if a message comes while the objects are deleted;
    after a [disconnect] that returns, it deletes every object, whatever comes, unless
    a thread of a subscription is still at work. *)
Theorem exit_needs_disconnect e0 jsonConf node_url c c' l :
  library_ok -> w_connected c = false -> observers c = [2%nat] -> Forall at_home l ->
  connect jsonConf node_url c = Some (Ret PAPI_OK, c') ->
  (forall arrives, program_end e0 arrives false (running c' l) = if arrives then Undefined else Terminated)
  /\ forall c'' arrives, disconnect c' = Some (Ret tt, c'') ->
       program_end e0 arrives true (running c'' l) = if existsb is_active l then Undefined else Done tt (torn_down l).
Proof.
  intros L Hc Ho Hl E. pose proof (stable_connect _ (frame_observers _) _ _ _ _ _ Ho E) as Ho'.
  destruct (connect_starts_threads _ _ _ _ L Hc E) as [Hct Hht]. split.
  - intros arrives. rewrite program_end_running by done. by rewrite Hct.
  - intros c'' arrives Ed. pose proof (stable_disconnect _ (frame_observers _) _ _ _ Ho' Ed) as Ho''.
    destruct (proj1 (disconnect_once c' L Hct Hht) _ Ed) as (_ & J1 & J2 & _).
    rewrite program_end_running by done. unfold threads_done. by rewrite J1, J2.
Qed.
End factory.

(** ** Examples *)

(** A node that opens every connection and sends nothing. *)
#[local] Instance quiet_pp : WebSocketPP := {|
  endpoint := unit;
  pp_setup _ _ e := (Ret false, e);
  pp_wait e := ([Opened], e);
  pp_deliver e := ([], e);
  pp_join e := Some ([], e);
  pp_send _ _ e := (Ret tt, e);
  pp_close _ e := (Ret tt, e);
|}.
#[local] Existing Instance numeral_doubles.

Definition idle_client : CWebSocketClient := registerMessageObserver 2 (newCWebSocketClient tt).

(** The program has got the API object and connects. *)
Definition connected_client : CWebSocketClient := {|
  w_tls := true; w_node_url := parity_node_url; w_connected := true; connectedThread := Running; healthThread := Running;
  sendMtx := None; observers := [2%nat]; wire := []; delivered := []; net := tt |}.

Lemma quiet_ok : library_ok.
Proof. split; [done|done|by intros e; repeat constructor|by intros e; constructor|by intros e r [= <-]; constructor]. Qed.

(** Connected, and with one subscription. *)
Definition working : consumer := {| c_jsonRpc := 2; c_observer := 3; c_state := AtWork |}.

Lemma connected_world_reachable : rtc (use_step tt) program_start (running connected_client [working]).
Proof.
  eapply rtc_l; [eapply use_getInstance, getInstance_first|]. apply (rtc_l _ _ (running connected_client [])).
  - eapply (use_client _ _ 1%nat 0%nat idle_client connected_client); [done|done| |done].
    apply (call_connect _ _ [] [] (Ret PAPI_OK)). vm_compute. reflexivity.
  - apply rtc_once. by eapply (use_subscribe _ _ 4%nat 3%nat).
Qed.

Lemma running_inj c c' l l' : running c l = running c' l' -> c = c' /\ l = l'.
Proof.
  intros E. split; [|exact (f_equal consumers_of E)].
  assert (store_of (running c l) !! 1%nat = store_of (running c' l') !! 1%nat) as H by by rewrite E.
  change (Some (WsClientObject 0 c) = Some (WsClientObject 0 c')) in H. by injection H.
Qed.

Lemma program_ends_witness :
  program_end tt false true (running connected_client [working]) = Undefined
  /\ program_end tt false false (running connected_client [working]) = Terminated.
Proof.
  split.
  - destruct (program_ends (P := quiet_pp) tt (running connected_client [working]) false true connected_world_reachable)
      as [[E _]|(c & l & E & _ & _ & H)]; [done|]. apply running_inj in E as [<- <-]. exact H.
  - destruct (program_ends (P := quiet_pp) tt (running connected_client [working]) false false connected_world_reachable)
      as [[E _]|(c & l & E & _ & _ & H)]; [done|]. apply running_inj in E as [<- <-]. exact H.
Defined.

Lemma exit_needs_disconnect_witness :
  connect [] [] idle_client = Some (Ret PAPI_OK, connected_client)
  /\ program_end tt true false (running connected_client [working]) = Undefined.
Proof.
  assert (connect [] [] idle_client = Some (Ret PAPI_OK, connected_client)) as E by (vm_compute; reflexivity).
  split; [exact E|].
  apply (proj1 (exit_needs_disconnect (P := quiet_pp) tt [] [] idle_client connected_client [working] quiet_ok eq_refl eq_refl
    ltac:(by apply Forall_singleton) E) true).
Defined.
