(* ===== verification/Stack.v ===== *)
(** The whole program over websocketpp: the API object of [src/application.cpp] on the
    JSON-RPC client of [src/jsonrpc.cpp] on the WebSocket client of
    [src/wsclient.cpp], as [src/polkacpp.cpp] puts them together.

    The interface of [src/interfaces/iwsclient.h] is implemented by [WsClient]. One
    thread calls the API; while a call waits, the thread of the library brings
    messages to the observers of the client, of which the JSON-RPC client is one. *)
From stdpp Require Import gmap relations.
From S2P Require Import Prelude Scale Converters Json Metadata Lookup Decode Api ApiBehaviour Races JsonRpc Client WsClient.

#[local] Existing Instance W_ret.
#[local] Existing Instance W_bind.

(** ** The WebSocket client as the JSON-RPC client sees it *)

(** [handled] counts the deliveries that the JSON-RPC client has dealt with. *)
Record connection `{P : WebSocketPP} : Type := { wclient : CWebSocketClient; handled : nat }.

Section stack_client.
Context `{D : Doubles} `{P : WebSocketPP} (jsonConf : list Z) (observer t : nat).

Definition set_wclient (c : CWebSocketClient) (w : connection) : connection := {| wclient := c; handled := handled w |}.
Definition on_client {A} (m : W A) : call connection A := on_part wclient set_wclient m.

(** The thread of the library works while the caller waits. *)
Definition wait_events : W unit :=
  events ← library (fun e => let '(events, e') := pp_deliver e in (Ret events, e'));
  io_steps events.

Definition payloads_for (l : list (nat * list Z)) : list (list Z) := snd <$> filter (fun d => d.1 = observer) l.

Definition stack_take (w : connection) : list (list Z) * connection :=
  (payloads_for (drop (handled w) (delivered (wclient w))),
   {| wclient := wclient w; handled := length (delivered (wclient w)) |}).

Lemma io_steps_end l c : exists c', io_steps l c = Some (Ret tt, c') \/ io_steps l c = Some (UB, c').
Proof.
  revert c. induction l as [|ev l IH]; intros c; [exists c; by left|]. cbn [io_steps]. unfold mbind, W_bind, call_bind.
  destruct ev as [|is_text payload|[]]; cbn [io_step]; unfold update, changes, ends; (apply IH || (exists c; by right)).
Qed.

Lemma wait_events_end w : exists w', on_client wait_events w = Some (Ret tt, w') \/ on_client wait_events w = Some (UB, w').
Proof.
  unfold on_client, on_part, wait_events, library, mbind, W_bind, call_bind. destruct (pp_deliver _) as [l e].
  destruct (io_steps_end l (set_net e (wclient w))) as [c' [->| ->]]; eexists; [left|right]; done.
Qed.

#[export] Instance stack_ws : IWebSocketClient := {|
  ws := connection;
  ws_connect node_url := on_client (connect jsonConf node_url);
  ws_isConnected w := isConnected (wclient w);
  ws_disconnect := on_client disconnect;
  ws_send msg := on_client (send t msg);
  ws_wait := on_client wait_events;
  ws_take := stack_take;
  ws_wait_ends := wait_events_end;
|}.

(** ** Messages *)

(** The texts among what the library brings. *)
Fixpoint texts (l : list io_event) : list (list Z) :=
  match l with
  | [] => []
  | Message true payload :: l' => payload :: texts l'
  | _ :: l' => texts l'
  end.

(** The JSON-RPC client is the only observer, and has dealt with every delivery. *)
Definition observed (w : connection) : Prop :=
  observers (wclient w) = [observer] /\ handled w = length (delivered (wclient w)).

Lemma io_steps_delivered l c : Forall event_ok l -> observers c = [observer] ->
  exists c', io_steps l c = Some (Ret tt, c') /\ w_connected c' = opened l (w_connected c) /\ same_but_events c c'
    /\ delivered c' = delivered c ++ ((fun payload => (observer, payload)) <$> texts l).
Proof.
  intros Hl. revert c. induction Hl as [|ev l Hev _ IH]; intros c Ho; [exists c; cbn; by rewrite app_nil_r|].
  assert (exists c1, io_step ev c = Some (Ret tt, c1) /\ opened (ev :: l) (w_connected c) = opened l (w_connected c1)
    /\ same_but_events c c1 /\ delivered c1 = delivered c ++ ((fun payload => (observer, payload)) <$> texts [ev])) as (c1 & E1 & E2 & S1 & D1).
  { destruct ev as [|[] payload|[]]; try done; eexists; (split; [reflexivity|]); cbn; rewrite ?Ho, ?app_nil_r; by split_and!. }
  destruct (IH c1) as (c' & E & Ec & S & Ed); [unfold same_but_events in S1; destruct_and! S1; congruence|].
  exists c'. cbn [io_steps]. unfold mbind, W_bind, call_bind.
  rewrite E1, E, Ec, <- E2. split; [done|]. split; [done|]. split.
  - unfold same_but_events in *. by destruct_and!; split_and!; etrans.
  - rewrite Ed, D1, <- app_assoc. f_equal. by destruct ev as [|[]|].
Qed.

Lemma payloads_observed (l : list (list Z)) : payloads_for ((fun payload => (observer, payload)) <$> l) = l.
Proof. induction l as [|x l IH]; [done|]. unfold payloads_for in *. rewrite fmap_cons, filter_cons_True, fmap_cons, IH by done. done. Qed.

(** What the JSON-RPC client gets when a wait ends. *)
Lemma wait_take w events e' : observed w -> pp_deliver (net (wclient w)) = (events, e') -> Forall event_ok events ->
  exists w1 w2, on_client wait_events w = Some (Ret tt, w1) /\ stack_take w1 = (texts events, w2) /\ observed w2
    /\ w_connected (wclient w2) = opened events (w_connected (wclient w)) /\ sendMtx (wclient w2) = sendMtx (wclient w)
    /\ wire (wclient w2) = wire (wclient w) /\ net (wclient w2) = e' /\ w_tls (wclient w2) = w_tls (wclient w).
Proof.
  intros [Ho Hh] Ed Hev. unfold on_client, on_part, wait_events, library, mbind, W_bind, call_bind. rewrite Ed.
  destruct (io_steps_delivered events (set_net e' (wclient w)) Hev Ho) as (c' & E & Ec & S & Del). rewrite E. cbn [delivered set_net] in Del.
  destruct S as (S1 & _ & _ & _ & S5 & S6 & S7 & S8). cbn in S1, S5, S6, S7, S8.
  eexists _, _. split; [reflexivity|]. unfold stack_take, set_wclient. cbn [wclient handled]. rewrite Del, Hh, drop_app_length, payloads_observed.
  split; [reflexivity|]. split; [split; [cbn; congruence|cbn; by rewrite Del]|]. cbn. by split_and!.
Qed.

(** ** One exchange *)

(** The client is connected and nobody sends. *)
Definition ready (w : connection) : Prop :=
  observed w /\ w_connected (wclient w) = true /\ sendMtx (wclient w) = None.

Lemma send_spec msg w : ready w ->
  on_client (send t msg) w
  = (let c := wclient w in
     match pp_send (w_tls c) msg (net c) with
     | (Ret _, e) => Some (Ret PAPI_OK, set_wclient (set_sendMtx None (log_sent msg (set_net e (set_sendMtx (Some t) c)))) w)
     | (Throw ex, e) => Some (Throw ex, set_wclient (set_net e (set_sendMtx (Some t) c)) w)
     | (UB, e) => Some (UB, set_wclient (set_net e (set_sendMtx (Some t) c)) w)
     end).
Proof.
  intros (_ & Hc & Hm). unfold on_client, on_part, send, lock_send, get_client, current, library, update, changes, mbind, W_bind, call_bind.
  rewrite Hc. cbn. rewrite Hm. cbn. by destruct (pp_send _ _ _) as [[] e].
Qed.

Lemma stack_exchange text w e1 events e2 : ready w -> pp_send (w_tls (wclient w)) text (net (wclient w)) = (Ret tt, e1) ->
  pp_deliver e1 = (events, e2) -> Forall event_ok events ->
  exists w', exchange text w (texts events) w' /\ observed w' /\ sendMtx (wclient w') = None
    /\ w_connected (wclient w') = opened events true /\ wire (wclient w') = wire (wclient w) ++ [text]
    /\ net (wclient w') = e2 /\ w_tls (wclient w') = w_tls (wclient w).
Proof.
  intros Hr Es Ed Hev. pose proof Hr as ((Ho & Hh) & Hc & Hm). pose proof (send_spec text w Hr) as E.
  cbv zeta in E. rewrite Es in E. set (w1 := set_wclient _ w) in E.
  destruct (wait_take w1 events e2) as (w2 & w3 & Ew & Et & Ho3 & Hc3 & Hm3 & Hw3 & Hn3 & Ht3); [done|done|done|].
  exists w3. split; [by exists PAPI_OK, w1, w2|]. rewrite Hc3, Hm3, Hw3, Ht3. subst w1. cbn. rewrite Hc. by split_and!.
Qed.
End stack_client.

(** ** The API object over the stack *)

Section stack.
Context `{D : Doubles} `{P : WebSocketPP} `{SW : StdWhat} (version jsonConf : list Z) (observer t : nat).

(** [polkadot::api]: the JSON-RPC client on the WebSocket client. *)
#[local] Instance stack_socket : IWebSocketClient := stack_ws jsonConf observer t.
#[local] Instance stack_rpc : IJsonRpc := json_rpc_client version.

Definition socket (st : state) : connection := wsc (node st).

Definition arrived : M (list (Z * Json)) := fun st => Some (Ret (rpc_inbox (node st)), st).

(** Time passes between calls of the application: the library brings what has come, and
    the consumer threads hand the updates to the API object. *)
Definition pass_time : M unit :=
  on_node (client_idle (W := stack_socket) : call rpc unit);;
  updates ← arrived;
  consumers (length updates).

(** The messages of a node that answers a request are brought while it waits. *)
Definition brings (text : list Z) (messages : list (list Z)) (w : connection) (events : list io_event) : Prop :=
  exists e1 e2, pp_send (w_tls (wclient w)) text (net (wclient w)) = (Ret tt, e1) /\ pp_deliver e1 = (events, e2)
    /\ Forall event_ok events /\ texts events = messages.

(** C2: an API request is one text on the connection, and its result is what the node
    answers. When the client is connected, nobody sends, sending does not throw and
    the library brings the answer to the request while it waits, among messages that
    are no texts and updates of subscriptions for which there is room, then [request]
    returns the result in the answer; exactly the request has been sent, with the next
    id; the updates are queued in their order; and the next request can follow if the
    connection has not been closed meanwhile. *)
Theorem request_on_the_wire q timeout_s result pre post events (st : state) :
  let c := node st in
  let id := c_lastId c + 1 in
  ready observer (socket st) -> 0 <= c_lastId c < INT_MAX - 1 ->
  json_ok 0 (answer_json version id result) = true -> Forall (update_ok version) pre -> Forall (update_ok version) post ->
  stuck (queue c) = None -> is_Some (put_all (consumed c) (update_of <$> pre ++ post) (queue c)) ->
  brings (dump (request_json version id q))
    ((update_text version <$> pre) ++ dump (answer_json version id result) :: (update_text version <$> post)) (socket st) events ->
  exists c', request q timeout_s st = Some (Ret result, set_node c' st)
    /\ wire (wclient (wsc c')) = wire (wclient (socket st)) ++ [dump (request_json version id q)]
    /\ c_lastId c' = id /\ pending_updates c' = pending_updates c ++ (update_of <$> pre ++ post)
    /\ stuck (queue c') = None /\ (opened events true = true -> ready observer (wsc c')).
Proof.
  intros c id Hr Hid Hok Hpre Hpost Hst Hroom (e1 & e2 & Es & Ed & Hev & Ht).
  destruct (stack_exchange jsonConf observer t _ _ _ _ _ Hr Es Ed Hev) as (w & Hx & Ho & Hm & Hc & Hw & _).
  rewrite Ht in Hx. exists (after_request pre post w c).
  assert (node_answers (W := stack_socket) version q result pre post w c) as Hn
    by (split; [done|]; split; [apply Hr|]; by repeat (split; [done|])).
  destruct (after_request_pending _ _ _ _ _ _ _ Hn) as [Hp Hs'].
  split; [|split_and!; [done..|intros Hop; split; [done|split; [by etrans|done]]]].
  unfold request, on_node, on_part. change (rpc_request (IJsonRpc := stack_rpc)) with (client_request version).
  by rewrite (client_request_answered _ _ _ _ _ _ _ _ Hn).
Qed.

(** Whatever may happen to the WebSocket client: a call of any of its operations by any
    thread, something that the library brings, or a change of the endpoint. *)
Inductive ws_step (c : CWebSocketClient) : CWebSocketClient -> Prop :=
| ws_call c' : WsClient.client_step c c' -> ws_step c c'
| ws_net e : ws_step c (set_net e c).

Lemma ws_steps_keep_lock t' c c' : rtc ws_step c c' -> sendMtx c = Some t' -> sendMtx c' = Some t'.
Proof.
  intros Hr. induction Hr as [|c1 c2 c3 Hs _ IH]; [done|]. intros Hc. apply IH.
  destruct Hs as [c' Hs|e]; [by apply (client_step_keeps t' c1)|done].
Qed.

(** A request by the thread that has kept the lock. *)
Lemma locked_request q timeout_s (st : state) : sendMtx (wclient (socket st)) = Some t ->
  exists st', request q timeout_s st
    = Some (if w_connected (wclient (socket st)) then UB else Throw not_connected, st').
Proof.
  intros Hm. unfold request, on_node, on_part. change (rpc_request (IJsonRpc := stack_rpc)) with (client_request version).
  unfold client_request, client_register, this_client, current, result_of, ends, on_ws, on_part, mbind, C_bind, call_bind.
  cbn [wsc]. change (ws_isConnected (wsc (node st))) with (w_connected (wclient (socket st))).
  destruct (w_connected (wclient (socket st))) eqn:Hc; [|by eexists].
  assert (forall m, ws_send m (wsc (node st)) = Some (UB, set_wclient (wclient (socket st)) (socket st))) as Es.
  { intros m. change (on_client (send t m) (socket st) = Some (UB, set_wclient (wclient (socket st)) (socket st))).
    unfold on_client, on_part. by rewrite (send_locked t), decide_True by done. }
  cbn [wsc]. rewrite Es. by eexists.
Qed.

(** C31: after an exception of the library in [send] the API is of no use. A request whose
    [send] throws throws the same, and leaves the client counting as connected, with
    its mutex locked by the thread. Whatever happens to the client from then on -
    messages, closing, calls of any operation, connecting again - and to the rest of
    the program, the mutex stays locked, and a request of the thread never succeeds:
    it locks the mutex that it has, which is undefined, while the client is
    connected, and throws "Not connected" when it is not. *)
Theorem send_exception_stops_requests q timeout_s ex e1 (st : state) :
  let c := node st in
  ready observer (socket st) -> 0 <= c_lastId c < INT_MAX - 1 ->
  pp_send (w_tls (wclient (socket st))) (dump (request_json version (c_lastId c + 1) q)) (net (wclient (socket st))) = (Throw ex, e1) ->
  exists st1, request q timeout_s st = Some (Throw ex, st1)
    /\ w_connected (wclient (socket st1)) = true /\ sendMtx (wclient (socket st1)) = Some t
    /\ forall st2, rtc ws_step (wclient (socket st1)) (wclient (socket st2)) ->
         sendMtx (wclient (socket st2)) = Some t
         /\ forall q' timeout_s', exists st3, request q' timeout_s' st2
              = Some (if w_connected (wclient (socket st2)) then UB else Throw not_connected, st3).
Proof.
  intros c Hr Hid Es. pose proof Hr as ((Ho & Hh) & Hc & Hm).
  pose proof (send_spec observer t (dump (request_json version (c_lastId c + 1) q)) (socket st) Hr) as E. cbv zeta in E. rewrite Es in E.
  set (w1 := set_wclient _ _) in E.
  set (c1 := set_wsc (W := stack_socket) w1 {| c_lastId := c_lastId c + 1; c_queries := {[c_lastId c + 1]} ∪ c_queries c; wsSubscribers := wsSubscribers c;
                           queue := queue c; wsc := wsc c |}).
  exists (set_node (J := stack_rpc) c1 st). split; [|split; [exact Hc|split; [done|]]].
  - unfold request, on_node, on_part. change (rpc_request (IJsonRpc := stack_rpc)) with (client_request version).
    rewrite client_request_eq by (subst c; unfold INT_MAX in *; lia). cbv zeta.
    change (ws_isConnected (wsc (node st))) with (w_connected (wclient (socket st))). rewrite Hc.
    change (ws_send ?m (wsc (node st))) with (on_client (send t m) (socket st)). unfold c in E. rewrite E. reflexivity.
  - intros st2 Hst. assert (sendMtx (wclient (socket st2)) = Some t) as Hl by (by apply (ws_steps_keep_lock t _ _ Hst)).
    split; [done|]. intros q' timeout_s'. by apply locked_request.
Qed.

(** *** Connecting *)

Lemma M_bind_Ret_inv {A B} (m : M A) (f : A -> M B) st b st' : (a ← m; f a) st = Some (Ret b, st') ->
  exists a st1, m st = Some (Ret a, st1) /\ f a st1 = Some (Ret b, st').
Proof.
  unfold mbind, M_bind, call_bind. intros E. destruct (m st) as [[[a|e|] st1]|] eqn:Em; try done. by exists a, st1.
Qed.

(** The result of [connect] is that of the JSON-RPC client. *)
Lemma connect_result node_url st r st' : Api.connect node_url st = Some (Ret r, st') ->
  exists c', client_connect node_url (node st) = Some (Ret r, c').
Proof.
  intros E. unfold Api.connect in E. apply M_bind_Ret_inv in E as (a & st1 & E1 & E).
  repeat (apply M_bind_Ret_inv in E as (? & ? & _ & E)). injection E as -> _.
  unfold on_node, on_part in E1. change (rpc_connect (IJsonRpc := stack_rpc)) with client_connect in E1.
  destruct (client_connect _ _) as [[o c']|]; [|done]. injection E1 as <- _. by exists c'.
Qed.

Lemma client_connect_eq node_url c err c1 : observed observer (wsc c) -> stuck (queue c) = None ->
  connect jsonConf node_url (wclient (wsc c)) = Some (Ret err, c1) -> delivered c1 = delivered (wclient (wsc c)) ->
  client_connect node_url c
  = Some (Ret (if (err =? 0) && w_connected c1 then PAPI_OK else PAPI_NO_CONNECTION), set_wsc (W := stack_socket) {| wclient := c1; handled := handled (wsc c) |} c).
Proof.
  intros [Ho Hh] Hst E Hd. unfold client_connect, on_ws, mbind, C_bind, call_bind. unfold on_part at 1.
  change (ws_connect node_url (wsc c)) with (on_client (connect jsonConf node_url) (wsc c)). unfold on_client, on_part. rewrite E.
  set (w1 := set_wclient c1 (wsc c)).
  assert (stack_take observer w1 = ([], w1)) as Et.
  { unfold stack_take, w1, set_wclient. cbn [wclient handled]. by rewrite Hd, Hh, drop_all. }
  unfold handle_arrived. cbn [wsc set_wsc]. change (ws_take (IWebSocketClient := stack_socket) ?w) with (stack_take observer w). fold w1. rewrite Et.
  unfold receive_messages. cbn [set_wsc queue c_queries]. by rewrite Hst.
Qed.

(** C30: what [connect] of the API reports, while the receiving thread does not wait for
    room in a queue. When it returns, the client has a connection or had one before; it returns [PAPI_OK] exactly if opening the connection
    succeeded. When no connection is opened and there is none, the application never
    sees the error code: the request for the genesis hash throws "Not connected". *)
Theorem connect_reports node_url err c1 (st : state) :
  observed observer (socket st) -> stuck (queue (node st)) = None -> 0 <= c_lastId (node st) < INT_MAX - 1 ->
  connect jsonConf node_url (wclient (socket st)) = Some (Ret err, c1) -> delivered c1 = delivered (wclient (socket st)) ->
  (w_connected c1 = false -> exists st', Api.connect node_url st = Some (Throw not_connected, st') /\ polka st' = polka st)
  /\ (forall r st', Api.connect node_url st = Some (Ret r, st') ->
        w_connected c1 = true /\ r = (if err =? 0 then PAPI_OK else PAPI_NO_CONNECTION)).
Proof.
  intros Ho Hst Hid E Hd. pose proof (client_connect_eq node_url (node st) err c1 Ho Hst E Hd) as Ec.
  assert (w_connected c1 = false -> exists st', Api.connect node_url st = Some (Throw not_connected, st') /\ polka st' = polka st) as Hn.
  { intros Hc. eexists. unfold Api.connect, getBlockHash, Api.get, request. unfold on_node at 1 2, on_part.
    change (rpc_connect (IJsonRpc := stack_rpc)) with client_connect. change (rpc_request (IJsonRpc := stack_rpc)) with (client_request version).
    unfold mbind, M_bind, call_bind. rewrite Ec. rewrite client_request_eq by (cbn; unfold INT_MAX in *; lia). cbv zeta.
    change (ws_isConnected _) with (w_connected c1). rewrite Hc. by split. }
  split; [done|]. intros r st' Er. destruct (w_connected c1) eqn:Hc; [|destruct (Hn eq_refl) as (? & En & _); congruence].
  split; [done|]. destruct (connect_result _ _ _ _ Er) as (c' & Er'). rewrite Ec in Er'. injection Er' as <- _. by rewrite andb_true_r.
Qed.

(** *** Updates *)

(** A head of the node's chain, as the text of an update. *)
Definition head_text (method : list Z) (sid : Z) (digits : list Z) : list Z :=
  dump (update_json version method sid (head_message digits)).

Definition head_number (digits : list Z) : Z :=
  if Nat.even (length digits) then text_value digits else 16 * text_value digits.

Definition head_ok (method : list Z) (sid : Z) (digits : list Z) : Prop :=
  json_ok 0 (update_json version method sid (head_message digits)) = true /\ hex_text digits /\ 16 * text_value digits < 2 ^ 63.

(** The updates of subscriptions that have a consumer are taken out of the queues. *)
Definition all_consumed (c : client) (l : list (Z * Json)) : Prop := Forall (fun u => u.1 ∈ wsSubscribers c) l.

Lemma inbox_consumed l c : all_consumed c l -> client_inbox (set_updates l c) = l.
Proof.
  intros Hl. unfold client_inbox. unfold pending_updates. cbn [q_pending queue set_queue wsSubscribers set_updates set_pending].
  induction Hl as [|u l Hu _ IH]; [done|]. rewrite filter_cons_True by done. by rewrite IH.
Qed.

Lemma inbox_set l c : all_consumed c l -> client_inbox (client_set_inbox l c) = l.
Proof.
  intros Hl. rewrite <- (inbox_consumed l c Hl) at 2. unfold client_set_inbox, client_inbox.
  change (pending_updates (set_updates ?l' c)) with l'. cbn [wsSubscribers set_updates set_queue].
  rewrite filter_app, list_filter_filter. replace (filter _ (pending_updates c)) with (@nil (Z * Json)); [done|].
  symmetry. induction (pending_updates c) as [|u us IH]; [done|]. rewrite filter_cons_False by tauto. done.
Qed.

Definition head_updates (sid : Z) (heads : list (list Z)) : list (Z * Json) := (fun digits => (sid, head_message digits)) <$> heads.

Lemma consume_heads c sid heads st : Forall (fun digits => hex_text digits /\ 16 * text_value digits < 2 ^ 63) heads ->
  slots (polka st) BlockNumberSlot = {| subscriber := Some (User c); subscriptionId := Some sid |} ->
  sid ∈ wsSubscribers (node st) -> rpc_inbox (node st) = head_updates sid heads ->
  exists st', consumers (length heads) st = Some (Ret tt, st')
    /\ calls st' = calls st ++ ((fun digits => (c, BlockNumber (head_number digits))) <$> heads)
    /\ polka st' = polka st /\ rpc_inbox (node st') = [].
Proof.
  intros Hh. revert st. induction Hh as [|digits heads [Hx Hv] _ IH]; intros st Hs Hsub Hin; [exists st; cbn; by rewrite app_nil_r|].
  cbn [length]. erewrite consumers_next by exact Hin.
  set (st1 := set_node _ st). erewrite bind_Some by (by apply (block_number_update st1 c sid digits)).
  destruct (IH (add_call c (BlockNumber (head_number digits)) st1)) as (st' & E' & Ec & Ep & En);
    [done|done|apply (inbox_set (head_updates sid heads)); by apply Forall_fmap, Forall_true|].
  exists st'. split; [exact E'|]. rewrite Ec. cbn. by rewrite <- app_assoc.
Qed.

(** C5: new heads reach the application, all of them and in order. The object has a
    subscription for block numbers, the JSON-RPC client its consumer, no update waits,
    and the receiving thread is not stuck in [put]. When the library then brings the texts of any number of heads, in between
    other messages that are no texts, the callback is called once for each, in the
    order in which they came, and nothing else is called. *)
Theorem heads_reach_application c sid method heads events e' (st : state) :
  slots (polka st) BlockNumberSlot = {| subscriber := Some (User c); subscriptionId := Some sid |} -> sid <> 0 ->
  sid ∈ wsSubscribers (node st) -> pending_updates (node st) = [] -> stuck (queue (node st)) = None -> observed observer (socket st) ->
  pp_deliver (net (wclient (socket st))) = (events, e') -> Forall event_ok events ->
  texts events = head_text method sid <$> heads -> Forall (head_ok method sid) heads ->
  exists st', pass_time st = Some (Ret tt, st')
    /\ calls st' = calls st ++ ((fun digits => (c, BlockNumber (head_number digits))) <$> heads)
    /\ polka st' = polka st /\ rpc_inbox (node st') = [].
Proof.
  intros Hs H0 Hsub Hp Hst Ho Ed Hev Ht Hh.
  destruct (wait_take observer (socket st) events e' Ho Ed Hev) as (w1 & w2 & Ew & Et & _).
  assert (client_idle (W := stack_socket) (node st) = Some (Ret tt, set_updates ((fun digits => (sid, head_message digits)) <$> heads)
    (set_wsc (W := stack_socket) w2 (node st)))) as Ei.
  { unfold client_idle, on_ws, on_part, handle_arrived, mbind, C_bind, call_bind.
    change (ws_wait (wsc (node st))) with (on_client wait_events (socket st)). rewrite Ew. cbn [wsc set_wsc].
    change (ws_take (IWebSocketClient := stack_socket) w1) with (stack_take observer w1). rewrite Et, Ht.
    unfold receive_messages. cbn [set_wsc c_queries queue]. rewrite Hst.
    set (us := (fun digits => (method, sid, head_message digits)) <$> heads).
    assert (head_text method sid <$> heads = (update_text version <$> us) ++ []) as ->
      by (unfold us; by rewrite app_nil_r, <- list_fmap_compose).
    erewrite (handle_updates version); [| |apply put_all_consumed].
    2: { apply Forall_fmap, (Forall_impl _ _ _ Hh). by intros digits [Hok _]. }
    2: { unfold us. rewrite <- list_fmap_compose. apply Forall_fmap, Forall_true. intros digits. by apply bool_decide_eq_true_2. }
    cbn [handle_messages]. unfold pending_updates in Hp. rewrite Hp. unfold us. by rewrite <- list_fmap_compose. }
  set (c1 := set_updates (head_updates sid heads) (set_wsc (W := stack_socket) w2 (node st))).
  assert (client_inbox c1 = head_updates sid heads) as Hin by (apply inbox_consumed; by apply Forall_fmap, Forall_true).
  destruct (consume_heads c sid heads (set_node (J := stack_rpc) c1 st)) as (st' & E & Ec & Ep & En);
    [by eapply Forall_impl; [exact Hh|intros ? [_ ?]]|done|done|exact Hin|].
  exists st'. split; [|done].
  unfold pass_time. erewrite bind_Some; [|unfold on_node, on_part; by rewrite Ei]. fold (head_updates sid heads). fold c1.
  erewrite bind_Some by reflexivity. change (rpc_inbox (node (set_node (J := stack_rpc) c1 st))) with (client_inbox c1). rewrite Hin. unfold head_updates. by rewrite length_fmap.
Qed.
End stack.

(** ** Examples *)

(** An endpoint on which sending works or fails, with what comes during each wait. *)
#[local] Instance scripted_pp : WebSocketPP := {|
  endpoint := bool * list (list io_event);
  pp_setup _ _ e := (Ret false, e);
  pp_wait e := ([Opened], e);
  pp_deliver e := (default [] (head e.2), (e.1, tail e.2));
  pp_join e := Some ([], e);
  pp_send _ _ e := (if e.1 : bool then Ret tt else Throw (websocketpp_exception (str "invalid state")), e);
  pp_close _ e := (Ret tt, e);
|}.
#[local] Existing Instance numeral_doubles.
#[local] Instance no_what : StdWhat := fun _ => [].
#[local] Instance sample_socket : IWebSocketClient := stack_ws [] 2 1.
#[local] Instance sample_rpc : IJsonRpc := json_rpc_client version_text.

Definition sample_net (alive : bool) (script : list (list io_event)) : endpoint := (alive, script).

Definition sample_ws (is_open : bool) (alive : bool) (script : list (list io_event)) : CWebSocketClient := {|
  w_tls := true; w_node_url := parity_node_url; w_connected := is_open; connectedThread := if is_open then Running else NullThread;
  healthThread := if is_open then Running else NullThread; sendMtx := None; observers := [2%nat]; wire := []; delivered := [];
  net := sample_net alive script |}.

Definition sample_client (c : CWebSocketClient) (subscribers : list Z) : client := {|
  c_lastId := 0; c_queries := ∅; wsSubscribers := subscribers; queue := no_queues;
  wsc := {| wclient := c; handled := 0 |} |}.

Definition sample_stack (a : CPolkaApi) (c : client) : state :=
  Build_state (J := sample_rpc) a c [] None.

Definition sample_update : list Z * Z * Json := (str "state_storage", 7, JInt 3).

Definition answering : list (list io_event) :=
  [[Message false [1; 2]; Message true (update_text version_text sample_update);
    Message true (dump (answer_json version_text 1 (JInt 42)))]].

Definition answering_stack : state := sample_stack newCPolkaApi (sample_client (sample_ws true true answering) []).

Lemma request_on_the_wire_witness :
  exists c', request health_query 10 answering_stack = Some (Ret (JInt 42), set_node (J := sample_rpc) c' answering_stack)
    /\ wire (wclient (wsc c')) = [dump (request_json version_text 1 health_query)]
    /\ pending_updates c' = [(7, JInt 3)] /\ ready 2 (wsc c').
Proof.
  destruct (request_on_the_wire version_text [] 2 1 health_query 10 (JInt 42) [sample_update] [] (concat answering) answering_stack)
    as (c' & E & Ew & _ & Eu & _ & Er).
  - by repeat split.
  - by vm_compute.
  - vm_compute. reflexivity.
  - apply List.Forall_cons; [split; [vm_compute; reflexivity|done]|constructor].
  - constructor.
  - reflexivity.
  - vm_compute. by eexists.
  - eexists _, _. split; [reflexivity|]. split; [reflexivity|]. split; [repeat constructor|vm_compute; reflexivity].
  - exists c'. split; [exact E|]. split; [exact Ew|]. split; [exact Eu|]. by apply Er.
Defined.

Definition dead_stack : state := sample_stack newCPolkaApi (sample_client (sample_ws true false []) []).

(** The state after [run] has thrown. *)
Definition run_threw (st : state (J := sample_rpc)) : state (J := sample_rpc) :=
  set_node (J := sample_rpc) (set_wsc (set_wclient (set_open false (wclient (wsc (node st)))) (wsc (node st))) (node st)) st.

Lemma send_exception_stops_requests_witness :
  exists st1, request health_query 10 dead_stack = Some (Throw (websocketpp_exception (str "invalid state")), st1)
    /\ (exists st3, request health_query 10 st1 = Some (UB, st3))
    /\ exists st3, request health_query 10 (run_threw st1) = Some (Throw not_connected, st3).
Proof.
  destruct (send_exception_stops_requests version_text [] 2 1 health_query 10 (websocketpp_exception (str "invalid state")) (sample_net false []) dead_stack)
    as (st1 & E & Hc & Hl & H).
  - by repeat split.
  - by vm_compute.
  - reflexivity.
  - exists st1. split; [exact E|]. split.
    + destruct (H st1 (rtc_refl _ _)) as [_ H1]. destruct (H1 health_query 10) as [st3 E3]. rewrite Hc in E3. by exists st3.
    + destruct (H (run_threw st1)) as [_ H1]; [|exact (H1 health_query 10)].
      apply rtc_once, ws_call. by eapply (step_io _ (RunThrew (websocketpp_exception []))).
Defined.

Definition new_stack : state := sample_stack newCPolkaApi (sample_client (sample_ws false true []) []).

Lemma connect_reports_witness :
  exists st', Api.connect (str "https://kusama-rpc.polkadot.io") new_stack = Some (Throw not_connected, st')
    /\ polka st' = newCPolkaApi.
Proof.
  refine (proj1 (connect_reports version_text [] 2 1 (str "https://kusama-rpc.polkadot.io") PAPI_CANT_CONNECT
    (set_target true (str "https://kusama-rpc.polkadot.io") (sample_ws false true [])) new_stack _ _ _ _ _) _).
  - by split.
  - reflexivity.
  - by vm_compute.
  - vm_compute. reflexivity.
  - reflexivity.
  - reflexivity.
Defined.

Definition sample_heads : list (list Z) := [str "1f"; str "20"; str "0100"].

Definition heads_stack : state :=
  sample_stack (set_slot BlockNumberSlot {| subscriber := Some (User 4); subscriptionId := Some 9 |} newCPolkaApi)
    (sample_client (sample_ws true true [Message true ∘ head_text version_text (str "chain_newHead") 9 <$> sample_heads]) [9]).

Lemma heads_reach_application_witness :
  exists st', pass_time version_text [] 2 1 heads_stack = Some (Ret tt, st')
    /\ calls st' = [(4%nat, BlockNumber 31); (4%nat, BlockNumber 32); (4%nat, BlockNumber 256)].
Proof.
  destruct (heads_reach_application version_text [] 2 1 4 9 (str "chain_newHead") sample_heads
    (Message true ∘ head_text version_text (str "chain_newHead") 9 <$> sample_heads) (sample_net true []) heads_stack) as (st' & E & Ec & _).
  - reflexivity.
  - done.
  - by left.
  - reflexivity.
  - reflexivity.
  - by split.
  - reflexivity.
  - repeat constructor.
  - reflexivity.
  - repeat (apply List.Forall_cons; [split; [vm_compute; reflexivity|split; [|vm_compute; reflexivity]]; repeat (apply List.Forall_cons; [vm_compute; by eexists|]); constructor|]). constructor.
  - exists st'. split; [exact E|]. exact Ec.
Defined.
